(* ===== verification/_CoqProject ===== *)
-Q . S2P
Prelude.v
Bytes.v
World.v
Text.v
Files.v
Extern.v
Crypto.v
Descriptor.v
Chunker.v
Package.v
Storage.v
State.v
Library.v
Codec.v
Handshake.v
DownloadState.v
Reconstruct.v
Download.v
Swarm.v
Seed.v
Serve.v
Transfer.v
Discovery.v
Config.v
Ipc.v
Output.v
Progress.v
Daemon.v
Server.v
Gui.v
GuiApp.v
GuiProofs.v
Cli.v
Etled.v
Examples.v
Build.v
View.v
Desktop.v
