(* ===== verification/Prelude.v ===== *)
(** * ETLE: encrypted file transfer over a local network

    A verification of the Rust program under [src/src]: files are split into
    chunks, encrypted, kept in a library on disk, and exchanged between peers over
    authenticated sessions. The development is a library of Rocq files; each models
    one component as executable functions over an explicit world and proves what
    the component promises.

    ** The program and its model

    - [Prelude] (this file): outcomes ([result]: a value, an error, an explicit panic
      or an exhausted loop), the state-and-error monad [M], total weakest
      preconditions [wp] that exclude panic and divergence, with the tactics
      [wp_simpl], [wp_step] and [run_inv]; stable sorting, splitting into pieces.
    - [Bytes]: bytes, fixed-size arrays, big- and little-endian integers, UTF-8
      strings as byte strings, decimal printing, saturating arithmetic.
    - [World], [Files]: the world an effectful function runs in: files and
      directories, one connection with its unread input and written output, a clock,
      a random source, faults. Every primitive may fail at any step by a fault, and
      the specifications say what a failing call may leave behind.
    - [Extern]: the interfaces of the crates the code calls (BLAKE3, X25519,
      XChaCha20-Poly1305, bincode) as type classes, the documented laws the theorems
      use as classes of their own, and a concrete instance of each ([Toy]) on which
      the examples and witnesses run.
    - [Crypto] ([crypto/*]): hashing, authenticated encryption, key exchange, tags,
      key wrapping.
    - [Descriptor] ([file/manifest.rs], [file/descriptor.rs]), [Chunker]
      ([file/chunker.rs]), [Package] ([file/package.rs]), [Storage]
      ([file/storage.rs] and the workspace of the examples).
    - [State] ([state/model.rs], [state/codec.rs]), [Library] ([state/paths.rs],
      [state/storage.rs], [state/library.rs]): progress records, their compact
      encoding, and the library of shares on disk.
    - [Codec] ([protocol/*]): messages, frames and the streaming of chunk files.
    - [Handshake] ([network/handshake.rs], [network/key_exchange.rs],
      [network/tcp.rs]).
    - [DownloadState], [Reconstruct], [Download], [Swarm]
      ([network/transfer/download.rs], [options.rs], [prelude.rs], [progress.rs]):
      the state of a running download, the reconstruction of the output, the download
      from one peer after another with its request window, and the parallel download.
    - [Seed] ([network/transfer/seed.rs]), [Serve] ([network/transfer/serve.rs]).
    - [Transfer]: a server and a downloader run against each other.
    - [Text]: text as Unicode code points, UTF-8 decoding, numbers and addresses as
      [FromStr] reads them. [Config] ([config/*]): the configuration file.
    - [Discovery] ([discovery/*]): the UDP search for peers, both sides, over a socket
      [Udp] that holds what will arrive, what was sent, and a [World].
    - [Ipc] ([ipc/message.rs], [codec.rs], [client.rs], [path.rs], [error.rs]): the
      protocol between the daemon and its clients. [Output] and [Daemon]
      ([ipc/server/commands.rs]), [Server] ([ipc/server/listener.rs], [events.rs],
      [cleanup.rs], [bind_ipc_listener]): the daemon's state is a [Daemon.Daemon], the
      UDP socket and world above with the progress reporter, the queue of spawned jobs
      and the number of subscribers. [Progress] ([network/transfer/progress.rs],
      [jobs.rs], [publish]): the reporter, the registry of jobs, the event bus.
    - [Gui] ([gui/model.rs], [format.rs]), [GuiApp] ([gui/app.rs], [gui/ipc.rs]) and
      [GuiProofs]: the graphical client as a state machine. [GuiApp.update] takes one
      message and the surroundings it meets to the next state and the requests made;
      the fields of [EtleGui] are in six groups.
    - [Cli] ([bin/etle-cli.rs], [build_info.rs], [GuiInit::default]) and [Etled]
      ([bin/etled.rs], [share_forever], [library_forever], [tcp.rs]): the programs. Their
      state is that of the components they start, with the lines printed.
    - [View] ([gui/widgets.rs], [init] and [update_view] of [gui/app.rs]): what the window
      shows, as the calls made of GTK's widgets after each message, whose documented
      effect is [View.ToolkitLaws], and what each control sends. [Desktop] ([gui/ipc.rs]): the
      threads between the window and the daemon.
    - [Examples] ([examples/*.rs]): the two example programs. [Build] ([build.rs], the
      constants of [build_info.rs]): what the build script prints and cargo reads; the
      environment, the programs it runs, the clock and cargo are parameters.

    ** How code becomes definitions

    A function of the source is a definition of the same name; a method carries
    its type as a prefix where the name alone is ambiguous. [Result] is [result],
    [?] is [bind] with [map_err] for the conversion of the error, a [for] loop is
    [mfold], a [loop] is [mloop] with fuel. [println!] is ignored
    outside the programs. Integers are [Z] with the width of the source written out where a computation can leave it
    ([checked_add], [saturating_add], [as u32], indexing of a byte); [usize] has 64
    bits. Paths are lists of components. Strings are UTF-8 byte strings. Threads and
    tasks appear as the order in which their effects happen: the parallel
    reconstruction and seeding take an arbitrary order of arrival, the parallel
    download is a state machine per worker that is run under an arbitrary schedule.

    Fuel is never the reason a theorem holds: the specifications are total, so each
    loop is shown to end within its fuel. The fuel of the request loops is the
    number of chunks plus one or two, of the server loop the length of the input, of
    the creation of a fresh directory the number of entries of the file system plus
    one, of a parallel download [Swarm.swarm_measure], of the receive loops the
    number of blocks of the frame.

    ** What the theorems show

    - Safety against any peer, any content of the disk and any failing operation:
      [Download.download_correct], [Swarm.parallel_download_correct],
      [Serve.serve_safe], [Reconstruct.reconstruct_sound],
      [Handshake.exchange_authenticates], [Codec.receive_total],
      [Storage.tampered_chunk_rejected].
    - Functional correctness without failures: [Transfer.transfer_completes]
      (a server and a downloader complete a transfer),
      [Reconstruct.reconstruct_complete], [Seed.seed_correct],
      [Seed.seed_reconstruct_roundtrip], [DownloadState.resume_exact].
    - Refinement: the server against an abstract server ([Serve.serve_refines]),
      the workers against an abstract machine that shares out chunks
      ([Swarm.run_swarm_refines]), the sorted progress list against a finite set
      ([State.progress_refines_set]).
    - Round trips of every encoding, equality of the streaming and the in-memory
      variants of the codec, atomicity of the writes of the library.
    - Configuration: what is written is read back ([Config.load_roundtrip]), every
      text is either typed or diagnosed at its first bad line ([Config.parse_typed],
      [Config.parse_diagnoses]).
    - Discovery: the server only answers, with what its library holds
      ([Discovery.serve_only_answers]); the client returns sorted, distinct peers that
      answered ([Discovery.peers_with_correct]); the two find each other
      ([Discovery.discovery_finds_seeder]).
    - The daemon: what each command answers and does ([Daemon.handle_async_correct]),
      its jobs against any peer, disk and network ([Daemon.download_job_correct],
      [Daemon.seed_job_correct], [Output.move_auto_download_output_safe]), one
      connection in every case ([Server.once_correct]), whole runs under any clients and
      any order of jobs ([Server.forever_correct]), and the two ends of a connection
      together ([Server.ipc_exchange_roundtrip], [Server.subscription_roundtrip]);
      progress is accounted for exactly ([Progress.progress_run_complete]).
    - The graphical client, over every run of messages, whatever the daemon answers: its
      state stays sound ([GuiProofs.gui_run_ok]), it deletes only what was confirmed
      ([GuiProofs.delete_confirmed]), one subscription is alive
      ([GuiProofs.one_live_watch]). What it asks is done by the daemon, and it shows the
      daemon's answer ([Desktop.window_daemon_correct], [Desktop.window_watch_correct]);
      the screen shows the state ([View.view_faithful]); the controls and the state
      settle ([View.controls_settle]); the download asked for is the one on the page
      ([View.download_page_sends], [GuiProofs.download_form_roundtrip]).
    - The programs: a command line reaches the daemon and its answer the terminal
      ([Cli.cli_daemon_correct]); the accept loops serve whoever comes
      ([Etled.accept_loops_correct]); a run of the daemon from start to end
      ([Etled.etled_serve_correct]); what each program does with a configuration that
      has an error ([Etled.broken_configuration]).
    - The examples end with [ok] only when the copy is exact, and do end so on a machine
      without faults ([Examples.examples_sound], [Examples.examples_succeed]); the build
      script sets every variable once, whatever it reads ([Build.build_script_correct]),
      and the text of the version keeps its lines ([Build.version_text_intact]).

    ** Not modelled

    The layout of the window and its style ([gui/style.rs], the boxes and labels of
    [gui/widgets.rs]) and the start of the toolkit; [gui/progress.rs] is called only from
    a match arm that no event reaches. The unit tests of the source. The parser
    of command lines ([clap]) is a parameter. The tasks [etled] starts beside its main
    loop are the loops of [Etled] and [Discovery], which are not interleaved with it:
    they have their own sockets and only read the library.
    The variants for Windows and for
    platforms without local sockets, the text of progress lines, and the capacity of
    the broadcast channel (a subscriber may lag by any number) are left out. *)
From stdpp Require Import base tactics list gmap strings sorting.
From Stdlib Require Import ZArith Lia.

Declare Scope etle_scope.
Delimit Scope etle_scope with etle.

(** * Outcomes

    [Ok]/[Err] are Rust's [Result]; [Panic] is an explicit panic (index out of
    bounds, [unreachable!], arithmetic overflow); [Diverged] marks a fuelled
    loop whose fuel ran out. *)
Inductive result (E A : Type) : Type :=
  | Ok (a : A)
  | Err (e : E)
  | Panic
  | Diverged.
Arguments Ok {E A} a.
Arguments Err {E A} e.
Arguments Panic {E A}.
Arguments Diverged {E A}.

Global Instance result_eq_dec {E A} `{EqDecision E, EqDecision A} :
  EqDecision (result E A).
Proof. solve_decision. Defined.

Definition result_bind {E A B} (r : result E A) (k : A → result E B) : result E B :=
  match r with
  | Ok a => k a
  | Err e => Err e
  | Panic => Panic
  | Diverged => Diverged
  end.

Definition result_map_err {E E' A} (f : E → E') (r : result E A) : result E' A :=
  match r with
  | Ok a => Ok a
  | Err e => Err (f e)
  | Panic => Panic
  | Diverged => Diverged
  end.

Definition ok_or {E A} (o : option A) (e : E) : result E A :=
  match o with Some a => Ok a | None => Err e end.

Notation "'let?' x ':=' r 'in' k" := (result_bind r (λ x, k))
  (at level 10, x name, r at level 100, k at level 200) : etle_scope.

Lemma result_bind_Ok {E A B} (r : result E A) (k : A → result E B) b :
  result_bind r k = Ok b ↔ ∃ a, r = Ok a ∧ k a = Ok b.
Proof. destruct r; simpl; naive_solver. Qed.

Lemma ok_or_Ok {E A} (o : option A) (e : E) a : ok_or o e = Ok a ↔ o = Some a.
Proof. destruct o; naive_solver. Qed.

(** [mapM] over the error monad, the shape of Rust's
    [iter().map(..).collect::<Result<Vec<_>, _>>()]. *)
Fixpoint result_mapM {E A B} (f : A → result E B) (l : list A) : result E (list B) :=
  match l with
  | [] => Ok []
  | a :: l => result_bind (f a) (λ b, result_bind (result_mapM f l) (λ bs, Ok (b :: bs)))
  end.

Lemma result_mapM_Ok {E A B} (f : A → result E B) l bs :
  result_mapM f l = Ok bs ↔ Forall2 (λ a b, f a = Ok b) l bs.
Proof.
  revert bs; induction l as [|a l IH]; intros bs; simpl.
  - split; [intros [= <-]; constructor | intros H; by inversion H].
  - rewrite result_bind_Ok. setoid_rewrite result_bind_Ok. split.
    + intros (b & Hb & bs' & Hbs & [= <-]). constructor; [done | by apply IH].
    + intros H. inversion H as [|? b ? bs' Hb Hbs]; subst. exists b; split; [done|].
      exists bs'; split; [by apply IH | done].
Qed.

(** * The state and error monad of the effectful code *)
Definition M (S E A : Type) : Type := S → result E A * S.

Section monad.
Context {S E : Type}.

Definition ret {A} (a : A) : M S E A := λ s, (Ok a, s).
Definition throw {A} (e : E) : M S E A := λ s, (Err e, s).
Definition panic {A} : M S E A := λ s, (Panic, s).
Definition diverge {A} : M S E A := λ s, (Diverged, s).

Definition bind {A B} (m : M S E A) (k : A → M S E B) : M S E B := λ s,
  match m s with
  | (Ok a, s') => k a s'
  | (Err e, s') => (Err e, s')
  | (Panic, s') => (Panic, s')
  | (Diverged, s') => (Diverged, s')
  end.

Definition gets {A} (f : S → A) : M S E A := λ s, (Ok (f s), s).
Definition modify (f : S → S) : M S E unit := λ s, (Ok tt, f s).
Definition lift_result {A} (r : result E A) : M S E A := λ s, (r, s).

(** [for x in l { acc = f(acc, x)?; }] *)
Fixpoint mfold {A X} (f : A → X → M S E A) (a : A) (l : list X) : M S E A :=
  match l with
  | [] => ret a
  | x :: l => bind (f a x) (λ a', mfold f a' l)
  end.

(** [loop { .. }]: [inl] continues with a new loop state, [inr] breaks. *)
Fixpoint mloop {A B} (fuel : nat) (body : A → M S E (A + B)) (a : A) : M S E B :=
  match fuel with
  | O => diverge
  | Datatypes.S fuel => bind (body a) (λ r,
      match r with
      | inl a' => mloop fuel body a'
      | inr b => ret b
      end)
  end.
End monad.

(** Rust's [.map_err(f)] and the [From] conversions of [?]. *)
Definition map_err {S E E' A} (f : E → E') (m : M S E A) : M S E' A := λ s,
  match m s with (r, s') => (result_map_err f r, s') end.

(** Running a computation for its outcome: [match m { Ok(_) => .., Err(_) => .. }]
    in the source, which cannot itself fail. *)
Definition try_ {S E E' A} (m : M S E A) : M S E' (result E A) := λ s,
  match m s with
  | (Panic, s') => (Panic, s')
  | (Diverged, s') => (Diverged, s')
  | (r, s') => (Ok r, s')
  end.

Notation "'let!' x ':=' m 'in' k" := (bind m (λ x, k))
  (at level 10, x name, m at level 100, k at level 200,
   format "'[v' 'let!'  x  ':='  m  'in' '/' k ']'") : etle_scope.
Notation "'let!' ' p ':=' m 'in' k" := (bind m (λ x, let p := x in k))
  (at level 10, p strict pattern, m at level 100, k at level 200) : etle_scope.
Notation "'do!' m 'in' k" := (bind m (λ _, k))
  (at level 10, m at level 100, k at level 200,
   format "'[v' 'do!'  m  'in' '/' k ']'") : etle_scope.

(** * Weakest preconditions (total: [Panic] and [Diverged] are excluded) *)
Definition wp {S E A} (m : M S E A) (Q : A → S → Prop) (R : E → S → Prop) (s : S) : Prop :=
  match m s with
  | (Ok a, s') => Q a s'
  | (Err e, s') => R e s'
  | _ => False
  end.

Section wp.
Context {S E : Type}.
Implicit Types (s : S).

Lemma wp_mono {A} (m : M S E A) (Q Q' : A → S → Prop) (R R' : E → S → Prop) s :
  wp m Q R s →
  (∀ a s', Q a s' → Q' a s') → (∀ e s', R e s' → R' e s') →
  wp m Q' R' s.
Proof. unfold wp. destruct (m s) as [[] ?]; auto. Qed.

Lemma wp_ret {A} (a : A) (Q : A → S → Prop) (R : E → S → Prop) s :
  Q a s → wp (ret a) Q R s.
Proof. done. Qed.

Lemma wp_throw {A} (e : E) (Q : A → S → Prop) (R : E → S → Prop) s :
  R e s → wp (throw e) Q R s.
Proof. done. Qed.

Lemma wp_bind {A B} (m : M S E A) (k : A → M S E B) (Q : B → S → Prop) (R : E → S → Prop) s :
  wp m (λ a s', wp (k a) Q R s') R s → wp (bind m k) Q R s.
Proof. unfold wp, bind. by destruct (m s) as [[] ?]. Qed.

Lemma wp_unbind {A B} (m : M S E A) (k : A → M S E B) (Q : B → S → Prop) (R : E → S → Prop) s :
  wp (bind m k) Q R s → wp m (λ a s', wp (k a) Q R s') R s.
Proof. unfold wp, bind. by destruct (m s) as [[] ?]. Qed.

Lemma wp_assoc {A B C} (m : M S E A) (k : A → M S E B) (l : B → M S E C) (Q : C → S → Prop)
    (R : E → S → Prop) s :
  wp (bind (bind m k) l) Q R s → wp (bind m (λ a, bind (k a) l)) Q R s.
Proof. unfold wp, bind. by destruct (m s) as [[] ?]. Qed.

Lemma wp_gets {A} (f : S → A) (Q : A → S → Prop) (R : E → S → Prop) s :
  Q (f s) s → wp (gets f) Q R s.
Proof. done. Qed.

Lemma wp_modify (f : S → S) (Q : unit → S → Prop) (R : E → S → Prop) s :
  Q tt (f s) → wp (modify f) Q R s.
Proof. done. Qed.

Lemma wp_map_err {E' A} (f : E' → E) (m : M S E' A) (Q : A → S → Prop) (R : E → S → Prop) s :
  wp m Q (λ e, R (f e)) s → wp (map_err f m) Q R s.
Proof. unfold wp, map_err. by destruct (m s) as [[] ?]. Qed.

Lemma wp_try {E' A} (m : M S E' A) (Q : result E' A → S → Prop) (R : E → S → Prop) s :
  wp m (λ a, Q (Ok a)) (λ e, Q (Err e)) s → wp (try_ m) Q R s.
Proof. unfold wp, try_. by destruct (m s) as [[] ?]. Qed.

Lemma wp_lift_result {A} (r : result E A) (Q : A → S → Prop) (R : E → S → Prop) s :
  match r with Ok a => Q a s | Err e => R e s | _ => False end → wp (lift_result r) Q R s.
Proof. by destruct r. Qed.

(** The invariant rule of [for] loops, indexed by what has been consumed. *)
Lemma wp_mfold {A X} (f : A → X → M S E A) (I : list X → A → S → Prop)
    (l : list X) (a : A) (R : E → S → Prop) s :
  I [] a s →
  (∀ done x rest a s, l = done ++ x :: rest → I done a s →
     wp (f a x) (λ a' s', I (done ++ [x]) a' s') R s) →
  wp (mfold f a l) (I l) R s.
Proof.
  intros Hinit Hstep.
  cut (∀ rest done a s, l = done ++ rest → I done a s → wp (mfold f a rest) (I l) R s).
  { intros Hcut. by apply (Hcut l []). }
  clear a s Hinit. induction rest as [|x rest IH]; intros done a s Hl HI; simpl.
  - rewrite app_nil_r in Hl. subst. by apply wp_ret.
  - apply wp_bind. eapply wp_mono; [by eapply Hstep | | done].
    intros a' s' HI'. eapply IH; [|done]. by rewrite <- app_assoc.
Qed.

(** The invariant rule of [loop]: a measure below the fuel shrinks on [continue]. *)
Lemma wp_mloop {A B} (body : A → M S E (A + B)) (I : A → S → Prop) (m : A → S → nat)
    (Q : B → S → Prop) (R : E → S → Prop) fuel a s :
  I a s → (m a s < fuel)%nat →
  (∀ a s, I a s →
     wp (body a) (λ r s', match r with
                          | inl a' => I a' s' ∧ (m a' s' < m a s)%nat
                          | inr b => Q b s'
                          end) R s) →
  wp (mloop fuel body a) Q R s.
Proof.
  intros HI Hm Hbody. revert a s HI Hm.
  induction fuel as [|fuel IH]; intros a s HI Hm; [lia|]. simpl.
  apply wp_bind. eapply wp_mono; [by apply Hbody| |done].
  intros [a'|b] s'; [intros [??]; apply IH; [done|lia] | by intros ?; apply wp_ret].
Qed.

(** Adequacy: a [wp] is a statement about the run itself. *)
Lemma wp_run {A} (m : M S E A) (Q : A → S → Prop) (R : E → S → Prop) s :
  wp m Q R s →
  (∃ a s', m s = (Ok a, s') ∧ Q a s') ∨ (∃ e s', m s = (Err e, s') ∧ R e s').
Proof. unfold wp. destruct (m s) as [[a|e| |] s']; naive_solver. Qed.

Lemma wp_Ok {A} (m : M S E A) (Q : A → S → Prop) (R : E → S → Prop) s a s' :
  wp m Q R s → m s = (Ok a, s') → Q a s'.
Proof. unfold wp. intros H Hr. by rewrite Hr in H. Qed.

Lemma wp_Err {A} (m : M S E A) (Q : A → S → Prop) (R : E → S → Prop) s e s' :
  wp m Q R s → m s = (Err e, s') → R e s'.
Proof. unfold wp. intros H Hr. by rewrite Hr in H. Qed.
End wp.

(** The same with a postcondition for [Panic]. *)
Definition wpp {S E A} (m : M S E A) (Q : A → S → Prop) (R : E → S → Prop) (P : S → Prop) (s : S) : Prop :=
  match m s with
  | (Ok a, s') => Q a s'
  | (Err e, s') => R e s'
  | (Panic, s') => P s'
  | (Diverged, _) => False
  end.

Section wpp.
Context {S E : Type}.
Implicit Types (s : S) (P : S → Prop).

Lemma wp_wpp {A} (m : M S E A) (Q : A → S → Prop) (R : E → S → Prop) P s : wp m Q R s → wpp m Q R P s.
Proof. unfold wp, wpp. by destruct (m s) as [[] ?]. Qed.

Lemma wpp_wp {A} (m : M S E A) (Q : A → S → Prop) (R : E → S → Prop) P s :
  wpp m Q R P s → (∀ s', ¬ P s') → wp m Q R s.
Proof. unfold wp, wpp. destruct (m s) as [[] ?]; naive_solver. Qed.

Lemma wpp_mono {A} (m : M S E A) (Q Q' : A → S → Prop) (R R' : E → S → Prop) P P' s :
  wpp m Q R P s → (∀ a s', Q a s' → Q' a s') → (∀ e s', R e s' → R' e s') → (∀ s', P s' → P' s') →
  wpp m Q' R' P' s.
Proof. unfold wpp. destruct (m s) as [[] ?]; auto. Qed.

Lemma wpp_bind {A B} (m : M S E A) (k : A → M S E B) (Q : B → S → Prop) (R : E → S → Prop) P s :
  wpp m (λ a s', wpp (k a) Q R P s') R P s → wpp (bind m k) Q R P s.
Proof. unfold wpp, bind. by destruct (m s) as [[] ?]. Qed.

Lemma wpp_map_err {E' A} (f : E' → E) (m : M S E' A) (Q : A → S → Prop) (R : E → S → Prop) P s :
  wpp m Q (λ e, R (f e)) P s → wpp (map_err f m) Q R P s.
Proof. unfold wpp, map_err. by destruct (m s) as [[] ?]. Qed.

Lemma wpp_try {E' A} (m : M S E' A) (Q : result E' A → S → Prop) (R : E → S → Prop) P s :
  wpp m (λ a, Q (Ok a)) (λ e, Q (Err e)) P s → wpp (try_ m) Q R P s.
Proof. unfold wpp, try_. by destruct (m s) as [[] ?]. Qed.

Lemma wpp_panic {A} (Q : A → S → Prop) (R : E → S → Prop) P s : P s → wpp panic Q R P s.
Proof. done. Qed.

(** The loop rule: a measure below the fuel shrinks on [continue]. *)
Lemma wpp_mloop {A B} (body : A → M S E (A + B)) (I : A → S → Prop) (m : A → S → nat)
    (Q : B → S → Prop) (R : E → S → Prop) P fuel a s :
  I a s → (m a s < fuel)%nat →
  (∀ a s, I a s →
     wpp (body a) (λ r s', match r with
                           | inl a' => I a' s' ∧ (m a' s' < m a s)%nat
                           | inr b => Q b s'
                           end) R P s) →
  wpp (mloop fuel body a) Q R P s.
Proof.
  intros HI Hm Hbody. revert a s HI Hm.
  induction fuel as [|fuel IH]; intros a s HI Hm; [lia|]. simpl.
  apply wpp_bind. eapply wpp_mono; [by apply Hbody| |done|done].
  intros [a'|b] s'; [intros [??]; apply IH; [done|lia] | by intros ?].
Qed.
End wpp.

(** [wp_use H] proves a [wp] goal from the specification [H], leaving the two
    implications between postconditions. *)
Ltac wp_use H := eapply wp_mono; [eapply H | |].

(** [wp_simpl] runs through the structural commands in front of the goal. *)
Ltac wp_step :=
  match goal with
  | |- wp (bind _ _) _ _ _ => apply wp_bind
  | |- wp (ret _) _ _ _ => apply wp_ret
  | |- wp (throw _) _ _ _ => apply wp_throw
  | |- wp (gets _) _ _ _ => apply wp_gets
  | |- wp (modify _) _ _ _ => apply wp_modify
  | |- wp (map_err _ _) _ _ _ => apply wp_map_err
  | |- wp (try_ _) _ _ _ => apply wp_try
  | |- wp (lift_result _) _ _ _ => apply wp_lift_result
  end; cbn beta iota.
Ltac wp_simpl := repeat wp_step.

(** [run_inv H] decomposes a successful run [bind m k s = (Ok b, s')]. *)
Lemma bind_Ok_inv {S E A B} (m : M S E A) (k : A → M S E B) s b s' :
  bind m k s = (Ok b, s') → ∃ a s1, m s = (Ok a, s1) ∧ k a s1 = (Ok b, s').
Proof. unfold bind. destruct (m s) as [[] ?]; naive_solver. Qed.

Lemma bind_assoc {S E A B C} (m : M S E A) (k : A → M S E B) (l : B → M S E C) s :
  bind (bind m k) l s = bind m (λ a, bind (k a) l) s.
Proof. unfold bind. by destruct (m s) as [[] ?]. Qed.

Lemma map_err_Ok_inv {S E E' A} (f : E → E') (m : M S E A) s a s' :
  map_err f m s = (Ok a, s') → m s = (Ok a, s').
Proof. unfold map_err. destruct (m s) as [[] ?]; naive_solver. Qed.

Lemma bind_Ok {S E A B} (m : M S E A) (k : A → M S E B) s a s1 :
  m s = (Ok a, s1) → bind m k s = k a s1.
Proof. unfold bind. by intros ->. Qed.

Lemma map_err_Ok {S E E' A} (f : E → E') (m : M S E A) s a s' :
  m s = (Ok a, s') → map_err f m s = (Ok a, s').
Proof. unfold map_err. by intros ->. Qed.

Ltac run_inv H :=
  let a := fresh "v" in let s1 := fresh "s" in let H1 := fresh H in
  apply bind_Ok_inv in H as (a & s1 & H1 & H).

Create HintDb etle discriminated.
Create HintDb etle_rw.

(** Prove a closed decidable proposition by evaluating its decision procedure. *)
Ltac by_decide := match goal with |- ?P => apply (bool_decide_unpack P) end; vm_compute; exact I.

(** * Stable sorting, Rust's [sort_by_key]/[sort_by] *)
Section sort.
Context {A : Type} (leb : A → A → bool).

Fixpoint insert_by (x : A) (l : list A) : list A :=
  match l with
  | [] => [x]
  | y :: l => if leb x y then x :: y :: l else y :: insert_by x l
  end.

Definition sort_by (l : list A) : list A := foldr insert_by [] l.

Lemma insert_by_perm x l : insert_by x l ≡ₚ x :: l.
Proof.
  induction l as [|y l IH]; [done|]. simpl. destruct (leb x y); [done|].
  rewrite IH. apply Permutation_swap.
Qed.

Lemma sort_by_perm l : sort_by l ≡ₚ l.
Proof. induction l as [|x l IH]; [done|]. simpl. by rewrite insert_by_perm, IH. Qed.

Context (Htotal : ∀ x y, leb x y = false → leb y x = true)
        (Htrans : ∀ x y z, leb x y = true → leb y z = true → leb x z = true).

Lemma insert_by_sorted x l :
  StronglySorted (λ a b, leb a b = true) l →
  StronglySorted (λ a b, leb a b = true) (insert_by x l).
Proof using Htotal Htrans.
  induction 1 as [|y l Hl IH Hy]; simpl; [by repeat constructor|].
  destruct (leb x y) eqn:Hxy; constructor; [by constructor| |done|].
  - constructor; [done|]. eapply Forall_impl; [done|]. intros z. by apply Htrans.
  - rewrite insert_by_perm. constructor; [by apply Htotal | done].
Qed.

Lemma sort_by_sorted l : StronglySorted (λ a b, leb a b = true) (sort_by l).
Proof using Htotal Htrans.
  induction l as [|x l IH]; simpl; [constructor|]. by apply insert_by_sorted.
Qed.

(** Sorting a permutation of a strictly sorted list gives that list. *)
Lemma sort_by_unique l k :
  k ≡ₚ l → StronglySorted (λ a b, leb a b = true ∧ leb b a = false) l → sort_by k = l.
Proof using Htotal Htrans.
  intros Hperm Hl. pose proof (sort_by_sorted k) as Hk.
  assert (sort_by k ≡ₚ l) as Hp by (by rewrite sort_by_perm).
  clear Hperm. revert Hk Hp. generalize (sort_by k) as s. clear k.
  induction Hl as [|x l Hl IH Hx]; intros s Hs Hp.
  - by apply Permutation_nil_r in Hp.
  - destruct s as [|y s]; [by apply Permutation_nil_cons in Hp|].
    apply StronglySorted_inv in Hs as [Hs Hy]. rewrite Forall_forall in Hx, Hy.
    assert (y = x) as ->.
    { assert (y ∈ x :: l) as Hyin by (rewrite <- Hp; left).
      apply elem_of_cons in Hyin as [?|Hyin]; [done|].
      assert (x ∈ y :: s) as Hxin by (rewrite Hp; left).
      apply elem_of_cons in Hxin as [?|Hxin]; [done|].
      destruct (Hx y Hyin) as [_ Hyx]. specialize (Hy x Hxin). congruence. }
    f_equal. apply IH; [done|]. by apply Permutation_cons_inv in Hp.
Qed.
End sort.

Lemma StronglySorted_mono {A} (R R' : A → A → Prop) (l : list A) :
  (∀ a b, R a b → R' a b) → StronglySorted R l → StronglySorted R' l.
Proof.
  intros HR. induction 1 as [|x l Hl IH Hx]; constructor; [done|].
  eapply Forall_impl; [exact Hx|]. intros b. apply HR.
Qed.

Lemma StronglySorted_by_lookup {A} (R : A → A → Prop) (l : list A) :
  (∀ i j x y, l !! i = Some x → l !! j = Some y → (i < j)%nat → R x y) → StronglySorted R l.
Proof.
  induction l as [|x l IH]; intros HR; constructor.
  - apply IH. intros i j y z Hy Hz Hlt. apply (HR (S i) (S j)); [done|done|lia].
  - apply Forall_forall. intros y (j & Hj)%list_elem_of_lookup. apply (HR 0%nat (S j)); [done|done|lia].
Qed.

(** [sort_by_key] for an integer key. *)
Definition sort_by_key {A} (key : A → Z) (l : list A) : list A :=
  sort_by (λ a b, Z.leb (key a) (key b)) l.

Lemma sort_by_key_perm {A} (key : A → Z) l : sort_by_key key l ≡ₚ l.
Proof. apply sort_by_perm. Qed.

Lemma sort_by_key_sorted {A} (key : A → Z) l :
  StronglySorted (λ a b, (key a ≤ key b)%Z) (sort_by_key key l).
Proof.
  eapply StronglySorted_mono; [|apply sort_by_sorted].
  - intros a b. apply Z.leb_le.
  - intros x y. rewrite Z.leb_gt, Z.leb_le. lia.
  - intros x y z. rewrite !Z.leb_le. lia.
Qed.

Lemma sort_by_key_unique {A} (key : A → Z) l k :
  k ≡ₚ l → StronglySorted (λ a b, (key a < key b)%Z) l → sort_by_key key k = l.
Proof.
  intros Hp Hl. apply sort_by_unique; [| |done|].
  - intros x y. rewrite Z.leb_gt, Z.leb_le. lia.
  - intros x y z. rewrite !Z.leb_le. lia.
  - eapply StronglySorted_mono; [|done]. intros a b. rewrite Z.leb_gt, Z.leb_le. lia.
Qed.

(** * Splitting a list into pieces of a fixed size *)
Fixpoint split_fuel {A} (fuel n : nat) (l : list A) : list (list A) :=
  match fuel, l with
  | O, _ | _, [] => []
  | Datatypes.S fuel, _ => take n l :: split_fuel fuel n (drop n l)
  end.
Definition split_every {A} (n : nat) (l : list A) : list (list A) := split_fuel (length l) n l.

Lemma split_fuel_pieces {A} (n : nat) (cs : list (list A)) (tl : list A) fuel :
  (0 < n)%nat → Forall (λ c, length c = n) cs → (length tl < n)%nat →
  (length (concat cs ++ tl) ≤ fuel)%nat →
  split_fuel fuel n (concat cs ++ tl) = cs ++ (if decide (tl = []) then [] else [tl]).
Proof.
  intros Hn Hcs Htl. revert fuel. induction Hcs as [|c cs Hc Hcs IH]; intros fuel Hfuel.
  - simpl in *. destruct tl as [|x tl]; [by destruct fuel|]. destruct fuel; [simpl in Hfuel; lia|].
    rewrite decide_False by done. cbn [split_fuel].
    rewrite take_ge, drop_ge by lia. by destruct fuel.
  - cbn [concat] in *. rewrite <- app_assoc in *. rewrite length_app in Hfuel.
    destruct fuel as [|fuel]; [lia|]. destruct c as [|x c]; [simpl in Hc; lia|].
    assert (take n ((x :: c) ++ concat cs ++ tl) = x :: c) as Ht
      by (rewrite <- Hc; apply take_app_length).
    assert (drop n ((x :: c) ++ concat cs ++ tl) = concat cs ++ tl) as Hd
      by (rewrite <- Hc; apply drop_app_length).
    cbn [split_fuel app] in *. rewrite Ht, Hd. f_equal. apply IH. lia.
Qed.

Lemma split_every_pieces {A} (n : nat) (cs : list (list A)) (tl : list A) :
  (0 < n)%nat → Forall (λ c, length c = n) cs → (length tl < n)%nat →
  split_every n (concat cs ++ tl) = cs ++ (if decide (tl = []) then [] else [tl]).
Proof. intros. by apply split_fuel_pieces. Qed.

Lemma split_fuel_enough {A} (n : nat) (l : list A) f1 f2 :
  (0 < n)%nat → (length l ≤ f1)%nat → (length l ≤ f2)%nat → split_fuel f1 n l = split_fuel f2 n l.
Proof.
  intros Hn. revert l f2. induction f1 as [|f1 IH]; intros [|x l] f2 H1 H2; simpl in *;
    destruct f2; simpl in *; try lia; try done.
  f_equal. apply IH; rewrite length_drop; simpl; lia.
Qed.

Lemma split_every_cons {A} (n : nat) (l : list A) :
  (0 < n)%nat → l ≠ [] → split_every n l = take n l :: split_every n (drop n l).
Proof.
  intros Hn Hl. unfold split_every. destruct l as [|x l]; [done|]. cbn [length split_fuel].
  f_equal. apply split_fuel_enough; [done| |done]. rewrite length_drop. simpl. lia.
Qed.

Lemma mapM_app {A B} (f : A → option B) l1 l2 :
  mapM f (l1 ++ l2) = k1 ← mapM f l1; k2 ← mapM f l2; Some (k1 ++ k2).
Proof.
  induction l1 as [|x l1 IH]; simpl; [by destruct (mapM f l2)|].
  destruct (f x); simpl; [|done]. rewrite IH. destruct (mapM f l1); simpl; [|done].
  by destruct (mapM f l2).
Qed.
