(* ===== verification/Bytes.v ===== *)
(** Bytes, fixed-width integers, fixed-size arrays and decimal text: the part
    of Rust's primitive types and standard library the sources use.

    - [byte] is [u8]; [u16]/[u32]/[u64]/[usize] values are [Z] with the range
      predicates [u16_range] .. [usize_range] ([usize] is 64 bits wide);
    - [to_le_bytes]/[to_be_bytes] and their inverses;
    - [array n] is [[u8; n]]: the length is part of the type, as in Rust;
    - [dec] is the [Display] text of an unsigned integer, [dec_pad6] is
      [format!("{:06}")]. *)
From stdpp Require Import base tactics list countable strings.
From Stdlib Require Import ZArith Lia.
From Stdlib Require Strings.Byte Strings.String.
From S2P Require Import Prelude.
Local Open Scope Z_scope.

Notation byte := Byte.byte.
Notation bytes := (list Byte.byte).

Global Instance byte_eq_dec : EqDecision byte := Byte.byte_eq_dec.

Global Instance byte_countable : Countable byte.
Proof.
  refine (inj_countable Byte.to_N Byte.of_N _).
  intros b. apply Byte.of_to_N.
Defined.

(** * Bytes as integers *)
Definition byte_val (b : byte) : Z := Z.of_N (Byte.to_N b).
Definition byte_of_Z (z : Z) : byte :=
  default Byte.x00 (Byte.of_N (Z.to_N (z mod 256))).

Lemma byte_val_range b : 0 ≤ byte_val b < 256.
Proof. unfold byte_val. pose proof (Byte.to_N_bounded b). lia. Qed.

Lemma byte_val_of_Z z : byte_val (byte_of_Z z) = z mod 256.
Proof.
  unfold byte_val, byte_of_Z.
  pose proof (Z.mod_pos_bound z 256 ltac:(lia)) as Hb.
  destruct (Byte.of_N (Z.to_N (z mod 256))) as [b|] eqn:Hof; simpl.
  - apply Byte.to_of_N in Hof. lia.
  - apply Byte.of_N_None_iff in Hof. lia.
Qed.

Lemma byte_val_inj b1 b2 : byte_val b1 = byte_val b2 → b1 = b2.
Proof.
  unfold byte_val. intros H%N2Z.inj. pose proof (Byte.of_to_N b1). pose proof (Byte.of_to_N b2).
  congruence.
Qed.

Lemma byte_of_Z_val b : byte_of_Z (byte_val b) = b.
Proof.
  apply byte_val_inj. rewrite byte_val_of_Z. apply Z.mod_small, byte_val_range.
Qed.

(** Bitwise operators of [u8]. *)
Definition byte_or (a b : byte) : byte := byte_of_Z (Z.lor (byte_val a) (byte_val b)).
Definition byte_and (a b : byte) : byte := byte_of_Z (Z.land (byte_val a) (byte_val b)).
Definition byte_xor (a b : byte) : byte := byte_of_Z (Z.lxor (byte_val a) (byte_val b)).
Definition byte_shl (a : byte) (n : Z) : byte := byte_of_Z (Z.shiftl (byte_val a) n).

Lemma byte_testbit_high b i : 8 ≤ i → Z.testbit (byte_val b) i = false.
Proof.
  intros Hi. pose proof (byte_val_range b) as Hr.
  destruct (decide (byte_val b = 0)) as [->|]; [apply Z.testbit_0_l|].
  apply Z.bits_above_log2; [lia|].
  assert (Z.log2 (byte_val b) < 8) by (apply Z.log2_lt_pow2; lia). lia.
Qed.

Lemma byte_eq_bits a b :
  (∀ i, 0 ≤ i < 8 → Z.testbit (byte_val a) i = Z.testbit (byte_val b) i) → a = b.
Proof.
  intros H. apply byte_val_inj, Z.bits_inj'. intros i Hi.
  destruct (decide (i < 8)); [apply H; lia|]. rewrite !byte_testbit_high by lia. done.
Qed.

Lemma testbit_byte_of_Z z i :
  0 ≤ i < 8 → Z.testbit (byte_val (byte_of_Z z)) i = Z.testbit z i.
Proof.
  intros Hi. rewrite byte_val_of_Z. change 256 with (2 ^ 8).
  apply Z.mod_pow2_bits_low. lia.
Qed.

Lemma testbit_byte_or a b i :
  0 ≤ i < 8 →
  Z.testbit (byte_val (byte_or a b)) i
  = Z.testbit (byte_val a) i || Z.testbit (byte_val b) i.
Proof. intros. unfold byte_or. by rewrite testbit_byte_of_Z, Z.lor_spec. Qed.

Lemma testbit_byte_and a b i :
  0 ≤ i < 8 →
  Z.testbit (byte_val (byte_and a b)) i
  = Z.testbit (byte_val a) i && Z.testbit (byte_val b) i.
Proof. intros. unfold byte_and. by rewrite testbit_byte_of_Z, Z.land_spec. Qed.

Lemma testbit_byte_xor a b i :
  0 ≤ i < 8 →
  Z.testbit (byte_val (byte_xor a b)) i
  = xorb (Z.testbit (byte_val a) i) (Z.testbit (byte_val b) i).
Proof. intros. unfold byte_xor. by rewrite testbit_byte_of_Z, Z.lxor_spec. Qed.

Lemma testbit_x00 i : Z.testbit (byte_val Byte.x00) i = false.
Proof. apply Z.testbit_0_l. Qed.

(** [1_u8 << n] has exactly bit [n]. *)
Lemma testbit_byte_one_shl n i :
  0 ≤ n < 8 → 0 ≤ i < 8 →
  Z.testbit (byte_val (byte_shl Byte.x01 n)) i = bool_decide (i = n).
Proof.
  intros Hn Hi. unfold byte_shl. rewrite testbit_byte_of_Z by done.
  change (byte_val Byte.x01) with 1. rewrite Z.shiftl_spec by lia.
  case_bool_decide as Heq.
  - subst. by rewrite Z.sub_diag.
  - destruct (decide (i < n)); [by rewrite Z.testbit_neg_r by lia|].
    apply Z.bits_above_log2; simpl; lia.
Qed.

(** * Machine integers *)
Definition u16_max : Z := 2 ^ 16 - 1.
Definition u32_max : Z := 2 ^ 32 - 1.
Definition u64_max : Z := 2 ^ 64 - 1.
Definition usize_max : Z := 2 ^ 64 - 1.

Definition u16_range (z : Z) : Prop := 0 ≤ z ≤ u16_max.
Definition u32_range (z : Z) : Prop := 0 ≤ z ≤ u32_max.
Definition u64_range (z : Z) : Prop := 0 ≤ z ≤ u64_max.
Definition usize_range (z : Z) : Prop := 0 ≤ z ≤ usize_max.

Global Instance u16_range_dec z : Decision (u16_range z).
Proof. unfold u16_range. apply _. Defined.
Global Instance u32_range_dec z : Decision (u32_range z).
Proof. unfold u32_range. apply _. Defined.
Global Instance u64_range_dec z : Decision (u64_range z).
Proof. unfold u64_range. apply _. Defined.
Global Instance usize_range_dec z : Decision (usize_range z).
Proof. unfold usize_range. apply _. Defined.

(** [z as u32], [z as u64] of an unsigned value. *)
Definition as_u32 (z : Z) : Z := z mod 2 ^ 32.
Definition as_u64 (z : Z) : Z := z mod 2 ^ 64.

(** [a.checked_add(b)] at the width whose largest value is [max]. *)
Definition checked_add (max a b : Z) : option Z :=
  if decide (a + b ≤ max) then Some (a + b) else None.
Definition saturating_add (max a b : Z) : Z := Z.min max (a + b).

(** The length of a [Vec], as a [usize]. *)
Definition zlen {A} (l : list A) : Z := Z.of_nat (length l).

Lemma zlen_nonneg {A} (l : list A) : 0 ≤ zlen l.
Proof. unfold zlen. lia. Qed.
Lemma zlen_app {A} (l1 l2 : list A) : zlen (l1 ++ l2) = zlen l1 + zlen l2.
Proof. unfold zlen. rewrite length_app. lia. Qed.
Lemma zlen_nil {A} : zlen (@nil A) = 0.
Proof. done. Qed.
Lemma zlen_cons {A} (x : A) l : zlen (x :: l) = 1 + zlen l.
Proof. unfold zlen. simpl. lia. Qed.
Lemma zlen_0 {A} (l : list A) : zlen l = 0 ↔ l = [].
Proof. unfold zlen. destruct l; simpl; split; intros; try done; lia. Qed.
Hint Rewrite @zlen_app @zlen_nil @zlen_cons : etle_rw.

(** * Byte orders *)
Fixpoint le_bytes (n : nat) (z : Z) : bytes :=
  match n with
  | O => []
  | S n => byte_of_Z z :: le_bytes n (z / 256)
  end.

Fixpoint of_le_bytes (l : bytes) : Z :=
  match l with
  | [] => 0
  | b :: l => byte_val b + 256 * of_le_bytes l
  end.

Definition be_bytes (n : nat) (z : Z) : bytes := rev (le_bytes n z).
Definition of_be_bytes (l : bytes) : Z := of_le_bytes (rev l).

Definition u16_to_le_bytes : Z → bytes := le_bytes 2.
Definition u32_to_le_bytes : Z → bytes := le_bytes 4.
Definition u64_to_le_bytes : Z → bytes := le_bytes 8.
Definition u32_to_be_bytes : Z → bytes := be_bytes 4.
Definition u32_from_be_bytes : bytes → Z := of_be_bytes.

Lemma length_le_bytes n z : length (le_bytes n z) = n.
Proof. revert z. induction n; simpl; auto. Qed.

Lemma length_be_bytes n z : length (be_bytes n z) = n.
Proof. unfold be_bytes. by rewrite length_rev, length_le_bytes. Qed.

Lemma length_u32_to_be_bytes z : length (u32_to_be_bytes z) = 4%nat.
Proof. apply length_be_bytes. Qed.

Lemma of_le_le_bytes n z : of_le_bytes (le_bytes n z) = z mod 256 ^ Z.of_nat n.
Proof.
  revert z. induction n as [|n IH]; intros z; cbn [le_bytes of_le_bytes].
  - by rewrite Z.mod_1_r.
  - rewrite IH, byte_val_of_Z, Nat2Z.inj_succ, Z.pow_succ_r by lia.
    rewrite Z.rem_mul_r by lia. lia.
Qed.

Lemma of_le_bytes_range l : 0 ≤ of_le_bytes l < 256 ^ zlen l.
Proof.
  induction l as [|b l IH]; [done|].
  rewrite zlen_cons, Z.pow_add_r, Z.pow_1_r by (pose proof (zlen_nonneg l); lia).
  cbn [of_le_bytes]. pose proof (byte_val_range b). lia.
Qed.

Lemma le_bytes_of_le l : le_bytes (length l) (of_le_bytes l) = l.
Proof.
  induction l as [|b l IH]; [done|]. cbn [length le_bytes of_le_bytes].
  pose proof (byte_val_range b). f_equal.
  - apply byte_val_inj. rewrite byte_val_of_Z, Z.mul_comm, Z.mod_add by lia.
    by apply Z.mod_small.
  - etrans; [|exact IH]. f_equal.
    rewrite Z.mul_comm, Z.div_add, (Z.div_small (byte_val b)) by lia. lia.
Qed.

Lemma le_bytes_inj n a b :
  0 ≤ a < 256 ^ Z.of_nat n → 0 ≤ b < 256 ^ Z.of_nat n →
  le_bytes n a = le_bytes n b → a = b.
Proof.
  intros Ha Hb Heq%(f_equal of_le_bytes). rewrite !of_le_le_bytes in Heq.
  by rewrite !Z.mod_small in Heq.
Qed.

Lemma u16_to_le_bytes_inj a b :
  u16_range a → u16_range b → u16_to_le_bytes a = u16_to_le_bytes b → a = b.
Proof. unfold u16_range, u16_max. intros. apply (le_bytes_inj 2); change (256 ^ Z.of_nat 2) with (2 ^ 16); [lia..|done]. Qed.
Lemma u32_to_le_bytes_inj a b :
  u32_range a → u32_range b → u32_to_le_bytes a = u32_to_le_bytes b → a = b.
Proof. unfold u32_range, u32_max. intros. apply (le_bytes_inj 4); change (256 ^ Z.of_nat 4) with (2 ^ 32); [lia..|done]. Qed.
Lemma u64_to_le_bytes_inj a b :
  u64_range a → u64_range b → u64_to_le_bytes a = u64_to_le_bytes b → a = b.
Proof. unfold u64_range, u64_max. intros. apply (le_bytes_inj 8); change (256 ^ Z.of_nat 8) with (2 ^ 64); [lia..|done]. Qed.

Lemma of_be_be_bytes n z : 0 ≤ z < 256 ^ Z.of_nat n → of_be_bytes (be_bytes n z) = z.
Proof.
  intros. unfold of_be_bytes, be_bytes. rewrite rev_involutive, of_le_le_bytes.
  by apply Z.mod_small.
Qed.

Lemma u32_from_to_be_bytes z :
  u32_range z → u32_from_be_bytes (u32_to_be_bytes z) = z.
Proof. unfold u32_range, u32_max. intros. apply (of_be_be_bytes 4).
  change (256 ^ Z.of_nat 4) with (2 ^ 32). lia. Qed.

Lemma be_bytes_of_be l : be_bytes (length l) (of_be_bytes l) = l.
Proof.
  unfold be_bytes, of_be_bytes. rewrite <- (length_rev l), le_bytes_of_le.
  apply rev_involutive.
Qed.

Lemma u32_from_be_bytes_range l : length l = 4%nat → u32_range (u32_from_be_bytes l).
Proof.
  intros Hl. unfold u32_range, u32_max, u32_from_be_bytes, of_be_bytes.
  pose proof (of_le_bytes_range (rev l)) as H. unfold zlen in H.
  rewrite length_rev, Hl in H. change (256 ^ Z.of_nat 4) with (2 ^ 32) in H. lia.
Qed.

(** Splitting a concatenation at a fixed width. *)
Lemma app_inj_length {A} (l1 l2 k1 k2 : list A) :
  length l1 = length l2 → l1 ++ k1 = l2 ++ k2 → l1 = l2 ∧ k1 = k2.
Proof. intros Hl Heq. by apply app_inj_1 in Heq. Qed.

(** * Fixed-size arrays [[u8; n]] *)
Record array (n : nat) : Type := mk_array {
  array_data : bytes;
  array_ok : Nat.eqb (length array_data) n = true;
}.
Arguments mk_array {n} _ _.
Arguments array_data {n} _.
Arguments array_ok {n} _.

Lemma array_eq {n} (a b : array n) : array_data a = array_data b → a = b.
Proof.
  destruct a as [l Hl], b as [k Hk]. simpl. intros ->. f_equal. apply (proof_irrel _).
Qed.

Lemma length_array {n} (a : array n) : length (array_data a) = n.
Proof. apply Nat.eqb_eq, array_ok. Qed.

(** [<[u8; n]>::try_from(vec)] *)
Definition to_array (n : nat) (l : bytes) : option (array n) :=
  match Nat.eqb (length l) n as b return Nat.eqb (length l) n = b → option (array n) with
  | true => λ H, Some (mk_array l H)
  | false => λ _, None
  end eq_refl.

Lemma to_array_Some n l a : to_array n l = Some a ↔ l = array_data a.
Proof.
  unfold to_array. split.
  - generalize (eq_refl (Nat.eqb (length l) n)).
    generalize (Nat.eqb (length l) n) at 2 3. intros [] H; [|done]. by intros [= <-].
  - intros ->. generalize (eq_refl (Nat.eqb (length (array_data a)) n)).
    generalize (Nat.eqb (length (array_data a)) n) at 2 3. intros [] H.
    + f_equal. by apply array_eq.
    + exfalso. rewrite array_ok in H. done.
Qed.

Lemma to_array_is_Some n l : is_Some (to_array n l) ↔ length l = n.
Proof.
  split.
  - intros [a ->%to_array_Some]. apply length_array.
  - intros H%Nat.eqb_eq. exists (mk_array l H). by apply to_array_Some.
Qed.

Lemma to_array_None n l : to_array n l = None ↔ length l ≠ n.
Proof. rewrite <- to_array_is_Some. apply eq_None_not_Some. Qed.

Lemma to_array_data {n} (a : array n) : to_array n (array_data a) = Some a.
Proof. by apply to_array_Some. Qed.

(** [[b; n]] *)
Program Definition array_repeat (n : nat) (b : byte) : array n :=
  mk_array (replicate n b) _.
Next Obligation. intros. apply Nat.eqb_eq, length_replicate. Qed.

Global Instance array_eq_dec n : EqDecision (array n).
Proof.
  intros a b. destruct (decide (array_data a = array_data b)) as [H|H].
  - left. by apply array_eq.
  - right. congruence.
Defined.

Global Instance array_countable n : Countable (array n).
Proof. refine (inj_countable array_data (to_array n) to_array_data). Defined.

(** * Strings: UTF-8 byte sequences *)
Definition str_bytes (s : string) : bytes := String.list_byte_of_string s.
Definition str_len (s : string) : Z := zlen (str_bytes s).

Lemma str_bytes_inj s1 s2 : str_bytes s1 = str_bytes s2 → s1 = s2.
Proof.
  intros H%(f_equal String.string_of_list_byte). unfold str_bytes in H.
  by rewrite !String.string_of_list_byte_of_string in H.
Qed.

Lemma str_bytes_app s1 s2 : str_bytes (s1 +:+ s2) = str_bytes s1 ++ str_bytes s2.
Proof.
  unfold str_bytes, String.list_byte_of_string.
  induction s1 as [|c s1 IH]; [done|].
  exact (f_equal (cons (Ascii.byte_of_ascii c)) IH).
Qed.

(** * Decimal text *)
Fixpoint dec_digits (fuel : nat) (z : Z) : list Z :=
  match fuel with
  | O => [z]
  | S fuel => if z <? 10 then [z] else dec_digits fuel (z / 10) ++ [z mod 10]
  end.

Definition dec_fuel (z : Z) : nat := Z.to_nat (Z.log2_up (z + 1)).

Definition digit_char (d : Z) : byte := byte_of_Z (48 + d).

Definition dec_bytes (z : Z) : bytes := digit_char <$> dec_digits (dec_fuel z) z.

Definition dec (z : Z) : string := String.string_of_list_byte (dec_bytes z).

(** [format!("{z:06}")] *)
Definition dec_pad6 (z : Z) : string :=
  String.string_of_list_byte
    (replicate (6 - length (dec_bytes z)) (digit_char 0) ++ dec_bytes z).

Fixpoint digits_val (acc : Z) (l : bytes) : Z :=
  match l with
  | [] => acc
  | b :: l => digits_val (10 * acc + (byte_val b - 48)) l
  end.

Lemma digits_val_app acc l1 l2 : digits_val acc (l1 ++ l2) = digits_val (digits_val acc l1) l2.
Proof. revert acc. induction l1; simpl; auto. Qed.

Lemma byte_val_digit d : 0 ≤ d < 10 → byte_val (digit_char d) = 48 + d.
Proof. intros. unfold digit_char. rewrite byte_val_of_Z. apply Z.mod_small. lia. Qed.

Lemma digits_val_dec_digits fuel z :
  0 ≤ z < 2 ^ Z.of_nat fuel →
  digits_val 0 (digit_char <$> dec_digits fuel z) = z.
Proof.
  revert z. induction fuel as [|fuel IH]; intros z Hz.
  - assert (z = 0) as -> by (simpl in Hz; lia). done.
  - cbn [dec_digits]. destruct (Z.ltb_spec z 10).
    + simpl. rewrite byte_val_digit; lia.
    + rewrite fmap_app, digits_val_app, IH.
      * simpl. rewrite byte_val_digit by (apply Z.mod_pos_bound; lia).
        pose proof (Z.div_mod z 10). lia.
      * rewrite Nat2Z.inj_succ, Z.pow_succ_r in Hz by lia. split.
        -- apply Z.div_pos; lia.
        -- apply Z.div_lt_upper_bound; lia.
Qed.

Lemma digits_val_dec z : 0 ≤ z → digits_val 0 (dec_bytes z) = z.
Proof.
  intros Hz. apply digits_val_dec_digits. split; [done|]. unfold dec_fuel.
  rewrite Z2Nat.id by apply Z.log2_up_nonneg.
  destruct (decide (z = 0)) as [->|]; [done|].
  pose proof (Z.log2_up_spec (z + 1)). lia.
Qed.

Lemma digits_val_zeros n l : digits_val 0 (replicate n (digit_char 0) ++ l) = digits_val 0 l.
Proof. induction n; simpl; auto. Qed.

Lemma string_of_list_byte_inj l1 l2 :
  String.string_of_list_byte l1 = String.string_of_list_byte l2 → l1 = l2.
Proof.
  intros H%(f_equal String.list_byte_of_string).
  by rewrite !String.list_byte_of_string_of_list_byte in H.
Qed.

Lemma dec_inj a b : 0 ≤ a → 0 ≤ b → dec a = dec b → a = b.
Proof.
  intros Ha Hb H%string_of_list_byte_inj%(f_equal (digits_val 0)).
  by rewrite !digits_val_dec in H.
Qed.

Lemma dec_pad6_inj a b : 0 ≤ a → 0 ≤ b → dec_pad6 a = dec_pad6 b → a = b.
Proof.
  intros Ha Hb H%string_of_list_byte_inj%(f_equal (digits_val 0)).
  by rewrite !digits_val_zeros, !digits_val_dec in H.
Qed.

Lemma dec_digits_range fuel z :
  0 ≤ z < 2 ^ Z.of_nat fuel → Forall (λ d, 0 ≤ d < 10) (dec_digits fuel z).
Proof.
  revert z. induction fuel as [|fuel IH]; intros z Hz; cbn [dec_digits].
  { simpl in Hz. constructor; [lia|done]. }
  destruct (Z.ltb_spec z 10); [constructor; [lia|done]|].
  apply Forall_app. split.
  - apply IH. rewrite Nat2Z.inj_succ, Z.pow_succ_r in Hz by lia.
    split; [apply Z.div_pos; lia|]. apply Z.div_lt_upper_bound; lia.
  - constructor; [|done]. apply Z.mod_pos_bound. lia.
Qed.

Lemma dec_bytes_digits z : 0 ≤ z → Forall (λ b, 48 ≤ byte_val b < 58) (dec_bytes z).
Proof.
  intros Hz. apply Forall_fmap. eapply Forall_impl; [apply dec_digits_range|].
  - split; [done|]. unfold dec_fuel. pose proof (Z.log2_up_nonneg (z + 1)).
    rewrite Z2Nat.id by done. destruct (decide (z = 0)) as [->|]; [done|].
    assert (1 < z + 1) as Hz1 by lia. destruct (Z.log2_up_spec (z + 1) Hz1). lia.
  - intros d Hd. cbv beta in Hd. unfold compose. rewrite byte_val_digit by done. lia.
Qed.

Lemma dec_pad6_digits z : 0 ≤ z → Forall (λ b, 48 ≤ byte_val b < 58) (str_bytes (dec_pad6 z)).
Proof.
  intros Hz. unfold dec_pad6, str_bytes. rewrite String.list_byte_of_string_of_list_byte.
  apply Forall_app. split; [|by apply dec_bytes_digits]. apply Forall_replicate. by vm_compute.
Qed.

Lemma dec_pad6_nonempty z : str_bytes (dec_pad6 z) ≠ [].
Proof.
  unfold dec_pad6, str_bytes. rewrite String.list_byte_of_string_of_list_byte.
  destruct (decide (length (dec_bytes z) = 0)%nat) as [->|]; [done|].
  intros [_ Hn]%app_nil. by rewrite Hn in *.
Qed.

Example dec_example : dec 1048576 = "1048576"%string ∧ dec_pad6 42 = "000042"%string.
Proof. split; vm_compute; reflexivity. Qed.

(** The encoders are used through their lemmas. *)
Global Arguments str_bytes : simpl never.
Global Arguments le_bytes : simpl never.
Global Arguments be_bytes : simpl never.
Global Arguments u16_to_le_bytes : simpl never.
Global Arguments u32_to_le_bytes : simpl never.
Global Arguments u64_to_le_bytes : simpl never.
Global Arguments u32_to_be_bytes : simpl never.
Global Arguments u32_from_be_bytes : simpl never.
Global Arguments dec : simpl never.
Global Arguments dec_pad6 : simpl never.
