(* ===== verification/World.v ===== *)
(** The environment the program runs in: files, one peer connection, clock,
    randomness, and every way the operating system can fail.

    A [World] holds the file system, the current connection (the bytes the peer
    will still send before it closes, the bytes written to it so far), the calls
    made to the progress reporter, and an [Env] of oracles indexed by a step
    counter: which operation fails and how, how many bytes a [read] returns,
    what the clock shows, what the random source yields. Quantifying over the
    world quantifies over all of them.

    The primitives model the functions of Rust's [std::fs], [std::io::Read],
    [std::io::Write] and of the stream traits the sources call; a path is the
    list of its components and [[]] is the directory paths are relative to. *)
From stdpp Require Import base tactics list countable strings gmap.
From Stdlib Require Import ZArith Lia.
From S2P Require Import Prelude Bytes.
Local Open Scope Z_scope.
Local Open Scope etle_scope.

(** [std::io::ErrorKind]: the kinds the sources distinguish, and the rest. *)
Inductive io_kind :=
  | NotFound | AlreadyExists | UnexpectedEof | ConnectionReset | ConnectionAborted
  | BrokenPipe | NotConnected | IsADirectory | NotADirectory | InvalidData | OtherIo.
Global Instance io_kind_eq_dec : EqDecision io_kind.
Proof. solve_decision. Defined.

Abbreviation path := (list string).
Inductive node := File (data : bytes) | Dir.
Global Instance node_eq_dec : EqDecision node.
Proof. solve_decision. Defined.
Abbreviation fs := (gmap path node).

(** [std::net] *)
Inductive ip_addr := IpV4 (a : Z) | IpV6 (a : Z).
Global Instance ip_addr_eq_dec : EqDecision ip_addr.
Proof. solve_decision. Defined.
Global Instance ip_addr_countable : Countable ip_addr.
Proof.
  refine (inj_countable' (λ a, match a with IpV4 x => inl x | IpV6 x => inr x end)
    (λ s, match s with inl x => IpV4 x | inr x => IpV6 x end) _). by intros [].
Defined.
Record socket_addr := SocketAddr { addr_ip : ip_addr; addr_port : Z }.
Global Instance socket_addr_eq_dec : EqDecision socket_addr.
Proof. solve_decision. Defined.
Global Instance socket_addr_countable : Countable socket_addr.
Proof. refine (inj_countable' (λ a, (addr_ip a, addr_port a)) (λ p, SocketAddr p.1 p.2) _). by intros []. Defined.

(** A failing operation: the error, and how much of it happened before. *)
Record fault := Fault { fault_kind : io_kind; fault_partial : nat }.

Record Env := {
  env_fault : nat → option fault;
  env_read : nat → nat;
  env_clock : nat → Z;
  env_rng : nat → ∀ n, array n;
  env_connect : nat → socket_addr → result io_kind bytes;
  env_accept : nat → result io_kind (bytes * socket_addr);
  env_pid : Z;
  env_parallelism : option Z;
}.

(** A call of the progress reporter ([network::transfer::progress]). *)
Record progress_call := ProgressCall {
  pc_context : string; pc_role : string; pc_action : string;
  pc_done : Z; pc_total : Z; pc_index : Z; pc_bytes : Z;
}.

Record World := {
  w_env : Env;
  w_step : nat;
  w_fs : fs;
  w_in : bytes;
  w_out : bytes;
  w_progress : list progress_call;
}.

Definition set_fs (f : fs) (w : World) : World :=
  {| w_env := w_env w; w_step := w_step w; w_fs := f; w_in := w_in w; w_out := w_out w;
     w_progress := w_progress w |}.
Definition set_in (i : bytes) (w : World) : World :=
  {| w_env := w_env w; w_step := w_step w; w_fs := w_fs w; w_in := i; w_out := w_out w;
     w_progress := w_progress w |}.
Definition set_out (o : bytes) (w : World) : World :=
  {| w_env := w_env w; w_step := w_step w; w_fs := w_fs w; w_in := w_in w; w_out := o;
     w_progress := w_progress w |}.
Definition set_progress (l : list progress_call) (w : World) : World :=
  {| w_env := w_env w; w_step := w_step w; w_fs := w_fs w; w_in := w_in w; w_out := w_out w;
     w_progress := l |}.
Definition tick (w : World) : World :=
  {| w_env := w_env w; w_step := S (w_step w); w_fs := w_fs w; w_in := w_in w;
     w_out := w_out w; w_progress := w_progress w |}.

(** A world in which no operation fails. *)
Definition no_faults (w : World) : Prop := ∀ n, env_fault (w_env w) n = None.

Abbreviation io := (M World io_kind).

(** Every fallible primitive consults the fault oracle first. *)
Definition faulty {A} (on_fault : nat → World → World) (run : World → result io_kind A * World)
    : io A := λ w,
  match env_fault (w_env w) (w_step w) with
  | Some f => (Err (fault_kind f), on_fault (fault_partial f) (tick w))
  | None => run (tick w)
  end.
Definition no_effect (_ : nat) (w : World) : World := w.

(** * Streams *)

(** [read_exact]: fails with [UnexpectedEof] when the peer closes first. *)
Definition read_exact (n : nat) : io bytes :=
  faulty (λ k w, set_in (drop k (w_in w)) w) (λ w,
    if decide (length (w_in w) < n)%nat
    then (Err UnexpectedEof, set_in [] w)
    else (Ok (take n (w_in w)), set_in (drop n (w_in w)) w)).

Definition write_all (data : bytes) : io unit :=
  faulty (λ k w, set_out (w_out w ++ take k data) w)
    (λ w, (Ok tt, set_out (w_out w ++ data) w)).

Definition flush : io unit := faulty no_effect (λ w, (Ok tt, w)).

(** [TcpStream::connect]: the previous connection is dropped. *)
Definition connect (addr : socket_addr) : io unit :=
  faulty no_effect (λ w,
    match env_connect (w_env w) (w_step w) addr with
    | Ok inbound => (Ok tt, set_out [] (set_in inbound w))
    | Err k => (Err k, w)
    | _ => (Err OtherIo, w)
    end).

(** [TcpListener::accept]: the next peer; its connection is the current one. *)
Definition accept : io socket_addr :=
  faulty no_effect (λ w,
    match env_accept (w_env w) (w_step w) with
    | Ok (inbound, addr) => (Ok addr, set_out [] (set_in inbound w))
    | Err k => (Err k, w)
    | _ => (Err OtherIo, w)
    end).

(** * Files *)
Definition file_at (m : fs) (p : path) : option bytes :=
  match m !! p with Some (File d) => Some d | _ => None end.
Definition is_file (p : path) (w : World) : bool := bool_decide (is_Some (file_at (w_fs w) p)).
Definition path_exists (p : path) (w : World) : bool :=
  bool_decide (p = [] ∨ is_Some (w_fs w !! p)).
Definition is_dir_in (m : fs) (p : path) : bool := bool_decide (p = [] ∨ m !! p = Some Dir).

(** [Path::parent], [Path::file_name] *)
Definition path_parent (p : path) : option path :=
  match p with [] => None | _ => Some (removelast p) end.
Definition path_file_name (p : path) : option string := last p.
Definition parent_or_empty (p : path) : path := default [] (path_parent p).

(** All non-empty prefixes, shortest first: the directories of [p] down to [p]. *)
Definition ancestors (p : path) : list path := (λ n, take (S n) p) <$> seq 0 (length p).
Definition mkdirs (m : fs) (ps : list path) : fs := foldr (λ q m, <[q := Dir]> m) m ps.

Definition create_dir_all (p : path) : io unit :=
  faulty (λ k w, if decide (Forall (λ q, file_at (w_fs w) q = None) (ancestors p))
                 then set_fs (mkdirs (w_fs w) (take k (ancestors p))) w else w) (λ w,
    if decide (is_Some (file_at (w_fs w) p)) then (Err AlreadyExists, w)
    else if decide (Forall (λ q, file_at (w_fs w) q = None) (ancestors p))
    then (Ok tt, set_fs (mkdirs (w_fs w) (ancestors p)) w)
    else (Err NotADirectory, w)).

Definition create_dir (p : path) : io unit :=
  faulty no_effect (λ w,
    if path_exists p w then (Err AlreadyExists, w)
    else if is_dir_in (w_fs w) (parent_or_empty p)
    then (Ok tt, set_fs (<[p := Dir]> (w_fs w)) w)
    else (Err NotFound, w)).

(** [File::open] and [fs::read]: the content at the time of the call. *)
Definition read_file (p : path) : io bytes :=
  faulty no_effect (λ w,
    match w_fs w !! p with
    | Some (File d) => (Ok d, w)
    | Some Dir => (Err IsADirectory, w)
    | None => (Err NotFound, w)
    end).

(** [fs::metadata(p)?.len()] of a regular file; a directory has no content. *)
Definition metadata (p : path) : io node :=
  faulty no_effect (λ w,
    match w_fs w !! p with
    | Some n => (Ok n, w)
    | None => (if decide (p = []) then Ok Dir else Err NotFound, w)
    end).

(** [file.metadata()] of an open file: its content determines the length. *)
Definition file_metadata (p : path) (content : bytes) : io bytes :=
  faulty no_effect (λ w, (Ok content, w)).

(** [Read::read] into a buffer of [n] bytes: at least one byte unless the buffer
    is empty or the file ended, but possibly fewer than were asked for. *)
Definition read_amount (e : Env) (step n : nat) (rest : bytes) : nat :=
  let avail := Nat.min n (length rest) in
  Nat.min avail (Nat.max 1 (env_read e step)).

Definition file_read (n : nat) (rest : bytes) : io (bytes * bytes) :=
  faulty no_effect (λ w,
    let k := read_amount (w_env w) (w_step w) n rest in
    (Ok (take k rest, drop k rest), w)).

(** [File::create]: truncates an existing file. *)
Definition file_create (p : path) : io unit :=
  faulty no_effect (λ w,
    if decide (p = [] ∨ w_fs w !! p = Some Dir) then (Err IsADirectory, w)
    else if is_dir_in (w_fs w) (parent_or_empty p)
    then (Ok tt, set_fs (<[p := File []]> (w_fs w)) w)
    else (Err NotFound, w)).

(** [OpenOptions::new().write(true).create_new(true).open(p)] *)
Definition file_create_new (p : path) : io unit :=
  faulty no_effect (λ w,
    if path_exists p w then (Err AlreadyExists, w)
    else if is_dir_in (w_fs w) (parent_or_empty p)
    then (Ok tt, set_fs (<[p := File []]> (w_fs w)) w)
    else (Err NotFound, w)).

Definition append_at (m : fs) (p : path) (data : bytes) : fs :=
  match m !! p with Some (File d) => <[p := File (d ++ data)]> m | _ => m end.

(** [file.write_all(data)] on the handle opened for [p]. *)
Definition file_write_all (p : path) (data : bytes) : io unit :=
  faulty (λ k w, set_fs (append_at (w_fs w) p (take k data)) w)
    (λ w, (Ok tt, set_fs (append_at (w_fs w) p data) w)).

(** [file.flush()], [file.sync_all()] *)
Definition file_sync (p : path) : io unit := faulty no_effect (λ w, (Ok tt, w)).

(** [fs::write(p, data)] *)
Definition fs_write (p : path) (data : bytes) : io unit :=
  do! file_create p in
  file_write_all p data.

Definition rename (a b : path) : io unit :=
  faulty no_effect (λ w,
    match w_fs w !! a with
    | Some (File d) =>
        if decide (b = [] ∨ w_fs w !! b = Some Dir) then (Err IsADirectory, w)
        else if is_dir_in (w_fs w) (parent_or_empty b)
        then (Ok tt, set_fs (<[b := File d]> (delete a (w_fs w))) w)
        else (Err NotFound, w)
    | _ => (Err NotFound, w)
    end).

Definition remove_file (p : path) : io unit :=
  faulty no_effect (λ w,
    match w_fs w !! p with
    | Some (File _) => (Ok tt, set_fs (delete p (w_fs w)) w)
    | Some Dir => (Err IsADirectory, w)
    | None => (Err NotFound, w)
    end).

(** The entries at or below [p]. *)
Definition below (p q : path) : bool := bool_decide (p `prefix_of` q).
Definition remove_below (m : fs) (p : path) : fs := filter (λ e, below p e.1 = false) m.

(** A failing removal may already have deleted some of the entries. *)
Definition remove_dir_all (p : path) : io unit :=
  faulty (λ k w,
      let victims := take k (filter (λ e, below p e.1 = true) (map_to_list (w_fs w))) in
      set_fs (foldr (λ e m, delete e.1 m) (w_fs w) victims) w) (λ w,
    if decide (w_fs w !! p = Some Dir) then (Ok tt, set_fs (remove_below (w_fs w) p) w)
    else (Err (if decide (w_fs w !! p = None) then NotFound else NotADirectory), w)).

(** [fs::read_dir(p)]: the names and kinds of the entries of [p], in no
    particular order. *)
Definition read_dir (p : path) : io (list (string * node)) :=
  faulty no_effect (λ w,
    if is_dir_in (w_fs w) p then
      (Ok (omap (λ e : path * node,
              match last e.1 with
              | Some name => if decide (e.1 = p ++ [name]) then Some (name, e.2) else None
              | None => None
              end) (map_to_list (w_fs w))), w)
    else (Err (if decide (w_fs w !! p = None) then NotFound else NotADirectory), w)).

(** * Clock and randomness *)
Definition now {E} : M World E Z := λ w, (Ok (env_clock (w_env w) (w_step w)), tick w).
Definition fill_bytes {E} (n : nat) : M World E (array n) :=
  λ w, (Ok (env_rng (w_env w) (w_step w) n), tick w).

Definition report {E} (c : progress_call) : M World E unit :=
  λ w, (Ok tt, set_progress (w_progress w ++ [c]) w).

(** * Facts about the primitives *)
Lemma wp_faulty {A} (on_fault : nat → World → World) run (Q : A → World → Prop)
    (R : io_kind → World → Prop) w :
  (∀ f, env_fault (w_env w) (w_step w) = Some f →
        R (fault_kind f) (on_fault (fault_partial f) (tick w))) →
  (env_fault (w_env w) (w_step w) = None → wp run Q R (tick w)) →
  wp (faulty on_fault run) Q R w.
Proof.
  intros Hf Hn. unfold wp, faulty in *.
  destruct (env_fault _ _) as [f|] eqn:Hq; [by apply Hf | by apply Hn].
Qed.

Lemma faulty_ok {A} (on_fault : nat → World → World) (run : World → result io_kind A * World) w :
  no_faults w → faulty on_fault run w = run (tick w).
Proof. unfold faulty. by intros ->. Qed.

Lemma fault_not_no_faults w f : env_fault (w_env w) (w_step w) = Some f → ¬ no_faults w.
Proof. intros Hf Hn. by rewrite Hn in Hf. Qed.
Global Hint Resolve fault_not_no_faults : etle.

(** What every primitive leaves alone. *)
Lemma faulty_env {A} (on_fault : nat → World → World) (run : World → result io_kind A * World) w :
  (∀ k w, w_env (on_fault k w) = w_env w) → (∀ w, w_env (run w).2 = w_env w) →
  w_env (faulty on_fault run w).2 = w_env w.
Proof. intros H1 H2. unfold faulty. destruct (env_fault _ _); simpl; [by rewrite H1 | by rewrite H2]. Qed.

(** Runs of the primitives in a world without faults. *)
Section no_faults.
Context (w : World) (Hw : no_faults w).

Lemma read_exact_ok pre rest :
  w_in w = pre ++ rest →
  read_exact (length pre) w = (Ok pre, set_in rest (tick w)).
Proof using Hw.
  intros Hin. unfold read_exact. rewrite faulty_ok by done. simpl. rewrite Hin.
  rewrite decide_False by (rewrite length_app; lia).
  by rewrite take_app_length, drop_app_length.
Qed.

Lemma read_exact_eof n :
  (length (w_in w) < n)%nat → read_exact n w = (Err UnexpectedEof, set_in [] (tick w)).
Proof using Hw. intros. unfold read_exact. rewrite faulty_ok by done. simpl. by rewrite decide_True. Qed.

Lemma write_all_ok data : write_all data w = (Ok tt, set_out (w_out w ++ data) (tick w)).
Proof using Hw. unfold write_all. by rewrite faulty_ok. Qed.

Lemma flush_ok : flush w = (Ok tt, tick w).
Proof using Hw. unfold flush. by rewrite faulty_ok. Qed.

Lemma read_file_ok p d : w_fs w !! p = Some (File d) → read_file p w = (Ok d, tick w).
Proof using Hw. intros H. unfold read_file. rewrite faulty_ok by done. simpl. by rewrite H. Qed.
End no_faults.

Lemma no_faults_env w w' : w_env w' = w_env w → no_faults w → no_faults w'.
Proof. unfold no_faults. by intros ->. Qed.

(** ** Directory creation keeps files *)
Lemma lookup_mkdirs m ps q :
  mkdirs m ps !! q = if decide (q ∈ ps) then Some Dir else m !! q.
Proof.
  induction ps as [|p ps IH].
  - rewrite decide_False; [done|]. set_solver.
  - change (mkdirs m (p :: ps)) with (<[p := Dir]> (mkdirs m ps)).
    destruct (decide (q = p)) as [->|Hne].
    + rewrite lookup_insert_eq, decide_True by set_solver. done.
    + rewrite lookup_insert_ne by done. rewrite IH.
      destruct (decide (q ∈ ps)); [rewrite decide_True by set_solver; done|].
      rewrite decide_False by set_solver. done.
Qed.

Lemma file_at_mkdirs m ps q :
  Forall (λ p, file_at m p = None) ps → file_at (mkdirs m ps) q = file_at m q.
Proof.
  intros Hps. unfold file_at. rewrite lookup_mkdirs. destruct (decide (q ∈ ps)) as [Hin|]; [|done].
  rewrite Forall_forall in Hps. specialize (Hps q Hin). unfold file_at in Hps.
  by destruct (m !! q) as [[]|].
Qed.

Lemma elem_of_ancestors p q : q ∈ ancestors p ↔ q ≠ [] ∧ q `prefix_of` p.
Proof.
  unfold ancestors. rewrite list_elem_of_fmap. split.
  - intros (n & -> & Hn%elem_of_seq). split; [|apply prefix_take].
    destruct p; simpl in *; [lia|done].
  - intros [Hq [k ->]]. exists (length q - 1)%nat. rewrite elem_of_seq, length_app.
    assert (length q ≠ 0%nat) by (by destruct q).
    split; [|lia]. replace (S (length q - 1)) with (length q) by lia.
    by rewrite take_app_length.
Qed.

Lemma is_dir_in_mkdirs_ancestors m p : is_dir_in (mkdirs m (ancestors p)) p = true.
Proof.
  apply bool_decide_eq_true. destruct (decide (p = [])) as [->|]; [by left|]. right.
  rewrite lookup_mkdirs, decide_True; [done|]. by apply elem_of_ancestors.
Qed.

(** * Specifications of the read-only primitives

    [stepped w w'] says that only the step counter moved. *)
Definition stepped (w w' : World) : Prop :=
  w_env w' = w_env w ∧ w_fs w' = w_fs w ∧ w_in w' = w_in w ∧ w_out w' = w_out w
  ∧ w_progress w' = w_progress w.

Global Instance stepped_preorder : PreOrder stepped.
Proof. split; [done|]. unfold stepped. intros w1 w2 w3 ??. naive_solver congruence. Qed.

Lemma stepped_tick w : stepped w (tick w).
Proof. done. Qed.

Lemma stepped_fs w w' : stepped w w' → w_fs w' = w_fs w.
Proof. by intros (?&?&?). Qed.

Lemma stepped_env w w' : stepped w w' → w_env w' = w_env w.
Proof. by intros (?&?&?). Qed.

Lemma stepped_no_faults w w' : stepped w w' → no_faults w ↔ no_faults w'.
Proof. intros [He _]. unfold no_faults. by rewrite He. Qed.

Global Hint Resolve stepped_tick stepped_fs stepped_env : etle.

Lemma wp_read_file p (Q : bytes → World → Prop) (R : io_kind → World → Prop) w :
  (∀ k w', stepped w w' → ¬ no_faults w ∨ file_at (w_fs w) p = None → R k w') →
  (∀ d w', file_at (w_fs w) p = Some d → stepped w w' → Q d w') →
  wp (read_file p) Q R w.
Proof.
  intros HR HQ. apply wp_faulty; [intros f Hf; apply HR; eauto with etle|].
  intros _. unfold wp. simpl.
  unfold file_at in *. destruct (w_fs w !! p) as [[d|]|]; [by apply HQ | apply HR; auto with etle..].
Qed.

Lemma wp_metadata p (Q : node → World → Prop) (R : io_kind → World → Prop) w :
  (∀ k w', stepped w w' → ¬ no_faults w ∨ (w_fs w !! p = None ∧ p ≠ []) → R k w') →
  (∀ n w', (w_fs w !! p = Some n ∨ (p = [] ∧ n = Dir ∧ w_fs w !! p = None)) → stepped w w' → Q n w') →
  wp (metadata p) Q R w.
Proof.
  intros HR HQ. apply wp_faulty; [intros f Hf; apply HR; eauto with etle|].
  intros _. unfold wp. simpl.
  destruct (w_fs w !! p) as [n|] eqn:Hp; [apply HQ; [by left|done]|].
  case_decide; [apply HQ; [by right|done] | apply HR; auto with etle].
Qed.

(** Reads of at most [n] bytes return all that is asked for and left. *)
Definition full_reads (n : nat) (w : World) : Prop := ∀ step, (n ≤ env_read (w_env w) step)%nat.

(** A read returns a prefix of what is left, empty only at the end of the file. *)
Lemma wp_file_read n rest (Q : bytes * bytes → World → Prop) (R : io_kind → World → Prop) w :
  (∀ k w', stepped w w' → ¬ no_faults w → R k w') →
  (∀ pre post w', rest = pre ++ post → (pre = [] → n = 0%nat ∨ rest = []) →
     (length pre ≤ n)%nat → (full_reads n w → pre = take n rest ∧ post = drop n rest) →
     stepped w w' → Q (pre, post) w') →
  wp (file_read n rest) Q R w.
Proof.
  intros HR HQ. apply wp_faulty; [intros f Hf; apply HR; eauto with etle|].
  intros _. unfold wp. simpl.
  set (k := read_amount (w_env w) (S (w_step w)) n rest).
  apply HQ; [by rewrite take_drop| | | |done].
  - intros Ht%(f_equal length). rewrite length_take in Ht. simpl in Ht.
    unfold k, read_amount in Ht. destruct rest as [|b rest]; [by right|].
    cbn [length] in Ht. left. lia.
  - rewrite length_take. unfold k, read_amount. lia.
  - intros Hfull. specialize (Hfull (S (w_step w))).
    destruct (decide (n ≤ length rest)%nat).
    + assert (k = n) as -> by (unfold k, read_amount; lia). done.
    + assert (k = length rest) as -> by (unfold k, read_amount; lia).
      by rewrite !take_ge, !drop_ge by lia.
Qed.
