(* ===== verification/Text.v ===== *)
(** Text as Rust's [str] sees it, for the parts that parse: Unicode scalar
    values, UTF-8, lines, trimming, and the [FromStr] parsers of the standard
    library for unsigned integers and internet addresses.

    A [text] is the list of the [char]s of a string; [utf8_encode] and
    [utf8_decode] connect it with the bytes of a file. *)
From stdpp Require Import base tactics list countable strings.
From Stdlib Require Import ZArith Lia.
From S2P Require Import Prelude Bytes World.
Local Open Scope Z_scope.
Local Open Scope etle_scope.

Abbreviation char := Z.
Abbreviation text := (list Z).

(** [char]: a Unicode scalar value. *)
Definition scalar (c : char) : Prop := 0 ≤ c < 0xd800 ∨ 0xe000 ≤ c ≤ 0x10ffff.
Global Instance scalar_dec c : Decision (scalar c).
Proof. unfold scalar. apply _. Defined.

(** ASCII literals. *)
Definition txt (s : string) : text := byte_val <$> str_bytes s.

(** * UTF-8 *)
Definition utf8_char (c : char) : bytes :=
  if decide (c < 0x80) then [byte_of_Z c]
  else if decide (c < 0x800) then [byte_of_Z (0xc0 + c / 64); byte_of_Z (0x80 + c mod 64)]
  else if decide (c < 0x10000) then
    [byte_of_Z (0xe0 + c / 4096); byte_of_Z (0x80 + c / 64 mod 64); byte_of_Z (0x80 + c mod 64)]
  else [byte_of_Z (0xf0 + c / 262144); byte_of_Z (0x80 + c / 4096 mod 64);
        byte_of_Z (0x80 + c / 64 mod 64); byte_of_Z (0x80 + c mod 64)].
Definition utf8_encode (t : text) : bytes := t ≫= utf8_char.

Definition continuation (b : byte) : Prop := 0x80 ≤ byte_val b < 0xc0.
Global Instance continuation_dec b : Decision (continuation b).
Proof. unfold continuation. apply _. Defined.

Definition code2 (b0 b1 : byte) : Z := (byte_val b0 - 0xc0) * 64 + (byte_val b1 - 0x80).
Definition code3 (b0 b1 b2 : byte) : Z :=
  (byte_val b0 - 0xe0) * 4096 + (byte_val b1 - 0x80) * 64 + (byte_val b2 - 0x80).
Definition code4 (b0 b1 b2 b3 : byte) : Z :=
  (byte_val b0 - 0xf0) * 262144 + (byte_val b1 - 0x80) * 4096 + (byte_val b2 - 0x80) * 64 + (byte_val b3 - 0x80).

(** [std::str::from_utf8]: the shortest encodings of scalar values. *)
Fixpoint utf8_decode (b : bytes) : option text :=
  match b with
  | [] => Some []
  | b0 :: r =>
      if decide (byte_val b0 < 0x80) then cons (byte_val b0) <$> utf8_decode r
      else
        match r with
        | [] => None
        | b1 :: r =>
            if decide (byte_val b0 < 0xe0) then
              if decide (continuation b1 ∧ 0x80 ≤ code2 b0 b1)
              then cons (code2 b0 b1) <$> utf8_decode r else None
            else
              match r with
              | [] => None
              | b2 :: r =>
                  if decide (byte_val b0 < 0xf0) then
                    if decide (continuation b1 ∧ continuation b2 ∧ 0x800 ≤ code3 b0 b1 b2 ∧ scalar (code3 b0 b1 b2))
                    then cons (code3 b0 b1 b2) <$> utf8_decode r else None
                  else
                    match r with
                    | [] => None
                    | b3 :: r =>
                        if decide (continuation b1 ∧ continuation b2 ∧ continuation b3
                                   ∧ 0x10000 ≤ code4 b0 b1 b2 b3 ∧ scalar (code4 b0 b1 b2 b3))
                        then cons (code4 b0 b1 b2 b3) <$> utf8_decode r else None
                    end
              end
        end
  end.

(** * Lines and trimming *)

(** [char::is_whitespace] *)
Definition whitespace (c : char) : Prop :=
  9 ≤ c ≤ 13 ∨ c = 0x20 ∨ c = 0x85 ∨ c = 0xa0 ∨ c = 0x1680 ∨ 0x2000 ≤ c ≤ 0x200a
  ∨ c = 0x2028 ∨ c = 0x2029 ∨ c = 0x202f ∨ c = 0x205f ∨ c = 0x3000.
Global Instance whitespace_dec c : Decision (whitespace c).
Proof. unfold whitespace. apply _. Defined.

Fixpoint trim_start (t : text) : text :=
  match t with
  | [] => []
  | c :: r => if decide (whitespace c) then trim_start r else t
  end.
Definition trim_end (t : text) : text := reverse (trim_start (reverse t)).
Definition trim (t : text) : text := trim_end (trim_start t).

(** [str::split_inclusive('\n')] *)
Fixpoint split_inclusive (t : text) : list text :=
  match t with
  | [] => []
  | c :: r =>
      if decide (c = 10) then [c] :: split_inclusive r
      else match split_inclusive r with
           | [] => [[c]]
           | l :: ls => (c :: l) :: ls
           end
  end.
Definition strip_suffix_char (c : char) (t : text) : option text :=
  match reverse t with
  | c' :: r => if decide (c' = c) then Some (reverse r) else None
  | [] => None
  end.
Definition strip_prefix_char (c : char) (t : text) : option text :=
  match t with
  | c' :: r => if decide (c' = c) then Some r else None
  | [] => None
  end.
(** [str::lines] *)
Definition strip_line_end (l : text) : text :=
  match strip_suffix_char 10 l with
  | None => l
  | Some l => default l (strip_suffix_char 13 l)
  end.
Definition lines (t : text) : list text := strip_line_end <$> split_inclusive t.

(** [str::split_once] *)
Fixpoint split_once (sep : char) (t : text) : option (text * text) :=
  match t with
  | [] => None
  | c :: r =>
      if decide (c = sep) then Some ([], r)
      else prod_map (cons c) id <$> split_once sep r
  end.

(** * Numbers *)

(** [char::to_digit] *)
Definition to_digit (radix : Z) (c : char) : option Z :=
  let d := if decide (48 ≤ c ≤ 57) then Some (c - 48)
           else if decide (97 ≤ c ≤ 122) then Some (c - 97 + 10)
           else if decide (65 ≤ c ≤ 90) then Some (c - 65 + 10)
           else None in
  match d with Some d => if decide (d < radix) then Some d else None | None => None end.

(** [u16::from_str], [u64::from_str], [usize::from_str] *)
Definition push_digit (max : Z) (acc : option Z) (c : char) : option Z :=
  match acc, to_digit 10 c with
  | Some a, Some d => if decide (10 * a + d ≤ max) then Some (10 * a + d) else None
  | _, _ => None
  end.
Definition parse_uint (max : Z) (t : text) : option Z :=
  match t with
  | [] => None
  | c :: r =>
      if decide (c = 43) then (if decide (r = []) then None else foldl (push_digit max) (Some 0) r)
      else foldl (push_digit max) (Some 0) t
  end.

(** * Addresses: the parser of [std::net] *)
Definition parser (A : Type) : Type := text → option (A * text).

Definition read_given_char (c : char) : parser unit := λ t,
  r ← strip_prefix_char c t; Some (tt, r).
(** A separator before every item but the first. *)
Definition read_separator {A} (sep : char) (index : nat) (inner : parser A) : parser A := λ t,
  match index with
  | O => inner t
  | _ => r ← read_given_char sep t; inner r.2
  end.

(** The longest run of digits, and what follows. *)
Fixpoint read_digits (radix : Z) (t : text) : list Z * text :=
  match t with
  | [] => ([], [])
  | c :: r =>
      match to_digit radix c with
      | Some d => let p := read_digits radix r in (d :: p.1, p.2)
      | None => ([], t)
      end
  end.
Definition digits_value (radix : Z) (ds : list Z) : Z := foldl (λ a d, a * radix + d) 0 ds.

Definition read_number (max radix : Z) (max_digits : option nat) (allow_zero_prefix : bool) : parser Z := λ t,
  let '(ds, r) := read_digits radix t in
  if decide (ds = []) then None
  else if match max_digits with Some n => bool_decide (n < length ds)%nat | None => false end then None
  else if negb allow_zero_prefix && bool_decide (head ds = Some 0) && bool_decide (1 < length ds)%nat then None
  else if decide (digits_value radix ds ≤ max) then Some (digits_value radix ds, r) else None.

Definition read_octet (index : nat) : parser Z := read_separator 46 index (read_number 255 10 (Some 3%nat) false).
Definition read_ipv4_addr : parser Z := λ t,
  a ← read_octet 0 t; b ← read_octet 1 a.2; c ← read_octet 2 b.2; d ← read_octet 3 c.2;
  Some (a.1 * 2 ^ 24 + b.1 * 2 ^ 16 + c.1 * 2 ^ 8 + d.1, d.2).

(** At most [limit] groups of an IPv6 address; the flag tells whether they end
    with an embedded IPv4 address. *)
Fixpoint read_groups (fuel limit i : nat) (t : text) : list Z * bool * text :=
  match fuel with
  | O => ([], false, t)
  | S fuel =>
      match (if decide (i + 1 < limit)%nat then read_separator 58 i read_ipv4_addr t else None) with
      | Some (v4, r) => ([v4 / 2 ^ 16; v4 mod 2 ^ 16], true, r)
      | None =>
          match read_separator 58 i (read_number 65535 16 (Some 4%nat) true) t with
          | Some (g, r) => let '(gs, v4, r) := read_groups fuel limit (S i) r in (g :: gs, v4, r)
          | None => ([], false, t)
          end
      end
  end.
Definition groups_value (gs : list Z) : Z := foldl (λ a g, a * 65536 + g) 0 gs.
Definition read_ipv6_addr : parser Z := λ t,
  let '(front, front_ipv4, r) := read_groups 8 8 0 t in
  if decide (length front = 8%nat) then Some (groups_value front, r)
  else if (front_ipv4 : bool) then None
  else
    c1 ← read_given_char 58 r; c2 ← read_given_char 58 c1.2;
    let limit := (8 - (length front + 1))%nat in
    let '(back, _, r) := read_groups limit limit 0 c2.2 in
    Some (groups_value (front ++ replicate (8 - length front - length back) 0 ++ back), r).

Definition read_port : parser Z := λ t,
  c ← read_given_char 58 t; read_number u16_max 10 None true c.2.
Definition read_scope_id : parser Z := λ t,
  c ← read_given_char 37 t; read_number u32_max 10 None true c.2.
Definition read_socket_addr_v4 : parser socket_addr := λ t,
  ip ← read_ipv4_addr t; port ← read_port ip.2; Some (SocketAddr (IpV4 ip.1) port.1, port.2).
(** The scope of an IPv6 address is read, but addresses have none here. *)
Definition read_socket_addr_v6 : parser socket_addr := λ t,
  o ← read_given_char 91 t; ip ← read_ipv6_addr o.2;
  let r := match read_scope_id ip.2 with Some s => s.2 | None => ip.2 end in
  c ← read_given_char 93 r; port ← read_port c.2; Some (SocketAddr (IpV6 ip.1) port.1, port.2).
Definition read_socket_addr : parser socket_addr := λ t,
  match read_socket_addr_v4 t with Some r => Some r | None => read_socket_addr_v6 t end.

Definition parse_with {A} (p : parser A) (t : text) : option A :=
  r ← p t; if decide (r.2 = []) then Some r.1 else None.
Definition parse_ipv4 (t : text) : option Z :=
  if decide (15 < length t)%nat then None else parse_with read_ipv4_addr t.
Definition parse_socket_addr : text → option socket_addr := parse_with read_socket_addr.

(** * Printing *)
Definition dec_text (z : Z) : text := (λ d, 48 + d) <$> dec_digits (dec_fuel z) z.
(** [Display] of [Ipv4Addr] and of [SocketAddrV4] *)
Definition ipv4_text (a : Z) : text :=
  dec_text (a / 2 ^ 24) ++ [46] ++ dec_text (a / 2 ^ 16 mod 2 ^ 8) ++ [46]
  ++ dec_text (a / 2 ^ 8 mod 2 ^ 8) ++ [46] ++ dec_text (a mod 2 ^ 8).
Definition socket_v4_text (a port : Z) : text := ipv4_text a ++ [58] ++ dec_text port.

Example parse_socket_examples :
  parse_socket_addr (txt "0.0.0.0:7000") = Some (SocketAddr (IpV4 0) 7000)
  ∧ parse_socket_addr (txt "[::1]:7000") = Some (SocketAddr (IpV6 1) 7000)
  ∧ parse_socket_addr (txt "[fe80::1%3]:80") = Some (SocketAddr (IpV6 (0xfe80 * 2 ^ 112 + 1)) 80)
  ∧ parse_socket_addr (txt "[::ffff:1.2.3.4]:80") = Some (SocketAddr (IpV6 0xffff01020304) 80)
  ∧ parse_socket_addr (txt "1.2.3.04:80") = None
  ∧ parse_socket_addr (txt "1.2.3.4:65536") = None
  ∧ parse_ipv4 (txt "239.255.0.86") = Some 0xefff0056
  ∧ ipv4_text 0xefff0056 = txt "239.255.0.86".
Proof. vm_compute. done. Qed.

(** * UTF-8 round trips *)
Lemma byte_val_small z : 0 ≤ z < 256 → byte_val (byte_of_Z z) = z.
Proof. intros. rewrite byte_val_of_Z. by apply Z.mod_small. Qed.

(** The digits of a scalar value in base 64. *)
Lemma base64 c : c = 64 * (c / 64) + c mod 64 ∧ 0 ≤ c mod 64 < 64.
Proof. pose proof (Z.div_mod c 64). pose proof (Z.mod_pos_bound c 64). lia. Qed.

Lemma utf8_decode_char c t : scalar c → utf8_decode (utf8_char c ++ t) = cons c <$> utf8_decode t.
Proof.
  intros Hc. unfold utf8_char. unfold scalar in Hc.
  destruct (base64 c) as [E0 R0], (base64 (c / 64)) as [E1 R1], (base64 (c / 64 / 64)) as [E2 R2].
  assert (c / 4096 = c / 64 / 64) as H1 by (rewrite Z.div_div by lia; done).
  assert (c / 262144 = c / 64 / 64 / 64) as H2 by (rewrite !Z.div_div by lia; done).
  repeat case_decide; cbn [app utf8_decode]; rewrite ?H1, ?H2.
  - by rewrite decide_True, byte_val_small by (rewrite ?byte_val_small by lia; lia).
  - assert (code2 (byte_of_Z (0xc0 + c / 64)) (byte_of_Z (0x80 + c mod 64)) = c) as ->
      by (unfold code2; rewrite !byte_val_small by lia; lia).
    unfold continuation. rewrite decide_False, decide_True by (rewrite byte_val_small by lia; lia).
    by rewrite decide_True by (rewrite byte_val_small by lia; lia).
  - assert (code3 (byte_of_Z (0xe0 + c / 64 / 64)) (byte_of_Z (0x80 + c / 64 mod 64)) (byte_of_Z (0x80 + c mod 64)) = c) as ->
      by (unfold code3; rewrite !byte_val_small by lia; lia).
    unfold continuation. do 2 rewrite decide_False by (rewrite byte_val_small by lia; lia).
    rewrite decide_True by (rewrite byte_val_small by lia; lia).
    by rewrite decide_True by (unfold scalar; rewrite !byte_val_small by lia; lia).
  - assert (code4 (byte_of_Z (0xf0 + c / 64 / 64 / 64)) (byte_of_Z (0x80 + c / 64 / 64 mod 64))
              (byte_of_Z (0x80 + c / 64 mod 64)) (byte_of_Z (0x80 + c mod 64)) = c) as ->
      by (unfold code4; rewrite !byte_val_small by lia; lia).
    unfold continuation. do 3 rewrite decide_False by (rewrite byte_val_small by lia; lia).
    by rewrite decide_True by (unfold scalar; rewrite !byte_val_small by lia; lia).
Qed.

Lemma utf8_decode_encode t : Forall scalar t → utf8_decode (utf8_encode t) = Some t.
Proof.
  induction 1 as [|c t Hc _ IH]; [done|]. unfold utf8_encode. rewrite bind_cons, utf8_decode_char by done.
  unfold utf8_encode in IH. by rewrite IH.
Qed.

Lemma byte_of_val b z : byte_val b = z → byte_of_Z z = b.
Proof. intros <-. apply byte_of_Z_val. Qed.

(** Numbers in base 64 are read back digit by digit. *)
Lemma div_base64 a b : 0 ≤ b < 64 → (a * 64 + b) / 64 = a ∧ (a * 64 + b) mod 64 = b.
Proof.
  intros Hb. split; symmetry; [apply (Z.div_unique _ 64 _ b)|apply (Z.mod_unique _ 64 a)]; lia.
Qed.

Lemma utf8_encode_decode : ∀ b t, utf8_decode b = Some t → utf8_encode t = b ∧ Forall scalar t.
Proof.
  assert (∀ n b t, (length b ≤ n)%nat → utf8_decode b = Some t → utf8_encode t = b ∧ Forall scalar t) as Hn;
    [|intros b t; by apply (Hn (length b))].
  assert (∀ c t (o : option text), cons c <$> o = Some t → ∃ t', o = Some t' ∧ t = c :: t') as Hcons.
  { intros c t [t'|]; [|done]. intros [= <-]. by exists t'. }
  induction n as [|n IH]; intros b t Hlen Hd; (destruct b as [|b0 r]; [injection Hd as <-; done|]); [simpl in Hlen; lia|].
  assert (∀ pre c r' t, pre ++ r' = b0 :: r → pre ≠ [] → utf8_char c = pre → scalar c →
            cons c <$> utf8_decode r' = Some t → utf8_encode t = b0 :: r ∧ Forall scalar t) as Hstep.
  { intros pre c r' t' Hpre Hne Hc Hs Ho. apply Hcons in Ho as (t'' & Ht & ->).
    assert (length r' ≤ n)%nat as Hl.
    { apply (f_equal length) in Hpre. rewrite length_app in Hpre. destruct pre; [done|]. simpl in *. lia. }
    destruct (IH _ _ Hl Ht) as [He Hf]. split; [|by constructor].
    unfold utf8_encode in *. by rewrite bind_cons, He, Hc. }
  pose proof (byte_val_range b0) as R0. cbn [utf8_decode] in Hd.
  destruct (decide (byte_val b0 < 0x80)).
  { eapply (Hstep [b0] (byte_val b0)); [done|done| |left; lia|exact Hd]. unfold utf8_char. rewrite decide_True by done.
    by rewrite byte_of_Z_val. }
  destruct r as [|b1 r]; [done|]. pose proof (byte_val_range b1) as R1.
  destruct (decide (byte_val b0 < 0xe0)).
  { destruct (decide _) as [[C1 Hmin]|]; [|done]. unfold continuation in C1.
    eapply (Hstep [b0; b1] (code2 b0 b1)); [done|done| |unfold code2 in *; left; lia|exact Hd].
    unfold utf8_char. rewrite decide_False by lia. rewrite decide_True by (unfold code2; lia).
    destruct (div_base64 (byte_val b0 - 0xc0) (byte_val b1 - 0x80)) as [E1 E2]; [lia|]. unfold code2. rewrite E1, E2.
    f_equal; [|f_equal]; apply byte_of_val; lia. }
  destruct r as [|b2 r]; [done|]. pose proof (byte_val_range b2) as R2.
  destruct (decide (byte_val b0 < 0xf0)).
  { destruct (decide _) as [(C1 & C2 & Hmin & Hs)|]; [|done]. unfold continuation in *.
    eapply (Hstep [b0; b1; b2] (code3 b0 b1 b2)); [done|done| |exact Hs|exact Hd].
    unfold utf8_char. do 2 rewrite decide_False by lia. rewrite decide_True by (unfold code3; lia).
    assert (code3 b0 b1 b2 = ((byte_val b0 - 0xe0) * 64 + (byte_val b1 - 0x80)) * 64 + (byte_val b2 - 0x80)) as -> by (unfold code3; lia).
    set (a := (byte_val b0 - 0xe0) * 64 + (byte_val b1 - 0x80)).
    destruct (div_base64 a (byte_val b2 - 0x80)) as [E1 E2]; [lia|].
    destruct (div_base64 (byte_val b0 - 0xe0) (byte_val b1 - 0x80)) as [E3 E4]; [lia|].
    replace 4096 with (64 * 64) by lia. rewrite <- Z.div_div, E1, E2 by lia. unfold a. rewrite E3, E4.
    f_equal; [|f_equal; [|f_equal]]; apply byte_of_val; lia. }
  destruct r as [|b3 r]; [done|]. pose proof (byte_val_range b3) as R3.
  destruct (decide _) as [(C1 & C2 & C3 & Hmin & Hs)|]; [|done]. unfold continuation in *.
  eapply (Hstep [b0; b1; b2; b3] (code4 b0 b1 b2 b3)); [done|done| |exact Hs|exact Hd].
  unfold utf8_char. rewrite !decide_False by lia.
  assert (code4 b0 b1 b2 b3 = (((byte_val b0 - 0xf0) * 64 + (byte_val b1 - 0x80)) * 64 + (byte_val b2 - 0x80)) * 64
            + (byte_val b3 - 0x80)) as -> by (unfold code4; lia).
  set (a1 := (byte_val b0 - 0xf0) * 64 + (byte_val b1 - 0x80)). set (a2 := a1 * 64 + (byte_val b2 - 0x80)).
  destruct (div_base64 a2 (byte_val b3 - 0x80)) as [E1 E2]; [lia|].
  destruct (div_base64 a1 (byte_val b2 - 0x80)) as [E3 E4]; [lia|].
  destruct (div_base64 (byte_val b0 - 0xf0) (byte_val b1 - 0x80)) as [E5 E6]; [lia|].
  replace 262144 with (64 * 64 * 64) by lia. replace 4096 with (64 * 64) by lia.
  rewrite <- !Z.div_div, E1, E2 by lia. unfold a2. rewrite E3, E4. unfold a1. rewrite E5, E6.
  f_equal; [|f_equal; [|f_equal; [|f_equal]]]; apply byte_of_val; lia.
Qed.

(** * Trimming *)
Lemma trim_start_ws p t : Forall whitespace p → trim_start (p ++ t) = trim_start t.
Proof. induction 1 as [|c p Hc _ IH]; [done|]. cbn [app trim_start]. by rewrite decide_True. Qed.

Lemma trim_start_id c t : ¬ whitespace c → trim_start (c :: t) = c :: t.
Proof. intros. cbn. by rewrite decide_False. Qed.

Lemma trim_start_suffix t : ∃ p, t = p ++ trim_start t ∧ Forall whitespace p.
Proof.
  induction t as [|c t (p & Hp & Hw)]; [by exists []|]. cbn [trim_start]. case_decide.
  - exists (c :: p). split; [by rewrite <- app_comm_cons, <- Hp|by constructor].
  - by exists [].
Qed.

(** A text that starts and ends with characters that are not whitespace. *)
Definition edge (o : option char) : Prop := match o with Some c => ¬ whitespace c | None => True end.
Global Instance edge_dec o : Decision (edge o).
Proof. destruct o; apply _. Defined.
Definition trimmed (t : text) : Prop := edge (head t) ∧ edge (last t).
Global Instance trimmed_dec t : Decision (trimmed t).
Proof. unfold trimmed. apply _. Defined.

Lemma trim_start_trimmed t : edge (head t) → trim_start t = t.
Proof. destruct t as [|c t]; [done|]. apply trim_start_id. Qed.

Lemma trim_padded p t q : Forall whitespace p → Forall whitespace q → trimmed t → trim (p ++ t ++ q) = t.
Proof.
  intros Hp Hq [Hh Hl]. unfold trim. rewrite trim_start_ws by done.
  assert (trim_end (t ++ q) = t) as He.
  { unfold trim_end. rewrite reverse_app, trim_start_ws by (by apply Forall_reverse).
    by rewrite trim_start_trimmed, reverse_involutive by (by rewrite head_reverse). }
  destruct t as [|c t].
  - cbn [app]. rewrite <- (app_nil_r q), trim_start_ws by done. done.
  - cbn [app]. rewrite trim_start_id by done. exact He.
Qed.

Lemma trim_trimmed t : trimmed t → trim t = t.
Proof. intros Ht. pose proof (trim_padded [] t []) as H. rewrite app_nil_r in H. by apply H. Qed.

Lemma trim_ws p : Forall whitespace p → trim p = [].
Proof.
  intros Hp. pose proof (trim_padded p [] [] Hp) as H. rewrite !app_nil_r in H. by apply H.
Qed.

(** * Lines *)
Lemma split_inclusive_line l t : 10 ∉ l → split_inclusive (l ++ 10 :: t) = (l ++ [10]) :: split_inclusive t.
Proof.
  induction l as [|c l IH]; intros Hl; [done|]. apply not_elem_of_cons in Hl as [Hc Hl].
  cbn [app split_inclusive]. rewrite decide_False by congruence. by rewrite IH.
Qed.

Lemma strip_suffix_char_snoc c t : strip_suffix_char c (t ++ [c]) = Some t.
Proof. unfold strip_suffix_char. rewrite reverse_snoc, decide_True by done. by rewrite reverse_involutive. Qed.

Lemma strip_suffix_char_ne c t : last t ≠ Some c → strip_suffix_char c t = None.
Proof.
  intros Hl. unfold strip_suffix_char. destruct (reverse t) as [|c' r] eqn:Hr; [done|].
  rewrite decide_False; [done|]. intros ->. apply Hl. by rewrite <- head_reverse, Hr.
Qed.

Lemma strip_line_end_line l : last l ≠ Some 13 → strip_line_end (l ++ [10]) = l.
Proof.
  intros Hl. unfold strip_line_end. by rewrite strip_suffix_char_snoc, strip_suffix_char_ne.
Qed.

(** Lines that are written with their ends are read back. *)
Definition unlines (ls : list text) : text := ls ≫= (λ l, l ++ [10]).
Definition plain_line (l : text) : Prop := 10 ∉ l ∧ last l ≠ Some 13.
Global Instance plain_line_dec l : Decision (plain_line l).
Proof. unfold plain_line. apply _. Defined.

Lemma lines_unlines ls : Forall plain_line ls → lines (unlines ls) = ls.
Proof.
  induction 1 as [|l ls [Hn Hr] _ IH]; [done|]. unfold lines, unlines in *.
  rewrite bind_cons, <- app_assoc. cbn [app]. rewrite split_inclusive_line by done.
  cbn [fmap list_fmap]. by rewrite IH, strip_line_end_line.
Qed.

Lemma split_once_app sep k v : sep ∉ k → split_once sep (k ++ sep :: v) = Some (k, v).
Proof.
  induction k as [|c k IH]; intros Hk; cbn [app split_once].
  - by rewrite decide_True.
  - apply not_elem_of_cons in Hk as [Hc Hk]. rewrite decide_False by congruence. by rewrite IH.
Qed.

Lemma split_once_None sep t : split_once sep t = None ↔ sep ∉ t.
Proof.
  induction t as [|c t IH]; cbn [split_once]; [split; [intros _; apply not_elem_of_nil|done]|].
  case_decide as Hc; [subst; split; [done|intros H; destruct H; left]|].
  rewrite not_elem_of_cons, <- IH. destruct (split_once sep t); cbn; naive_solver.
Qed.

(** * Numbers *)
Definition digit_code (d : Z) : char := 48 + d.

Lemma to_digit_code d : 0 ≤ d < 10 → to_digit 10 (digit_code d) = Some d.
Proof.
  intros Hd. unfold to_digit, digit_code. rewrite decide_True by lia. rewrite decide_True by lia. f_equal. lia.
Qed.

Definition value10 (acc : Z) (ds : list Z) : Z := foldl (λ a d, 10 * a + d) acc ds.

Lemma value10_ge acc ds : 0 ≤ acc → Forall (λ d, 0 ≤ d < 10) ds → acc ≤ value10 acc ds.
Proof.
  intros Ha Hds. revert acc Ha. induction Hds as [|d ds Hd _ IH]; intros acc Ha; [done|]. cbn.
  specialize (IH (10 * acc + d) ltac:(lia)). unfold value10 in IH. lia.
Qed.

Lemma push_digits max acc ds :
  0 ≤ acc → Forall (λ d, 0 ≤ d < 10) ds → value10 acc ds ≤ max →
  foldl (push_digit max) (Some acc) (digit_code <$> ds) = Some (value10 acc ds).
Proof.
  intros Ha Hds. revert acc Ha. induction Hds as [|d ds Hd Hds IH]; intros acc Ha Hm; [done|].
  cbn [fmap list_fmap foldl value10]. unfold push_digit at 2. rewrite to_digit_code by done.
  pose proof (value10_ge (10 * acc + d) ds ltac:(lia) Hds) as Hge. cbn [value10 foldl] in Hm. unfold value10 in Hge.
  rewrite decide_True by lia. apply IH; [lia|exact Hm].
Qed.

Lemma value10_dec_digits fuel z : 0 ≤ z < 2 ^ Z.of_nat fuel → value10 0 (dec_digits fuel z) = z.
Proof.
  revert z. induction fuel as [|fuel IH]; intros z Hz.
  - assert (z = 0) as -> by (simpl in Hz; lia). done.
  - cbn [dec_digits]. destruct (Z.ltb_spec z 10); [cbn; lia|].
    unfold value10 in *. rewrite foldl_app, IH; [cbn; pose proof (Z.div_mod z 10); lia|].
    rewrite Nat2Z.inj_succ, Z.pow_succ_r in Hz by lia.
    split; [apply Z.div_pos; lia|]. apply Z.div_lt_upper_bound; lia.
Qed.

Lemma dec_fuel_spec z : 0 ≤ z → 0 ≤ z < 2 ^ Z.of_nat (dec_fuel z).
Proof.
  intros Hz. split; [done|]. unfold dec_fuel. rewrite Z2Nat.id by apply Z.log2_up_nonneg.
  destruct (decide (z = 0)) as [->|]; [done|]. pose proof (Z.log2_up_spec (z + 1)). lia.
Qed.

Lemma dec_digits_nonempty fuel z : dec_digits fuel z ≠ [].
Proof. destruct fuel; cbn; [done|]. case_match; [done|]. by intros [_ ?]%app_nil. Qed.

Lemma parse_uint_dec max z : 0 ≤ z ≤ max → parse_uint max (dec_text z) = Some z.
Proof.
  intros Hz. unfold dec_text. change (λ d, 48 + d) with digit_code.
  pose proof (dec_fuel_spec z ltac:(lia)) as Hf. pose proof (dec_digits_range _ _ Hf) as Hr.
  pose proof (value10_dec_digits _ _ Hf) as Hv. pose proof (dec_digits_nonempty (dec_fuel z) z) as Hne.
  rewrite <- Hv at 3. rewrite <- (push_digits max); [|lia|done|rewrite Hv; lia].
  destruct (dec_digits (dec_fuel z) z) as [|d ds] eqn:Hds; [done|]. cbn [fmap list_fmap]. unfold parse_uint.
  rewrite decide_False; [done|]. apply Forall_cons in Hr as [Hr _]. unfold digit_code. lia.
Qed.

Lemma push_digits_range max acc t z :
  0 ≤ acc ≤ max → foldl (push_digit max) (Some acc) t = Some z → 0 ≤ z ≤ max.
Proof.
  revert acc. induction t as [|c t IH]; intros acc Ha; [by intros [= <-]|]. cbn [foldl]. unfold push_digit at 2.
  assert (foldl (push_digit max) None t = None) as Hn by (clear; induction t; [done|by destruct (to_digit 10 a)]).
  destruct (to_digit 10 c) as [d|] eqn:Hd; [|by rewrite Hn]. case_decide; [|by rewrite Hn].
  apply IH. split; [|done]. unfold to_digit in Hd. repeat case_decide; simplify_eq; lia.
Qed.

Lemma parse_uint_range max t z : 0 ≤ max → parse_uint max t = Some z → 0 ≤ z ≤ max.
Proof.
  intros Hm. unfold parse_uint. destruct t as [|c t]; [done|].
  repeat case_decide; try done; apply push_digits_range; lia.
Qed.

(** * Addresses *)
Definition no_digit (t : text) : Prop := match head t with Some c => to_digit 10 c = None | None => True end.

Lemma read_digits_code ds r :
  Forall (λ d, 0 ≤ d < 10) ds → no_digit r → read_digits 10 ((digit_code <$> ds) ++ r) = (ds, r).
Proof.
  intros Hds Hr. induction Hds as [|d ds Hd _ IH]; cbn [fmap list_fmap app read_digits].
  - destruct r as [|c r]; [done|]. unfold no_digit in Hr. cbn in Hr. cbn [read_digits]. by rewrite Hr.
  - rewrite to_digit_code by done. by rewrite IH.
Qed.

Lemma digits_value_10 ds : digits_value 10 ds = value10 0 ds.
Proof.
  unfold digits_value, value10. generalize 0. induction ds as [|d ds IH]; intros a; [done|]. cbn [foldl].
  by rewrite (Z.mul_comm a 10).
Qed.

Lemma read_number_dec max limit zero z r :
  0 ≤ z ≤ max → no_digit r →
  match limit with Some n => (length (dec_digits (dec_fuel z) z) ≤ n)%nat | None => True end →
  (zero = true ∨ (head (dec_digits (dec_fuel z) z) = Some 0 → length (dec_digits (dec_fuel z) z) = 1%nat)) →
  read_number max 10 limit zero (dec_text z ++ r) = Some (z, r).
Proof.
  intros Hz Hr Hlim Hzero. unfold dec_text. change (λ d, 48 + d) with digit_code.
  pose proof (dec_fuel_spec z ltac:(lia)) as Hf. pose proof (value10_dec_digits _ _ Hf) as Hv.
  unfold read_number. rewrite read_digits_code; [|by apply dec_digits_range|done].
  rewrite decide_False by apply dec_digits_nonempty.
  assert (match limit with Some n => bool_decide (n < length (dec_digits (dec_fuel z) z))%nat | None => false end = false) as ->.
  { destruct limit; [|done]. apply bool_decide_eq_false. lia. }
  rewrite digits_value_10, Hv, decide_True by lia.
  assert (negb zero && bool_decide (head (dec_digits (dec_fuel z) z) = Some 0)
            && bool_decide (1 < length (dec_digits (dec_fuel z) z))%nat = false) as ->; [|done].
  destruct Hzero as [->|Hzero]; [done|]. apply andb_false_iff.
  destruct (decide (head (dec_digits (dec_fuel z) z) = Some 0)) as [Hh|Hh].
  - right. apply bool_decide_eq_false. rewrite Hzero by done. lia.
  - left. apply andb_false_iff. right. by apply bool_decide_eq_false.
Qed.

(** The digits of a byte. *)
Lemma octet_digits z : 0 ≤ z < 256 →
  (length (dec_digits (dec_fuel z) z) ≤ 3)%nat
  ∧ (head (dec_digits (dec_fuel z) z) = Some 0 → length (dec_digits (dec_fuel z) z) = 1%nat).
Proof.
  assert (Forall (λ z, (length (dec_digits (dec_fuel z) z) ≤ 3)%nat
    ∧ (head (dec_digits (dec_fuel z) z) = Some 0 → length (dec_digits (dec_fuel z) z) = 1%nat)) (seqZ 0 256)) as Hall
    by by_decide.
  intros Hz. rewrite Forall_forall in Hall. apply Hall, elem_of_seqZ. lia.
Qed.

Lemma read_octet_dec index z r :
  0 ≤ z < 256 → no_digit r →
  read_octet index ((match index with O => [] | _ => [46] end) ++ dec_text z ++ r) = Some (z, r).
Proof.
  intros Hz Hr. destruct (octet_digits z Hz) as [Hl Hh].
  assert (read_number 255 10 (Some 3%nat) false (dec_text z ++ r) = Some (z, r)) as Hn
    by (apply read_number_dec; [lia|done|done|by right]).
  unfold read_octet, read_separator. destruct index; [exact Hn|]. cbn [app]. unfold read_given_char, strip_prefix_char.
  rewrite decide_True by done. cbn. exact Hn.
Qed.

Lemma div_octets a : 0 ≤ a < 2 ^ 32 →
  a / 2 ^ 24 * 2 ^ 24 + a / 2 ^ 16 mod 2 ^ 8 * 2 ^ 16 + a / 2 ^ 8 mod 2 ^ 8 * 2 ^ 8 + a mod 2 ^ 8 = a
  ∧ 0 ≤ a / 2 ^ 24 < 256 ∧ 0 ≤ a / 2 ^ 16 mod 2 ^ 8 < 256 ∧ 0 ≤ a / 2 ^ 8 mod 2 ^ 8 < 256 ∧ 0 ≤ a mod 2 ^ 8 < 256.
Proof. intros Ha. split; [|split_and!]; Z.to_euclidean_division_equations; lia. Qed.

Lemma read_ipv4_text a r : 0 ≤ a < 2 ^ 32 → no_digit r → read_ipv4_addr (ipv4_text a ++ r) = Some (a, r).
Proof.
  intros Ha Hr. destruct (div_octets a Ha) as (Hsum & H3 & H2 & H1 & H0). unfold ipv4_text.
  rewrite <- !app_assoc. unfold read_ipv4_addr.
  pose proof (λ z r, read_octet_dec 0 z r) as O0. pose proof (λ z r, read_octet_dec 1 z r) as O1.
  pose proof (λ z r, read_octet_dec 2 z r) as O2. pose proof (λ z r, read_octet_dec 3 z r) as O3.
  cbn [app] in O0, O1, O2, O3 |- *.
  rewrite O0 by done. cbn [mbind option_bind fst snd]. rewrite O1 by done. cbn [mbind option_bind fst snd].
  rewrite O2 by done. cbn [mbind option_bind fst snd]. rewrite O3 by done. cbn [mbind option_bind fst snd]. by rewrite Hsum.
Qed.

Lemma length_ipv4_text a : 0 ≤ a < 2 ^ 32 → (length (ipv4_text a) ≤ 15)%nat.
Proof.
  intros Ha. destruct (div_octets a Ha) as (_ & H3 & H2 & H1 & H0). unfold ipv4_text, dec_text.
  rewrite !length_app, !length_fmap. cbn [length].
  apply octet_digits in H3 as [H3 _], H2 as [H2 _], H1 as [H1 _], H0 as [H0 _]. lia.
Qed.

Lemma parse_ipv4_text a : 0 ≤ a < 2 ^ 32 → parse_ipv4 (ipv4_text a) = Some a.
Proof.
  intros Ha. unfold parse_ipv4. rewrite decide_False by (pose proof (length_ipv4_text a Ha); lia).
  unfold parse_with. pose proof (read_ipv4_text a [] Ha I) as Hr. rewrite app_nil_r in Hr. by rewrite Hr.
Qed.

Lemma parse_socket_v4_text a port :
  0 ≤ a < 2 ^ 32 → u16_range port → parse_socket_addr (socket_v4_text a port) = Some (SocketAddr (IpV4 a) port).
Proof.
  intros Ha Hp. unfold parse_socket_addr, parse_with, read_socket_addr, read_socket_addr_v4, socket_v4_text.
  rewrite read_ipv4_text by done. cbn [mbind option_bind fst snd app]. unfold read_port, read_given_char, strip_prefix_char.
  rewrite decide_True by done. cbn [mbind option_bind fst snd].
  pose proof (read_number_dec u16_max None true port [] Hp I I (or_introl eq_refl)) as Hn. rewrite app_nil_r in Hn.
  by rewrite Hn.
Qed.

(** ** Parsed addresses are addresses *)
Definition addr_wf (a : socket_addr) : Prop :=
  u16_range (addr_port a) ∧ match addr_ip a with IpV4 x => 0 ≤ x < 2 ^ 32 | IpV6 x => 0 ≤ x < 2 ^ 128 end.
Global Instance addr_wf_dec a : Decision (addr_wf a).
Proof. unfold addr_wf. destruct (addr_ip a); apply _. Defined.

Lemma read_digits_nonneg radix t : Forall (λ d, 0 ≤ d) (read_digits radix t).1.
Proof.
  induction t as [|c t IH]; cbn [read_digits]; [done|]. destruct (to_digit radix c) as [d|] eqn:Hd; [|done].
  cbn [fst]. constructor; [|done]. unfold to_digit in Hd. repeat case_decide; simplify_eq; lia.
Qed.

Lemma read_number_range max radix limit zero t z r :
  0 ≤ radix → read_number max radix limit zero t = Some (z, r) → 0 ≤ z ≤ max.
Proof.
  intros Hr. unfold read_number. pose proof (read_digits_nonneg radix t) as Hd.
  destruct (read_digits radix t) as [ds r']. cbn [fst] in Hd. case_decide; [done|].
  destruct (match limit with Some n => _ | None => _ end); [done|]. destruct (negb zero && _ && _); [done|].
  case_decide; [|done]. intros [= <- <-].
  split; [|done]. unfold digits_value.
  assert (∀ a, 0 ≤ a → 0 ≤ foldl (λ a d, a * radix + d) a ds) as Hf; [|by apply Hf].
  clear - Hd Hr. induction Hd as [|d ds' Hge _ IH]; intros a Ha; [done|]. cbn. apply IH. nia.
Qed.

Lemma read_separator_inv {A} sep index (p : parser A) t x :
  read_separator sep index p t = Some x → ∃ t', p t' = Some x.
Proof. destruct index; cbn; [by exists t|]. intros (c & _ & Hc)%bind_Some. by exists c.2. Qed.

Lemma read_octet_range index t z r : read_octet index t = Some (z, r) → 0 ≤ z ≤ 255.
Proof. intros (t' & Ht)%read_separator_inv. apply read_number_range in Ht; lia. Qed.

Lemma read_ipv4_range t a r : read_ipv4_addr t = Some (a, r) → 0 ≤ a < 2 ^ 32.
Proof.
  unfold read_ipv4_addr. intros ([x3 r3] & H3 & ([x2 r2] & H2 & ([x1 r1] & H1 & ([x0 r0] & H0 & [= <- <-])%bind_Some)%bind_Some)%bind_Some)%bind_Some.
  apply read_octet_range in H3, H2, H1, H0. cbn [fst]. lia.
Qed.

Lemma parse_ipv4_range t a : parse_ipv4 t = Some a → 0 ≤ a < 2 ^ 32.
Proof.
  unfold parse_ipv4, parse_with. case_decide; [done|]. intros ([? ?] & Hr%read_ipv4_range & Ha)%bind_Some.
  case_decide; [|done]. by injection Ha as <-.
Qed.

Lemma read_groups_spec fuel : ∀ limit i t gs v4 r,
  read_groups fuel limit i t = (gs, v4, r) → (fuel + i = limit)%nat →
  Forall (λ g, 0 ≤ g < 65536) gs ∧ (length gs ≤ fuel)%nat.
Proof.
  induction fuel as [|fuel IH]; intros limit i t gs v4 r; cbn [read_groups]; [by intros [= <- <- <-]|].
  intros Hg Hi.
  destruct (if decide (i + 1 < limit)%nat then read_separator 58 i read_ipv4_addr t else None) as [[a r']|] eqn:Hv.
  - injection Hg as <- <- <-. case_decide; [|done]. apply read_separator_inv in Hv as (t' & Ha%read_ipv4_range).
    split; [|cbn; lia]. repeat constructor; Z.to_euclidean_division_equations; lia.
  - clear Hv. destruct (read_separator 58 i _ t) as [[g r']|] eqn:Hn; [|by injection Hg as <- <- <-; split; [|cbn; lia]].
    destruct (read_groups fuel limit (S i) r') as [[gs' ?] ?] eqn:Hrec. injection Hg as <- <- <-.
    apply IH in Hrec as [Hf Hl]; [|lia]. split; [|cbn; lia]. constructor; [|done].
    apply read_separator_inv in Hn as (t' & Hn%read_number_range); lia.
Qed.

Lemma groups_value_range gs : Forall (λ g, 0 ≤ g < 65536) gs → length gs = 8%nat → 0 ≤ groups_value gs < 2 ^ 128.
Proof.
  intros Hf Hl. assert (∀ a k, 0 ≤ a < 2 ^ k → 0 ≤ k →
    0 ≤ foldl (λ a g, a * 65536 + g) a gs < 2 ^ (k + 16 * zlen gs)) as Hgen.
  { clear Hl. induction Hf as [|g gs' Hg _ IH]; intros a k Ha Hk; [cbn [foldl]; replace (k + 16 * zlen []) with k by (unfold zlen; cbn; lia); lia|].
    cbn [foldl]. rewrite zlen_cons. replace (k + 16 * (1 + zlen gs')) with ((k + 16) + 16 * zlen gs') by lia.
    apply IH; [|lia]. rewrite Z.pow_add_r by lia. change (2 ^ 16) with 65536. nia. }
  specialize (Hgen 0 0). unfold zlen in Hgen. rewrite Hl in Hgen. apply Hgen; lia.
Qed.

Lemma parse_socket_addr_wf t a : parse_socket_addr t = Some a → addr_wf a.
Proof.
  unfold parse_socket_addr, parse_with. intros ([a' r] & Hr & Ha)%bind_Some. case_decide; [|done]. injection Ha as <-.
  cbn [fst]. unfold read_socket_addr in Hr. destruct (read_socket_addr_v4 t) as [[]|] eqn:Hv4.
  - injection Hr as -> ->. unfold read_socket_addr_v4, read_port in Hv4.
    apply bind_Some in Hv4 as ([x r1] & Hx%read_ipv4_range & Hv4).
    apply bind_Some in Hv4 as ([p r2] & Hp & [= <- <-]). apply bind_Some in Hp as (c & _ & Hp%read_number_range); [|lia].
    by split.
  - clear Hv4. unfold read_socket_addr_v6, read_port in Hr. apply bind_Some in Hr as (o & _ & Hr).
    apply bind_Some in Hr as ([x r1] & Hx & Hr). apply bind_Some in Hr as (c & _ & Hr).
    apply bind_Some in Hr as ([p r2] & Hp & [= <- <-]). apply bind_Some in Hp as (c' & _ & Hp%read_number_range); [|lia].
    split; [done|]. cbn [addr_ip fst]. unfold read_ipv6_addr in Hx.
    destruct (read_groups 8 8 0 o.2) as [[gs v4] r3] eqn:Hg. apply read_groups_spec in Hg as [Hf Hl]; [|done].
    case_decide as H8; [by injection Hx as <- <-; apply groups_value_range|]. destruct v4; [done|].
    apply bind_Some in Hx as (c1 & _ & Hx). apply bind_Some in Hx as (c2 & _ & Hx).
    destruct (read_groups _ _ 0 c2.2) as [[back v4] r4] eqn:Hg. apply read_groups_spec in Hg as [Hfb Hlb]; [|lia].
    injection Hx as <- <-. apply groups_value_range.
    + apply Forall_app. split; [done|]. apply Forall_app. split; [|done]. apply Forall_replicate. lia.
    + rewrite !length_app, length_replicate. lia.
Qed.
