(* ===== verification/Files.v ===== *)
(** Specifications of the primitives of [World] that change the file system,
    in the presence of faults: what a failing call may leave behind, and that
    without faults it fails only for the reason stated. *)
From stdpp Require Import base tactics list countable strings gmap.
From Stdlib Require Import ZArith Lia.
From S2P Require Import Prelude Bytes World.
Local Open Scope Z_scope.
Local Open Scope etle_scope.

(** [fs_step w m w']: the file system became [m], nothing else but the step
    counter changed. *)
Definition fs_step (w : World) (m : fs) (w' : World) : Prop := stepped (set_fs m w) w'.

Lemma fs_step_fs w m w' : fs_step w m w' → w_fs w' = m.
Proof. apply stepped_fs. Qed.

Lemma fs_step_stepped w w' : stepped w w' ↔ fs_step w (w_fs w) w'.
Proof. unfold fs_step, stepped. by destruct w. Qed.

Lemma stepped_fs_step w w' : stepped w w' → fs_step w (w_fs w) w'.
Proof. apply fs_step_stepped. Qed.

Lemma fs_step_trans w m w1 m' w2 : fs_step w m w1 → fs_step w1 m' w2 → fs_step w m' w2.
Proof. unfold fs_step, stepped. destruct w, w1. naive_solver congruence. Qed.

Lemma fs_step_stepped_l w w1 m w2 : stepped w w1 → fs_step w1 m w2 → fs_step w m w2.
Proof. rewrite (fs_step_stepped w). apply fs_step_trans. Qed.

Lemma fs_step_stepped_r w m w1 w2 : fs_step w m w1 → stepped w1 w2 → fs_step w m w2.
Proof. unfold fs_step. intros. by etrans. Qed.

Lemma fs_step_no_faults w m w' : fs_step w m w' → no_faults w ↔ no_faults w'.
Proof. intros H. rewrite <- (stepped_no_faults _ _ H). done. Qed.

Lemma fs_step_refl w : fs_step w (w_fs w) w.
Proof. by apply fs_step_stepped. Qed.

Global Hint Resolve fs_step_fs fs_step_refl : etle.

(** Close [fs_step w _ w'] by composing two recorded steps. *)
Ltac fs_chain :=
  match goal with
  | H : fs_step ?a _ ?c |- fs_step ?a _ ?c => exact H
  | H1 : fs_step ?a _ ?b, H2 : fs_step ?b _ ?c |- fs_step ?a _ ?c => exact (fs_step_trans _ _ _ _ _ H1 H2)
  | H1 : fs_step ?a _ ?b, H2 : stepped ?b ?c |- fs_step ?a _ ?c => exact (fs_step_stepped_r _ _ _ _ H1 H2)
  | H1 : stepped ?a ?b, H2 : fs_step ?b _ ?c |- fs_step ?a _ ?c => exact (fs_step_stepped_l _ _ _ _ H1 H2)
  end.

(** * Creating and writing files *)
Definition can_create (m : fs) (p : path) : Prop :=
  p ≠ [] ∧ m !! p ≠ Some Dir ∧ is_dir_in m (parent_or_empty p) = true.

Lemma wp_file_create p (Q : unit → World → Prop) (R : io_kind → World → Prop) w :
  (∀ k w', stepped w w' → (no_faults w → ¬ can_create (w_fs w) p) → R k w') →
  (∀ w', can_create (w_fs w) p → fs_step w (<[p := File []]> (w_fs w)) w' → Q tt w') →
  wp (file_create p) Q R w.
Proof.
  intros HR HQ. apply wp_faulty.
  { intros f Hf. apply HR; [done|]. intros Hn. by eapply fault_not_no_faults in Hn. }
  intros _. unfold wp. cbn [w_fs tick]. case_decide as Hd.
  { apply HR; [done|]. intros _ (? & ? & _). naive_solver. }
  destruct (is_dir_in _ _) eqn:Hp.
  - apply HQ; [split_and!; naive_solver|done].
  - apply HR; [done|]. intros _ (_ & _ & ?). congruence.
Qed.

Lemma wp_file_create_new p (Q : unit → World → Prop) (R : io_kind → World → Prop) w :
  (∀ k w', stepped w w' →
     (no_faults w → ¬ can_create (w_fs w) p ∨ is_Some (w_fs w !! p)) → R k w') →
  (∀ w', can_create (w_fs w) p → w_fs w !! p = None →
     fs_step w (<[p := File []]> (w_fs w)) w' → Q tt w') →
  wp (file_create_new p) Q R w.
Proof.
  intros HR HQ. apply wp_faulty.
  { intros f Hf. apply HR; [done|]. intros Hn. by eapply fault_not_no_faults in Hn. }
  intros _. unfold wp, path_exists. cbn [w_fs tick]. case_bool_decide as Hd.
  { apply HR; [done|]. intros _. destruct Hd as [->|?]; [left|by right]. by intros [? _]. }
  apply Decidable.not_or in Hd as [Hp Hd]. apply eq_None_not_Some in Hd.
  destruct (is_dir_in _ _) eqn:Hpar.
  - apply HQ; [split_and!; [done|by rewrite Hd|done]|done|done].
  - apply HR; [done|]. intros _. left. intros (_ & _ & ?). congruence.
Qed.

Lemma wp_file_write_all p d (Q : unit → World → Prop) (R : io_kind → World → Prop) w :
  (∀ k n w', fs_step w (append_at (w_fs w) p (take n d)) w' → ¬ no_faults w → R k w') →
  (∀ w', fs_step w (append_at (w_fs w) p d) w' → Q tt w') →
  wp (file_write_all p d) Q R w.
Proof.
  intros HR HQ. apply wp_faulty; [intros f Hf; eapply HR; [done|by eapply fault_not_no_faults]|].
  intros _. unfold wp. by apply HQ.
Qed.

Lemma wp_file_sync p (Q : unit → World → Prop) (R : io_kind → World → Prop) w :
  (∀ k w', stepped w w' → ¬ no_faults w → R k w') → (∀ w', stepped w w' → Q tt w') →
  wp (file_sync p) Q R w.
Proof.
  intros HR HQ. apply wp_faulty; [intros f Hf; apply HR; [done|by eapply fault_not_no_faults]|].
  intros _. by apply HQ.
Qed.

Lemma append_at_insert m p d d' : append_at (<[p := File d]> m) p d' = <[p := File (d ++ d')]> m.
Proof. unfold append_at. by rewrite lookup_insert_eq, insert_insert_eq. Qed.

(** [fs::write]: a failing call leaves the file as it was or a prefix. *)
Lemma wp_fs_write p d (Q : unit → World → Prop) (R : io_kind → World → Prop) w :
  (∀ k m w', fs_step w m w' → (m = w_fs w ∨ ∃ n, m = <[p := File (take n d)]> (w_fs w)) →
     (no_faults w → ¬ can_create (w_fs w) p) → R k w') →
  (∀ w', can_create (w_fs w) p → fs_step w (<[p := File d]> (w_fs w)) w' → Q tt w') →
  wp (fs_write p d) Q R w.
Proof.
  intros HR HQ. unfold fs_write. wp_simpl. apply wp_file_create.
  { intros k w' Hst Hn. eapply HR; [by apply stepped_fs_step|by left|done]. }
  intros w1 Hcc Hst1. apply wp_file_write_all; rewrite (fs_step_fs _ _ _ Hst1).
  - intros k n w2 Hst2 Hnf. rewrite append_at_insert in Hst2. eapply HR.
    + by eapply fs_step_trans.
    + right. by exists n.
    + intros Hn. exfalso. apply Hnf. by apply (fs_step_no_faults _ _ _ Hst1).
  - intros w2 Hst2. rewrite append_at_insert in Hst2. apply HQ; [done|]. by eapply fs_step_trans.
Qed.

(** * Directories *)
Definition dirs_free (m : fs) (p : path) : Prop :=
  file_at m p = None ∧ Forall (λ q, file_at m q = None) (ancestors p).

Lemma wp_create_dir_all p (Q : unit → World → Prop) (R : io_kind → World → Prop) w :
  (∀ k ps w', fs_step w (mkdirs (w_fs w) ps) w' → ps ⊆ ancestors p →
     Forall (λ q, file_at (w_fs w) q = None) ps →
     (no_faults w → ¬ dirs_free (w_fs w) p) → R k w') →
  (∀ w', dirs_free (w_fs w) p → fs_step w (mkdirs (w_fs w) (ancestors p)) w' → Q tt w') →
  wp (create_dir_all p) Q R w.
Proof.
  intros HR HQ. apply wp_faulty.
  { intros f Hf. assert (¬ no_faults w) by (by eapply fault_not_no_faults). cbn [w_fs tick].
    case_decide as Hd.
    - eapply (HR _ (take (fault_partial f) (ancestors p))); [done| |by apply Forall_take|done].
      intros q. rewrite !list_elem_of_lookup. intros (i & Hi). exists i. apply lookup_take_Some in Hi. naive_solver.
    - eapply (HR _ []); [|set_solver|constructor|done]. by apply stepped_fs_step. }
  intros _. unfold wp. cbn [w_fs tick]. case_decide as Hf.
  { eapply (HR _ []); [by apply stepped_fs_step|set_solver|constructor|].
    intros _ [Hn _]. rewrite Hn in Hf. by destruct Hf. }
  case_decide as Hd.
  - apply HQ; [|done]. split; [by apply eq_None_not_Some|done].
  - eapply (HR _ []); [by apply stepped_fs_step|set_solver|constructor|]. by intros _ [_ ?].
Qed.

(** * Renaming and removing *)
Lemma wp_rename a b (Q : unit → World → Prop) (R : io_kind → World → Prop) w :
  (∀ k w', stepped w w' →
     (no_faults w → ¬ (can_create (w_fs w) b ∧ is_Some (file_at (w_fs w) a))) → R k w') →
  (∀ d w', file_at (w_fs w) a = Some d →
     fs_step w (<[b := File d]> (delete a (w_fs w))) w' → Q tt w') →
  wp (rename a b) Q R w.
Proof.
  intros HR HQ. apply wp_faulty.
  { intros f Hf. apply HR; [done|]. intros Hn. by eapply fault_not_no_faults in Hn. }
  intros _. unfold wp, file_at in *. cbn [w_fs tick].
  destruct (w_fs w !! a) as [[d|]|] eqn:Ha.
  - case_decide as Hd.
    { apply HR; [done|]. intros _ [(?&?&_) _]. naive_solver. }
    destruct (is_dir_in _ _) eqn:Hp; [by eapply HQ|].
    apply HR; [done|]. intros _ [(_&_&?) _]. congruence.
  - apply HR; [done|]. intros _ [_ [? ?]]. done.
  - apply HR; [done|]. intros _ [_ [? ?]]. done.
Qed.

Lemma wp_remove_file p (Q : unit → World → Prop) (R : io_kind → World → Prop) w :
  (∀ k w', stepped w w' → (no_faults w → file_at (w_fs w) p = None) → R k w') →
  (∀ d w', file_at (w_fs w) p = Some d → fs_step w (delete p (w_fs w)) w' → Q tt w') →
  wp (remove_file p) Q R w.
Proof.
  intros HR HQ. apply wp_faulty.
  { intros f Hf. apply HR; [done|]. intros Hn. by eapply fault_not_no_faults in Hn. }
  intros _. unfold wp, file_at in *. cbn [w_fs tick].
  destruct (w_fs w !! p) as [[d|]|] eqn:Hp; [by eapply HQ|by apply HR..].
Qed.

(** * Lookups *)
Lemma file_at_insert m p d q :
  file_at (<[p := File d]> m) q = if decide (p = q) then Some d else file_at m q.
Proof. unfold file_at. rewrite lookup_insert. by case_decide. Qed.

Lemma file_at_insert_eq m p d : file_at (<[p := File d]> m) p = Some d.
Proof. rewrite file_at_insert. by rewrite decide_True. Qed.

Lemma file_at_insert_ne m p d q : p ≠ q → file_at (<[p := File d]> m) q = file_at m q.
Proof. intros. rewrite file_at_insert. by rewrite decide_False. Qed.

Lemma file_at_delete m p q :
  file_at (delete p m) q = if decide (p = q) then None else file_at m q.
Proof. unfold file_at. rewrite lookup_delete. by case_decide. Qed.

Lemma is_dir_in_insert_file m p d q :
  m !! p ≠ Some Dir → is_dir_in m q = true → is_dir_in (<[p := File d]> m) q = true.
Proof.
  unfold is_dir_in. rewrite !bool_decide_eq_true. intros Hp [->|Hq]; [by left|]. right.
  rewrite lookup_insert_ne; [done|]. intros ->. done.
Qed.

Lemma parent_snoc p x : parent_or_empty (p ++ [x]) = p.
Proof.
  unfold parent_or_empty, path_parent. destruct (p ++ [x]) as [|y l] eqn:Hp; [by destruct p|].
  rewrite <- Hp. simpl. apply removelast_last.
Qed.

Lemma can_create_snoc m p x :
  m !! (p ++ [x]) ≠ Some Dir → is_dir_in m p = true → can_create m (p ++ [x]).
Proof. intros. split_and!; [by destruct p|done|by rewrite parent_snoc]. Qed.

Lemma str_app_inj_r s1 s2 t : s1 +:+ t = s2 +:+ t → s1 = s2.
Proof.
  intros Heq%(f_equal str_bytes). rewrite !str_bytes_app in Heq. apply app_inv_tail in Heq.
  by apply str_bytes_inj.
Qed.
