(* ===== verification/Extern.v ===== *)
(** Interfaces of the third-party crates: [blake3], [chacha20poly1305],
    [x25519_dalek] and [bincode_next]. Each is a class of operations the model
    takes as a parameter, and a class of laws that states the documented
    behaviour the sources rely on. Module [Toy] instantiates every interface by
    a concrete function, so that the laws are known to be satisfiable and every
    definition of the development can be evaluated. *)
From stdpp Require Import base tactics list countable strings.
From Stdlib Require Import ZArith Lia.
From S2P Require Import Prelude Bytes.
Local Open Scope Z_scope.

(** * [blake3] *)
Class Blake3 := {
  hasher : Type;
  hasher_new : hasher;
  hasher_new_keyed : array 32 → hasher;
  hasher_update : hasher → bytes → hasher;
  hasher_finalize : hasher → array 32;
  blake3_hash : bytes → array 32;
  blake3_derive_key : string → bytes → array 32;
}.

Definition hasher_updates `{Blake3} (h : hasher) (l : list bytes) : hasher :=
  foldl hasher_update h l.

(** The digest depends on the concatenation of the updates only, and [hash] is
    the digest of one update of a fresh hasher. *)
Class Blake3Laws `{Blake3} : Prop := {
  hasher_concat h l1 l2 :
    concat l1 = concat l2 →
    hasher_finalize (hasher_updates h l1) = hasher_finalize (hasher_updates h l2);
  hasher_hash a : hasher_finalize (hasher_update hasher_new a) = blake3_hash a;
}.

(** A hash collision: what an adversary would have to produce. *)
Definition blake3_collision `{Blake3} : Prop :=
  ∃ a b : bytes, a ≠ b ∧ blake3_hash a = blake3_hash b.

Lemma hasher_updates_hash `{Blake3Laws} l :
  hasher_finalize (hasher_updates hasher_new l) = blake3_hash (concat l).
Proof.
  rewrite <- hasher_hash.
  rewrite (hasher_concat hasher_new l [concat l]); [done|].
  simpl. by rewrite app_nil_r.
Qed.

Lemma hasher_updates_snoc `{Blake3} h l a :
  hasher_update (hasher_updates h l) a = hasher_updates h (l ++ [a]).
Proof. unfold hasher_updates. by rewrite foldl_app. Qed.

(** * [chacha20poly1305] (XChaCha20-Poly1305) *)
Class Aead := {
  aead_encrypt : array 32 → array 24 → bytes → bytes → option bytes;
  aead_decrypt : array 32 → array 24 → bytes → bytes → option bytes;
}.

(** Message limit of the cipher: 2^32 blocks of 64 bytes, less one. *)
Definition aead_max : Z := 2 ^ 38 - 64.

Class AeadLaws `{Aead} : Prop := {
  aead_decrypt_encrypt k n m a c :
    aead_encrypt k n m a = Some c → aead_decrypt k n c a = Some m;
  (** The tag is recomputed on decryption: what is accepted is an encryption. *)
  aead_encrypt_decrypt k n m a c :
    aead_decrypt k n c a = Some m → aead_encrypt k n m a = Some c;
  aead_encrypt_total k n m a : zlen m ≤ aead_max → is_Some (aead_encrypt k n m a);
  aead_encrypt_length k n m a c : aead_encrypt k n m a = Some c → zlen c = zlen m + 16;
}.

(** * [x25519_dalek] *)
Class X25519 := {
  x_secret : Type;
  x_secret_random : array 32 → x_secret;
  x_public : x_secret → array 32;
  x_diffie_hellman : x_secret → array 32 → array 32;
}.

Class X25519Laws `{X25519} : Prop := {
  x_dh_comm a b : x_diffie_hellman a (x_public b) = x_diffie_hellman b (x_public a);
}.

(** * [bincode_next] with [config::standard()] *)
Class Bincode (A : Type) := {
  bincode_encode : A → option bytes;
  bincode_decode : bytes → option (A * Z);
}.

(** Decoding reads back what was encoded, reports how many bytes it used, and
    never reports more than there are. *)
Class BincodeLaws (A : Type) `{Bincode A} : Prop := {
  bincode_decode_encode (a : A) e rest :
    bincode_encode a = Some e → bincode_decode (e ++ rest) = Some (a, zlen e);
  bincode_decode_bound (a : A) b n : bincode_decode b = Some (a, n) → 0 ≤ n ≤ zlen b;
}.

(** [bincode_next::error::DecodeError] *)
Inductive decode_error :=
  | DecodeFailed
  | OtherString (msg : string).
Global Instance decode_error_eq_dec : EqDecision decode_error.
Proof. solve_decision. Defined.

(** * Concrete instances *)
Module Toy.
Definition array_of_Z (n : nat) (z : Z) : array n :=
  default (array_repeat n Byte.x00) (to_array n (le_bytes n z)).

Definition checksum (l : bytes) : Z :=
  let m := 2 ^ 256 in foldl (λ acc b, (acc * 257 + byte_val b + 1) mod m) 7 l.

Definition toy_hash (l : bytes) : array 32 := array_of_Z 32 (checksum l).

Definition toy_hasher : Type := bytes * bytes.

#[export] Instance toy_blake3 : Blake3 := {|
  hasher := toy_hasher;
  hasher_new := ([], []);
  hasher_new_keyed k := (array_data k, []);
  hasher_update h a := (h.1, h.2 ++ a);
  hasher_finalize h := toy_hash (h.1 ++ h.2);
  blake3_hash a := toy_hash a;
  blake3_derive_key c a := toy_hash (str_bytes c ++ a);
|}.

Lemma toy_updates (h : hasher) l : hasher_updates h l = (h.1, h.2 ++ concat l).
Proof.
  unfold hasher_updates. revert h. induction l as [|a l IH]; intros h; simpl.
  - destruct h. by rewrite app_nil_r.
  - rewrite IH. simpl. by rewrite app_assoc.
Qed.

#[export] Instance toy_blake3_laws : Blake3Laws.
Proof.
  split.
  - intros h l1 l2 Hl. rewrite !toy_updates. by rewrite Hl.
  - done.
Qed.

Definition toy_tag (k : array 32) (n : array 24) (m a : bytes) : bytes :=
  le_bytes 16 (checksum (array_data k ++ array_data n ++ a ++ m)).

#[export] Instance toy_aead : Aead := {|
  aead_encrypt k n m a := if decide (zlen m ≤ aead_max) then Some (m ++ toy_tag k n m a) else None;
  aead_decrypt k n c a :=
    let m := take (length c - 16) c in
    if decide (zlen m ≤ aead_max ∧ drop (length c - 16) c = toy_tag k n m a)
    then Some m else None;
|}.

#[export] Instance toy_aead_laws : AeadLaws.
Proof.
  assert (Hlen : ∀ k n m a, (length (m ++ toy_tag k n m a) - 16)%nat = length m).
  { intros. unfold toy_tag. rewrite length_app, length_le_bytes. lia. }
  split.
  - intros k n m a c. simpl. case_decide; [|done]. intros [= <-].
    rewrite Hlen, take_app_length, drop_app_length. rewrite decide_True; done.
  - intros k n m a c. simpl. case_decide as Hd; [|done]. intros [= <-].
    destruct Hd as [H1 H2]. rewrite decide_True by done.
    by rewrite <- H2, take_drop.
  - intros k n m a Hm. simpl. rewrite decide_True by done. eauto.
  - intros k n m a c. simpl. case_decide; [|done]. intros [= <-].
    unfold toy_tag. rewrite zlen_app. unfold zlen at 2. rewrite length_le_bytes. lia.
Qed.

#[export] Instance toy_x25519 : X25519 := {|
  x_secret := array 32;
  x_secret_random s := s;
  x_public s := s;
  x_diffie_hellman s p :=
    array_of_Z 32 (of_le_bytes (array_data s) * of_le_bytes (array_data p));
|}.

#[export] Instance toy_x25519_laws : X25519Laws.
Proof. split. intros a b. simpl. by rewrite Z.mul_comm. Qed.

(** A self-delimiting code for any countable type. *)
Fixpoint pos_code (p : positive) : bytes :=
  match p with
  | xH => [Byte.x02]
  | xO p => Byte.x00 :: pos_code p
  | xI p => Byte.x01 :: pos_code p
  end.

Fixpoint pos_decode (l : bytes) : option (positive * Z) :=
  match l with
  | [] => None
  | b :: l =>
      if decide (b = Byte.x02) then Some (xH, 1)
      else if decide (b = Byte.x00) then
        match pos_decode l with Some (p, n) => Some (xO p, 1 + n) | None => None end
      else if decide (b = Byte.x01) then
        match pos_decode l with Some (p, n) => Some (xI p, 1 + n) | None => None end
      else None
  end.

Lemma pos_decode_code p rest : pos_decode (pos_code p ++ rest) = Some (p, zlen (pos_code p)).
Proof. induction p; simpl; rewrite ?IHp; rewrite ?zlen_cons; done. Qed.

Lemma pos_decode_bound l p n : pos_decode l = Some (p, n) → 0 ≤ n ≤ zlen l.
Proof.
  revert p n. induction l as [|b l IH]; intros p n; simpl; [done|].
  rewrite zlen_cons. pose proof (zlen_nonneg l).
  repeat case_decide; [naive_solver lia| | |done];
    destruct (pos_decode l) as [[q k]|]; try done;
    specialize (IH q k eq_refl); naive_solver lia.
Qed.

Definition countable_bincode (A : Type) `{Countable A} : Bincode A := {|
  bincode_encode a := Some (pos_code (encode a));
  bincode_decode b :=
    match pos_decode b with
    | Some (p, n) => match decode p with Some a => Some (a, n) | None => None end
    | None => None
    end;
|}.

Lemma countable_bincode_laws (A : Type) `{Countable A} :
  @BincodeLaws A (countable_bincode A).
Proof.
  split; simpl.
  - intros a e rest [= <-]. by rewrite pos_decode_code, decode_encode.
  - intros a b n. destruct (pos_decode b) as [[p k]|] eqn:Hp; [|done].
    destruct (decode p); [|done]. intros [= -> ->]. by eapply pos_decode_bound.
Qed.

(** The same code restricted to the values a type admits. *)
Definition filtered_bincode (A : Type) `{Countable A} (P : A → Prop) `{∀ a, Decision (P a)} : Bincode A := {|
  bincode_encode a := if decide (P a) then Some (pos_code (encode a)) else None;
  bincode_decode b :=
    match pos_decode b with
    | Some (p, n) => match decode p with Some a => if decide (P a) then Some (a, n) else None | None => None end
    | None => None
    end;
|}.

Lemma filtered_bincode_typed (A : Type) `{Countable A} (P : A → Prop) `{∀ a, Decision (P a)} b a n :
  @bincode_decode A (filtered_bincode A P) b = Some (a, n) → P a.
Proof.
  simpl. destruct (pos_decode b) as [[p k]|]; [|done]. destruct (decode p) as [a'|]; [|done].
  case_decide; [|done]. by intros [= <- <-].
Qed.
End Toy.
