(* ===== verification/Crypto.v ===== *)
(** The crypto layer: [crypto/hash.rs], [crypto/aead.rs],
    [crypto/key_exchange.rs], [crypto/key_wrap.rs].

    The primitives are the classes of [Extern]; modelled here is what the
    program builds from them: associated data, transcript-bound keys and tags,
    the constant-time style comparison, key wrapping. *)
From stdpp Require Import base tactics list countable strings gmap.
From Stdlib Require Import ZArith Lia.
From S2P Require Import Prelude Bytes World Extern.
Local Open Scope Z_scope.
Local Open Scope etle_scope.

(** * Identifiers and keys *)
Record FileId := mkFileId { file_id_bytes : array 32 }.
Record ChunkHash := mkChunkHash { chunk_hash_bytes : array 32 }.
Record SymmetricKey := mkSymmetricKey { symmetric_key_bytes : array 32 }.
Record Nonce := mkNonce { nonce_bytes : array 24 }.
Record PublicKeyBytes := mkPublicKeyBytes { public_key_bytes : array 32 }.
Record SharedSecretBytes := mkSharedSecretBytes { shared_secret_bytes : array 32 }.
Record AuthPsk := mkAuthPsk { auth_psk_bytes : array 32 }.
Inductive AuthRole := Client | Server.
Abbreviation AuthTag := (array 32).

Global Instance FileId_eq_dec : EqDecision FileId.
Proof. solve_decision. Defined.
Global Instance ChunkHash_eq_dec : EqDecision ChunkHash.
Proof. solve_decision. Defined.
Global Instance SymmetricKey_eq_dec : EqDecision SymmetricKey.
Proof. solve_decision. Defined.
Global Instance Nonce_eq_dec : EqDecision Nonce.
Proof. solve_decision. Defined.
Global Instance PublicKeyBytes_eq_dec : EqDecision PublicKeyBytes.
Proof. solve_decision. Defined.
Global Instance FileId_countable : Countable FileId.
Proof. refine (inj_countable' file_id_bytes mkFileId _). by intros []. Defined.
Global Instance ChunkHash_countable : Countable ChunkHash.
Proof. refine (inj_countable' chunk_hash_bytes mkChunkHash _). by intros []. Defined.
Global Instance SymmetricKey_countable : Countable SymmetricKey.
Proof. refine (inj_countable' symmetric_key_bytes mkSymmetricKey _). by intros []. Defined.
Global Instance Nonce_countable : Countable Nonce.
Proof. refine (inj_countable' nonce_bytes mkNonce _). by intros []. Defined.
Global Instance PublicKeyBytes_countable : Countable PublicKeyBytes.
Proof. refine (inj_countable' public_key_bytes mkPublicKeyBytes _). by intros []. Defined.

(** [crypto/error.rs] *)
Inductive CryptoError := Encrypt | Decrypt | InvalidPublicKey | InvalidWrappedKeyLength.
Global Instance CryptoError_eq_dec : EqDecision CryptoError.
Proof. solve_decision. Defined.

(** * [crypto/hash.rs] *)
Section hash.
Context `{Blake3}.

Definition hash_bytes (b : bytes) : array 32 := blake3_hash b.
Definition hash_file_id (b : bytes) : FileId := mkFileId (hash_bytes b).
Definition hash_chunk (b : bytes) : ChunkHash := mkChunkHash (hash_bytes b).

(** One round of the read loop of [hash_file]: 64 KiB at most per read. *)
Definition hash_file_round (st : bytes * hasher) : io ((bytes * hasher) + FileId) :=
  let! read := file_read (64 * 1024) st.1 in
  if decide (read.1 = []) then ret (inr (mkFileId (hasher_finalize st.2)))
  else ret (inl (read.2, hasher_update st.2 read.1)).

Definition hash_file (p : path) : io FileId :=
  let! content := read_file p in
  mloop (S (length content)) hash_file_round (content, hasher_new).
End hash.

(** * [crypto/aead.rs] *)
Definition generate_nonce {E} : M World E Nonce :=
  let! nonce := fill_bytes 24 in
  ret (mkNonce nonce).

Definition build_chunk_aad (file_id : FileId) (chunk_index plain_size : Z) : bytes :=
  array_data (file_id_bytes file_id)
  ++ u32_to_le_bytes chunk_index
  ++ u64_to_le_bytes plain_size.

Section aead.
Context `{Aead}.

Definition encrypt_chunk (key : SymmetricKey) (nonce : Nonce) (plaintext aad : bytes)
    : result CryptoError bytes :=
  ok_or (aead_encrypt (symmetric_key_bytes key) (nonce_bytes nonce) plaintext aad) Encrypt.

Definition decrypt_chunk (key : SymmetricKey) (nonce : Nonce) (ciphertext aad : bytes)
    : result CryptoError bytes :=
  ok_or (aead_decrypt (symmetric_key_bytes key) (nonce_bytes nonce) ciphertext aad) Decrypt.
End aead.

(** * [crypto/key_exchange.rs] *)
Section key_exchange.
Context `{Blake3, X25519}.

Definition auth_psk_from_passphrase (passphrase : bytes) : AuthPsk :=
  mkAuthPsk (blake3_derive_key "etle v1 psk authentication passphrase" passphrase).

Record EphemeralKeypair := mkEphemeralKeypair {
  keypair_secret : x_secret;
  keypair_public : PublicKeyBytes;
}.

Definition keypair_generate {E} : M World E EphemeralKeypair :=
  let! seed := fill_bytes 32 in
  let secret := x_secret_random seed in
  ret (mkEphemeralKeypair secret (mkPublicKeyBytes (x_public secret))).

Definition diffie_hellman (self : EphemeralKeypair) (peer_public_key : PublicKeyBytes)
    : result CryptoError SharedSecretBytes :=
  let shared := x_diffie_hellman (keypair_secret self) (public_key_bytes peer_public_key) in
  if forallb (λ b, bool_decide (b = Byte.x00)) (array_data shared)
  then Err InvalidPublicKey
  else Ok (mkSharedSecretBytes shared).

Definition derive_session_key (shared_secret : SharedSecretBytes) : SymmetricKey :=
  mkSymmetricKey (blake3_derive_key "etle v1 x25519 session key"
                    (array_data (shared_secret_bytes shared_secret))).

Definition derive_session_key_with_transcript (shared_secret : SharedSecretBytes)
    (client_public_key server_public_key : PublicKeyBytes) : SymmetricKey :=
  let material := array_data (shared_secret_bytes shared_secret)
                  ++ array_data (public_key_bytes client_public_key)
                  ++ array_data (public_key_bytes server_public_key) in
  mkSymmetricKey (blake3_derive_key "etle v1 x25519 transcript-bound session key" material).

Definition auth_role_tag (role : AuthRole) : bytes :=
  match role with
  | Client => str_bytes "client"
  | Server => str_bytes "server"
  end.

Definition derive_auth_tag (psk : AuthPsk) (session_key : SymmetricKey)
    (client_public_key server_public_key : PublicKeyBytes) (role : AuthRole) : AuthTag :=
  let h := hasher_new_keyed (auth_psk_bytes psk) in
  let h := hasher_update h (str_bytes "etle v1 psk-authenticated x25519 transcript") in
  let h := hasher_update h (auth_role_tag role) in
  let h := hasher_update h (array_data (symmetric_key_bytes session_key)) in
  let h := hasher_update h (array_data (public_key_bytes client_public_key)) in
  let h := hasher_update h (array_data (public_key_bytes server_public_key)) in
  hasher_finalize h.

Definition derive_file_key (shared_secret : SharedSecretBytes) (file_id : FileId)
    : SymmetricKey :=
  let material := array_data (shared_secret_bytes shared_secret)
                  ++ array_data (file_id_bytes file_id) in
  mkSymmetricKey (blake3_derive_key "etle v1 x25519 file key" material).
End key_exchange.
Arguments EphemeralKeypair {_}.

(** The comparison that does not stop at the first difference. *)
Definition auth_tags_equal (left right : AuthTag) : bool :=
  let diff := foldl (λ acc p, byte_or acc (byte_xor p.1 p.2)) Byte.x00
                (zip (array_data left) (array_data right)) in
  bool_decide (diff = Byte.x00).

(** * [crypto/key_wrap.rs] *)
Record WrappedFileKey := mkWrappedFileKey { wrapped_nonce : Nonce; wrapped_data : bytes }.
Global Instance WrappedFileKey_eq_dec : EqDecision WrappedFileKey.
Proof. solve_decision. Defined.

Definition generate_file_key {E} : M World E SymmetricKey :=
  let! key := fill_bytes 32 in
  ret (mkSymmetricKey key).

Definition build_file_key_aad (file_id : FileId) : bytes :=
  str_bytes "etle-file-key-v1" ++ array_data (file_id_bytes file_id).

Section key_wrap.
Context `{Aead}.

Definition wrap_file_key (session_key : SymmetricKey) (file_id : FileId)
    (file_key : SymmetricKey) : M World CryptoError WrappedFileKey :=
  let! nonce := generate_nonce in
  let aad := build_file_key_aad file_id in
  let! data := lift_result (encrypt_chunk session_key nonce
                              (array_data (symmetric_key_bytes file_key)) aad) in
  ret (mkWrappedFileKey nonce data).

Definition unwrap_file_key (session_key : SymmetricKey) (file_id : FileId)
    (wrapped : WrappedFileKey) : result CryptoError SymmetricKey :=
  let aad := build_file_key_aad file_id in
  let? b := decrypt_chunk session_key (wrapped_nonce wrapped) (wrapped_data wrapped) aad in
  let? key_bytes := ok_or (to_array 32 b) InvalidWrappedKeyLength in
  Ok (mkSymmetricKey key_bytes).
End key_wrap.

(** * Properties *)

(** ** Hashing a file in blocks is hashing its content *)
(** The read loop consumes the file: the specification of [hash_file]. *)
Lemma wp_hash_file `{Blake3Laws} p w (Q : FileId → World → Prop) (R : io_kind → World → Prop) :
  (∀ k w', stepped w w' → ¬ no_faults w ∨ file_at (w_fs w) p = None → R k w') →
  (∀ d w', file_at (w_fs w) p = Some d → stepped w w' → Q (hash_file_id d) w') →
  wp (hash_file p) Q R w.
Proof.
  intros HR HQ. unfold hash_file. wp_simpl. apply wp_read_file; [done|].
  intros d w0 Hd Hw0.
  apply (wp_mloop _ (λ st w', ∃ l, st.2 = hasher_updates hasher_new l ∧ d = concat l ++ st.1
                              ∧ stepped w w') (λ st _, length st.1)).
  - exists []. done.
  - simpl. lia.
  - intros [rest h] w1 (l & Hh & Hl & Hst). cbn [fst snd] in *. subst h.
    unfold hash_file_round. wp_simpl.
    apply wp_file_read.
    { intros k w2 Hst2 Hnf. apply HR; [by etrans|]. left. by rewrite (stepped_no_faults _ _ Hst). }
    intros pre post w2 Hrest Hpre _ _ Hst2. cbn [fst snd] in *. case_decide as Hemp; wp_simpl.
    + assert (rest = []) as -> by (destruct (Hpre Hemp); [lia|done]).
      rewrite app_nil_r in Hl. rewrite hasher_updates_hash, <- Hl.
      apply HQ; [done|by etrans].
    + subst rest. split.
      * exists (l ++ [pre]). cbn [fst snd]. rewrite hasher_updates_snoc, concat_app. simpl.
        rewrite app_nil_r, <- app_assoc. split_and!; [done..|by etrans].
      * cbn [fst]. rewrite length_app. destruct pre; [done|]. simpl. lia.
Qed.

(** ** Associated data determines the chunk it was built for *)
Lemma build_chunk_aad_inj_aux f1 i1 s1 f2 i2 s2 :
  u32_range i1 → u32_range i2 → u64_range s1 → u64_range s2 →
  build_chunk_aad f1 i1 s1 = build_chunk_aad f2 i2 s2 → f1 = f2 ∧ i1 = i2 ∧ s1 = s2.
Proof.
  intros Hi1 Hi2 Hs1 Hs2. unfold build_chunk_aad. intros Heq.
  apply app_inj_length in Heq as [Hf Heq]; [|by rewrite !length_array].
  apply app_inj_length in Heq as [Hi Hs]; [|by unfold u32_to_le_bytes; rewrite !length_le_bytes].
  split_and!.
  - destruct f1, f2. simpl in Hf. f_equal. by apply array_eq.
  - by apply u32_to_le_bytes_inj.
  - by apply u64_to_le_bytes_inj.
Qed.

(** ** Tag comparison *)
Lemma byte_or_x00 a b : byte_or a b = Byte.x00 ↔ a = Byte.x00 ∧ b = Byte.x00.
Proof.
  split.
  - intros H. split; apply byte_eq_bits; intros i Hi;
      (assert (Z.testbit (byte_val (byte_or a b)) i = false) as Hb by (rewrite H; apply testbit_x00));
      rewrite testbit_byte_or in Hb by done; apply orb_false_iff in Hb as [??];
      rewrite testbit_x00; done.
  - intros [-> ->]. done.
Qed.

Lemma byte_xor_x00 a b : byte_xor a b = Byte.x00 ↔ a = b.
Proof.
  split.
  - intros H. apply byte_eq_bits. intros i Hi. apply xorb_eq.
    rewrite <- testbit_byte_xor by done. rewrite H. apply testbit_x00.
  - intros ->. apply byte_eq_bits. intros i Hi.
    rewrite testbit_byte_xor, xorb_nilpotent, testbit_x00 by done. done.
Qed.

Lemma fold_xor_x00 l1 l2 acc :
  length l1 = length l2 →
  foldl (λ acc p, byte_or acc (byte_xor p.1 p.2)) acc (zip l1 l2) = Byte.x00
  ↔ acc = Byte.x00 ∧ l1 = l2.
Proof.
  revert l2 acc. induction l1 as [|a l1 IH]; intros [|b l2] acc Hlen; simpl in *; try lia.
  - naive_solver.
  - rewrite IH by lia. rewrite byte_or_x00, byte_xor_x00. naive_solver.
Qed.

Lemma auth_tags_equal_spec left right : auth_tags_equal left right = true ↔ left = right.
Proof.
  unfold auth_tags_equal. rewrite bool_decide_eq_true, fold_xor_x00 by (by rewrite !length_array).
  split; [intros [_ ?]; by apply array_eq | by intros ->].
Qed.

(** ** Key wrapping *)
Lemma unwrap_wrap `{AeadLaws} session_key file_id file_key nonce data :
  encrypt_chunk session_key nonce (array_data (symmetric_key_bytes file_key))
    (build_file_key_aad file_id) = Ok data →
  unwrap_file_key session_key file_id (mkWrappedFileKey nonce data) = Ok file_key.
Proof.
  unfold encrypt_chunk, unwrap_file_key, decrypt_chunk. rewrite ok_or_Ok. intros Henc.
  simpl. apply aead_decrypt_encrypt in Henc. rewrite Henc. simpl.
  rewrite to_array_data. simpl. by destruct file_key.
Qed.

(** ** Shared secrets *)
Lemma diffie_hellman_comm `{Blake3, X25519Laws} a b :
  keypair_public a = mkPublicKeyBytes (x_public (keypair_secret a)) →
  keypair_public b = mkPublicKeyBytes (x_public (keypair_secret b)) →
  diffie_hellman a (keypair_public b) = diffie_hellman b (keypair_public a).
Proof. intros Ha Hb. unfold diffie_hellman. rewrite Ha, Hb. simpl. by rewrite x_dh_comm. Qed.

(** * Claims *)

(** [hash_file] computes the BLAKE3 hash of the file's content, however the
    operating system splits the reads, and fails only with an I/O error, which
    without a fault of the system means that there is no such file; it changes
    nothing. *)
Theorem hash_file_correct `{Blake3Laws} p w :
  (∃ d w', hash_file p w = (Ok (hash_file_id d), w')
           ∧ file_at (w_fs w) p = Some d ∧ stepped w w')
  ∨ (∃ k w', hash_file p w = (Err k, w') ∧ stepped w w'
             ∧ (no_faults w → file_at (w_fs w) p = None)).
Proof.
  destruct (wp_run (hash_file p)
    (λ id w', ∃ d, id = hash_file_id d ∧ file_at (w_fs w) p = Some d ∧ stepped w w')
    (λ _ w', stepped w w' ∧ (no_faults w → file_at (w_fs w) p = None)) w)
    as [(id & w' & Hrun & d & -> & Hd)|(k & w' & Hrun & Hk)].
  - apply wp_hash_file; [naive_solver|]. intros d w' Hd Hst. by exists d.
  - left. by exists d, w'.
  - right. by exists k, w'.
Qed.

(** The associated data of a chunk determines the file, the chunk index and
    the plaintext size it was built for. *)
Theorem build_chunk_aad_injective f1 i1 s1 f2 i2 s2 :
  u32_range i1 → u32_range i2 → u64_range s1 → u64_range s2 →
  build_chunk_aad f1 i1 s1 = build_chunk_aad f2 i2 s2 → f1 = f2 ∧ i1 = i2 ∧ s1 = s2.
Proof. apply build_chunk_aad_inj_aux. Qed.

(** [auth_tags_equal], which accumulates the differences of all 32 bytes
    before it answers, decides equality of tags. *)
Theorem auth_tags_equal_correct (left right : AuthTag) :
  auth_tags_equal left right = bool_decide (left = right).
Proof.
  destruct (auth_tags_equal left right) eqn:Heq.
  - symmetry. by apply bool_decide_eq_true, auth_tags_equal_spec.
  - symmetry. apply bool_decide_eq_false. intros Hlr%auth_tags_equal_spec. congruence.
Qed.

(** Wrapping a file key under a session key succeeds and unwrapping the
    result under the same session key and file id gives the file key back, for
    every nonce the random source yields. *)
Theorem wrap_unwrap_roundtrip `{AeadLaws} session_key file_id file_key w :
  ∃ wrapped w', wrap_file_key session_key file_id file_key w = (Ok wrapped, w')
    ∧ unwrap_file_key session_key file_id wrapped = Ok file_key ∧ stepped w w'.
Proof.
  set (nonce := mkNonce (env_rng (w_env w) (w_step w) 24)).
  destruct (aead_encrypt_total (symmetric_key_bytes session_key) (nonce_bytes nonce)
    (array_data (symmetric_key_bytes file_key)) (build_file_key_aad file_id)) as [data Hdata].
  { unfold zlen. rewrite length_array. unfold aead_max. lia. }
  assert (encrypt_chunk session_key nonce (array_data (symmetric_key_bytes file_key))
            (build_file_key_aad file_id) = Ok data) as Henc
    by (unfold encrypt_chunk; by rewrite Hdata).
  exists (mkWrappedFileKey nonce data), (tick w).
  split_and!; [|by apply unwrap_wrap|done].
  unfold wrap_file_key. rewrite (bind_Ok _ _ _ nonce (tick w)) by done. cbv zeta.
  unfold bind, lift_result. by rewrite Henc.
Qed.

Import Toy.
Module CryptoSample.
Definition env : Env := {|
  env_fault _ := None; env_read _ := 3%nat; env_clock n := Z.of_nat n;
  env_rng n len := Toy.array_of_Z len (Z.of_nat n + 1);
  env_connect _ _ := Err NotFound; env_accept _ := Err NotFound; env_pid := 7; env_parallelism := Some 4;
|}.
Definition world (m : fs) (inbound : bytes) : World := {|
  w_env := env; w_step := 0; w_fs := m; w_in := inbound; w_out := []; w_progress := [];
|}.
Definition key (b : byte) : SymmetricKey := mkSymmetricKey (array_repeat 32 b).
Definition file_id (b : byte) : FileId := mkFileId (array_repeat 32 b).
End CryptoSample.

Lemma hash_file_correct_witness :
  let w := CryptoSample.world {[ ["a"%string] := File (str_bytes "hello world") ]} [] in
  (∃ d w', hash_file ["a"%string] w = (Ok (hash_file_id d), w')
           ∧ file_at (w_fs w) ["a"%string] = Some d ∧ stepped w w')
  ∨ (∃ k w', hash_file ["a"%string] w = (Err k, w') ∧ stepped w w'
             ∧ (no_faults w → file_at (w_fs w) ["a"%string] = None)).
Proof. apply hash_file_correct. Defined.

Lemma build_chunk_aad_injective_witness :
  u32_range 5 ∧ u64_range 1024 ∧
  (build_chunk_aad (CryptoSample.file_id Byte.x01) 5 1024
   = build_chunk_aad (CryptoSample.file_id Byte.x01) 5 1024
   → CryptoSample.file_id Byte.x01 = CryptoSample.file_id Byte.x01 ∧ 5 = 5 ∧ 1024 = 1024).
Proof.
  split; [by_decide|]. split; [by_decide|]. apply build_chunk_aad_injective; by_decide.
Defined.

Lemma wrap_unwrap_roundtrip_witness :
  let w := CryptoSample.world ∅ [] in
  ∃ wrapped w',
    wrap_file_key (CryptoSample.key Byte.x05) (CryptoSample.file_id Byte.x01)
      (CryptoSample.key Byte.x09) w = (Ok wrapped, w')
    ∧ unwrap_file_key (CryptoSample.key Byte.x05) (CryptoSample.file_id Byte.x01) wrapped
      = Ok (CryptoSample.key Byte.x09) ∧ stepped w w'.
Proof. apply wrap_unwrap_roundtrip. Defined.
