(* ===== verification/Descriptor.v ===== *)
(** Public metadata of a share: [file/manifest.rs], [file/descriptor.rs] and the
    error type of [file/error.rs].

    The share id is the BLAKE3 digest of a byte string built from the
    descriptor's fields. [share_id_preimage] is that byte string; it is injective
    on well-formed descriptors, so two different descriptors with one id exhibit
    a hash collision. *)
From stdpp Require Import base tactics list countable strings gmap.
From Stdlib Require Import ZArith Lia.
From S2P Require Import Prelude Bytes World Extern Crypto.
Local Open Scope Z_scope.
Local Open Scope etle_scope.

(** * Manifests *)
Record ChunkMeta := mkChunkMeta {
  cm_index : Z;
  cm_plain_size : Z;
  cm_encrypted_size : Z;
  cm_nonce : Nonce;
  cm_blake3_hash : ChunkHash;
}.
Record Manifest := mkManifest {
  mf_file_id : FileId;
  mf_file_name : string;
  mf_file_size : Z;
  mf_chunk_size : Z;
  mf_chunks : list ChunkMeta;
}.
Global Instance ChunkMeta_eq_dec : EqDecision ChunkMeta.
Proof. solve_decision. Defined.
Global Instance ChunkMeta_countable : Countable ChunkMeta.
Proof.
  refine (inj_countable'
    (λ c, (cm_index c, cm_plain_size c, cm_encrypted_size c, cm_nonce c, cm_blake3_hash c))
    (λ '(a, b, c, d, e), mkChunkMeta a b c d e) _). by intros [].
Defined.
Global Instance Manifest_eq_dec : EqDecision Manifest.
Proof. solve_decision. Defined.
Global Instance Manifest_countable : Countable Manifest.
Proof.
  refine (inj_countable'
    (λ m, (mf_file_id m, mf_file_name m, mf_file_size m, mf_chunk_size m, mf_chunks m))
    (λ '(a, b, c, d, e), mkManifest a b c d e) _). by intros [].
Defined.

(** What the Rust field types guarantee. *)
Definition ChunkMeta_wf (c : ChunkMeta) : Prop :=
  u32_range (cm_index c) ∧ u64_range (cm_plain_size c) ∧ u64_range (cm_encrypted_size c).
Global Instance ChunkMeta_wf_dec c : Decision (ChunkMeta_wf c).
Proof. unfold ChunkMeta_wf. apply _. Defined.

(** The common shape of the [from_bytes] functions: decode, then refuse a slice
    that was not consumed to its end. *)
Definition decode_exact {A} `{Bincode A} (label : string) (b : bytes) : result decode_error A :=
  let? r := ok_or (bincode_decode b) DecodeFailed in
  if decide (r.2 = zlen b) then Ok r.1
  else Err (OtherString (label +:+ " has trailing bytes: decoded " +:+ dec r.2 +:+ " of "
                         +:+ dec (zlen b) +:+ " bytes")).

Definition Manifest_to_bytes `{Bincode Manifest} (m : Manifest) : option bytes := bincode_encode m.
Definition Manifest_from_bytes `{Bincode Manifest} (b : bytes) : result decode_error Manifest :=
  decode_exact "manifest" b.

(** * Share ids *)
Record ShareId := mkShareId { share_id_bytes : array 32 }.
Global Instance ShareId_eq_dec : EqDecision ShareId.
Proof. solve_decision. Defined.
Global Instance ShareId_countable : Countable ShareId.
Proof. refine (inj_countable' share_id_bytes mkShareId _). by intros []. Defined.

(** [write!(f, "{byte:02x}")] for every byte. *)
Definition hex_digit (d : Z) : byte := byte_of_Z (if d <? 10 then 48 + d else 97 + (d - 10)).
Definition hex_byte (b : byte) : bytes :=
  [hex_digit (byte_val b / 16); hex_digit (byte_val b mod 16)].
Definition write_hex (b : bytes) : bytes := concat (hex_byte <$> b).
Definition ShareId_to_string (id : ShareId) : string :=
  String.string_of_list_byte (write_hex (array_data (share_id_bytes id))).

Inductive ParseShareIdError := mkParseShareIdError.
Global Instance ParseShareIdError_eq_dec : EqDecision ParseShareIdError.
Proof. solve_decision. Defined.

Definition decode_hex_nibble (v : byte) : result ParseShareIdError byte :=
  let z := byte_val v in
  if decide (48 ≤ z ≤ 57) then Ok (byte_of_Z (z - 48))
  else if decide (97 ≤ z ≤ 102) then Ok (byte_of_Z (z - 97 + 10))
  else if decide (65 ≤ z ≤ 70) then Ok (byte_of_Z (z - 65 + 10))
  else Err mkParseShareIdError.

Definition decode_hex_pair (high low : byte) : result ParseShareIdError byte :=
  let? h := decode_hex_nibble high in
  let? l := decode_hex_nibble low in
  Ok (byte_or (byte_shl h 4) l).

(** The body of the loop of [ShareId::from_str]; indexing past the end panics. *)
Definition from_str_byte (value : bytes) (index : nat) : result ParseShareIdError byte :=
  let offset := (index * 2)%nat in
  match value !! offset, value !! (offset + 1)%nat with
  | Some h, Some l => decode_hex_pair h l
  | _, _ => Panic
  end.

Definition ShareId_from_str (s : string) : result ParseShareIdError ShareId :=
  if decide (str_len s ≠ 64) then Err mkParseShareIdError
  else
    let value := str_bytes s in
    let? l := result_mapM (from_str_byte value) (seq 0 32) in
    match to_array 32 l with Some a => Ok (mkShareId a) | None => Panic end.

(** * Descriptors *)
Inductive CryptoSuite := XChaCha20Poly1305Blake3X25519V1.
Definition as_domain_tag (c : CryptoSuite) : bytes :=
  match c with XChaCha20Poly1305Blake3X25519V1 => str_bytes "xchacha20poly1305+blake3+x25519:v1" end.
Definition CryptoSuite_default : CryptoSuite := XChaCha20Poly1305Blake3X25519V1.

Record FileEntry := mkFileEntry {
  fe_path : string;
  fe_size : Z;
  fe_offset : Z;
  fe_blake3_hash : FileId;
}.
Definition end_offset (e : FileEntry) : option Z := checked_add u64_max (fe_offset e) (fe_size e).

Record EtleDescriptor := mkEtleDescriptor {
  d_version : Z;
  d_name : string;
  d_share_id : ShareId;
  d_total_size : Z;
  d_chunk_size : Z;
  d_crypto : CryptoSuite;
  d_files : list FileEntry;
  d_chunks : list ChunkMeta;
}.
Definition ETLE_DESCRIPTOR_VERSION : Z := 1.

Global Instance CryptoSuite_eq_dec : EqDecision CryptoSuite.
Proof. solve_decision. Defined.
Global Instance CryptoSuite_countable : Countable CryptoSuite.
Proof. refine (inj_countable' (λ _, tt) (λ _, CryptoSuite_default) _). by intros []. Defined.
Global Instance FileEntry_eq_dec : EqDecision FileEntry.
Proof. solve_decision. Defined.
Global Instance FileEntry_countable : Countable FileEntry.
Proof.
  refine (inj_countable' (λ e, (fe_path e, fe_size e, fe_offset e, fe_blake3_hash e))
            (λ '(a, b, c, d), mkFileEntry a b c d) _). by intros [].
Defined.
Global Instance EtleDescriptor_eq_dec : EqDecision EtleDescriptor.
Proof. solve_decision. Defined.
Global Instance EtleDescriptor_countable : Countable EtleDescriptor.
Proof.
  refine (inj_countable'
    (λ d, (d_version d, d_name d, d_share_id d, d_total_size d, d_chunk_size d, d_crypto d,
           d_files d, d_chunks d))
    (λ '(a, b, c, d, e, f, g, h), mkEtleDescriptor a b c d e f g h) _). by intros [].
Defined.

Section share_id.
Context `{Blake3}.

Definition hash_string (h : hasher) (value : string) : hasher :=
  let b := str_bytes value in
  hasher_update (hasher_update h (u64_to_le_bytes (as_u64 (zlen b)))) b.

Definition hash_file_entry (h : hasher) (file : FileEntry) : hasher :=
  let h := hash_string h (fe_path file) in
  let h := hasher_update h (u64_to_le_bytes (fe_size file)) in
  let h := hasher_update h (u64_to_le_bytes (fe_offset file)) in
  hasher_update h (array_data (file_id_bytes (fe_blake3_hash file))).

Definition hash_chunk_meta (h : hasher) (chunk : ChunkMeta) : hasher :=
  let h := hasher_update h (u32_to_le_bytes (cm_index chunk)) in
  let h := hasher_update h (u64_to_le_bytes (cm_plain_size chunk)) in
  let h := hasher_update h (u64_to_le_bytes (cm_encrypted_size chunk)) in
  let h := hasher_update h (array_data (nonce_bytes (cm_nonce chunk))) in
  hasher_update h (array_data (chunk_hash_bytes (cm_blake3_hash chunk))).

Definition compute_share_id (version : Z) (name : string) (total_size chunk_size : Z)
    (crypto : CryptoSuite) (files : list FileEntry) (chunks : list ChunkMeta) : ShareId :=
  let h := hasher_new in
  let h := hasher_update h (str_bytes "etle descriptor share id v1") in
  let h := hasher_update h (u16_to_le_bytes version) in
  let h := hash_string h name in
  let h := hasher_update h (u64_to_le_bytes total_size) in
  let h := hasher_update h (u64_to_le_bytes chunk_size) in
  let h := hasher_update h (as_domain_tag crypto) in
  let h := hasher_update h (u64_to_le_bytes (as_u64 (zlen files))) in
  let h := foldl hash_file_entry h files in
  let h := hasher_update h (u64_to_le_bytes (as_u64 (zlen chunks))) in
  let h := foldl hash_chunk_meta h chunks in
  mkShareId (hasher_finalize h).

Definition EtleDescriptor_new (name : string) (total_size chunk_size : Z)
    (files : list FileEntry) (chunks : list ChunkMeta) : EtleDescriptor :=
  let crypto := CryptoSuite_default in
  let share_id := compute_share_id ETLE_DESCRIPTOR_VERSION name total_size chunk_size crypto
                    files chunks in
  mkEtleDescriptor ETLE_DESCRIPTOR_VERSION name share_id total_size chunk_size crypto files chunks.

Definition recompute_share_id (d : EtleDescriptor) : ShareId :=
  compute_share_id (d_version d) (d_name d) (d_total_size d) (d_chunk_size d) (d_crypto d)
    (d_files d) (d_chunks d).

Definition verify_share_id (d : EtleDescriptor) : bool :=
  bool_decide (d_share_id d = recompute_share_id d).
End share_id.

Definition EtleDescriptor_to_bytes `{Bincode EtleDescriptor} (d : EtleDescriptor) : option bytes :=
  bincode_encode d.
Definition EtleDescriptor_from_bytes `{Bincode EtleDescriptor} (b : bytes)
    : result decode_error EtleDescriptor := decode_exact "descriptor" b.

(** [file/error.rs] *)
Inductive FileError :=
  | FE_Io (k : io_kind)
  | FE_Crypto (e : CryptoError)
  | FE_Encode
  | FE_Decode (e : decode_error)
  | InvalidChunkSize (n : Z)
  | TooManyChunks
  | PackageTooLarge
  | MissingChunk (index : Z)
  | ChunkHashMismatch (index : Z)
  | ChunkSizeMismatch (index expected actual : Z)
  | InvalidPackageInput (p : path)
  | PathOutsideRoot (p root : path)
  | EmptyPackage
  | ShareIdMismatch (expected actual : ShareId)
  | FinalHashMismatch.
Global Instance FileError_eq_dec : EqDecision FileError.
Proof. solve_decision. Defined.

(** * Round trips of the binary formats *)
Lemma decode_exact_encode {A} `{BincodeLaws A} label (a : A) e :
  bincode_encode a = Some e → decode_exact label e = Ok a.
Proof.
  intros He. unfold decode_exact. rewrite <- (app_nil_r e).
  rewrite (bincode_decode_encode a e []) by done. simpl. rewrite app_nil_r.
  by rewrite decide_True.
Qed.

(** Bytes after the value are refused, not ignored. *)
Lemma decode_exact_trailing {A} `{BincodeLaws A} label (a : A) e extra :
  bincode_encode a = Some e → extra ≠ [] →
  ∃ msg, decode_exact label (e ++ extra) = Err (OtherString msg).
Proof.
  intros He Hex. unfold decode_exact. rewrite (bincode_decode_encode a e extra) by done. simpl.
  rewrite decide_False; [eauto|]. rewrite zlen_app. rewrite <- zlen_0 in Hex. lia.
Qed.

(** * Hexadecimal text *)
Definition hex_nibble_chars : list byte := str_bytes "0123456789abcdef".

Lemma decode_hex_digit d : 0 ≤ d < 16 → decode_hex_nibble (hex_digit d) = Ok (byte_of_Z d).
Proof.
  intros Hd. unfold decode_hex_nibble, hex_digit. rewrite byte_val_of_Z.
  destruct (Z.ltb_spec d 10).
  - rewrite Z.mod_small by lia. rewrite decide_True by lia. f_equal. f_equal. lia.
  - rewrite Z.mod_small by lia. rewrite decide_False by lia. rewrite decide_True by lia.
    f_equal. f_equal. lia.
Qed.

Lemma decode_hex_byte b : ∃ h l, hex_byte b = [h; l] ∧ decode_hex_pair h l = Ok b.
Proof.
  pose proof (byte_val_range b) as Hb.
  assert (0 ≤ byte_val b / 16 < 16) as Hq.
  { split; [apply Z.div_pos; lia | apply Z.div_lt_upper_bound; lia]. }
  assert (0 ≤ byte_val b mod 16 < 16) as Hr by (apply Z.mod_pos_bound; lia).
  eexists _, _. split; [done|]. unfold decode_hex_pair.
  rewrite !decode_hex_digit by done. simpl. f_equal.
  apply byte_val_inj. unfold byte_or, byte_shl. rewrite !byte_val_of_Z.
  rewrite (Z.mod_small (byte_val b / 16)), (Z.mod_small (byte_val b mod 16)) by lia.
  rewrite Z.shiftl_mul_pow2 by lia. change (2 ^ 4) with 16.
  rewrite (Z.mod_small (_ * 16)) by lia.
  rewrite <- Z.add_nocarry_lor.
  - rewrite Z.mod_small; pose proof (Z.div_mod (byte_val b) 16); lia.
  - apply Z.bits_inj'. intros i Hi. rewrite Z.land_spec, Z.bits_0.
    change 16 with (2 ^ 4). rewrite <- Z.shiftl_mul_pow2 by lia.
    destruct (decide (i < 4)).
    + by rewrite Z.shiftl_spec_low by lia.
    + rewrite (Z.mod_pow2_bits_high _ 4) by lia. apply andb_false_r.
Qed.

Lemma length_write_hex l : length (write_hex l) = (2 * length l)%nat.
Proof.
  unfold write_hex. induction l as [|b l IH]; [done|].
  rewrite fmap_cons. cbn [concat]. rewrite length_app, IH. simpl. lia.
Qed.

Lemma from_str_byte_write_hex l i b :
  l !! i = Some b → from_str_byte (write_hex l) i = Ok b.
Proof.
  unfold from_str_byte. revert i. induction l as [|c l IH]; intros i Hi; [done|].
  destruct (decode_hex_byte c) as (h & lo & Hhex & Hdec).
  assert (write_hex (c :: l) = h :: lo :: write_hex l) as ->.
  { unfold write_hex. rewrite fmap_cons. cbn [concat]. by rewrite Hhex. }
  destruct i as [|i].
  - injection Hi as <-. done.
  - simpl in Hi. specialize (IH i Hi). replace (S i * 2)%nat with (S (S (i * 2))) by lia.
    exact IH.
Qed.

Lemma result_mapM_ext {E A B} (f : A → result E B) l bs :
  length l = length bs →
  (∀ i a b, l !! i = Some a → bs !! i = Some b → f a = Ok b) →
  result_mapM f l = Ok bs.
Proof.
  intros Hlen Hf. apply result_mapM_Ok. apply Forall2_lookup. intros i.
  destruct (l !! i) as [a|] eqn:Ha.
  - destruct (lookup_lt_is_Some_2 bs i) as [b Hb].
    { rewrite <- Hlen. by eapply lookup_lt_Some. }
    rewrite Hb. constructor. by eapply Hf.
  - apply lookup_ge_None in Ha. rewrite Hlen in Ha. apply lookup_ge_None in Ha.
    rewrite Ha. constructor.
Qed.

Lemma str_bytes_of_list l : str_bytes (String.string_of_list_byte l) = l.
Proof. apply String.list_byte_of_string_of_list_byte. Qed.

Lemma ShareId_from_to_string id : ShareId_from_str (ShareId_to_string id) = Ok id.
Proof.
  destruct id as [a]. unfold ShareId_from_str, ShareId_to_string, str_len.
  cbn [share_id_bytes]. cbv zeta. rewrite !str_bytes_of_list. unfold zlen. rewrite length_write_hex, length_array.
  rewrite decide_False by lia.
  rewrite (result_mapM_ext _ _ (array_data a)).
  - simpl. by rewrite to_array_data.
  - by rewrite length_seq, length_array.
  - intros i k b Hk Hb. apply lookup_seq in Hk as [-> _]. by apply from_str_byte_write_hex.
Qed.

Lemma ShareId_to_string_inj a b : ShareId_to_string a = ShareId_to_string b → a = b.
Proof.
  intros H%(f_equal ShareId_from_str). rewrite !ShareId_from_to_string in H. by injection H.
Qed.

(** Parsing never runs past the end of its input and never fails otherwise than
    with a parse error. *)
Lemma decode_hex_nibble_total v : ∃ r, decode_hex_nibble v = r ∧ r ≠ Panic ∧ r ≠ Diverged.
Proof. eexists; split; [done|]. unfold decode_hex_nibble. repeat case_decide; done. Qed.

Lemma result_mapM_total {E A B} (f : A → result E B) l :
  (∀ a, a ∈ l → f a ≠ Panic ∧ f a ≠ Diverged) →
  result_mapM f l ≠ Panic ∧ result_mapM f l ≠ Diverged.
Proof.
  induction l as [|a l IH]; intros Hf; [done|]. simpl.
  destruct (Hf a) as [??]; [set_solver|]. destruct (f a); try done. simpl.
  destruct IH as [??]; [intros; apply Hf; set_solver|]. by destruct (result_mapM f l).
Qed.

(** * The share id identifies the descriptor

    [decodable f wf]: from [f a] followed by anything, [a] and the rest can be
    recovered. *)
Definition decodable {A} (f : A → bytes) (wf : A → Prop) : Prop :=
  ∀ a b k1 k2, wf a → wf b → f a ++ k1 = f b ++ k2 → a = b ∧ k1 = k2.

Lemma decodable_fixed {A} (f : A → bytes) (wf : A → Prop) n :
  (∀ a, length (f a) = n) → (∀ a b, wf a → wf b → f a = f b → a = b) → decodable f wf.
Proof.
  intros Hlen Hinj a b k1 k2 Ha Hb Heq.
  apply app_inj_length in Heq as [??]; [|by rewrite !Hlen]. auto.
Qed.

Lemma decodable_u16 : decodable u16_to_le_bytes u16_range.
Proof. eapply decodable_fixed; [apply length_le_bytes | apply u16_to_le_bytes_inj]. Qed.
Lemma decodable_u32 : decodable u32_to_le_bytes u32_range.
Proof. eapply decodable_fixed; [apply length_le_bytes | apply u32_to_le_bytes_inj]. Qed.
Lemma decodable_u64 : decodable u64_to_le_bytes u64_range.
Proof. eapply decodable_fixed; [apply length_le_bytes | apply u64_to_le_bytes_inj]. Qed.
Lemma decodable_array n : decodable (@array_data n) (λ _, True).
Proof. eapply decodable_fixed; [apply length_array | intros; by apply array_eq]. Qed.

(** The byte string that [compute_share_id] feeds to the hasher. *)
Definition len_bytes {A} (l : list A) : bytes := u64_to_le_bytes (as_u64 (zlen l)).
Definition string_code (s : string) : bytes := len_bytes (str_bytes s) ++ str_bytes s.
Definition file_entry_code (e : FileEntry) : bytes :=
  string_code (fe_path e) ++ u64_to_le_bytes (fe_size e) ++ u64_to_le_bytes (fe_offset e)
  ++ array_data (file_id_bytes (fe_blake3_hash e)).
Definition chunk_meta_code (c : ChunkMeta) : bytes :=
  u32_to_le_bytes (cm_index c) ++ u64_to_le_bytes (cm_plain_size c)
  ++ u64_to_le_bytes (cm_encrypted_size c) ++ array_data (nonce_bytes (cm_nonce c))
  ++ array_data (chunk_hash_bytes (cm_blake3_hash c)).
Definition list_code {A} (f : A → bytes) (l : list A) : bytes := len_bytes l ++ concat (f <$> l).

Definition share_id_preimage (d : EtleDescriptor) : bytes :=
  str_bytes "etle descriptor share id v1" ++ u16_to_le_bytes (d_version d)
  ++ string_code (d_name d) ++ u64_to_le_bytes (d_total_size d)
  ++ u64_to_le_bytes (d_chunk_size d) ++ as_domain_tag (d_crypto d)
  ++ list_code file_entry_code (d_files d) ++ list_code chunk_meta_code (d_chunks d).

(** What the Rust types guarantee of a descriptor: field widths, and collections
    that fit in memory. *)
Definition string_wf (s : string) : Prop := u64_range (str_len s).
Definition FileEntry_wf (e : FileEntry) : Prop :=
  string_wf (fe_path e) ∧ u64_range (fe_size e) ∧ u64_range (fe_offset e).
Definition EtleDescriptor_wf (d : EtleDescriptor) : Prop :=
  u16_range (d_version d) ∧ string_wf (d_name d) ∧ u64_range (d_total_size d)
  ∧ u64_range (d_chunk_size d) ∧ u64_range (zlen (d_files d)) ∧ Forall FileEntry_wf (d_files d)
  ∧ u64_range (zlen (d_chunks d)) ∧ Forall ChunkMeta_wf (d_chunks d).

Global Instance string_wf_dec s : Decision (string_wf s).
Proof. unfold string_wf. apply _. Defined.
Global Instance FileEntry_wf_dec e : Decision (FileEntry_wf e).
Proof. unfold FileEntry_wf. apply _. Defined.
Global Instance EtleDescriptor_wf_dec d : Decision (EtleDescriptor_wf d).
Proof. unfold EtleDescriptor_wf. apply _. Defined.

Lemma as_u64_id z : u64_range z → as_u64 z = z.
Proof. unfold u64_range, u64_max, as_u64. intros. apply Z.mod_small. lia. Qed.

Lemma len_bytes_app_inj {A} (l1 l2 : list A) k1 k2 :
  u64_range (zlen l1) → u64_range (zlen l2) →
  len_bytes l1 ++ k1 = len_bytes l2 ++ k2 → length l1 = length l2 ∧ k1 = k2.
Proof.
  intros H1 H2. unfold len_bytes. rewrite !as_u64_id by done.
  intros [Hl ->]%decodable_u64; [|done..]. unfold zlen in Hl. split; [lia|done].
Qed.

Lemma decodable_string : decodable string_code string_wf.
Proof.
  intros s1 s2 k1 k2 H1 H2. unfold string_code. rewrite <- !app_assoc. intros Heq.
  apply len_bytes_app_inj in Heq as [Hlen Heq]; [|done..].
  apply app_inj_length in Heq as [Hs ->]; [|done]. split; [by apply str_bytes_inj | done].
Qed.

(** [peel H with L]: split one field off both sides of the equation [H]. *)
Ltac peel H L :=
  let Hd := fresh "Hfield" in
  apply L in H as [Hd H]; [|done..].

Lemma decodable_file_entry : decodable file_entry_code FileEntry_wf.
Proof.
  intros [p1 s1 o1 [h1]] [p2 s2 o2 [h2]] k1 k2 (?&?&?) (?&?&?). simpl in *.
  unfold file_entry_code. cbn [fe_path fe_size fe_offset fe_blake3_hash file_id_bytes].
  rewrite <- !app_assoc. intros Heq.
  peel Heq decodable_string. peel Heq decodable_u64. peel Heq decodable_u64.
  peel Heq (decodable_array 32). by subst.
Qed.

Lemma decodable_chunk_meta : decodable chunk_meta_code ChunkMeta_wf.
Proof.
  intros [i1 s1 o1 [n1] [h1]] [i2 s2 o2 [n2] [h2]] k1 k2 (?&?&?) (?&?&?). simpl in *.
  unfold chunk_meta_code.
  cbn [cm_index cm_plain_size cm_encrypted_size cm_nonce cm_blake3_hash nonce_bytes chunk_hash_bytes].
  rewrite <- !app_assoc. intros Heq.
  peel Heq decodable_u32. peel Heq decodable_u64. peel Heq decodable_u64.
  peel Heq (decodable_array 24). peel Heq (decodable_array 32). by subst.
Qed.

Lemma decodable_list {A} (f : A → bytes) (wf : A → Prop) :
  decodable f wf → decodable (list_code f) (λ l, u64_range (zlen l) ∧ Forall wf l).
Proof.
  intros Hf l1 l2 k1 k2 [Hr1 H1] [Hr2 H2]. unfold list_code. rewrite <- !app_assoc. intros Heq.
  apply len_bytes_app_inj in Heq as [Hlen Heq]; [|done..]. clear Hr1 Hr2.
  revert l2 H2 Hlen Heq. induction H1 as [|a l1 Ha Hl1 IH]; intros [|b l2] H2 Hlen Heq;
    try discriminate Hlen; [done|].
  rewrite !fmap_cons in Heq. cbn [concat] in Heq. rewrite <- !app_assoc in Heq.
  apply Forall_cons in H2 as [Hb H2]. apply Hf in Heq as [-> Heq]; [|done..].
  apply IH in Heq as [-> ->]; [done|done|]. simpl in Hlen. lia.
Qed.

Lemma share_id_preimage_inj d1 d2 :
  EtleDescriptor_wf d1 → EtleDescriptor_wf d2 →
  share_id_preimage d1 = share_id_preimage d2 →
  d1 = mkEtleDescriptor (d_version d2) (d_name d2) (d_share_id d1) (d_total_size d2)
         (d_chunk_size d2) (d_crypto d2) (d_files d2) (d_chunks d2).
Proof.
  destruct d1 as [v1 n1 i1 t1 c1 [] f1 k1], d2 as [v2 n2 i2 t2 c2 [] f2 k2].
  intros (?&?&?&?&?&?&?&?) (?&?&?&?&?&?&?&?). unfold share_id_preimage.
  cbn [d_version d_name d_share_id d_total_size d_chunk_size d_crypto d_files d_chunks] in *.
  intros Heq.
  apply app_inj_length in Heq as [_ Heq]; [|done].
  peel Heq decodable_u16. peel Heq decodable_string. peel Heq decodable_u64.
  peel Heq decodable_u64. apply app_inj_length in Heq as [_ Heq]; [|done].
  apply (decodable_list _ _ decodable_file_entry) in Heq as [? Heq]; [|done..].
  rewrite <- (app_nil_r (list_code _ k1)), <- (app_nil_r (list_code _ k2)) in Heq.
  apply (decodable_list _ _ decodable_chunk_meta) in Heq as [? _]; [|done..]. by subst.
Qed.

Section preimage.
Context `{Blake3Laws}.

Lemma hash_string_updates h s :
  hash_string h s = hasher_updates h [len_bytes (str_bytes s); str_bytes s].
Proof. done. Qed.

Lemma fold_updates {A} (step : hasher → A → hasher) (code : A → list bytes) h l :
  (∀ h a, step h a = hasher_updates h (code a)) →
  foldl step h l = hasher_updates h (concat (code <$> l)).
Proof.
  intros Hstep. revert h. induction l as [|a l IH]; intros h; [done|].
  rewrite fmap_cons. cbn [foldl concat]. rewrite IH, Hstep. unfold hasher_updates.
  by rewrite <- foldl_app.
Qed.

Lemma concat_concat_fmap {A} (codes : A → list bytes) (code : A → bytes) l :
  (∀ a, concat (codes a) = code a) → concat (concat (codes <$> l)) = concat (code <$> l).
Proof.
  intros Hc. induction l as [|a l IH]; [done|].
  rewrite !fmap_cons. cbn [concat]. by rewrite concat_app, Hc, IH.
Qed.

(** The digest of [compute_share_id] is the hash of the preimage. *)
Lemma recompute_share_id_hash d :
  recompute_share_id d = mkShareId (blake3_hash (share_id_preimage d)).
Proof.
  unfold recompute_share_id, compute_share_id. f_equal. cbv zeta.
  pose (file_l := λ e, [len_bytes (str_bytes (fe_path e)); str_bytes (fe_path e);
                        u64_to_le_bytes (fe_size e); u64_to_le_bytes (fe_offset e);
                        array_data (file_id_bytes (fe_blake3_hash e))]).
  pose (chunk_l := λ c, [u32_to_le_bytes (cm_index c); u64_to_le_bytes (cm_plain_size c);
                         u64_to_le_bytes (cm_encrypted_size c);
                         array_data (nonce_bytes (cm_nonce c));
                         array_data (chunk_hash_bytes (cm_blake3_hash c))]).
  rewrite (fold_updates hash_file_entry file_l) by done.
  rewrite (fold_updates hash_chunk_meta chunk_l) by done.
  trans (hasher_finalize (hasher_updates hasher_new
    ([str_bytes "etle descriptor share id v1"; u16_to_le_bytes (d_version d);
      len_bytes (str_bytes (d_name d)); str_bytes (d_name d);
      u64_to_le_bytes (d_total_size d); u64_to_le_bytes (d_chunk_size d);
      as_domain_tag (d_crypto d); len_bytes (d_files d)]
     ++ concat (file_l <$> d_files d) ++ [len_bytes (d_chunks d)]
     ++ concat (chunk_l <$> d_chunks d)))).
  { unfold hasher_updates. by rewrite !foldl_app. }
  rewrite hasher_updates_hash. f_equal. rewrite !concat_app.
  rewrite (concat_concat_fmap file_l file_entry_code).
  2: { intros e. cbn [concat file_l]. unfold file_entry_code, string_code. by rewrite app_nil_r, <- app_assoc. }
  rewrite (concat_concat_fmap chunk_l chunk_meta_code).
  2: { intros c. cbn [concat chunk_l]. unfold chunk_meta_code. by rewrite app_nil_r. }
  unfold share_id_preimage, list_code, string_code. cbn [concat].
  by rewrite !app_nil_r, <- !app_assoc.
Qed.
End preimage.

(** ** Parsing accepts exactly the texts whose lowercase form is the printed id *)
Definition ascii_lower (b : byte) : byte :=
  if decide (65 ≤ byte_val b ≤ 90) then byte_of_Z (byte_val b + 32) else b.
Definition to_ascii_lowercase (s : string) : string :=
  String.string_of_list_byte (ascii_lower <$> str_bytes s).

Lemma decode_hex_nibble_lower v : decode_hex_nibble (ascii_lower v) = decode_hex_nibble v.
Proof. destruct v; vm_compute; reflexivity. Qed.

Lemma decode_hex_nibble_Ok v n :
  decode_hex_nibble v = Ok n → ascii_lower v = hex_digit (byte_val n) ∧ byte_val n < 16.
Proof.
  unfold decode_hex_nibble, ascii_lower, hex_digit.
  pose proof (byte_val_range v). cbv zeta.
  repeat case_decide; try lia; intros [= <-]; rewrite byte_val_of_Z, Z.mod_small by lia;
    (split; [|lia]).
  - rewrite (proj2 (Z.ltb_lt _ _)) by lia. rewrite <- (byte_of_Z_val v) at 1. f_equal. lia.
  - rewrite (proj2 (Z.ltb_ge _ _)) by lia. rewrite <- (byte_of_Z_val v) at 1. f_equal. lia.
  - rewrite (proj2 (Z.ltb_ge _ _)) by lia. f_equal. lia.
Qed.

Lemma decode_hex_pair_Ok h l b :
  decode_hex_pair h l = Ok b → [ascii_lower h; ascii_lower l] = hex_byte b.
Proof.
  unfold decode_hex_pair. rewrite result_bind_Ok. setoid_rewrite result_bind_Ok.
  intros (nh & [Hh Hhb]%decode_hex_nibble_Ok & nl & [Hl Hlb]%decode_hex_nibble_Ok & [= <-]).
  unfold hex_byte, byte_or, byte_shl. rewrite !byte_val_of_Z.
  pose proof (byte_val_range nh). pose proof (byte_val_range nl).
  rewrite Z.shiftl_mul_pow2 by lia. change (2 ^ 4) with 16.
  rewrite (Z.mod_small (_ * 16)) by lia.
  assert (Z.lor (byte_val nh * 16) (byte_val nl) = byte_val nh * 16 + byte_val nl) as ->.
  { symmetry. apply Z.add_nocarry_lor. apply Z.bits_inj'. intros i Hi.
    rewrite Z.land_spec, Z.bits_0. change 16 with (2 ^ 4).
    rewrite <- Z.shiftl_mul_pow2 by lia. destruct (decide (i < 4)).
    - by rewrite Z.shiftl_spec_low by lia.
    - rewrite <- (Z.mod_small (byte_val nl) (2 ^ 4)) by (change (2 ^ 4) with 16; lia).
      rewrite (Z.mod_pow2_bits_high _ 4) by lia. apply andb_false_r. }
  rewrite (Z.mod_small (_ + _)) by lia.
  rewrite (Z.add_comm (_ * 16)), Z.div_add, Z.mod_add by lia.
  rewrite (Z.div_small (byte_val nl)), (Z.mod_small (byte_val nl)) by lia.
  by rewrite Hh, Hl.
Qed.

Lemma from_str_byte_lower v i : from_str_byte (ascii_lower <$> v) i = from_str_byte v i.
Proof.
  unfold from_str_byte. rewrite !list_lookup_fmap.
  destruct (v !! (i * 2)%nat), (v !! (i * 2 + 1)%nat); try done.
  cbn [fmap option_fmap option_map]. unfold decode_hex_pair. by rewrite !decode_hex_nibble_lower.
Qed.

Lemma from_str_bytes_Ok v l :
  length v = (2 * length l)%nat →
  (∀ i b, l !! i = Some b → from_str_byte v i = Ok b) →
  ascii_lower <$> v = write_hex l.
Proof.
  revert v. induction l as [|b l IH]; intros v Hlen Hv.
  { destruct v; [done|discriminate]. }
  destruct v as [|h [|lo v]]; [simpl in Hlen; lia..|].
  unfold write_hex. rewrite !fmap_cons. cbn [concat].
  rewrite <- (decode_hex_pair_Ok h lo b) by apply (Hv 0%nat b eq_refl).
  simpl. do 2 f_equal. apply IH; [simpl in Hlen; lia|].
  intros i c Hc. specialize (Hv (S i) c Hc). unfold from_str_byte in *.
  by replace (S i * 2)%nat with (S (S (i * 2))) in Hv by lia.
Qed.

Lemma result_mapM_length {E A B} (f : A → result E B) l bs :
  result_mapM f l = Ok bs → length l = length bs.
Proof. intros H%result_mapM_Ok. by eapply Forall2_length. Qed.

Lemma result_mapM_ext_fun {E A B} (f g : A → result E B) l :
  (∀ a, f a = g a) → result_mapM f l = result_mapM g l.
Proof. intros Hfg. induction l as [|a l IH]; [done|]. simpl. by rewrite Hfg, IH. Qed.

Lemma ShareId_from_str_lower s : ShareId_from_str (to_ascii_lowercase s) = ShareId_from_str s.
Proof.
  unfold ShareId_from_str, to_ascii_lowercase, str_len. rewrite str_bytes_of_list.
  unfold zlen. rewrite length_fmap. case_decide; [done|]. cbv zeta.
  by rewrite (result_mapM_ext_fun _ _ _ (from_str_byte_lower (str_bytes s))).
Qed.

Lemma ShareId_from_str_Ok s id :
  ShareId_from_str s = Ok id → to_ascii_lowercase s = ShareId_to_string id.
Proof.
  unfold ShareId_from_str, to_ascii_lowercase, ShareId_to_string. case_decide as Hlen; [done|].
  cbv zeta. rewrite result_bind_Ok. intros (l & Hl & Hid).
  destruct (to_array 32 l) as [a|] eqn:Ha; [|done]. injection Hid as <-.
  apply to_array_Some in Ha as ->. cbn [share_id_bytes]. f_equal.
  pose proof (result_mapM_length _ _ _ Hl) as Hll. rewrite length_seq in Hll.
  apply from_str_bytes_Ok.
  - unfold str_len, zlen in Hlen. lia.
  - intros i b Hb. apply result_mapM_Ok in Hl.
    destruct (Forall2_lookup_r _ _ _ _ _ Hl Hb) as (k & Hk & Hok).
    by apply lookup_seq in Hk as [-> _].
Qed.

Lemma decode_hex_pair_total h l : decode_hex_pair h l ≠ Panic ∧ decode_hex_pair h l ≠ Diverged.
Proof.
  unfold decode_hex_pair, decode_hex_nibble. repeat case_decide; done.
Qed.

Lemma from_str_byte_total v i :
  (i * 2 + 1 < length v)%nat → from_str_byte v i ≠ Panic ∧ from_str_byte v i ≠ Diverged.
Proof.
  intros Hi. unfold from_str_byte.
  destruct (lookup_lt_is_Some_2 v (i * 2)) as [h ->]; [lia|].
  destruct (lookup_lt_is_Some_2 v (i * 2 + 1)) as [l ->]; [lia|].
  apply decode_hex_pair_total.
Qed.

(** [ShareId::from_str] accepts a text exactly when its lowercase form is the
    printed form of the id it returns (so printing and parsing are inverse, in
    either letter case), and it never indexes outside its input. *)
Theorem ShareId_parse_print s :
  (∀ id, ShareId_from_str s = Ok id ↔ to_ascii_lowercase s = ShareId_to_string id)
  ∧ ShareId_from_str s ≠ Panic ∧ ShareId_from_str s ≠ Diverged.
Proof.
  split.
  - intros id. split; [apply ShareId_from_str_Ok|]. intros Hs.
    rewrite <- ShareId_from_str_lower, Hs. apply ShareId_from_to_string.
  - unfold ShareId_from_str. case_decide as Hlen; [done|]. cbv zeta.
    unfold str_len, zlen in Hlen.
    destruct (result_mapM_total (from_str_byte (str_bytes s)) (seq 0 32)) as [H1 H2].
    { intros i Hi%elem_of_seq. apply from_str_byte_total. lia. }
    destruct (result_mapM _ _) as [l| | |] eqn:Hl; [|done..]. simpl.
    apply result_mapM_length in Hl. rewrite length_seq in Hl.
    destruct (to_array 32 l) eqn:Ha; [done|]. by apply to_array_None in Ha.
Qed.

(** The share id identifies the share. Two well-formed descriptors that both
    pass [verify_share_id] and carry the same share id are the same descriptor,
    unless they exhibit a BLAKE3 collision. *)
Theorem share_id_identifies `{Blake3Laws} d1 d2 :
  EtleDescriptor_wf d1 → EtleDescriptor_wf d2 →
  verify_share_id d1 = true → verify_share_id d2 = true →
  d_share_id d1 = d_share_id d2 →
  d1 = d2 ∨ blake3_collision.
Proof.
  unfold verify_share_id. rewrite !bool_decide_eq_true, !recompute_share_id_hash.
  intros Hwf1 Hwf2 H1 H2 Hid.
  destruct (decide (share_id_preimage d1 = share_id_preimage d2)) as [Heq|Hne].
  - left. apply share_id_preimage_inj in Heq; [|done..]. rewrite Heq, Hid. by destruct d2.
  - right. exists (share_id_preimage d1), (share_id_preimage d2). split; [done|].
    rewrite H1, H2 in Hid. by injection Hid.
Qed.

(** A descriptor built by [EtleDescriptor::new] verifies, survives
    [to_bytes]/[from_bytes] unchanged, and [from_bytes] refuses its encoding
    followed by any further byte. *)
Theorem descriptor_new_roundtrip `{Blake3} `{BincodeLaws EtleDescriptor}
    name total_size chunk_size files chunks e extra :
  let d := EtleDescriptor_new name total_size chunk_size files chunks in
  EtleDescriptor_to_bytes d = Some e → extra ≠ [] →
  verify_share_id d = true ∧ EtleDescriptor_from_bytes e = Ok d
  ∧ ∃ msg, EtleDescriptor_from_bytes (e ++ extra) = Err (OtherString msg).
Proof.
  intros d He Hex. split_and!.
  - by apply bool_decide_eq_true.
  - by apply decode_exact_encode.
  - by eapply decode_exact_trailing.
Qed.

(** A sample share, used by the witnesses of this and later files. *)
Import Toy.
Module Sample.
Definition file_id : FileId := mkFileId (array_repeat 32 Byte.x01).
Definition chunk (i : Z) : ChunkMeta :=
  mkChunkMeta i 4 20 (mkNonce (array_repeat 24 Byte.x02)) (mkChunkHash (array_repeat 32 Byte.x03)).
Definition file : FileEntry := mkFileEntry "sample.txt" 4 0 file_id.
Definition descriptor `{Blake3} : EtleDescriptor :=
  EtleDescriptor_new "sample-package" 4 4 [file] [chunk 0].
#[export] Instance descriptor_bincode : Bincode EtleDescriptor :=
  Toy.countable_bincode EtleDescriptor.
#[export] Instance descriptor_bincode_laws : BincodeLaws EtleDescriptor :=
  Toy.countable_bincode_laws EtleDescriptor.
#[export] Instance manifest_bincode : Bincode Manifest := Toy.countable_bincode Manifest.
#[export] Instance manifest_bincode_laws : BincodeLaws Manifest :=
  Toy.countable_bincode_laws Manifest.
End Sample.
Import Sample.

Lemma share_id_identifies_witness :
  Sample.descriptor = Sample.descriptor ∨ blake3_collision.
Proof.
  apply (share_id_identifies Sample.descriptor Sample.descriptor).
  1-2: by_decide.
  1-2: by vm_compute.
  reflexivity.
Defined.

Lemma descriptor_new_roundtrip_witness :
  let d := EtleDescriptor_new "sample-package" 4 4 [Sample.file] [Sample.chunk 0] in
  ∃ e, EtleDescriptor_to_bytes d = Some e ∧
  verify_share_id d = true ∧ EtleDescriptor_from_bytes e = Ok d
  ∧ ∃ msg, EtleDescriptor_from_bytes (e ++ [Byte.x00]) = Err (OtherString msg).
Proof.
  exists (Toy.pos_code (encode Sample.descriptor)). split; [reflexivity|].
  apply (descriptor_new_roundtrip "sample-package" 4 4 [Sample.file] [Sample.chunk 0] _ [Byte.x00]);
    [reflexivity|discriminate].
Defined.
