(* ===== verification/Chunker.v ===== *)
(** [file/chunker.rs]: cutting a file into numbered chunks and joining them.

    The read loop turns every non-empty [read] into one chunk. Whatever the
    reads return, the chunks are numbered from zero and concatenate to the
    file; when every read is full they are the fixed-size pieces
    [split_every]. *)
From stdpp Require Import base tactics list countable strings gmap sorting.
From Stdlib Require Import ZArith Lia.
From S2P Require Import Prelude Bytes World Extern Crypto Descriptor.
Local Open Scope Z_scope.
Local Open Scope etle_scope.

Definition DEFAULT_CHUNK_SIZE : Z := 1024 * 1024.

Record PlainChunk := mkPlainChunk { plain_index : Z; plain_data : bytes }.
Global Instance PlainChunk_eq_dec : EqDecision PlainChunk.
Proof. solve_decision. Defined.

Record chunk_loop := mkChunkLoop { cl_rest : bytes; cl_chunks : list PlainChunk; cl_index : Z }.

(** The body of the loop: the chunk is pushed before its successor's index is
    computed. *)
Definition read_file_chunks_round (chunk_size : Z) (st : chunk_loop)
    : M World FileError (chunk_loop + list PlainChunk) :=
  let! read := map_err FE_Io (file_read (Z.to_nat chunk_size) (cl_rest st)) in
  if decide (read.1 = []) then ret (inr (cl_chunks st))
  else
    let chunks := cl_chunks st ++ [mkPlainChunk (cl_index st) read.1] in
    let! index := lift_result (ok_or (checked_add u32_max (cl_index st) 1) TooManyChunks) in
    ret (inl (mkChunkLoop read.2 chunks index)).

Definition read_file_chunks (p : path) (chunk_size : Z) : M World FileError (list PlainChunk) :=
  if decide (chunk_size = 0) then throw (InvalidChunkSize chunk_size)
  else
    let! content := map_err FE_Io (read_file p) in
    mloop (S (length content)) (read_file_chunks_round chunk_size) (mkChunkLoop content [] 0).

Definition join_chunks (chunks : list PlainChunk) : bytes :=
  let sorted := sort_by_key plain_index chunks in
  foldl (λ output chunk, output ++ plain_data chunk) [] sorted.

(** * Numbered chunks *)
Definition number (ds : list bytes) : list PlainChunk := imap (λ i d, mkPlainChunk (Z.of_nat i) d) ds.

Lemma number_app ds d : number (ds ++ [d]) = number ds ++ [mkPlainChunk (zlen ds) d].
Proof. unfold number. rewrite imap_app. simpl. by rewrite Nat.add_0_r. Qed.

Lemma number_data ds : plain_data <$> number ds = ds.
Proof.
  unfold number. rewrite fmap_imap. apply list_eq. intros i.
  rewrite list_lookup_imap. by destruct (ds !! i).
Qed.

Lemma foldl_append (chunks : list PlainChunk) acc :
  foldl (λ output chunk, output ++ plain_data chunk) acc chunks
  = acc ++ concat (plain_data <$> chunks).
Proof.
  revert acc. induction chunks as [|c cs IH]; intros acc; simpl; [by rewrite app_nil_r|].
  by rewrite IH, <- app_assoc.
Qed.

Lemma number_sorted ds : StronglySorted (λ a b, plain_index a < plain_index b) (number ds).
Proof.
  unfold number.
  cut (∀ k, StronglySorted (λ a b, plain_index a < plain_index b)
              (imap (λ i d, mkPlainChunk (Z.of_nat (k + i)) d) ds)); [intros H; apply (H 0%nat)|].
  induction ds as [|d ds IH]; intros k; simpl; [constructor|]. constructor.
  - rewrite (imap_ext _ (λ i d, mkPlainChunk (Z.of_nat (S k + i)) d)); [apply IH|].
    intros i x _. simpl. do 2 f_equal. lia.
  - apply Forall_forall. intros c Hc. apply elem_of_lookup_imap in Hc as (i & x & -> & Hx).
    simpl. lia.
Qed.

Lemma join_chunks_concat chunks : join_chunks chunks = concat (plain_data <$> sort_by_key plain_index chunks).
Proof. unfold join_chunks. by rewrite foldl_append. Qed.

Lemma join_chunks_number ds chunks : chunks ≡ₚ number ds → join_chunks chunks = concat ds.
Proof.
  intros Hp. rewrite join_chunks_concat, (sort_by_key_unique _ (number ds)), number_data;
    [done|done|apply number_sorted].
Qed.

(** * The specification of the read loop *)
Section spec.
Context (p : path) (chunk_size : Z) (w : World) (content : bytes).
Hypothesis Hsize : 0 < chunk_size.
Let n := Z.to_nat chunk_size.

Definition pieces_ok (ds : list bytes) : Prop :=
  Forall (λ d, 0 < zlen d ≤ chunk_size) ds.

Definition chunk_loop_inv (st : chunk_loop) (w' : World) : Prop :=
  ∃ ds, cl_chunks st = number ds ∧ cl_index st = zlen ds ∧ cl_index st ≤ u32_max
    ∧ content = concat ds ++ cl_rest st ∧ pieces_ok ds ∧ stepped w w'
    ∧ (full_reads n w → split_every n content = ds ++ split_every n (cl_rest st)).

Definition chunks_ok (chunks : list PlainChunk) : Prop :=
  ∃ ds, chunks = number ds ∧ concat ds = content ∧ pieces_ok ds
    ∧ (full_reads n w → ds = split_every n content).

Lemma pieces_ok_length ds : pieces_ok ds → zlen ds ≤ zlen (concat ds).
Proof.
  induction 1 as [|d ds Hd Hds IH]; [done|]. cbn [concat]. rewrite zlen_app, zlen_cons. lia.
Qed.

Lemma wp_round st w0 :
  chunk_loop_inv st w0 →
  wp (read_file_chunks_round chunk_size st)
    (λ r w', match r with
             | inl st' => chunk_loop_inv st' w' ∧ (length (cl_rest st') < length (cl_rest st))%nat
             | inr chunks => chunks_ok chunks ∧ stepped w w'
             end)
    (λ e w', stepped w w' ∧ ((∃ k, e = FE_Io k ∧ ¬ no_faults w) ∨ (e = TooManyChunks ∧ u32_max < zlen content))) w0.
Proof using Hsize.
  intros (ds & Hc & Hi & Hmax & Hcont & Hds & Hst & Hfull). unfold read_file_chunks_round. wp_simpl.
  apply wp_file_read; [intros k w' ? Hnf; rewrite <- (stepped_no_faults w) in Hnf by done; split; [by etrans | eauto]|].
  intros pre post w' Hrest Hpre Hlen Hread Hst'. cbn [fst snd].
  assert (full_reads n w → full_reads n w0) as Hfr.
  { destruct Hst as [He _]. unfold full_reads. by rewrite He. }
  case_decide as Hemp.
  - wp_simpl. assert (cl_rest st = []) as Hnil by (destruct (Hpre Hemp); [lia|done]).
    split; [|by etrans]. exists ds.
    split_and!; [done|by rewrite Hcont, Hnil, app_nil_r|done|]. intros Hf. by rewrite Hfull, Hnil, app_nil_r by done.
  - assert (0 < zlen pre ≤ chunk_size) as Hpz.
    { unfold zlen. destruct pre; [done|]. cbn [length] in *. lia. }
    assert (pieces_ok (ds ++ [pre])) as Hds'.
    { apply Forall_app. split; [done|]. by constructor. }
    assert (content = concat (ds ++ [pre]) ++ post) as Hcont'.
    { rewrite concat_app. simpl. by rewrite app_nil_r, <- app_assoc, <- Hrest. }
    unfold lift_result. unfold checked_add. case_decide as Hov; cbn [ok_or].
    + unfold wp. simpl. split; [|rewrite Hrest, length_app; unfold zlen in Hpz; lia].
      exists (ds ++ [pre]). cbn [cl_chunks cl_index cl_rest].
      rewrite number_app, Hc, Hi, zlen_app, zlen_cons, zlen_nil.
      split_and!; [done|lia|lia|done|done|by etrans|].
      assert (cl_rest st ≠ []) as Hne by (rewrite Hrest; by destruct pre).
      intros Hf. rewrite Hfull by done. destruct Hread as [-> ->]; [auto|].
      rewrite (split_every_cons n (cl_rest st)) by (unfold n; done || lia).
      by rewrite <- app_assoc.
    + unfold wp. simpl. split; [by etrans|]. right. split; [done|].
      apply pieces_ok_length in Hds'. rewrite Hcont', zlen_app. rewrite zlen_app in Hds'.
      rewrite zlen_cons, zlen_nil in Hds'. pose proof (zlen_nonneg post). lia.
Qed.
End spec.

Lemma wp_read_file_chunks p chunk_size w :
  0 < chunk_size →
  wp (read_file_chunks p chunk_size)
    (λ chunks w', ∃ content, file_at (w_fs w) p = Some content
                   ∧ chunks_ok chunk_size w content chunks ∧ stepped w w')
    (λ e w', stepped w w' ∧ ((∃ k, e = FE_Io k ∧ (¬ no_faults w ∨ file_at (w_fs w) p = None))
       ∨ (e = TooManyChunks ∧ ∃ content, file_at (w_fs w) p = Some content ∧ u32_max < zlen content))) w.
Proof.
  intros Hsize. unfold read_file_chunks. rewrite decide_False by lia. wp_simpl.
  apply wp_read_file; [eauto|]. intros content w0 Hc Hst.
  eapply wp_mono.
  - apply (wp_mloop _ (chunk_loop_inv chunk_size w content) (λ st _, length (cl_rest st))).
    + exists []. simpl. split_and!; try done. constructor.
    + simpl. lia.
    + intros st w1 Hinv. by apply wp_round.
  - simpl. intros chunks w' [Hok Hst']. eauto.
  - simpl. intros e w' [? [(?&?&?)|[??]]]; eauto 10.
Qed.

(** * Claims *)

(** [read_file_chunks] with a positive chunk size returns chunks numbered
    from zero, none empty and none larger than the chunk size, whose
    concatenation is the content of the file, and exactly the fixed-size pieces
    of it when every read is full. It changes nothing and fails only with an
    I/O error or, for a file of more than [u32::MAX] bytes, with
    [TooManyChunks]. *)
Theorem read_file_chunks_correct p chunk_size w :
  0 < chunk_size →
  (∃ ds content w', read_file_chunks p chunk_size w = (Ok (number ds), w')
     ∧ stepped w w' ∧ file_at (w_fs w) p = Some content ∧ concat ds = content
     ∧ Forall (λ d, 0 < zlen d ≤ chunk_size) ds
     ∧ (full_reads (Z.to_nat chunk_size) w → ds = split_every (Z.to_nat chunk_size) content))
  ∨ (∃ e w', read_file_chunks p chunk_size w = (Err e, w') ∧ stepped w w'
     ∧ ((∃ k, e = FE_Io k)
        ∨ (e = TooManyChunks ∧ ∃ content, file_at (w_fs w) p = Some content ∧ u32_max < zlen content))).
Proof.
  intros Hsize.
  destruct (wp_run _ _ _ _ (wp_read_file_chunks p chunk_size w Hsize))
    as [(c & w' & Hrun & content & Hf & (ds & -> & Hok) & Hst)|(e & w' & Hrun & Hst & He)].
  - left. exists ds, content, w'. naive_solver.
  - right. exists e, w'. naive_solver.
Qed.

(** Without system faults, chunking a file of at most [u32::MAX] bytes
    succeeds, and joining the chunks in any order of arrival gives the content of
    the file back. *)
Theorem chunk_join_roundtrip p chunk_size w content :
  0 < chunk_size → no_faults w → file_at (w_fs w) p = Some content → zlen content ≤ u32_max →
  ∃ chunks w', read_file_chunks p chunk_size w = (Ok chunks, w') ∧ stepped w w'
    ∧ ∀ arrived, arrived ≡ₚ chunks → join_chunks arrived = content.
Proof.
  intros Hsize Hnf Hf Hmax.
  destruct (wp_run _ _ _ _ (wp_read_file_chunks p chunk_size w Hsize))
    as [(c & w' & Hrun & content' & Hf' & (ds & -> & <- & _) & Hst)|(e & w' & Hrun & Hst & He)].
  - exists (number ds), w'. split_and!; [done..|]. intros arrived Hp.
    rewrite (join_chunks_number ds) by done. congruence.
  - exfalso. destruct He as [(k & _ & [?|?])|(_ & content' & Hf' & ?)]; [done|congruence|].
    simplify_eq. lia.
Qed.

Import Toy.
Module ChunkerSample.
Definition content : bytes := str_bytes "abcdefghi".
Definition world : World := CryptoSample.world {[ ["f"%string] := File content ]} [].
End ChunkerSample.

Lemma read_file_chunks_correct_witness :
  let p := ["f"%string] in let w := ChunkerSample.world in
  (∃ ds content w', read_file_chunks p 4 w = (Ok (number ds), w')
     ∧ stepped w w' ∧ file_at (w_fs w) p = Some content ∧ concat ds = content
     ∧ Forall (λ d, 0 < zlen d ≤ 4) ds
     ∧ (full_reads (Z.to_nat 4) w → ds = split_every (Z.to_nat 4) content))
  ∨ (∃ e w', read_file_chunks p 4 w = (Err e, w') ∧ stepped w w'
     ∧ ((∃ k, e = FE_Io k)
        ∨ (e = TooManyChunks ∧ ∃ content, file_at (w_fs w) p = Some content ∧ u32_max < zlen content))).
Proof. apply read_file_chunks_correct. lia. Defined.

Lemma chunk_join_roundtrip_witness :
  let p := ["f"%string] in let w := ChunkerSample.world in
  ∃ chunks w', read_file_chunks p 4 w = (Ok chunks, w') ∧ stepped w w'
    ∧ ∀ arrived, arrived ≡ₚ chunks → join_chunks arrived = ChunkerSample.content.
Proof. apply chunk_join_roundtrip; [lia | by intros ? | reflexivity | by_decide]. Defined.

(** The reads of the sample environment return three bytes each: the chunks are
    then smaller than the chunk size. *)
Example short_reads_give_short_chunks :
  (read_file_chunks ["f"%string] 4 ChunkerSample.world).1
  = Ok [mkPlainChunk 0 (str_bytes "abc"); mkPlainChunk 1 (str_bytes "def");
        mkPlainChunk 2 (str_bytes "ghi")].
Proof. vm_compute. reflexivity. Qed.
