(* ===== verification/Package.v ===== *)
(** [file/package.rs]: laying out a file or a directory tree as one byte stream
    and cutting that stream into fixed-size chunks.

    Directories are walked recursively with the fuel of the longest path of the
    file system, which bounds the depth. Entries that are neither regular files
    nor directories do not exist in the model of the file system. *)
From stdpp Require Import base tactics list countable strings gmap sorting.
From Stdlib Require Import ZArith Lia.
From S2P Require Import Prelude Bytes World Extern Crypto Descriptor Chunker.
Local Open Scope Z_scope.
Local Open Scope etle_scope.

(** * The order of paths: component by component, components byte by byte *)
Section lex.
Context {A : Type} (cmp : A → A → comparison).

Fixpoint lex_compare (l1 l2 : list A) : comparison :=
  match l1, l2 with
  | [], [] => Eq
  | [], _ => Lt
  | _, [] => Gt
  | x :: l1, y :: l2 => match cmp x y with Eq => lex_compare l1 l2 | c => c end
  end.

Class Comparison_ok : Prop := {
  cmp_eq x y : cmp x y = Eq ↔ x = y;
  cmp_opp x y : cmp y x = CompOpp (cmp x y);
  cmp_trans x y z : cmp x y = Lt → cmp y z = Lt → cmp x z = Lt;
}.
End lex.

Lemma cmp_refl {A} (cmp : A → A → comparison) `{!Comparison_ok cmp} x : cmp x x = Eq.
Proof. by apply cmp_eq. Qed.

Global Instance lex_compare_ok {A} (cmp : A → A → comparison) `{!Comparison_ok cmp} :
  Comparison_ok (lex_compare cmp).
Proof.
  split.
  - induction x as [|a x IH]; intros [|b y]; simpl; try done.
    destruct (cmp a b) eqn:Hab.
    + apply cmp_eq in Hab as ->; [|done]. rewrite IH. split; [by intros -> | by intros [=]].
    + split; [done|]. intros [= -> ->]. by rewrite cmp_refl in Hab.
    + split; [done|]. intros [= -> ->]. by rewrite cmp_refl in Hab.
  - induction x as [|a x IH]; intros [|b y]; simpl; try done.
    rewrite (cmp_opp cmp a b). destruct (cmp a b); simpl; auto.
  - induction x as [|a x IH]; intros [|b y] [|c z]; simpl; try done.
    destruct (cmp a b) eqn:Hab; try done; destruct (cmp b c) eqn:Hbc; try done.
    + apply cmp_eq in Hab as ->; [|done]. rewrite Hbc. apply IH.
    + apply cmp_eq in Hab as ->; [|done]. by rewrite Hbc.
    + apply cmp_eq in Hbc as ->; [|done]. by rewrite Hab.
    + by rewrite (cmp_trans cmp a b c).
Qed.

Definition byte_compare (a b : byte) : comparison := Z.compare (byte_val a) (byte_val b).
Global Instance byte_compare_ok : Comparison_ok byte_compare.
Proof.
  unfold byte_compare. split.
  - intros a b. rewrite Z.compare_eq_iff. split; [apply byte_val_inj | by intros ->].
  - intros a b. apply Z.compare_antisym.
  - intros a b c. rewrite !Z.compare_lt_iff. lia.
Qed.

Definition str_compare (s1 s2 : string) : comparison :=
  lex_compare byte_compare (str_bytes s1) (str_bytes s2).
Global Instance str_compare_ok : Comparison_ok str_compare.
Proof.
  unfold str_compare. split.
  - intros a b. rewrite cmp_eq by apply _. split; [apply str_bytes_inj | by intros ->].
  - intros a b. apply (cmp_opp _).
  - intros a b c. apply (cmp_trans _).
Qed.

Definition path_compare : path → path → comparison := lex_compare str_compare.
Definition path_leb (p q : path) : bool := match path_compare p q with Gt => false | _ => true end.

Lemma path_leb_total p q : path_leb p q = false → path_leb q p = true.
Proof.
  unfold path_leb, path_compare. rewrite (cmp_opp _ p q). by destruct (lex_compare str_compare p q).
Qed.

Lemma path_leb_trans p q r : path_leb p q = true → path_leb q r = true → path_leb p r = true.
Proof.
  unfold path_leb, path_compare.
  destruct (lex_compare str_compare p q) eqn:H1; try done;
    destruct (lex_compare str_compare q r) eqn:H2; try done; intros _ _.
  - apply cmp_eq in H1 as ->; [|apply _]. by rewrite H2.
  - apply cmp_eq in H1 as ->; [|apply _]. by rewrite H2.
  - apply cmp_eq in H2 as ->; [|apply _]. by rewrite H1.
  - by rewrite (cmp_trans _ p q r).
Qed.

(** * Layouts *)
Record PackageSourceFile := mkPackageSourceFile { psf_entry : FileEntry; psf_source_path : path }.
Record PackageLayout := mkPackageLayout {
  pl_name : string;
  pl_root_path : path;
  pl_total_size : Z;
  pl_files : list PackageSourceFile;
}.
Definition descriptor_files (layout : PackageLayout) : list FileEntry := psf_entry <$> pl_files layout.

Definition file_name (p : path) : string := default "unnamed"%string (path_file_name p).

(** [Path::strip_prefix] *)
Fixpoint strip_prefix (root p : path) : option path :=
  match root, p with
  | [], _ => Some p
  | r :: root, c :: p => if decide (r = c) then strip_prefix root p else None
  | _, [] => None
  end.

Definition relative_package_path (root p : path) : result FileError string :=
  let? relative := ok_or (strip_prefix root p) (PathOutsideRoot p root) in
  Ok (String.concat "/" relative).

(** [entry.file_type()?]: it can fail, and it asks the entry, not the path. *)
Definition file_type (n : node) : io node := faulty no_effect (λ w, (Ok n, w)).

Fixpoint collect_regular_files (fuel : nat) (dir : path) (output : list path)
    : M World FileError (list path) :=
  match fuel with
  | O => diverge
  | S fuel =>
      let! entries := map_err FE_Io (read_dir dir) in
      let sorted := sort_by (λ a b, path_leb (dir ++ [a.1]) (dir ++ [b.1])) entries in
      mfold (λ output entry,
        let! ty := map_err FE_Io (file_type entry.2) in
        let p := dir ++ [entry.1] in
        match ty with
        | Dir => collect_regular_files fuel p output
        | File _ => ret (output ++ [p])
        end) output sorted
  end.

(** Paths are no longer than the longest key: the fuel of the walk. *)
Definition max_depth (m : fs) : nat := foldr (λ e n, Nat.max (length e.1) n) O (map_to_list m).

Section layout.
Context `{Blake3}.

Definition collect_single_file_layout (p : path) (size : Z) : M World FileError PackageLayout :=
  let name := file_name p in
  let! h := map_err FE_Io (hash_file p) in
  let entry := mkFileEntry name size 0 h in
  ret (mkPackageLayout name p size [mkPackageSourceFile entry p]).

(** [metadata.len()] as a [u64]; the length of a directory is system-defined
    and not asked for here. *)
Definition node_len (n : node) : Z := match n with File d => zlen d | Dir => 0 end.

Definition layout_round (root : path) (st : list PackageSourceFile * Z) (p : path)
    : M World FileError (list PackageSourceFile * Z) :=
  let! meta := map_err FE_Io (metadata p) in
  let size := node_len meta in
  let! package_path := lift_result (relative_package_path root p) in
  let! h := map_err FE_Io (hash_file p) in
  let entry := mkFileEntry package_path size st.2 h in
  let files := st.1 ++ [mkPackageSourceFile entry p] in
  let! offset := lift_result (ok_or (checked_add u64_max st.2 size) PackageTooLarge) in
  ret (files, offset).

Definition collect_directory_layout (root : path) : M World FileError PackageLayout :=
  let! m := gets w_fs in
  let! paths := collect_regular_files (S (max_depth m)) root [] in
  let paths := sort_by path_leb paths in
  if decide (paths = []) then throw EmptyPackage
  else
    let! st := mfold (layout_round root) ([], 0) paths in
    ret (mkPackageLayout (file_name root) root st.2 st.1).

Definition collect_package_layout (input : path) : M World FileError PackageLayout :=
  let! meta := map_err FE_Io (metadata input) in
  match meta with
  | File d => collect_single_file_layout input (zlen d)
  | Dir => collect_directory_layout input
  end.
End layout.

(** * Cutting the package into chunks *)
Record pack_state := mkPackState {
  ps_buffer : bytes; ps_chunks : list PlainChunk; ps_index : Z;
}.

(** [while !remaining.is_empty()]; the subtraction would panic if the buffer
    ever outgrew the chunk size. *)
Definition pack_slice_round (chunk_size : Z) (st : bytes * pack_state)
    : M World FileError ((bytes * pack_state) + pack_state) :=
  let '(remaining, s) := st in
  if decide (remaining = []) then ret (inr s)
  else if decide (chunk_size < zlen (ps_buffer s)) then panic
  else
    let free := chunk_size - zlen (ps_buffer s) in
    let n := Z.min free (zlen remaining) in
    let buffer := ps_buffer s ++ take (Z.to_nat n) remaining in
    let remaining := drop (Z.to_nat n) remaining in
    if decide (zlen buffer = chunk_size) then
      let chunks := ps_chunks s ++ [mkPlainChunk (ps_index s) buffer] in
      let! index := lift_result (ok_or (checked_add u32_max (ps_index s) 1) TooManyChunks) in
      ret (inl (remaining, mkPackState [] chunks index))
    else ret (inl (remaining, mkPackState buffer (ps_chunks s) (ps_index s))).

Definition pack_slice (chunk_size : Z) (s : pack_state) (read : bytes)
    : M World FileError pack_state :=
  mloop (S (length read)) (pack_slice_round chunk_size) (read, s).

Definition pack_file_round (chunk_size : Z) (st : bytes * pack_state)
    : M World FileError ((bytes * pack_state) + pack_state) :=
  let! read := map_err FE_Io (file_read (64 * 1024) st.1) in
  if decide (read.1 = []) then ret (inr st.2)
  else
    let! s := pack_slice chunk_size st.2 read.1 in
    ret (inl (read.2, s)).

Definition pack_file (chunk_size : Z) (s : pack_state) (source_file : PackageSourceFile)
    : M World FileError pack_state :=
  let! content := map_err FE_Io (read_file (psf_source_path source_file)) in
  mloop (S (length content)) (pack_file_round chunk_size) (content, s).

Definition read_package_chunks (layout : PackageLayout) (chunk_size : Z)
    : M World FileError (list PlainChunk) :=
  if decide (chunk_size = 0) then throw (InvalidChunkSize chunk_size)
  else
    let! s := mfold (pack_file chunk_size) (mkPackState [] [] 0) (pl_files layout) in
    if decide (ps_buffer s = []) then ret (ps_chunks s)
    else ret (ps_chunks s ++ [mkPlainChunk (ps_index s) (ps_buffer s)]).

(** * Chunking: the specification of the nested loops *)
Section pack_spec.
Context (chunk_size : Z) (Hsize : 0 < chunk_size).
Let n := Z.to_nat chunk_size.

(** [s] is the state after [consumed]: full chunks, and a buffer not yet full. *)
Definition pack_inv (consumed : bytes) (s : pack_state) : Prop :=
  ∃ cs, consumed = concat cs ++ ps_buffer s ∧ Forall (λ c, length c = n) cs
    ∧ (length (ps_buffer s) < n)%nat ∧ ps_chunks s = number cs
    ∧ ps_index s = zlen cs ∧ zlen cs ≤ u32_max.

(** The only failure of the pure part: more than [u32::MAX] full chunks. *)
Definition too_many (e : FileError) (len : Z) : Prop :=
  e = TooManyChunks ∧ (u32_max + 1) * chunk_size ≤ len.

Lemma full_pieces_length (cs : list bytes) :
  Forall (λ c, length c = n) cs → zlen (concat cs) = zlen cs * chunk_size.
Proof using Hsize.
  induction 1 as [|c cs Hc Hcs IH]; [done|]. cbn [concat]. rewrite zlen_app, zlen_cons, IH.
  unfold zlen at 1. rewrite Hc. unfold n. lia.
Qed.

Lemma wp_pack_slice consumed s read w :
  pack_inv consumed s →
  wp (pack_slice chunk_size s read) (λ s' w', w' = w ∧ pack_inv (consumed ++ read) s')
    (λ e w', w' = w ∧ too_many e (zlen (consumed ++ read))) w.
Proof using Hsize.
  intros Hinv. unfold pack_slice.
  apply (wp_mloop _ (λ st w', w' = w ∧ ∃ done, read = done ++ st.1 ∧ pack_inv (consumed ++ done) st.2)
           (λ st _, length st.1)).
  - split; [done|]. exists []. by rewrite app_nil_r.
  - simpl. lia.
  - intros [remaining s0] w0 (-> & done_ & Hread & cs & Hcons & Hcs & Hbuf & Hch & Hi & Hmax).
    cbn [fst snd] in *. unfold pack_slice_round. case_decide as Hrem.
    { wp_simpl. split; [done|]. subst remaining. rewrite app_nil_r in Hread. subst read. by exists cs. }
    rewrite decide_False by (unfold zlen; lia).
    set (k := Z.to_nat (Z.min (chunk_size - zlen (ps_buffer s0)) (zlen remaining))).
    assert (0 < k)%nat as Hk by (unfold k, zlen; destruct remaining; [done|]; cbn [length]; lia).
    assert (k ≤ length remaining)%nat as Hkr by (unfold k, zlen; lia).
    assert (read = (done_ ++ take k remaining) ++ drop k remaining) as Hread'
      by (by rewrite <- app_assoc, take_drop).
    assert (consumed ++ done_ ++ take k remaining = concat cs ++ ps_buffer s0 ++ take k remaining)
      as Hcons' by (by rewrite app_assoc, Hcons, <- app_assoc).
    assert (length (take k remaining) = k) as Hlk by (rewrite length_take; lia).
    case_decide as Hfull.
    + assert (Forall (λ c, length c = n) (cs ++ [ps_buffer s0 ++ take k remaining])) as Hcs'.
      { apply Forall_app. split; [done|]. constructor; [|done].
        unfold zlen in Hfull. unfold n. lia. }
      unfold lift_result, checked_add. case_decide as Hov; cbn [ok_or]; unfold wp; simpl.
      * split; [|rewrite length_drop; lia]. split; [done|].
        exists (done_ ++ take k remaining). split; [done|].
        exists (cs ++ [ps_buffer s0 ++ take k remaining]). simpl.
        rewrite concat_app, number_app, zlen_app, zlen_cons, zlen_nil. cbn [concat].
        rewrite !app_nil_r. split_and!; [done|done|lia|by rewrite Hch, Hi|lia|lia].
      * split; [done|]. split; [done|]. rewrite Hread', app_assoc, Hcons', zlen_app.
        pose proof (full_pieces_length _ Hcs') as Hlen. rewrite concat_app in Hlen. simpl in Hlen.
        rewrite app_nil_r in Hlen. rewrite Hlen, zlen_app, zlen_cons, zlen_nil.
        pose proof (zlen_nonneg (drop k remaining)). nia.
    + unfold wp. simpl. split; [|rewrite length_drop; lia]. split; [done|].
      exists (done_ ++ take k remaining). split; [done|]. exists cs. simpl.
      split_and!; try done. rewrite length_app, Hlk. unfold zlen in Hfull.
      rewrite length_app, Hlk in Hfull. unfold k, n, zlen in *. lia.
Qed.

(** What is left of one file is read and packed to its end. *)
Lemma wp_pack_file consumed s source w :
  pack_inv consumed s →
  wp (pack_file chunk_size s source)
    (λ s' w', stepped w w' ∧ ∃ d, file_at (w_fs w) (psf_source_path source) = Some d
                                 ∧ pack_inv (consumed ++ d) s')
    (λ e w', stepped w w' ∧
       ((∃ k, e = FE_Io k ∧ (¬ no_faults w ∨ file_at (w_fs w) (psf_source_path source) = None))
        ∨ (∃ d, file_at (w_fs w) (psf_source_path source) = Some d
                ∧ too_many e (zlen (consumed ++ d))))) w.
Proof using Hsize.
  intros Hinv. unfold pack_file. wp_simpl.
  apply wp_read_file; [eauto 10|]. intros d w0 Hd Hst.
  apply (wp_mloop _ (λ st w', stepped w w' ∧ ∃ done, d = done ++ st.1 ∧ pack_inv (consumed ++ done) st.2)
           (λ st _, length st.1)).
  - split; [done|]. exists []. by rewrite app_nil_r.
  - simpl. lia.
  - intros [rest s0] w1 (Hst1 & done_ & Hdone & Hinv1). cbn [fst snd] in *.
    unfold pack_file_round. wp_simpl. apply wp_file_read.
    { intros k w2 Hst2 Hnf. split; [by etrans|]. left.
      rewrite <- (stepped_no_faults w) in Hnf by done. eauto. }
    intros pre post w2 Hrest Hpre _ _ Hst2. cbn [fst snd] in *. case_decide as Hemp; wp_simpl.
    + assert (rest = []) as -> by (destruct (Hpre Hemp); [lia|done]).
      rewrite app_nil_r in Hdone. subst d. split; [by etrans|]. eauto.
    + eapply wp_mono; [by apply wp_pack_slice| |].
      * intros s' w' [-> Hinv']. wp_simpl. split; [split; [by etrans|]|].
        -- exists (done_ ++ pre). cbn [fst snd]. split; [by rewrite <- app_assoc, <- Hrest|].
           by rewrite app_assoc.
        -- cbn [fst]. rewrite Hrest, length_app. destruct pre; [done|]. simpl. lia.
      * intros e w' [-> [-> Htm]]. split; [by etrans|]. right. exists d. split; [done|]. split; [done|].
        rewrite Hdone, Hrest, !zlen_app in *. pose proof (zlen_nonneg post). lia.
Qed.
End pack_spec.

(** The content of a package: its files, one after the other. *)
Definition package_stream (m : fs) (files : list PackageSourceFile) : option (list bytes) :=
  mapM (λ f, file_at m (psf_source_path f)) files.

Lemma wp_read_package_chunks layout chunk_size w :
  0 < chunk_size →
  wp (read_package_chunks layout chunk_size)
    (λ chunks w', stepped w w' ∧ ∃ contents, package_stream (w_fs w) (pl_files layout) = Some contents
       ∧ chunks = number (split_every (Z.to_nat chunk_size) (concat contents)))
    (λ e w', stepped w w' ∧
       ((∃ k, e = FE_Io k ∧ (¬ no_faults w ∨ package_stream (w_fs w) (pl_files layout) = None))
        ∨ e = TooManyChunks)) w.
Proof.
  intros Hsize. unfold read_package_chunks. rewrite decide_False by lia. apply wp_bind.
  eapply wp_mono.
  - apply (wp_mfold _ (λ done s w', stepped w w' ∧ ∃ contents,
      package_stream (w_fs w) done = Some contents ∧ pack_inv chunk_size (concat contents) s)
      (pl_files layout) _
      (λ e w', stepped w w' ∧
       ((∃ k, e = FE_Io k ∧ (¬ no_faults w ∨ package_stream (w_fs w) (pl_files layout) = None))
        ∨ e = TooManyChunks))).
    + split; [done|]. exists []. split; [done|]. exists []. simpl.
      split_and!; try done. lia.
    + intros done_ x rest s w1 Hl (Hst & contents & Hcont & Hinv).
      eapply wp_mono; [by apply wp_pack_file|..].
      * simpl. intros s' w' (Hst' & d & Hd & Hinv'). split; [by etrans|].
        exists (contents ++ [d]). rewrite concat_app. simpl. rewrite app_nil_r. split; [|done].
        unfold package_stream in *. rewrite mapM_app, Hcont. simpl.
        rewrite <- (stepped_fs _ _ Hst), Hd. done.
      * simpl. intros e w' [Hst' Herr]. split; [by etrans|].
        destruct Herr as [(k & -> & [Hnf|Hnone])|(? & _ & -> & _)]; [| |by right].
        { rewrite <- (stepped_no_faults _ _ Hst) in Hnf. eauto 10. }
        left. exists k. split; [done|]. right. unfold package_stream in *.
        rewrite Hl, mapM_app, Hcont. simpl. by rewrite <- (stepped_fs _ _ Hst), Hnone.
  - simpl. intros s w' (Hst & contents & Hcont & cs & Hcons & Hcs & Hbuf & Hch & Hi & _).
    assert (split_every (Z.to_nat chunk_size) (concat contents)
            = cs ++ (if decide (ps_buffer s = []) then [] else [ps_buffer s])) as Hsplit.
    { rewrite Hcons. apply split_every_pieces; [lia|done|done]. }
    case_decide; wp_simpl; (split; [done|]); exists contents; rewrite Hsplit, Hch.
    + by rewrite app_nil_r.
    + by rewrite number_app, Hi.
  - done.
Qed.

(** * The directory walk *)

(** Everything that exists lies in directories that exist. *)
Definition fs_wf (m : fs) : Prop :=
  ∀ p q n, m !! p = Some n → q `prefix_of` p → q ≠ [] → q ≠ p → m !! q = Some Dir.

Definition regular_below (m : fs) (dir q : path) : Prop :=
  dir `prefix_of` q ∧ q ≠ dir ∧ is_Some (file_at m q).

Definition dir_entries (m : fs) (p : path) : list (string * node) :=
  omap (λ e : path * node,
    match last e.1 with
    | Some name => if decide (e.1 = p ++ [name]) then Some (name, e.2) else None
    | None => None
    end) (map_to_list m).

Lemma elem_of_dir_entries m p name n :
  (name, n) ∈ dir_entries m p ↔ m !! (p ++ [name]) = Some n.
Proof.
  unfold dir_entries. rewrite list_elem_of_omap. split.
  - intros ([q k] & Hin & Hq). apply elem_of_map_to_list in Hin. simpl in Hq.
    destruct (last q); [|done]. case_decide; [|done]. by simplify_eq.
  - intros Hp. exists (p ++ [name], n). rewrite elem_of_map_to_list. split; [done|]. simpl.
    rewrite last_snoc. by rewrite decide_True.
Qed.

Lemma NoDup_dir_entries m p : NoDup ((λ e, p ++ [e.1]) <$> dir_entries m p).
Proof.
  eapply sublist_NoDup; [apply (NoDup_fst_map_to_list m)|]. unfold dir_entries.
  induction (map_to_list m) as [|[q k] l IH]; [done|]. simpl.
  destruct (last q); [|by constructor]. case_decide; [|by constructor].
  subst q. simpl. by constructor.
Qed.

Lemma wp_read_dir p (Q : list (string * node) → World → Prop) (R : io_kind → World → Prop) w :
  (∀ k w', stepped w w' → ¬ no_faults w ∨ is_dir_in (w_fs w) p = false → R k w') →
  (∀ w', is_dir_in (w_fs w) p = true → stepped w w' → Q (dir_entries (w_fs w) p) w') →
  wp (read_dir p) Q R w.
Proof.
  intros HR HQ. apply wp_faulty; [intros f Hf; apply HR; eauto with etle|].
  intros _. unfold wp. cbn [w_fs tick]. destruct (is_dir_in (w_fs w) p) eqn:Hd.
  - apply HQ; auto with etle.
  - apply HR; auto with etle.
Qed.

Lemma length_max_depth m p n : m !! p = Some n → (length p ≤ max_depth m)%nat.
Proof.
  intros Hp. apply elem_of_map_to_list in Hp. unfold max_depth.
  induction (map_to_list m) as [|[q k] l IH]; [by apply elem_of_nil in Hp|]. simpl.
  apply elem_of_cons in Hp as [[= <- <-]|Hp]; [lia|]. specialize (IH Hp). lia.
Qed.

Section walk.
Context (m : fs) (Hwf : fs_wf m).

Lemma regular_below_entry dir q :
  regular_below m dir q ↔
  is_Some (file_at m q) ∧ ∃ e, e ∈ dir_entries m dir ∧ dir ++ [e.1] `prefix_of` q.
Proof using Hwf.
  unfold regular_below. split.
  - intros ([k ->] & Hne & Hf). split; [done|].
    destruct k as [|name k]; [by rewrite app_nil_r in Hne|].
    destruct (decide (k = [])) as [->|Hk].
    + unfold file_at in Hf. destruct (m !! (dir ++ [name])) as [n|] eqn:Hm; [|by destruct Hf].
      exists (name, n). rewrite elem_of_dir_entries. done.
    + exists (name, Dir). rewrite elem_of_dir_entries. simpl. split.
      * unfold file_at in Hf. destruct (m !! (dir ++ name :: k)) as [n|] eqn:Hm; [|by destruct Hf].
        eapply Hwf; [done| | |].
        -- exists k. by rewrite <- app_assoc.
        -- by destruct dir.
        -- intros Heq. apply (app_inv_head dir [name]) in Heq. by destruct k.
      * exists k. by rewrite <- app_assoc.
  - intros (Hf & [name n] & _ & k & ->). simpl in *. rewrite <- app_assoc. split_and!.
    + by eexists.
    + intros Heq%(f_equal length). rewrite length_app in Heq. simpl in Heq. lia.
    + by rewrite <- app_assoc in Hf.
Qed.

(** An entry that is a file is the only file at or below its path. *)
Lemma below_file p q d :
  p ≠ [] → m !! p = Some (File d) → p `prefix_of` q → is_Some (file_at m q) → q = p.
Proof using Hwf.
  intros Hp Hm Hpre Hq. destruct (decide (q = p)) as [|Hne]; [done|]. unfold file_at in Hq.
  destruct (m !! q) as [n|] eqn:Hmq; [|by destruct Hq].
  rewrite (Hwf q p n) in Hm; done.
Qed.

(** The files found at or below the entries already visited. *)
Definition visited (dir : path) (entries : list (string * node)) (l : list path) : Prop :=
  NoDup l ∧ ∀ q, q ∈ l ↔ is_Some (file_at m q) ∧ ∃ e, e ∈ entries ∧ dir ++ [e.1] `prefix_of` q.

Lemma visited_nil dir : visited dir [] [].
Proof. split; [constructor|]. set_solver. Qed.

Lemma visited_snoc dir entries e l l' :
  NoDup ((λ e, dir ++ [e.1]) <$> entries ++ [e]) →
  visited dir entries l →
  NoDup l' → (∀ q, q ∈ l' ↔ is_Some (file_at m q) ∧ dir ++ [e.1] `prefix_of` q) →
  visited dir (entries ++ [e]) (l ++ l').
Proof.
  intros Hnd [Hl Hin] Hl' Hin'. split.
  - apply NoDup_app. split_and!; [done| |done]. intros q [_ (e0 & He0 & Hp0)]%Hin [_ Hp]%Hin'.
    rewrite fmap_app, NoDup_app in Hnd. destruct Hnd as (_ & Hdis & _).
    apply (Hdis (dir ++ [e0.1])).
    + apply list_elem_of_fmap. eauto.
    + apply list_elem_of_singleton. destruct Hp0 as [k0 ->], Hp as [k Hk].
      rewrite <- !app_assoc in Hk. apply app_inv_head in Hk. by injection Hk as ->.
  - intros q. rewrite elem_of_app, Hin, Hin'. split.
    + intros [[? (e0 & ? & ?)]|[??]]; (split; [done|]); [exists e0|exists e]; set_solver.
    + intros [? (e0 & He0 & ?)]. apply elem_of_app in He0 as [?|He0]; [by eauto|].
      apply list_elem_of_singleton in He0 as ->. eauto.
Qed.

Lemma wp_collect_regular_files fuel dir output w :
  w_fs w = m → (0 < fuel)%nat → (max_depth m < fuel + length dir)%nat →
  wp (collect_regular_files fuel dir output)
    (λ out w', stepped w w' ∧ ∃ l, out = output ++ l ∧ NoDup l ∧ ∀ q, q ∈ l ↔ regular_below m dir q)
    (λ e w', stepped w w' ∧ ∃ k, e = FE_Io k ∧ (¬ no_faults w ∨ is_dir_in m dir = false)) w.
Proof using Hwf.
  revert dir output w. induction fuel as [|fuel IH]; intros dir output w Hw Hpos Hfuel; [lia|].
  cbn [collect_regular_files]. wp_simpl. apply wp_read_dir; [rewrite Hw; eauto 10|].
  intros w1 Hdir Hst1. rewrite Hw in *.
  set (entries := sort_by _ _). assert (entries ≡ₚ dir_entries m dir) as Hperm by apply sort_by_perm.
  pose proof (NoDup_dir_entries m dir) as Hnd. rewrite <- Hperm in Hnd.
  eapply wp_mono.
  - apply (wp_mfold _ (λ done out w', stepped w w' ∧ ∃ l, out = output ++ l ∧ visited dir done l)
      _ _ (λ e w', stepped w w' ∧ ∃ k, e = FE_Io k ∧ (¬ no_faults w ∨ is_dir_in m dir = false))).
    + split; [done|]. exists []. rewrite app_nil_r. split; [done|]. apply visited_nil.
    + intros done_ [name n] rest out w2 Hent (Hst2 & l & -> & Hvis). wp_simpl.
      assert (m !! (dir ++ [name]) = Some n) as Hm.
      { apply elem_of_dir_entries. rewrite <- Hperm, Hent. apply elem_of_app. right. left. }
      assert (NoDup ((λ e, dir ++ [e.1]) <$> done_ ++ [(name, n)])) as Hnd'.
      { rewrite Hent, cons_middle, app_assoc, fmap_app in Hnd. by apply NoDup_app in Hnd as [? _]. }
      assert (dir ++ [name] ≠ []) as Hne by (by destruct dir).
      apply wp_faulty.
      { intros f Hf. split; [by etrans|]. exists (fault_kind f). split; [done|]. left.
        rewrite (stepped_no_faults w w2) by done. eauto with etle. }
      intros _. unfold wp at 1. cbn [fst snd]. destruct n as [d|].
      * wp_simpl. split; [by etrans|]. exists (l ++ [dir ++ [name]]). split; [by rewrite app_assoc|].
        apply visited_snoc; [done|done|apply NoDup_singleton|]. intros q. cbn [fst].
        rewrite list_elem_of_singleton. split.
        -- intros ->. unfold file_at. rewrite Hm. split; [by eexists|done].
        -- intros [Hq Hpre]. by eapply below_file.
      * pose proof (length_max_depth _ _ _ Hm) as Hlen. rewrite length_app in Hlen. simpl in Hlen.
        eapply wp_mono; [apply IH| |].
        -- simpl. rewrite (stepped_fs _ _ Hst2). done.
        -- lia.
        -- rewrite length_app. simpl. lia.
        -- simpl. intros out w' (Hst' & l' & -> & Hnd'' & Hl'). split; [by etrans; [exact Hst2|]|].
           exists (l ++ l'). split; [by rewrite app_assoc|]. apply visited_snoc; [done..|].
           intros q. rewrite Hl'. unfold regular_below. cbn [fst]. split; [by intros (?&_&?)|].
           intros [Hq Hpre]. split_and!; [done| |done]. intros ->. unfold file_at in Hq.
           rewrite Hm in Hq. by destruct Hq.
        -- simpl. intros e w' (Hst' & k & -> & Hk). split; [by etrans; [exact Hst2|]|].
           exists k. split; [done|]. destruct Hk as [Hk|Hk].
           ++ left. rewrite (stepped_no_faults w w2) by done. exact Hk.
           ++ apply bool_decide_eq_false in Hk. contradict Hk. by right.
  - simpl. intros out w' (Hst & l & -> & Hl & Hin). split; [done|]. exists l. split_and!; [done..|].
    intros q. rewrite Hin, regular_below_entry. by setoid_rewrite Hperm.
  - done.
Qed.
End walk.

(** * Layouts: the reference definition *)
Lemma strip_prefix_app root k : strip_prefix root (root ++ k) = Some k.
Proof. induction root as [|r root IH]; [done|]. simpl. by rewrite decide_True. Qed.

Section layout_spec.
Context `{Blake3} (m : fs) (root : path).

Definition content_of (p : path) : bytes := default [] (file_at m p).
Definition stream_size (paths : list path) : Z := zlen (concat (content_of <$> paths)).

(** The files [paths] one after the other from [offset]. *)
Fixpoint laid_out (offset : Z) (paths : list path) : list PackageSourceFile :=
  match paths with
  | [] => []
  | p :: paths =>
      let d := content_of p in
      mkPackageSourceFile
        (mkFileEntry (String.concat "/" (drop (length root) p)) (zlen d) offset (hash_file_id d)) p
      :: laid_out (offset + zlen d) paths
  end.

Lemma stream_size_snoc paths p : stream_size (paths ++ [p]) = stream_size paths + zlen (content_of p).
Proof. unfold stream_size. rewrite fmap_app, concat_app, zlen_app. simpl. by rewrite app_nil_r. Qed.

Lemma stream_size_cons p paths : stream_size (p :: paths) = zlen (content_of p) + stream_size paths.
Proof. unfold stream_size. rewrite fmap_cons. cbn [concat]. by rewrite zlen_app. Qed.

Lemma laid_out_snoc paths p offset :
  laid_out offset (paths ++ [p]) =
  laid_out offset paths ++
    [mkPackageSourceFile
       (mkFileEntry (String.concat "/" (drop (length root) p)) (zlen (content_of p))
          (offset + stream_size paths) (hash_file_id (content_of p))) p].
Proof.
  revert offset. induction paths as [|q paths IH]; intros offset; simpl.
  - unfold stream_size. simpl. by rewrite zlen_nil, Z.add_0_r.
  - rewrite IH, stream_size_cons. by rewrite Z.add_assoc.
Qed.

Lemma laid_out_paths paths offset : psf_source_path <$> laid_out offset paths = paths.
Proof. revert offset. induction paths as [|p paths IH]; intros offset; simpl; [done|]. by rewrite IH. Qed.
End layout_spec.

Lemma package_stream_laid_out `{Blake3} m root offset paths :
  (∀ q, q ∈ paths → is_Some (file_at m q)) →
  package_stream m (laid_out m root offset paths) = Some (content_of m <$> paths).
Proof.
  intros Hf. unfold package_stream. apply mapM_Some. revert offset.
  induction paths as [|p paths IH]; intros offset; simpl; [constructor|]. constructor.
  - simpl. destruct (Hf p) as [d Hd]; [left|]. unfold content_of. by rewrite Hd.
  - apply IH. intros q Hq. apply Hf. by right.
Qed.

Definition path_lt (p q : path) : Prop := path_compare p q = Lt.

Lemma sort_paths_strict l : NoDup l → StronglySorted path_lt (sort_by path_leb l).
Proof.
  intros Hnd. pose proof (sort_by_sorted path_leb path_leb_total path_leb_trans l) as Hs.
  rewrite <- (sort_by_perm path_leb l) in Hnd.
  induction Hs as [|p k Hk IH Hp]; [constructor|]. apply NoDup_cons in Hnd as [Hnin Hnd].
  constructor; [by apply IH|]. rewrite Forall_forall in Hp |- *. intros q Hq. specialize (Hp q Hq).
  unfold path_leb in Hp. unfold path_lt. destruct (path_compare p q) eqn:Hc; [|done|done].
  apply cmp_eq in Hc as ->; [done|apply _].
Qed.

Section layout_wp.
Context `{Blake3Laws}.

Lemma wp_layout_round m root w st paths p :
  w_fs w = m → regular_below m root p →
  st = (laid_out m root 0 paths, stream_size m paths) →
  wp (layout_round root st p)
    (λ st' w', stepped w w' ∧ st' = (laid_out m root 0 (paths ++ [p]), stream_size m (paths ++ [p]))
               ∧ stream_size m (paths ++ [p]) ≤ u64_max)
    (λ e w', stepped w w' ∧ ((∃ k, e = FE_Io k ∧ ¬ no_faults w)
               ∨ (e = PackageTooLarge ∧ u64_max < stream_size m (paths ++ [p])))) w.
Proof.
  intros Hw ([k ->] & Hne & d & Hd) ->. unfold layout_round. wp_simpl.
  assert (m !! (root ++ k) = Some (File d)) as Hm.
  { unfold file_at in Hd. destruct (m !! _) as [[]|]; naive_solver. }
  assert (content_of m (root ++ k) = d) as Hc by (unfold content_of; by rewrite Hd).
  apply wp_metadata; rewrite Hw.
  { intros kind w' Hst [Hnf|[Hnone _]]; [eauto 10|congruence]. }
  intros n w1 Hn Hst1. assert (n = File d) as ->.
  { destruct Hn as [Hn|(Hnil & -> & _)]; [congruence|]. rewrite Hnil in Hne. by destruct root. }
  wp_simpl. unfold relative_package_path. rewrite strip_prefix_app. cbn [ok_or result_bind].
  wp_simpl.
  apply wp_hash_file; rewrite (stepped_fs _ _ Hst1), Hw.
  { intros kind w' Hst [Hnf|Hnone]; [|congruence]. split; [by etrans|]. left.
    rewrite <- (stepped_no_faults w w1) in Hnf by done. eauto. }
  intros d' w2 Hd' Hst2. assert (d' = d) as -> by congruence. clear Hd'.
  wp_simpl. unfold checked_add. rewrite stream_size_snoc, Hc. cbn [fst snd node_len] in *.
  case_decide as Hov; cbn [ok_or]; wp_simpl.
  - split; [by etrans|]. split; [|done]. rewrite laid_out_snoc, Hc. rewrite drop_app_length. done.
  - split; [by etrans|]. right. split; [done|]. lia.
Qed.
End layout_wp.

(** What [collect_package_layout] promises about the file system it ran in:
    the regular files at or below the input, each once, in path order, one
    after the other. *)
Definition layout_of `{Blake3} (m : fs) (input : path) (layout : PackageLayout) : Prop :=
  match file_at m input with
  | Some d => layout = mkPackageLayout (file_name input) input (zlen d)
                         [mkPackageSourceFile (mkFileEntry (file_name input) (zlen d) 0 (hash_file_id d)) input]
  | None => ∃ paths, StronglySorted path_lt paths ∧ (∀ q, q ∈ paths ↔ regular_below m input q)
      ∧ paths ≠ [] ∧ stream_size m paths ≤ u64_max
      ∧ layout = mkPackageLayout (file_name input) input (stream_size m paths)
                   (laid_out m input 0 paths)
  end.

(** Why it fails. *)
Definition layout_error (w : World) (input : path) (e : FileError) : Prop :=
  (∃ k, e = FE_Io k ∧ (¬ no_faults w ∨ (w_fs w !! input = None ∧ input ≠ [])))
  ∨ (e = EmptyPackage ∧ ∀ q, ¬ regular_below (w_fs w) input q)
  ∨ (e = PackageTooLarge ∧ ∃ paths, NoDup paths ∧ (∀ q, q ∈ paths → regular_below (w_fs w) input q)
                                     ∧ u64_max < stream_size (w_fs w) paths).

Lemma layout_error_stepped w w1 input e :
  stepped w w1 → layout_error w1 input e → layout_error w input e.
Proof.
  intros Hst. unfold layout_error. rewrite (stepped_fs _ _ Hst).
  intros [(k & -> & Hk)|He]; [|by right]. left. exists k. by rewrite (stepped_no_faults w w1).
Qed.

Section layout_total.
Context `{Blake3Laws}.

Lemma wp_collect_directory_layout root w :
  fs_wf (w_fs w) → file_at (w_fs w) root = None → is_dir_in (w_fs w) root = true →
  wp (collect_directory_layout root) (λ l w', stepped w w' ∧ layout_of (w_fs w) root l)
    (λ e w', stepped w w' ∧ layout_error w root e) w.
Proof.
  intros Hwf Hnf Hdir. unfold collect_directory_layout. wp_simpl.
  eapply wp_mono; [apply (wp_collect_regular_files (w_fs w) Hwf); [done|lia|lia]|..].
  2: { simpl. intros e w' (Hst & k & -> & [?|?]); [|congruence]. split; [done|]. left. eauto. }
  simpl. intros paths w1 (Hst1 & l & Hl & Hnd & Hin). subst paths.
  pose proof (sort_paths_strict l Hnd) as Hsorted.
  pose proof (sort_by_perm path_leb l) as Hperm.
  set (paths := sort_by path_leb l) in *.
  assert (∀ q, q ∈ paths ↔ regular_below (w_fs w) root q) as Hin' by (intros q; by rewrite Hperm).
  case_decide as Hemp; wp_simpl.
  { split; [done|]. right; left. split; [done|]. intros q. rewrite <- Hin', Hemp. apply not_elem_of_nil. }
  eapply wp_mono.
  - apply (wp_mfold _ (λ done st w', stepped w w'
        ∧ st = (laid_out (w_fs w) root 0 done, stream_size (w_fs w) done)
        ∧ stream_size (w_fs w) done ≤ u64_max) paths _
        (λ e w', stepped w w' ∧ layout_error w root e)).
    + split; [done|]. split; [done|]. unfold stream_size, u64_max. simpl. rewrite zlen_nil. lia.
    + intros done_ p rest st w2 Hp (Hst2 & -> & Hmax).
      eapply wp_mono; [apply (wp_layout_round (w_fs w) root w2 _ done_ p)|..].
      * apply (stepped_fs _ _ Hst2).
      * apply Hin'. rewrite Hp. apply elem_of_app. right. left.
      * done.
      * simpl. intros st' w' (? & -> & ?). split; [by etrans|done].
      * simpl. intros e w' (Hst' & He). split; [by etrans|]. destruct He as [(k & -> & Hk)|[-> Hbig]].
        -- left. exists k. split; [done|]. left. by rewrite (stepped_no_faults w w2).
        -- right; right. split; [done|]. exists (done_ ++ [p]). split_and!; [| |done].
           ++ assert (NoDup paths) as Hndp by (by rewrite Hperm).
              rewrite Hp, cons_middle, app_assoc in Hndp. by apply NoDup_app in Hndp as [? _].
           ++ intros q Hq. apply Hin'. rewrite Hp, cons_middle, app_assoc. apply elem_of_app. by left.
  - simpl. intros st w' (Hst & -> & Hmax). wp_simpl. split; [done|]. unfold layout_of. rewrite Hnf. eauto 10.
  - done.
Qed.

Lemma wp_collect_package_layout input w :
  fs_wf (w_fs w) →
  wp (collect_package_layout input) (λ l w', stepped w w' ∧ layout_of (w_fs w) input l)
    (λ e w', stepped w w' ∧ layout_error w input e) w.
Proof.
  intros Hwf. unfold collect_package_layout. wp_simpl.
  apply wp_metadata; [intros k w' Hst Hk; split; [done|left; eauto]|].
  intros n w1 Hn Hst1. destruct n as [d|].
  - assert (file_at (w_fs w) input = Some d) as Hf.
    { unfold file_at. destruct Hn as [->|(_ & ? & _)]; done. }
    unfold collect_single_file_layout. wp_simpl. apply wp_hash_file.
    + rewrite (stepped_fs _ _ Hst1). intros k w' Hst [Hnf|?]; [|congruence].
      split; [by etrans|]. left. exists k. split; [done|]. left. by rewrite (stepped_no_faults w w1).
    + rewrite (stepped_fs _ _ Hst1). intros d' w' Hd' Hst. simplify_eq. wp_simpl.
      split; [by etrans|]. unfold layout_of. by rewrite Hf.
  - eapply wp_mono; [apply wp_collect_directory_layout|..]; rewrite ?(stepped_fs _ _ Hst1).
    + done.
    + unfold file_at. by destruct Hn as [->|(_ & _ & ->)].
    + unfold is_dir_in. apply bool_decide_eq_true. destruct Hn as [?|(? & _)]; auto.
    + simpl. intros l w' [Hst Hl]. split; [by etrans|done].
    + simpl. intros e w' [Hst He]. split; [by etrans|]. by eapply layout_error_stepped.
Qed.
End layout_total.

(** * Claims *)

(** [collect_package_layout] on a file or directory lists exactly the
    regular files at or below it, each once and in path order, with their sizes,
    hashes, relative names and cumulative offsets; it changes nothing and fails
    only with an I/O error, for an empty package, or for one of more than
    [u64::MAX] bytes. The directory walk terminates. *)
Theorem collect_package_layout_correct `{Blake3Laws} input w :
  fs_wf (w_fs w) →
  (∃ layout w', collect_package_layout input w = (Ok layout, w')
     ∧ stepped w w' ∧ layout_of (w_fs w) input layout)
  ∨ (∃ e w', collect_package_layout input w = (Err e, w')
     ∧ stepped w w' ∧ layout_error w input e).
Proof. intros Hwf. exact (wp_run _ _ _ _ (wp_collect_package_layout input w Hwf)). Qed.

(** [read_package_chunks] cuts the concatenation of the package's files into
    pieces of exactly the chunk size (the last one possibly shorter) numbered
    from zero, across file boundaries and however the reads are split; it never
    panics and fails only with an I/O error or [TooManyChunks]. *)
Theorem read_package_chunks_correct layout chunk_size w :
  0 < chunk_size →
  (∃ contents w', read_package_chunks layout chunk_size w
       = (Ok (number (split_every (Z.to_nat chunk_size) (concat contents))), w')
     ∧ stepped w w' ∧ package_stream (w_fs w) (pl_files layout) = Some contents)
  ∨ (∃ e w', read_package_chunks layout chunk_size w = (Err e, w') ∧ stepped w w'
     ∧ ((∃ k, e = FE_Io k ∧ (¬ no_faults w ∨ package_stream (w_fs w) (pl_files layout) = None))
        ∨ e = TooManyChunks)).
Proof.
  intros Hsize. destruct (wp_run _ _ _ _ (wp_read_package_chunks layout chunk_size w Hsize))
    as [(c & w' & Hrun & Hst & contents & Hc & ->)|?]; [left|right; done].
  by exists contents, w'.
Qed.

Import Toy.
Module PackageSample.
Definition tree : fs := {[
  ["pkg"%string] := Dir;
  ["pkg"%string; "b.txt"%string] := File (str_bytes "defg");
  ["pkg"%string; "a.txt"%string] := File (str_bytes "abc");
  ["pkg"%string; "nested"%string] := Dir;
  ["pkg"%string; "nested"%string; "c.txt"%string] := File (str_bytes "h") ]}.
Definition world : World := CryptoSample.world tree [].

Definition fs_wfb (m : fs) : bool :=
  forallb (λ e : path * node, forallb (λ q, bool_decide (q = e.1 ∨ m !! q = Some Dir)) (ancestors e.1))
    (map_to_list m).

Lemma fs_wfb_wf m : fs_wfb m = true → fs_wf m.
Proof.
  unfold fs_wfb. rewrite forallb_forall. intros Hall p q n Hp Hpre Hq Hne.
  apply elem_of_map_to_list, list_elem_of_In in Hp. specialize (Hall _ Hp). simpl in Hall.
  rewrite forallb_forall in Hall. specialize (Hall q). rewrite bool_decide_eq_true in Hall.
  destruct Hall as [?|?]; [|done|done]. apply list_elem_of_In, elem_of_ancestors. done.
Qed.
End PackageSample.

Lemma collect_package_layout_correct_witness :
  let w := PackageSample.world in let input := ["pkg"%string] in
  (∃ layout w', collect_package_layout input w = (Ok layout, w')
     ∧ stepped w w' ∧ layout_of (w_fs w) input layout)
  ∨ (∃ e w', collect_package_layout input w = (Err e, w')
     ∧ stepped w w' ∧ layout_error w input e).
Proof. apply collect_package_layout_correct. apply PackageSample.fs_wfb_wf. vm_compute. reflexivity. Defined.

Lemma read_package_chunks_correct_witness :
  let w := PackageSample.world in
  let layout := mkPackageLayout "pkg" ["pkg"%string] 8
                  (laid_out (w_fs w) ["pkg"%string] 0
                     [["pkg"%string; "a.txt"%string]; ["pkg"%string; "b.txt"%string]]) in
  (∃ contents w', read_package_chunks layout 4 w
       = (Ok (number (split_every (Z.to_nat 4) (concat contents))), w')
     ∧ stepped w w' ∧ package_stream (w_fs w) (pl_files layout) = Some contents)
  ∨ (∃ e w', read_package_chunks layout 4 w = (Err e, w') ∧ stepped w w'
     ∧ ((∃ k, e = FE_Io k ∧ (¬ no_faults w ∨ package_stream (w_fs w) (pl_files layout) = None))
        ∨ e = TooManyChunks)).
Proof. apply read_package_chunks_correct. lia. Defined.

Example package_layout_sample :
  match (collect_package_layout ["pkg"%string] PackageSample.world).1 with
  | Ok l => ((λ f, (fe_path f, fe_size f, fe_offset f)) <$> descriptor_files l, pl_total_size l)
  | _ => ([], 0)
  end = ([("a.txt", 3, 0); ("b.txt", 4, 3); ("nested/c.txt", 1, 7)]%string, 8).
Proof. vm_compute. reflexivity. Qed.
