(* ===== verification/Storage.v ===== *)
(** [file/storage.rs]: encrypting a file chunk by chunk, decrypting it back, and
    the debug workspace that stores the result as plain files. *)
From stdpp Require Import base tactics list countable strings gmap sorting.
From Stdlib Require Import ZArith Lia.
From S2P Require Import Prelude Bytes World Files Extern Crypto Descriptor Chunker Package.
Local Open Scope Z_scope.
Local Open Scope etle_scope.

Definition DEBUG_MANIFEST_FILE_NAME : string := "manifest.bin".
Definition DEBUG_CHUNKS_DIR_NAME : string := "chunks".
Definition DEBUG_CHUNK_EXTENSION : string := "etle".

Record EncryptedChunk := mkEncryptedChunk { ec_index : Z; ec_data : bytes }.
Record EncryptedFile := mkEncryptedFile {
  ef_manifest : Manifest;
  ef_chunks : gmap Z EncryptedChunk;
}.

Definition debug_manifest_path (root : path) : path := root ++ [DEBUG_MANIFEST_FILE_NAME].
Definition debug_chunks_dir (root : path) : path := root ++ [DEBUG_CHUNKS_DIR_NAME].
Definition debug_chunk_path (root : path) (index : Z) : path :=
  debug_chunks_dir root ++ [dec_pad6 index +:+ "." +:+ DEBUG_CHUNK_EXTENSION].

(** [Path::with_file_name] *)
Definition with_file_name (p : path) (name : string) : path := parent_or_empty p ++ [name].
Definition default_output_path (input : path) : path :=
  with_file_name input ("reconstructed-" +:+ file_name input).

Section storage.
Context `{Blake3, Aead}.

Definition encrypt_file_round (key : SymmetricKey) (file_id : FileId)
    (st : gmap Z EncryptedChunk * list ChunkMeta) (chunk : PlainChunk)
    : M World FileError (gmap Z EncryptedChunk * list ChunkMeta) :=
  let! nonce := generate_nonce in
  let aad := build_chunk_aad file_id (plain_index chunk) (zlen (plain_data chunk)) in
  let! ciphertext := lift_result (result_map_err FE_Crypto
                       (encrypt_chunk key nonce (plain_data chunk) aad)) in
  let encrypted_hash := hash_chunk ciphertext in
  let metas := st.2 ++ [mkChunkMeta (plain_index chunk) (zlen (plain_data chunk))
                          (zlen ciphertext) nonce encrypted_hash] in
  ret (<[plain_index chunk := mkEncryptedChunk (plain_index chunk) ciphertext]> st.1, metas).

Definition encrypt_file (p : path) (key : SymmetricKey) (chunk_size : Z)
    : M World FileError EncryptedFile :=
  let! file_id := map_err FE_Io (hash_file p) in
  let! meta := map_err FE_Io (metadata p) in
  let file_size := node_len meta in
  let name := file_name p in
  let! plain_chunks := read_file_chunks p chunk_size in
  let! st := mfold (encrypt_file_round key file_id) (∅, []) plain_chunks in
  ret (mkEncryptedFile (mkManifest file_id name file_size chunk_size st.2) st.1).

Definition decrypt_meta (encrypted : EncryptedFile) (key : SymmetricKey) (meta : ChunkMeta)
    : result FileError PlainChunk :=
  let? chunk := ok_or (ef_chunks encrypted !! cm_index meta) (MissingChunk (cm_index meta)) in
  let actual_hash := hash_chunk (ec_data chunk) in
  if decide (actual_hash ≠ cm_blake3_hash meta) then Err (ChunkHashMismatch (cm_index meta))
  else
    let aad := build_chunk_aad (mf_file_id (ef_manifest encrypted)) (cm_index meta)
                 (cm_plain_size meta) in
    let? plaintext := result_map_err FE_Crypto
                        (decrypt_chunk key (cm_nonce meta) (ec_data chunk) aad) in
    Ok (mkPlainChunk (cm_index meta) plaintext).

Definition decrypt_to_bytes (encrypted : EncryptedFile) (key : SymmetricKey)
    : result FileError bytes :=
  let? plain_chunks := result_mapM (decrypt_meta encrypted key) (mf_chunks (ef_manifest encrypted)) in
  let output := join_chunks plain_chunks in
  let output_hash := mkFileId (hash_bytes output) in
  if decide (output_hash ≠ mf_file_id (ef_manifest encrypted)) then Err FinalHashMismatch
  else Ok output.

Definition decrypt_to_file (encrypted : EncryptedFile) (key : SymmetricKey) (output_path : path)
    : M World FileError unit :=
  let! output := lift_result (decrypt_to_bytes encrypted key) in
  map_err FE_Io (fs_write output_path output).
End storage.

Section workspace.
Context `{Bincode Manifest}.

Definition write_debug_chunk (encrypted : EncryptedFile) (root : path) (_ : unit) (meta : ChunkMeta)
    : M World FileError unit :=
  let! chunk := lift_result (ok_or (ef_chunks encrypted !! cm_index meta)
                               (MissingChunk (cm_index meta))) in
  map_err FE_Io (fs_write (debug_chunk_path root (cm_index meta)) (ec_data chunk)).

Definition write_debug_workspace (encrypted : EncryptedFile) (root : path)
    : M World FileError unit :=
  let chunks_dir := debug_chunks_dir root in
  do! map_err FE_Io (create_dir_all chunks_dir) in
  let! manifest := lift_result (ok_or (Manifest_to_bytes (ef_manifest encrypted)) FE_Encode) in
  do! map_err FE_Io (fs_write (debug_manifest_path root) manifest) in
  mfold (write_debug_chunk encrypted root) tt (mf_chunks (ef_manifest encrypted)).

Definition read_debug_chunk (root : path) (chunks : gmap Z EncryptedChunk) (meta : ChunkMeta)
    : M World FileError (gmap Z EncryptedChunk) :=
  let! data := map_err FE_Io (read_file (debug_chunk_path root (cm_index meta))) in
  let actual := zlen data in
  if decide (actual ≠ cm_encrypted_size meta)
  then throw (ChunkSizeMismatch (cm_index meta) (cm_encrypted_size meta) actual)
  else ret (<[cm_index meta := mkEncryptedChunk (cm_index meta) data]> chunks).

Definition read_debug_workspace (root : path) : M World FileError EncryptedFile :=
  let! manifest_bytes := map_err FE_Io (read_file (debug_manifest_path root)) in
  let! manifest := lift_result (result_map_err FE_Decode (Manifest_from_bytes manifest_bytes)) in
  let! chunks := mfold (read_debug_chunk root) ∅ (mf_chunks manifest) in
  ret (mkEncryptedFile manifest chunks).
End workspace.

(** * What an encrypted file looks like *)
Section sealed.
Context `{Blake3Laws, AeadLaws}.
Context (key : SymmetricKey) (file_id : FileId).

(** [(meta, c)] seals the plaintext [d] as chunk [i]. *)
Definition sealed_chunk (i : Z) (d : bytes) (x : ChunkMeta * bytes) : Prop :=
  encrypt_chunk key (cm_nonce x.1) d (build_chunk_aad file_id i (zlen d)) = Ok x.2
  ∧ x.1 = mkChunkMeta i (zlen d) (zlen x.2) (cm_nonce x.1) (hash_chunk x.2).

Definition chunk_map (cs : list bytes) : gmap Z EncryptedChunk :=
  list_to_map (imap (λ i c, (Z.of_nat i, mkEncryptedChunk (Z.of_nat i) c)) cs).

Definition sealed (ds : list bytes) (xs : list (ChunkMeta * bytes)) : Prop :=
  length xs = length ds ∧
  ∀ i d x, ds !! i = Some d → xs !! i = Some x → sealed_chunk (Z.of_nat i) d x.

Lemma lookup_chunk_map cs i :
  chunk_map cs !! Z.of_nat i = mkEncryptedChunk (Z.of_nat i) <$> cs !! i.
Proof.
  unfold chunk_map. destruct (cs !! i) as [c|] eqn:Hc; simpl.
  - apply elem_of_list_to_map.
    + rewrite fmap_imap. apply NoDup_alt. intros a b x Ha Hb.
      rewrite list_lookup_imap in Ha, Hb. destruct (cs !! a), (cs !! b); simplify_eq/=. lia.
    + apply elem_of_lookup_imap. eauto.
  - apply not_elem_of_list_to_map. intros Hin. apply list_elem_of_fmap in Hin as ([k e] & Hk & Hin).
    apply elem_of_lookup_imap in Hin as (j & c & [= -> ->] & Hj). simpl in Hk.
    assert (i = j) by lia. congruence.
Qed.

Lemma lookup_chunk_map_neg cs k : k < 0 → chunk_map cs !! k = None.
Proof.
  intros Hk. apply not_elem_of_list_to_map. intros Hin.
  apply list_elem_of_fmap in Hin as ([j e] & -> & Hin).
  apply elem_of_lookup_imap in Hin as (i & c & [= -> ->] & Hj). simpl in Hk. lia.
Qed.

Lemma chunk_map_snoc cs c :
  chunk_map (cs ++ [c]) = <[zlen cs := mkEncryptedChunk (zlen cs) c]> (chunk_map cs).
Proof.
  apply map_eq. intros k. destruct (decide (k < 0)) as [Hneg|].
  { rewrite lookup_insert_ne by (unfold zlen; lia). by rewrite !lookup_chunk_map_neg. }
  replace k with (Z.of_nat (Z.to_nat k)) by lia. generalize (Z.to_nat k). clear. intros i.
  rewrite lookup_chunk_map. destruct (decide (i = length cs)) as [->|Hne].
  - rewrite list_lookup_middle by done. simpl. by rewrite lookup_insert_eq.
  - rewrite lookup_insert_ne by (unfold zlen; lia). rewrite lookup_chunk_map.
    destruct (decide (i < length cs)%nat).
    + by rewrite lookup_app_l.
    + rewrite !lookup_ge_None_2; [done|lia|rewrite length_app; simpl; lia].
Qed.

Lemma sealed_snoc ds xs d x :
  sealed ds xs → sealed_chunk (zlen ds) d x → sealed (ds ++ [d]) (xs ++ [x]).
Proof.
  intros [Hlen Hs] Hx. split; [by rewrite !length_app, Hlen|]. intros i d' x' Hd' Hx'.
  destruct (decide (i < length ds)%nat).
  - rewrite lookup_app_l in Hd' by done. rewrite lookup_app_l in Hx' by lia. by apply (Hs i).
  - apply lookup_lt_Some in Hd' as Hlt. rewrite length_app in Hlt. simpl in Hlt.
    assert (i = length ds) as -> by lia.
    rewrite list_lookup_middle in Hd' by done. rewrite list_lookup_middle in Hx' by done.
    by simplify_eq.
Qed.

(** One chunk of the loop; the cipher accepts every chunk below its limit. *)
Lemma wp_encrypt_file_round ds xs d w :
  sealed ds xs →
  wp (encrypt_file_round key file_id (chunk_map xs.*2, xs.*1) (mkPlainChunk (zlen ds) d))
    (λ st w', stepped w w' ∧ ∃ x, sealed (ds ++ [d]) (xs ++ [x])
                ∧ st = (chunk_map (xs ++ [x]).*2, (xs ++ [x]).*1))
    (λ e w', stepped w w' ∧ e = FE_Crypto Encrypt ∧ aead_max < zlen d) w.
Proof using All.
  intros Hs. unfold encrypt_file_round. wp_simpl. unfold generate_nonce. wp_simpl.
  unfold fill_bytes, wp at 1. cbn [plain_index plain_data]. wp_simpl.
  destruct (encrypt_chunk key _ d _) as [c|e| |] eqn:Henc; simpl.
  - unfold wp, ret. split; [done|]. exists (mkChunkMeta (zlen ds) (zlen d) (zlen c)
      (mkNonce (env_rng (w_env w) (w_step w) 24)) (hash_chunk c), c). split.
    + apply sealed_snoc; [done|]. split; [exact Henc|reflexivity].
    + cbn [fst snd]. rewrite !fmap_app. cbn [fmap list_fmap fst snd]. rewrite chunk_map_snoc.
      assert (zlen xs.*2 = zlen ds) as -> by (unfold zlen; rewrite length_fmap; by destruct Hs as [-> _]).
      done.
  - split; [done|]. unfold encrypt_chunk in Henc.
    destruct (aead_encrypt _ _ _ _) as [c|] eqn:Ha; [done|]. injection Henc as <-.
    split; [done|]. destruct (decide (zlen d ≤ aead_max)) as [Hle|]; [|lia].
    eapply aead_encrypt_total in Hle as [c Hc]. by rewrite Hc in Ha.
  - unfold encrypt_chunk in Henc. by destruct (aead_encrypt _ _ _ _).
  - unfold encrypt_chunk in Henc. by destruct (aead_encrypt _ _ _ _).
Qed.
End sealed.

(** ** Opening what was sealed *)
Lemma decrypt_sealed_chunk `{Blake3, AeadLaws} key enc i d x :
  sealed_chunk key (mf_file_id (ef_manifest enc)) i d x →
  ef_chunks enc !! i = Some (mkEncryptedChunk i x.2) →
  decrypt_meta enc key x.1 = Ok (mkPlainChunk i d).
Proof.
  destruct x as [m c]. cbn [fst snd]. intros [Henc Hm] Hc. cbn [fst snd] in *. unfold decrypt_meta.
  rewrite Hm. cbn [cm_index cm_plain_size cm_nonce cm_blake3_hash]. rewrite Hc. simpl.
  rewrite decide_False by (intros Hn; by apply Hn). unfold encrypt_chunk in Henc.
  rewrite ok_or_Ok in Henc. apply aead_decrypt_encrypt in Henc. unfold decrypt_chunk.
  by rewrite Henc.
Qed.

Lemma result_mapM_app {E A B} (f : A → result E B) l1 l2 :
  result_mapM f (l1 ++ l2) =
  result_bind (result_mapM f l1) (λ b1, result_bind (result_mapM f l2) (λ b2, Ok (b1 ++ b2))).
Proof.
  induction l1 as [|a l1 IH]; simpl; [by destruct (result_mapM f l2)|].
  destruct (f a); simpl; [|done..]. rewrite IH. destruct (result_mapM f l1); simpl; [|done..].
  by destruct (result_mapM f l2).
Qed.

Section open.
Context `{Blake3Laws, AeadLaws}.

Lemma lookup_number ds i : number ds !! i = mkPlainChunk (Z.of_nat i) <$> ds !! i.
Proof. unfold number. by rewrite list_lookup_imap. Qed.

Lemma decrypt_sealed_mapM key enc ds xs :
  sealed key (mf_file_id (ef_manifest enc)) ds xs →
  (∀ i x, xs !! i = Some x → ef_chunks enc !! Z.of_nat i = Some (mkEncryptedChunk (Z.of_nat i) x.2)) →
  result_mapM (decrypt_meta enc key) xs.*1 = Ok (number ds).
Proof using All.
  intros [Hlen Hs] Hc. apply result_mapM_ext.
  - unfold number. by rewrite length_fmap, length_imap.
  - intros i m c Hm Hn. rewrite list_lookup_fmap in Hm. rewrite lookup_number in Hn.
    destruct (xs !! i) as [x|] eqn:Hx; [|done]. destruct (ds !! i) as [d|] eqn:Hd; [|done].
    simplify_eq/=. eapply decrypt_sealed_chunk; [by eapply Hs|]. by apply Hc.
Qed.

(** What [encrypt_file] returns: the sealed chunks of the file's content. *)
Definition encrypted_as (key : SymmetricKey) (name : string) (chunk_size : Z) (content : bytes)
    (enc : EncryptedFile) : Prop :=
  ∃ ds xs, concat ds = content ∧ Forall (λ d, 0 < zlen d ≤ chunk_size) ds
    ∧ sealed key (hash_file_id content) ds xs
    ∧ enc = mkEncryptedFile (mkManifest (hash_file_id content) name (zlen content) chunk_size xs.*1)
              (chunk_map xs.*2).

Lemma wp_encrypt_file p key chunk_size w :
  0 < chunk_size →
  wp (encrypt_file p key chunk_size)
    (λ enc w', stepped w w' ∧ ∃ content, file_at (w_fs w) p = Some content
                 ∧ encrypted_as key (file_name p) chunk_size content enc)
    (λ e w', stepped w w' ∧
       ((∃ k, e = FE_Io k ∧ (¬ no_faults w ∨ file_at (w_fs w) p = None))
        ∨ (e = TooManyChunks ∧ ∃ content, file_at (w_fs w) p = Some content ∧ u32_max < zlen content)
        ∨ (e = FE_Crypto Encrypt ∧ aead_max < chunk_size))) w.
Proof using All.
  intros Hsize. unfold encrypt_file. wp_simpl. apply wp_hash_file; [eauto 10|].
  intros content w1 Hf Hst1. wp_simpl. apply wp_metadata; rewrite (stepped_fs _ _ Hst1).
  { intros k w' Hst Hk. split; [by etrans|]. left. exists k. split; [done|].
    destruct Hk as [Hk|[Hk _]]; [left; by rewrite (stepped_no_faults w w1)|].
    right. unfold file_at. by rewrite Hk. }
  intros n w2 Hn Hst2. assert (n = File content) as ->.
  { unfold file_at in Hf. destruct Hn as [Hn|(_ & _ & Hn)]; rewrite Hn in Hf; [|done].
    destruct n; naive_solver. }
  assert (stepped w w2) as Hst02 by (by etrans). wp_simpl.
  eapply wp_mono; [by apply wp_read_file_chunks|..]; rewrite (stepped_fs _ _ Hst02).
  2: { simpl. intros e w' [Hst He]. split; [by etrans|]. setoid_rewrite <- (stepped_no_faults w w2 Hst02) in He.
       naive_solver. }
  simpl. intros chunks w3 (content' & Hf' & (ds & -> & Hcat & Hds & _) & Hst3). simplify_eq. unfold pieces_ok in Hds.
  assert (stepped w w3) as Hst03 by (by etrans). wp_simpl.
  eapply wp_mono.
  - apply (wp_mfold _ (λ done st w', stepped w w' ∧ ∃ ds1 xs, done = number ds1
        ∧ ds1 `prefix_of` ds ∧ sealed key (hash_file_id (concat ds)) ds1 xs
        ∧ st = (chunk_map xs.*2, xs.*1)) (number ds) _
        (λ e w', stepped w w' ∧ e = FE_Crypto Encrypt ∧ aead_max < chunk_size)).
    + split; [done|]. exists [], []. split_and!; [done|apply prefix_nil| |done]. by split.
    + intros done_ c rest st w4 Hn' (Hst4 & ds1 & xs & -> & [ds2 Hpre] & Hs & ->).
      assert (∃ d ds3, ds2 = d :: ds3 ∧ c = mkPlainChunk (zlen ds1) d) as (d & ds3 & -> & ->).
      { assert (number ds !! length ds1 = Some c) as Hc.
        { rewrite Hn'. apply list_lookup_middle. unfold number. by rewrite length_imap. }
        rewrite lookup_number, Hpre, lookup_app_r, Nat.sub_diag in Hc by lia.
        destruct ds2 as [|d ds3]; [done|]. simplify_eq/=. eauto. }
      eapply wp_mono; [by apply wp_encrypt_file_round|..].
      * simpl. intros st' w' (Hst' & x & Hs' & ->). split; [by etrans|]. exists (ds1 ++ [d]), (xs ++ [x]).
        split_and!; [by rewrite number_app| |done|done]. exists ds3. by rewrite <- app_assoc.
      * simpl. intros e w' (Hst' & -> & Hbig). split; [by etrans|]. split; [done|].
        rewrite Forall_forall in Hds. destruct (Hds d) as [_ ?]; [|lia]. rewrite Hpre.
        apply elem_of_app. right. left.
  - simpl. intros st w' (Hst & ds1 & xs & Hn' & Hpre & Hs & ->). wp_simpl. split; [done|].
    exists (concat ds). split; [done|]. exists ds, xs. cbn [fst snd]. cbn [node_len].
    assert (ds1 = ds) as -> by (rewrite <- (number_data ds1), <- Hn'; apply number_data).
    done.
  - simpl. intros e w' (? & -> & ?). split; [done|]. by right; right.
Qed.

(** A file encrypted as above decrypts to the content it was made from. *)
Lemma decrypt_encrypted key name chunk_size content enc :
  encrypted_as key name chunk_size content enc → decrypt_to_bytes enc key = Ok content.
Proof using All.
  intros (ds & xs & Hcat & _ & Hs & ->). unfold decrypt_to_bytes. cbn [ef_manifest mf_chunks].
  rewrite (decrypt_sealed_mapM key _ ds xs); [|done|].
  - simpl. rewrite (join_chunks_number ds) by done. rewrite Hcat. by rewrite decide_False by auto.
  - intros i x Hx. cbn [ef_chunks]. rewrite lookup_chunk_map, list_lookup_fmap, Hx. done.
Qed.
End open.

(** ** A changed ciphertext is refused *)
Lemma decrypt_tampered `{Blake3Laws, AeadLaws} key name chunk_size content enc i x data :
  encrypted_as key name chunk_size content enc →
  ef_chunks enc !! i = Some x → data ≠ ec_data x →
  decrypt_to_bytes (mkEncryptedFile (ef_manifest enc)
                      (<[i := mkEncryptedChunk i data]> (ef_chunks enc))) key
  = Err (ChunkHashMismatch i) ∨ blake3_collision.
Proof.
  intros (ds & xs & _ & _ & [Hlen Hs] & ->) Hx Hne. cbn [ef_chunks ef_manifest] in *.
  destruct (decide (i < 0)) as [|Hi]; [by rewrite lookup_chunk_map_neg in Hx|].
  assert (∃ n, i = Z.of_nat n) as [n ->] by (exists (Z.to_nat i); lia).
  clear Hi. rename n into i. rewrite lookup_chunk_map, list_lookup_fmap in Hx.
  destruct (xs !! i) as [[m c]|] eqn:Hxi; [|done]. simplify_eq/=.
  destruct (decide (blake3_hash data = blake3_hash c)) as [Hcol|Hnc].
  { right. by exists data, c. }
  left. unfold decrypt_to_bytes. cbn [ef_manifest mf_chunks].
  assert (xs.*1 = (take i xs).*1 ++ m :: (drop (S i) xs).*1) as ->.
  { rewrite <- (take_drop_middle xs i (m, c)) at 1 by done. by rewrite fmap_app. }
  apply lookup_lt_Some in Hxi as Hlt.
  rewrite result_mapM_app.
  rewrite (decrypt_sealed_mapM key _ (take i ds) (take i xs)).
  - simpl. assert (cm_index m = Z.of_nat i ∧ cm_blake3_hash m = hash_chunk c) as [Hm Hh].
    { destruct (lookup_lt_is_Some_2 ds i) as [d Hd]; [lia|].
      destruct (Hs i d (m, c)) as [_ Hm]; [done|done|]. cbn [fst snd] in Hm. by rewrite Hm. }
    unfold decrypt_meta at 1. cbn [ef_chunks]. rewrite Hm, lookup_insert_eq. simpl.
    rewrite Hh. rewrite decide_True; [done|]. intros Heq. apply Hnc. by injection Heq.
  - split; [rewrite !length_take; lia|]. intros j d y Hd Hy.
    apply lookup_take_Some in Hd as [Hd _]. apply lookup_take_Some in Hy as [Hy _]. by apply (Hs j).
  - intros j y Hy. cbn [ef_chunks]. apply lookup_take_Some in Hy as [Hy Hj].
    rewrite lookup_insert_ne by lia. by rewrite lookup_chunk_map, list_lookup_fmap, Hy.
Qed.

(** * The debug workspace *)
Definition EncryptedFile_wf (enc : EncryptedFile) : Prop :=
  (∀ meta, meta ∈ mf_chunks (ef_manifest enc) → 0 ≤ cm_index meta ∧
     ∃ c, ef_chunks enc !! cm_index meta = Some c ∧ zlen (ec_data c) = cm_encrypted_size meta)
  ∧ (∀ i c, ef_chunks enc !! i = Some c →
       ec_index c = i ∧ ∃ meta, meta ∈ mf_chunks (ef_manifest enc) ∧ cm_index meta = i).

Lemma debug_chunk_path_inj root i j :
  0 ≤ i → 0 ≤ j → debug_chunk_path root i = debug_chunk_path root j → i = j.
Proof.
  unfold debug_chunk_path. intros Hi Hj Heq. apply app_inv_head in Heq. injection Heq as Heq.
  apply str_app_inj_r in Heq. by apply dec_pad6_inj.
Qed.

Lemma debug_chunk_manifest root i : debug_chunk_path root i ≠ debug_manifest_path root.
Proof.
  intros Heq%(f_equal length). unfold debug_chunk_path, debug_chunks_dir, debug_manifest_path in Heq.
  rewrite !length_app in Heq. simpl in Heq. lia.
Qed.

Lemma debug_chunk_not_ancestor root i : debug_chunk_path root i ∉ ancestors (debug_chunks_dir root).
Proof.
  intros [_ [k Hk]]%elem_of_ancestors. apply (f_equal length) in Hk. revert Hk.
  unfold debug_chunk_path. rewrite !length_app. simpl. lia.
Qed.

Lemma debug_manifest_not_ancestor root : debug_manifest_path root ∉ ancestors (debug_chunks_dir root).
Proof.
  intros [_ [k Hk]]%elem_of_ancestors. unfold debug_manifest_path, debug_chunks_dir in Hk.
  rewrite <- app_assoc in Hk. apply app_inv_head in Hk. by destruct k.
Qed.

(** Nothing but what lies at or below [root] differs. *)
Definition only_below (root : path) (m m' : fs) : Prop :=
  ∀ q, ¬ root `prefix_of` q → file_at m' q = file_at m q.

Global Instance only_below_preorder root : PreOrder (only_below root).
Proof. split; [by intros m q|]. intros m1 m2 m3 H1 H2 q Hq. by rewrite H2, H1. Qed.

Lemma only_below_insert root m p d : root `prefix_of` p → only_below root m (<[p := File d]> m).
Proof. intros Hp q Hq. apply file_at_insert_ne. by intros ->. Qed.

Lemma only_below_mkdirs root m ps : Forall (λ q, file_at m q = None) ps → only_below root m (mkdirs m ps).
Proof. intros Hps q _. by apply file_at_mkdirs. Qed.

Lemma only_below_partial root m m' p d :
  root `prefix_of` p → (m' = m ∨ ∃ n, m' = <[p := File (take n d)]> m) → only_below root m m'.
Proof. intros Hp [->|[n ->]]; [done|]. by apply only_below_insert. Qed.

Lemma below_chunk root i : root `prefix_of` debug_chunk_path root i.
Proof. unfold debug_chunk_path, debug_chunks_dir. rewrite <- app_assoc. by apply prefix_app_r. Qed.
Lemma below_manifest root : root `prefix_of` debug_manifest_path root.
Proof. by apply prefix_app_r. Qed.

(** The file system a workspace can be written to. *)
Definition chunks_free (m : fs) (root : path) : Prop := ∀ i, m !! debug_chunk_path root i ≠ Some Dir.
Definition workspace_free (m : fs) (root : path) : Prop :=
  dirs_free m (debug_chunks_dir root) ∧ m !! debug_manifest_path root ≠ Some Dir ∧ chunks_free m root.

(** The chunk files of the workspace after [metas] have been written. *)
Definition workspace_holds (enc : EncryptedFile) (root : path) (mb : bytes) (metas : list ChunkMeta)
    (m : fs) : Prop :=
  file_at m (debug_manifest_path root) = Some mb ∧ is_dir_in m (debug_chunks_dir root) = true
  ∧ (∀ meta c, meta ∈ metas → ef_chunks enc !! cm_index meta = Some c →
       file_at m (debug_chunk_path root (cm_index meta)) = Some (ec_data c)).

(** Writing adds files where no directory is, and the directories of the workspace. *)
Definition grown (root : path) (m m' : fs) : Prop :=
  only_below root m m' ∧ (∀ q, is_dir_in m q = true → is_dir_in m' q = true)
  ∧ (∀ q, m' !! q = Some Dir → m !! q = Some Dir ∨ q ∈ ancestors (debug_chunks_dir root)).

Global Instance grown_preorder root : PreOrder (grown root).
Proof.
  split; [intros m; split_and!; [done|done|intros q ?; by left]|]. intros m1 m2 m3 (Ho1 & Hd1 & Hb1) (Ho2 & Hd2 & Hb2).
  split_and!; [by etrans|by auto|]. intros q [Hq|?]%Hb2; [by apply Hb1|by right].
Qed.

Lemma grown_insert root m p d : root `prefix_of` p → m !! p ≠ Some Dir → grown root m (<[p := File d]> m).
Proof.
  intros Hp Hd. split_and!; [by apply only_below_insert|by intros; apply is_dir_in_insert_file|].
  intros q. rewrite lookup_insert. case_decide; [done|by left].
Qed.

Lemma grown_mkdirs root m :
  Forall (λ q, file_at m q = None) (ancestors (debug_chunks_dir root)) →
  grown root m (mkdirs m (ancestors (debug_chunks_dir root))).
Proof.
  intros Hps. split_and!; [by apply only_below_mkdirs| |].
  - intros q. unfold is_dir_in. rewrite !bool_decide_eq_true, lookup_mkdirs. intros [->|Hq]; [by left|right]. by case_decide.
  - intros q. rewrite lookup_mkdirs. by case_decide; [right|left].
Qed.

Lemma grown_chunks_free root m m' : grown root m m' → chunks_free m root → chunks_free m' root.
Proof. intros (_ & _ & Hg) Hcf i [Hd|Hd]%Hg; [by apply (Hcf i)|by apply debug_chunk_not_ancestor in Hd]. Qed.

Lemma is_dir_in_mkdirs_root m root : is_dir_in (mkdirs m (ancestors (debug_chunks_dir root))) root = true.
Proof.
  apply bool_decide_eq_true. destruct (decide (root = [])); [by left|right].
  rewrite lookup_mkdirs, decide_True; [done|]. apply elem_of_ancestors. split; [done|]. by eexists.
Qed.

Section workspace_spec.
Context `{BincodeLaws Manifest} (enc : EncryptedFile) (root : path) (mb : bytes).
Context (Hwf : EncryptedFile_wf enc) (Hmb : Manifest_to_bytes (ef_manifest enc) = Some mb).

Lemma wp_write_debug_chunk done_ meta m w :
  w_fs w = m → (∀ x, x ∈ meta :: done_ → x ∈ mf_chunks (ef_manifest enc)) →
  workspace_holds enc root mb done_ m →
  wp (write_debug_chunk enc root tt meta)
    (λ _ w', ∃ m', fs_step w m' w' ∧ workspace_holds enc root mb (done_ ++ [meta]) m' ∧ grown root m m')
    (λ _ w', ∃ m', fs_step w m' w' ∧ only_below root m m' ∧ (no_faults w → ¬ chunks_free m root)) w.
Proof using Hwf.
  intros Hw Hin (Hm & Hdir & Hc). unfold write_debug_chunk. wp_simpl.
  destruct (proj1 Hwf meta) as (Hidx & c & Hmeta & _); [apply Hin; left|]. rewrite Hmeta. cbn [ok_or].
  wp_simpl. apply wp_fs_write; rewrite Hw.
  { intros k m' w' Hst Hm' Hnc. exists m'. split_and!; [done|by eapply only_below_partial, Hm'; apply below_chunk|].
    intros Hnf Hfree. apply Hnc; [done|]. apply can_create_snoc; [apply Hfree|done]. }
  intros w' (_ & Hnd & _) Hst. eexists. split; [done|]. split; [|by apply grown_insert; [apply below_chunk|]].
  split_and!.
  - rewrite file_at_insert_ne; [done|]. apply debug_chunk_manifest.
  - apply is_dir_in_insert_file; auto.
  - intros meta' c' Hin' Hc'. rewrite file_at_insert. case_decide as Heq.
    + apply debug_chunk_path_inj in Heq; [congruence|done|].
      apply (proj1 Hwf meta'). apply Hin. apply elem_of_app in Hin' as [?|Hin']; [by right|].
      apply list_elem_of_singleton in Hin' as ->. left.
    + apply elem_of_app in Hin' as [?|Hin']; [by eapply Hc|].
      apply list_elem_of_singleton in Hin' as ->. done.
Qed.

Lemma wp_write_debug_workspace w :
  wp (write_debug_workspace enc root)
    (λ _ w', ∃ m', fs_step w m' w' ∧ workspace_holds enc root mb (mf_chunks (ef_manifest enc)) m'
       ∧ grown root (w_fs w) m')
    (λ _ w', ∃ m', fs_step w m' w' ∧ only_below root (w_fs w) m'
       ∧ (no_faults w → ¬ workspace_free (w_fs w) root)) w.
Proof using Hwf Hmb.
  unfold write_debug_workspace. wp_simpl. apply wp_create_dir_all.
  { intros k ps w1 Hst _ Hps Hn. eexists. split_and!; [done|by apply only_below_mkdirs|].
    intros Hnf (Hfree & _). by apply Hn. }
  intros w1 [_ Hfree] Hst1. wp_simpl. rewrite Hmb. cbn [ok_or]. wp_simpl. pose proof (grown_mkdirs root _ Hfree) as Hg1.
  set (m1 := mkdirs (w_fs w) (ancestors (debug_chunks_dir root))) in *.
  assert (is_dir_in m1 root = true) as Hroot by apply is_dir_in_mkdirs_root.
  assert (is_dir_in m1 (debug_chunks_dir root) = true) as Hdir by apply is_dir_in_mkdirs_ancestors.
  pose proof (fs_step_no_faults _ _ _ Hst1) as Hnf1.
  apply wp_fs_write; rewrite (fs_step_fs _ _ _ Hst1).
  { intros k m' w2 Hst2 Hm' Hnc. exists m'. split_and!; [by eapply fs_step_trans| |].
    - etrans; [apply Hg1|]. eapply only_below_partial, Hm'. apply below_manifest.
    - intros Hnf (_ & Hm & _). apply Hnc; [by apply Hnf1|]. apply can_create_snoc; [|done].
      intros Hd. apply Hg1 in Hd as [?|Hd]; [done|]. by apply debug_manifest_not_ancestor in Hd. }
  intros w2 (_ & Hmd & _) Hst2. pose proof (grown_insert root m1 _ mb (below_manifest root) Hmd) as Hg2.
  set (m2 := <[debug_manifest_path root := File mb]> m1) in *.
  assert (fs_step w m2 w2) as Hst02 by (by eapply fs_step_trans).
  assert (grown root (w_fs w) m2) as Hg02 by (by etrans).
  eapply wp_mono; [apply (wp_mfold _ (λ done (_ : unit) w', ∃ m', fs_step w m' w' ∧ workspace_holds enc root mb done m'
             ∧ grown root (w_fs w) m')
           (mf_chunks (ef_manifest enc)) _ (λ _ w', ∃ m', fs_step w m' w' ∧ only_below root (w_fs w) m'
             ∧ (no_faults w → ¬ chunks_free (w_fs w) root)))| |].
  - exists m2. split_and!; [done| |done..]. split_and!; [apply file_at_insert_eq|by apply is_dir_in_insert_file|].
    intros meta c Hin. by apply elem_of_nil in Hin.
  - intros done_ meta rest [] w3 Hl (m3 & Hst3 & Hm3 & Hg3).
    eapply wp_mono; [eapply (wp_write_debug_chunk done_ meta m3); [by eapply fs_step_fs| |done]|..].
    + intros x Hx. rewrite Hl, cons_middle, app_assoc. apply elem_of_app. left.
      apply elem_of_app. apply elem_of_cons in Hx as [->|?]; [right; left|by left].
    + simpl. intros _ w' (m' & Hst' & Hm' & Hg'). exists m'. split_and!; [fs_chain|done|by etrans].
    + simpl. intros _ w' (m' & Hst' & Ho' & Hcf'). exists m'. split_and!; [fs_chain|etrans; [apply Hg3|done]|].
      intros Hnf Hcf. apply Hcf'; [by apply (fs_step_no_faults _ _ _ Hst3)|]. by eapply grown_chunks_free.
  - simpl. intros _ w' (m' & ? & ? & ?). by exists m'.
  - simpl. intros _ w' (m' & ? & ? & Hn). exists m'. split_and!; [done..|]. intros Hnf (_ & _ & Hcf). by apply Hn.
Qed.

(** Reading back a workspace that holds [enc] gives [enc]. *)
Lemma wp_read_debug_workspace w :
  workspace_holds enc root mb (mf_chunks (ef_manifest enc)) (w_fs w) →
  wp (read_debug_workspace root) (λ enc' w', stepped w w' ∧ enc' = enc)
    (λ _ w', stepped w w' ∧ ¬ no_faults w) w.
Proof using All.
  intros (Hm & _ & Hc). unfold read_debug_workspace. wp_simpl.
  apply wp_read_file; [rewrite Hm; naive_solver|]. intros d w1 Hd Hst1. simplify_eq. wp_simpl.
  unfold Manifest_to_bytes in Hmb. unfold Manifest_from_bytes.
  rewrite (decode_exact_encode _ (ef_manifest enc)) by done. simpl. wp_simpl.
  eapply wp_mono.
  - apply (wp_mfold _ (λ done chunks w', stepped w w' ∧
      ∀ k, chunks !! k = if decide (k ∈ cm_index <$> done) then ef_chunks enc !! k else None)
      _ _ (λ _ w', stepped w w' ∧ ¬ no_faults w)).
    + split; [done|]. intros k. by rewrite decide_False by (apply not_elem_of_nil).
    + intros done_ meta rest chunks w2 Hl (Hst2 & Hchunks). unfold read_debug_chunk. wp_simpl.
      assert (meta ∈ mf_chunks (ef_manifest enc)) as Hin
        by (rewrite Hl; apply elem_of_app; right; left).
      destruct (proj1 Hwf meta Hin) as (_ & c & Hcm & Hsz). specialize (Hc meta c Hin Hcm).
      apply wp_read_file; rewrite (stepped_fs _ _ Hst2).
      { intros k w3 Hst3 [Hnf|Hn]; [|congruence]. split; [by etrans|].
        by rewrite (stepped_no_faults _ _ Hst2). }
      intros d w3 Hd' Hst3. simplify_eq. rewrite decide_False by lia. wp_simpl. split; [by etrans|].
      intros k. rewrite fmap_app, lookup_insert. case_decide as Hk.
      * subst k. rewrite decide_True by (apply elem_of_app; right; left).
        rewrite Hcm. destruct (proj2 Hwf _ _ Hcm) as [<- _]. by destruct c.
      * rewrite Hchunks. apply decide_ext. rewrite elem_of_app. simpl.
        rewrite list_elem_of_singleton. naive_solver.
  - simpl. intros chunks w' (Hst & Hch). wp_simpl. split; [done|].
    destruct enc as [mf cs]. cbn [ef_manifest ef_chunks] in *. f_equal. apply map_eq. intros k.
    rewrite Hch. case_decide as Hk; [done|]. destruct (cs !! k) as [c|] eqn:Hck; [|done].
    destruct (proj2 Hwf k c Hck) as (_ & meta & Hin & <-). exfalso. apply Hk.
    apply list_elem_of_fmap. eauto.
  - done.
Qed.
End workspace_spec.

Lemma encrypted_as_wf `{Blake3, Aead} key name chunk_size content enc :
  encrypted_as key name chunk_size content enc → EncryptedFile_wf enc.
Proof.
  intros (ds & xs & _ & _ & [Hlen Hs] & ->). split; cbn [ef_manifest mf_chunks ef_chunks].
  - intros meta Hin. apply list_elem_of_lookup in Hin as [i Hi]. rewrite list_lookup_fmap in Hi.
    destruct (xs !! i) as [[m c]|] eqn:Hx; [|done]. simplify_eq/=.
    destruct (lookup_lt_is_Some_2 ds i) as [d Hd]; [apply lookup_lt_Some in Hx; lia|].
    destruct (Hs i d (meta, c)) as [_ Hm]; [done|done|]. cbn [fst snd] in Hm.
    rewrite Hm. cbn [cm_index cm_encrypted_size]. split; [lia|].
    exists (mkEncryptedChunk (Z.of_nat i) c). by rewrite lookup_chunk_map, list_lookup_fmap, Hx.
  - intros i c Hc. destruct (decide (i < 0)); [by rewrite lookup_chunk_map_neg in Hc|].
    assert (∃ n, i = Z.of_nat n) as [n' ->] by (exists (Z.to_nat i); lia).
    rewrite lookup_chunk_map, list_lookup_fmap in Hc.
    destruct (xs !! n') as [[m c']|] eqn:Hx; [|done]. simplify_eq/=. split; [done|].
    destruct (lookup_lt_is_Some_2 ds n') as [d Hd]; [apply lookup_lt_Some in Hx; lia|].
    destruct (Hs n' d (m, c')) as [_ Hm]; [done|done|]. exists m. cbn [fst snd] in Hm.
    rewrite Hm at 2. split; [|done]. apply list_elem_of_fmap. exists (m, c'). split; [done|].
    by eapply list_elem_of_lookup_2.
Qed.

(** * Claims *)

(** Without system faults, encrypting an existing file of at most [u32::MAX]
    bytes in chunks the cipher accepts succeeds without changing anything, and
    decrypting the result with the same key gives the file's content. *)
Theorem encrypt_decrypt_roundtrip `{Blake3Laws, AeadLaws} p key chunk_size w content :
  0 < chunk_size ≤ aead_max → no_faults w →
  file_at (w_fs w) p = Some content → zlen content ≤ u32_max →
  ∃ enc w', encrypt_file p key chunk_size w = (Ok enc, w') ∧ stepped w w'
    ∧ decrypt_to_bytes enc key = Ok content.
Proof.
  intros Hsize Hnf Hf Hmax.
  destruct (wp_run _ _ _ _ (wp_encrypt_file p key chunk_size w ltac:(lia)))
    as [(enc & w' & Hrun & Hst & c & Hc & Henc)|(e & w' & Hrun & Hst & He)].
  - exists enc, w'. simplify_eq. split_and!; [done..|]. by eapply decrypt_encrypted.
  - exfalso. destruct He as [(k & _ & [?|?])|[(_ & c & ? & ?)|[_ ?]]]; [done|congruence| |lia].
    simplify_eq. lia.
Qed.


(** Whatever encrypted file and key it is given, [decrypt_to_bytes] returns
    only bytes whose hash is the manifest's file id, assembled in index order
    from chunks that were present, matched their recorded hash and decrypted
    under their own index and size. *)
Theorem decrypt_to_bytes_sound `{Blake3, Aead} enc key out :
  decrypt_to_bytes enc key = Ok out →
  hash_file_id out = mf_file_id (ef_manifest enc)
  ∧ ∃ plains, out = join_chunks plains ∧
      Forall2 (λ meta plain, plain_index plain = cm_index meta ∧ ∃ c,
          ef_chunks enc !! cm_index meta = Some c ∧ hash_chunk (ec_data c) = cm_blake3_hash meta
          ∧ decrypt_chunk key (cm_nonce meta) (ec_data c)
              (build_chunk_aad (mf_file_id (ef_manifest enc)) (cm_index meta) (cm_plain_size meta))
            = Ok (plain_data plain))
        (mf_chunks (ef_manifest enc)) plains.
Proof.
  unfold decrypt_to_bytes. rewrite result_bind_Ok. intros (plains & Hm & Hout). cbv zeta in Hout.
  case_decide as Hh; [done|]. simplify_eq. split; [exact Hh|].
  exists plains. split; [done|]. apply result_mapM_Ok in Hm. eapply Forall2_impl; [exact Hm|].
  intros meta plain Hd. unfold decrypt_meta in Hd.
  destruct (ef_chunks enc !! cm_index meta) as [c|] eqn:Hc; [|done]. simpl in Hd.
  case_decide as Hhash; [done|].
  destruct (decrypt_chunk key _ _ _) as [d| | |] eqn:Hdec; simplify_eq/=. split; [done|].
  exists c. done.
Qed.

(** Writing an encrypted file to a debug workspace and reading the workspace
    back gives the same encrypted file, when no system fault occurs and nothing
    in the file system is in the way. *)
Theorem debug_workspace_roundtrip `{BincodeLaws Manifest} enc root mb w :
  no_faults w → workspace_free (w_fs w) root → EncryptedFile_wf enc →
  Manifest_to_bytes (ef_manifest enc) = Some mb →
  ∃ w1 w2, write_debug_workspace enc root w = (Ok tt, w1)
    ∧ read_debug_workspace root w1 = (Ok enc, w2).
Proof.
  intros Hnf Hfree Hwf Hmb.
  destruct (wp_run _ _ _ _ (wp_write_debug_workspace enc root mb Hwf Hmb w))
    as [([] & w1 & Hrun & m' & Hst & Hholds & _)|(? & ? & _ & ? & _ & _ & Hn)]; [|by destruct (Hn Hnf)].
  exists w1. rewrite <- (fs_step_fs _ _ _ Hst) in Hholds.
  apply (fs_step_no_faults _ _ _ Hst) in Hnf.
  destruct (wp_run _ _ _ _ (wp_read_debug_workspace enc root mb Hwf Hmb w1 Hholds))
    as [(enc' & w2 & Hrun2 & _ & ->)|(? & ? & _ & _ & Hn)]; [|by destruct Hn].
  by exists w2.
Qed.

Import Toy Sample.
Module StorageSample.
Definition key : SymmetricKey := CryptoSample.key Byte.x05.
Definition world : World := CryptoSample.world {[ ["f"%string] := File (str_bytes "chunk me") ]} [].
Definition nonce : Nonce := mkNonce (array_repeat 24 Byte.x02).
Definition cipher : bytes :=
  default [] (aead_encrypt (symmetric_key_bytes key) (nonce_bytes nonce) (str_bytes "abcd")
                (build_chunk_aad (hash_file_id (str_bytes "abcd")) 0 4)).
Definition enc : EncryptedFile :=
  mkEncryptedFile
    (mkManifest (hash_file_id (str_bytes "abcd")) "f" 4 4
       [mkChunkMeta 0 4 (zlen cipher) nonce (hash_chunk cipher)])
    {[ 0 := mkEncryptedChunk 0 cipher ]}.
Definition run : result FileError EncryptedFile * World := encrypt_file ["f"%string] key 4 world.
Definition run_enc : EncryptedFile := match run.1 with Ok e => e | _ => enc end.
Definition run_chunk : EncryptedChunk := default (mkEncryptedChunk 0 []) (ef_chunks run_enc !! 1).

Lemma enc_wf : EncryptedFile_wf enc.
Proof.
  split.
  - intros meta Hin. apply list_elem_of_singleton in Hin as ->. split; [done|]. by eexists.
  - intros i c. unfold enc. cbn [ef_chunks]. rewrite lookup_singleton_Some. intros [<- <-].
    split; [done|]. eexists. split; [left|done].
Qed.
End StorageSample.

Lemma encrypt_decrypt_roundtrip_witness :
  ∃ enc w', encrypt_file ["f"%string] StorageSample.key 4 StorageSample.world = (Ok enc, w')
    ∧ stepped StorageSample.world w' ∧ decrypt_to_bytes enc StorageSample.key = Ok (str_bytes "chunk me").
Proof. apply encrypt_decrypt_roundtrip; [by_decide | by intros ? | reflexivity | by_decide]. Defined.


Lemma decrypt_to_bytes_sound_witness :
  hash_file_id (str_bytes "abcd") = mf_file_id (ef_manifest StorageSample.enc).
Proof.
  apply (decrypt_to_bytes_sound StorageSample.enc StorageSample.key (str_bytes "abcd")).
  vm_compute. reflexivity.
Defined.

Lemma debug_workspace_roundtrip_witness :
  ∃ w1 w2, write_debug_workspace StorageSample.enc ["ws"%string] StorageSample.world = (Ok tt, w1)
    ∧ read_debug_workspace ["ws"%string] w1 = (Ok StorageSample.enc, w2).
Proof.
  apply (debug_workspace_roundtrip StorageSample.enc ["ws"%string]
           (Toy.pos_code (encode (ef_manifest StorageSample.enc)))).
  - by intros ?.
  - split_and!; [by_decide | by_decide |]. intros i. unfold StorageSample.world. cbn [w_fs CryptoSample.world].
    rewrite lookup_singleton_ne; [done|]. intros Heq%(f_equal length). discriminate Heq.
  - apply StorageSample.enc_wf.
  - reflexivity.
Defined.
