(* ===== verification/State.v ===== *)
(** [state/model.rs] and [state/codec.rs]: the per-share records kept on disk.

    The completed chunks are a sorted vector searched by binary search; the
    abstract view is the finite set of its elements. On disk they are a bitmap
    behind a magic prefix; files without the prefix are decoded in the older
    format. *)
From stdpp Require Import base tactics list countable strings gmap sorting.
From Stdlib Require Import ZArith Lia.
From S2P Require Import Prelude Bytes World Extern Crypto Descriptor.
Local Open Scope Z_scope.
Local Open Scope etle_scope.

(** * [state/model.rs] *)
Inductive ShareMode := Seeding | Downloading | Completed | Paused.
Global Instance ShareMode_eq_dec : EqDecision ShareMode.
Proof. solve_decision. Defined.
Global Instance ShareMode_countable : Countable ShareMode.
Proof.
  refine (inj_countable'
    (λ m, match m with Seeding => 0%nat | Downloading => 1%nat | Completed => 2%nat | Paused => 3%nat end)
    (λ n, match n with 0%nat => Seeding | 1%nat => Downloading | 2%nat => Completed | _ => Paused end) _).
  by intros [].
Defined.

Record EtleSecret := mkEtleSecret { es_share_id : ShareId; es_file_key : SymmetricKey }.
Global Instance EtleSecret_eq_dec : EqDecision EtleSecret.
Proof. solve_decision. Defined.
Global Instance EtleSecret_countable : Countable EtleSecret.
Proof.
  refine (inj_countable' (λ s, (es_share_id s, es_file_key s)) (λ '(a, b), mkEtleSecret a b) _).
  by intros [].
Defined.
Definition EtleSecret_new (share_id : ShareId) (file_key : SymmetricKey) : EtleSecret :=
  mkEtleSecret share_id file_key.
Definition EtleSecret_to_bytes `{Bincode EtleSecret} (s : EtleSecret) : option bytes := bincode_encode s.
Definition EtleSecret_from_bytes `{Bincode EtleSecret} (b : bytes) : result decode_error EtleSecret :=
  decode_exact "secret" b.

(** [Vec::dedup]: consecutive duplicates. *)
Fixpoint dedup (l : list Z) : list Z :=
  match l with
  | [] => []
  | x :: l' =>
      match l' with
      | [] => [x]
      | y :: _ => if decide (x = y) then dedup l' else x :: dedup l'
      end
  end.

Definition normalize_chunk_list (chunks : list Z) : list Z := dedup (sort_by Z.leb chunks).

(** [slice::binary_search]: the position of a match, or where to insert. *)
Fixpoint binary_search_base (fuel : nat) (l : list Z) (x : Z) (base size : nat) : nat :=
  match fuel with
  | O => base
  | S fuel =>
      if decide (size ≤ 1)%nat then base
      else
        let half := (size / 2)%nat in
        let mid := (base + half)%nat in
        let base := if decide (x < default 0 (l !! mid)) then base else mid in
        binary_search_base fuel l x base (size - half)
  end.
Definition binary_search (l : list Z) (x : Z) : nat + nat :=
  match l with
  | [] => inr 0%nat
  | _ =>
      let base := binary_search_base (length l) l x 0 (length l) in
      let y := default 0 (l !! base) in
      if decide (y = x) then inl base
      else inr (if decide (y < x) then S base else base)
  end.

(** [Vec::insert] *)
Definition vec_insert (l : list Z) (position : nat) (x : Z) : list Z :=
  take position l ++ x :: drop position l.

Record DownloadProgress := mkDownloadProgress {
  dp_share_id : ShareId;
  dp_completed_chunks : list Z;
}.
Global Instance DownloadProgress_eq_dec : EqDecision DownloadProgress.
Proof. solve_decision. Defined.
Global Instance DownloadProgress_countable : Countable DownloadProgress.
Proof.
  refine (inj_countable' (λ s, (dp_share_id s, dp_completed_chunks s))
            (λ '(a, b), mkDownloadProgress a b) _). by intros [].
Defined.

Definition DownloadProgress_new (share_id : ShareId) (completed_chunks : list Z) : DownloadProgress :=
  mkDownloadProgress share_id (normalize_chunk_list completed_chunks).
Definition DownloadProgress_empty (share_id : ShareId) : DownloadProgress :=
  DownloadProgress_new share_id [].
Definition mark_completed (p : DownloadProgress) (index : Z) : DownloadProgress :=
  match binary_search (dp_completed_chunks p) index with
  | inl _ => p
  | inr position => mkDownloadProgress (dp_share_id p) (vec_insert (dp_completed_chunks p) position index)
  end.
Definition has_chunk (p : DownloadProgress) (index : Z) : bool :=
  match binary_search (dp_completed_chunks p) index with inl _ => true | inr _ => false end.
Definition is_complete (p : DownloadProgress) (total_chunks : Z) : bool :=
  bool_decide (zlen (dp_completed_chunks p) = total_chunks).

Record ShareState := mkShareState {
  ss_share_id : ShareId;
  ss_mode : ShareMode;
  ss_output_dir : option path;
  ss_completed_chunks : list Z;
}.
Global Instance ShareState_eq_dec : EqDecision ShareState.
Proof. solve_decision. Defined.
Global Instance ShareState_countable : Countable ShareState.
Proof.
  refine (inj_countable' (λ s, (ss_share_id s, ss_mode s, ss_output_dir s, ss_completed_chunks s))
            (λ '(a, b, c, d), mkShareState a b c d) _). by intros [].
Defined.
Definition ShareState_new (share_id : ShareId) (mode : ShareMode) (output_dir : option path)
    (completed_chunks : list Z) : ShareState :=
  mkShareState share_id mode output_dir (normalize_chunk_list completed_chunks).
Definition from_progress (mode : ShareMode) (output_dir : option path) (progress : DownloadProgress)
    : ShareState :=
  ShareState_new (dp_share_id progress) mode output_dir (dp_completed_chunks progress).

(** * [state/codec.rs] *)
Definition COMPACT_PROGRESS_MAGIC : bytes := str_bytes "ETLEPRG2".
Definition COMPACT_STATE_MAGIC : bytes := str_bytes "ETLESTA2".

(** [bitmap[index / 8] |= 1 << (index % 8)]; out of range it would panic. *)
Definition set_bit (bitmap : bytes) (index : Z) : result unit bytes :=
  let k := Z.to_nat (index / 8) in
  match bitmap !! k with
  | Some b => Ok (<[k := byte_or b (byte_shl Byte.x01 (index mod 8))]> bitmap)
  | None => Panic
  end.

Definition list_max (l : list Z) : option Z :=
  match l with [] => None | x :: l => Some (foldl Z.max x l) end.

Definition encode_completed_bitmap (completed_chunks : list Z) : result unit bytes :=
  match list_max completed_chunks with
  | None => Ok []
  | Some max_index =>
      let bitmap := replicate (Z.to_nat (max_index / 8 + 1)) Byte.x00 in
      foldl (λ r index, result_bind r (λ bitmap, set_bit bitmap index)) (Ok bitmap) completed_chunks
  end.

Definition decode_bitmap_byte (byte_index : nat) (b : byte) : list Z :=
  if decide (b = Byte.x00) then []
  else omap (λ bit, if decide (byte_and b (byte_shl Byte.x01 bit) = Byte.x00) then None
                    else Some (as_u32 (Z.of_nat byte_index * 8 + bit))) (seqZ 0 8).
Definition decode_completed_bitmap (bitmap : bytes) : list Z :=
  concat (imap decode_bitmap_byte bitmap).

Record CompactDownloadProgress := mkCompactDownloadProgress {
  cdp_share_id : ShareId;
  cdp_completed_count : Z;
  cdp_completed_bitmap : bytes;
}.
Global Instance CompactDownloadProgress_eq_dec : EqDecision CompactDownloadProgress.
Proof. solve_decision. Defined.
Global Instance CompactDownloadProgress_countable : Countable CompactDownloadProgress.
Proof.
  refine (inj_countable' (λ s, (cdp_share_id s, cdp_completed_count s, cdp_completed_bitmap s))
            (λ '(a, b, c), mkCompactDownloadProgress a b c) _). by intros [].
Defined.
Record CompactShareState := mkCompactShareState {
  css_share_id : ShareId;
  css_mode : ShareMode;
  css_output_dir : option path;
  css_completed_count : Z;
  css_completed_bitmap : bytes;
}.
Global Instance CompactShareState_eq_dec : EqDecision CompactShareState.
Proof. solve_decision. Defined.
Global Instance CompactShareState_countable : Countable CompactShareState.
Proof.
  refine (inj_countable'
    (λ s, (css_share_id s, css_mode s, css_output_dir s, css_completed_count s, css_completed_bitmap s))
    (λ '(a, b, c, d, e), mkCompactShareState a b c d e) _). by intros [].
Defined.

Definition compact_from_progress (p : DownloadProgress) : result unit CompactDownloadProgress :=
  let? bitmap := encode_completed_bitmap (dp_completed_chunks p) in
  Ok (mkCompactDownloadProgress (dp_share_id p) (zlen (dp_completed_chunks p)) bitmap).
Definition into_progress (c : CompactDownloadProgress) : DownloadProgress :=
  let completed_chunks := decode_completed_bitmap (cdp_completed_bitmap c) in
  let completed_chunks := take (Z.to_nat (cdp_completed_count c)) completed_chunks in
  DownloadProgress_new (cdp_share_id c) completed_chunks.
Definition compact_from_state (s : ShareState) : result unit CompactShareState :=
  let? bitmap := encode_completed_bitmap (ss_completed_chunks s) in
  Ok (mkCompactShareState (ss_share_id s) (ss_mode s) (ss_output_dir s)
        (zlen (ss_completed_chunks s)) bitmap).
Definition into_state (c : CompactShareState) : ShareState :=
  let completed_chunks := decode_completed_bitmap (css_completed_bitmap c) in
  let completed_chunks := take (Z.to_nat (css_completed_count c)) completed_chunks in
  ShareState_new (css_share_id c) (css_mode c) (css_output_dir c) completed_chunks.

(** [slice::strip_prefix] *)
Definition strip_magic (magic b : bytes) : option bytes :=
  if decide (take (length magic) b = magic) then Some (drop (length magic) b) else None.

Definition encode_with_magic {A} `{Bincode A} (magic : bytes) (value : A) : result unit bytes :=
  let? payload := ok_or (bincode_encode value) tt in
  Ok (magic ++ payload).

Section codec.
Context `{Bincode CompactDownloadProgress, Bincode DownloadProgress}.
Context `{Bincode CompactShareState, Bincode ShareState}.

Definition encode_progress (p : DownloadProgress) : result unit bytes :=
  let? c := compact_from_progress p in
  encode_with_magic COMPACT_PROGRESS_MAGIC c.
Definition encode_state (s : ShareState) : result unit bytes :=
  let? c := compact_from_state s in
  encode_with_magic COMPACT_STATE_MAGIC c.

Definition decode_progress (b : bytes) : result decode_error DownloadProgress :=
  match strip_magic COMPACT_PROGRESS_MAGIC b with
  | Some payload =>
      let? c := decode_exact "compact progress" payload in
      Ok (into_progress c)
  | None => decode_exact "legacy progress" b
  end.
Definition decode_state (b : bytes) : result decode_error ShareState :=
  match strip_magic COMPACT_STATE_MAGIC b with
  | Some payload =>
      let? c := decode_exact "compact state" payload in
      Ok (into_state c)
  | None => decode_exact "legacy state" b
  end.

Definition DownloadProgress_to_bytes : DownloadProgress → result unit bytes := encode_progress.
Definition DownloadProgress_from_bytes : bytes → result decode_error DownloadProgress := decode_progress.
Definition ShareState_to_bytes : ShareState → result unit bytes := encode_state.
Definition ShareState_from_bytes : bytes → result decode_error ShareState := decode_state.
End codec.

(** * Strictly sorted lists *)
Abbreviation strict := (StronglySorted Z.lt).

Lemma strict_ext l1 l2 : strict l1 → strict l2 → (∀ x, x ∈ l1 ↔ x ∈ l2) → l1 = l2.
Proof.
  intros H1. revert l2. induction H1 as [|x l1 Hs IH Hx]; intros l2 H2 Hin.
  - destruct l2 as [|y l2]; [done|]. exfalso. apply (not_elem_of_nil y), Hin. left.
  - destruct H2 as [|y l2 Hs2 Hy]; [exfalso; apply (not_elem_of_nil x), Hin; left|].
    rewrite Forall_forall in Hx, Hy.
    assert (x = y) as ->.
    { assert (x ∈ y :: l2) as Hxin by (apply Hin; left).
      assert (y ∈ x :: l1) as Hyin by (apply Hin; left).
      apply elem_of_cons in Hxin as [|Hxin]; [done|]. apply elem_of_cons in Hyin as [|Hyin]; [done|].
      specialize (Hx _ Hyin). specialize (Hy _ Hxin). lia. }
    f_equal. apply IH; [done|]. intros z. specialize (Hin z). rewrite !elem_of_cons in Hin.
    split; intros Hz.
    + destruct (proj1 Hin) as [->|]; [by right|specialize (Hx _ Hz); lia|done].
    + destruct (proj2 Hin) as [->|]; [by right|specialize (Hy _ Hz); lia|done].
Qed.

Lemma strict_lookup l i j x y :
  strict l → l !! i = Some x → l !! j = Some y → (i < j)%nat → x < y.
Proof.
  intros Hs. revert i j. induction Hs as [|z l Hs IH Hz]; intros i j Hi Hj Hij; [done|].
  destruct j as [|j]; [lia|]. destruct i as [|i]; simplify_eq/=.
  - rewrite Forall_forall in Hz. apply Hz. by eapply list_elem_of_lookup_2.
  - by eapply (IH i j); [..|lia].
Qed.

Lemma strict_NoDup l : strict l → NoDup l.
Proof.
  induction 1 as [|x l Hs IH Hx]; constructor; [|done]. intros Hin.
  rewrite Forall_forall in Hx. specialize (Hx _ Hin). lia.
Qed.

Lemma StronglySorted_omap {A B} (R : A → A → Prop) (R' : B → B → Prop) (f : A → option B) l :
  (∀ a b x y, R a b → f a = Some x → f b = Some y → R' x y) →
  StronglySorted R l → StronglySorted R' (omap f l).
Proof.
  intros HR. induction 1 as [|a l Hs IH Ha]; simpl; [constructor|].
  destruct (f a) as [x|] eqn:Hfa; [|done]. constructor; [done|]. rewrite Forall_forall in Ha. apply Forall_forall.
  intros y (b & Hb & Hfb)%list_elem_of_omap. by eapply HR; [by apply Ha|..].
Qed.

Lemma StronglySorted_app {A} (R : A → A → Prop) l1 l2 :
  StronglySorted R l1 → StronglySorted R l2 → (∀ a b, a ∈ l1 → b ∈ l2 → R a b) →
  StronglySorted R (l1 ++ l2).
Proof.
  induction 1 as [|a l1 Hs IH Ha]; intros H2 HR; simpl; [done|]. constructor.
  - apply IH; [done|]. intros. apply HR; [by right|done].
  - apply Forall_app. split; [done|]. apply Forall_forall. intros b Hb. apply HR; [left|done].
Qed.

(** ** Normalization *)
Lemma dedup_strict l :
  StronglySorted Z.le l → strict (dedup l) ∧ (∀ x, x ∈ dedup l ↔ x ∈ l).
Proof.
  induction 1 as [|x l Hs [IH1 IH2] Hx]; [split; [constructor|done]|].
  cbn [dedup]. destruct l as [|y l]; [split; [by repeat constructor|done]|].
  case_decide as Hxy.
  - subst y. split; [done|]. intros z. rewrite IH2, !elem_of_cons. naive_solver.
  - split.
    + constructor; [done|]. rewrite Forall_forall in Hx |- *. intros z Hz%IH2.
      apply StronglySorted_inv in Hs as [_ Hy]. assert (x ≤ y) by (apply Hx; left).
      apply elem_of_cons in Hz as [->|Hz]; [lia|]. rewrite Forall_forall in Hy. specialize (Hy z Hz). lia.
    + intros z. rewrite elem_of_cons, IH2. by rewrite (elem_of_cons (y :: l)).
Qed.

Lemma normalize_strict l :
  strict (normalize_chunk_list l) ∧ (∀ x, x ∈ normalize_chunk_list l ↔ x ∈ l).
Proof.
  unfold normalize_chunk_list. destruct (dedup_strict (sort_by Z.leb l)) as [H1 H2].
  - eapply StronglySorted_mono; [|apply sort_by_sorted].
    + intros a b. simpl. lia.
    + intros x y. lia.
    + intros x y z. lia.
  - split; [done|]. intros x. rewrite H2. by rewrite sort_by_perm.
Qed.

Lemma normalize_id l : strict l → normalize_chunk_list l = l.
Proof. intros Hs. destruct (normalize_strict l) as [H1 H2]. by apply strict_ext. Qed.

(** ** Binary search *)
Lemma binary_search_base_spec fuel l x base size :
  strict l → (1 ≤ size)%nat → (size ≤ fuel)%nat → (base + size ≤ length l)%nat →
  (∀ i y, l !! i = Some y → (i ≤ base)%nat → base = 0%nat ∨ y ≤ x) →
  (∀ i y, l !! i = Some y → (base + size ≤ i)%nat → x < y) →
  let b := binary_search_base fuel l x base size in
  (b < length l)%nat ∧ (∀ i y, l !! i = Some y → (i ≤ b)%nat → b = 0%nat ∨ y ≤ x)
  ∧ (∀ i y, l !! i = Some y → (b < i)%nat → x < y).
Proof.
  intros Hl. revert base size. induction fuel as [|fuel IH]; intros base size H1 Hf Hlen Hlo Hhi; [lia|].
  cbn [binary_search_base]. case_decide as Hsz.
  { assert (size = 1)%nat as -> by lia. cbv zeta. split_and!; [lia|done|].
    intros i y Hi Hlt. apply (Hhi i); [done|lia]. }
  cbv zeta. assert (size / 2 < size)%nat as Hh1 by (apply Nat.div_lt; lia).
  assert (1 ≤ size / 2)%nat as Hh2 by (apply Nat.div_le_lower_bound; lia).
  assert (2 * (size / 2) ≤ size)%nat as Hh3 by (apply Nat.Div0.mul_div_le).
  set (half := (size / 2)%nat) in *.
  destruct (lookup_lt_is_Some_2 l (base + half)) as [z Hz]; [lia|]. rewrite Hz. cbn [from_option id].
  apply IH; [lia|lia| | |].
  - case_decide; lia.
  - intros i y Hi Hle. case_decide as Hc; [by apply (Hlo i y)|]. right.
    destruct (decide (i = base + half)%nat) as [->|]; [simplify_eq; lia|].
    pose proof (strict_lookup l i (base + half) y z Hl Hi Hz ltac:(lia)). lia.
  - intros i y Hi Hle. case_decide as Hc.
    + destruct (decide (i = base + half)%nat) as [->|]; [simplify_eq; lia|].
      pose proof (strict_lookup l (base + half) i z y Hl Hz Hi ltac:(lia)). lia.
    + apply (Hhi i); [done|lia].
Qed.

Lemma binary_search_spec l x :
  strict l →
  match binary_search l x with
  | inl i => l !! i = Some x
  | inr p => (p ≤ length l)%nat ∧ Forall (λ y, y < x) (take p l) ∧ Forall (λ y, x < y) (drop p l)
  end.
Proof.
  intros Hl. unfold binary_search. destruct l as [|a l]; [simpl; split_and!; [lia|constructor..]|].
  set (l' := a :: l) in *.
  destruct (binary_search_base_spec (length l') l' x 0 (length l')) as (Hb & Hlo & Hhi);
    [done|simpl; lia|lia|lia|by left| |].
  { intros i y Hi Hle. apply lookup_lt_Some in Hi. lia. }
  set (b := binary_search_base _ _ _ _ _) in *.
  destruct (lookup_lt_is_Some_2 l' b Hb) as [y Hy]. cbv zeta. rewrite Hy. cbn [from_option id].
  case_decide as Heq; [by subst|]. case_decide as Hlt.
  - split_and!; [lia| |].
    + apply Forall_lookup. intros i z Hi%lookup_take_Some. destruct Hi as [Hi Hib].
      destruct (decide (i = b)) as [->|]; [by simplify_eq|].
      pose proof (strict_lookup l' i b z y Hl Hi Hy ltac:(lia)). lia.
    + apply Forall_lookup. intros i z Hi. rewrite lookup_drop in Hi.
      apply (Hhi (S b + i)%nat); [done|lia].
  - split_and!; [lia| |].
    + apply Forall_lookup. intros i z Hi%lookup_take_Some. destruct Hi as [Hi Hib].
      destruct (Hlo b y Hy) as [->|?]; [done|lia|lia].
    + apply Forall_lookup. intros i z Hi. rewrite lookup_drop in Hi.
      destruct (decide (i = 0)%nat) as [->|]; [rewrite Nat.add_0_r in Hi; simplify_eq; lia|].
      apply (Hhi (b + i)%nat); [done|lia].
Qed.

Lemma binary_search_elem l x : strict l → (∃ i, binary_search l x = inl i) ↔ x ∈ l.
Proof.
  intros Hl. pose proof (binary_search_spec l x Hl) as Hs. split.
  - intros [i Hi]. rewrite Hi in Hs. by eapply list_elem_of_lookup_2.
  - intros Hin. destruct (binary_search l x) as [i|p]; [eauto|]. exfalso.
    destruct Hs as (_ & H1 & H2). rewrite Forall_forall in H1, H2.
    rewrite <- (take_drop p l) in Hin. apply elem_of_app in Hin as [Hin|Hin].
    + specialize (H1 _ Hin). lia.
    + specialize (H2 _ Hin). lia.
Qed.

(** * The progress record refines a finite set *)
Definition chunk_list_wf (l : list Z) : Prop := strict l ∧ Forall u32_range l.
Definition progress_wf (p : DownloadProgress) : Prop := chunk_list_wf (dp_completed_chunks p).
Definition progress_set (p : DownloadProgress) : gset Z := list_to_set (dp_completed_chunks p).

Lemma normalize_wf l : Forall u32_range l → chunk_list_wf (normalize_chunk_list l).
Proof.
  intros Hl. destruct (normalize_strict l) as [H1 H2]. split; [done|].
  rewrite Forall_forall in Hl |- *. intros x Hx%H2. by apply Hl.
Qed.

Lemma vec_insert_strict l p x :
  strict l → Forall (λ y, y < x) (take p l) → Forall (λ y, x < y) (drop p l) →
  strict (vec_insert l p x).
Proof.
  intros Hl H1 H2. unfold vec_insert. rewrite <- (take_drop p l) in Hl.
  rewrite Forall_forall in H1, H2.
  assert (strict (take p l) ∧ strict (drop p l)) as [Ht Hd].
  { generalize dependent (take p l). generalize dependent (drop p l). clear.
    intros d _ t Hs _. revert Hs. induction t as [|a t IH]; simpl; intros Hs.
    - split; [constructor|done].
    - apply StronglySorted_inv in Hs as [Hs Ha]. destruct (IH Hs). split; [|done].
      constructor; [done|]. by apply Forall_app in Ha as [? _]. }
  apply StronglySorted_app; [done| |].
  - constructor; [done|]. by apply Forall_forall.
  - intros a b Ha Hb. specialize (H1 _ Ha). apply elem_of_cons in Hb as [->|Hb]; [done|].
    specialize (H2 _ Hb). lia.
Qed.

Lemma elem_of_vec_insert l p x y : y ∈ vec_insert l p x ↔ y = x ∨ y ∈ l.
Proof.
  unfold vec_insert. rewrite <- (take_drop p l) at 3. rewrite !elem_of_app, elem_of_cons. naive_solver.
Qed.

Lemma mark_completed_wf p i : progress_wf p → u32_range i → progress_wf (mark_completed p i).
Proof.
  intros [Hs Hr] Hi. unfold mark_completed. pose proof (binary_search_spec _ i Hs) as Hb.
  destruct (binary_search _ _) as [k|k]; [done|]. destruct Hb as (_ & H1 & H2). split; simpl.
  - by apply vec_insert_strict.
  - rewrite Forall_forall in Hr |- *. intros y [->|Hy]%elem_of_vec_insert; [done|by apply Hr].
Qed.

Lemma mark_completed_set p i :
  progress_wf p → progress_set (mark_completed p i) = {[i]} ∪ progress_set p.
Proof.
  intros [Hs _]. unfold mark_completed, progress_set.
  pose proof (binary_search_elem _ i Hs) as Hel. destruct (binary_search _ _) as [k|k].
  - assert (i ∈ dp_completed_chunks p) by (apply Hel; eauto). apply set_eq. intros x.
    rewrite elem_of_union, elem_of_singleton, elem_of_list_to_set. naive_solver.
  - simpl. apply set_eq. intros x.
    rewrite elem_of_union, elem_of_singleton, !elem_of_list_to_set, elem_of_vec_insert. done.
Qed.

Lemma has_chunk_set p i : progress_wf p → has_chunk p i = bool_decide (i ∈ progress_set p).
Proof.
  intros [Hs _]. unfold has_chunk, progress_set. rewrite (bool_decide_ext _ (i ∈ dp_completed_chunks p))
    by (by rewrite elem_of_list_to_set).
  pose proof (binary_search_elem _ i Hs) as Hel. destruct (binary_search _ _) as [k|k].
  - symmetry. apply bool_decide_eq_true. apply Hel. eauto.
  - symmetry. apply bool_decide_eq_false. intros Hin%Hel. by destruct Hin.
Qed.

Lemma progress_length p : progress_wf p → zlen (dp_completed_chunks p) = Z.of_nat (size (progress_set p)).
Proof.
  intros [Hs _]. unfold progress_set. rewrite size_list_to_set by (by apply strict_NoDup). done.
Qed.

(** * Bitmaps *)
Definition bit_at (bm : bytes) (k : Z) : bool :=
  match bm !! Z.to_nat (k / 8) with
  | Some b => Z.testbit (byte_val b) (k mod 8)
  | None => false
  end.

Lemma byte_and_bit b k :
  0 ≤ k < 8 → byte_and b (byte_shl Byte.x01 k) = Byte.x00 ↔ Z.testbit (byte_val b) k = false.
Proof.
  intros Hk. split.
  - intros Hand. assert (Z.testbit (byte_val (byte_and b (byte_shl Byte.x01 k))) k = false) as Ht
      by (rewrite Hand; apply testbit_x00).
    rewrite testbit_byte_and, testbit_byte_one_shl, bool_decide_true, andb_true_r in Ht by lia. done.
  - intros Hb. apply byte_eq_bits. intros i Hi.
    rewrite testbit_byte_and, testbit_byte_one_shl, testbit_x00 by lia.
    case_bool_decide as Heq; [by rewrite Heq, Hb|by rewrite andb_false_r].
Qed.

Lemma elem_of_decode_byte n b x :
  x ∈ decode_bitmap_byte n b ↔
  ∃ k, 0 ≤ k < 8 ∧ Z.testbit (byte_val b) k = true ∧ x = as_u32 (Z.of_nat n * 8 + k).
Proof.
  unfold decode_bitmap_byte. case_decide as Hb.
  - subst b. split; [by intros ?%elem_of_nil|]. intros (k & _ & Ht & _). by rewrite testbit_x00 in Ht.
  - rewrite list_elem_of_omap. split.
    + intros (k & Hk%elem_of_seqZ & Hf). exists k. case_decide as Ha; [done|]. simplify_eq.
      rewrite byte_and_bit in Ha by lia. split_and!; [lia|lia| |done]. by apply not_false_iff_true.
    + intros (k & Hk & Ht & ->). exists k. rewrite elem_of_seqZ. split; [lia|].
      rewrite decide_False; [done|]. rewrite byte_and_bit by lia. congruence.
Qed.

Lemma elem_of_decode_bitmap bm x :
  x ∈ decode_completed_bitmap bm ↔ ∃ k, 0 ≤ k ∧ bit_at bm k = true ∧ x = as_u32 k.
Proof.
  unfold decode_completed_bitmap, bit_at. rewrite list_elem_of_In, in_concat.
  setoid_rewrite <- list_elem_of_In. split.
  - intros (l & Hl & Hx). apply elem_of_lookup_imap in Hl as (n & b & -> & Hn).
    apply elem_of_decode_byte in Hx as (k & Hk & Ht & ->). exists (Z.of_nat n * 8 + k).
    assert ((Z.of_nat n * 8 + k) / 8 = Z.of_nat n) as -> by
      (rewrite Z.div_add_l, Z.div_small; lia).
    assert ((Z.of_nat n * 8 + k) mod 8 = k) as -> by
      (rewrite Z.add_comm, Z.mod_add, Z.mod_small; lia).
    rewrite Nat2Z.id, Hn. split_and!; [lia|done|done].
  - intros (k & Hk & Hb & ->). destruct (bm !! Z.to_nat (k / 8)) as [b|] eqn:Hn; [|done].
    exists (decode_bitmap_byte (Z.to_nat (k / 8)) b). split.
    + apply elem_of_lookup_imap. eauto.
    + apply elem_of_decode_byte. exists (k mod 8). split_and!; [apply Z.mod_pos_bound; lia..|done|].
      f_equal. rewrite Z2Nat.id by (apply Z.div_pos; lia). pose proof (Z.div_mod k 8). lia.
Qed.

Lemma decode_byte_strict n b :
  Z.of_nat n * 8 + 8 ≤ 2 ^ 32 → strict (decode_bitmap_byte n b).
Proof.
  intros Hn. unfold decode_bitmap_byte. case_decide; [constructor|].
  assert (StronglySorted (λ a b, 0 ≤ a ∧ a < b ∧ b < 8) (seqZ 0 8)) as Hs.
  { change (seqZ 0 8) with [0; 1; 2; 3; 4; 5; 6; 7]. repeat constructor; lia. }
  eapply StronglySorted_omap; [|exact Hs]. intros i j x y Hij Hx Hy. cbv beta in Hij, Hx, Hy.
  case_decide; [done|]. case_decide; [done|]. simplify_eq. unfold as_u32.
  rewrite !Z.mod_small by lia. lia.
Qed.

Lemma decode_bitmap_strict bm : zlen bm ≤ 2 ^ 29 → strict (decode_completed_bitmap bm).
Proof.
  unfold decode_completed_bitmap. intros Hlen.
  cut (∀ n, Z.of_nat n + zlen bm ≤ 2 ^ 29 →
       strict (concat (imap (λ i, decode_bitmap_byte (n + i)) bm))
       ∧ ∀ x, x ∈ concat (imap (λ i, decode_bitmap_byte (n + i)) bm) → Z.of_nat n * 8 ≤ x).
  { intros Hcut. apply (Hcut 0%nat). lia. }
  clear Hlen. induction bm as [|b bm IH]; intros n Hlen; cbn [imap concat].
  { split; [constructor|]. by intros ? ?%elem_of_nil. }
  rewrite zlen_cons in Hlen. destruct (IH (S n)) as [IH1 IH2]; [lia|].
  rewrite (imap_ext _ (λ i, decode_bitmap_byte (S n + i))) by (intros; simpl; f_equal; lia).
  pose proof (zlen_nonneg bm). simpl. rewrite Nat.add_0_r.
  assert (∀ x, x ∈ decode_bitmap_byte n b → Z.of_nat n * 8 ≤ x < Z.of_nat n * 8 + 8) as Hb.
  { intros x (k & Hk & _ & ->)%elem_of_decode_byte. unfold as_u32. rewrite Z.mod_small; lia. }
  split.
  - apply StronglySorted_app; [apply decode_byte_strict; lia|done|].
    intros x y Hx%Hb Hy%IH2. lia.
  - intros x [Hx%Hb|Hx%IH2]%elem_of_app; lia.
Qed.

(** ** Encoding *)
Lemma set_bit_spec bm i :
  0 ≤ i → i / 8 < zlen bm →
  ∃ bm', set_bit bm i = Ok bm' ∧ zlen bm' = zlen bm
    ∧ ∀ k, 0 ≤ k → bit_at bm' k = bool_decide (k = i) || bit_at bm k.
Proof.
  intros Hi Hlen. unfold set_bit. assert (0 ≤ i / 8) as Hd by (apply Z.div_pos; lia).
  destruct (lookup_lt_is_Some_2 bm (Z.to_nat (i / 8))) as [b Hb]; [unfold zlen in Hlen; lia|].
  rewrite Hb. eexists. split; [done|]. split; [unfold zlen; by rewrite length_insert|].
  intros k Hk. assert (0 ≤ k / 8) as Hkd by (apply Z.div_pos; lia). unfold bit_at.
  pose proof (Z.mod_pos_bound k 8). pose proof (Z.mod_pos_bound i 8).
  destruct (decide (k / 8 = i / 8)) as [Heq|Hne].
  - rewrite Heq, Hb, list_lookup_insert_eq by (by eapply lookup_lt_Some).
    rewrite testbit_byte_or, testbit_byte_one_shl by lia. rewrite orb_comm. f_equal.
    apply bool_decide_ext. pose proof (Z.div_mod k 8). pose proof (Z.div_mod i 8). lia.
  - rewrite list_lookup_insert_ne by lia. rewrite bool_decide_false; [done|]. by intros ->.
Qed.

Lemma list_max_spec l m : list_max l = Some m → m ∈ l ∧ Forall (λ x, x ≤ m) l.
Proof.
  destruct l as [|x l]; [done|]. intros [= <-]. revert x.
  induction l as [|y l IH]; intros x; simpl; [split; [left|by repeat constructor; lia]|].
  destruct (IH (Z.max x y)) as [H1 H2]. apply Forall_cons in H2 as [H2 H3]. split.
  - apply elem_of_cons in H1 as [H1|H1]; [|by right; right]. rewrite H1.
    destruct (Z.max_spec x y) as [[_ ->]|[_ ->]]; [right; left|left].
  - repeat constructor; [lia|lia|done].
Qed.

Lemma encode_bitmap_spec l :
  Forall u32_range l →
  ∃ bm, encode_completed_bitmap l = Ok bm ∧ zlen bm ≤ 2 ^ 29
    ∧ ∀ k, 0 ≤ k → bit_at bm k = bool_decide (k ∈ l).
Proof.
  intros Hl. unfold encode_completed_bitmap. destruct (list_max l) as [m|] eqn:Hm.
  2: { destruct l; [|done]. exists []. split_and!; [done|done|]. intros k _. done. }
  apply list_max_spec in Hm as [Hin Hmax]. rewrite Forall_forall in Hl, Hmax.
  pose proof (Hl m Hin) as Hmr. unfold u32_range, u32_max in Hmr.
  assert (0 ≤ m / 8 < 2 ^ 29) as Hmd.
  { split; [apply Z.div_pos; lia|]. apply Z.div_lt_upper_bound; lia. }
  set (bm0 := replicate _ _).
  assert (zlen bm0 = m / 8 + 1) as Hlen by (unfold zlen, bm0; rewrite length_replicate; lia).
  cut (∀ l2 l1 bm, l1 ++ l2 = l → zlen bm = m / 8 + 1 →
       (∀ k, 0 ≤ k → bit_at bm k = bool_decide (k ∈ l1)) →
       ∃ bm', foldl (λ r index, result_bind r (λ bitmap, set_bit bitmap index)) (Ok bm) l2 = Ok bm'
         ∧ zlen bm' = m / 8 + 1 ∧ ∀ k, 0 ≤ k → bit_at bm' k = bool_decide (k ∈ l)).
  { intros Hcut. destruct (Hcut l [] bm0) as (bm' & Hf & Hl' & Hb); [done|done| |].
    - intros k _. unfold bit_at, bm0. rewrite bool_decide_false by apply not_elem_of_nil.
      destruct (replicate _ _ !! _) as [b|] eqn:Hb; [|done].
      apply lookup_replicate_1 in Hb as [-> _]. apply testbit_x00.
    - exists bm'. split_and!; [done|lia|done]. }
  clear bm0 Hlen. induction l2 as [|i l2 IH]; intros l1 bm Hl12 Hbm Hbits; simpl.
  - exists bm. rewrite app_nil_r in Hl12. by subst.
  - assert (i ∈ l) as Hil by (rewrite <- Hl12; apply elem_of_app; right; left).
    specialize (Hl i Hil) as Hir. unfold u32_range in Hir. specialize (Hmax i Hil).
    destruct (set_bit_spec bm i) as (bm1 & -> & Hlen1 & Hb1); [lia| |].
    { rewrite Hbm. assert (i / 8 ≤ m / 8) by (apply Z.div_le_mono; lia). lia. }
    apply (IH (l1 ++ [i])); [by rewrite <- app_assoc|lia|].
    intros k Hk. rewrite Hb1, Hbits by done. rewrite <- bool_decide_or. apply bool_decide_ext.
    rewrite elem_of_app, list_elem_of_singleton. naive_solver.
Qed.

Lemma bitmap_roundtrip_aux l :
  chunk_list_wf l → ∃ bm, encode_completed_bitmap l = Ok bm ∧ decode_completed_bitmap bm = l.
Proof.
  intros [Hs Hr]. destruct (encode_bitmap_spec l Hr) as (bm & Henc & Hlen & Hbits).
  exists bm. split; [done|]. apply strict_ext; [by apply decode_bitmap_strict|done|].
  intros x. rewrite elem_of_decode_bitmap. rewrite Forall_forall in Hr. split.
  - intros (k & Hk & Hb & ->). rewrite Hbits in Hb by done. apply bool_decide_eq_true in Hb.
    specialize (Hr k Hb) as Hkr. unfold u32_range, u32_max in Hkr. unfold as_u32. by rewrite Z.mod_small by lia.
  - intros Hx. specialize (Hr x Hx) as Hxr. unfold u32_range, u32_max in Hxr. exists x.
    rewrite Hbits by lia. rewrite bool_decide_eq_true. unfold as_u32. rewrite Z.mod_small by lia. split_and!; [lia|done|done].
Qed.

(** * The disk formats *)
Lemma strip_magic_app magic b : strip_magic magic (magic ++ b) = Some b.
Proof. unfold strip_magic. by rewrite take_app_length, drop_app_length, decide_True. Qed.

Lemma encode_with_magic_Ok {A} `{Bincode A} magic (a : A) b :
  encode_with_magic magic a = Ok b → ∃ payload, bincode_encode a = Some payload ∧ b = magic ++ payload.
Proof.
  unfold encode_with_magic. rewrite result_bind_Ok. intros (payload & Hp%ok_or_Ok & [= <-]). eauto.
Qed.

Lemma into_progress_wf c : progress_wf (into_progress c).
Proof.
  apply normalize_wf, Forall_take, Forall_forall. intros x (k & _ & _ & ->)%elem_of_decode_bitmap.
  unfold as_u32, u32_range, u32_max. pose proof (Z.mod_pos_bound k (2 ^ 32)). lia.
Qed.

Lemma progress_compact_roundtrip p :
  progress_wf p → ∃ c, compact_from_progress p = Ok c ∧ into_progress c = p.
Proof.
  intros Hwf. destruct (bitmap_roundtrip_aux _ Hwf) as (bm & Henc & Hdec).
  unfold compact_from_progress. rewrite Henc. simpl. eexists. split; [done|].
  unfold into_progress. cbn [cdp_completed_bitmap cdp_completed_count cdp_share_id]. rewrite Hdec.
  rewrite take_ge by (unfold zlen; lia). unfold DownloadProgress_new.
  rewrite normalize_id by apply Hwf. by destruct p.
Qed.

Lemma state_compact_roundtrip s :
  chunk_list_wf (ss_completed_chunks s) → ∃ c, compact_from_state s = Ok c ∧ into_state c = s.
Proof.
  intros Hwf. destruct (bitmap_roundtrip_aux _ Hwf) as (bm & Henc & Hdec).
  unfold compact_from_state. rewrite Henc. simpl. eexists. split; [done|].
  unfold into_state. cbn [css_completed_bitmap css_completed_count css_share_id css_mode css_output_dir].
  rewrite Hdec. rewrite take_ge by (unfold zlen; lia). unfold ShareState_new.
  rewrite normalize_id by apply Hwf. by destruct s.
Qed.

Lemma decode_exact_total {A} `{Bincode A} label b :
  decode_exact label b ≠ Panic ∧ decode_exact label b ≠ Diverged.
Proof.
  unfold decode_exact. destruct (bincode_decode b) as [[a n]|]; simpl; [|done]. by case_decide.
Qed.

Section codec_lemmas.
Context `{BincodeLaws CompactDownloadProgress, Bincode DownloadProgress}.
Context `{BincodeLaws CompactShareState, Bincode ShareState}.

Lemma progress_from_to_bytes p b :
  progress_wf p → DownloadProgress_to_bytes p = Ok b → DownloadProgress_from_bytes b = Ok p.
Proof using All.
  intros Hwf. unfold DownloadProgress_to_bytes, encode_progress.
  destruct (progress_compact_roundtrip p Hwf) as (c & -> & Hc). simpl.
  intros (payload & Hp & ->)%encode_with_magic_Ok.
  unfold DownloadProgress_from_bytes, decode_progress. rewrite strip_magic_app.
  rewrite (decode_exact_encode _ c) by done. simpl. by rewrite Hc.
Qed.

Lemma state_from_to_bytes s b :
  chunk_list_wf (ss_completed_chunks s) → ShareState_to_bytes s = Ok b → ShareState_from_bytes b = Ok s.
Proof using All.
  intros Hwf. unfold ShareState_to_bytes, encode_state.
  destruct (state_compact_roundtrip s Hwf) as (c & -> & Hc). simpl.
  intros (payload & Hp & ->)%encode_with_magic_Ok.
  unfold ShareState_from_bytes, decode_state. rewrite strip_magic_app.
  rewrite (decode_exact_encode _ c) by done. simpl. by rewrite Hc.
Qed.

(** Every progress record the program builds, apart from files in the older
    format, is reached by these steps. *)
Inductive progress_reachable : DownloadProgress → Prop :=
  | reach_new id l : Forall u32_range l → progress_reachable (DownloadProgress_new id l)
  | reach_mark p i : progress_reachable p → u32_range i → progress_reachable (mark_completed p i)
  | reach_decode payload p :
      DownloadProgress_from_bytes (COMPACT_PROGRESS_MAGIC ++ payload) = Ok p → progress_reachable p.

Lemma progress_reachable_inv p : progress_reachable p → progress_wf p.
Proof.
  induction 1 as [id l Hl|p i Hp IH Hi|payload p Hdec].
  - by apply normalize_wf.
  - by apply mark_completed_wf.
  - unfold DownloadProgress_from_bytes, decode_progress in Hdec. rewrite strip_magic_app in Hdec.
    apply result_bind_Ok in Hdec as (c & _ & [= <-]). apply into_progress_wf.
Qed.
End codec_lemmas.

(** * Claims *)

(** The completed-chunk vector of every progress record built by the
    constructors, by [mark_completed] or by decoding the compact format is
    strictly increasing and holds [u32] values, the precondition of its binary
    searches. *)
Theorem progress_invariant `{Bincode CompactDownloadProgress, Bincode DownloadProgress} p :
  progress_reachable p → strict (dp_completed_chunks p) ∧ Forall u32_range (dp_completed_chunks p).
Proof. apply progress_reachable_inv. Qed.

(** C16: a well-formed progress record refines a finite set of chunk indices:
    [mark_completed] inserts, [has_chunk] is membership (binary search agrees
    with the set) and [is_complete] compares its cardinality. *)
Theorem progress_refines_set p i total :
  progress_wf p → u32_range i →
  progress_wf (mark_completed p i)
  ∧ progress_set (mark_completed p i) = {[i]} ∪ progress_set p
  ∧ (∀ j, has_chunk p j = bool_decide (j ∈ progress_set p))
  ∧ is_complete p total = bool_decide (Z.of_nat (size (progress_set p)) = total).
Proof.
  intros Hwf Hi. split_and!.
  - by apply mark_completed_wf.
  - by apply mark_completed_set.
  - intros j. by apply has_chunk_set.
  - unfold is_complete. by rewrite progress_length.
Qed.

(** The completion bitmap is lossless: for every strictly increasing list of
    [u32] indices [encode_completed_bitmap] stays inside its buffer and
    [decode_completed_bitmap] gives the list back. *)
Theorem bitmap_roundtrip l :
  strict l → Forall u32_range l →
  ∃ bm, encode_completed_bitmap l = Ok bm ∧ decode_completed_bitmap bm = l.
Proof. intros. by apply bitmap_roundtrip_aux. Qed.

(** A progress record written by [to_bytes] is read back unchanged by
    [from_bytes], and so is a share state. *)
Theorem state_codec_roundtrip
    `{BincodeLaws CompactDownloadProgress, Bincode DownloadProgress}
    `{BincodeLaws CompactShareState, Bincode ShareState} p s bp bs :
  progress_wf p → chunk_list_wf (ss_completed_chunks s) →
  DownloadProgress_to_bytes p = Ok bp → ShareState_to_bytes s = Ok bs →
  DownloadProgress_from_bytes bp = Ok p ∧ ShareState_from_bytes bs = Ok s.
Proof. intros. split; [by apply progress_from_to_bytes|by apply state_from_to_bytes]. Qed.

Import Toy.
Module StateSample.
#[export] Instance cdp_bincode : Bincode CompactDownloadProgress :=
  Toy.countable_bincode CompactDownloadProgress.
#[export] Instance cdp_bincode_laws : BincodeLaws CompactDownloadProgress :=
  Toy.countable_bincode_laws CompactDownloadProgress.
#[export] Instance dp_bincode : Bincode DownloadProgress := Toy.countable_bincode DownloadProgress.
#[export] Instance dp_bincode_laws : BincodeLaws DownloadProgress :=
  Toy.countable_bincode_laws DownloadProgress.
#[export] Instance css_bincode : Bincode CompactShareState := Toy.countable_bincode CompactShareState.
#[export] Instance css_bincode_laws : BincodeLaws CompactShareState :=
  Toy.countable_bincode_laws CompactShareState.
#[export] Instance ss_bincode : Bincode ShareState := Toy.countable_bincode ShareState.
#[export] Instance ss_bincode_laws : BincodeLaws ShareState := Toy.countable_bincode_laws ShareState.
#[export] Instance secret_bincode : Bincode EtleSecret := Toy.countable_bincode EtleSecret.
#[export] Instance secret_bincode_laws : BincodeLaws EtleSecret := Toy.countable_bincode_laws EtleSecret.

Definition share_id : ShareId := mkShareId (array_repeat 32 Byte.x07).
Definition progress : DownloadProgress := DownloadProgress_new share_id [9; 2; 2; 0].
Definition state : ShareState := from_progress Downloading None progress.
Definition ok_bytes (r : result unit bytes) : bytes := match r with Ok b => b | _ => [] end.

Lemma progress_ok : progress_wf progress.
Proof. apply normalize_wf. repeat constructor; by_decide. Qed.
End StateSample.
Import StateSample.

Lemma progress_invariant_witness :
  strict (dp_completed_chunks (mark_completed StateSample.progress 5))
  ∧ Forall u32_range (dp_completed_chunks (mark_completed StateSample.progress 5)).
Proof.
  apply progress_invariant. apply reach_mark; [|by_decide]. apply reach_new. repeat constructor; by_decide.
Defined.

Lemma progress_refines_set_witness :
  let p := StateSample.progress in
  progress_wf (mark_completed p 5)
  ∧ progress_set (mark_completed p 5) = {[5]} ∪ progress_set p
  ∧ (∀ j, has_chunk p j = bool_decide (j ∈ progress_set p))
  ∧ is_complete p 4 = bool_decide (Z.of_nat (size (progress_set p)) = 4).
Proof. apply progress_refines_set; [apply StateSample.progress_ok|by_decide]. Defined.

Lemma bitmap_roundtrip_witness :
  ∃ bm, encode_completed_bitmap [0; 7; 8; 4095] = Ok bm ∧ decode_completed_bitmap bm = [0; 7; 8; 4095].
Proof. apply bitmap_roundtrip; repeat constructor; by_decide. Defined.

Lemma state_codec_roundtrip_witness :
  let bp := StateSample.ok_bytes (DownloadProgress_to_bytes StateSample.progress) in
  let bs := StateSample.ok_bytes (ShareState_to_bytes StateSample.state) in
  DownloadProgress_from_bytes bp = Ok StateSample.progress
  ∧ ShareState_from_bytes bs = Ok StateSample.state.
Proof.
  apply state_codec_roundtrip; [apply StateSample.progress_ok| |vm_compute; reflexivity..].
  apply (normalize_wf (dp_completed_chunks StateSample.progress)). apply StateSample.progress_ok.
Defined.
