(* ===== verification/Library.v ===== *)
(** [state/paths.rs], [state/storage.rs], [state/library.rs]: the on-disk library
    of shares.

    Every file of the library is replaced atomically: written under a temporary
    name in its directory, then renamed. The model is the Unix build. *)
From stdpp Require Import base tactics list countable strings gmap sorting.
From Stdlib Require Import ZArith Lia.
From S2P Require Import Prelude Bytes World Files Extern Crypto Descriptor Chunker Package Storage State.
Local Open Scope Z_scope.
Local Open Scope etle_scope.

(** * Paths *)
Definition LIBRARY_DIR_NAME : string := "library".
Definition DESCRIPTOR_FILE_NAME : string := "descriptor.etle".
Definition SECRET_FILE_NAME : string := "secret.etlekey".
Definition PROGRESS_FILE_NAME : string := "progress.bin".
Definition STATE_FILE_NAME : string := "state.bin".
Definition CHUNKS_DIR_NAME : string := "chunks".
Definition OUTPUT_DIR_NAME : string := "output".
Definition CHUNK_EXTENSION : string := "etle".
Definition ETLE_LIBRARY_ROOT_ENV : string := "ETLE_LIBRARY_ROOT".
Definition DOWNLOADS_DIR_NAME : string := "Downloads".
Definition ETLE_DOWNLOADS_DIR_NAME : string := "ETLE".
Definition ETLE_DIR_NAME : string := ".etle".

Record LibraryPaths := mkLibraryPaths { lp_root : path; lp_share_id : ShareId }.
Global Instance LibraryPaths_eq_dec : EqDecision LibraryPaths.
Proof. solve_decision. Defined.
Definition for_share (root : path) (share_id : ShareId) : LibraryPaths := mkLibraryPaths root share_id.
Definition etle_dir (p : LibraryPaths) : path := lp_root p ++ [ETLE_DIR_NAME].
Definition library_dir (p : LibraryPaths) : path := etle_dir p ++ [LIBRARY_DIR_NAME].
Definition share_dir (p : LibraryPaths) : path := library_dir p ++ [ShareId_to_string (lp_share_id p)].
Definition descriptor_path (p : LibraryPaths) : path := share_dir p ++ [DESCRIPTOR_FILE_NAME].
Definition secret_path (p : LibraryPaths) : path := share_dir p ++ [SECRET_FILE_NAME].
Definition progress_path (p : LibraryPaths) : path := share_dir p ++ [PROGRESS_FILE_NAME].
Definition state_path (p : LibraryPaths) : path := share_dir p ++ [STATE_FILE_NAME].
Definition chunks_dir (p : LibraryPaths) : path := share_dir p ++ [CHUNKS_DIR_NAME].
Definition output_dir (p : LibraryPaths) : path := share_dir p ++ [OUTPUT_DIR_NAME].
Definition chunk_file_name (index : Z) : string := dec_pad6 index +:+ "." +:+ CHUNK_EXTENSION.
Definition chunk_path (p : LibraryPaths) (index : Z) : path := chunks_dir p ++ [chunk_file_name index].

Record LocalShareSummary := mkLocalShareSummary {
  ls_paths : LibraryPaths;
  ls_descriptor : EtleDescriptor;
  ls_progress : option DownloadProgress;
  ls_state : option ShareState;
  ls_has_secret : bool;
}.
Definition summary_completed_chunks (s : LocalShareSummary) : Z :=
  match ls_progress s with Some p => zlen (dp_completed_chunks p) | None => 0 end.
Definition summary_total_chunks (s : LocalShareSummary) : Z := zlen (d_chunks (ls_descriptor s)).
Definition summary_mode (s : LocalShareSummary) : option ShareMode := ss_mode <$> ls_state s.

(** [env::var_os], as a function of the name of the variable. *)
Definition home_dir_from_env (getenv : string → option path) : option path := getenv "HOME".
Definition default_library_root_from_home (home : path) : path :=
  home ++ [DOWNLOADS_DIR_NAME; ETLE_DOWNLOADS_DIR_NAME].
Definition default_library_root (getenv : string → option path) : path :=
  match getenv ETLE_LIBRARY_ROOT_ENV with
  | Some root => root
  | None =>
      match home_dir_from_env getenv with
      | Some home => default_library_root_from_home home
      | None => default_library_root_from_home []
      end
  end.

(** * Atomic replacement of a file *)
Definition tmp_name (name : string) (pid nanos : Z) : string :=
  "." +:+ name +:+ "." +:+ dec pid +:+ "." +:+ dec nanos +:+ ".tmp".
Definition tmp_path (p : path) (pid nanos : Z) : path :=
  parent_or_empty p ++ [tmp_name (default "etle-write"%string (path_file_name p)) pid nanos].

(** [duration_since(UNIX_EPOCH).map_or(0, ..)] of a clock in nanoseconds. *)
Definition unix_nanos {E} : M World E Z :=
  let! t := now in
  ret (if decide (t < 0) then 0 else t).

(** The secret flag only selects the permission bits of the new file. *)
Definition write_file_atomic (p : path) (data : bytes) (secret : bool) : io unit :=
  let parent := parent_or_empty p in
  do! create_dir_all parent in
  let! pid := gets (λ w, env_pid (w_env w)) in
  let! nanos := unix_nanos in
  let tmp := tmp_path p pid nanos in
  do! file_create_new tmp in
  let! written := try_ (do! file_write_all tmp data in file_sync tmp) in
  match written with
  | Err error =>
      let! _ignored := try_ (remove_file tmp) in
      throw error
  | _ =>
      let! renamed := try_ (rename tmp p) in
      match renamed with
      | Err error =>
          let! _ignored := try_ (remove_file tmp) in
          throw error
      | _ => ret tt
      end
  end.

Definition ensure_share_id (expected actual : ShareId) : result FileError unit :=
  if decide (expected = actual) then Ok tt else Err (ShareIdMismatch expected actual).

(** The common shape of the [write_*] functions. *)
Definition write_share_file (paths : LibraryPaths) (id : ShareId) (p : path)
    (encoded : result unit bytes) (secret : bool) : M World FileError unit :=
  do! lift_result (ensure_share_id (lp_share_id paths) id) in
  do! map_err FE_Io (create_dir_all (share_dir paths)) in
  let! data := lift_result (result_map_err (λ _, FE_Encode) encoded) in
  map_err FE_Io (write_file_atomic p data secret).

Section storage.
Context `{Blake3} `{Bincode EtleDescriptor, Bincode EtleSecret}.
Context `{Bincode CompactDownloadProgress, Bincode DownloadProgress}.
Context `{Bincode CompactShareState, Bincode ShareState}.

Definition write_descriptor (paths : LibraryPaths) (descriptor : EtleDescriptor)
    : M World FileError unit :=
  write_share_file paths (d_share_id descriptor) (descriptor_path paths)
    (ok_or (EtleDescriptor_to_bytes descriptor) tt) false.

Definition read_descriptor (paths : LibraryPaths) : M World FileError EtleDescriptor :=
  let! b := map_err FE_Io (read_file (descriptor_path paths)) in
  let! descriptor := lift_result (result_map_err FE_Decode (EtleDescriptor_from_bytes b)) in
  do! lift_result (ensure_share_id (lp_share_id paths) (d_share_id descriptor)) in
  if negb (verify_share_id descriptor)
  then throw (ShareIdMismatch (recompute_share_id descriptor) (d_share_id descriptor))
  else ret descriptor.

Definition write_secret (paths : LibraryPaths) (secret : EtleSecret) : M World FileError unit :=
  write_share_file paths (es_share_id secret) (secret_path paths)
    (ok_or (EtleSecret_to_bytes secret) tt) true.

Definition read_secret (paths : LibraryPaths) : M World FileError EtleSecret :=
  let! b := map_err FE_Io (read_file (secret_path paths)) in
  let! secret := lift_result (result_map_err FE_Decode (EtleSecret_from_bytes b)) in
  do! lift_result (ensure_share_id (lp_share_id paths) (es_share_id secret)) in
  ret secret.

Definition write_progress (paths : LibraryPaths) (progress : DownloadProgress)
    : M World FileError unit :=
  write_share_file paths (dp_share_id progress) (progress_path paths)
    (DownloadProgress_to_bytes progress) false.

Definition read_progress (paths : LibraryPaths) : M World FileError DownloadProgress :=
  let! b := map_err FE_Io (read_file (progress_path paths)) in
  let! progress := lift_result (result_map_err FE_Decode (DownloadProgress_from_bytes b)) in
  do! lift_result (ensure_share_id (lp_share_id paths) (dp_share_id progress)) in
  ret progress.

Definition write_state (paths : LibraryPaths) (state : ShareState) : M World FileError unit :=
  write_share_file paths (ss_share_id state) (state_path paths) (ShareState_to_bytes state) false.

Definition read_state (paths : LibraryPaths) : M World FileError ShareState :=
  let! b := map_err FE_Io (read_file (state_path paths)) in
  let! state := lift_result (result_map_err FE_Decode (ShareState_from_bytes b)) in
  do! lift_result (ensure_share_id (lp_share_id paths) (ss_share_id state)) in
  ret state.

Definition write_chunk (paths : LibraryPaths) (chunk : EncryptedChunk) : M World FileError path :=
  do! map_err FE_Io (create_dir_all (chunks_dir paths)) in
  let p := chunk_path paths (ec_index chunk) in
  do! map_err FE_Io (write_file_atomic p (ec_data chunk) false) in
  ret p.

Definition read_chunk (paths : LibraryPaths) (index expected_size : Z)
    : M World FileError EncryptedChunk :=
  let! data := map_err FE_Io (read_file (chunk_path paths index)) in
  let actual := zlen data in
  if decide (actual ≠ expected_size) then throw (ChunkSizeMismatch index expected_size actual)
  else ret (mkEncryptedChunk index data).

Definition library_has_chunk (paths : LibraryPaths) (index : Z) (w : World) : bool :=
  is_file (chunk_path paths index) w.

(** * [state/library.rs] *)
Definition summary_leb (a b : LocalShareSummary) : bool :=
  match str_compare (d_name (ls_descriptor a)) (d_name (ls_descriptor b)) with
  | Lt => true
  | Gt => false
  | Eq =>
      match str_compare (ShareId_to_string (d_share_id (ls_descriptor a)))
              (ShareId_to_string (d_share_id (ls_descriptor b))) with
      | Gt => false
      | _ => true
      end
  end.

(** [if path.is_file() { Some(read(..)?) } else { None }] *)
Definition read_if_file {A} (p : path) (read : M World FileError A) : M World FileError (option A) :=
  let! present := gets (is_file p) in
  if (present : bool) then
    let! a := read in
    ret (Some a)
  else ret None.

(** The part of the loop body that reads one share. *)
Definition read_summary (paths : LibraryPaths) : M World FileError LocalShareSummary :=
  let! descriptor := read_descriptor paths in
  let! progress := read_if_file (progress_path paths) (read_progress paths) in
  let! state := read_if_file (state_path paths) (read_state paths) in
  let! has_secret := gets (is_file (secret_path paths)) in
  ret (mkLocalShareSummary paths descriptor progress state has_secret).

Definition list_entry (root : path) (shares : list LocalShareSummary) (entry : string * node)
    : M World FileError (list LocalShareSummary) :=
  let! ty := map_err FE_Io (file_type entry.2) in
  match ty with
  | File _ => ret shares
  | Dir =>
      match ShareId_from_str entry.1 with
      | Ok share_id =>
          let paths := for_share root share_id in
          let! present := gets (is_file (descriptor_path paths)) in
          if negb present then ret shares
          else
            let! summary := read_summary paths in
            ret (shares ++ [summary])
      | _ => ret shares
      end
  end.

Definition library_list (root : path) : M World FileError (list LocalShareSummary) :=
  let library_dir := root ++ [ETLE_DIR_NAME; LIBRARY_DIR_NAME] in
  let! present := gets (path_exists library_dir) in
  if negb present then ret []
  else
    let! entries := map_err FE_Io (read_dir library_dir) in
    let! shares := mfold (list_entry root) [] entries in
    ret (sort_by summary_leb shares).

Definition initial_progress (descriptor : EtleDescriptor) (mode : ShareMode) : DownloadProgress :=
  match mode with
  | Seeding | Completed =>
      DownloadProgress_new (d_share_id descriptor) (cm_index <$> d_chunks descriptor)
  | Downloading | Paused => DownloadProgress_empty (d_share_id descriptor)
  end.

Definition library_init (root : path) (descriptor : EtleDescriptor) (file_key : SymmetricKey)
    (mode : ShareMode) (out_dir : option path) : M World FileError LibraryPaths :=
  let paths := for_share root (d_share_id descriptor) in
  do! map_err FE_Io (create_dir_all (chunks_dir paths)) in
  do! map_err FE_Io (create_dir_all (output_dir paths)) in
  do! write_descriptor paths descriptor in
  do! write_secret paths (EtleSecret_new (d_share_id descriptor) file_key) in
  let progress := initial_progress descriptor mode in
  do! write_progress paths progress in
  do! write_state paths (from_progress mode out_dir progress) in
  ret paths.

Definition library_delete (root : path) (share_id : ShareId) : M World FileError bool :=
  let paths := for_share root share_id in
  let dir := share_dir paths in
  let! present := gets (path_exists dir) in
  if negb present then ret false
  else
    do! map_err FE_Io (remove_dir_all dir) in
    ret true.
End storage.

(** * Atomic replacement: the specification *)
Lemma str_app_assoc s1 s2 s3 : (s1 +:+ s2) +:+ s3 = s1 +:+ s2 +:+ s3.
Proof. apply str_bytes_inj. by rewrite !str_bytes_app, app_assoc. Qed.

Lemma str_len_app s1 s2 : str_len (s1 +:+ s2) = str_len s1 + str_len s2.
Proof. unfold str_len. by rewrite str_bytes_app, zlen_app. Qed.

Lemma tmp_name_ne name pid nanos : tmp_name name pid nanos ≠ name.
Proof.
  intros Heq%(f_equal str_len). unfold tmp_name in Heq. rewrite !str_len_app in Heq.
  pose proof (zlen_nonneg (str_bytes (dec pid))). pose proof (zlen_nonneg (str_bytes (dec nanos))).
  change (str_len ".") with 1 in Heq. unfold str_len in *. change (zlen (str_bytes ".tmp")) with 4 in Heq. lia.
Qed.

Lemma path_file_name_snoc (p : path) x : path_file_name (p ++ [x]) = Some x.
Proof. apply last_snoc. Qed.

Lemma path_snoc (p : path) : p ≠ [] → ∃ q x, p = q ++ [x].
Proof. intros Hp. destruct (exists_last Hp) as (q & x & ->). eauto. Qed.

Lemma tmp_path_snoc p x pid nanos : tmp_path (p ++ [x]) pid nanos = p ++ [tmp_name x pid nanos].
Proof. unfold tmp_path. by rewrite parent_snoc, path_file_name_snoc. Qed.

Lemma tmp_path_ne p pid nanos : p ≠ [] → tmp_path p pid nanos ≠ p.
Proof.
  intros (q & x & ->)%path_snoc. rewrite tmp_path_snoc. intros Heq%app_inv_head.
  injection Heq as Heq. by apply tmp_name_ne in Heq.
Qed.

Lemma not_ancestor_snoc (p : path) x : p ++ [x] ∉ ancestors p.
Proof.
  intros [_ [k Hk]]%elem_of_ancestors. apply (f_equal length) in Hk. rewrite !length_app in Hk.
  simpl in Hk. lia.
Qed.

Lemma mkdirs_id m ps : Forall (λ q, m !! q = Some Dir) ps → mkdirs m ps = m.
Proof.
  induction 1 as [|q ps Hq Hps IH]; [done|]. change (mkdirs m (q :: ps)) with (<[q := Dir]> (mkdirs m ps)).
  rewrite IH. by apply insert_id.
Qed.

(** Nothing prevents an atomic write to [p]. *)
Definition can_write (m : fs) (p : path) (pid : Z) : Prop :=
  p ≠ [] ∧ dirs_free m (parent_or_empty p) ∧ m !! p ≠ Some Dir
  ∧ ∀ nanos, m !! tmp_path p pid nanos = None.

(** What a failing atomic write may have changed: directories, and the temporary
    file. *)
Definition only_tmp (m m' : fs) (tmp : path) : Prop :=
  ∀ q, q ≠ tmp → file_at m' q = file_at m q.

Lemma wp_unix_nanos {E} (Q : Z → World → Prop) (R : E → World → Prop) w :
  (∀ t w', stepped w w' → Q t w') → wp unix_nanos Q R w.
Proof. intros HQ. unfold unix_nanos, wp, bind, now, ret. by apply HQ. Qed.

(** The cleanup after a failure: whatever the removal does, only the temporary
    file is concerned. *)
Lemma wp_cleanup tmp m0 (error : io_kind) w (Q : unit → World → Prop) (R : io_kind → World → Prop) :
  only_tmp m0 (w_fs w) tmp →
  (∀ m' w', fs_step w m' w' → only_tmp m0 m' tmp → R error w') →
  wp (let! _ignored := try_ (remove_file tmp) in throw error) Q R w.
Proof.
  intros Hot HR. wp_simpl. apply wp_remove_file.
  - intros k w' Hst _. wp_simpl. eapply HR; [by apply stepped_fs_step|done].
  - intros d w' _ Hst. wp_simpl. eapply HR; [done|]. intros q Hq. rewrite file_at_delete.
    rewrite decide_False by done. by apply Hot.
Qed.

Lemma only_tmp_insert m m' tmp d : only_tmp m m' tmp → only_tmp m (<[tmp := File d]> m') tmp.
Proof. intros H q Hq. rewrite file_at_insert_ne by done. by apply H. Qed.

Lemma wp_write_file_atomic p data secret (Q : unit → World → Prop) (R : io_kind → World → Prop) w :
  p ≠ [] →
  (∀ k m' nanos w', fs_step w m' w' → only_tmp (w_fs w) m' (tmp_path p (env_pid (w_env w)) nanos) →
     (no_faults w → ¬ can_write (w_fs w) p (env_pid (w_env w))) → R k w') →
  (∀ w', dirs_free (w_fs w) (parent_or_empty p) →
     fs_step w (<[p := File data]> (mkdirs (w_fs w) (ancestors (parent_or_empty p)))) w' → Q tt w') →
  wp (write_file_atomic p data secret) Q R w.
Proof.
  intros Hp HR HQ. unfold write_file_atomic. wp_simpl. apply wp_create_dir_all.
  { intros k ps w' Hst _ Hps Hnf. eapply (HR _ _ 0); [done| |].
    - intros q _. by apply file_at_mkdirs.
    - intros Hn (_ & ? & _). by apply Hnf. }
  intros w1 [Hfree Hanc] Hst1. wp_simpl. set (m1 := mkdirs _ _) in *. set (pid := env_pid (w_env w1)).
  assert (env_pid (w_env w) = pid) as Hpid by (unfold pid; by destruct Hst1 as [-> _]).
  rewrite Hpid in HR.
  apply wp_unix_nanos. intros nanos w2 Hst2. set (tmp := tmp_path p pid nanos).
  assert (fs_step w m1 w2) as Hst12 by fs_chain.
  assert (only_tmp (w_fs w) m1 tmp) as Hot1 by (intros q _; by apply file_at_mkdirs).
  assert (tmp ≠ p) as Htp by (by apply tmp_path_ne).
  assert (p ∉ ancestors (parent_or_empty p) ∧ tmp ∉ ancestors (parent_or_empty p)) as [Hpa Hta].
  { destruct (path_snoc p Hp) as (q & x & ->). unfold tmp. rewrite tmp_path_snoc, parent_snoc.
    split; apply not_ancestor_snoc. }
  assert (parent_or_empty tmp = parent_or_empty p) as Hpar by (unfold tmp, tmp_path; by rewrite parent_snoc).
  assert (can_write (w_fs w) p pid → can_create m1 tmp ∧ m1 !! tmp = None) as Hcan.
  { intros (_ & _ & _ & Hn). assert (m1 !! tmp = None) as Hn1
      by (unfold m1; rewrite lookup_mkdirs, decide_False; [apply Hn|done]).
    split; [|done]. split_and!; [by unfold tmp, tmp_path; destruct (parent_or_empty p)|by rewrite Hn1|].
    rewrite Hpar. apply is_dir_in_mkdirs_ancestors. }
  wp_simpl. apply wp_file_create_new; rewrite (fs_step_fs _ _ _ Hst12).
  { intros k w' Hst Hnf. eapply (HR _ m1 nanos); [fs_chain|done|].
    intros Hn Hcw. apply (fs_step_no_faults _ _ _ Hst12) in Hn. destruct (Hcan Hcw) as [Hc1 Hc2].
    destruct (Hnf Hn) as [?|[? ?]]; [done|congruence]. }
  intros w3 Hcc Hnone Hst3. assert (fs_step w (<[tmp := File []]> m1) w3) as Hst13 by fs_chain.
  assert (no_faults w → no_faults w3) as Hnf3 by (apply (fs_step_no_faults _ _ _ Hst13)).
  assert (∀ e d w', fs_step w (<[tmp := File d]> m1) w' → (no_faults w → ¬ can_write (w_fs w) p pid) →
    wp (let! _ignored := try_ (remove_file tmp) in throw e) Q R w') as Hclean.
  { intros e d w' Hst Hnf. eapply wp_cleanup.
    - rewrite (fs_step_fs _ _ _ Hst). by apply only_tmp_insert.
    - intros m' w'' Hst' Hot. eapply HR; [fs_chain|done|done]. }
  wp_simpl. apply wp_file_write_all; rewrite (fs_step_fs _ _ _ Hst13).
  { intros k n w' Hst Hnf. rewrite append_at_insert in Hst. eapply Hclean; [fs_chain|]. tauto. }
  intros w4 Hst4. rewrite append_at_insert in Hst4. simpl in Hst4.
  assert (fs_step w (<[tmp := File data]> m1) w4) as Hst14 by fs_chain.
  assert (no_faults w → no_faults w4) as Hnf4 by (apply (fs_step_no_faults _ _ _ Hst14)).
  apply wp_file_sync.
  { intros k w' Hst Hnf. eapply Hclean; [fs_chain|]. tauto. }
  intros w5 Hst5. assert (fs_step w (<[tmp := File data]> m1) w5) as Hst15 by fs_chain.
  assert (no_faults w → no_faults w5) as Hnf5 by (apply (fs_step_no_faults _ _ _ Hst15)).
  wp_simpl. apply wp_rename; rewrite (fs_step_fs _ _ _ Hst15).
  { intros k w' Hst Hnf. eapply Hclean; [fs_chain|]. intros Hn (_ & _ & Hnd & _).
    apply (Hnf (Hnf5 Hn)). split; [|rewrite file_at_insert_eq; by eexists].
    split_and!; [done| |].
    - rewrite lookup_insert_ne by done. unfold m1. by rewrite lookup_mkdirs, decide_False.
    - apply is_dir_in_insert_file; [by rewrite Hnone|]. apply is_dir_in_mkdirs_ancestors. }
  intros d w6 Hd Hst6. rewrite file_at_insert_eq in Hd. simplify_eq. wp_simpl. apply HQ; [by split|].
  rewrite delete_insert_id in Hst6 by done. fs_chain.
Qed.

(** * Directories the library writes to *)
Definition plain_name (name : string) : Prop := head (str_bytes name) ≠ Some Byte.x2e.

Lemma tmp_name_head name pid nanos : head (str_bytes (tmp_name name pid nanos)) = Some Byte.x2e.
Proof. unfold tmp_name. rewrite str_bytes_app. reflexivity. Qed.

Lemma chunk_file_name_plain i : 0 ≤ i → plain_name (chunk_file_name i).
Proof.
  intros Hi. unfold plain_name, chunk_file_name. rewrite str_bytes_app.
  pose proof (dec_pad6_digits i Hi) as Hd. pose proof (dec_pad6_nonempty i) as Hn.
  destruct (str_bytes (dec_pad6 i)) as [|b l]; [done|]. simpl. intros [= ->].
  apply Forall_cons in Hd as [Hd _]. change (byte_val Byte.x2e) with 46 in Hd. lia.
Qed.

Lemma chunk_file_name_inj i j : 0 ≤ i → 0 ≤ j → chunk_file_name i = chunk_file_name j → i = j.
Proof. intros Hi Hj Heq%str_app_inj_r. by apply dec_pad6_inj. Qed.

(** [dir] exists, none of the names in [P] is taken by a directory and no
    temporary file is left in it. *)
Definition dir_ok (m : fs) (dir : path) (pid : Z) (P : string → Prop) : Prop :=
  dir ≠ [] ∧ Forall (λ q, m !! q = Some Dir) (ancestors dir)
  ∧ (∀ name, P name → m !! (dir ++ [name]) ≠ Some Dir)
  ∧ (∀ name nanos, m !! (dir ++ [tmp_name name pid nanos]) = None).

Lemma dir_ok_insert m dir pid P dir' name d :
  dir_ok m dir pid P → m !! (dir' ++ [name]) ≠ Some Dir → plain_name name →
  dir_ok (<[dir' ++ [name] := File d]> m) dir pid P.
Proof.
  intros (Hne & Hanc & HP & Htmp) Hnd Hpl. split_and!; [done| | |].
  - rewrite Forall_forall in Hanc |- *. intros q Hq. rewrite lookup_insert_ne; [by apply Hanc|].
    intros Heq. apply Hnd. rewrite Heq. by apply Hanc.
  - intros n Hn. rewrite lookup_insert. case_decide; [done|]. by apply HP.
  - intros n t. rewrite lookup_insert_ne; [done|]. intros Heq. apply app_inj_tail in Heq as [_ ->].
    apply Hpl. apply tmp_name_head.
Qed.

Lemma dir_ok_mkdirs m dir pid P : dir_ok m dir pid P → mkdirs m (ancestors dir) = m.
Proof. intros (_ & Hanc & _). by apply mkdirs_id. Qed.

Lemma dir_ok_free m dir pid P : dir_ok m dir pid P → dirs_free m dir.
Proof.
  intros (Hne & Hanc & _). rewrite Forall_forall in Hanc.
  assert (∀ q, q ∈ ancestors dir → file_at m q = None) as Hf.
  { intros q Hq. unfold file_at. by rewrite (Hanc q Hq). }
  split; [|by apply Forall_forall]. apply Hf, elem_of_ancestors. done.
Qed.

Lemma wp_write_in_dir dir name data secret P w :
  no_faults w → dir_ok (w_fs w) dir (env_pid (w_env w)) P → P name →
  wp (write_file_atomic (dir ++ [name]) data secret)
    (λ _ w', fs_step w (<[dir ++ [name] := File data]> (w_fs w)) w') (λ _ _, False) w.
Proof.
  intros Hnf Hok HP. apply wp_write_file_atomic; [by destruct dir| |].
  - intros k m' nanos w' _ _ Hn. apply (Hn Hnf). split_and!; [by destruct dir| | |].
    + rewrite parent_snoc. by eapply dir_ok_free.
    + by apply Hok.
    + intros t. rewrite tmp_path_snoc. apply Hok.
  - intros w' _ Hst. by rewrite parent_snoc, (dir_ok_mkdirs _ _ _ _ Hok) in Hst.
Qed.

Lemma wp_create_dir_ok dir P w :
  no_faults w → dir_ok (w_fs w) dir (env_pid (w_env w)) P →
  wp (create_dir_all dir) (λ _ w', stepped w w') (λ _ _, False) w.
Proof.
  intros Hnf Hok. apply wp_create_dir_all.
  - intros k ps w' _ _ _ Hn. apply (Hn Hnf). by eapply dir_ok_free.
  - intros w' _ Hst. rewrite (dir_ok_mkdirs _ _ _ _ Hok) in Hst. by apply fs_step_stepped.
Qed.

(** The four files of a share directory. *)
Definition share_file (name : string) : Prop :=
  name ∈ [DESCRIPTOR_FILE_NAME; SECRET_FILE_NAME; PROGRESS_FILE_NAME; STATE_FILE_NAME].
Definition chunk_file (name : string) : Prop := ∃ i, 0 ≤ i ∧ name = chunk_file_name i.

Lemma share_file_plain name : share_file name → plain_name name.
Proof.
  unfold share_file, plain_name. rewrite !elem_of_cons, elem_of_nil.
  intros [->|[->|[->|[->|[]]]]]; vm_compute; congruence.
Qed.

Definition share_ok (w : World) (paths : LibraryPaths) : Prop :=
  dir_ok (w_fs w) (share_dir paths) (env_pid (w_env w)) share_file
  ∧ dir_ok (w_fs w) (chunks_dir paths) (env_pid (w_env w)) chunk_file.

Lemma fs_step_pid w m w' : fs_step w m w' → env_pid (w_env w') = env_pid (w_env w).
Proof. by intros [-> _]. Qed.

Lemma share_ok_stepped w w' paths : stepped w w' → share_ok w paths → share_ok w' paths.
Proof. unfold share_ok. by intros (-> & -> & _). Qed.

Lemma share_ok_insert w m w' paths dir name d :
  share_ok w paths → fs_step w m w' → m = <[dir ++ [name] := File d]> (w_fs w) →
  w_fs w !! (dir ++ [name]) ≠ Some Dir → plain_name name → share_ok w' paths.
Proof.
  intros [H1 H2] Hst -> Hnd Hpl. unfold share_ok.
  rewrite (fs_step_pid _ _ _ Hst), (fs_step_fs _ _ _ Hst). split; by apply dir_ok_insert.
Qed.

(** Writing one of the four files. *)
Lemma wp_write_share_file paths id name encoded data secret w :
  no_faults w → share_ok w paths → share_file name → lp_share_id paths = id → encoded = Ok data →
  wp (write_share_file paths id (share_dir paths ++ [name]) encoded secret)
    (λ _ w', fs_step w (<[share_dir paths ++ [name] := File data]> (w_fs w)) w' ∧ share_ok w' paths)
    (λ _ _, False) w.
Proof.
  intros Hnf Hok Hname <- ->. unfold write_share_file, ensure_share_id. rewrite decide_True by done.
  wp_simpl. eapply wp_mono; [apply (wp_create_dir_ok _ share_file); [done|apply Hok]| |done].
  simpl. intros _ w1 Hst1. wp_simpl.
  apply (share_ok_stepped _ _ _ Hst1) in Hok as Hok1. apply (stepped_no_faults _ _ Hst1) in Hnf as Hnf1.
  eapply wp_mono; [apply (wp_write_in_dir _ _ _ _ share_file); [done|apply Hok1|done]| |done].
  simpl. intros _ w2 Hst2. rewrite (stepped_fs _ _ Hst1) in Hst2. split; [fs_chain|].
  eapply (share_ok_insert w1); [done|done| | |by apply share_file_plain].
  - by rewrite (stepped_fs _ _ Hst1).
  - by apply Hok1.
Qed.

(** * Initialising a share *)
Definition share_absent (m : fs) (paths : LibraryPaths) : Prop :=
  dirs_free m (share_dir paths) ∧ ∀ q, share_dir paths `prefix_of` q → m !! q = None.

Lemma prefix_snoc_ancestors p x q :
  q ∈ ancestors (p ++ [x]) ↔ q ∈ ancestors p ∨ q = p ++ [x].
Proof.
  rewrite !elem_of_ancestors. split.
  - intros [Hq [k Hk]]. destruct k as [|y k _] using rev_ind.
    + right. by rewrite app_nil_r in Hk.
    + left. rewrite app_assoc in Hk. apply app_inj_tail in Hk as [Hk _]. split; [done|]. by exists k.
  - intros [[Hq Hp]| ->]; [split; [done|by apply prefix_app_r]|]. split; [by destruct p|done].
Qed.

Lemma dirs_free_snoc m p x :
  dirs_free m p → file_at m (p ++ [x]) = None → dirs_free m (p ++ [x]).
Proof.
  intros [Hp Hanc] Hx. split; [done|]. rewrite Forall_forall in Hanc |- *.
  intros q [Hq| ->]%prefix_snoc_ancestors; [by apply Hanc|done].
Qed.

Lemma file_at_None_lookup (m : fs) p : m !! p = None → file_at m p = None.
Proof. unfold file_at. by intros ->. Qed.

(** The file system after the two [create_dir_all] calls of [init]. *)
Definition with_share_dirs (m : fs) (paths : LibraryPaths) : fs :=
  mkdirs (mkdirs m (ancestors (chunks_dir paths))) (ancestors (output_dir paths)).

Lemma lookup_share_dirs m paths q :
  with_share_dirs m paths !! q =
  if decide (q ∈ ancestors (share_dir paths) ∨ q = chunks_dir paths ∨ q = output_dir paths)
  then Some Dir else m !! q.
Proof.
  unfold with_share_dirs. rewrite !lookup_mkdirs. unfold chunks_dir, output_dir.
  pose proof (prefix_snoc_ancestors (share_dir paths) CHUNKS_DIR_NAME q) as Hc.
  pose proof (prefix_snoc_ancestors (share_dir paths) OUTPUT_DIR_NAME q) as Ho.
  repeat case_decide; tauto.
Qed.

Lemma share_dir_nonempty paths : share_dir paths ≠ [].
Proof. unfold share_dir. by destruct (library_dir paths). Qed.

(** Below the share directory only the two new directories exist. *)
Lemma lookup_share_dirs_below m paths k :
  share_absent m paths → k ≠ [] → k ≠ [CHUNKS_DIR_NAME] → k ≠ [OUTPUT_DIR_NAME] →
  with_share_dirs m paths !! (share_dir paths ++ k) = None.
Proof.
  intros [_ Habs] Hk Hc Ho. rewrite lookup_share_dirs, decide_False.
  - apply Habs. by eexists.
  - intros [Hanc|[Heq|Heq]].
    + apply elem_of_ancestors in Hanc as [_ [j Hj]]. rewrite <- app_assoc in Hj.
      rewrite <- (app_nil_r (share_dir paths)) in Hj at 1. apply app_inv_head in Hj. by destruct k.
    + unfold chunks_dir in Heq. by apply app_inv_head in Heq.
    + unfold output_dir in Heq. by apply app_inv_head in Heq.
Qed.

Lemma share_absent_ok m paths w :
  share_absent m paths → w_fs w = with_share_dirs m paths → share_ok w paths.
Proof.
  intros Habs Hw. unfold share_ok. rewrite Hw. split.
  - split_and!; [apply share_dir_nonempty| | |].
    + apply Forall_forall. intros q Hq. rewrite lookup_share_dirs, decide_True; tauto.
    + intros name Hname. rewrite lookup_share_dirs_below; [done|done|done| |];
        intros [= ->]; unfold share_file in Hname; revert Hname;
        rewrite !elem_of_cons, elem_of_nil; intros [?|[?|[?|[?|[]]]]]; discriminate.
    + intros name t. apply lookup_share_dirs_below; [done|done| |];
        intros [= Heq]; pose proof (tmp_name_head name (env_pid (w_env w)) t) as Hh; by rewrite Heq in Hh.
  - split_and!; [by unfold chunks_dir; destruct (share_dir paths)| | |].
    + apply Forall_forall. intros q Hq. rewrite lookup_share_dirs, decide_True; [done|].
      apply prefix_snoc_ancestors in Hq as [?| ->]; [tauto|]. right. by left.
    + intros name _. unfold chunks_dir. rewrite <- app_assoc.
      by rewrite lookup_share_dirs_below.
    + intros name t. unfold chunks_dir. rewrite <- app_assoc. by apply lookup_share_dirs_below.
Qed.

Section init_spec.
Context `{Blake3} `{BincodeLaws EtleDescriptor, BincodeLaws EtleSecret}.
Context `{BincodeLaws CompactDownloadProgress, Bincode DownloadProgress}.
Context `{BincodeLaws CompactShareState, Bincode ShareState}.
Context (paths : LibraryPaths) (descriptor : EtleDescriptor) (secret : EtleSecret)
        (progress : DownloadProgress) (state : ShareState).

(** The four files hold the four records. *)
Definition share_holds (m : fs) : Prop :=
  (∃ b, EtleDescriptor_to_bytes descriptor = Some b ∧ file_at m (descriptor_path paths) = Some b)
  ∧ (∃ b, EtleSecret_to_bytes secret = Some b ∧ file_at m (secret_path paths) = Some b)
  ∧ (∃ b, DownloadProgress_to_bytes progress = Ok b ∧ file_at m (progress_path paths) = Some b)
  ∧ (∃ b, ShareState_to_bytes state = Ok b ∧ file_at m (state_path paths) = Some b).

Definition share_ids : Prop :=
  d_share_id descriptor = lp_share_id paths ∧ es_share_id secret = lp_share_id paths
  ∧ dp_share_id progress = lp_share_id paths ∧ ss_share_id state = lp_share_id paths
  ∧ verify_share_id descriptor = true ∧ progress_wf progress
  ∧ chunk_list_wf (ss_completed_chunks state).

Lemma wp_read_descriptor_holds w :
  no_faults w → share_holds (w_fs w) → share_ids →
  wp (read_descriptor paths) (λ d w', d = descriptor ∧ stepped w w') (λ _ _, False) w.
Proof using All.
  intros Hnf ((b & Hb & Hf) & _) (Hid & _ & _ & _ & Hv & _). unfold read_descriptor. wp_simpl.
  apply wp_read_file; [rewrite Hf; naive_solver|]. intros d w1 Hd Hst. simplify_eq. wp_simpl.
  unfold EtleDescriptor_from_bytes. rewrite (decode_exact_encode _ descriptor) by done.
  cbn [result_map_err]. wp_simpl. unfold ensure_share_id. rewrite decide_True by done. wp_simpl.
  by rewrite Hv.
Qed.

Lemma wp_read_secret_holds w :
  no_faults w → share_holds (w_fs w) → share_ids →
  wp (read_secret paths) (λ s w', s = secret ∧ stepped w w') (λ _ _, False) w.
Proof using All.
  intros Hnf (_ & (b & Hb & Hf) & _) (_ & Hid & _). unfold read_secret. wp_simpl.
  apply wp_read_file; [rewrite Hf; naive_solver|]. intros d w1 Hd Hst. simplify_eq. wp_simpl.
  unfold EtleSecret_from_bytes. rewrite (decode_exact_encode _ secret) by done.
  cbn [result_map_err]. wp_simpl. unfold ensure_share_id. rewrite decide_True by done. by wp_simpl.
Qed.

Lemma wp_read_progress_holds w :
  no_faults w → share_holds (w_fs w) → share_ids →
  wp (read_progress paths) (λ p w', p = progress ∧ stepped w w') (λ _ _, False) w.
Proof using All.
  intros Hnf (_ & _ & (b & Hb & Hf) & _) (_ & _ & Hid & _ & _ & Hwf & _). unfold read_progress. wp_simpl.
  apply wp_read_file; [rewrite Hf; naive_solver|]. intros d w1 Hd Hst. simplify_eq. wp_simpl.
  rewrite (progress_from_to_bytes progress) by done.
  cbn [result_map_err]. wp_simpl. unfold ensure_share_id. rewrite decide_True by done. by wp_simpl.
Qed.

Lemma wp_read_state_holds w :
  no_faults w → share_holds (w_fs w) → share_ids →
  wp (read_state paths) (λ s w', s = state ∧ stepped w w') (λ _ _, False) w.
Proof using All.
  intros Hnf (_ & _ & _ & (b & Hb & Hf)) (_ & _ & _ & Hid & _ & _ & Hwf). unfold read_state. wp_simpl.
  apply wp_read_file; [rewrite Hf; naive_solver|]. intros d w1 Hd Hst. simplify_eq. wp_simpl.
  rewrite (state_from_to_bytes state) by done.
  cbn [result_map_err]. wp_simpl. unfold ensure_share_id. rewrite decide_True by done. by wp_simpl.
Qed.
End init_spec.

Section library_init.
Context `{Blake3} `{Bincode EtleDescriptor, Bincode EtleSecret}.
Context `{Bincode CompactDownloadProgress, Bincode DownloadProgress}.
Context `{Bincode CompactShareState, Bincode ShareState}.
Context (root : path) (descriptor : EtleDescriptor) (file_key : SymmetricKey) (mode : ShareMode)
        (out_dir : option path).

Let paths := for_share root (d_share_id descriptor).
Let secret := EtleSecret_new (d_share_id descriptor) file_key.
Let progress := initial_progress descriptor mode.
Let state := from_progress mode out_dir progress.

Lemma initial_progress_id : dp_share_id progress = d_share_id descriptor.
Proof. unfold progress, initial_progress. by destruct mode. Qed.

(** The four files of a new share. *)
Definition with_share_files (bd bs bp bst : bytes) (m : fs) : fs :=
  <[state_path paths := File bst]> (<[progress_path paths := File bp]> (<[secret_path paths := File bs]>
    (<[descriptor_path paths := File bd]> m))).

Lemma wp_library_init bd bs bp bst w :
  no_faults w → share_absent (w_fs w) paths →
  EtleDescriptor_to_bytes descriptor = Some bd → EtleSecret_to_bytes secret = Some bs →
  DownloadProgress_to_bytes progress = Ok bp → ShareState_to_bytes state = Ok bst →
  wp (library_init root descriptor file_key mode out_dir)
    (λ p w', p = paths ∧ no_faults w' ∧ share_ok w' paths
             ∧ share_holds paths descriptor secret progress state (w_fs w')
             ∧ fs_step w (with_share_files bd bs bp bst (with_share_dirs (w_fs w) paths)) w') (λ _ _, False) w.
Proof.
  intros Hnf Habs Hbd Hbs Hbp Hbst. unfold library_init. wp_simpl.
  assert (dirs_free (w_fs w) (chunks_dir paths)) as Hfc.
  { apply dirs_free_snoc; [apply Habs|]. apply file_at_None_lookup, Habs. by eexists. }
  apply wp_create_dir_all; [naive_solver|]. intros w1 _ Hst1. wp_simpl.
  assert (dirs_free (w_fs w1) (output_dir paths)) as Hfo.
  { rewrite (fs_step_fs _ _ _ Hst1). destruct Hfc as [_ Hanc]. destruct Habs as [[Hs Hsa] Hbelow].
    apply dirs_free_snoc; [split|].
    - by rewrite file_at_mkdirs.
    - eapply Forall_impl; [exact Hsa|]. simpl. intros q Hq. by rewrite file_at_mkdirs.
    - rewrite file_at_mkdirs by done. apply file_at_None_lookup, Hbelow. by eexists. }
  apply (fs_step_no_faults _ _ _ Hst1) in Hnf as Hnf1.
  apply wp_create_dir_all; [naive_solver|]. intros w2 _ Hst2. wp_simpl.
  rewrite (fs_step_fs _ _ _ Hst1) in Hst2.
  assert (share_ok w2 paths) as Hok2 by (eapply share_absent_ok; [done|by eapply fs_step_fs]).
  apply (fs_step_no_faults _ _ _ Hst2) in Hnf1 as Hnf2.
  eapply wp_mono; [apply (wp_write_share_file paths _ DESCRIPTOR_FILE_NAME _ bd); try done| |done].
  { apply elem_of_cons. by left. } { by apply ok_or_Ok. }
  intros _ w3 [Hst3 Hok3]. wp_simpl. apply (fs_step_no_faults _ _ _ Hst3) in Hnf2 as Hnf3.
  eapply wp_mono; [apply (wp_write_share_file paths _ SECRET_FILE_NAME _ bs); try done| |done].
  { unfold share_file. set_solver. } { by apply ok_or_Ok. }
  intros _ w4 [Hst4 Hok4]. wp_simpl. apply (fs_step_no_faults _ _ _ Hst4) in Hnf3 as Hnf4.
  eapply wp_mono; [apply (wp_write_share_file paths _ PROGRESS_FILE_NAME _ bp); try done| |done].
  { unfold share_file. set_solver. } { symmetry. apply initial_progress_id. }
  intros _ w5 [Hst5 Hok5]. wp_simpl. apply (fs_step_no_faults _ _ _ Hst5) in Hnf4 as Hnf5.
  eapply wp_mono; [apply (wp_write_share_file paths _ STATE_FILE_NAME _ bst); try done| |done].
  { unfold share_file. set_solver. } { symmetry. apply initial_progress_id. }
  intros _ w6 [Hst6 Hok6]. wp_simpl. split; [done|].
  split; [by apply (fs_step_no_faults _ _ _ Hst6)|]. split; [done|].
  assert (fs_step w (with_share_files bd bs bp bst (with_share_dirs (w_fs w) paths)) w6) as Hst.
  { rewrite (fs_step_fs _ _ _ Hst2) in Hst3. rewrite (fs_step_fs _ _ _ Hst3) in Hst4.
    rewrite (fs_step_fs _ _ _ Hst4) in Hst5. rewrite (fs_step_fs _ _ _ Hst5) in Hst6.
    do 5 (eapply fs_step_trans; [eassumption|]). exact Hst6. }
  split; [|exact Hst].
  rewrite (fs_step_fs _ _ _ Hst6), (fs_step_fs _ _ _ Hst5), (fs_step_fs _ _ _ Hst4), (fs_step_fs _ _ _ Hst3).
  assert (∀ a b : string, a ≠ b → share_dir paths ++ [a] ≠ share_dir paths ++ [b]) as Hne.
  { intros a b Hab Heq. apply app_inv_head in Heq. by injection Heq. }
  unfold share_holds, descriptor_path, secret_path, progress_path, state_path.
  split_and!; [exists bd|exists bs|exists bp|exists bst]; (split; [done|]).
  - rewrite !file_at_insert_ne by (by apply Hne). apply file_at_insert_eq.
  - rewrite !file_at_insert_ne by (by apply Hne). apply file_at_insert_eq.
  - rewrite file_at_insert_ne by (by apply Hne). apply file_at_insert_eq.
  - apply file_at_insert_eq.
Qed.
Context `{!BincodeLaws EtleDescriptor, !BincodeLaws EtleSecret}.
Context `{!BincodeLaws CompactDownloadProgress, !BincodeLaws CompactShareState}.
Context (Hverify : verify_share_id descriptor = true)
        (Hchunks : Forall ChunkMeta_wf (d_chunks descriptor)).

Lemma initial_progress_wf : progress_wf progress.
Proof using All.
  assert (Forall u32_range (cm_index <$> d_chunks descriptor)) as Hr.
  { apply Forall_fmap. eapply Forall_impl; [exact Hchunks|]. by intros c [? _]. }
  unfold progress, initial_progress. destruct mode; apply normalize_wf; done || constructor.
Qed.

Lemma init_share_ids : share_ids paths descriptor secret progress state.
Proof using All.
  pose proof initial_progress_wf as Hwf. split_and!; try done.
  - apply initial_progress_id.
  - apply initial_progress_id.
  - cbn [state from_progress ShareState_new ss_completed_chunks]. apply normalize_wf. apply Hwf.
Qed.
End library_init.

(** * Chunks *)
Lemma wp_write_chunk paths chunk w :
  no_faults w → share_ok w paths → 0 ≤ ec_index chunk →
  wp (write_chunk paths chunk)
    (λ p w', p = chunk_path paths (ec_index chunk) ∧ share_ok w' paths
       ∧ fs_step w (<[chunk_path paths (ec_index chunk) := File (ec_data chunk)]> (w_fs w)) w')
    (λ _ _, False) w.
Proof.
  intros Hnf Hok Hi. unfold write_chunk. wp_simpl.
  eapply wp_mono; [apply (wp_create_dir_ok _ chunk_file); [done|apply Hok]| |done].
  simpl. intros _ w1 Hst1. wp_simpl.
  apply (share_ok_stepped _ _ _ Hst1) in Hok as Hok1. apply (stepped_no_faults _ _ Hst1) in Hnf as Hnf1.
  assert (chunk_file (chunk_file_name (ec_index chunk))) as Hcf by (by exists (ec_index chunk)).
  eapply wp_mono; [apply (wp_write_in_dir _ _ _ _ chunk_file); [done|apply Hok1|done]| |done].
  simpl. intros _ w2 Hst2. wp_simpl. rewrite (stepped_fs _ _ Hst1) in Hst2. split; [done|].
  split; [|fs_chain]. eapply (share_ok_insert w1); [done|done| | |by apply chunk_file_name_plain].
  - by rewrite (stepped_fs _ _ Hst1).
  - by apply Hok1.
Qed.

(** * Listing *)
Lemma summary_leb_path a b :
  summary_leb a b =
  path_leb [d_name (ls_descriptor a); ShareId_to_string (d_share_id (ls_descriptor a))]
           [d_name (ls_descriptor b); ShareId_to_string (d_share_id (ls_descriptor b))].
Proof.
  unfold summary_leb, path_leb, path_compare. cbn [lex_compare].
  destruct (str_compare (d_name _) _); [|done|done].
  by destruct (str_compare (ShareId_to_string _) _).
Qed.

Section list_spec.
Context `{Blake3} `{Bincode EtleDescriptor, Bincode EtleSecret}.
Context `{Bincode CompactDownloadProgress, Bincode DownloadProgress}.
Context `{Bincode CompactShareState, Bincode ShareState}.

Lemma wp_read_descriptor paths w (Q : EtleDescriptor → World → Prop) (R : FileError → World → Prop) :
  (∀ e w', stepped w w' → R e w') →
  (∀ b d w', file_at (w_fs w) (descriptor_path paths) = Some b → EtleDescriptor_from_bytes b = Ok d →
     d_share_id d = lp_share_id paths → verify_share_id d = true → stepped w w' → Q d w') →
  wp (read_descriptor paths) Q R w.
Proof.
  intros HR HQ. unfold read_descriptor. wp_simpl. apply wp_read_file; [intros; by apply HR|].
  intros b w1 Hb Hst. wp_simpl. pose proof (decode_exact_total (A:=EtleDescriptor) "descriptor" b) as [??].
  unfold EtleDescriptor_from_bytes in *. destruct (decode_exact "descriptor" b) as [d|e| |] eqn:Hd;
    [|by apply HR|done|done]. cbn [result_map_err]. wp_simpl.
  unfold ensure_share_id. case_decide as Hid; wp_simpl; [|by apply HR].
  destruct (verify_share_id d) eqn:Hv; cbn [negb]; wp_simpl; [by eapply HQ|by apply HR].
Qed.

Lemma wp_read_progress paths w (Q : DownloadProgress → World → Prop) (R : FileError → World → Prop) :
  (∀ e w', stepped w w' → R e w') →
  (∀ b p w', file_at (w_fs w) (progress_path paths) = Some b → DownloadProgress_from_bytes b = Ok p →
     dp_share_id p = lp_share_id paths → stepped w w' → Q p w') →
  wp (read_progress paths) Q R w.
Proof.
  intros HR HQ. unfold read_progress. wp_simpl. apply wp_read_file; [intros; by apply HR|].
  intros b w1 Hb Hst. wp_simpl.
  assert (DownloadProgress_from_bytes b ≠ Panic ∧ DownloadProgress_from_bytes b ≠ Diverged) as [??].
  { unfold DownloadProgress_from_bytes, decode_progress. destruct (strip_magic _ _) as [pl|].
    - pose proof (decode_exact_total (A:=CompactDownloadProgress) "compact progress" pl) as [??].
      by destruct (decode_exact _ _).
    - apply decode_exact_total. }
  destruct (DownloadProgress_from_bytes b) as [p|e| |] eqn:Hp; [|by apply HR|done|done].
  cbn [result_map_err]. wp_simpl. unfold ensure_share_id. case_decide; wp_simpl; [by eapply HQ|by apply HR].
Qed.

Lemma wp_read_state paths w (Q : ShareState → World → Prop) (R : FileError → World → Prop) :
  (∀ e w', stepped w w' → R e w') →
  (∀ b s w', file_at (w_fs w) (state_path paths) = Some b → ShareState_from_bytes b = Ok s →
     ss_share_id s = lp_share_id paths → stepped w w' → Q s w') →
  wp (read_state paths) Q R w.
Proof.
  intros HR HQ. unfold read_state. wp_simpl. apply wp_read_file; [intros; by apply HR|].
  intros b w1 Hb Hst. wp_simpl.
  assert (ShareState_from_bytes b ≠ Panic ∧ ShareState_from_bytes b ≠ Diverged) as [??].
  { unfold ShareState_from_bytes, decode_state. destruct (strip_magic _ _) as [pl|].
    - pose proof (decode_exact_total (A:=CompactShareState) "compact state" pl) as [??].
      by destruct (decode_exact _ _).
    - apply decode_exact_total. }
  destruct (ShareState_from_bytes b) as [p|e| |] eqn:Hp; [|by apply HR|done|done].
  cbn [result_map_err]. wp_simpl. unfold ensure_share_id. case_decide; wp_simpl; [by eapply HQ|by apply HR].
Qed.

(** A summary tells what the files of its share say. *)
Definition summary_valid (m : fs) (root : path) (s : LocalShareSummary) : Prop :=
  let paths := ls_paths s in
  lp_root paths = root ∧ d_share_id (ls_descriptor s) = lp_share_id paths
  ∧ verify_share_id (ls_descriptor s) = true
  ∧ (∃ b, file_at m (descriptor_path paths) = Some b ∧ EtleDescriptor_from_bytes b = Ok (ls_descriptor s))
  ∧ match ls_progress s with
    | Some p => dp_share_id p = lp_share_id paths ∧ ∃ b,
        file_at m (progress_path paths) = Some b ∧ DownloadProgress_from_bytes b = Ok p
    | None => file_at m (progress_path paths) = None
    end
  ∧ match ls_state s with
    | Some st => ss_share_id st = lp_share_id paths ∧ ∃ b,
        file_at m (state_path paths) = Some b ∧ ShareState_from_bytes b = Ok st
    | None => file_at m (state_path paths) = None
    end
  ∧ (ls_has_secret s = true ↔ is_Some (file_at m (secret_path paths))).

(** Every share directory with a descriptor among the entries is covered. *)
Definition entries_listed (m : fs) (root : path) (entries : list (string * node))
    (shares : list LocalShareSummary) : Prop :=
  ∀ name id, (name, Dir) ∈ entries → ShareId_from_str name = Ok id →
    is_Some (file_at m (descriptor_path (for_share root id))) →
    ∃ s, s ∈ shares ∧ ls_paths s = for_share root id.

Lemma wp_read_if_file {A} p (read : M World FileError A) w (Q : option A → World → Prop)
    (R : FileError → World → Prop) :
  (file_at (w_fs w) p = None → Q None w) →
  (is_Some (file_at (w_fs w) p) → wp read (λ a, Q (Some a)) R w) →
  wp (read_if_file p read) Q R w.
Proof.
  intros Hn Hs. unfold read_if_file. wp_simpl. unfold is_file. case_bool_decide as Hf.
  - wp_simpl. eapply wp_mono; [by apply Hs| |done]. intros a w' HQ. by wp_simpl.
  - wp_simpl. apply Hn. by apply eq_None_not_Some.
Qed.

Lemma wp_read_summary paths w :
  wp (read_summary paths)
    (λ s w', stepped w w' ∧ ls_paths s = paths ∧ summary_valid (w_fs w) (lp_root paths) s)
    (λ _ w', stepped w w') w.
Proof.
  unfold read_summary. wp_simpl. apply wp_read_descriptor; [done|].
  intros b d w1 Hb Hd Hid Hv Hst1. wp_simpl. unfold summary_valid.
  apply wp_mono with
    (Q := λ progress w', stepped w w' ∧ match progress with
          | Some p => dp_share_id p = lp_share_id paths ∧ ∃ b,
              file_at (w_fs w) (progress_path paths) = Some b ∧ DownloadProgress_from_bytes b = Ok p
          | None => file_at (w_fs w) (progress_path paths) = None
          end) (R := λ _ w', stepped w w'); [| |done].
  { apply wp_read_if_file; rewrite (stepped_fs _ _ Hst1); [done|]. intros _.
    apply wp_read_progress; [intros e w' ?; by etrans|]. rewrite (stepped_fs _ _ Hst1).
    intros b' p w2 Hb' Hp Hid' Hst2. split; [by etrans|]. eauto. }
  intros progress w2 [Hst2 Hprog]. wp_simpl.
  apply wp_mono with
    (Q := λ state w', stepped w w' ∧ match state with
          | Some st => ss_share_id st = lp_share_id paths ∧ ∃ b,
              file_at (w_fs w) (state_path paths) = Some b ∧ ShareState_from_bytes b = Ok st
          | None => file_at (w_fs w) (state_path paths) = None
          end) (R := λ _ w', stepped w w'); [| |done].
  { apply wp_read_if_file; rewrite (stepped_fs _ _ Hst2); [done|]. intros _.
    apply wp_read_state; [intros e w' ?; by etrans|]. rewrite (stepped_fs _ _ Hst2).
    intros b' st w3 Hb' Hs Hid' Hst3. split; [by etrans|]. eauto. }
  intros state w3 [Hst3 Hstate]. wp_simpl. split; [done|]. split; [done|]. cbn.
  split_and!; try done; [by exists b|].
  unfold is_file. rewrite (stepped_fs _ _ Hst3). by rewrite bool_decide_eq_true.
Qed.

(** One more entry is covered by a longer list. *)
Lemma entries_listed_snoc m root done_ name n shares shares' :
  entries_listed m root done_ shares → shares ⊆ shares' →
  (∀ id, n = Dir → ShareId_from_str name = Ok id →
     is_Some (file_at m (descriptor_path (for_share root id))) →
     ∃ s, s ∈ shares' ∧ ls_paths s = for_share root id) →
  entries_listed m root (done_ ++ [(name, n)]) shares'.
Proof.
  intros Hlisted Hsub Hnew name' id Hin Hid Hf. apply elem_of_app in Hin as [Hin|Hin].
  - destruct (Hlisted name' id) as (s & Hs & ?); [done..|]. exists s. split; [by apply Hsub|done].
  - apply list_elem_of_singleton in Hin. simplify_eq. by apply Hnew.
Qed.

Lemma wp_list_entry root shares entry done_ w0 w :
  stepped w0 w → Forall (summary_valid (w_fs w0) root) shares →
  entries_listed (w_fs w0) root done_ shares →
  wp (list_entry root shares entry)
    (λ shares' w', stepped w0 w' ∧ Forall (summary_valid (w_fs w0) root) shares'
       ∧ entries_listed (w_fs w0) root (done_ ++ [entry]) shares')
    (λ _ w', stepped w0 w') w.
Proof.
  intros Hst Hvalid Hlisted. unfold list_entry. wp_simpl.
  apply wp_faulty; [intros f _; by etrans|]. intros _. unfold wp at 1. destruct entry as [name n].
  cbn [fst snd]. assert (stepped w0 (tick w)) as Hst1 by (by etrans).
  destruct n as [d|].
  { wp_simpl. split_and!; [done|done|]. eapply entries_listed_snoc; [done|done|]. by intros ? ?. }
  destruct (ShareId_from_str name) as [id| | |] eqn:Hname;
    [|wp_simpl; (split_and!; [done|done|eapply entries_listed_snoc; [done|done|]; intros ? _ ?; congruence])..].
  wp_simpl. unfold is_file at 1. rewrite (stepped_fs _ _ Hst1). case_bool_decide as Hf; cbn [negb].
  2: { wp_simpl. split_and!; [done|done|]. eapply entries_listed_snoc; [done|done|].
       intros id' _ Hid' Hf'. rewrite Hname in Hid'. by simplify_eq. }
  wp_simpl. eapply wp_mono; [apply wp_read_summary| |]; simpl.
  - rewrite (stepped_fs _ _ Hst). intros s w2 (Hst2 & Hpaths & Hv). wp_simpl. split_and!.
    + by etrans.
    + apply Forall_app. by split; [|constructor].
    + eapply entries_listed_snoc; [done|intros x Hx; apply elem_of_app; by left|].
      intros id' _ Hid' _. rewrite Hname in Hid'. simplify_eq. exists s.
      split; [apply elem_of_app; right; left|done].
  - intros e w' Hst2. by etrans.
Qed.

Lemma wp_library_list root w :
  wp (library_list root)
    (λ shares w', stepped w w' ∧ Forall (summary_valid (w_fs w) root) shares
       ∧ StronglySorted (λ a b, summary_leb a b = true) shares
       ∧ ∀ id, w_fs w !! share_dir (for_share root id) = Some Dir →
           is_Some (w_fs w !! (root ++ [ETLE_DIR_NAME; LIBRARY_DIR_NAME])) →
           is_Some (file_at (w_fs w) (descriptor_path (for_share root id))) →
           ∃ s, s ∈ shares ∧ ls_paths s = for_share root id)
    (λ _ w', stepped w w') w.
Proof.
  unfold library_list. wp_simpl. set (dir := root ++ [ETLE_DIR_NAME; LIBRARY_DIR_NAME]).
  unfold path_exists. case_bool_decide as Hex; cbn [negb].
  2: { wp_simpl. split_and!; [done|constructor|constructor|]. intros id _ Hl. exfalso. apply Hex. by right. }
  wp_simpl. apply wp_read_dir; [done|]. intros w1 Hdir Hst1. wp_simpl. eapply wp_mono.
  - apply (wp_mfold _ (λ done shares w', stepped w w' ∧ Forall (summary_valid (w_fs w) root) shares
      ∧ entries_listed (w_fs w) root done shares) (dir_entries (w_fs w) dir) _ (λ _ w', stepped w w')).
    + split_and!; [done|constructor|]. intros name id Hin. by apply elem_of_nil in Hin.
    + intros done_ e rest shares w2 _ (Hst2 & Hv & Hl). by apply wp_list_entry.
  - simpl. intros shares w' (Hst & Hv & Hl). wp_simpl.
    pose proof (sort_by_perm summary_leb shares) as Hperm. split_and!; [done|by rewrite Hperm| |].
    + apply sort_by_sorted.
      * intros x y. rewrite !summary_leb_path. apply path_leb_total.
      * intros x y z. rewrite !summary_leb_path. apply path_leb_trans.
    + intros id Hid _ Hf. destruct (Hl (ShareId_to_string id) id) as (s & Hs & Hp); [|..].
      * apply elem_of_dir_entries. unfold dir. rewrite <- Hid. unfold share_dir, library_dir, etle_dir.
        cbn [for_share lp_root lp_share_id]. by rewrite <- !app_assoc.
      * apply ShareId_from_to_string.
      * done.
      * exists s. by rewrite Hperm.
  - done.
Qed.
End list_spec.

(** * Deleting *)
Lemma lookup_foldr_delete (l : list (path * node)) (m : fs) q :
  foldr (λ e m, delete e.1 m) m l !! q = if decide (q ∈ l.*1) then None else m !! q.
Proof.
  induction l as [|[p n] l IH]; cbn [foldr fmap list_fmap fst].
  - rewrite decide_False; [done|]. apply not_elem_of_nil.
  - destruct (decide (q = p)) as [->|Hne].
    + rewrite lookup_delete_eq, decide_True; [done|left].
    + rewrite lookup_delete_ne by done. rewrite IH. apply decide_ext. rewrite elem_of_cons. naive_solver.
Qed.

Lemma lookup_remove_below m p q :
  remove_below m p !! q = if decide (p `prefix_of` q) then None else m !! q.
Proof.
  unfold remove_below. rewrite map_lookup_filter. destruct (m !! q) as [n|]; simpl; [|by case_decide].
  assert (below p q = false ↔ ¬ p `prefix_of` q) as Hb by apply bool_decide_eq_false.
  case_guard as Hg; case_decide as Hd; try done; cbn [fst] in Hg; tauto.
Qed.

(** Removing a tree, completely or not, leaves everything outside it alone. *)
Lemma wp_remove_dir_all p (Q : unit → World → Prop) (R : io_kind → World → Prop) w :
  (∀ k m w', fs_step w m w' → (∀ q, ¬ p `prefix_of` q → m !! q = w_fs w !! q) →
     (no_faults w → w_fs w !! p ≠ Some Dir) → R k w') →
  (∀ w', fs_step w (remove_below (w_fs w) p) w' → Q tt w') →
  wp (remove_dir_all p) Q R w.
Proof.
  intros HR HQ. apply wp_faulty.
  - intros f Hf. apply (HR _ (foldr (λ e m, delete e.1 m) (w_fs w)
      (take (fault_partial f) (filter (λ e, below p e.1 = true) (map_to_list (w_fs w))))));
      [done| |intros Hn; by eapply fault_not_no_faults in Hn].
    intros q Hq. rewrite lookup_foldr_delete. case_decide as Hin; [|done].
    exfalso. apply Hq. apply list_elem_of_fmap in Hin as (e & -> & He).
    apply list_elem_of_lookup in He as [i Hi]. apply lookup_take_Some in Hi as [Hi _].
    apply list_elem_of_lookup_2, list_elem_of_filter in Hi as [Hb _]. by apply bool_decide_eq_true in Hb.
  - intros _. unfold wp. cbn [w_fs tick]. case_decide as Hd; [by apply HQ|].
    eapply HR; [by apply stepped_fs_step|done|done].
Qed.

(** * Claims *)

(** C15: [write_file_atomic] is atomic under every I/O failure: when it succeeds
    the file holds exactly the new bytes, when it fails the file is as it was
    before (old content, or absent), and in both cases no other file changed,
    except possibly its own temporary file after a failure. It succeeds when no
    fault occurs and nothing is in the way. *)
Theorem write_file_atomic_correct p data secret w :
  p ≠ [] →
  (∃ w', write_file_atomic p data secret w = (Ok tt, w') ∧ file_at (w_fs w') p = Some data
     ∧ ∀ q, q ≠ p → file_at (w_fs w') q = file_at (w_fs w) q)
  ∨ (∃ k w' nanos, write_file_atomic p data secret w = (Err k, w')
     ∧ file_at (w_fs w') p = file_at (w_fs w) p
     ∧ (∀ q, q ≠ tmp_path p (env_pid (w_env w)) nanos → file_at (w_fs w') q = file_at (w_fs w) q)
     ∧ (no_faults w → ¬ can_write (w_fs w) p (env_pid (w_env w)))).
Proof.
  intros Hp.
  destruct (wp_run (write_file_atomic p data secret)
    (λ _ w', file_at (w_fs w') p = Some data ∧ ∀ q, q ≠ p → file_at (w_fs w') q = file_at (w_fs w) q)
    (λ k w', ∃ nanos, only_tmp (w_fs w) (w_fs w') (tmp_path p (env_pid (w_env w)) nanos)
       ∧ (no_faults w → ¬ can_write (w_fs w) p (env_pid (w_env w)))) w)
    as [([] & w' & Hrun & H1 & H2)|(k & w' & Hrun & nanos & Hot & Hn)].
  - apply wp_write_file_atomic; [done| |].
    + intros k m' nanos w' Hst Hot Hn. exists nanos. by rewrite (fs_step_fs _ _ _ Hst).
    + intros w' [_ Hfree] Hst. rewrite (fs_step_fs _ _ _ Hst). split; [apply file_at_insert_eq|].
      intros q Hq. rewrite file_at_insert_ne by done. by apply file_at_mkdirs.
  - left. by exists w'.
  - right. exists k, w', nanos. split_and!; [done| |done|done]. apply Hot.
    intros Heq. symmetry in Heq. by apply tmp_path_ne in Heq.
Qed.

(** After a successful [library::init] of a new share the descriptor, the
    secret, the progress and the state read back from the library are the ones
    written: all chunks completed when seeding, none when downloading. Without
    faults and with the share absent, [init] succeeds. *)
Theorem library_init_roundtrip `{Blake3} `{BincodeLaws EtleDescriptor, BincodeLaws EtleSecret}
    `{BincodeLaws CompactDownloadProgress, Bincode DownloadProgress}
    `{BincodeLaws CompactShareState, Bincode ShareState}
    root descriptor file_key mode out_dir bd bs bp bst w :
  let paths := for_share root (d_share_id descriptor) in
  let secret := EtleSecret_new (d_share_id descriptor) file_key in
  let progress := initial_progress descriptor mode in
  let state := from_progress mode out_dir progress in
  verify_share_id descriptor = true → Forall ChunkMeta_wf (d_chunks descriptor) →
  no_faults w → share_absent (w_fs w) paths →
  EtleDescriptor_to_bytes descriptor = Some bd → EtleSecret_to_bytes secret = Some bs →
  DownloadProgress_to_bytes progress = Ok bp → ShareState_to_bytes state = Ok bst →
  ∃ w', library_init root descriptor file_key mode out_dir w = (Ok paths, w')
    ∧ (read_descriptor paths w').1 = Ok descriptor ∧ (read_secret paths w').1 = Ok secret
    ∧ (read_progress paths w').1 = Ok progress ∧ (read_state paths w').1 = Ok state.
Proof.
  intros paths secret progress state Hv Hc Hnf Habs Hbd Hbs Hbp Hbst.
  destruct (wp_run _ _ _ _ (wp_library_init root descriptor file_key mode out_dir bd bs bp bst w
    Hnf Habs Hbd Hbs Hbp Hbst)) as [(p & w' & Hrun & -> & Hnf' & _ & Hh & _)|(? & ? & _ & [])].
  pose proof (init_share_ids root descriptor file_key mode out_dir Hv Hc) as Hids.
  exists w'. split; [done|]. split_and!.
  - destruct (wp_run _ _ _ _ (wp_read_descriptor_holds _ _ _ _ _ w' Hnf' Hh Hids))
      as [(? & ? & Hr & -> & _)|(? & ? & _ & [])]. exact (f_equal fst Hr).
  - destruct (wp_run _ _ _ _ (wp_read_secret_holds _ _ _ _ _ w' Hnf' Hh Hids))
      as [(? & ? & Hr & -> & _)|(? & ? & _ & [])]. exact (f_equal fst Hr).
  - destruct (wp_run _ _ _ _ (wp_read_progress_holds _ _ _ _ _ w' Hnf' Hh Hids))
      as [(? & ? & Hr & -> & _)|(? & ? & _ & [])]. exact (f_equal fst Hr).
  - destruct (wp_run _ _ _ _ (wp_read_state_holds _ _ _ _ _ w' Hnf' Hh Hids))
      as [(? & ? & Hr & -> & _)|(? & ? & _ & [])]. exact (f_equal fst Hr).
Qed.

(** A chunk stored with [write_chunk] in an initialised share is read back by
    [read_chunk] under its index, and [read_chunk] refuses it when another size
    is expected. *)
Theorem chunk_store_roundtrip paths chunk size w :
  no_faults w → share_ok w paths → 0 ≤ ec_index chunk →
  ∃ w1, write_chunk paths chunk w = (Ok (chunk_path paths (ec_index chunk)), w1)
    ∧ (read_chunk paths (ec_index chunk) size w1).1 =
        (if decide (zlen (ec_data chunk) = size) then Ok chunk
         else Err (ChunkSizeMismatch (ec_index chunk) size (zlen (ec_data chunk)))).
Proof.
  intros Hnf Hok Hi.
  destruct (wp_run _ _ _ _ (wp_write_chunk paths chunk w Hnf Hok Hi))
    as [(p & w1 & Hrun & -> & _ & Hst)|(? & ? & _ & [])].
  exists w1. split; [done|]. apply (fs_step_no_faults _ _ _ Hst) in Hnf.
  unfold read_chunk. rewrite (bind_Ok _ _ _ (ec_data chunk) (tick w1)).
  - case_decide as Hs; case_decide; try done. by destruct chunk.
  - apply map_err_Ok, read_file_ok; [done|]. by rewrite (fs_step_fs _ _ _ Hst), lookup_insert_eq.
Qed.

(** [library::list] changes nothing and never panics; what it returns is
    sorted by name and id, every entry is backed by the files on disk (its
    descriptor passed verification and its ids agree), and every share directory
    that holds a descriptor is listed. *)
Theorem library_list_correct `{Blake3} `{Bincode EtleDescriptor}
    `{Bincode CompactDownloadProgress, Bincode DownloadProgress}
    `{Bincode CompactShareState, Bincode ShareState} root w :
  (∃ shares w', library_list root w = (Ok shares, w') ∧ stepped w w'
     ∧ Forall (summary_valid (w_fs w) root) shares
     ∧ StronglySorted (λ a b, summary_leb a b = true) shares
     ∧ ∀ id, w_fs w !! share_dir (for_share root id) = Some Dir →
         is_Some (w_fs w !! (root ++ [ETLE_DIR_NAME; LIBRARY_DIR_NAME])) →
         is_Some (file_at (w_fs w) (descriptor_path (for_share root id))) →
         ∃ s, s ∈ shares ∧ ls_paths s = for_share root id)
  ∨ (∃ e w', library_list root w = (Err e, w') ∧ stepped w w').
Proof. exact (wp_run _ _ _ _ (wp_library_list root w)). Qed.

(** [library::delete] never touches anything outside the share's directory,
    even when it fails half-way; when it succeeds nothing is left of the share,
    and it reports whether there was one. *)
Theorem library_delete_correct root share_id w :
  let dir := share_dir (for_share root share_id) in
  (∃ b w', library_delete root share_id w = (Ok b, w')
     ∧ b = bool_decide (is_Some (w_fs w !! dir))
     ∧ (∀ q, ¬ dir `prefix_of` q → w_fs w' !! q = w_fs w !! q)
     ∧ w_fs w' !! dir = None ∧ (b = true → ∀ q, dir `prefix_of` q → w_fs w' !! q = None))
  ∨ (∃ e w', library_delete root share_id w = (Err e, w')
     ∧ (∀ q, ¬ dir `prefix_of` q → w_fs w' !! q = w_fs w !! q)
     ∧ (no_faults w → w_fs w !! dir ≠ Some Dir)).
Proof.
  intros dir. eapply wp_run. unfold library_delete. wp_simpl. fold dir. unfold path_exists.
  assert (dir ≠ []) as Hne by apply share_dir_nonempty. case_bool_decide as Hex; cbn [negb].
  - assert (is_Some (w_fs w !! dir)) as Hs by (by destruct Hex). wp_simpl. apply wp_remove_dir_all.
    + intros k m w' Hst Hout Hn. by rewrite (fs_step_fs _ _ _ Hst).
    + intros w' Hst. wp_simpl. rewrite bool_decide_true by done. rewrite (fs_step_fs _ _ _ Hst).
      split_and!; [done| | |].
      * intros q Hq. by rewrite lookup_remove_below, decide_False.
      * by rewrite lookup_remove_below, decide_True.
      * intros _ q Hq. by rewrite lookup_remove_below, decide_True.
  - wp_simpl. rewrite bool_decide_false by tauto. split_and!; [done|done| |done].
    apply eq_None_not_Some. tauto.
Qed.

Import Toy Sample StateSample.
Module LibrarySample.
Definition world : World := CryptoSample.world ∅ [].
Definition descriptor : EtleDescriptor := Sample.descriptor.
Definition paths : LibraryPaths := for_share [] (d_share_id descriptor).
Definition key : SymmetricKey := CryptoSample.key Byte.x09.
Definition after_init : World := (library_init [] descriptor key Downloading None world).2.

Lemma absent : share_absent (w_fs world) paths.
Proof. split; [by_decide|]. intros q _. apply lookup_empty. Qed.

Lemma no_faults_world : no_faults world.
Proof. by intros ?. Qed.
End LibrarySample.

Lemma write_file_atomic_correct_witness :
  let p := ["d"%string; "f"%string] in let w := LibrarySample.world in
  (∃ w', write_file_atomic p (str_bytes "x") false w = (Ok tt, w') ∧ file_at (w_fs w') p = Some (str_bytes "x")
     ∧ ∀ q, q ≠ p → file_at (w_fs w') q = file_at (w_fs w) q)
  ∨ (∃ k w' nanos, write_file_atomic p (str_bytes "x") false w = (Err k, w')
     ∧ file_at (w_fs w') p = file_at (w_fs w) p
     ∧ (∀ q, q ≠ tmp_path p (env_pid (w_env w)) nanos → file_at (w_fs w') q = file_at (w_fs w) q)
     ∧ (no_faults w → ¬ can_write (w_fs w) p (env_pid (w_env w)))).
Proof. apply write_file_atomic_correct. discriminate. Defined.

Lemma library_init_roundtrip_witness :
  ∃ w', library_init [] LibrarySample.descriptor LibrarySample.key Downloading None LibrarySample.world
        = (Ok LibrarySample.paths, w')
    ∧ (read_descriptor LibrarySample.paths w').1 = Ok LibrarySample.descriptor.
Proof.
  destruct (library_init_roundtrip [] LibrarySample.descriptor LibrarySample.key Downloading None
    (Toy.pos_code (encode LibrarySample.descriptor))
    (Toy.pos_code (encode (EtleSecret_new (d_share_id LibrarySample.descriptor) LibrarySample.key)))
    (StateSample.ok_bytes (DownloadProgress_to_bytes (initial_progress LibrarySample.descriptor Downloading)))
    (StateSample.ok_bytes (ShareState_to_bytes (from_progress Downloading None
       (initial_progress LibrarySample.descriptor Downloading))))
    LibrarySample.world) as (w' & Hrun & Hd & _).
  - vm_compute. reflexivity.
  - by_decide.
  - apply LibrarySample.no_faults_world.
  - apply LibrarySample.absent.
  - reflexivity.
  - reflexivity.
  - vm_compute. reflexivity.
  - vm_compute. reflexivity.
  - exists w'. split; [exact Hrun|exact Hd].
Defined.

Lemma library_list_correct_witness :
  (∃ shares w', library_list [] LibrarySample.after_init = (Ok shares, w') ∧ stepped LibrarySample.after_init w'
     ∧ Forall (summary_valid (w_fs LibrarySample.after_init) []) shares
     ∧ StronglySorted (λ a b, summary_leb a b = true) shares
     ∧ ∀ id, w_fs LibrarySample.after_init !! share_dir (for_share [] id) = Some Dir →
         is_Some (w_fs LibrarySample.after_init !! ([] ++ [ETLE_DIR_NAME; LIBRARY_DIR_NAME])) →
         is_Some (file_at (w_fs LibrarySample.after_init) (descriptor_path (for_share [] id))) →
         ∃ s, s ∈ shares ∧ ls_paths s = for_share [] id)
  ∨ (∃ e w', library_list [] LibrarySample.after_init = (Err e, w') ∧ stepped LibrarySample.after_init w').
Proof. apply library_list_correct. Defined.

Example list_after_init :
  match (library_list [] LibrarySample.after_init).1 with
  | Ok [s] => ls_paths s = LibrarySample.paths ∧ summary_mode s = Some Downloading ∧ ls_has_secret s = true
  | _ => False
  end.
Proof. vm_compute. done. Qed.

Lemma chunk_store_roundtrip_witness :
  let w := CryptoSample.world (with_share_dirs ∅ LibrarySample.paths) [] in
  let chunk := mkEncryptedChunk 3 (str_bytes "abc") in
  ∃ w1, write_chunk LibrarySample.paths chunk w = (Ok (chunk_path LibrarySample.paths 3), w1)
    ∧ (read_chunk LibrarySample.paths 3 4 w1).1 =
        (if decide (zlen (str_bytes "abc") = 4) then Ok chunk else Err (ChunkSizeMismatch 3 4 3)).
Proof.
  apply (chunk_store_roundtrip LibrarySample.paths (mkEncryptedChunk 3 (str_bytes "abc")) 4).
  - by intros ?.
  - by eapply share_absent_ok; [apply LibrarySample.absent|].
  - done.
Defined.
