(* ===== verification/Codec.v ===== *)
(** [protocol/message.rs], [protocol/error.rs], [protocol/codec.rs]: the framed
    wire protocol.

    A frame is a 32-bit big-endian length and that many bytes: a [bincode]
    encoded message, or a raw chunk frame (tag, index, data). The chunk functions
    stream the data from and to files instead of memory. *)
From stdpp Require Import base tactics list countable strings gmap.
From Stdlib Require Import ZArith Lia.
From S2P Require Import Prelude Bytes World Files Extern Crypto Descriptor.
Local Open Scope Z_scope.
Local Open Scope etle_scope.

(** * Messages *)
Definition ETLE_WIRE_PROTOCOL_VERSION : Z := 3.
Definition CAPABILITY_RAW_CHUNK_FRAME : string := "raw-chunk-frame-v1".
Definition CAPABILITY_WINDOWED_REQUESTS : string := "windowed-requests-v1".

Inductive WireMessage :=
  | Hello (peer_id : string)
  | Capabilities (protocol_version : Z) (features : list string)
  | KeyExchange (public_key : PublicKeyBytes)
  | AuthProof (tag : AuthTag)
  | RequestManifest
  | RequestShare (share_id : ShareId)
  | ManifestMsg (manifest : Manifest)
  | WrappedFileKeyMsg (nonce : Nonce) (data : bytes)
  | Have (chunks : list Z)
  | RequestChunk (index : Z)
  | Chunk (index : Z) (data : bytes)
  | ErrorMsg (message : string).
Global Instance WireMessage_eq_dec : EqDecision WireMessage.
Proof. solve_decision. Defined.

Inductive ProtocolError :=
  | PE_Io (k : io_kind)
  | PE_Encode
  | PE_Decode (e : decode_error)
  | EmptyFrame
  | FrameTooLarge (len max : Z)
  | FrameTooSmall (len min : Z)
  | RawChunkSizeMismatch (expected actual : Z)
  | TrailingBytes (bytes_read frame_len : Z)
  | InvalidRawChunkFrame (msg : string).
Global Instance ProtocolError_eq_dec : EqDecision ProtocolError.
Proof. solve_decision. Defined.

(** [bincode] writes the index of the variant first; up to 250 it takes one byte. *)
Definition variant_index (m : WireMessage) : Z :=
  match m with
  | Hello _ => 0 | Capabilities _ _ => 1 | KeyExchange _ => 2 | AuthProof _ => 3
  | RequestManifest => 4 | RequestShare _ => 5 | ManifestMsg _ => 6 | WrappedFileKeyMsg _ _ => 7
  | Have _ => 8 | RequestChunk _ => 9 | Chunk _ _ => 10 | ErrorMsg _ => 11
  end.
Class WireBincodeLaws `{Bincode WireMessage} : Prop := {
  wire_bincode :: BincodeLaws WireMessage;
  wire_first_byte (m : WireMessage) e :
    bincode_encode m = Some e → head e = Some (byte_of_Z (variant_index m));
}.

(** What the Rust field types guarantee of a decoded message: chunk numbers have
    32 bits, sizes 64. *)
Definition message_typed (m : WireMessage) : Prop :=
  match m with ManifestMsg manifest => Forall ChunkMeta_wf (mf_chunks manifest) | _ => True end.
Global Instance message_typed_dec m : Decision (message_typed m).
Proof. destruct m; apply _. Defined.
Class WireTyped `{Bincode WireMessage} : Prop := {
  wire_typed b (m : WireMessage) n : bincode_decode b = Some (m, n) → message_typed m;
}.

(** * Frames *)
Definition MAX_FRAME_SIZE : Z := 64 * 1024 * 1024.
Definition RAW_CHUNK_FRAME_TAG : byte := Byte.xec.
Definition RAW_CHUNK_HEADER_SIZE : Z := 1 + 4.

Record ReceivedRawChunkFile := mkReceivedRawChunkFile {
  rc_index : Z;
  rc_data_len : Z;
  rc_blake3_hash : array 32;
}.
Global Instance ReceivedRawChunkFile_eq_dec : EqDecision ReceivedRawChunkFile.
Proof. solve_decision. Defined.
Inductive ReceivedChunkFrame :=
  | RawChunkFile (f : ReceivedRawChunkFile)
  | Message (m : WireMessage).

Abbreviation proto := (M World ProtocolError).

Definition validate_frame_len (len : Z) : result ProtocolError unit :=
  if decide (len = 0) then Err EmptyFrame
  else if decide (len > MAX_FRAME_SIZE) then Err (FrameTooLarge len MAX_FRAME_SIZE)
  else Ok tt.

Definition raw_frame_len (data_len : Z) : result ProtocolError Z :=
  ok_or (checked_add usize_max RAW_CHUNK_HEADER_SIZE data_len) (FrameTooLarge usize_max MAX_FRAME_SIZE).

Definition send_raw_chunk_frame (index : Z) (data : bytes) : proto unit :=
  let! frame_len := lift_result (raw_frame_len (zlen data)) in
  do! lift_result (validate_frame_len frame_len) in
  do! map_err PE_Io (write_all (u32_to_be_bytes (as_u32 frame_len))) in
  do! map_err PE_Io (write_all [RAW_CHUNK_FRAME_TAG]) in
  do! map_err PE_Io (write_all (u32_to_be_bytes index)) in
  do! map_err PE_Io (write_all data) in
  map_err PE_Io flush.

Definition read_frame_len : proto Z :=
  let! len_bytes := map_err PE_Io (read_exact 4) in
  let len := u32_from_be_bytes len_bytes in
  do! lift_result (validate_frame_len len) in
  ret len.

Definition receive_raw_chunk_frame_after_tag (frame_len : Z) : proto WireMessage :=
  if decide (frame_len < RAW_CHUNK_HEADER_SIZE)
  then throw (InvalidRawChunkFrame "frame is smaller than raw chunk header")
  else
    let! index_bytes := map_err PE_Io (read_exact 4) in
    let index := u32_from_be_bytes index_bytes in
    let data_len := frame_len - RAW_CHUNK_HEADER_SIZE in
    let! data := (if decide (data_len > 0) then map_err PE_Io (read_exact (Z.to_nat data_len))
                  else ret []) in
    ret (Chunk index data).

Section wire.
Context `{Bincode WireMessage}.

Definition send (message : WireMessage) : proto unit :=
  match message with
  | Chunk index data => send_raw_chunk_frame index data
  | _ =>
      let! payload := lift_result (ok_or (bincode_encode message) PE_Encode) in
      do! lift_result (validate_frame_len (zlen payload)) in
      do! map_err PE_Io (write_all (u32_to_be_bytes (as_u32 (zlen payload)))) in
      do! map_err PE_Io (write_all payload) in
      map_err PE_Io flush
  end.

(** [payload[0] = first_byte] would panic on an empty payload. *)
Definition receive_encoded_frame_after_first_byte (frame_len : Z) (first_byte : byte)
    : proto WireMessage :=
  if decide (frame_len ≤ 0) then panic
  else
    let! rest := (if decide (frame_len > 1) then map_err PE_Io (read_exact (Z.to_nat (frame_len - 1)))
                  else ret []) in
    let payload := first_byte :: rest in
    let! r := lift_result (ok_or (bincode_decode payload) (PE_Decode DecodeFailed)) in
    if decide (r.2 ≠ zlen payload) then throw (TrailingBytes r.2 (zlen payload))
    else ret r.1.

(** [read_exact(&mut [0_u8; 1])] *)
Definition read_u8 : io byte :=
  let! l := read_exact 1 in
  ret (default Byte.x00 (head l)).

Definition receive : proto WireMessage :=
  let! len := read_frame_len in
  let! first := map_err PE_Io read_u8 in
  if decide (first = RAW_CHUNK_FRAME_TAG) then receive_raw_chunk_frame_after_tag len
  else receive_encoded_frame_after_first_byte len first.
End wire.

Section chunk_files.
Context `{Blake3} `{Bincode WireMessage}.

(** One round of [while remaining > 0]: [buffer] is 64 KiB. *)
Definition receive_block (output_path : path) (st : Z * hasher)
    : proto ((Z * hasher) + hasher) :=
  let '(remaining, h) := st in
  if decide (remaining > 0) then
    let n := Z.min remaining (64 * 1024) in
    let! block := map_err PE_Io (read_exact (Z.to_nat n)) in
    do! map_err PE_Io (file_write_all output_path block) in
    ret (inl (remaining - n, hasher_update h block))
  else ret (inr h).

Definition receive_raw_chunk_frame_to_file_after_tag (frame_len : Z) (output_path : path)
    : proto ReceivedRawChunkFile :=
  if decide (frame_len < RAW_CHUNK_HEADER_SIZE)
  then throw (InvalidRawChunkFrame "frame is smaller than raw chunk header")
  else
    let! index_bytes := map_err PE_Io (read_exact 4) in
    let index := u32_from_be_bytes index_bytes in
    let data_len := frame_len - RAW_CHUNK_HEADER_SIZE in
    do! (match path_parent output_path with
         | Some parent => map_err PE_Io (create_dir_all parent)
         | None => ret tt
         end) in
    do! map_err PE_Io (file_create output_path) in
    let! h := mloop (S (Z.to_nat data_len)) (receive_block output_path) (data_len, hasher_new) in
    do! map_err PE_Io (file_sync output_path) in
    ret (mkReceivedRawChunkFile index data_len (hasher_finalize h)).

Definition receive_chunk_to_file (output_path : path) : proto ReceivedChunkFrame :=
  let! len := read_frame_len in
  let! first := map_err PE_Io read_u8 in
  if decide (first ≠ RAW_CHUNK_FRAME_TAG) then
    let! m := receive_encoded_frame_after_first_byte len first in
    ret (Message m)
  else
    let! f := receive_raw_chunk_frame_to_file_after_tag len output_path in
    ret (RawChunkFile f).

(** The read loop of [send_chunk_file]. *)
Definition send_block (rest : bytes) : proto (bytes + unit) :=
  let! read := map_err PE_Io (file_read (64 * 1024) rest) in
  if decide (read.1 = []) then ret (inr tt)
  else
    do! map_err PE_Io (write_all read.1) in
    ret (inl read.2).

Definition send_chunk_file (index : Z) (p : path) (expected_size : Z) : proto unit :=
  let! content := map_err PE_Io (read_file p) in
  let! meta := map_err PE_Io (file_metadata p content) in
  let actual_size := zlen meta in
  if decide (actual_size ≠ expected_size)
  then throw (RawChunkSizeMismatch expected_size actual_size)
  else
    let! frame_len := lift_result (raw_frame_len actual_size) in
    do! lift_result (validate_frame_len frame_len) in
    do! map_err PE_Io (write_all (u32_to_be_bytes (as_u32 frame_len))) in
    do! map_err PE_Io (write_all [RAW_CHUNK_FRAME_TAG]) in
    do! map_err PE_Io (write_all (u32_to_be_bytes index)) in
    do! mloop (S (length content)) send_block content in
    map_err PE_Io flush.
End chunk_files.

(** * Specifications of the stream primitives *)

(** [recv_step w post w']: [post] is what is left to read. [sent w out w']: [out]
    was written. *)
Definition recv_step (w : World) (post : bytes) (w' : World) : Prop := stepped (set_in post w) w'.
Definition sent (w : World) (out : bytes) (w' : World) : Prop := stepped (set_out (w_out w ++ out) w) w'.

Lemma recv_step_in w post w' : recv_step w post w' → w_in w' = post.
Proof. by intros (_ & _ & ? & _). Qed.

Lemma recv_step_no_faults w post w' : recv_step w post w' → no_faults w ↔ no_faults w'.
Proof. intros H. by rewrite <- (stepped_no_faults _ _ H). Qed.

Lemma recv_step_trans w p1 w1 p2 w2 : recv_step w p1 w1 → recv_step w1 p2 w2 → recv_step w p2 w2.
Proof. unfold recv_step, stepped. destruct w, w1. naive_solver congruence. Qed.

Lemma recv_step_refl w : recv_step w (w_in w) w.
Proof. by destruct w. Qed.

Lemma recv_step_stepped w p w1 w2 : recv_step w p w1 → stepped w1 w2 → recv_step w p w2.
Proof. unfold recv_step. intros. by etrans. Qed.

Lemma sent_trans w o1 w1 o2 w2 : sent w o1 w1 → sent w1 o2 w2 → sent w (o1 ++ o2) w2.
Proof. unfold sent, stepped. destruct w, w1. simpl. intros. rewrite app_assoc. naive_solver congruence. Qed.

Lemma sent_stepped w o w1 w2 : sent w o w1 → stepped w1 w2 → sent w o w2.
Proof. unfold sent. intros. by etrans. Qed.

Lemma stepped_sent w w' : stepped w w' → sent w [] w'.
Proof. unfold sent. rewrite app_nil_r. by destruct w. Qed.

Lemma sent_no_faults w o w' : sent w o w' → no_faults w ↔ no_faults w'.
Proof. intros H. by rewrite <- (stepped_no_faults _ _ H). Qed.

Lemma sent_out w o w' : sent w o w' → w_out w' = w_out w ++ o.
Proof. by intros (_ & _ & _ & ? & _). Qed.

Lemma sent_fs w o w' : sent w o w' → w_fs w' = w_fs w.
Proof. by intros (_ & ? & _). Qed.

(** Reading [n] bytes: the next [n], or an error after which a suffix is left. *)
Lemma wp_read_exact n (Q : bytes → World → Prop) (R : io_kind → World → Prop) w :
  (∀ k pre post w', w_in w = pre ++ post → recv_step w post w' →
     ¬ no_faults w ∨ (length (w_in w) < n)%nat → R k w') →
  (∀ pre post w', w_in w = pre ++ post → length pre = n → recv_step w post w' → Q pre w') →
  wp (read_exact n) Q R w.
Proof.
  intros HR HQ. apply wp_faulty.
  - intros f Hf. eapply (HR _ (take (fault_partial f) (w_in w)) (drop (fault_partial f) (w_in w)));
      [by rewrite take_drop|done|eauto with etle].
  - intros _. unfold wp. cbn [w_in tick]. case_decide as Hlen.
    + eapply (HR _ (w_in w) []); [by rewrite app_nil_r|done|by right].
    + eapply HQ; [by rewrite take_drop|rewrite length_take; lia|done].
Qed.

Lemma wp_read_exact_app pre post n (Q : bytes → World → Prop) (R : io_kind → World → Prop) w :
  w_in w = pre ++ post → length pre = n → (∀ k w', ¬ no_faults w → R k w') →
  (∀ w', recv_step w post w' → Q pre w') → wp (read_exact n) Q R w.
Proof.
  intros Hin Hlen HR HQ. apply wp_read_exact.
  - intros k p1 p2 w' _ _ [Hnf|Hshort]; [by apply HR|]. rewrite Hin, length_app in Hshort. lia.
  - intros p1 p2 w' Hin' Hlen' Hst. rewrite Hin in Hin'.
    apply app_inj_length in Hin' as [-> ->]; [|lia]. by apply HQ.
Qed.

Lemma wp_write_all d (Q : unit → World → Prop) (R : io_kind → World → Prop) w :
  (∀ k n w', sent w (take n d) w' → ¬ no_faults w → R k w') →
  (∀ w', sent w d w' → Q tt w') → wp (write_all d) Q R w.
Proof.
  intros HR HQ. apply wp_faulty; [intros f Hf; eapply HR; [done|eauto with etle]|].
  intros _. unfold wp. by apply HQ.
Qed.

Lemma wp_flush (Q : unit → World → Prop) (R : io_kind → World → Prop) w :
  (∀ k w', stepped w w' → ¬ no_faults w → R k w') → (∀ w', stepped w w' → Q tt w') →
  wp flush Q R w.
Proof.
  intros HR HQ. apply wp_faulty; [intros f Hf; apply HR; [done|eauto with etle]|].
  intros _. by apply HQ.
Qed.

(** * The bytes of a message *)
Definition raw_frame (n index : Z) (data : bytes) : bytes :=
  u32_to_be_bytes n ++ [RAW_CHUNK_FRAME_TAG] ++ u32_to_be_bytes index ++ data.

Definition encoded_frame `{Bincode WireMessage} (m : WireMessage) : result ProtocolError bytes :=
  let? payload := ok_or (bincode_encode m) PE_Encode in
  let? _ := validate_frame_len (zlen payload) in
  Ok (u32_to_be_bytes (zlen payload) ++ payload).

Definition frame `{Bincode WireMessage} (m : WireMessage) : result ProtocolError bytes :=
  match m with
  | Chunk index data =>
      let? n := raw_frame_len (zlen data) in
      let? _ := validate_frame_len n in
      Ok (raw_frame n index data)
  | _ => encoded_frame m
  end.

Definition message_wf (m : WireMessage) : Prop :=
  match m with Chunk index _ => u32_range index | _ => True end.

Lemma validate_frame_len_Ok n : validate_frame_len n = Ok tt ↔ n ≠ 0 ∧ n ≤ MAX_FRAME_SIZE.
Proof. unfold validate_frame_len. repeat case_decide; naive_solver lia. Qed.

Lemma validate_frame_len_total n : validate_frame_len n = Ok tt ∨ ∃ e, validate_frame_len n = Err e.
Proof. unfold validate_frame_len. repeat case_decide; eauto. Qed.

Lemma raw_frame_len_total n :
  raw_frame_len n = Ok (5 + n) ∨ raw_frame_len n = Err (FrameTooLarge usize_max MAX_FRAME_SIZE).
Proof. unfold raw_frame_len, checked_add, RAW_CHUNK_HEADER_SIZE. case_decide; [left|right]; done. Qed.

Lemma as_u32_frame n : 0 ≤ n ≤ MAX_FRAME_SIZE → as_u32 n = n.
Proof. unfold as_u32, MAX_FRAME_SIZE. intros. apply Z.mod_small. lia. Qed.

Section send_spec.
Context `{Bincode WireMessage}.

(** The part of the frame of [m] that a failing [send] may have written. *)
Definition frame_part (m : WireMessage) (out : bytes) : Prop :=
  match frame m with Ok f => out `prefix_of` f | _ => out = [] end.

(** The writes of a frame, one after the other. *)
Lemma wp_write_pieces {E} (io_error : io_kind → E) w0 done_ (pieces : list bytes) (Q : unit → World → Prop)
    (R : E → World → Prop) w :
  sent w0 done_ w →
  (∀ k out w', sent w0 out w' → out `prefix_of` done_ ++ concat pieces → ¬ no_faults w0 → R (io_error k) w') →
  (∀ w', sent w0 (done_ ++ concat pieces) w' → Q tt w') →
  wp (foldr (λ d k, do! map_err io_error (write_all d) in k) (map_err io_error flush) pieces) Q R w.
Proof.
  revert done_ w. induction pieces as [|d pieces IH]; intros done_ w Hsent HR HQ.
  - simpl. wp_simpl. apply wp_flush.
    + intros k w' Hst Hnf. eapply HR; [by eapply sent_stepped|by rewrite app_nil_r|].
      by rewrite (sent_no_faults _ _ _ Hsent).
    + intros w' Hst. apply HQ. rewrite app_nil_r. by eapply sent_stepped.
  - cbn [foldr]. wp_simpl. apply wp_write_all.
    + intros k n w' Hst Hnf. eapply HR; [by eapply sent_trans| |by rewrite (sent_no_faults _ _ _ Hsent)].
      apply prefix_app. cbn [concat]. apply prefix_app_r, prefix_take.
    + intros w' Hst. apply (IH (done_ ++ d)); [by eapply sent_trans| |].
      * intros k out w'' Hs Hp. apply (HR k out); [done|]. cbn [concat]. by rewrite app_assoc.
      * intros w'' Hs. apply HQ. cbn [concat]. by rewrite app_assoc.
Qed.

Lemma wp_send_raw index data (Q : unit → World → Prop) (R : ProtocolError → World → Prop) w :
  (∀ e out w', sent w out w' → frame_part (Chunk index data) out →
     (no_faults w → frame (Chunk index data) = Err e) → R e w') →
  (∀ f w', frame (Chunk index data) = Ok f → sent w f w' → Q tt w') →
  wp (send_raw_chunk_frame index data) Q R w.
Proof.
  intros HR HQ. unfold send_raw_chunk_frame. wp_simpl. unfold frame_part in HR. cbn [frame] in *.
  destruct (raw_frame_len_total (zlen data)) as [Hn|Hn]; rewrite Hn in HR, HQ |- *; cbn [result_bind] in *.
  2: { eapply HR; [by apply stepped_sent|done|done]. }
  wp_simpl. destruct (validate_frame_len_total (5 + zlen data)) as [Hv|[e Hv]];
    rewrite Hv in HR, HQ |- *; cbn [result_bind] in *; [|eapply HR; [by apply stepped_sent|done|done]].
  apply validate_frame_len_Ok in Hv. pose proof (zlen_nonneg data).
  rewrite as_u32_frame by lia.
  assert (concat [u32_to_be_bytes (5 + zlen data); [RAW_CHUNK_FRAME_TAG]; u32_to_be_bytes index; data]
          = raw_frame (5 + zlen data) index data) as Hcat
    by (cbn [concat]; unfold raw_frame; by rewrite app_nil_r).
  apply (wp_write_pieces PE_Io w [] [_; [_]; _; data]); [by apply stepped_sent| |]; rewrite Hcat.
  - intros k out w' Hs Hp Hnf. by eapply HR.
  - intros w' Hs. by eapply HQ.
Qed.

Lemma wp_send_encoded m (Q : unit → World → Prop) (R : ProtocolError → World → Prop) w :
  (∀ e out w', sent w out w' → match encoded_frame m with Ok f => out `prefix_of` f | _ => out = [] end →
     (no_faults w → encoded_frame m = Err e) → R e w') →
  (∀ f w', encoded_frame m = Ok f → sent w f w' → Q tt w') →
  wp (let! payload := lift_result (ok_or (bincode_encode m) PE_Encode) in
      do! lift_result (validate_frame_len (zlen payload)) in
      do! map_err PE_Io (write_all (u32_to_be_bytes (as_u32 (zlen payload)))) in
      do! map_err PE_Io (write_all payload) in
      map_err PE_Io flush) Q R w.
Proof.
  intros HR HQ. wp_simpl. unfold encoded_frame in *.
  destruct (bincode_encode m) as [payload|]; cbn [ok_or result_bind] in *.
  2: { eapply HR; [by apply stepped_sent|done|done]. }
  wp_simpl. destruct (validate_frame_len_total (zlen payload)) as [Hv|[e Hv]];
    rewrite Hv in HR, HQ |- *; cbn [result_bind] in *; [|eapply HR; [by apply stepped_sent|done|done]].
  apply validate_frame_len_Ok in Hv. pose proof (zlen_nonneg payload).
  rewrite as_u32_frame by lia.
  assert (concat [u32_to_be_bytes (zlen payload); payload] = u32_to_be_bytes (zlen payload) ++ payload) as Hcat
    by (cbn [concat]; by rewrite app_nil_r).
  apply (wp_write_pieces PE_Io w [] [_; payload]); [by apply stepped_sent| |]; rewrite Hcat.
  - intros k out w' Hs Hp Hnf. by eapply HR.
  - intros w' Hs. by eapply HQ.
Qed.

Lemma wp_send_part m (Q : unit → World → Prop) (R : ProtocolError → World → Prop) w :
  (∀ e out w', sent w out w' → frame_part m out → (no_faults w → frame m = Err e) → R e w') →
  (∀ f w', frame m = Ok f → sent w f w' → Q tt w') →
  wp (send m) Q R w.
Proof. intros HR HQ. destruct m; first [by apply wp_send_raw | by apply wp_send_encoded]. Qed.

Lemma wp_send m (Q : unit → World → Prop) (R : ProtocolError → World → Prop) w :
  (∀ e out w', sent w out w' → (no_faults w → frame m = Err e) → R e w') →
  (∀ f w', frame m = Ok f → sent w f w' → Q tt w') →
  wp (send m) Q R w.
Proof. intros HR HQ. apply wp_send_part; [|done]. intros e out w' Hs _. by eapply HR. Qed.
End send_spec.

(** * Receiving *)
Section receive_spec.
Context `{WireBincodeLaws}.

Lemma wp_read_frame_len n rest (Q : Z → World → Prop) (R : ProtocolError → World → Prop) w :
  w_in w = u32_to_be_bytes n ++ rest → 0 < n ≤ MAX_FRAME_SIZE →
  (∀ e w', ¬ no_faults w → R e w') → (∀ w', recv_step w rest w' → Q n w') →
  wp read_frame_len Q R w.
Proof.
  intros Hin Hn HR HQ. unfold read_frame_len. wp_simpl.
  apply (wp_read_exact_app (u32_to_be_bytes n) rest); [done|apply length_u32_to_be_bytes|eauto|].
  intros w' Hst. wp_simpl. rewrite u32_from_to_be_bytes by (unfold u32_range, u32_max, MAX_FRAME_SIZE in *; lia).
  rewrite (proj2 (validate_frame_len_Ok n)) by lia. wp_simpl. by apply HQ.
Qed.

Lemma wp_read_u8 b rest (Q : byte → World → Prop) (R : io_kind → World → Prop) w :
  w_in w = b :: rest → (∀ k w', ¬ no_faults w → R k w') → (∀ w', recv_step w rest w' → Q b w') →
  wp read_u8 Q R w.
Proof.
  intros Hin HR HQ. unfold read_u8. wp_simpl.
  apply (wp_read_exact_app [b] rest); [done|done|done|]. intros w' Hst. wp_simpl. by apply HQ.
Qed.

(** The data of a raw frame; an empty one is not read at all. *)
Lemma wp_read_data data rest (Q : bytes → World → Prop) (R : ProtocolError → World → Prop) w :
  w_in w = data ++ rest → (∀ e w', ¬ no_faults w → R e w') → (∀ w', recv_step w rest w' → Q data w') →
  wp (if decide (zlen data > 0) then map_err PE_Io (read_exact (Z.to_nat (zlen data))) else ret [])
    Q R w.
Proof.
  intros Hin HR HQ. case_decide as Hd.
  - wp_simpl. apply (wp_read_exact_app data rest); [done|unfold zlen; lia|eauto|done].
  - wp_simpl. assert (data = []) as -> by (apply zlen_0; pose proof (zlen_nonneg data); lia).
    simpl in Hin. subst rest. apply HQ, recv_step_refl.
Qed.

Lemma wp_receive_raw index data rest (Q : WireMessage → World → Prop) (R : ProtocolError → World → Prop) w :
  u32_range index → w_in w = u32_to_be_bytes index ++ data ++ rest →
  (∀ e w', ¬ no_faults w → R e w') →
  (∀ w', recv_step w rest w' → Q (Chunk index data) w') →
  wp (receive_raw_chunk_frame_after_tag (5 + zlen data)) Q R w.
Proof.
  intros Hi Hin HR HQ. unfold receive_raw_chunk_frame_after_tag, RAW_CHUNK_HEADER_SIZE.
  pose proof (zlen_nonneg data). rewrite decide_False by lia. wp_simpl.
  apply (wp_read_exact_app (u32_to_be_bytes index) (data ++ rest));
    [done|apply length_u32_to_be_bytes|eauto|]. intros w1 Hst1. wp_simpl.
  rewrite u32_from_to_be_bytes by done. replace (5 + zlen data - (1 + 4)) with (zlen data) by lia.
  apply (wp_read_data data rest).
  - by eapply recv_step_in.
  - intros e w' Hnf. apply HR. by rewrite (recv_step_no_faults _ _ _ Hst1).
  - intros w' Hst. wp_simpl. apply HQ. by eapply recv_step_trans.
Qed.

Lemma wp_receive_encoded m b payload rest (Q : WireMessage → World → Prop)
    (R : ProtocolError → World → Prop) w :
  bincode_encode m = Some (b :: payload) → w_in w = payload ++ rest →
  (∀ e w', ¬ no_faults w → R e w') → (∀ w', recv_step w rest w' → Q m w') →
  wp (receive_encoded_frame_after_first_byte (zlen (b :: payload)) b) Q R w.
Proof using All.
  intros Henc Hin HR HQ. unfold receive_encoded_frame_after_first_byte. rewrite zlen_cons.
  pose proof (zlen_nonneg payload). rewrite decide_False by lia. wp_simpl.
  replace (1 + zlen payload - 1) with (zlen payload) by lia.
  rewrite (decide_ext _ (zlen payload > 0)) by lia.
  apply (wp_read_data payload rest); [done|done|]. intros w1 Hst1. wp_simpl.
  pose proof (bincode_decode_encode m (b :: payload) [] Henc) as Hdec. rewrite app_nil_r in Hdec.
  rewrite Hdec. cbn [ok_or]. wp_simpl. rewrite decide_False by (cbn [snd]; auto). wp_simpl. by apply HQ.
Qed.

(** The two shapes of a frame. *)
Lemma frame_cases m f :
  frame m = Ok f →
  (∃ i d, m = Chunk i d ∧ f = u32_to_be_bytes (5 + zlen d) ++ RAW_CHUNK_FRAME_TAG :: u32_to_be_bytes i ++ d
          ∧ 0 < 5 + zlen d ≤ MAX_FRAME_SIZE)
  ∨ (∃ b payload, bincode_encode m = Some (b :: payload)
          ∧ f = u32_to_be_bytes (zlen (b :: payload)) ++ b :: payload
          ∧ 0 < zlen (b :: payload) ≤ MAX_FRAME_SIZE ∧ b ≠ RAW_CHUNK_FRAME_TAG ∧ ∀ i d, m ≠ Chunk i d).
Proof using All.
  intros Hf.
  assert ((∃ i d, m = Chunk i d) ∨ encoded_frame m = Ok f ∧ ∀ i d, m ≠ Chunk i d)
    as [(i & d & ->)|[Henc Hnc]] by (destruct m; first [by eauto | by right]); [left|right].
  - cbn [frame] in Hf. destruct (raw_frame_len_total (zlen d)) as [Hn|Hn]; rewrite Hn in Hf; [|done].
    cbn [result_bind] in Hf. destruct (validate_frame_len_total (5 + zlen d)) as [Hv|[e Hv]];
      rewrite Hv in Hf; [|done]. cbn [result_bind] in Hf. exists i, d. split; [done|].
    assert (f = raw_frame (5 + zlen d) i d) as -> by congruence. split; [done|].
    apply validate_frame_len_Ok in Hv. pose proof (zlen_nonneg d). lia.
  - unfold encoded_frame in Henc. destruct (bincode_encode m) as [payload|] eqn:Hp; [|done].
    cbn [ok_or result_bind] in Henc. destruct (validate_frame_len_total (zlen payload)) as [Hv|[e Hv]];
      rewrite Hv in Henc; [|done]. cbn [result_bind] in Henc.
    assert (f = u32_to_be_bytes (zlen payload) ++ payload) as -> by congruence.
    pose proof (wire_first_byte m payload Hp) as Hhead. destruct payload as [|b payload]; [done|].
    exists b, payload. apply validate_frame_len_Ok in Hv. pose proof (zlen_nonneg (b :: payload)).
    split_and!; [done|done|lia|lia| |done]. simpl in Hhead. simplify_eq.
    intros Htag%(f_equal byte_val). rewrite byte_val_of_Z in Htag. revert Htag. by destruct m.
Qed.

(** The header of a frame: its length and first byte. *)
Lemma wp_header {A} n b rest (k : Z → byte → proto A) (Q : A → World → Prop)
    (R : ProtocolError → World → Prop) w :
  w_in w = u32_to_be_bytes n ++ b :: rest → 0 < n ≤ MAX_FRAME_SIZE →
  (∀ e w', ¬ no_faults w → R e w') → (∀ w', recv_step w rest w' → wp (k n b) Q R w') →
  wp (let! len := read_frame_len in let! first := map_err PE_Io read_u8 in k len first) Q R w.
Proof.
  intros Hin Hn HR Hk. wp_simpl. eapply wp_read_frame_len; [exact Hin|lia|done|]. intros w1 Hst1. wp_simpl.
  eapply wp_read_u8; [by eapply recv_step_in| |].
  - intros e w' Hnf. apply HR. by rewrite (recv_step_no_faults _ _ _ Hst1).
  - intros w2 Hst2. apply Hk. by eapply recv_step_trans.
Qed.

(** Receiving the frame of [m] yields [m] and leaves the rest of the stream. *)
Lemma wp_receive_frame m f rest (Q : WireMessage → World → Prop) (R : ProtocolError → World → Prop) w :
  frame m = Ok f → message_wf m → w_in w = f ++ rest →
  (∀ e w', ¬ no_faults w → R e w') → (∀ w', recv_step w rest w' → Q m w') →
  wp receive Q R w.
Proof using All.
  intros Hf Hwf Hin HR HQ. unfold receive.
  destruct (frame_cases m f Hf) as [(i & d & -> & -> & Hn)|(b & payload & Hp & -> & Hn & Hb & _)];
    rewrite <- app_assoc, <- app_comm_cons in Hin; (eapply wp_header; [exact Hin|lia|done|]); intros w1 Hst1;
    assert (∀ e w', ¬ no_faults w1 → R e w') as HR1
      by (intros e w' Hnf; apply HR; by rewrite (recv_step_no_faults _ _ _ Hst1)).
  - rewrite decide_True by done. rewrite <- app_assoc in Hst1.
    eapply wp_receive_raw; [exact Hwf|by eapply recv_step_in|done|].
    intros w' Hst. apply HQ. by eapply recv_step_trans.
  - rewrite decide_False by done. eapply wp_receive_encoded; [exact Hp|by eapply recv_step_in|done|].
    intros w' Hst. apply HQ. by eapply recv_step_trans.
Qed.
End receive_spec.

(** ** Arbitrary input *)

(** The directories on the way to [out] may have been made. *)
Definition made_for (out : option path) (q : path) : Prop :=
  ∃ o, out = Some o ∧ q ∈ ancestors (parent_or_empty o).
Definition node_kept (out : option path) (m m' : fs) (q : path) : Prop :=
  m' !! q = m !! q ∨ (m !! q = None ∧ m' !! q = Some Dir ∧ made_for out q).

(** Nothing but the input and the file [out] changed. *)
Definition rx_to (out : option path) (w w' : World) : Prop :=
  w_env w' = w_env w ∧ w_out w' = w_out w ∧ w_progress w' = w_progress w
  ∧ (∃ pre, w_in w = pre ++ w_in w')
  ∧ ∀ q, out ≠ Some q → node_kept out (w_fs w) (w_fs w') q.
Abbreviation rx := (rx_to None).

Lemma node_kept_file out m m' q : node_kept out m m' q → file_at m' q = file_at m q.
Proof. unfold file_at. intros [->|(-> & -> & _)]; done. Qed.

Lemma rx_to_file out w w' q : rx_to out w w' → out ≠ Some q → file_at (w_fs w') q = file_at (w_fs w) q.
Proof. intros (_ & _ & _ & _ & F) Hq. by eapply node_kept_file, F. Qed.

Lemma mkdirs_kept out m ps q :
  ps ⊆ ancestors (parent_or_empty out) → Forall (λ q, file_at m q = None) ps →
  node_kept (Some out) m (mkdirs m ps) q.
Proof.
  intros Hsub Hps. unfold node_kept. rewrite lookup_mkdirs. case_decide as Hq; [|by left].
  rewrite Forall_forall in Hps. specialize (Hps q Hq). unfold file_at in Hps.
  destruct (m !! q) as [[]|]; [done|by left|right]. split_and!; [done|done|]. exists out. split; [done|by apply Hsub].
Qed.

Global Instance rx_to_preorder out : PreOrder (rx_to out).
Proof.
  split.
  - intros w. split_and!; try done; [by exists []|]. by left.
  - intros w1 w2 w3 (E1 & O1 & P1 & [p1 I1] & F1) (E2 & O2 & P2 & [p2 I2] & F2).
    split_and!; [congruence..| |].
    + exists (p1 ++ p2). rewrite I1, I2. by rewrite app_assoc.
    + intros q Hq. unfold node_kept in *.
      destruct (F1 q Hq) as [H1|(H1 & H1' & M)], (F2 q Hq) as [H2|(H2 & H2' & M')];
        [left|right|right|right]; split_and?; congruence || done.
Qed.

Lemma rx_to_weaken out w w' : rx w w' → rx_to out w w'.
Proof.
  intros (?&?&?&?&F). split_and!; try done. intros q _. left.
  by destruct (F q ltac:(done)) as [?|(_ & _ & o & ? & _)].
Qed.

Lemma stepped_rx out w w' : stepped w w' → rx_to out w w'.
Proof. intros (E&F&I&O&P). unfold rx_to. rewrite E, F, I, O, P. split_and!; try done; [by exists []|by left]. Qed.

Lemma recv_step_rx out w pre post w' : recv_step w post w' → w_in w = pre ++ post → rx_to out w w'.
Proof.
  intros (E&F&I&O&P) Hin. unfold rx_to. rewrite E, F, I, O, P. split_and!; try done; [by exists pre|by left].
Qed.

Lemma rx_to_no_faults out w w' : rx_to out w w' → no_faults w ↔ no_faults w'.
Proof. intros [He _]. unfold no_faults. by rewrite He. Qed.

Section receive_any.
Context `{Bincode WireMessage}.

Lemma wp_read_frame_len_any (Q : Z → World → Prop) (R : ProtocolError → World → Prop) w :
  (∀ e w', rx w w' → R e w') →
  (∀ n pre w', w_in w = pre ++ w_in w' → length pre = 4%nat → n = u32_from_be_bytes pre →
     0 < n ≤ MAX_FRAME_SIZE → stepped (set_in (w_in w') w) w' → Q n w') →
  wp read_frame_len Q R w.
Proof.
  intros HR HQ. unfold read_frame_len. wp_simpl. apply wp_read_exact.
  - intros k pre post w' Hin Hst _. apply HR. by eapply recv_step_rx.
  - intros pre post w' Hin Hlen Hst. wp_simpl.
    assert (w_in w' = post) as Hp by (by eapply recv_step_in).
    destruct (validate_frame_len_total (u32_from_be_bytes pre)) as [Hv|[e Hv]]; rewrite Hv; wp_simpl.
    + apply (HQ _ pre); [by rewrite Hp|done|done| |by rewrite Hp].
      apply validate_frame_len_Ok in Hv. pose proof (u32_from_be_bytes_range pre Hlen) as Hr.
      unfold u32_range in Hr. lia.
    + apply HR. by eapply recv_step_rx.
Qed.

Lemma wp_read_u8_any (Q : byte → World → Prop) (R : io_kind → World → Prop) w :
  (∀ k w', rx w w' → R k w') →
  (∀ b w', w_in w = b :: w_in w' → recv_step w (w_in w') w' → Q b w') →
  wp read_u8 Q R w.
Proof.
  intros HR HQ. unfold read_u8. wp_simpl. apply wp_read_exact.
  - intros k pre post w' Hin Hst _. apply HR. by eapply recv_step_rx.
  - intros pre post w' Hin Hlen Hst. wp_simpl. assert (w_in w' = post) as <- by (by eapply recv_step_in).
    destruct pre as [|b [|]]; [done| |done]. simpl. by apply HQ.
Qed.

Lemma wp_receive_encoded_any n b (Q : WireMessage → World → Prop) (R : ProtocolError → World → Prop) w :
  0 < n → (∀ e w', rx w w' → R e w') →
  (∀ m pre w', w_in w = pre ++ w_in w' → zlen pre = n - 1 → recv_step w (w_in w') w' →
     bincode_decode (b :: pre) = Some (m, n) → Q m w') →
  wp (receive_encoded_frame_after_first_byte n b) Q R w.
Proof.
  intros Hn HR HQ. unfold receive_encoded_frame_after_first_byte. rewrite decide_False by lia. wp_simpl.
  eapply (wp_mono _ (λ rest w', w_in w = rest ++ w_in w' ∧ zlen rest = n - 1 ∧ recv_step w (w_in w') w')
            _ (λ _ w', rx w w')).
  - case_decide as H1; wp_simpl.
    + apply wp_read_exact.
      * intros k pre post w' Hin Hst _. by eapply recv_step_rx.
      * intros pre post w' Hin Hlen Hst. assert (w_in w' = post) as <- by (by eapply recv_step_in).
        split_and!; [done|unfold zlen; lia|done].
    + split_and!; [done|rewrite zlen_nil; lia|apply recv_step_refl].
  - intros rest w' (Hin & Hlen & Hst). wp_simpl.
    assert (rx w w') as Hrx by (by eapply recv_step_rx).
    destruct (bincode_decode (b :: rest)) as [[m k]|] eqn:Hdec; cbn [ok_or]; wp_simpl; [|by apply HR].
    rewrite zlen_cons, Hlen. replace (1 + (n - 1)) with n by lia. cbn [fst snd].
    case_decide as Hk; wp_simpl; [by apply HR|]. eapply HQ; [done|done|done|]. rewrite Hdec. f_equal. f_equal. lia.
  - done.
Qed.

Lemma wp_receive_raw_any n (Q : WireMessage → World → Prop) (R : ProtocolError → World → Prop) w :
  (∀ e w', rx w w' → R e w') →
  (∀ ib d w', w_in w = ib ++ d ++ w_in w' → length ib = 4%nat → zlen d = n - 5 →
     recv_step w (w_in w') w' → Q (Chunk (u32_from_be_bytes ib) d) w') →
  wp (receive_raw_chunk_frame_after_tag n) Q R w.
Proof.
  intros HR HQ. unfold receive_raw_chunk_frame_after_tag, RAW_CHUNK_HEADER_SIZE.
  case_decide as Hn; wp_simpl; [by apply HR|]. apply wp_read_exact.
  { intros k pre post w' Hin Hst _. apply HR. by eapply recv_step_rx. }
  intros ib post w1 Hin Hlen Hst1. assert (rx w w1) as Hrx1 by (by eapply recv_step_rx). wp_simpl.
  pose proof (recv_step_in _ _ _ Hst1) as Hin1. subst post. case_decide as Hd; wp_simpl.
  - apply wp_read_exact.
    + intros k pre post' w' Hin' Hst _. apply HR. etrans; [done|]. by eapply recv_step_rx.
    + intros pre post' w' Hin' Hlen' Hst. wp_simpl. pose proof (recv_step_in _ _ _ Hst) as Hin2. subst post'.
      apply HQ; [by rewrite <- Hin'|done|unfold zlen; lia|by eapply recv_step_trans].
  - apply HQ; [done|done|rewrite zlen_nil; lia|done].
Qed.

(** [carries f m]: the bytes [f] are one frame that decodes to [m]. *)
Definition carries (f : bytes) (m : WireMessage) : Prop :=
  (∃ ib d, m = Chunk (u32_from_be_bytes ib) d ∧ length ib = 4%nat
     ∧ f = u32_to_be_bytes (5 + zlen d) ++ RAW_CHUNK_FRAME_TAG :: ib ++ d)
  ∨ (∃ b payload, f = u32_to_be_bytes (zlen (b :: payload)) ++ b :: payload
     ∧ b ≠ RAW_CHUNK_FRAME_TAG ∧ bincode_decode (b :: payload) = Some (m, zlen (b :: payload))).

(** Whatever the peer sends, one message or an error comes out; a message is
    what one frame at the front of the stream carries. *)
Lemma wp_receive_carries (Q : WireMessage → World → Prop) (R : ProtocolError → World → Prop) w :
  (∀ e w', rx w w' → R e w') →
  (∀ m f w', carries f m → w_in w = f ++ w_in w' → zlen f ≤ 4 + MAX_FRAME_SIZE →
     recv_step w (w_in w') w' → Q m w') →
  wp receive Q R w.
Proof.
  intros HR HQ. unfold receive. wp_simpl. apply wp_read_frame_len_any; [done|].
  intros n pre w1 Hin1 Hlen1 Hpre Hn Hst1. assert (rx w w1) as Hrx1 by (by eapply recv_step_rx).
  assert (pre = u32_to_be_bytes n) as ->.
  { rewrite Hpre. unfold u32_to_be_bytes, u32_from_be_bytes. rewrite <- Hlen1. by rewrite be_bytes_of_be. }
  wp_simpl. apply wp_read_u8_any; [intros k w' ?; apply HR; by etrans|].
  intros b w2 Hin2 Hst2. assert (rx w1 w2) as Hrx2 by (by eapply (recv_step_rx _ _ [b])).
  assert (rx w w2) as Hrx by (by etrans).
  assert (recv_step w (w_in w2) w2) as Hst by (by eapply recv_step_trans). case_decide as Hb.
  - apply wp_receive_raw_any; [intros e w' ?; apply HR; by etrans|]. intros ib d w' Hin Hib Hd Hst'.
    eapply (HQ _ (u32_to_be_bytes n ++ b :: ib ++ d)); [left; exists ib, d| | |by eapply recv_step_trans].
    + split_and!; [done|done|]. subst b. by replace (5 + zlen d) with n by lia.
    + rewrite Hin1, Hin2, Hin. rewrite <- app_assoc. cbn [app]. by rewrite <- app_assoc.
    + rewrite zlen_app, zlen_cons, zlen_app. unfold zlen at 1 2. rewrite length_u32_to_be_bytes. lia.
  - apply wp_receive_encoded_any; [lia|intros e w' ?; apply HR; by etrans|].
    intros m pre' w' Hin Hz Hst' Hdec.
    eapply (HQ _ (u32_to_be_bytes n ++ b :: pre')); [right; exists b, pre'| | |by eapply recv_step_trans].
    + assert (zlen (b :: pre') = n) as -> by (rewrite zlen_cons; lia). done.
    + rewrite Hin1, Hin2, Hin. by rewrite <- app_assoc.
    + rewrite zlen_app, zlen_cons. unfold zlen at 1. rewrite length_u32_to_be_bytes. lia.
Qed.

(** One message never consumes more than the frame limit. *)
Lemma wp_receive_any (Q : WireMessage → World → Prop) (R : ProtocolError → World → Prop) w :
  (∀ e w', rx w w' → R e w') →
  (∀ m w', rx w w' → zlen (w_in w) ≤ zlen (w_in w') + 4 + MAX_FRAME_SIZE → Q m w') →
  wp receive Q R w.
Proof.
  intros HR HQ. apply wp_receive_carries; [done|]. intros m f w' _ Hin Hf Hst.
  apply HQ; [by eapply recv_step_rx|]. rewrite Hin, zlen_app. lia.
Qed.
End receive_any.

(** * Streaming chunks to and from files *)
Definition can_receive (m : fs) (out : path) : Prop :=
  out ≠ [] ∧ dirs_free m (parent_or_empty out) ∧ m !! out ≠ Some Dir.

Section to_file.
Context `{Blake3Laws} `{Bincode WireMessage}.

Lemma fs_step_rx out w m w' :
  fs_step w m w' → (∀ q, q ≠ out → node_kept (Some out) (w_fs w) m q) → rx_to (Some out) w w'.
Proof.
  intros (E&F&I&O&P) Hm. unfold rx_to. rewrite E, F, I, O, P. split_and!; try done; [by exists []|].
  intros q Hq. apply Hm. congruence.
Qed.

(** The state of the copy loop after [done_]: written, hashed, [remaining] left. *)
Definition copy_inv (w0 : World) (out : path) (n : Z) (st : Z * hasher) (w : World) : Prop :=
  ∃ blocks, w_in w0 = concat blocks ++ w_in w ∧ n = zlen (concat blocks) + st.1 ∧ 0 ≤ st.1
    ∧ st.2 = hasher_updates hasher_new blocks
    ∧ file_at (w_fs w) out = Some (concat blocks) ∧ rx_to (Some out) w0 w.

Lemma wp_receive_block w0 out n st w :
  copy_inv w0 out n st w →
  wp (receive_block out st)
    (λ r w', match r with
             | inl st' => copy_inv w0 out n st' w' ∧ (Z.to_nat st'.1 < Z.to_nat st.1)%nat
             | inr h => ∃ d, w_in w0 = d ++ w_in w' ∧ zlen d = n ∧ hasher_finalize h = blake3_hash d
                          ∧ file_at (w_fs w') out = Some d ∧ rx_to (Some out) w0 w'
             end)
    (λ e w', rx_to (Some out) w0 w' ∧ (no_faults w0 → n ≤ zlen (w_in w0) → False)) w.
Proof using All.
  destruct st as [remaining h].
  intros (blocks & Hin & Hn & Hpos & Hh & Hf & Hrx). cbn [fst snd] in *. unfold receive_block.
  case_decide as Hr; wp_simpl.
  2: { exists (concat blocks). split_and!; [done|lia| |done|done]. rewrite Hh. apply hasher_updates_hash. }
  apply wp_read_exact.
  { intros k pre post w1 Hin1 Hst1 Hwhy. split; [etrans; [done|by eapply recv_step_rx]|].
    rewrite <- (rx_to_no_faults _ _ _ Hrx) in Hwhy. destruct Hwhy as [?|Hshort]; [done|].
    intros _. rewrite Hin, zlen_app. unfold zlen in *. lia. }
  intros block post w1 Hin1 Hlen1 Hst1. wp_simpl. pose proof (recv_step_in _ _ _ Hst1) as Hpost.
  assert (rx_to (Some out) w0 w1) as Hrx1 by (etrans; [done|by eapply recv_step_rx]).
  assert (file_at (w_fs w1) out = Some (concat blocks)) as Hf1 by (by destruct Hst1 as (_ & -> & _)).
  assert (∀ d, append_at (w_fs w1) out d = <[out := File (concat blocks ++ d)]> (w_fs w1)) as Happ.
  { intros d. unfold append_at, file_at in *. by destruct (w_fs w1 !! out) as [[]|]; simplify_eq. }
  apply wp_file_write_all.
  { intros k j w2 Hst2 Hnf. rewrite Happ in Hst2. split.
    - etrans; [exact Hrx1|]. eapply fs_step_rx; [done|]. intros q Hq. left. by apply lookup_insert_ne.
    - intros Hnf0. exfalso. apply Hnf. by rewrite <- (rx_to_no_faults _ _ _ Hrx1). }
  intros w2 Hst2. rewrite Happ in Hst2. wp_simpl. cbn [fst]. split; [|lia].
  exists (blocks ++ [block]). cbn [fst snd]. rewrite concat_app. simpl. rewrite app_nil_r.
  assert (w_in w2 = w_in w1) as Hin2 by (by destruct Hst2 as (_ & _ & -> & _)).
  split_and!.
  - by rewrite Hin2, Hpost, <- app_assoc, <- Hin1.
  - rewrite zlen_app. unfold zlen in *. lia.
  - lia.
  - rewrite Hh. apply hasher_updates_snoc.
  - rewrite (fs_step_fs _ _ _ Hst2). apply file_at_insert_eq.
  - etrans; [exact Hrx1|]. eapply fs_step_rx; [done|]. intros q Hq. left. by apply lookup_insert_ne.
Qed.

(** Preparing the output file. *)
Lemma wp_prepare_output out (Q : unit → World → Prop) (R : ProtocolError → World → Prop) w :
  (∀ e w', rx_to (Some out) w w' → (no_faults w → can_receive (w_fs w) out → False) → R e w') →
  (∀ w', rx_to (Some out) w w' → w_in w' = w_in w → file_at (w_fs w') out = Some [] → Q tt w') →
  wp (do! (match path_parent out with
           | Some parent => map_err PE_Io (create_dir_all parent)
           | None => ret tt
           end) in
      map_err PE_Io (file_create out)) Q R w.
Proof.
  intros HR HQ. unfold can_receive, parent_or_empty in HR.
  destruct (path_parent out) as [parent|] eqn:Hpar; cbn [from_option id] in HR; wp_simpl.
  2: { apply wp_file_create.
       - intros k w' Hst _. apply HR; [by apply stepped_rx|]. intros _ [Hne _]. by destruct out.
       - intros w' [Hne _] _. by destruct out. }
  assert (parent_or_empty out = parent) as Hpe by (unfold parent_or_empty; by rewrite Hpar).
  apply wp_create_dir_all.
  { intros k ps w1 Hst Hsub Hps Hnf. apply HR; [|naive_solver].
    eapply fs_step_rx; [done|]. intros q _. apply mkdirs_kept; [by rewrite Hpe|done]. }
  intros w1 [Hpf Hanc] Hst1.
  assert (rx_to (Some out) w w1) as Hrx1
    by (eapply fs_step_rx; [done|]; intros q _; apply mkdirs_kept; [by rewrite Hpe|done]).
  wp_simpl. apply wp_file_create; rewrite (fs_step_fs _ _ _ Hst1).
  - intros k w' Hst Hnf. apply HR; [etrans; [done|by apply stepped_rx]|].
    intros Hn (Hne & _ & Hd). apply (Hnf (proj1 (rx_to_no_faults _ _ _ Hrx1) Hn)).
    split_and!; [done| |rewrite Hpe; apply is_dir_in_mkdirs_ancestors].
    rewrite lookup_mkdirs, decide_False; [done|]. intros Hin. apply elem_of_ancestors in Hin as [_ [j Hj]].
    apply (f_equal length) in Hj. unfold path_parent in Hpar. destruct out as [|x o]; [done|].
    assert (parent = removelast (x :: o)) as -> by congruence.
    assert (x :: o ≠ []) as Hxo by done.
    pose proof (f_equal length (app_removelast_last x Hxo)) as Hl. rewrite length_app in Hl, Hj.
    cbn [length] in Hl, Hj. lia.
  - intros w' _ Hst. apply HQ.
    + etrans; [exact Hrx1|]. eapply fs_step_rx; [done|]. rewrite (fs_step_fs _ _ _ Hst1).
      intros q Hq. left. by apply lookup_insert_ne.
    + destruct Hst as (_ & _ & -> & _). simpl. by destruct Hst1 as (_ & _ & -> & _).
    + rewrite (fs_step_fs _ _ _ Hst). apply file_at_insert_eq.
Qed.

(** Storing the rest of a raw frame of [n] bytes: [4] bytes of index and the data. *)
Lemma wp_receive_raw_to_file n out (Q : ReceivedRawChunkFile → World → Prop)
    (R : ProtocolError → World → Prop) w :
  (∀ e w', rx_to (Some out) w w' →
     (no_faults w → can_receive (w_fs w) out → n - 1 ≤ zlen (w_in w) → 5 ≤ n → False) → R e w') →
  (∀ ib d w', w_in w = ib ++ d ++ w_in w' → length ib = 4%nat → zlen d = n - 5 →
     file_at (w_fs w') out = Some d → rx_to (Some out) w w' →
     Q (mkReceivedRawChunkFile (u32_from_be_bytes ib) (n - 5) (blake3_hash d)) w') →
  wp (receive_raw_chunk_frame_to_file_after_tag n out) Q R w.
Proof using All.
  intros HR HQ. unfold receive_raw_chunk_frame_to_file_after_tag, RAW_CHUNK_HEADER_SIZE.
  case_decide as Hn; wp_simpl; [apply HR; [done|lia]|]. change (1 + 4) with 5 in *.
  apply wp_read_exact.
  { intros k pre post w1 Hin Hst Hwhy. apply HR; [by eapply recv_step_rx|].
    intros Hnf _ Hlen _. destruct Hwhy as [?|Hshort]; [done|]. unfold zlen in Hlen. lia. }
  intros ib post w1 Hin Hlen Hst1. pose proof (recv_step_in _ _ _ Hst1) as Hin1.
  assert (rx_to (Some out) w w1) as Hrx1 by (by eapply recv_step_rx).
  assert (w_fs w1 = w_fs w) as Hfs1 by (by destruct Hst1 as (_ & -> & _)).
  assert (zlen (w_in w) = 4 + zlen (w_in w1)) as Hz by (rewrite Hin, zlen_app, Hin1; unfold zlen; lia).
  apply wp_assoc. apply wp_bind, wp_prepare_output; rewrite ?Hfs1.
  { intros e w2 Hrx2 Hwhy. apply HR; [by etrans|]. intros Hnf Hcr _ _.
    apply Hwhy; [by apply (rx_to_no_faults _ _ _ Hrx1)|done]. }
  intros w2 Hrx2 Hin2 Hf2. assert (rx_to (Some out) w w2) as Hrx02 by (by etrans).
  wp_simpl. eapply wp_mono.
  - apply (wp_mloop _ (copy_inv w2 out (n - 5)) (λ st _, Z.to_nat st.1)).
    + exists []. split_and!; try done; simpl; lia.
    + simpl. lia.
    + intros st w3 Hinv. by apply wp_receive_block.
  - simpl. intros h w3 (d & Hin3 & Hd & Hh & Hf3 & Hrx3). wp_simpl. apply wp_file_sync.
    + intros k w4 Hst4 Hnf. apply HR; [etrans; [exact Hrx02|etrans; [exact Hrx3|by apply stepped_rx]]|].
      intros Hn0. exfalso. apply Hnf. apply (rx_to_no_faults _ _ _ Hrx3), (rx_to_no_faults _ _ _ Hrx02), Hn0.
    + intros w4 Hst4. wp_simpl. rewrite Hh.
      assert (w_in w4 = w_in w3 ∧ w_fs w4 = w_fs w3) as [Hi4 Hf4] by (by destruct Hst4 as (_ & -> & -> & _)).
      apply HQ; [|done|done|by rewrite Hf4|].
      * by rewrite Hi4, <- Hin3, Hin2, Hin1.
      * etrans; [exact Hrx02|etrans; [exact Hrx3|by apply stepped_rx]].
  - simpl. intros e w3 [Hrx3 Hwhy]. apply HR; [by etrans|]. intros Hn0 _ Hl _.
    apply Hwhy; [by apply (rx_to_no_faults _ _ _ Hrx02)|]. rewrite Hin2. lia.
Qed.

(** What [receive_chunk_to_file] may return for arbitrary input. *)
Lemma wp_receive_chunk_to_file out (Q : ReceivedChunkFrame → World → Prop)
    (R : ProtocolError → World → Prop) w :
  (∀ e w', rx_to (Some out) w w' → R e w') →
  (∀ i d w', rx_to (Some out) w w' → u32_range i → file_at (w_fs w') out = Some d →
     Q (RawChunkFile (mkReceivedRawChunkFile i (zlen d) (blake3_hash d))) w') →
  (∀ m w', rx w w' → Q (Message m) w') →
  wp (receive_chunk_to_file out) Q R w.
Proof using All.
  intros HR HQ1 HQ2. unfold receive_chunk_to_file. wp_simpl.
  apply wp_read_frame_len_any; [intros; by apply HR, rx_to_weaken|].
  intros n pre w1 Hin1 Hlen1 _ Hn Hst1. assert (rx w w1) as Hrx1 by (by eapply recv_step_rx).
  wp_simpl. apply wp_read_u8_any; [intros k w' ?; apply HR, rx_to_weaken; by etrans|].
  intros b w2 Hin2 Hst2. assert (rx w1 w2) as Hrx2 by (by eapply (recv_step_rx _ _ [b])).
  assert (rx w w2) as Hrx by (by etrans). case_decide; wp_simpl.
  - apply wp_receive_encoded_any; [lia|intros e w' ?; apply HR, rx_to_weaken; by etrans|].
    intros m pre' w' Hin' Hz Hst' _. wp_simpl. apply HQ2. etrans; [exact Hrx|]. by eapply recv_step_rx.
  - apply wp_receive_raw_to_file.
    + intros e w' Hrx' _. apply HR. etrans; [by apply rx_to_weaken|done].
    + intros ib d w' Hin' Hlen' Hd Hf Hrx'. wp_simpl. rewrite <- Hd. apply HQ1; [|..|done].
      * etrans; [by apply rx_to_weaken|done].
      * by apply u32_from_be_bytes_range.
Qed.

Lemma wp_write_then w0 done_ d (k : proto unit) (Q : unit → World → Prop)
    (R : ProtocolError → World → Prop) w :
  sent w0 done_ w →
  (∀ k out w', sent w0 out w' → out `prefix_of` done_ ++ d → ¬ no_faults w0 → R (PE_Io k) w') →
  (∀ w', sent w0 (done_ ++ d) w' → wp k Q R w') →
  wp (do! map_err PE_Io (write_all d) in k) Q R w.
Proof.
  intros Hs HR Hk. wp_simpl. apply wp_write_all.
  - intros e n w' Hs' Hnf. eapply HR; [by eapply sent_trans|apply prefix_app, prefix_take|].
    by rewrite (sent_no_faults _ _ _ Hs).
  - intros w' Hs'. apply Hk. by eapply sent_trans.
Qed.

(** The read loop of [send_chunk_file] writes the whole file. *)
Lemma wp_send_blocks content w (Q : unit → World → Prop) (R : ProtocolError → World → Prop) :
  (∀ k out w', sent w out w' → out `prefix_of` content → ¬ no_faults w → R (PE_Io k) w') →
  (∀ w', sent w content w' → Q tt w') →
  wp (mloop (S (length content)) send_block content) Q R w.
Proof.
  intros HR HQ.
  apply (wp_mloop _ (λ rest w', ∃ done_, content = done_ ++ rest ∧ sent w done_ w') (λ rest _, length rest)).
  - exists []. split; [done|]. by apply stepped_sent.
  - lia.
  - intros rest w1 (done_ & Hd & Hs). unfold send_block. wp_simpl. apply wp_file_read.
    { intros k w' Hst Hnf. eapply HR; [by eapply sent_stepped|rewrite Hd; by apply prefix_app_r|].
      by rewrite (sent_no_faults _ _ _ Hs). }
    intros pre post w2 Hrest Hpre _ _ Hst2. cbn [fst snd].
    assert (sent w done_ w2) as Hs2 by (by eapply sent_stepped). case_decide as Hemp; wp_simpl.
    + assert (rest = []) as -> by (destruct (Hpre Hemp); [lia|done]).
      apply HQ. by rewrite app_nil_r in Hd; subst.
    + apply wp_write_all.
      * intros k j w' Hs' Hnf. eapply HR; [by eapply sent_trans| |by rewrite (sent_no_faults _ _ _ Hs2)].
        rewrite Hd, Hrest. apply prefix_app, prefix_app_r, prefix_take.
      * intros w' Hs'. wp_simpl. split.
        -- exists (done_ ++ pre). split; [by rewrite <- app_assoc, <- Hrest|]. by eapply sent_trans.
        -- rewrite Hrest, length_app. destruct pre; [done|]. simpl. lia.
Qed.

(** [send_chunk_file] writes what [send] writes for the chunk in memory. *)
Lemma wp_send_chunk_file index p expected (Q : unit → World → Prop) (R : ProtocolError → World → Prop) w :
  (∀ e out w', sent w out w' →
     out = [] ∨ (∃ d f, file_at (w_fs w) p = Some d ∧ frame (Chunk index d) = Ok f ∧ out `prefix_of` f) →
     (no_faults w → file_at (w_fs w) p = None ∨ ∃ d, file_at (w_fs w) p = Some d ∧
        (e = RawChunkSizeMismatch expected (zlen d) ∧ zlen d ≠ expected
         ∨ zlen d = expected ∧ frame (Chunk index d) = Err e)) →
     R e w') →
  (∀ d f w', file_at (w_fs w) p = Some d → zlen d = expected → frame (Chunk index d) = Ok f →
     sent w f w' → Q tt w') →
  wp (send_chunk_file index p expected) Q R w.
Proof.
  intros HR HQ. unfold send_chunk_file. wp_simpl. apply wp_read_file.
  { intros k w' Hst Hwhy. eapply HR; [by apply stepped_sent|by left|]. intros Hnf. destruct Hwhy; [done|by left]. }
  intros d w1 Hd Hst1. wp_simpl. apply wp_faulty.
  { intros f Hf. eapply HR; [by apply stepped_sent|by left|]. intros Hn. exfalso.
    rewrite (stepped_no_faults _ _ Hst1) in Hn. by eapply fault_not_no_faults. }
  intros _. unfold wp at 1. set (w2 := tick w1). assert (stepped w w2) as Hst2 by (by etrans).
  case_decide as Hsz; wp_simpl.
  { eapply HR; [by apply stepped_sent|by left|]. intros _. right. exists d. split; [done|]. by left. }
  assert (zlen d = expected) as <- by lia. clear Hsz. cbn [frame] in *.
  destruct (raw_frame_len_total (zlen d)) as [Hn|Hn]; rewrite Hn; cbn beta iota.
  2: { eapply HR; [by apply stepped_sent|by left|]. intros _. right. exists d. split; [done|].
       right. split; [done|]. by rewrite Hn. }
  wp_simpl. destruct (validate_frame_len_total (5 + zlen d)) as [Hv|[e Hv]]; rewrite Hv; cbn beta iota.
  2: { eapply HR; [by apply stepped_sent|by left|]. intros _. right. exists d. split; [done|]. right.
       split; [done|]. rewrite Hn. cbn [result_bind]. by rewrite Hv. }
  pose proof Hv as Hv'. apply validate_frame_len_Ok in Hv'. pose proof (zlen_nonneg d).
  rewrite as_u32_frame by lia.
  set (f := raw_frame (5 + zlen d) index d).
  assert (frame (Chunk index d) = Ok f) as Hf by (cbn [frame]; rewrite Hn; cbn [result_bind]; by rewrite Hv).
  assert (∀ k out w', sent w out w' → out `prefix_of` f → ¬ no_faults w → R (PE_Io k) w') as HRio.
  { intros k out w' Hs Hp Hnf. eapply HR; [done|right; by exists d, f|done]. }
  assert (sent w [] w2) as Hs2 by (by apply stepped_sent).
  assert (f = (u32_to_be_bytes (5 + zlen d) ++ [RAW_CHUNK_FRAME_TAG] ++ u32_to_be_bytes index) ++ d) as Hf'
    by (unfold f, raw_frame; by rewrite <- !app_assoc).
  eapply wp_write_then; [exact Hs2|intros k out w' Hs Hp; apply (HRio k out); [done|]; etrans; [exact Hp|by eexists]|].
  intros w3 Hs3.
  eapply wp_write_then; [exact Hs3|intros k out w' Hs Hp; apply (HRio k out); [done|]; etrans; [exact Hp|by eexists]|].
  intros w4 Hs4.
  eapply wp_write_then; [exact Hs4|intros k out w' Hs Hp; apply (HRio k out); [done|]; etrans; [exact Hp|]|].
  { rewrite Hf', <- !app_assoc. by eexists. }
  intros w5 Hs5. cbn [app] in Hs5. wp_simpl. apply wp_send_blocks.
  { intros k out w' Hs Hp Hnf. eapply HRio; [by eapply sent_trans| |by rewrite (sent_no_faults _ _ _ Hs5)].
    destruct Hp as [z ->]. exists z. rewrite Hf', <- !app_assoc. done. }
  intros w6 Hs6. assert (sent w f w6) as Hs06.
  { pose proof (sent_trans _ _ _ _ _ Hs5 Hs6) as Hs. unfold f, raw_frame. by rewrite <- !app_assoc in Hs. }
  wp_simpl. apply wp_flush.
  - intros k w' Hst Hnf. eapply HRio; [by eapply sent_stepped|done|]. by rewrite (sent_no_faults _ _ _ Hs06).
  - intros w' Hst. eapply (HQ d); [done|done|exact Hf|by eapply sent_stepped].
Qed.
End to_file.

(** Receiving the frame of a message into a file: the same message, with the data
    of a chunk in the file. *)
Definition file_result `{Blake3} (m : WireMessage) : ReceivedChunkFrame :=
  match m with
  | Chunk i d => RawChunkFile (mkReceivedRawChunkFile i (zlen d) (blake3_hash d))
  | _ => Message m
  end.

Lemma wp_receive_chunk_to_file_frame `{Blake3Laws, WireBincodeLaws} m f rest out
    (Q : ReceivedChunkFrame → World → Prop) (R : ProtocolError → World → Prop) w :
  frame m = Ok f → message_wf m → w_in w = f ++ rest →
  (∀ e w', (no_faults w → can_receive (w_fs w) out → False) → R e w') →
  (∀ w', w_in w' = rest → rx_to (Some out) w w' →
     (∀ i d, m = Chunk i d → file_at (w_fs w') out = Some d) → Q (file_result m) w') →
  wp (receive_chunk_to_file out) Q R w.
Proof.
  intros Hf Hwf Hin HR HQ. unfold receive_chunk_to_file.
  destruct (frame_cases m f Hf) as [(i & d & -> & -> & Hn)|(b & payload & Hp & -> & Hn & Hb & Hnc)];
    pose proof Hin as Hin0; rewrite <- app_assoc, <- app_comm_cons in Hin;
    (eapply wp_header; [exact Hin|lia|intros; apply HR; tauto|]); intros w1 Hst1;
    pose proof (recv_step_in _ _ _ Hst1) as Hin1.
  - rewrite decide_False by auto. wp_simpl. rewrite <- app_assoc in Hin1.
    assert (rx_to (Some out) w w1) as Hrx1.
    { eapply (recv_step_rx _ _ (u32_to_be_bytes (5 + zlen d) ++ [RAW_CHUNK_FRAME_TAG])); [exact Hst1|].
      rewrite Hin. by rewrite <- app_assoc. }
    assert (w_fs w1 = w_fs w) as Hfs1 by (by destruct Hst1 as (_ & -> & _)).
    apply wp_receive_raw_to_file.
    + intros e w' _ Hwhy. apply HR. intros Hnf Hcr. apply Hwhy; [by apply (rx_to_no_faults _ _ _ Hrx1)|by rewrite Hfs1| |].
      * rewrite Hin1, !zlen_app. unfold zlen at 2. rewrite length_u32_to_be_bytes.
        pose proof (zlen_nonneg rest). lia.
      * pose proof (zlen_nonneg d). lia.
    + intros ib d' w2 Hin2 Hlen2 Hd Hf2 Hrx2. wp_simpl. rewrite Hin1 in Hin2.
      apply app_inj_length in Hin2 as [<- Hin2]; [|by rewrite Hlen2, length_u32_to_be_bytes].
      apply app_inj_length in Hin2 as [<- Hrest]; [|unfold zlen in Hd; lia].
      rewrite u32_from_to_be_bytes by done. replace (5 + zlen d - 5) with (zlen d) by lia.
      apply (HQ w2); [done|by etrans|]. by intros j e [= <- <-].
  - rewrite decide_True by done. wp_simpl.
    eapply wp_receive_encoded; [exact Hp|by eapply recv_step_in| |].
    + intros e w' Hnf. apply HR. rewrite (recv_step_no_faults _ _ _ Hst1). tauto.
    + intros w' Hst. wp_simpl. replace (Message m) with (file_result m) by (by destruct m; try done; destruct (Hnc index data)).
      assert (recv_step w rest w') as Hst' by (by eapply recv_step_trans).
      apply HQ; [by eapply recv_step_in|by eapply recv_step_rx|]. intros i d ->. by destruct (Hnc i d).
Qed.

(** * Runs without faults *)
Lemma send_run `{Bincode WireMessage} m f w :
  no_faults w → frame m = Ok f → ∃ w', send m w = (Ok tt, w') ∧ sent w f w'.
Proof.
  intros Hnf Hf. destruct (wp_run (send m) (λ _ w', sent w f w') (λ _ _, False) w)
    as [([] & w' & ? & ?)|(? & ? & _ & [])]; [|by exists w'].
  apply wp_send; [intros e out w' _ Hwhy; specialize (Hwhy Hnf); congruence|]. intros; congruence.
Qed.

Lemma receive_run `{WireBincodeLaws} m f rest w :
  no_faults w → frame m = Ok f → message_wf m → w_in w = f ++ rest →
  ∃ w', receive w = (Ok m, w') ∧ recv_step w rest w'.
Proof.
  intros Hnf Hf Hwf Hin. destruct (wp_run receive (λ m' w', m' = m ∧ recv_step w rest w') (λ _ _, False) w)
    as [(? & w' & ? & -> & ?)|(? & ? & _ & [])]; [|by exists w'].
  eapply wp_receive_frame; [done|done|exact Hin|done|done].
Qed.

(** * Streams of messages *)
Section streams.
Context `{Bincode WireMessage}.

Definition send_all (ms : list WireMessage) : proto unit := mfold (λ _ m, send m) tt ms.

Fixpoint receive_many (n : nat) : proto (list WireMessage) :=
  match n with
  | O => ret []
  | S n =>
      let! m := receive in
      let! ms := receive_many n in
      ret (m :: ms)
  end.

Fixpoint frames (ms : list WireMessage) : result ProtocolError bytes :=
  match ms with
  | [] => Ok []
  | m :: ms =>
      let? f := frame m in
      let? fs := frames ms in
      Ok (f ++ fs)
  end.
End streams.

Lemma wp_send_all `{Bincode WireMessage} ms fs w (Q : unit → World → Prop) (R : ProtocolError → World → Prop) :
  frames ms = Ok fs → (∀ e out w', sent w out w' → ¬ no_faults w → R e w') →
  (∀ w', sent w fs w' → Q tt w') → wp (send_all ms) Q R w.
Proof.
  unfold send_all. revert fs w Q. induction ms as [|m ms IH]; intros fs w Q Hf HR HQ.
  - injection Hf as <-. simpl. wp_simpl. apply HQ. by apply stepped_sent.
  - cbn [frames] in Hf. destruct (frame m) as [f| | |] eqn:Hm; [|done..]. cbn [result_bind] in Hf.
    destruct (frames ms) as [fs'| | |] eqn:Hms; [|done..]. cbn [result_bind] in Hf.
    assert (fs = f ++ fs') as -> by congruence. cbn [mfold]. wp_simpl. apply wp_send.
    + intros e out w' Hs Hnf. eapply HR; [done|]. rewrite Hm in Hnf. naive_solver.
    + intros f' w1 Hf' Hs1. assert (f' = f) as -> by congruence. eapply IH; [done| |].
      * intros e out w' Hs Hnf. eapply HR; [by eapply sent_trans|]. by rewrite (sent_no_faults _ _ _ Hs1).
      * intros w' Hs. apply HQ. by eapply sent_trans.
Qed.

Lemma wp_receive_many `{WireBincodeLaws} ms fs rest w (Q : list WireMessage → World → Prop)
    (R : ProtocolError → World → Prop) :
  frames ms = Ok fs → Forall message_wf ms → w_in w = fs ++ rest →
  (∀ e w', ¬ no_faults w → R e w') → (∀ w', recv_step w rest w' → Q ms w') →
  wp (receive_many (length ms)) Q R w.
Proof.
  revert fs w Q. induction ms as [|m ms IH]; intros fs w Q Hf Hwf Hin HR HQ.
  - injection Hf as <-. simpl. wp_simpl. apply HQ. simpl in Hin. rewrite <- Hin. apply recv_step_refl.
  - cbn [frames] in Hf. destruct (frame m) as [f| | |] eqn:Hm; [|done..]. cbn [result_bind] in Hf.
    destruct (frames ms) as [fs'| | |] eqn:Hms; [|done..]. cbn [result_bind] in Hf.
    assert (fs = f ++ fs') as -> by congruence. rewrite <- app_assoc in Hin.
    apply Forall_cons in Hwf as [Hwf1 Hwf2]. cbn [length receive_many]. wp_simpl.
    eapply wp_receive_frame; [done|done|exact Hin|done|]. intros w1 Hst1. wp_simpl.
    eapply IH; [done|done|by eapply recv_step_in| |].
    + intros e w' Hnf. apply HR. by rewrite (recv_step_no_faults _ _ _ Hst1).
    + intros w' Hst. wp_simpl. apply HQ. by eapply recv_step_trans.
Qed.

(** * Claims *)

(** C11: the wire format is self-delimiting: if the messages [ms] all fit the
    frame limit, sending them succeeds, and a receiver that reads the bytes
    written, followed by anything, receives exactly [ms], in order, and leaves the
    rest of the stream unread. *)
Theorem codec_stream_roundtrip `{WireBincodeLaws} ms fs wa :
  frames ms = Ok fs → Forall message_wf ms → no_faults wa →
  ∃ wa', send_all ms wa = (Ok tt, wa') ∧ w_out wa' = w_out wa ++ fs ∧
    ∀ wb rest, no_faults wb → w_in wb = fs ++ rest →
      ∃ wb', receive_many (length ms) wb = (Ok ms, wb') ∧ w_in wb' = rest ∧ w_fs wb' = w_fs wb.
Proof.
  intros Hf Hwf Hnfa.
  destruct (wp_run (send_all ms) (λ _ w', sent wa fs w') (λ _ _, False) wa)
    as [([] & wa' & Hrun & Hs)|(? & ? & _ & [])].
  { eapply wp_send_all; [done|intros ? ? ? _ ?; done|done]. }
  exists wa'. split; [done|]. split; [by apply sent_out|]. intros wb rest Hnfb Hin.
  destruct (wp_run (receive_many (length ms)) (λ l w', l = ms ∧ recv_step wb rest w') (λ _ _, False) wb)
    as [(l & wb' & Hrun' & -> & Hst)|(? & ? & _ & [])].
  { eapply wp_receive_many; [done|done|exact Hin|intros ? ? ?; done|done]. }
  exists wb'. split; [done|]. split; [by eapply recv_step_in|]. by destruct Hst as (_ & -> & _).
Qed.


(** [receive_chunk_to_file] agrees with [receive]: on the frame of any message
    it succeeds, leaves the same rest of the stream and returns the message, with
    a chunk's data in the file (its length and BLAKE3 hash in the result) and no
    other file changed. *)
Theorem receive_chunk_to_file_equiv `{Blake3Laws, WireBincodeLaws} m f rest out w :
  frame m = Ok f → message_wf m → no_faults w → w_in w = f ++ rest → can_receive (w_fs w) out →
  (∃ w', receive w = (Ok m, w') ∧ w_in w' = rest)
  ∧ ∃ w', receive_chunk_to_file out w = (Ok (file_result m), w') ∧ w_in w' = rest
      ∧ (∀ q, q ≠ out → file_at (w_fs w') q = file_at (w_fs w) q)
      ∧ ∀ i d, m = Chunk i d → file_at (w_fs w') out = Some d.
Proof.
  intros Hf Hwf Hnf Hin Hcr. split.
  - destruct (wp_run receive (λ m' w', m' = m ∧ recv_step w rest w') (λ _ _, False) w)
      as [(? & w' & Hrun & -> & Hst)|(? & ? & _ & [])].
    { eapply wp_receive_frame; [done|done|exact Hin|intros ? ? ?; done|done]. }
    exists w'. split; [done|]. by eapply recv_step_in.
  - destruct (wp_run (receive_chunk_to_file out)
      (λ r w', r = file_result m ∧ w_in w' = rest ∧ rx_to (Some out) w w'
         ∧ ∀ i d, m = Chunk i d → file_at (w_fs w') out = Some d) (λ _ _, False) w)
      as [(? & w' & Hrun & -> & Hrest & Hrx & Hfile)|(? & ? & _ & [])].
    { eapply wp_receive_chunk_to_file_frame; [done|done|exact Hin|intros ? ? Hwhy; by apply Hwhy|done]. }
    exists w'. split_and!; [done|done| |done]. intros q Hq. eapply rx_to_file; [done|congruence].
Qed.

(** [send_chunk_file] streams exactly the frame [send] would write for the
    chunk in memory, however the reads are split, and reports the same frame-size
    errors; a file of another size than expected is refused before anything of
    it is sent. *)
Theorem send_chunk_file_equiv `{Bincode WireMessage} index p d expected w :
  no_faults w → file_at (w_fs w) p = Some d →
  if decide (zlen d = expected) then
    (∃ f w1 w2, frame (Chunk index d) = Ok f
       ∧ send_chunk_file index p expected w = (Ok tt, w1) ∧ send (Chunk index d) w = (Ok tt, w2)
       ∧ w_out w1 = w_out w ++ f ∧ w_out w2 = w_out w ++ f)
    ∨ (∃ e w1 w2, frame (Chunk index d) = Err e
       ∧ send_chunk_file index p expected w = (Err e, w1) ∧ send (Chunk index d) w = (Err e, w2))
  else ∃ w1, send_chunk_file index p expected w = (Err (RawChunkSizeMismatch expected (zlen d)), w1).
Proof.
  intros Hnf Hd.
  destruct (wp_run (send_chunk_file index p expected)
    (λ _ w', ∃ f, zlen d = expected ∧ frame (Chunk index d) = Ok f ∧ sent w f w')
    (λ e w', e = RawChunkSizeMismatch expected (zlen d) ∧ zlen d ≠ expected
             ∨ zlen d = expected ∧ frame (Chunk index d) = Err e) w)
    as [([] & w1 & Hrun & f & Hsz & Hf & Hs)|(e & w1 & Hrun & He)].
  { apply wp_send_chunk_file.
    - intros e out w' _ _ Hwhy. destruct (Hwhy Hnf) as [?|(d' & Hd' & ?)]; [congruence|].
      by assert (d' = d) as -> by congruence.
    - intros d' f w' Hd' Hsz Hf Hs. assert (d' = d) as -> by congruence. by exists f. }
  - rewrite decide_True by done. left. destruct (wp_run (send (Chunk index d)) (λ _ w', sent w f w') (λ _ _, False) w)
      as [([] & w2 & Hrun2 & Hs2)|(? & ? & _ & [])].
    { apply wp_send; [intros e out w' _ Hwhy; specialize (Hwhy Hnf); congruence|].
      intros f' w' Hf' Hs'. congruence. }
    exists f, w1, w2. split_and!; [done..|by apply sent_out|by apply sent_out].
  - destruct He as [[-> Hsz]|[Hsz He]]; [rewrite decide_False by done; by eexists|].
    rewrite decide_True by done. right.
    destruct (wp_run (send (Chunk index d)) (λ _ _, False) (λ e' _, e' = e) w)
      as [(? & ? & _ & [])|(? & w2 & Hrun2 & ->)]; [|by exists e, w1, w2].
    apply wp_send; [intros e' out w' _ Hwhy; specialize (Hwhy Hnf); congruence|]. intros; congruence.
Qed.

(** * A concrete encoding of messages *)
Import Toy.
Module WireSample.
Abbreviation wire_parts :=
  (((string + (Z * list string)) + (PublicKeyBytes + AuthTag) + (unit + ShareId))
   + ((Manifest + (Nonce * bytes)) + (list Z + Z) + ((Z * bytes) + string)))%type.
Definition parts (m : WireMessage) : wire_parts :=
  match m with
  | Hello s => inl (inl (inl (inl s)))
  | Capabilities v l => inl (inl (inl (inr (v, l))))
  | KeyExchange k => inl (inl (inr (inl k)))
  | AuthProof t => inl (inl (inr (inr t)))
  | RequestManifest => inl (inr (inl tt))
  | RequestShare i => inl (inr (inr i))
  | ManifestMsg x => inr (inl (inl (inl x)))
  | WrappedFileKeyMsg n d => inr (inl (inl (inr (n, d))))
  | Have l => inr (inl (inr (inl l)))
  | RequestChunk i => inr (inl (inr (inr i)))
  | Chunk i d => inr (inr (inl (i, d)))
  | ErrorMsg s => inr (inr (inr s))
  end.
Definition of_parts (p : wire_parts) : WireMessage :=
  match p with
  | inl (inl (inl (inl s))) => Hello s
  | inl (inl (inl (inr (v, l)))) => Capabilities v l
  | inl (inl (inr (inl k))) => KeyExchange k
  | inl (inl (inr (inr t))) => AuthProof t
  | inl (inr (inl _)) => RequestManifest
  | inl (inr (inr i)) => RequestShare i
  | inr (inl (inl (inl x))) => ManifestMsg x
  | inr (inl (inl (inr (n, d)))) => WrappedFileKeyMsg n d
  | inr (inl (inr (inl l))) => Have l
  | inr (inl (inr (inr i))) => RequestChunk i
  | inr (inr (inl (i, d))) => Chunk i d
  | inr (inr (inr s)) => ErrorMsg s
  end.
#[export] Instance wire_countable : Countable WireMessage.
Proof. refine (inj_countable' parts of_parts _). by intros []. Defined.

(** A message that consists of one array is its 32 bytes after the variant. *)
Definition decode_array {A} (f : array 32 → A) (b : bytes) : option (A * Z) :=
  match to_array 32 (take 32 b) with Some a => Some (f a, 33) | None => None end.

Definition decode_generic (b : bytes) : option (WireMessage * Z) :=
  match Toy.pos_decode b with
  | Some (p, n) =>
      match decode p with
      | Some m => if decide (message_typed m) then Some (m, 1 + n) else None
      | None => None
      end
  | None => None
  end.

#[export] Instance wire_bincode : Bincode WireMessage := {|
  bincode_encode m :=
    match m with
    | KeyExchange k => Some (Byte.x02 :: array_data (public_key_bytes k))
    | AuthProof t => Some (Byte.x03 :: array_data t)
    | _ => if decide (message_typed m)
           then Some (byte_of_Z (variant_index m) :: Toy.pos_code (encode m)) else None
    end;
  bincode_decode b :=
    match b with
    | [] => None
    | Byte.x02 :: b => decode_array (λ a, KeyExchange (mkPublicKeyBytes a)) b
    | Byte.x03 :: b => decode_array AuthProof b
    | _ :: b => decode_generic b
    end;
|}.

Lemma decode_array_data {A} (f : array 32 → A) (a : array 32) b rest :
  decode_array f (array_data a ++ rest) = Some (f a, zlen (b :: array_data a)).
Proof.
  unfold decode_array. rewrite take_app_le by (by rewrite length_array).
  rewrite take_ge by (by rewrite length_array). rewrite to_array_data. rewrite zlen_cons. unfold zlen.
  by rewrite length_array.
Qed.

Lemma decode_array_bound {A} (f : array 32 → A) b a n :
  decode_array f b = Some (a, n) → 0 ≤ n ≤ 1 + zlen b.
Proof.
  unfold decode_array. destruct (to_array 32 (take 32 b)) as [x|] eqn:Hx; [|done]. intros [= _ <-].
  apply to_array_Some in Hx. assert (length (take 32 b) = 32%nat) as Hl by (by rewrite Hx, length_array).
  rewrite length_take in Hl. unfold zlen. lia.
Qed.

Lemma generic_decode_encode (m : WireMessage) b rest :
  message_typed m →
  decode_generic (Toy.pos_code (encode m) ++ rest) = Some (m, zlen (b :: Toy.pos_code (encode m))).
Proof.
  intros Ht. unfold decode_generic. rewrite Toy.pos_decode_code, decode_encode, decide_True by done.
  by rewrite zlen_cons.
Qed.

Lemma decode_generic_spec b (m : WireMessage) n :
  decode_generic b = Some (m, n) → 0 ≤ n ≤ 1 + zlen b ∧ message_typed m.
Proof.
  unfold decode_generic. destruct (Toy.pos_decode b) as [[p k]|] eqn:Hp; [|done].
  destruct (decode p) as [m'|]; [|done]. case_decide; [|done]. intros [= -> <-].
  apply Toy.pos_decode_bound in Hp. split; [lia|done].
Qed.

#[export] Instance wire_laws : WireBincodeLaws.
Proof.
  split; [split|].
  - intros m e rest Henc. destruct m as [| |[]|?| | | | | | | |]; cbn [bincode_encode wire_bincode] in Henc;
      [| |apply (inj Some) in Henc; subst e; exact (decode_array_data _ _ _ rest)
         |apply (inj Some) in Henc; subst e; exact (decode_array_data _ _ _ rest)|..].
    all: case_decide; [|done]; apply (inj Some) in Henc; subst e; cbn [variant_index app];
         match goal with |- context [byte_of_Z ?z] =>
           let b := eval vm_compute in (byte_of_Z z) in change (byte_of_Z z) with b end;
         cbn [bincode_decode wire_bincode]; by apply generic_decode_encode.
  - intros m [|b l] n; [done|]. rewrite zlen_cons. cbn [bincode_decode wire_bincode].
    destruct b; first [intros Hd; exact (proj1 (decode_generic_spec _ _ _ Hd)) | apply decode_array_bound].
  - intros [] e; cbn [bincode_encode wire_bincode]; first [by intros [= <-] | case_decide; [by intros [= <-]|done]].
Qed.

#[export] Instance wire_typed_sample : WireTyped.
Proof.
  split. intros [|b l] m n; [done|]. cbn [bincode_decode wire_bincode].
  assert (∀ (A : array 32 → WireMessage), (∀ a, message_typed (A a)) →
            decode_array A l = Some (m, n) → message_typed m) as Harr.
  { intros A HA. unfold decode_array. destruct (to_array _ _); [|done]. by intros [= <- <-]. }
  destruct b; first [intros Hd; exact (proj2 (decode_generic_spec _ _ _ Hd)) | by apply Harr].
Qed.

Definition messages : list WireMessage :=
  [Hello "peer"; RequestChunk 3; Chunk 3 (str_bytes "data"); Have [1; 2]].
Definition wire : bytes := match frames messages with Ok f => f | _ => [] end.
Definition chunk_frame : bytes := match frame (Chunk 3 (str_bytes "data")) with Ok f => f | _ => [] end.
End WireSample.
Import WireSample.

Lemma codec_stream_roundtrip_witness :
  ∃ wa', send_all WireSample.messages (CryptoSample.world ∅ []) = (Ok tt, wa').
Proof.
  destruct (codec_stream_roundtrip WireSample.messages WireSample.wire (CryptoSample.world ∅ []))
    as (wa' & Hrun & _).
  - vm_compute. reflexivity.
  - repeat constructor; vm_compute; congruence.
  - by intros ?.
  - exists wa'. exact Hrun.
Defined.

Lemma receive_chunk_to_file_equiv_witness :
  ∃ w', receive_chunk_to_file ["out"%string] (CryptoSample.world ∅ (WireSample.chunk_frame ++ [Byte.x01]))
        = (Ok (file_result (Chunk 3 (str_bytes "data"))), w').
Proof.
  destruct (receive_chunk_to_file_equiv (Chunk 3 (str_bytes "data")) WireSample.chunk_frame [Byte.x01]
    ["out"%string] (CryptoSample.world ∅ (WireSample.chunk_frame ++ [Byte.x01]))) as (_ & w' & Hrun & _).
  - vm_compute. reflexivity.
  - vm_compute. split; congruence.
  - by intros ?.
  - reflexivity.
  - split; [discriminate|]. split; by_decide.
  - exists w'. exact Hrun.
Defined.

Lemma send_chunk_file_equiv_witness :
  let w := CryptoSample.world {[ ["c"%string] := File (str_bytes "abc") ]} [] in
  ∃ w1, send_chunk_file 1 ["c"%string] 7 w = (Err (RawChunkSizeMismatch 7 3), w1).
Proof.
  apply (send_chunk_file_equiv 1 ["c"%string] (str_bytes "abc") 7); [by intros ?|reflexivity].
Defined.
