(* ===== verification/Handshake.v ===== *)
(** [network/error.rs], [network/tcp.rs], [network/handshake.rs],
    [network/key_exchange.rs]: what two peers do before any file data flows.

    Both sides say hello, compare protocol versions and capabilities, run an
    X25519 exchange and, with a pre-shared key, prove to each other that they
    know it: the client first, and the server answers only a correct proof. *)
From stdpp Require Import base tactics list countable strings gmap.
From Stdlib Require Import ZArith Lia.
From S2P Require Import Prelude Bytes World Files Extern Crypto Descriptor Codec.
Local Open Scope Z_scope.
Local Open Scope etle_scope.

(** * Errors *)
Inductive NetworkError :=
  | NE_Io (k : io_kind)
  | NE_Protocol (e : ProtocolError)
  | NE_Crypto (e : CryptoError)
  | NE_File (e : FileError)
  | UnexpectedMessage (expected : string) (actual : WireMessage)
  | PeerAuthenticationFailed
  | MissingEncryptedChunk (index : Z)
  | UnexpectedChunkIndex (expected actual : Z)
  | UnsupportedMultiFileDescriptor (n : Z)
  | NoPeersProvided
  | AllPeersFailed (attempts : Z) (last_error : string)
  | UnsupportedProtocolVersion (peer supported : Z)
  | MissingPeerCapability (capability : string)
  | PeerError (message : string).

Abbreviation net := (M World NetworkError).

(** [TcpStream::connect], [TcpListener::accept] *)
Definition connect_peer (addr : socket_addr) : net unit := map_err NE_Io (connect addr).
Definition accept_peer : net socket_addr := map_err NE_Io accept.

(** * Hello and capabilities *)
Definition required_capabilities : list string :=
  [CAPABILITY_RAW_CHUNK_FRAME; CAPABILITY_WINDOWED_REQUESTS].
Definition local_capabilities : list string := required_capabilities.

(** The checks on a received [Capabilities] message; the loop stops at the first
    capability that is missing. *)
Fixpoint check_required (required features : list string) : result NetworkError unit :=
  match required with
  | [] => Ok tt
  | c :: required =>
      if existsb (λ feature, bool_decide (feature = c)) features then check_required required features
      else Err (MissingPeerCapability c)
  end.

Definition validate_capabilities (protocol_version : Z) (features : list string)
    : result NetworkError unit :=
  if decide (protocol_version ≠ ETLE_WIRE_PROTOCOL_VERSION)
  then Err (UnsupportedProtocolVersion protocol_version ETLE_WIRE_PROTOCOL_VERSION)
  else check_required required_capabilities features.

Section handshake.
Context `{Bincode WireMessage}.

Definition receive_hello : net string :=
  let! m := map_err NE_Protocol receive in
  match m with
  | Hello peer_id => ret peer_id
  | actual => throw (UnexpectedMessage "Hello" actual)
  end.

Definition client_hello_handshake (peer_id : string) : net string :=
  do! map_err NE_Protocol (send (Hello peer_id)) in
  receive_hello.

Definition server_hello_handshake (peer_id : string) : net string :=
  let! remote_peer_id := receive_hello in
  do! map_err NE_Protocol (send (Hello peer_id)) in
  ret remote_peer_id.

Definition send_local_capabilities : net unit :=
  map_err NE_Protocol (send (Capabilities ETLE_WIRE_PROTOCOL_VERSION local_capabilities)).

Definition receive_and_validate_peer_capabilities : net unit :=
  let! m := map_err NE_Protocol receive in
  match m with
  | Capabilities protocol_version features =>
      lift_result (validate_capabilities protocol_version features)
  | actual => throw (UnexpectedMessage "Capabilities" actual)
  end.

Definition exchange_capabilities_as_client : net unit :=
  do! send_local_capabilities in
  receive_and_validate_peer_capabilities.

Definition exchange_capabilities_as_server : net unit :=
  do! receive_and_validate_peer_capabilities in
  send_local_capabilities.

Definition client_protocol_handshake (peer_id : string) : net string :=
  let! remote_peer_id := client_hello_handshake peer_id in
  do! exchange_capabilities_as_client in
  ret remote_peer_id.

Definition server_protocol_handshake (peer_id : string) : net string :=
  let! remote_peer_id := server_hello_handshake peer_id in
  do! exchange_capabilities_as_server in
  ret remote_peer_id.
End handshake.

(** * Key exchange *)
Section exchange.
Context `{Blake3, X25519} `{Bincode WireMessage}.

Definition receive_key : net PublicKeyBytes :=
  let! m := map_err NE_Protocol receive in
  match m with
  | KeyExchange public_key => ret public_key
  | actual => throw (UnexpectedMessage "KeyExchange" actual)
  end.

Definition client_shared_secret_exchange : net SharedSecretBytes :=
  let! keypair := keypair_generate in
  do! map_err NE_Protocol (send (KeyExchange (keypair_public keypair))) in
  let! server_public_key := receive_key in
  lift_result (result_map_err NE_Crypto (diffie_hellman keypair server_public_key)).

Definition server_shared_secret_exchange : net SharedSecretBytes :=
  let! client_public_key := receive_key in
  let! keypair := keypair_generate in
  do! map_err NE_Protocol (send (KeyExchange (keypair_public keypair))) in
  lift_result (result_map_err NE_Crypto (diffie_hellman keypair client_public_key)).

Definition client_unauthenticated_session_key_exchange
    : net (SymmetricKey * PublicKeyBytes * PublicKeyBytes) :=
  let! keypair := keypair_generate in
  let client_public_key := keypair_public keypair in
  do! map_err NE_Protocol (send (KeyExchange client_public_key)) in
  let! server_public_key := receive_key in
  let! shared_secret := lift_result (result_map_err NE_Crypto (diffie_hellman keypair server_public_key)) in
  let session_key := derive_session_key_with_transcript shared_secret client_public_key server_public_key in
  ret (session_key, client_public_key, server_public_key).

Definition server_unauthenticated_session_key_exchange
    : net (SymmetricKey * PublicKeyBytes * PublicKeyBytes) :=
  let! client_public_key := receive_key in
  let! keypair := keypair_generate in
  let server_public_key := keypair_public keypair in
  do! map_err NE_Protocol (send (KeyExchange server_public_key)) in
  let! shared_secret := lift_result (result_map_err NE_Crypto (diffie_hellman keypair client_public_key)) in
  let session_key := derive_session_key_with_transcript shared_secret client_public_key server_public_key in
  ret (session_key, client_public_key, server_public_key).

Definition client_session_key_exchange : net SymmetricKey :=
  let! r := client_unauthenticated_session_key_exchange in
  ret r.1.1.

Definition server_session_key_exchange : net SymmetricKey :=
  let! r := server_unauthenticated_session_key_exchange in
  ret r.1.1.

Definition receive_auth_proof : net AuthTag :=
  let! m := map_err NE_Protocol receive in
  match m with
  | AuthProof tag => ret tag
  | actual => throw (UnexpectedMessage "AuthProof" actual)
  end.

Definition verify_auth_tag (expected actual : AuthTag) : result NetworkError unit :=
  if auth_tags_equal expected actual then Ok tt else Err PeerAuthenticationFailed.

Definition client_authenticated_session_key_exchange (psk : AuthPsk) : net SymmetricKey :=
  let! r := client_unauthenticated_session_key_exchange in
  let '(session_key, client_public_key, server_public_key) := r in
  let client_tag := derive_auth_tag psk session_key client_public_key server_public_key Client in
  do! map_err NE_Protocol (send (AuthProof client_tag)) in
  let! server_tag := receive_auth_proof in
  let expected := derive_auth_tag psk session_key client_public_key server_public_key Server in
  do! lift_result (verify_auth_tag expected server_tag) in
  ret session_key.

Definition server_authenticated_session_key_exchange (psk : AuthPsk) : net SymmetricKey :=
  let! r := server_unauthenticated_session_key_exchange in
  let '(session_key, client_public_key, server_public_key) := r in
  let! client_tag := receive_auth_proof in
  let expected_client_tag := derive_auth_tag psk session_key client_public_key server_public_key Client in
  do! lift_result (verify_auth_tag expected_client_tag client_tag) in
  let server_tag := derive_auth_tag psk session_key client_public_key server_public_key Server in
  do! map_err NE_Protocol (send (AuthProof server_tag)) in
  ret session_key.

Definition client_key_exchange (file_id : FileId) : net SymmetricKey :=
  let! shared_secret := client_shared_secret_exchange in
  ret (derive_file_key shared_secret file_id).

Definition server_key_exchange (file_id : FileId) : net SymmetricKey :=
  let! shared_secret := server_shared_secret_exchange in
  ret (derive_file_key shared_secret file_id).
End exchange.

(** * Two ends of one connection *)

(** [extends w w']: the outbound stream only grew. [heard w w' v]: what was
    written between [w] and [w'] is what [v] reads first. *)
Definition extends (w w' : World) : Prop := ∃ out, w_out w' = w_out w ++ out.
Definition heard (w w' v : World) : Prop :=
  ∃ out rest, w_out w' = w_out w ++ out ∧ w_in v = out ++ rest.

Lemma heard_exact w w' v out : w_out w' = w_out w ++ out → w_in v = out → heard w w' v.
Proof. intros Ho Hi. exists out, []. by rewrite app_nil_r. Qed.

(** Computations that never take back what was written. *)
Definition grows {A} (m : net A) : Prop := ∀ w, extends w (m w).2.

Global Instance extends_preorder : PreOrder extends.
Proof.
  split; [intros w; exists []; by rewrite app_nil_r|].
  intros w1 w2 w3 [o1 H1] [o2 H2]. exists (o1 ++ o2). by rewrite H2, H1, app_assoc.
Qed.

Lemma sent_extends w o w' : sent w o w' → extends w w'.
Proof. intros Hs. exists o. by apply sent_out. Qed.

Lemma grows_wp {A} (m : net A) : (∀ w, wp m (λ _ w', extends w w') (λ _ w', extends w w') w) → grows m.
Proof. intros Hm w. specialize (Hm w). unfold wp in Hm. destruct (m w) as [[] ?]; done. Qed.

Lemma grows_bind {A B} (m : net A) (k : A → net B) : grows m → (∀ a, grows (k a)) → grows (bind m k).
Proof.
  intros Hm Hk w. unfold bind. specialize (Hm w). destruct (m w) as [[a| | |] w']; try done.
  etrans; [exact Hm | apply Hk].
Qed.

Lemma grows_ret {A} (a : A) : grows (ret a).
Proof. intros w. simpl. done. Qed.

Lemma grows_throw {A} e : grows (throw (A := A) e).
Proof. intros w. simpl. done. Qed.

Lemma grows_lift {A} (r : result NetworkError A) : grows (lift_result r).
Proof. intros w. simpl. done. Qed.

Lemma grows_generate `{Blake3, X25519} : grows keypair_generate.
Proof. intros w. simpl. by exists []; rewrite app_nil_r. Qed.

Section grows.
Context `{Bincode WireMessage}.

Lemma grows_send m : grows (map_err NE_Protocol (send m)).
Proof.
  apply grows_wp. intros w. wp_simpl. apply wp_send; intros; by eapply sent_extends.
Qed.

Lemma grows_receive : grows (map_err NE_Protocol receive).
Proof.
  apply grows_wp. intros w. wp_simpl. apply wp_receive_any.
  - intros e w' (_ & Ho & _). exists []. by rewrite app_nil_r.
  - intros m w' (_ & Ho & _) _. exists []. by rewrite app_nil_r.
Qed.
End grows.
Create HintDb grows discriminated.
#[export] Hint Resolve grows_bind grows_ret grows_throw grows_lift grows_generate grows_send grows_receive : grows.

Ltac grow := repeat (cbv beta iota zeta; match goal with
  | |- grows (bind _ _) => apply grows_bind; [|intros ?]
  | |- grows (match ?x with _ => _ end) => destruct x
  | |- grows _ => first [solve [auto with grows] | progress unfold receive_key, receive_hello, receive_auth_proof]
  end).

(** What one side writes next is what the other side reads next. *)
Lemma heard_next w f w1 w' v :
  sent w f w1 → extends w1 w' → heard w w' v →
  ∃ rest, w_in v = f ++ rest ∧ ∀ v1, w_in v1 = rest → heard w1 w' v1.
Proof.
  intros Hs [o Ho] (out & rest & Hout & Hin). rewrite Ho, (sent_out _ _ _ Hs), <- app_assoc in Hout.
  apply app_inv_head in Hout. subst out. rewrite <- app_assoc in Hin. exists (o ++ rest). split; [done|].
  intros v1 Hv1. by exists o, rest.
Qed.

(** Two runs, from [w] to [w'] and from [v] to [v'], at the ends of one
    connection that delivers everything. *)
Definition linked (w w' v v' : World) : Prop :=
  heard w w' v ∧ heard v v' w ∧ no_faults w ∧ no_faults v.

Lemma linked_sym w w' v v' : linked w w' v v' → linked v v' w w'.
Proof. unfold linked. tauto. Qed.

Lemma linked_stepped w w1 w' v v' : stepped w w1 → linked w w' v v' → linked w1 w' v v'.
Proof.
  intros (E&F&I&O&P) ((o & r & H1 & H2) & (o' & r' & H3 & H4) & Hw & Hv).
  split_and!; [exists o, r; by rewrite O|exists o', r'; by rewrite I| |done].
  intros n. by rewrite E.
Qed.

Section two_ends.
Context `{WireBincodeLaws}.

(** One side sends [m] and goes on with [k]; the other receives it and goes on
    with [j m]. *)
Lemma send_receive {A B} m f (k : net A) (j : WireMessage → net B) w w' r v v' r' :
  linked w w' v v' → frame m = Ok f → message_wf m → grows k →
  bind (map_err NE_Protocol (send m)) (λ _, k) w = (r, w') →
  bind (map_err NE_Protocol receive) j v = (r', v') →
  ∃ w1 v1, k w1 = (r, w') ∧ j m v1 = (r', v') ∧ linked w1 w' v1 v'.
Proof using All.
  intros (Hh & Hback & Hw & Hv) Hf Hwf Hk Hrun Hrun'.
  destruct (send_run m f w Hw Hf) as (w1 & Hsend & Hs).
  rewrite (bind_Ok _ _ _ tt w1) in Hrun by (by apply map_err_Ok).
  assert (extends w1 w') as Hext by (specialize (Hk w1); by rewrite Hrun in Hk).
  destruct (heard_next _ _ _ _ _ Hs Hext Hh) as (rest & Hin & Hnext).
  destruct (receive_run m f rest v Hv Hf Hwf Hin) as (v1 & Hrecv & Hst).
  rewrite (bind_Ok _ _ _ m v1) in Hrun' by (by apply map_err_Ok).
  exists w1, v1. split_and!; [done|done|]. split_and!.
  - apply Hnext. by eapply recv_step_in.
  - destruct Hback as (o & ro & Ho & Hi). exists o, ro. destruct Hst as (_&_&_&->&_), Hs as (_&_&->&_). done.
  - by apply (sent_no_faults _ _ _ Hs).
  - by apply (recv_step_no_faults _ _ _ Hst).
Qed.
End two_ends.

(** * Key agreement *)

(** The fixed-size messages of the exchange fit a frame. *)
Class ExchangeFits `{Bincode WireMessage} : Prop := {
  key_exchange_fits k : ∃ e, bincode_encode (KeyExchange k) = Some e ∧ zlen e ≤ MAX_FRAME_SIZE;
  auth_proof_fits t : ∃ e, bincode_encode (AuthProof t) = Some e ∧ zlen e ≤ MAX_FRAME_SIZE;
}.

Section agreement.
Context `{Blake3, X25519Laws} `{WireBincodeLaws} `{!ExchangeFits}.

Lemma encoded_frame_fits m e :
  bincode_encode m = Some e → zlen e ≤ MAX_FRAME_SIZE →
  encoded_frame m = Ok (u32_to_be_bytes (zlen e) ++ e).
Proof using All.
  intros He Hl. unfold encoded_frame. rewrite He. cbn [ok_or result_bind].
  pose proof (wire_first_byte m e He) as Hh. pose proof (zlen_nonneg e).
  rewrite (proj2 (validate_frame_len_Ok (zlen e))); [done|]. split; [|done].
  intros ->%zlen_0. done.
Qed.

Lemma key_exchange_frame k : ∃ f, frame (KeyExchange k) = Ok f.
Proof using All. destruct (key_exchange_fits k) as (e & He & Hl). eexists. by apply encoded_frame_fits. Qed.

Lemma auth_proof_frame t : ∃ f, frame (AuthProof t) = Ok f.
Proof using All. destruct (auth_proof_fits t) as (e & He & Hl). eexists. by apply encoded_frame_fits. Qed.

(** A run that starts by generating a key pair. *)
Lemma generate_run {A} (k : EphemeralKeypair → net A) w r w' :
  bind keypair_generate k w = (r, w') →
  ∃ kp w1, k kp w1 = (r, w') ∧ stepped w w1
    ∧ keypair_public kp = mkPublicKeyBytes (x_public (keypair_secret kp)).
Proof using Type. intros Hrun. cbn in Hrun. eexists _, (tick w). by split_and!. Qed.

(** The two sides of an X25519 exchange, followed by anything that uses the
    shared secret and the two public keys. *)
Definition client_exchange_then {A} (k : SharedSecretBytes → PublicKeyBytes → PublicKeyBytes → net A) : net A :=
  let! keypair := keypair_generate in
  do! map_err NE_Protocol (send (KeyExchange (keypair_public keypair))) in
  let! server_public_key := receive_key in
  let! shared_secret := lift_result (result_map_err NE_Crypto (diffie_hellman keypair server_public_key)) in
  k shared_secret (keypair_public keypair) server_public_key.
Definition server_exchange_then {A} (k : SharedSecretBytes → PublicKeyBytes → PublicKeyBytes → net A) : net A :=
  let! client_public_key := receive_key in
  let! keypair := keypair_generate in
  do! map_err NE_Protocol (send (KeyExchange (keypair_public keypair))) in
  let! shared_secret := lift_result (result_map_err NE_Crypto (diffie_hellman keypair client_public_key)) in
  k shared_secret client_public_key (keypair_public keypair).

(** Both sides continue with the same secret and the same public keys, or both
    report that the exchange is degenerate. *)
Lemma exchange_agree {A B} (kc : SharedSecretBytes → PublicKeyBytes → PublicKeyBytes → net A)
    (ks : SharedSecretBytes → PublicKeyBytes → PublicKeyBytes → net B) wc wc' ws ws' rc rs :
  (∀ x p q, grows (kc x p q)) → (∀ x p q, grows (ks x p q)) → linked wc wc' ws ws' →
  client_exchange_then kc wc = (rc, wc') → server_exchange_then ks ws = (rs, ws') →
  (rc = Err (NE_Crypto InvalidPublicKey) ∧ rs = Err (NE_Crypto InvalidPublicKey))
  ∨ ∃ x p q wc1 ws1, kc x p q wc1 = (rc, wc') ∧ ks x p q ws1 = (rs, ws') ∧ linked wc1 wc' ws1 ws'.
Proof using All.
  intros Hkc Hks Hl Hc Hs. unfold client_exchange_then, server_exchange_then, receive_key in *.
  apply generate_run in Hc as (kpc & wc1 & Hc & Hstc & Hpc).
  apply (linked_stepped _ _ _ _ _ Hstc) in Hl. rewrite !bind_assoc in Hs.
  destruct (key_exchange_frame (keypair_public kpc)) as [fc Hfc].
  eapply (send_receive _ fc) in Hs as (wc2 & ws1 & Hc2 & Hs & Hl2); [|exact Hl|done|done| |exact Hc]; [|by grow].
  cbn [bind ret] in Hs. apply generate_run in Hs as (kps & ws2 & Hs & Hsts & Hps).
  apply linked_sym, (linked_stepped _ _ _ _ _ Hsts) in Hl2. rewrite !bind_assoc in Hc2.
  destruct (key_exchange_frame (keypair_public kps)) as [fs Hfs].
  eapply (send_receive _ fs) in Hc2 as (ws3 & wc3 & Hs3 & Hc3 & Hl3); [|exact Hl2|done|done| |exact Hs]; [|by grow].
  cbn [bind ret] in Hc3. unfold bind, lift_result in Hs3, Hc3. cbn [ret] in Hc3.
  rewrite (diffie_hellman_comm kps kpc) in Hs3 by done.
  destruct (diffie_hellman kpc (keypair_public kps)) as [x|e| |] eqn:Hdh; cbn in Hs3, Hc3.
  - right. exists x, (keypair_public kpc), (keypair_public kps), wc3, ws3.
    split_and!; [done|done|by apply linked_sym].
  - left. unfold diffie_hellman in Hdh. case_match; naive_solver.
  - unfold diffie_hellman in Hdh. by case_match.
  - unfold diffie_hellman in Hdh. by case_match.
Qed.

(** The exchanges of the source in this form. *)
Ltac run_eq := unfold bind, ret, lift_result, throw;
  repeat (match goal with |- context [match ?x with _ => _ end] =>
            lazymatch x with context [match ?y with _ => _ end] => fail | _ => destruct x end
          end; cbn); reflexivity.

Lemma client_unauthenticated_then {A} (k : SymmetricKey * PublicKeyBytes * PublicKeyBytes → net A) w :
  bind client_unauthenticated_session_key_exchange k w
  = client_exchange_then (λ x p q, k (derive_session_key_with_transcript x p q, p, q)) w.
Proof using Type.
  unfold client_unauthenticated_session_key_exchange, client_exchange_then.
  rewrite bind_assoc. unfold keypair_generate, fill_bytes. run_eq.
Qed.

Lemma server_unauthenticated_then {A} (k : SymmetricKey * PublicKeyBytes * PublicKeyBytes → net A) w :
  bind server_unauthenticated_session_key_exchange k w
  = server_exchange_then (λ x p q, k (derive_session_key_with_transcript x p q, p, q)) w.
Proof using Type.
  unfold server_unauthenticated_session_key_exchange, server_exchange_then, keypair_generate, fill_bytes.
  run_eq.
Qed.

(** The secret-only exchanges behind [client_key_exchange] and its counterpart. *)
Lemma client_shared_secret_then {A} (k : SharedSecretBytes → net A) w :
  bind client_shared_secret_exchange k w = client_exchange_then (λ x _ _, k x) w.
Proof using Type.
  unfold client_shared_secret_exchange, client_exchange_then, keypair_generate, fill_bytes. run_eq.
Qed.

Lemma server_shared_secret_then {A} (k : SharedSecretBytes → net A) w :
  bind server_shared_secret_exchange k w = server_exchange_then (λ x _ _, k x) w.
Proof using Type.
  unfold server_shared_secret_exchange, server_exchange_then, keypair_generate, fill_bytes. run_eq.
Qed.

(** The exchange of proofs that follows it under one pre-shared key. *)
Lemma auth_agree psk k p q wc wc' ws ws' rc rs :
  linked wc wc' ws ws' →
  (do! map_err NE_Protocol (send (AuthProof (derive_auth_tag psk k p q Client))) in
   let! server_tag := receive_auth_proof in
   do! lift_result (verify_auth_tag (derive_auth_tag psk k p q Server) server_tag) in
   ret k) wc = (rc, wc') →
  (let! client_tag := receive_auth_proof in
   do! lift_result (verify_auth_tag (derive_auth_tag psk k p q Client) client_tag) in
   do! map_err NE_Protocol (send (AuthProof (derive_auth_tag psk k p q Server))) in
   ret k) ws = (rs, ws') →
  rc = Ok k ∧ rs = Ok k.
Proof using All.
  intros Hl Hc Hs. unfold receive_auth_proof in *. rewrite bind_assoc in Hs.
  assert (∀ t, verify_auth_tag t t = Ok tt) as Hverify
    by (intros t; unfold verify_auth_tag; by rewrite (proj2 (auth_tags_equal_spec t t))).
  destruct (auth_proof_frame (derive_auth_tag psk k p q Client)) as [fc Hfc].
  eapply (send_receive _ fc) in Hs as (wc1 & ws1 & Hc1 & Hs & Hl1); [|exact Hl|done|done| |exact Hc]; [|by grow].
  cbn [bind ret] in Hs. rewrite Hverify in Hs. cbn [lift_result] in Hs.
  destruct (auth_proof_frame (derive_auth_tag psk k p q Server)) as [fs Hfs].
  rewrite bind_assoc in Hc1. apply linked_sym in Hl1.
  eapply (send_receive _ fs) in Hc1 as (ws2 & wc2 & Hs2 & Hc2 & _); [|exact Hl1|done|done| |exact Hs]; [|by grow].
  cbn [bind ret] in Hc2. rewrite Hverify in Hc2. injection Hs2 as <- _. injection Hc2 as <- _. done.
Qed.
End agreement.

(** * Against an arbitrary peer *)
Section any_peer.
Context `{Blake3, X25519} `{Bincode WireMessage}.

Lemma wp_receive_key (Q : PublicKeyBytes → World → Prop) (R : NetworkError → World → Prop) w :
  (∀ e w', rx w w' → R e w') →
  (∀ k f w', carries f (KeyExchange k) → w_in w = f ++ w_in w' → recv_step w (w_in w') w' → Q k w') →
  wp receive_key Q R w.
Proof.
  intros HR HQ. unfold receive_key. wp_simpl. apply wp_receive_carries; [intros e w' ?; by apply HR|].
  intros m f w' Hc Hin _ Hst. assert (rx w w') by (by eapply recv_step_rx).
  destruct m; wp_simpl; by eauto.
Qed.

Lemma wp_receive_auth_proof (Q : AuthTag → World → Prop) (R : NetworkError → World → Prop) w :
  (∀ e w', rx w w' → e ≠ PeerAuthenticationFailed → R e w') →
  (∀ t f w', carries f (AuthProof t) → w_in w = f ++ w_in w' → recv_step w (w_in w') w' → Q t w') →
  wp receive_auth_proof Q R w.
Proof.
  intros HR HQ. unfold receive_auth_proof. wp_simpl. apply wp_receive_carries; [intros e w' ?; by apply HR|].
  intros m f w' Hc Hin _ Hst. assert (rx w w') by (by eapply recv_step_rx).
  destruct m; wp_simpl; by eauto.
Qed.

(** What a server that runs the exchange knows: [p] came from the peer, [q] is
    its own key, of which at most the frame was written. *)
Definition keys_known (w w' : World) (k : SymmetricKey) (p q : PublicKeyBytes) : Prop :=
  (∃ x, k = derive_session_key_with_transcript x p q)
  ∧ (∃ f, carries f (KeyExchange p) ∧ w_in w = f ++ w_in w')
  ∧ ∃ fq, frame (KeyExchange q) = Ok fq ∧ w_out w' = w_out w ++ fq.

(** Only (part of) a public key was written. *)
Definition only_key_sent (w w' : World) : Prop :=
  ∃ q out, frame_part (KeyExchange q) out ∧ w_out w' = w_out w ++ out.

Lemma only_key_sent_nil w w' : w_out w' = w_out w → only_key_sent w w'.
Proof.
  intros Ho. exists (mkPublicKeyBytes (array_repeat 32 Byte.x00)), [].
  rewrite app_nil_r. split; [|done]. unfold frame_part. case_match; [apply prefix_nil|done..].
Qed.

Lemma only_key_sent_frame w w' q f :
  frame (KeyExchange q) = Ok f → w_out w' = w_out w ++ f → only_key_sent w w'.
Proof. intros Hf Ho. exists q, f. split; [|done]. unfold frame_part. by rewrite Hf. Qed.

Lemma wp_server_unauthenticated (Q : SymmetricKey * PublicKeyBytes * PublicKeyBytes → World → Prop)
    (R : NetworkError → World → Prop) w :
  (∀ e w', only_key_sent w w' → e ≠ PeerAuthenticationFailed → R e w') →
  (∀ k p q w', keys_known w w' k p q → Q (k, p, q) w') →
  wp server_unauthenticated_session_key_exchange Q R w.
Proof.
  intros HR HQ. unfold server_unauthenticated_session_key_exchange. wp_simpl.
  eapply (wp_mono _ (λ p w', ∃ f, carries f (KeyExchange p) ∧ w_in w = f ++ w_in w' ∧ recv_step w (w_in w') w')
            _ (λ e w', rx w w' ∧ e ≠ PeerAuthenticationFailed)).
  { unfold receive_key. wp_simpl. apply wp_receive_carries; [done|]. intros m f w' Hc Hin _ Hst.
    assert (rx w w') by (by eapply recv_step_rx). destruct m; wp_simpl; by eauto. }
  2: { intros e w' [(_ & Ho & _) He]. apply HR; [by apply only_key_sent_nil|done]. }
  intros p w1 (f & Hc & Hin & Hst1). unfold keypair_generate. wp_simpl.
  change (fill_bytes 32) with (fill_bytes (E := NetworkError) 32). unfold wp at 1. cbn [fill_bytes].
  wp_simpl. apply wp_send_part.
  - intros e out w' Hs Hp _. apply HR; [|done]. eexists _, out. split; [exact Hp|].
    rewrite (sent_out _ _ _ Hs). cbn. by destruct Hst1 as (_&_&_&->&_).
  - intros fq w' Hfq Hs. wp_simpl.
    assert (w_out w' = w_out w ++ fq) as Ho.
    { rewrite (sent_out _ _ _ Hs). cbn. by destruct Hst1 as (_&_&_&->&_). }
    set (kp := mkEphemeralKeypair _ _) in *.
    destruct (diffie_hellman kp p) as [x|e| |] eqn:Hdh; cbn [result_map_err]; wp_simpl.
    + apply HQ. split_and!; [by exists x| |by exists fq].
      exists f. split; [done|]. rewrite Hin. destruct Hs as (_&_&->&_). done.
    + apply HR; [by eapply only_key_sent_frame|done].
    + unfold diffie_hellman in Hdh. by case_match.
    + unfold diffie_hellman in Hdh. by case_match.
Qed.
End any_peer.

(** The peer's first two messages: its public key and its proof for [role]. *)
Definition peer_proved `{Blake3} `{Bincode WireMessage} (psk : AuthPsk) (role : AuthRole)
    (w : World) (k : SymmetricKey) (p q : PublicKeyBytes) : Prop :=
  ∃ peer_key f1 f2 rest, carries f1 (KeyExchange peer_key)
    ∧ peer_key = match role with Client => p | Server => q end
    ∧ carries f2 (AuthProof (derive_auth_tag psk k p q role)) ∧ w_in w = f1 ++ f2 ++ rest.

Lemma verify_auth_tag_cases t t' :
  verify_auth_tag t t' = Ok tt ∧ t' = t ∨ verify_auth_tag t t' = Err PeerAuthenticationFailed ∧ t' ≠ t.
Proof.
  unfold verify_auth_tag. destruct (auth_tags_equal t t') eqn:Heq; [left|right]; split; try done.
  - by apply auth_tags_equal_spec in Heq.
  - intros ->. assert (auth_tags_equal t t = true) by (by apply auth_tags_equal_spec). congruence.
Qed.

Section authenticated.
Context `{Blake3, X25519} `{Bincode WireMessage}.

Lemma wp_server_authenticated psk w :
  wp (server_authenticated_session_key_exchange psk)
    (λ k _, ∃ p q, peer_proved psk Client w k p q)
    (λ e w', only_key_sent w w' ∨ e ≠ PeerAuthenticationFailed ∧ ∃ k p q, peer_proved psk Client w k p q) w.
Proof.
  unfold server_authenticated_session_key_exchange. wp_simpl.
  apply wp_server_unauthenticated; [intros e w' Hk _; by left|].
  intros k p q w1 (_ & (f1 & Hc1 & Hin1) & (fq & Hfq & Ho)). wp_simpl. apply wp_receive_auth_proof.
  { intros e w' (_ & Ho' & _) _. left. eapply only_key_sent_frame; [done|]. by rewrite Ho'. }
  intros t f2 w2 Hc2 Hin2 Hst2. wp_simpl.
  assert (w_out w2 = w_out w ++ fq) as Ho2 by (destruct Hst2 as (_&_&_&->&_); done).
  destruct (verify_auth_tag_cases (derive_auth_tag psk k p q Client) t) as [[-> ->]|[-> Ht]]; wp_simpl.
  2: { left. by eapply only_key_sent_frame. }
  assert (peer_proved psk Client w k p q) as Hproved.
  { exists p, f1, f2, (w_in w2). split_and!; [done..|]. by rewrite Hin1, Hin2. }
  apply wp_send; [|intros; wp_simpl; eauto]. intros e out w' _ _. right. split; [done|]. eauto.
Qed.

Lemma wp_client_authenticated psk w :
  wp (client_authenticated_session_key_exchange psk)
    (λ k _, ∃ p q, peer_proved psk Server w k p q) (λ _ _, True) w.
Proof.
  unfold client_authenticated_session_key_exchange, client_unauthenticated_session_key_exchange. wp_simpl.
  unfold keypair_generate. wp_simpl. unfold wp at 1. cbn [fill_bytes]. wp_simpl. apply wp_send; [done|].
  intros f w1 _ Hs1. wp_simpl. apply wp_receive_key; [done|]. intros q f1 w2 Hc1 Hin1 _. wp_simpl.
  set (kp := mkEphemeralKeypair _ _) in *.
  destruct (diffie_hellman kp q) as [x|e| |] eqn:Hdh; cbn [result_map_err]; wp_simpl; [|done|..];
    try (unfold diffie_hellman in Hdh; by case_match).
  apply wp_send; [done|]. intros f' w3 _ Hs3. wp_simpl. apply wp_receive_auth_proof; [done|].
  intros t f2 w4 Hc2 Hin2 _. wp_simpl.
  match goal with |- context [verify_auth_tag ?e t] => destruct (verify_auth_tag_cases e t) as [[-> ->]|[-> Ht]] end;
    wp_simpl; [|done].
  eexists _, q, q, f1, f2, (w_in w4). split_and!; [done|done|exact Hc2|].
  rewrite <- Hin2. assert (w_in w3 = w_in w2) as -> by (by destruct Hs3 as (_&_&?&_)).
  rewrite <- Hin1. by destruct Hs1 as (_&_&->&_).
Qed.
End authenticated.

(** * Versions and capabilities *)
Lemma check_required_Ok required features :
  check_required required features = Ok tt ↔ Forall (λ c, c ∈ features) required.
Proof.
  induction required as [|c required IH]; simpl; [by split; [constructor|]|].
  assert (existsb (λ feature, bool_decide (feature = c)) features = true ↔ c ∈ features) as Hex.
  { rewrite existsb_exists. setoid_rewrite bool_decide_eq_true. setoid_rewrite <- list_elem_of_In. naive_solver. }
  rewrite Forall_cons. destruct (existsb _ _) eqn:He.
  - rewrite IH. rewrite <- Hex. naive_solver.
  - rewrite <- Hex. naive_solver.
Qed.

Lemma validate_capabilities_Ok v features :
  validate_capabilities v features = Ok tt
  ↔ v = ETLE_WIRE_PROTOCOL_VERSION ∧ Forall (λ c, c ∈ features) required_capabilities.
Proof. unfold validate_capabilities. case_decide; [naive_solver|]. rewrite check_required_Ok. naive_solver. Qed.

Lemma validate_capabilities_total v features :
  validate_capabilities v features = Ok tt ∨ ∃ e, validate_capabilities v features = Err e.
Proof.
  unfold validate_capabilities. case_decide; [eauto|]. generalize required_capabilities as l.
  induction l as [|c l IH]; simpl; [eauto|]. destruct (existsb _ _); eauto.
Qed.

(** The peer's first two messages: a hello and capabilities that cover ours. *)
Definition peer_compatible `{Bincode WireMessage} (w : World) (peer_id : string) : Prop :=
  ∃ f1 f2 v features rest, carries f1 (Hello peer_id) ∧ carries f2 (Capabilities v features)
    ∧ w_in w = f1 ++ f2 ++ rest ∧ v = ETLE_WIRE_PROTOCOL_VERSION
    ∧ Forall (λ c, c ∈ features) required_capabilities.

Section compatible.
Context `{Bincode WireMessage}.

Lemma wp_receive_hello (Q : string → World → Prop) (R : NetworkError → World → Prop) w :
  (∀ e w', R e w') →
  (∀ id f w', carries f (Hello id) → w_in w = f ++ w_in w' → Q id w') →
  wp receive_hello Q R w.
Proof.
  intros HR HQ. unfold receive_hello. wp_simpl. apply wp_receive_carries; [done|].
  intros m f w' Hc Hin _ _. destruct m; wp_simpl; by eauto.
Qed.

Lemma wp_receive_capabilities (Q : unit → World → Prop) (R : NetworkError → World → Prop) w :
  (∀ e w', R e w') →
  (∀ v features f w', carries f (Capabilities v features) → w_in w = f ++ w_in w' →
     validate_capabilities v features = Ok tt → Q tt w') →
  wp receive_and_validate_peer_capabilities Q R w.
Proof.
  intros HR HQ. unfold receive_and_validate_peer_capabilities. wp_simpl. apply wp_receive_carries; [done|].
  intros m f w' Hc Hin _ _. destruct m; wp_simpl; try done.
  destruct (validate_capabilities_total protocol_version features) as [Hv|[e Hv]]; rewrite Hv; eauto.
Qed.

Lemma wp_handshake_compatible peer_id w :
  wp (client_protocol_handshake peer_id) (λ id _, peer_compatible w id) (λ _ _, True) w
  ∧ wp (server_protocol_handshake peer_id) (λ id _, peer_compatible w id) (λ _ _, True) w.
Proof.
  unfold client_protocol_handshake, server_protocol_handshake, client_hello_handshake, server_hello_handshake,
    exchange_capabilities_as_client, exchange_capabilities_as_server, send_local_capabilities.
  assert (∀ o w w', sent w o w' → w_in w' = w_in w) as Hsi by (by intros ??? (_&_&?&_)).
  split; wp_simpl.
  - apply wp_send; [done|]. intros f0 w0 _ Hs0. apply wp_receive_hello; [done|]. intros id f1 w1 Hc1 Hin1. wp_simpl.
    apply wp_send; [done|]. intros f' w2 _ Hs2. apply wp_receive_capabilities; [done|].
    intros v features f2 w3 Hc2 Hin2 [Hv Hr]%validate_capabilities_Ok. wp_simpl.
    exists f1, f2, v, features, (w_in w3). split_and!; try done.
    by rewrite <- Hin2, (Hsi _ _ _ Hs2), <- Hin1, (Hsi _ _ _ Hs0).
  - apply wp_receive_hello; [done|]. intros id f1 w1 Hc1 Hin1. wp_simpl.
    apply wp_send; [done|]. intros f' w2 _ Hs2. wp_simpl. apply wp_receive_capabilities; [done|].
    intros v features f2 w3 Hc2 Hin2 [Hv Hr]%validate_capabilities_Ok.
    wp_simpl. apply wp_send; [done|]. intros f'' w4 _ _. wp_simpl.
    exists f1, f2, v, features, (w_in w3). split_and!; try done.
    by rewrite <- Hin2, (Hsi _ _ _ Hs2), <- Hin1.
Qed.
End compatible.

(** * Claims *)

(** Key agreement: when each side reads what the other writes and nothing
    fails, the two sides of the authenticated exchange with the same pre-shared
    key, of the unauthenticated one and of the file key exchange finish with the
    same key; the only other outcome is that both report a degenerate X25519
    result. *)
Theorem exchange_agreement `{Blake3, X25519Laws} `{WireBincodeLaws} `{!ExchangeFits} psk file_id client server
    wc wc' ws ws' rc rs :
  (client, server) ∈ [(client_authenticated_session_key_exchange psk, server_authenticated_session_key_exchange psk);
                      (client_session_key_exchange, server_session_key_exchange);
                      (client_key_exchange file_id, server_key_exchange file_id)] →
  linked wc wc' ws ws' → client wc = (rc, wc') → server ws = (rs, ws') →
  (∃ k, rc = Ok k ∧ rs = Ok k)
  ∨ (rc = Err (NE_Crypto InvalidPublicKey) ∧ rs = Err (NE_Crypto InvalidPublicKey)).
Proof.
  rewrite !elem_of_cons, elem_of_nil. intros Hex Hl Hc Hs.
  destruct Hex as [[= -> ->]|[[= -> ->]|[[= -> ->]|[]]]].
  - unfold client_authenticated_session_key_exchange in Hc. unfold server_authenticated_session_key_exchange in Hs.
    rewrite client_unauthenticated_then in Hc. rewrite server_unauthenticated_then in Hs.
    eapply exchange_agree in Hs as [?|(x & p & q & wc1 & ws1 & Hc1 & Hs1 & Hl1)];
      [by right| | | |exact Hl|exact Hc]; [|intros; by grow..].
    left. eexists. eapply auth_agree; [exact Hl1|exact Hc1|exact Hs1].
  - unfold client_session_key_exchange in Hc. unfold server_session_key_exchange in Hs.
    rewrite client_unauthenticated_then in Hc. rewrite server_unauthenticated_then in Hs.
    eapply exchange_agree in Hs as [?|(x & p & q & wc1 & ws1 & Hc1 & Hs1 & Hl1)];
      [by right| | | |exact Hl|exact Hc]; [|intros; by grow..].
    left. injection Hc1 as <- _. injection Hs1 as <- _. eauto.
  - unfold client_key_exchange in Hc. unfold server_key_exchange in Hs.
    rewrite client_shared_secret_then in Hc. rewrite server_shared_secret_then in Hs.
    eapply exchange_agree in Hs as [?|(x & p & q & wc1 & ws1 & Hc1 & Hs1 & Hl1)];
      [by right| | | |exact Hl|exact Hc]; [|intros; by grow..].
    left. injection Hc1 as <- _. injection Hs1 as <- _. eauto.
Qed.

(** C5: authentication holds against any peer and any failure: the authenticated
    exchanges always return, a side accepts a session key only after the peer sent
    a public key and the correct proof for that session, and a server that has not
    seen the client's correct proof has written nothing beyond its public key. *)
Theorem exchange_authenticates `{Blake3, X25519} `{Bincode WireMessage} psk w :
  match server_authenticated_session_key_exchange psk w with
  | (Ok k, _) => ∃ p q, peer_proved psk Client w k p q
  | (Err e, w') =>
      only_key_sent w w' ∨ e ≠ PeerAuthenticationFailed ∧ ∃ k p q, peer_proved psk Client w k p q
  | _ => False
  end
  ∧ match client_authenticated_session_key_exchange psk w with
    | (Ok k, _) => ∃ p q, peer_proved psk Server w k p q
    | (Err _, _) => True
    | _ => False
    end.
Proof.
  split; [pose proof (wp_server_authenticated psk w) as H2|pose proof (wp_client_authenticated psk w) as H2];
    unfold wp in H2; by repeat case_match.
Qed.

(** Both handshakes return a peer id only if the peer said hello under that
    id, speaks protocol version 3 and offers every required capability; and two
    ends that run this code against each other, with hellos that fit a frame,
    complete and learn each other's id. *)
Theorem protocol_handshake_correct `{WireBincodeLaws} idc ids fc fs fcap wc wc' ws ws' rc rs :
  frame (Hello idc) = Ok fc → frame (Hello ids) = Ok fs →
  frame (Capabilities ETLE_WIRE_PROTOCOL_VERSION local_capabilities) = Ok fcap →
  client_protocol_handshake idc wc = (rc, wc') → server_protocol_handshake ids ws = (rs, ws') →
  (∀ id, rc = Ok id → peer_compatible wc id) ∧ (∀ id, rs = Ok id → peer_compatible ws id)
  ∧ (linked wc wc' ws ws' → rc = Ok ids ∧ rs = Ok idc).
Proof.
  intros Hfc Hfs Hcap Hc Hs. split_and!.
  - intros id ->. exact (wp_Ok _ _ _ _ _ _ (proj1 (wp_handshake_compatible idc wc)) Hc).
  - intros id ->. exact (wp_Ok _ _ _ _ _ _ (proj2 (wp_handshake_compatible ids ws)) Hs).
  - intros Hl. unfold client_protocol_handshake, client_hello_handshake, exchange_capabilities_as_client,
      receive_hello, send_local_capabilities, receive_and_validate_peer_capabilities in Hc.
    unfold server_protocol_handshake, server_hello_handshake, exchange_capabilities_as_server,
      receive_hello, send_local_capabilities, receive_and_validate_peer_capabilities in Hs.
    rewrite !bind_assoc in Hc. rewrite !bind_assoc in Hs.
    eapply (send_receive _ fc) in Hs as (wc1 & ws1 & Hc1 & Hs1 & Hl1); [|exact Hl|done|done| |exact Hc]; [|by grow].
    cbn [bind ret] in Hs1. rewrite !bind_assoc in Hs1. rewrite !bind_assoc in Hc1. apply linked_sym in Hl1.
    eapply (send_receive _ fs) in Hc1 as (ws2 & wc2 & Hs2 & Hc2 & Hl2); [|exact Hl1|done|done| |exact Hs1]; [|by grow].
    cbn [bind ret] in Hc2, Hs2. rewrite !bind_assoc in Hc2. rewrite !bind_assoc in Hs2. apply linked_sym in Hl2.
    eapply (send_receive _ fcap) in Hs2 as (wc3 & ws3 & Hc3 & Hs3 & Hl3); [|exact Hl2|done|done| |exact Hc2]; [|by grow].
    assert (validate_capabilities ETLE_WIRE_PROTOCOL_VERSION local_capabilities = Ok tt) as Hv by done.
    cbn [bind ret] in Hs3. rewrite Hv in Hs3. cbn [bind lift_result] in Hs3. rewrite bind_assoc in Hc3.
    apply linked_sym in Hl3.
    eapply (send_receive _ fcap) in Hc3 as (ws4 & wc4 & Hs4 & Hc4 & Hl4); [|exact Hl3|done|done| |exact Hs3]; [|by grow].
    cbn [bind ret] in Hc4, Hs4. rewrite Hv in Hc4. cbn [bind lift_result] in Hc4.
    injection Hc4 as <- _. injection Hs4 as <- _. done.
Qed.

(** * Concrete runs *)
Import Toy WireSample.
Module HandshakeSample.
#[export] Instance wire_fits : ExchangeFits.
Proof.
  split; intros x; eexists; (split; [reflexivity|]); rewrite zlen_cons; unfold zlen;
    rewrite length_array; unfold MAX_FRAME_SIZE; lia.
Qed.

(** Let two programs talk until their streams no longer change. *)
Definition world (inbound : bytes) : World := CryptoSample.world ∅ inbound.
Fixpoint talk {A B} (n : nat) (c : net A) (s : net B) (in_c in_s : bytes) : bytes * bytes :=
  match n with
  | O => (in_c, in_s)
  | S n => talk n c s (w_out (s (world in_s)).2) (w_out (c (world in_c)).2)
  end.

Definition psk : AuthPsk := auth_psk_from_passphrase (str_bytes "secret").
Definition client := client_authenticated_session_key_exchange psk.
Definition server := server_authenticated_session_key_exchange psk.
Definition exchange : bytes * bytes := talk 5 client server [] [].
Definition hello_c : string := "client".
Definition hello_s : string := "server".
Definition handshake : bytes * bytes :=
  talk 5 (client_protocol_handshake hello_c) (server_protocol_handshake hello_s) [] [].
Definition frame_bytes (m : WireMessage) : bytes := match frame m with Ok f => f | _ => [] end.
End HandshakeSample.
Import HandshakeSample.

Lemma exchange_agreement_witness :
  let c := HandshakeSample.client (HandshakeSample.world HandshakeSample.exchange.1) in
  let s := HandshakeSample.server (HandshakeSample.world HandshakeSample.exchange.2) in
  (∃ k, c.1 = Ok k ∧ s.1 = Ok k)
  ∨ (c.1 = Err (NE_Crypto InvalidPublicKey) ∧ s.1 = Err (NE_Crypto InvalidPublicKey)).
Proof.
  intros c s.
  apply (exchange_agreement HandshakeSample.psk (CryptoSample.file_id Byte.x01)
    HandshakeSample.client HandshakeSample.server
    (HandshakeSample.world HandshakeSample.exchange.1) c.2
    (HandshakeSample.world HandshakeSample.exchange.2) s.2).
  - left.
  - split_and!; [|..].
    + apply (heard_exact _ _ _ HandshakeSample.exchange.2); vm_compute; reflexivity.
    + apply (heard_exact _ _ _ HandshakeSample.exchange.1); vm_compute; reflexivity.
    + by intros n.
    + by intros n.
  - apply surjective_pairing.
  - apply surjective_pairing.
Defined.

Lemma protocol_handshake_correct_witness :
  let c := client_protocol_handshake HandshakeSample.hello_c (HandshakeSample.world HandshakeSample.handshake.1) in
  let s := server_protocol_handshake HandshakeSample.hello_s (HandshakeSample.world HandshakeSample.handshake.2) in
  c.1 = Ok HandshakeSample.hello_s ∧ s.1 = Ok HandshakeSample.hello_c.
Proof.
  intros c s.
  apply (protocol_handshake_correct HandshakeSample.hello_c HandshakeSample.hello_s
    (HandshakeSample.frame_bytes (Hello HandshakeSample.hello_c))
    (HandshakeSample.frame_bytes (Hello HandshakeSample.hello_s))
    (HandshakeSample.frame_bytes (Capabilities ETLE_WIRE_PROTOCOL_VERSION local_capabilities))
    (HandshakeSample.world HandshakeSample.handshake.1) c.2
    (HandshakeSample.world HandshakeSample.handshake.2) s.2).
  - vm_compute. reflexivity.
  - vm_compute. reflexivity.
  - vm_compute. reflexivity.
  - apply surjective_pairing.
  - apply surjective_pairing.
  - split_and!; [|..].
    + apply (heard_exact _ _ _ HandshakeSample.handshake.2); vm_compute; reflexivity.
    + apply (heard_exact _ _ _ HandshakeSample.handshake.1); vm_compute; reflexivity.
    + by intros n.
    + by intros n.
Defined.
