(* ===== verification/DownloadState.v ===== *)
(** The options of a transfer ([network/transfer/options.rs]), the constants of
    [network/transfer/prelude.rs], and the part of [network/transfer/download.rs]
    that keeps a download's state in the share library: the conversions between
    manifests and descriptors, which chunks can be reused, and how a received
    chunk and the progress are persisted. *)
From stdpp Require Import base tactics list countable strings gmap.
From Stdlib Require Import ZArith Lia.
From S2P Require Import Prelude Bytes World Files Extern Crypto Descriptor Storage State Library Codec Handshake.
Local Open Scope Z_scope.
Local Open Scope etle_scope.

(** * Options *)
Definition DEFAULT_REQUEST_WINDOW : Z := 16.

Inductive TransferLogLevel := Quiet | Normal | Verbose.
Definition is_normal (l : TransferLogLevel) : bool :=
  match l with Normal | Verbose => true | Quiet => false end.
Definition is_verbose (l : TransferLogLevel) : bool :=
  match l with Verbose => true | _ => false end.

Record ServeFileOptions := mkServeFileOptions {
  so_seeder_id : string;
  so_log_level : TransferLogLevel;
  so_library_root : option path;
  so_auth_psk : option AuthPsk;
}.
Definition ServeFileOptions_new (seeder_id : string) (log_level : TransferLogLevel) : ServeFileOptions :=
  mkServeFileOptions seeder_id log_level None None.
Definition serve_with_library_root (o : ServeFileOptions) (root : path) : ServeFileOptions :=
  mkServeFileOptions (so_seeder_id o) (so_log_level o) (Some root) (so_auth_psk o).
Definition serve_with_auth_psk (o : ServeFileOptions) (psk : AuthPsk) : ServeFileOptions :=
  mkServeFileOptions (so_seeder_id o) (so_log_level o) (so_library_root o) (Some psk).

Record DownloadFileOptions := mkDownloadFileOptions {
  do_peer_id : string;
  do_log_level : TransferLogLevel;
  do_library_root : option path;
  do_resume : bool;
  do_requested_share_id : option ShareId;
  do_request_window : Z;
  do_auth_psk : option AuthPsk;
}.
Definition DownloadFileOptions_new (peer_id : string) (log_level : TransferLogLevel) : DownloadFileOptions :=
  mkDownloadFileOptions peer_id log_level None true None DEFAULT_REQUEST_WINDOW None.
Definition with_library_root (o : DownloadFileOptions) (root : path) : DownloadFileOptions :=
  mkDownloadFileOptions (do_peer_id o) (do_log_level o) (Some root) (do_resume o)
    (do_requested_share_id o) (do_request_window o) (do_auth_psk o).
Definition with_resume (o : DownloadFileOptions) (resume : bool) : DownloadFileOptions :=
  mkDownloadFileOptions (do_peer_id o) (do_log_level o) (do_library_root o) resume
    (do_requested_share_id o) (do_request_window o) (do_auth_psk o).
Definition with_requested_share_id (o : DownloadFileOptions) (id : option ShareId) : DownloadFileOptions :=
  mkDownloadFileOptions (do_peer_id o) (do_log_level o) (do_library_root o) (do_resume o)
    id (do_request_window o) (do_auth_psk o).
Definition with_request_window (o : DownloadFileOptions) (n : Z) : DownloadFileOptions :=
  mkDownloadFileOptions (do_peer_id o) (do_log_level o) (do_library_root o) (do_resume o)
    (do_requested_share_id o) n (do_auth_psk o).
Definition with_auth_psk (o : DownloadFileOptions) (psk : AuthPsk) : DownloadFileOptions :=
  mkDownloadFileOptions (do_peer_id o) (do_log_level o) (do_library_root o) (do_resume o)
    (do_requested_share_id o) (do_request_window o) (Some psk).

Definition PROGRESS_FLUSH_CHUNK_INTERVAL : Z := 32.
(** 750 ms, in nanoseconds. *)
Definition PROGRESS_FLUSH_TIME_INTERVAL : Z := 750 * 1000000.

(** The entry points of [progress.rs]: a quiet transfer reports nothing;
    otherwise the call reaches the reporter. *)
Definition with_context_label (context : string) (role action : string) (log_level : TransferLogLevel)
    (done total index bytes : Z) : net unit :=
  match log_level with
  | Quiet => ret tt
  | _ => report (ProgressCall context role action done total index bytes)
  end.
Definition with_label (context role action : string) (log_level : TransferLogLevel)
    (done total index bytes : Z) : net unit :=
  with_context_label context role action log_level done total index bytes.
Definition with_context (share_id : option ShareId) (role action : string) (log_level : TransferLogLevel)
    (done total index bytes : Z) : net unit :=
  with_context_label (match share_id with Some id => ShareId_to_string id | None => "global"%string end)
    role action log_level done total index bytes.
Definition for_share_progress (share_id : ShareId) (role action : string) (log_level : TransferLogLevel)
    (done total index bytes : Z) : net unit :=
  with_context (Some share_id) role action log_level done total index bytes.

(** The encodings of the files of a share, as one interface. *)
Class DiskFormat := {
  df_descriptor :: Bincode EtleDescriptor;
  df_secret :: Bincode EtleSecret;
  df_compact_progress :: Bincode CompactDownloadProgress;
  df_progress :: Bincode DownloadProgress;
  df_compact_state :: Bincode CompactShareState;
  df_state :: Bincode ShareState;
}.

(** The chunk numbers a decoder returns are 32-bit numbers. *)
Class DiskFormatTyped `{DiskFormat} : Prop := {
  df_progress_typed b (p : DownloadProgress) n :
    bincode_decode b = Some (p, n) → Forall u32_range (dp_completed_chunks p);
}.

(** Encoding into memory does not fail. *)
Class DiskEncodes `{DiskFormat} : Prop := {
  encodes_descriptor (d : EtleDescriptor) : is_Some (bincode_encode d);
  encodes_secret (s : EtleSecret) : is_Some (bincode_encode s);
  encodes_progress (p : CompactDownloadProgress) : is_Some (bincode_encode p);
  encodes_state (s : CompactShareState) : is_Some (bincode_encode s);
}.

(** * Manifests and descriptors *)
Section conversions.
Context `{Blake3}.

Definition descriptor_from_manifest (manifest : Manifest) : EtleDescriptor :=
  EtleDescriptor_new (mf_file_name manifest) (mf_file_size manifest) (mf_chunk_size manifest)
    [mkFileEntry (mf_file_name manifest) (mf_file_size manifest) 0 (mf_file_id manifest)]
    (mf_chunks manifest).

Definition manifest_from_descriptor (descriptor : EtleDescriptor) : result NetworkError Manifest :=
  match d_files descriptor with
  | [file] => Ok (mkManifest (fe_blake3_hash file) (fe_path file) (d_total_size descriptor)
                    (d_chunk_size descriptor) (d_chunks descriptor))
  | files => Err (UnsupportedMultiFileDescriptor (zlen files))
  end.
End conversions.

Definition manifests_are_compatible (left right : Manifest) : bool :=
  bool_decide (mf_file_id left = mf_file_id right)
  && bool_decide (mf_file_name left = mf_file_name right)
  && bool_decide (mf_file_size left = mf_file_size right)
  && bool_decide (mf_chunk_size left = mf_chunk_size right)
  && bool_decide (mf_chunks left = mf_chunks right).

(** [path.parent().filter(|path| !path.as_os_str().is_empty())] *)
Definition output_parent_dir (output_path : path) : option path :=
  match path_parent output_path with
  | Some [] | None => None
  | Some parent => Some parent
  end.

(** * The library side of a download *)
Record ActiveDownloadLibraryState := mkActive {
  ad_paths : LibraryPaths;
  ad_progress : DownloadProgress;
  ad_dirty_chunks : Z;
  ad_last_progress_flush : Z;
}.

Definition staging_timestamp {E} : M World E Z := unix_nanos.

Definition active_download_state (state : option ActiveDownloadLibraryState)
    : result NetworkError ActiveDownloadLibraryState :=
  ok_or state (PeerError "download output reconstruction requires library state").

Definition part_name (index nanos : Z) : string :=
  dec_pad6 index +:+ "." +:+ CHUNK_EXTENSION +:+ "." +:+ dec nanos +:+ ".part".

Definition download_chunk_temp_path (state : option ActiveDownloadLibraryState) (index : Z) : net path :=
  let! state := lift_result (active_download_state state) in
  let! suffix := staging_timestamp in
  ret (chunks_dir (ad_paths state) ++ [part_name index suffix]).

Definition remove_file_if_exists (p : path) : net unit :=
  let! present := gets (path_exists p) in
  if (present : bool) then
    let! _ignored := try_ (remove_file p) in
    ret tt
  else ret tt.

Section library_state.
Context `{Blake3} `{DiskFormat}.
Abbreviation file_op m := (map_err NE_File m).

(** Chunks of a share that are present and match their hash. *)
Definition available_chunk (paths : LibraryPaths) (available : list Z) (meta : ChunkMeta) : net (list Z) :=
  let! present := gets (library_has_chunk paths (cm_index meta)) in
  if negb present then ret available
  else
    let! r := try_ (read_chunk paths (cm_index meta) (cm_encrypted_size meta)) in
    match r with
    | Ok chunk =>
        if decide (hash_chunk (ec_data chunk) = cm_blake3_hash meta)
        then ret (available ++ [cm_index meta]) else ret available
    | _ => ret available
    end.
Definition available_chunk_indexes (paths : LibraryPaths) (descriptor : EtleDescriptor) : net (list Z) :=
  mfold (available_chunk paths) [] (d_chunks descriptor).

(** The progress a resumed download starts from. *)
Definition resume_progress (paths : LibraryPaths) (share_id : ShareId) (resume : bool) : net DownloadProgress :=
  let! present := gets (is_file (progress_path paths)) in
  if resume && present then
    let! descriptor_present := gets (is_file (descriptor_path paths)) in
    do! (if (descriptor_present : bool) then
           let! _existing := file_op (read_descriptor paths) in
           ret tt
         else ret tt) in
    let! r := try_ (read_progress paths) in
    match r with
    | Ok progress => ret progress
    | _ => ret (DownloadProgress_empty share_id)
    end
  else ret (DownloadProgress_empty share_id).

Definition initialize_download_library_state (library_root : option path) (descriptor : EtleDescriptor)
    (file_key : SymmetricKey) (output_dir : option path) (resume : bool)
    : net (option ActiveDownloadLibraryState) :=
  match library_root with
  | None => ret None
  | Some root =>
      let paths := for_share root (d_share_id descriptor) in
      let! progress := resume_progress paths (d_share_id descriptor) resume in
      let! paths := file_op (library_init root descriptor file_key Downloading output_dir) in
      if decide (dp_completed_chunks progress = []) then
        let! t := now in
        ret (Some (mkActive paths progress 0 t))
      else
        do! file_op (write_progress paths progress) in
        do! file_op (write_state paths (from_progress Downloading output_dir progress)) in
        let! t := now in
        ret (Some (mkActive paths progress 0 t))
  end.

(** One chunk of the two [load_resumable] loops: [Some] if it can be reused. *)
Definition resumable_chunk (state : ActiveDownloadLibraryState) (meta : ChunkMeta)
    : net (option EncryptedChunk) :=
  let! present := gets (library_has_chunk (ad_paths state) (cm_index meta)) in
  if negb (has_chunk (ad_progress state) (cm_index meta)) || negb present then ret None
  else
    let! chunk := file_op (read_chunk (ad_paths state) (cm_index meta) (cm_encrypted_size meta)) in
    if decide (hash_chunk (ec_data chunk) = cm_blake3_hash meta) then ret (Some chunk) else ret None.

Definition load_chunks_round (state : ActiveDownloadLibraryState)
    (acc : gmap Z EncryptedChunk * DownloadProgress) (meta : ChunkMeta)
    : net (gmap Z EncryptedChunk * DownloadProgress) :=
  let! r := resumable_chunk state meta in
  match r with
  | Some chunk => ret (<[cm_index meta := chunk]> acc.1, mark_completed acc.2 (cm_index meta))
  | None => ret acc
  end.

Definition load_indexes_round (state : ActiveDownloadLibraryState)
    (acc : gset Z * DownloadProgress) (meta : ChunkMeta) : net (gset Z * DownloadProgress) :=
  let! r := resumable_chunk state meta in
  match r with
  | Some _ => ret ({[cm_index meta]} ∪ acc.1, mark_completed acc.2 (cm_index meta))
  | None => ret acc
  end.

(** The progress is replaced by what was found valid, and written. *)
Definition save_valid_progress (state : ActiveDownloadLibraryState) (valid : DownloadProgress)
    (output_dir : option path) : net ActiveDownloadLibraryState :=
  let state := mkActive (ad_paths state) valid (ad_dirty_chunks state) (ad_last_progress_flush state) in
  do! file_op (write_progress (ad_paths state) (ad_progress state)) in
  do! file_op (write_state (ad_paths state) (from_progress Downloading output_dir (ad_progress state))) in
  ret state.

Definition load_resumable_chunks (state : option ActiveDownloadLibraryState) (manifest : Manifest)
    (output_dir : option path) : net (gmap Z EncryptedChunk * option ActiveDownloadLibraryState) :=
  match state with
  | None => ret (∅, None)
  | Some state =>
      let! r := mfold (load_chunks_round state) (∅, DownloadProgress_empty (lp_share_id (ad_paths state)))
                  (mf_chunks manifest) in
      let! state := save_valid_progress state r.2 output_dir in
      ret (r.1, Some state)
  end.

Definition load_resumable_chunk_indexes (state : option ActiveDownloadLibraryState) (manifest : Manifest)
    (output_dir : option path) : net (gset Z * option ActiveDownloadLibraryState) :=
  match state with
  | None => ret (∅, None)
  | Some state =>
      let! r := mfold (load_indexes_round state) (∅, DownloadProgress_empty (lp_share_id (ad_paths state)))
                  (mf_chunks manifest) in
      let! state := save_valid_progress state r.2 output_dir in
      ret (r.1, Some state)
  end.

(** ** Persisting *)
Definition should_flush_download_progress (state : ActiveDownloadLibraryState) : net bool :=
  if decide (PROGRESS_FLUSH_CHUNK_INTERVAL ≤ ad_dirty_chunks state) then ret true
  else
    let! t := now in
    let elapsed := Z.max 0 (t - ad_last_progress_flush state) in
    ret (bool_decide (PROGRESS_FLUSH_TIME_INTERVAL ≤ elapsed)).

Definition flush_download_progress (state : ActiveDownloadLibraryState) (mode : ShareMode)
    (output_dir : option path) : net ActiveDownloadLibraryState :=
  do! file_op (write_progress (ad_paths state) (ad_progress state)) in
  do! file_op (write_state (ad_paths state) (from_progress mode output_dir (ad_progress state))) in
  let! t := now in
  ret (mkActive (ad_paths state) (ad_progress state) 0 t).

Definition maybe_flush_download_progress (state : ActiveDownloadLibraryState) (output_dir : option path)
    : net ActiveDownloadLibraryState :=
  let! flush := should_flush_download_progress state in
  if (flush : bool) then flush_download_progress state Downloading output_dir else ret state.

Definition mark_persisted (state : ActiveDownloadLibraryState) (index : Z) : ActiveDownloadLibraryState :=
  mkActive (ad_paths state) (mark_completed (ad_progress state) index)
    (saturating_add usize_max (ad_dirty_chunks state) 1) (ad_last_progress_flush state).

(** Moving a verified temporary file to its place. *)
Definition store_chunk_file (paths : LibraryPaths) (index : Z) (temp_path : path) : net unit :=
  do! map_err NE_Io (create_dir_all (chunks_dir paths)) in
  let final_path := chunk_path paths index in
  let! present := gets (path_exists final_path) in
  do! (if (present : bool) then map_err NE_Io (remove_file final_path) else ret tt) in
  map_err NE_Io (rename temp_path final_path).

Definition persist_downloaded_chunk_file (state : option ActiveDownloadLibraryState) (index : Z)
    (temp_path : path) (output_dir : option path) : net (option ActiveDownloadLibraryState) :=
  match state with
  | None =>
      do! remove_file_if_exists temp_path in
      ret None
  | Some state =>
      do! store_chunk_file (ad_paths state) index temp_path in
      let! state := maybe_flush_download_progress (mark_persisted state index) output_dir in
      ret (Some state)
  end.

Definition persist_downloaded_chunk (state : option ActiveDownloadLibraryState) (chunk : EncryptedChunk)
    (output_dir : option path) : net (option ActiveDownloadLibraryState) :=
  match state with
  | None => ret None
  | Some state =>
      let! _path := file_op (write_chunk (ad_paths state) chunk) in
      let! state := maybe_flush_download_progress (mark_persisted state (ec_index chunk)) output_dir in
      ret (Some state)
  end.

Definition mark_download_library_complete (state : option ActiveDownloadLibraryState)
    (output_dir : option path) : net (option ActiveDownloadLibraryState) :=
  match state with
  | None => ret None
  | Some state =>
      let! state := (if decide (ad_dirty_chunks state > 0)
                     then flush_download_progress state Downloading output_dir else ret state) in
      do! file_op (write_state (ad_paths state) (from_progress Completed output_dir (ad_progress state))) in
      ret (Some state)
  end.
End library_state.

(** * What an operation may touch *)

(** [keeps P w w']: only files in [P] may differ (directories may appear). *)
Definition keeps (P : path → Prop) (w w' : World) : Prop :=
  w_env w' = w_env w ∧ ∀ q, ¬ P q → file_at (w_fs w') q = file_at (w_fs w) q.

Global Instance keeps_preorder P : PreOrder (keeps P).
Proof.
  split; [done|]. intros w1 w2 w3 [E1 F1] [E2 F2]. split; [congruence|].
  intros q Hq. rewrite F2, F1; done.
Qed.

Lemma keeps_mono (P P' : path → Prop) w w' : (∀ q, P q → P' q) → keeps P w w' → keeps P' w w'.
Proof. intros HP [E F]. split; [done|]. intros q Hq. apply F. auto. Qed.

Lemma stepped_keeps P w w' : stepped w w' → keeps P w w'.
Proof. intros (E & F & _). split; [done|]. intros q _. by rewrite F. Qed.

Lemma fs_step_keeps P w m w' :
  fs_step w m w' → (∀ q, ¬ P q → file_at m q = file_at (w_fs w) q) → keeps P w w'.
Proof. intros (E & F & _) Hm. split; [done|]. intros q Hq. rewrite F. by apply Hm. Qed.

Lemma sent_keeps P w o w' : sent w o w' → keeps P w w'.
Proof. intros (E & F & _). split; [done|]. intros q _. by rewrite F. Qed.

Lemma rx_to_keeps (P : path → Prop) out w w' : rx_to out w w' → (∀ q, out = Some q → P q) → keeps P w w'.
Proof.
  intros Hrx HP. split; [apply Hrx|]. intros q Hq. eapply rx_to_file; [done|]. intros Ho. by apply Hq, HP.
Qed.

Lemma recv_step_keeps P w post w' : recv_step w post w' → keeps P w w'.
Proof. intros (E & F & _). split; [done|]. intros q _. by rewrite F. Qed.

(** The files directly in the directory of a share. *)
Definition meta_files (paths : LibraryPaths) (q : path) : Prop := ∃ name, q = share_dir paths ++ [name].
(** A chunk file and the temporary files of the chunk directory. *)
Definition hidden_files (paths : LibraryPaths) (q : path) : Prop :=
  ∃ name, q = chunks_dir paths ++ [name] ∧ ¬ plain_name name.

Lemma meta_files_chunk paths i : ¬ meta_files paths (chunk_path paths i).
Proof.
  intros [name Heq]. unfold chunk_path, chunks_dir in Heq. rewrite <- app_assoc in Heq.
  apply app_inv_head in Heq. done.
Qed.

Lemma hidden_files_chunk paths i : 0 ≤ i → ¬ hidden_files paths (chunk_path paths i).
Proof.
  intros Hi (name & Heq & Hn). apply app_inj_tail in Heq as [_ <-]. by apply Hn, chunk_file_name_plain.
Qed.

Lemma chunk_path_inj paths i j : 0 ≤ i → 0 ≤ j → chunk_path paths i = chunk_path paths j → i = j.
Proof. intros Hi Hj Heq. apply app_inj_tail in Heq as [_ Heq]. by apply chunk_file_name_inj in Heq. Qed.

(** ** Atomic writes in any file system *)
Lemma wp_write_file_atomic_any (T : path → Prop) p data secret w :
  p ≠ [] → (∀ pid nanos, T (tmp_path p pid nanos)) →
  wp (write_file_atomic p data secret)
    (λ _ w', keeps (λ q, q = p) w w' ∧ file_at (w_fs w') p = Some data) (λ _ w', keeps T w w') w.
Proof.
  intros Hp Htmp. apply wp_write_file_atomic; [done| |].
  - intros k m' nanos w' Hst Hot _. eapply fs_step_keeps; [done|]. intros q Hq. apply Hot.
    intros ->. by apply Hq.
  - intros w' [_ Hfree] Hst. rewrite (fs_step_fs _ _ _ Hst). split; [|apply file_at_insert_eq].
    eapply fs_step_keeps; [done|]. intros q Hq. rewrite file_at_insert_ne by congruence.
    by apply file_at_mkdirs.
Qed.

Lemma wp_create_dir_all_any (P : path → Prop) p w :
  wp (create_dir_all p) (λ _ w', keeps P w w') (λ _ w', keeps P w w') w.
Proof.
  apply wp_create_dir_all.
  - intros k ps w' Hst _ Hps _. eapply fs_step_keeps; [done|]. intros q _. by apply file_at_mkdirs.
  - intros w' [_ Hfree] Hst. eapply fs_step_keeps; [done|]. intros q _. by apply file_at_mkdirs.
Qed.

Definition encodable (r : result unit bytes) : Prop := r ≠ Panic ∧ r ≠ Diverged.

Lemma wp_write_share_file_exact paths id name encoded secret w :
  encodable encoded →
  wp (write_share_file paths id (share_dir paths ++ [name]) encoded secret)
    (λ _ w', keeps (λ q, q = share_dir paths ++ [name]) w w'
             ∧ ∃ data, encoded = Ok data ∧ file_at (w_fs w') (share_dir paths ++ [name]) = Some data)
    (λ _ w', keeps (meta_files paths) w w') w.
Proof.
  intros [Hnp Hnd]. unfold write_share_file, ensure_share_id. wp_simpl. case_decide; wp_simpl; [|done].
  set (P := λ q, q = share_dir paths ++ [name]).
  assert (∀ v v', keeps P v v' → keeps (meta_files paths) v v') as HP.
  { intros v v'. apply keeps_mono. intros q ->. by exists name. }
  eapply wp_mono; [apply (wp_create_dir_all_any P)| |intros; by apply HP].
  cbn beta. intros _ w1 Hk1. wp_simpl. destruct encoded as [data| | |]; cbn [result_map_err]; [|by apply HP|done|done].
  wp_simpl. eapply wp_mono; [apply (wp_write_file_atomic_any (meta_files paths))| |].
  - by destruct (share_dir paths).
  - intros pid nanos. rewrite tmp_path_snoc. by eexists.
  - cbn beta. intros _ w2 [Hk2 Hf]. split; [by etrans|by exists data].
  - cbn beta. intros _ w2 Hk2. etrans; [by apply HP|done].
Qed.

Lemma wp_write_share_file_any paths id name encoded secret w :
  encodable encoded →
  wp (write_share_file paths id (share_dir paths ++ [name]) encoded secret)
    (λ _ w', keeps (meta_files paths) w w') (λ _ w', keeps (meta_files paths) w w') w.
Proof.
  intros He. eapply wp_mono; [by apply wp_write_share_file_exact| |done]. cbn beta. intros _ w' [Hk _].
  eapply keeps_mono; [|exact Hk]. intros q ->. by exists name.
Qed.

(** ** Encodings never panic on 32-bit chunk numbers *)
Section encodable.
Context `{DiskFormat}.

Lemma ok_or_encodable {A} (f : A → bytes) (o : option A) : encodable (result_bind (ok_or o tt) (λ a, Ok (f a))).
Proof. by destruct o. Qed.

Lemma progress_encodable p : Forall u32_range (dp_completed_chunks p) → encodable (DownloadProgress_to_bytes p).
Proof.
  intros Hr. unfold DownloadProgress_to_bytes, encode_progress, compact_from_progress.
  destruct (encode_bitmap_spec _ Hr) as (bm & -> & _). cbn [result_bind]. unfold encode_with_magic.
  apply ok_or_encodable.
Qed.

Lemma state_encodable s : Forall u32_range (ss_completed_chunks s) → encodable (ShareState_to_bytes s).
Proof.
  intros Hr. unfold ShareState_to_bytes, encode_state, compact_from_state.
  destruct (encode_bitmap_spec _ Hr) as (bm & -> & _). cbn [result_bind]. unfold encode_with_magic.
  apply ok_or_encodable.
Qed.

Lemma encoded_with_magic {A} `{Bincode A} magic (a : A) :
  is_Some (bincode_encode a) → ∃ b, encode_with_magic magic a = Ok b.
Proof. intros [b Hb]. unfold encode_with_magic. rewrite Hb. by eexists. Qed.

Lemma progress_encodes `{!DiskEncodes} p :
  Forall u32_range (dp_completed_chunks p) → ∃ b, DownloadProgress_to_bytes p = Ok b.
Proof.
  intros Hr. unfold DownloadProgress_to_bytes, encode_progress, compact_from_progress.
  destruct (encode_bitmap_spec _ Hr) as (bm & -> & _). apply encoded_with_magic, encodes_progress.
Qed.

Lemma state_encodes `{!DiskEncodes} s :
  Forall u32_range (ss_completed_chunks s) → ∃ b, ShareState_to_bytes s = Ok b.
Proof.
  intros Hr. unfold ShareState_to_bytes, encode_state, compact_from_state.
  destruct (encode_bitmap_spec _ Hr) as (bm & -> & _). apply encoded_with_magic, encodes_state.
Qed.

Lemma from_progress_range mode out p :
  Forall u32_range (dp_completed_chunks p) → Forall u32_range (ss_completed_chunks (from_progress mode out p)).
Proof. intros Hr. apply (normalize_wf _ Hr). Qed.
End encodable.

(** [wp_call H] runs a call by its specification [H]; [keep] composes [keeps]. *)
Tactic Notation "wp_call" open_constr(H) := eapply wp_mono; [eapply H | cbn beta | cbn beta].
Ltac keep := solve [ eassumption | by apply stepped_keeps | etrans; [eassumption|]; keep ].

(** * Specifications of the library state *)
Section library_state_spec.
Context `{Blake3} `{DiskFormat}.

(** The chunk numbers of the progress are 32-bit numbers. *)
Definition active_ok (st : ActiveDownloadLibraryState) : Prop :=
  Forall u32_range (dp_completed_chunks (ad_progress st)).

Lemma wp_write_progress_any paths p w :
  Forall u32_range (dp_completed_chunks p) →
  wp (write_progress paths p) (λ _ w', keeps (meta_files paths) w w') (λ _ w', keeps (meta_files paths) w w') w.
Proof.
  intros Hr. by apply wp_write_share_file_any, progress_encodable.
Qed.

Lemma wp_write_state_any paths s w :
  Forall u32_range (ss_completed_chunks s) →
  wp (write_state paths s) (λ _ w', keeps (meta_files paths) w w') (λ _ w', keeps (meta_files paths) w w') w.
Proof.
  intros Hr. by apply wp_write_share_file_any, state_encodable.
Qed.

(** Writing the progress and the state that belongs to it. *)
Lemma wp_write_both {A} paths p mode out (k : net A) (Q : A → World → Prop) (R : NetworkError → World → Prop) w :
  Forall u32_range (dp_completed_chunks p) →
  (∀ e w', keeps (meta_files paths) w w' → R e w') →
  (∀ w', keeps (meta_files paths) w w' → wp k Q R w') →
  wp (do! map_err NE_File (write_progress paths p) in
      do! map_err NE_File (write_state paths (from_progress mode out p)) in k) Q R w.
Proof.
  intros Hr HR HQ. wp_simpl. wp_call wp_write_progress_any; [done| |intros; by apply HR].
  intros _ w1 Hk1. wp_simpl. wp_call wp_write_state_any; [by apply from_progress_range| |].
  - intros _ w2 Hk2. apply HQ. keep.
  - intros e w2 Hk2. apply HR. keep.
Qed.

(** What a successful [init] leaves in the share, in any file system. *)
Lemma wp_library_init_exact root descriptor file_key mode out w :
  Forall u32_range (cm_index <$> d_chunks descriptor) →
  let id := d_share_id descriptor in
  wp (library_init root descriptor file_key mode out)
    (λ paths w', paths = for_share root id ∧ keeps (meta_files paths) w w'
       ∧ (∃ b, EtleDescriptor_to_bytes descriptor = Some b ∧ file_at (w_fs w') (descriptor_path paths) = Some b)
       ∧ ∃ b, EtleSecret_to_bytes (EtleSecret_new id file_key) = Some b
              ∧ file_at (w_fs w') (secret_path paths) = Some b)
    (λ _ w', keeps (meta_files (for_share root id)) w w') w.
Proof.
  intros Hr id. unfold library_init. set (paths := for_share _ _). wp_simpl.
  assert (Forall u32_range (dp_completed_chunks (initial_progress descriptor mode))) as Hp.
  { unfold initial_progress. destruct mode; try constructor; by apply normalize_wf. }
  assert (∀ o : option bytes, encodable (ok_or o tt)) as Hoe by (by intros []).
  assert (∀ name v v', keeps (λ q, q = share_dir paths ++ [name]) v v' → keeps (meta_files paths) v v') as Hm.
  { intros name v v'. apply keeps_mono. intros q ->. by exists name. }
  assert (∀ (name x : string) v v', keeps (λ q, q = share_dir paths ++ [name]) v v' →
     x ≠ name → file_at (w_fs v') (share_dir paths ++ [x]) = file_at (w_fs v) (share_dir paths ++ [x])) as Hother.
  { intros name x v v' [_ Hf] Hne. apply Hf. intros [_ Heq]%app_inj_tail. congruence. }
  wp_call (wp_create_dir_all_any (meta_files paths)); [|done]. intros _ w1 Hk1. wp_simpl.
  wp_call (wp_create_dir_all_any (meta_files paths)); [|intros; keep]. intros _ w2 Hk2. wp_simpl.
  wp_call wp_write_share_file_exact; [apply Hoe| |intros; keep]. intros _ w3 [Hk3 (bd & Hbd & Hd3)]. wp_simpl.
  pose proof (Hm _ _ _ Hk3) as Hm3.
  wp_call wp_write_share_file_exact; [apply Hoe| |intros; keep]. intros _ w4 [Hk4 (bs & Hbs & Hs4)]. wp_simpl.
  pose proof (Hm _ _ _ Hk4) as Hm4.
  wp_call wp_write_share_file_exact; [by apply progress_encodable| |intros; keep]. intros _ w5 [Hk5 _]. wp_simpl.
  pose proof (Hm _ _ _ Hk5) as Hm5.
  wp_call wp_write_share_file_exact; [by apply state_encodable, from_progress_range| |intros; keep].
  intros _ w6 [Hk6 _]. wp_simpl. pose proof (Hm _ _ _ Hk6) as Hm6. apply ok_or_Ok in Hbd, Hbs.
  split_and!; [done|keep| |].
  - exists bd. split; [done|]. unfold descriptor_path. by rewrite (Hother _ _ _ _ Hk6), (Hother _ _ _ _ Hk5),
      (Hother _ _ _ _ Hk4).
  - exists bs. split; [done|]. unfold secret_path. by rewrite (Hother _ _ _ _ Hk6), (Hother _ _ _ _ Hk5).
Qed.

Lemma wp_library_init_any root descriptor file_key out w :
  wp (library_init root descriptor file_key Downloading out)
    (λ paths w', paths = for_share root (d_share_id descriptor) ∧ keeps (meta_files paths) w w')
    (λ _ w', keeps (meta_files (for_share root (d_share_id descriptor))) w w') w.
Proof.
  unfold library_init. set (paths := for_share _ _). wp_simpl.
  wp_call (wp_create_dir_all_any (meta_files paths)); [|done]. intros _ w1 Hk1. wp_simpl.
  wp_call (wp_create_dir_all_any (meta_files paths)); [|intros; keep]. intros _ w2 Hk2. wp_simpl.
  assert (∀ o : option bytes, encodable (ok_or o tt)) as Hoe by (by intros []).
  wp_call wp_write_share_file_any; [apply Hoe| |intros; keep]. intros _ w3 Hk3. wp_simpl.
  wp_call wp_write_share_file_any; [apply Hoe| |intros; keep]. intros _ w4 Hk4. wp_simpl.
  wp_call wp_write_progress_any; [constructor| |intros; keep]. intros _ w5 Hk5. wp_simpl.
  wp_call wp_write_state_any; [by apply from_progress_range| |intros; keep].
  intros _ w6 Hk6. wp_simpl. split; [done|keep].
Qed.

Lemma wp_now {E} (Q : Z → World → Prop) (R : E → World → Prop) w :
  (∀ t w', stepped w w' → Q t w') → wp now Q R w.
Proof. intros HQ. unfold wp, now. by apply HQ. Qed.

Lemma wp_flush_download_progress st mode out w :
  active_ok st →
  wp (flush_download_progress st mode out)
    (λ st' w', keeps (meta_files (ad_paths st)) w w'
               ∧ ad_paths st' = ad_paths st ∧ ad_progress st' = ad_progress st)
    (λ _ w', keeps (meta_files (ad_paths st)) w w') w.
Proof.
  intros Hok. apply wp_write_both; [done|done|]. intros w1 Hk1. wp_simpl.
  apply wp_now. intros t w2 Hst. wp_simpl. split_and!; [keep|done|done].
Qed.

Lemma wp_maybe_flush st out w :
  active_ok st →
  wp (maybe_flush_download_progress st out)
    (λ st' w', keeps (meta_files (ad_paths st)) w w'
               ∧ ad_paths st' = ad_paths st ∧ ad_progress st' = ad_progress st)
    (λ _ w', keeps (meta_files (ad_paths st)) w w') w.
Proof.
  intros Hok. unfold maybe_flush_download_progress, should_flush_download_progress. wp_simpl.
  case_decide; wp_simpl; [by apply wp_flush_download_progress|].
  apply wp_now. intros t w1 Hst. wp_simpl. case_bool_decide; wp_simpl.
  - wp_call wp_flush_download_progress; [done| |].
    + intros st' w2 (Hk & ? & ?). split_and!; [|done|done]. etrans; [by apply stepped_keeps|done].
    + intros e w2 Hk. etrans; [by apply stepped_keeps|done].
  - split_and!; [by apply stepped_keeps|done|done].
Qed.

Lemma wp_mark_download_library_complete st out w :
  active_ok st →
  wp (mark_download_library_complete (Some st) out)
    (λ _ w', keeps (meta_files (ad_paths st)) w w') (λ _ w', keeps (meta_files (ad_paths st)) w w') w.
Proof.
  intros Hok. cbn [mark_download_library_complete]. wp_simpl.
  eapply (wp_mono _ (λ st' w', keeps (meta_files (ad_paths st)) w w'
            ∧ ad_paths st' = ad_paths st ∧ ad_progress st' = ad_progress st)
            _ (λ _ w', keeps (meta_files (ad_paths st)) w w')).
  - case_decide; [by apply wp_flush_download_progress|]. by wp_simpl.
  - intros st' w1 (Hk1 & Hp & Hpr). wp_simpl. rewrite Hp, Hpr.
    wp_call wp_write_state_any; [by apply from_progress_range| |intros; keep].
    intros _ w2 Hk2. wp_simpl. keep.
  - done.
Qed.
End library_state_spec.

(** * Persisting a received chunk *)
Section persist_spec.
Context `{Blake3} `{DiskFormat}.

(** The files a received chunk may change: the metadata of the share, hidden
    files, the temporary file and the chunk's own file. *)
Definition persist_files (paths : LibraryPaths) (index : Z) (temp : option path) (q : path) : Prop :=
  meta_files paths q ∨ hidden_files paths q ∨ temp = Some q ∨ q = chunk_path paths index.

(** What the chunk's file may hold afterwards: what it held, nothing, or [d]. *)
Definition chunk_replaced (paths : LibraryPaths) (index : Z) (d : bytes) (w w' : World) : Prop :=
  file_at (w_fs w') (chunk_path paths index) ∈
    [file_at (w_fs w) (chunk_path paths index); None; Some d].

Lemma keeps_meta_persist paths index temp w w' :
  keeps (meta_files paths) w w' → keeps (persist_files paths index temp) w w'.
Proof. apply keeps_mono. intros q Hq. by left. Qed.

Lemma keeps_meta_chunk paths i w w' :
  keeps (meta_files paths) w w' →
  file_at (w_fs w') (chunk_path paths i) = file_at (w_fs w) (chunk_path paths i).
Proof. intros [_ Hf]. apply Hf, meta_files_chunk. Qed.

Lemma mark_persisted_ok st index :
  progress_wf (ad_progress st) → u32_range index →
  progress_wf (ad_progress (mark_persisted st index)) ∧ active_ok (mark_persisted st index).
Proof.
  intros Hwf Hi. assert (progress_wf (mark_completed (ad_progress st) index)) as Hwf'
    by (by apply mark_completed_wf). split; [done|]. apply Hwf'.
Qed.

(** The last step of both ways of persisting. *)
Lemma wp_persisted st index out d w0 w :
  progress_wf (ad_progress st) → u32_range index →
  file_at (w_fs w) (chunk_path (ad_paths st) index) = Some d →
  wp (let! state := maybe_flush_download_progress (mark_persisted st index) out in ret (Some state))
    (λ r w', keeps (meta_files (ad_paths st)) w w'
       ∧ file_at (w_fs w') (chunk_path (ad_paths st) index) = Some d
       ∧ ∃ st', r = Some st' ∧ ad_paths st' = ad_paths st
                ∧ ad_progress st' = mark_completed (ad_progress st) index)
    (λ _ w', keeps (meta_files (ad_paths st)) w w' ∧ chunk_replaced (ad_paths st) index d w0 w') w.
Proof.
  intros Hwf Hi Hd. destruct (mark_persisted_ok st index Hwf Hi) as [_ Hok]. wp_simpl.
  wp_call wp_maybe_flush; [exact Hok| |].
  - intros st' w' (Hk & Hp & Hpr). wp_simpl. split; [done|]. split; [by rewrite (keeps_meta_chunk _ _ _ _ Hk)|].
    by exists st'.
  - intros e w' Hk. split; [done|]. unfold chunk_replaced.
    assert (file_at (w_fs w') (chunk_path (ad_paths st) index) = Some d) as ->
      by (by rewrite (keeps_meta_chunk _ _ _ _ Hk)). right. right. left.
Qed.

(** A stored chunk has the content its temporary file had; a failure leaves the
    old chunk or none. *)
Lemma wp_store_chunk_file paths index temp w :
  temp ≠ chunk_path paths index →
  wp (store_chunk_file paths index temp)
    (λ _ w', keeps (persist_files paths index (Some temp)) w w'
       ∧ ∃ d, file_at (w_fs w) temp = Some d ∧ file_at (w_fs w') (chunk_path paths index) = Some d)
    (λ _ w', keeps (persist_files paths index (Some temp)) w w'
       ∧ file_at (w_fs w') (chunk_path paths index) ∈ [file_at (w_fs w) (chunk_path paths index); None]) w.
Proof.
  intros Hne. unfold store_chunk_file.
  set (P := persist_files paths index (Some temp)). set (final := chunk_path paths index) in *. wp_simpl.
  assert (P temp ∧ P final) as [HPt HPf] by (split; [right; right; by left|right; right; by right]).
  wp_call (wp_create_dir_all_any (λ _, False)).
  2: { intros e w' Hk. split; [eapply keeps_mono; [|exact Hk]; done|].
       destruct Hk as [_ Hf]. rewrite Hf by auto. left. }
  intros _ w1 Hk1. wp_simpl. assert (keeps P w w1) as HkP1 by (eapply keeps_mono; [|exact Hk1]; done).
  assert (∀ q, file_at (w_fs w1) q = file_at (w_fs w) q) as Hf1 by (intros q; apply Hk1; auto).
  eapply (wp_mono _ (λ _ w2, keeps P w w2 ∧ file_at (w_fs w2) temp = file_at (w_fs w) temp
            ∧ file_at (w_fs w2) final ∈ [file_at (w_fs w) final; None])
            _ (λ _ w2, keeps P w w2 ∧ file_at (w_fs w2) final ∈ [file_at (w_fs w) final; None])).
  - destruct (path_exists final w1); wp_simpl.
    + apply wp_remove_file.
      * intros k w2 Hst _. split; [keep|]. destruct Hst as (_ & -> & _). rewrite Hf1. left.
      * intros d' w2 _ Hst. split; [etrans; [exact HkP1|]|].
        -- eapply fs_step_keeps; [done|]. intros q Hq. rewrite file_at_delete, decide_False; [done|congruence].
        -- rewrite (fs_step_fs _ _ _ Hst), !file_at_delete, decide_False, decide_True by done.
           split; [by rewrite Hf1|]. right. left.
    + split_and!; [done|by rewrite Hf1|]. rewrite Hf1. left.
  - cbn beta. intros _ w2 (Hk2 & Hd2 & Hfin2). wp_simpl. apply wp_rename.
    + intros k w3 Hst _. split; [keep|]. destruct Hst as (_ & -> & _). exact Hfin2.
    + intros d' w3 Hd' Hst. rewrite <- Hd2.
      assert (keeps P w w3) as Hk3.
      { etrans; [exact Hk2|]. eapply fs_step_keeps; [done|]. intros q Hq.
        rewrite file_at_insert_ne, file_at_delete, decide_False; congruence. }
      split; [done|]. exists d'. split; [done|]. rewrite (fs_step_fs _ _ _ Hst). apply file_at_insert_eq.
  - done.
Qed.

Lemma wp_write_chunk_any paths chunk w :
  0 ≤ ec_index chunk →
  wp (map_err NE_File (write_chunk paths chunk))
    (λ _ w', keeps (persist_files paths (ec_index chunk) None) w w'
       ∧ file_at (w_fs w') (chunk_path paths (ec_index chunk)) = Some (ec_data chunk))
    (λ _ w', keeps (persist_files paths (ec_index chunk) None) w w'
       ∧ file_at (w_fs w') (chunk_path paths (ec_index chunk))
         = file_at (w_fs w) (chunk_path paths (ec_index chunk))) w.
Proof.
  intros Hi. unfold write_chunk. set (P := persist_files paths (ec_index chunk) None). wp_simpl.
  wp_call (wp_create_dir_all_any (λ _, False)).
  2: { intros e w' Hk. split; [eapply keeps_mono; [|exact Hk]; done|].
       destruct Hk as [_ Hf]. by rewrite Hf by auto. }
  intros _ w1 Hk1. wp_simpl. assert (keeps P w w1) as HkP1 by (eapply keeps_mono; [|exact Hk1]; done).
  wp_call (wp_write_file_atomic_any (hidden_files paths)).
  - unfold chunk_path. by destruct (chunks_dir paths).
  - intros pid nanos. unfold chunk_path. rewrite tmp_path_snoc. eexists. split; [done|].
    intros Hpl. apply Hpl, tmp_name_head.
  - intros _ w2 [Hk2 Hd2]. wp_simpl. split; [|exact Hd2].
    etrans; [exact HkP1|]. eapply keeps_mono; [|exact Hk2]. intros q ->. by right; right; right.
  - intros e w2 Hk2. split.
    + etrans; [exact HkP1|]. eapply keeps_mono; [|exact Hk2]. intros q Hq. right. by left.
    + destruct Hk2 as [_ ->]; [|by apply hidden_files_chunk]. destruct Hk1 as [_ ->]; auto.
Qed.

Lemma wp_persist_downloaded_chunk_file st index temp out d w :
  progress_wf (ad_progress st) → u32_range index → file_at (w_fs w) temp = Some d →
  temp ≠ chunk_path (ad_paths st) index →
  wp (persist_downloaded_chunk_file (Some st) index temp out)
    (λ r w', keeps (persist_files (ad_paths st) index (Some temp)) w w'
       ∧ file_at (w_fs w') (chunk_path (ad_paths st) index) = Some d
       ∧ ∃ st', r = Some st' ∧ ad_paths st' = ad_paths st
                ∧ ad_progress st' = mark_completed (ad_progress st) index)
    (λ _ w', keeps (persist_files (ad_paths st) index (Some temp)) w w'
       ∧ chunk_replaced (ad_paths st) index d w w') w.
Proof.
  intros Hwf Hi Hd Hne. cbn [persist_downloaded_chunk_file]. wp_simpl.
  wp_call wp_store_chunk_file; [done| |].
  - intros _ w3 (Hk3 & d' & Hd' & Hd3). simplify_eq. wp_simpl. apply wp_unbind.
    wp_call (wp_persisted st index out d w); [done|done|exact Hd3| |].
    + intros r w4 (Hk & Hd4 & Hr). split; [etrans; [exact Hk3|by apply keeps_meta_persist]|done].
    + intros e w4 [Hk Hc]. split; [etrans; [exact Hk3|by apply keeps_meta_persist]|done].
  - intros e w3 [Hk3 Hf3]. split; [done|]. unfold chunk_replaced. set_solver.
Qed.

Lemma wp_persist_downloaded_chunk st chunk out w :
  progress_wf (ad_progress st) → u32_range (ec_index chunk) →
  wp (persist_downloaded_chunk (Some st) chunk out)
    (λ r w', keeps (persist_files (ad_paths st) (ec_index chunk) None) w w'
       ∧ file_at (w_fs w') (chunk_path (ad_paths st) (ec_index chunk)) = Some (ec_data chunk)
       ∧ ∃ st', r = Some st' ∧ ad_paths st' = ad_paths st
                ∧ ad_progress st' = mark_completed (ad_progress st) (ec_index chunk))
    (λ _ w', keeps (persist_files (ad_paths st) (ec_index chunk) None) w w'
       ∧ chunk_replaced (ad_paths st) (ec_index chunk) (ec_data chunk) w w') w.
Proof.
  intros Hwf Hi. cbn [persist_downloaded_chunk]. apply wp_bind.
  wp_call wp_write_chunk_any; [apply Hi| |].
  - intros _ w2 [Hk2 Hd2]. wp_simpl. apply wp_unbind.
    wp_call (wp_persisted st (ec_index chunk) out (ec_data chunk) w); [done|done|exact Hd2| |].
    + intros r w4 (Hk & Hd4 & Hr). split; [etrans; [exact Hk2|by apply keeps_meta_persist]|done].
    + intros e w4 [Hk Hc]. split; [etrans; [exact Hk2|by apply keeps_meta_persist]|done].
  - intros e w2 [Hk2 Hd2]. split; [done|]. unfold chunk_replaced. rewrite Hd2. left.
Qed.
End persist_spec.

(** * Reusing chunks *)
Section resume_spec.
Context `{Blake3} `{DiskFormat}.

(** The chunk file of [i] matches the hash the manifest gives for [i]. *)
Definition verified (m : fs) (paths : LibraryPaths) (metas : list ChunkMeta) (i : Z) : Prop :=
  ∃ meta d, meta ∈ metas ∧ cm_index meta = i ∧ file_at m (chunk_path paths i) = Some d
            ∧ hash_chunk d = cm_blake3_hash meta.

(** The chunk is recorded as complete and its file has the right size and hash. *)
Definition resumable (m : fs) (st : ActiveDownloadLibraryState) (meta : ChunkMeta) : Prop :=
  has_chunk (ad_progress st) (cm_index meta) = true
  ∧ ∃ d, file_at m (chunk_path (ad_paths st) (cm_index meta)) = Some d
         ∧ zlen d = cm_encrypted_size meta ∧ hash_chunk d = cm_blake3_hash meta.

Lemma wp_read_chunk paths index size (Q : EncryptedChunk → World → Prop) (R : FileError → World → Prop) w :
  (∀ e w', stepped w w' →
     (no_faults w → ∀ d, file_at (w_fs w) (chunk_path paths index) = Some d → zlen d ≠ size) → R e w') →
  (∀ d w', file_at (w_fs w) (chunk_path paths index) = Some d → zlen d = size → stepped w w' →
     Q (mkEncryptedChunk index d) w') →
  wp (read_chunk paths index size) Q R w.
Proof.
  intros HR HQ. unfold read_chunk. wp_simpl. apply wp_read_file.
  - intros k w' Hst Hwhy. apply HR; [done|]. intros Hnf d Hd. destruct Hwhy; [done|congruence].
  - intros d w' Hd Hst. wp_simpl. case_decide as Hsz; wp_simpl; [|by apply HQ].
    apply HR; [done|]. intros _ d' Hd'. congruence.
Qed.

Lemma wp_resumable_chunk st meta w :
  wp (resumable_chunk st meta)
    (λ r w', stepped w w' ∧
       match r with
       | Some c => resumable (w_fs w) st meta ∧ ec_index c = cm_index meta
                   ∧ file_at (w_fs w) (chunk_path (ad_paths st) (cm_index meta)) = Some (ec_data c)
       | None => ¬ resumable (w_fs w) st meta
       end) (λ _ w', stepped w w') w.
Proof.
  unfold resumable_chunk, library_has_chunk, is_file. wp_simpl.
  destruct (has_chunk (ad_progress st) (cm_index meta)) eqn:Hhas; cbn [negb orb]; wp_simpl.
  2: { split; [done|]. intros [? _]. congruence. }
  case_bool_decide as Hf; cbn [negb]; wp_simpl.
  2: { split; [done|]. intros (_ & d & Hd & _). apply Hf. by exists d. }
  apply wp_read_chunk; [done|]. intros d w' Hd Hsz Hst. wp_simpl. cbn [ec_data]. case_decide; wp_simpl.
  - split_and!; [done| |done|done]. split; [done|]. by exists d.
  - split; [done|]. intros (_ & d' & Hd' & _ & ?). congruence.
Qed.

Lemma wp_load_indexes_loop st metas w :
  Forall ChunkMeta_wf metas →
  wp (mfold (load_indexes_round st) (∅, DownloadProgress_empty (lp_share_id (ad_paths st))) metas)
    (λ r w', stepped w w' ∧ progress_wf r.2 ∧ r.1 = progress_set r.2
       ∧ ∀ i, i ∈ r.1 ↔ ∃ meta, meta ∈ metas ∧ cm_index meta = i ∧ resumable (w_fs w) st meta)
    (λ _ w', stepped w w') w.
Proof.
  intros Hwf. apply (wp_mfold _ (λ done_ r w', stepped w w' ∧ progress_wf r.2 ∧ r.1 = progress_set r.2
       ∧ ∀ i, i ∈ r.1 ↔ ∃ meta, meta ∈ done_ ∧ cm_index meta = i ∧ resumable (w_fs w) st meta)).
  - split_and!; [done|split; constructor|done|]. intros i. cbn [fst]. split; [set_solver|].
    intros (meta & Hm & _). by apply not_elem_of_nil in Hm.
  - intros done_ meta rest [completed p] w1 -> (Hst & Hp & Hset & Hin). cbn [fst snd] in *.
    assert (u32_range (cm_index meta)) as Hi.
    { rewrite Forall_forall in Hwf. apply (Hwf meta). apply elem_of_app. right. left. }
    unfold load_indexes_round. wp_simpl. wp_call wp_resumable_chunk; [|intros e w2 Hst2; by etrans].
    rewrite (stepped_fs _ _ Hst).
    assert (∀ i, (∃ m, m ∈ done_ ++ [meta] ∧ cm_index m = i ∧ resumable (w_fs w) st m)
                 ↔ i ∈ completed ∨ (cm_index meta = i ∧ resumable (w_fs w) st meta)) as Hsnoc.
    { intros i. rewrite Hin. setoid_rewrite elem_of_app. setoid_rewrite list_elem_of_singleton. naive_solver. }
    intros [c|] w2 [Hst2 Hr]; wp_simpl; (split; [by etrans|]); cbn [fst snd].
    + split; [by apply mark_completed_wf|]. split; [by rewrite mark_completed_set, Hset|].
      intros i. rewrite Hsnoc, elem_of_union, elem_of_singleton. naive_solver.
    + split_and!; [done|done|]. intros i. rewrite Hsnoc. naive_solver.
Qed.

Lemma wp_save_valid_progress st valid out w :
  progress_wf valid →
  wp (save_valid_progress st valid out)
    (λ st' w', keeps (meta_files (ad_paths st)) w w' ∧ ad_paths st' = ad_paths st ∧ ad_progress st' = valid)
    (λ _ w', keeps (meta_files (ad_paths st)) w w') w.
Proof.
  intros Hp. unfold save_valid_progress. cbv zeta. cbn [ad_paths ad_progress].
  apply wp_write_both; [apply Hp|done|]. intros w1 Hk. by wp_simpl.
Qed.

Lemma wp_load_resumable_chunk_indexes st manifest out w :
  Forall ChunkMeta_wf (mf_chunks manifest) →
  wp (load_resumable_chunk_indexes (Some st) manifest out)
    (λ r w', keeps (meta_files (ad_paths st)) w w'
       ∧ (∀ i, i ∈ r.1 ↔ ∃ meta, meta ∈ mf_chunks manifest ∧ cm_index meta = i ∧ resumable (w_fs w) st meta)
       ∧ ∃ st', r.2 = Some st' ∧ ad_paths st' = ad_paths st ∧ progress_wf (ad_progress st')
                ∧ r.1 = progress_set (ad_progress st'))
    (λ _ w', keeps (meta_files (ad_paths st)) w w') w.
Proof.
  intros Hwf. cbn [load_resumable_chunk_indexes]. wp_simpl.
  wp_call wp_load_indexes_loop; [done| |intros; by apply stepped_keeps].
  intros [completed p] w1 (Hst & Hp & Hset & Hin). cbn [fst snd] in *. wp_simpl.
  wp_call wp_save_valid_progress; [done| |].
  - intros st' w2 (Hk & Hpa & Hpr). wp_simpl. cbn [fst snd].
    split; [etrans; [by apply stepped_keeps|done]|]. split; [done|]. exists st'. by rewrite Hpr.
  - intros e w2 Hk. etrans; [by apply stepped_keeps|done].
Qed.

(** What is reused is verified, also after the progress was written. *)
Lemma resumable_verified m m' st metas i :
  (∀ i, file_at m' (chunk_path (ad_paths st) i) = file_at m (chunk_path (ad_paths st) i)) →
  (∃ meta, meta ∈ metas ∧ cm_index meta = i ∧ resumable m st meta) → verified m' (ad_paths st) metas i.
Proof.
  intros Hm (meta & Hin & <- & _ & d & Hd & _ & Hh). exists meta, d. split_and!; [done|done|by rewrite Hm|done].
Qed.
End resume_spec.

(** * Starting a download *)
Section start_spec.
Context `{Blake3} `{DiskFormatTyped}.

Lemma decode_exact_Ok {A} `{Bincode A} label b (a : A) :
  decode_exact label b = Ok a → ∃ n, bincode_decode b = Some (a, n).
Proof.
  unfold decode_exact. destruct (bincode_decode b) as [[a' n]|]; [|done]. cbn [ok_or result_bind fst snd].
  case_decide; [|done]. intros [= ->]. by exists n.
Qed.

Lemma progress_from_bytes_range b p :
  DownloadProgress_from_bytes b = Ok p → Forall u32_range (dp_completed_chunks p).
Proof using All.
  unfold DownloadProgress_from_bytes, decode_progress. destruct (strip_magic _ _) as [pl|].
  - rewrite result_bind_Ok. intros (c & _ & [= <-]). apply into_progress_wf.
  - intros (n & Hn)%decode_exact_Ok. by eapply df_progress_typed.
Qed.

Lemma wp_resume_progress paths id resume w :
  wp (resume_progress paths id resume)
    (λ p w', stepped w w' ∧ Forall u32_range (dp_completed_chunks p)) (λ _ w', stepped w w') w.
Proof using All.
  unfold resume_progress. wp_simpl. destruct (resume && is_file (progress_path paths) w); wp_simpl.
  2: { split; [done|]. constructor. }
  eapply (wp_mono _ (λ _ w', stepped w w') _ (λ _ w', stepped w w')).
  - destruct (is_file (descriptor_path paths) w); wp_simpl; [|done].
    apply wp_read_descriptor; [done|]. intros b d w' _ _ _ _ Hst. by wp_simpl.
  - intros _ w1 Hst1. wp_simpl. apply wp_read_progress.
    + intros e w2 Hst2. wp_simpl. split; [by etrans|constructor].
    + intros b p w2 Hb Hp _ Hst2. wp_simpl. split; [by etrans|]. by eapply progress_from_bytes_range.
  - done.
Qed.

Lemma wp_initialize_download_library_state root descriptor key out resume w :
  wp (initialize_download_library_state (Some root) descriptor key out resume)
    (λ r w', keeps (meta_files (for_share root (d_share_id descriptor))) w w'
       ∧ ∃ st, r = Some st ∧ ad_paths st = for_share root (d_share_id descriptor) ∧ active_ok st)
    (λ _ w', keeps (meta_files (for_share root (d_share_id descriptor))) w w') w.
Proof using All.
  cbn [initialize_download_library_state]. wp_simpl.
  wp_call wp_resume_progress; [|intros; by apply stepped_keeps]. intros p w1 [Hst1 Hp]. wp_simpl.
  wp_call wp_library_init_any; [|intros; by etrans; [apply stepped_keeps|]].
  intros paths w2 [-> Hk2]. assert (keeps (meta_files (for_share root (d_share_id descriptor))) w w2) as Hk
    by (by etrans; [apply stepped_keeps|]). clear Hk2. case_decide.
  - wp_simpl. apply wp_now. intros t w3 Hst3. wp_simpl. split; [keep|]. by eexists.
  - apply wp_write_both; [done|intros; keep|]. intros w3 Hk3. wp_simpl.
    apply wp_now. intros t w4 Hst4. wp_simpl. split; [|by eexists].
    etrans; [exact Hk|]. etrans; [exact Hk3|by apply stepped_keeps].
Qed.
End start_spec.

(** * Claims *)


Import Toy.
Module DiskSample.
#[export] Instance formats : DiskFormat := {|
  df_descriptor := Toy.countable_bincode EtleDescriptor;
  df_secret := Toy.countable_bincode EtleSecret;
  df_compact_progress := Toy.countable_bincode CompactDownloadProgress;
  df_progress := Toy.filtered_bincode DownloadProgress (λ p, Forall u32_range (dp_completed_chunks p));
  df_compact_state := Toy.countable_bincode CompactShareState;
  df_state := Toy.countable_bincode ShareState;
|}.
#[export] Instance formats_encode : DiskEncodes.
Proof. split; intros ?; by eexists. Qed.
#[export] Instance formats_typed : DiskFormatTyped.
Proof.
  split. intros b p n Hd.
  exact (Toy.filtered_bincode_typed DownloadProgress (λ p, Forall u32_range (dp_completed_chunks p)) b p n Hd).
Qed.
Definition paths : LibraryPaths := for_share [] (mkShareId (array_repeat 32 Byte.x07)).
Definition state : ActiveDownloadLibraryState :=
  mkActive paths (DownloadProgress_new (lp_share_id paths) [0; 3]) 0 0.
Definition data : bytes := str_bytes "chunk".
Definition manifest : Manifest :=
  mkManifest (hash_file_id data) "f" 5 5
    [mkChunkMeta 0 5 5 (mkNonce (array_repeat 24 Byte.x01)) (hash_chunk data)].
Definition world : World := CryptoSample.world {[ chunk_path paths 0 := File data ]} [].
End DiskSample.
Import DiskSample.


(** The sample resumes with its one valid chunk. *)
Example resume_sample :
  match (load_resumable_chunk_indexes (Some DiskSample.state) DiskSample.manifest None DiskSample.world).1 with
  | Ok (completed, _) => elements completed = [0]
  | _ => False
  end.
Proof. vm_compute. reflexivity. Qed.
