(* ===== verification/Reconstruct.v ===== *)
(** Rebuilding the file from the chunks of the library: the decryption functions
    of [network/transfer/download.rs].

    The parallel variant has worker threads that decrypt chunks and a consumer
    that writes them in manifest order, holding back what arrives early. The
    order of arrival is the argument [arrivals]; any permutation of the chunks is
    possible. Buffered output is written through: [BufWriter] delays writes, it
    does not change what they write. *)
From stdpp Require Import base tactics list countable strings gmap.
From Stdlib Require Import ZArith Lia.
From S2P Require Import Prelude Bytes World Files Extern Crypto Descriptor Storage State Library Codec Handshake DownloadState.
Local Open Scope Z_scope.
Local Open Scope etle_scope.

Record DecryptedChunk := mkDecryptedChunk { dc_index : Z; dc_data : bytes }.

Definition prepare_output_file_parent (output_path : path) : net unit :=
  match path_parent output_path with
  | Some [] | None => ret tt
  | Some parent => map_err NE_Io (create_dir_all parent)
  end.

(** [available_parallelism().map_or(2, usize::from).min(4).min(total_chunks)] *)
Definition default_decrypt_worker_count (total_chunks : Z) : net Z :=
  if decide (total_chunks ≤ 1) then ret 1
  else
    let! parallelism := gets (λ w, env_parallelism (w_env w)) in
    ret (Z.min (Z.min (default 2 parallelism) 4) total_chunks).

Section reconstruct.
Context `{Blake3, Aead} `{DiskFormat}.

Definition decrypt_library_chunk (paths : LibraryPaths) (file_id : FileId) (file_key : SymmetricKey)
    (meta : ChunkMeta) : net DecryptedChunk :=
  let! chunk := map_err NE_File (read_chunk paths (cm_index meta) (cm_encrypted_size meta)) in
  if decide (hash_chunk (ec_data chunk) ≠ cm_blake3_hash meta)
  then throw (NE_File (ChunkHashMismatch (cm_index meta)))
  else
    let aad := build_chunk_aad file_id (cm_index meta) (cm_plain_size meta) in
    let! data := lift_result (result_map_err NE_Crypto
                   (decrypt_chunk file_key (cm_nonce meta) (ec_data chunk) aad)) in
    if decide (zlen data ≠ cm_plain_size meta)
    then throw (NE_File (ChunkSizeMismatch (cm_index meta) (cm_plain_size meta) (zlen data)))
    else ret (mkDecryptedChunk (cm_index meta) data).

Definition finalize_streamed_output (output_path : path) (final_hasher : hasher) (expected_file_id : FileId)
    : net unit :=
  do! map_err NE_Io (file_sync output_path) in
  let final_hash := mkFileId (hasher_finalize final_hasher) in
  if decide (final_hash ≠ expected_file_id) then throw (NE_File FinalHashMismatch) else ret tt.

(** Hash and write one piece of plaintext, and report it. *)
Definition write_piece (paths : LibraryPaths) (output_path : path) (log_level : TransferLogLevel)
    (h : hasher) (data : bytes) (done total index : Z) : net hasher :=
  let h := hasher_update h data in
  do! map_err NE_Io (file_write_all output_path data) in
  do! for_share_progress (lp_share_id paths) "peer" "decrypted+written" log_level done total index (zlen data) in
  ret h.

Definition sequential_round (paths : LibraryPaths) (file_id : FileId) (file_key : SymmetricKey)
    (output_path : path) (log_level : TransferLogLevel) (total : Z) (st : hasher * Z) (meta : ChunkMeta)
    : net (hasher * Z) :=
  let '(h, offset) := st in
  let! decrypted := decrypt_library_chunk paths file_id file_key meta in
  let! h := write_piece paths output_path log_level h (dc_data decrypted) (offset + 1) total (cm_index meta) in
  ret (h, offset + 1).

Definition decrypt_library_chunks_to_file_sequential (paths : LibraryPaths) (manifest : Manifest)
    (file_key : SymmetricKey) (output_path : path) (log_level : TransferLogLevel) : net unit :=
  do! prepare_output_file_parent output_path in
  do! map_err NE_Io (file_create output_path) in
  let! st := mfold (sequential_round paths (mf_file_id manifest) file_key output_path log_level
                      (zlen (mf_chunks manifest))) (hasher_new, 0) (mf_chunks manifest) in
  finalize_streamed_output output_path st.1 (mf_file_id manifest).

(** The state of the consumer. *)
Record Consumer := mkConsumer {
  co_hasher : hasher;
  co_next_position : nat;
  co_pending : gmap Z bytes;
  co_first_error : option NetworkError;
}.

(** [while next_position < expected_order.len()]: write what can be written. *)
Definition drain_round (paths : LibraryPaths) (output_path : path) (log_level : TransferLogLevel)
    (expected_order : list Z) (st : Consumer) : net (Consumer + Consumer) :=
  match expected_order !! co_next_position st with
  | None => ret (inr st)
  | Some expected_index =>
      match co_pending st !! expected_index with
      | None => ret (inr st)
      | Some data =>
          let! h := write_piece paths output_path log_level (co_hasher st) data
                      (Z.of_nat (co_next_position st) + 1) (zlen expected_order) expected_index in
          ret (inl (mkConsumer h (S (co_next_position st)) (delete expected_index (co_pending st))
                      (co_first_error st)))
      end
  end.
Definition drain (paths : LibraryPaths) (output_path : path) (log_level : TransferLogLevel)
    (expected_order : list Z) (st : Consumer) : net Consumer :=
  mloop (S (length expected_order)) (drain_round paths output_path log_level expected_order) st.

(** One received result; after the first error the rest is discarded. *)
Definition consume (paths : LibraryPaths) (file_id : FileId) (file_key : SymmetricKey) (output_path : path)
    (log_level : TransferLogLevel) (expected_order : list Z) (st : Consumer) (meta : ChunkMeta) : net Consumer :=
  let! r := try_ (decrypt_library_chunk paths file_id file_key meta) in
  match r, co_first_error st with
  | Ok decrypted, None =>
      drain paths output_path log_level expected_order
        (mkConsumer (co_hasher st) (co_next_position st)
           (<[dc_index decrypted := dc_data decrypted]> (co_pending st)) None)
  | Err error, None => ret (mkConsumer (co_hasher st) (co_next_position st) (co_pending st) (Some error))
  | _, _ => ret st
  end.

Definition decrypt_library_chunks_to_file_parallel (paths : LibraryPaths) (manifest : Manifest)
    (file_key : SymmetricKey) (output_path : path) (arrivals : list ChunkMeta) (log_level : TransferLogLevel)
    : net unit :=
  do! prepare_output_file_parent output_path in
  do! map_err NE_Io (file_create output_path) in
  let expected_order := cm_index <$> mf_chunks manifest in
  let! st := mfold (consume paths (mf_file_id manifest) file_key output_path log_level expected_order)
               (mkConsumer hasher_new 0 ∅ None) arrivals in
  match co_first_error st with
  | Some error => throw error
  | None =>
      if decide (co_pending st = ∅)
      then finalize_streamed_output output_path (co_hasher st) (mf_file_id manifest)
      else throw (PeerError "parallel decrypt finished with unwritten chunks")
  end.

(** [schedule] is the order in which the workers happen to deliver. *)
Definition decrypt_library_chunks_to_file (schedule : list ChunkMeta → list ChunkMeta) (paths : LibraryPaths)
    (manifest : Manifest) (file_key : SymmetricKey) (output_path : path) (log_level : TransferLogLevel)
    : net unit :=
  let! worker_count := default_decrypt_worker_count (zlen (mf_chunks manifest)) in
  if decide (worker_count ≤ 1)
  then decrypt_library_chunks_to_file_sequential paths manifest file_key output_path log_level
  else decrypt_library_chunks_to_file_parallel paths manifest file_key output_path
         (schedule (mf_chunks manifest)) log_level.
End reconstruct.

(** * Writing the output *)
Section writing.
Context `{Blake3Laws, Aead} `{DiskFormat}.

(** Nothing was read from the connection or written to it. *)
Definition same_io (w w' : World) : Prop := w_in w' = w_in w ∧ w_out w' = w_out w.

(** Only the output changed, and directories on the way to it appeared. *)
Definition out_step (out : path) (w0 w : World) : Prop :=
  w_env w = w_env w0 ∧ same_io w0 w ∧ ∀ q, q ≠ out → node_kept (Some out) (w_fs w0) (w_fs w) q.

Global Instance out_step_preorder out : PreOrder (out_step out).
Proof.
  split.
  - intros w. split_and!; [done|done|]. by left.
  - intros w1 w2 w3 (E1 & [I1 O1] & F1) (E2 & [I2 O2] & F2). split; [congruence|].
    split; [split; congruence|]. intros q Hq. unfold node_kept in *.
    destruct (F1 q Hq) as [?|(? & ? & ?)], (F2 q Hq) as [?|(? & ? & ?)]; [left|right..]; split_and?; congruence || done.
Qed.

Lemma out_step_keeps out w0 w : out_step out w0 w → keeps (λ q, q = out) w0 w.
Proof. intros (E & _ & F). split; [done|]. intros q Hq. by eapply node_kept_file, F. Qed.

Lemma fs_step_out out w m w' :
  fs_step w m w' → (∀ q, q ≠ out → node_kept (Some out) (w_fs w) m q) → out_step out w w'.
Proof. intros (E & F & I & O & _) Hm. split; [done|]. split; [done|]. by rewrite F. Qed.

Lemma stepped_out out w w' : stepped w w' → out_step out w w'.
Proof. intros Hst. apply stepped_fs_step in Hst. eapply fs_step_out; [done|]. by left. Qed.

(** The pieces [ds] were hashed and are the content of the output; nothing else
    changed since [w0]. *)
Definition writing (w0 : World) (out : path) (ds : list bytes) (h : hasher) (w : World) : Prop :=
  h = hasher_updates hasher_new ds ∧ file_at (w_fs w) out = Some (concat ds) ∧ out_step out w0 w.

Lemma writing_keeps w0 out ds h w : writing w0 out ds h w → keeps (λ q, q = out) w0 w.
Proof. intros (_ & _ & Hk). by apply out_step_keeps. Qed.

Lemma writing_stepped w0 out ds h w w' : stepped w w' → writing w0 out ds h w → writing w0 out ds h w'.
Proof.
  intros Hst (Hh & Hf & Hk). split_and!; [done|by rewrite (stepped_fs _ _ Hst)|].
  etrans; [exact Hk|by apply stepped_out].
Qed.

Lemma wp_report_io id role action l a b c d (Q : unit → World → Prop) (R : NetworkError → World → Prop) w :
  (∀ w', w_env w' = w_env w → w_fs w' = w_fs w → same_io w w' → Q tt w') →
  wp (for_share_progress id role action l a b c d) Q R w.
Proof. intros HQ. destruct l; [by apply wp_ret, HQ|by apply HQ..]. Qed.

Lemma wp_for_share_progress id role action l a b c d (Q : unit → World → Prop) (R : NetworkError → World → Prop) w :
  (∀ w', w_env w' = w_env w → w_fs w' = w_fs w → Q tt w') →
  wp (for_share_progress id role action l a b c d) Q R w.
Proof. intros HQ. destruct l; [by apply wp_ret, HQ|by apply HQ..]. Qed.

Lemma keeps_same_fs P w w1 w2 : w_env w2 = w_env w1 → w_fs w2 = w_fs w1 → keeps P w w1 → keeps P w w2.
Proof. intros He Hf [E F]. split; [congruence|]. by rewrite Hf. Qed.

Lemma wp_write_piece w0 paths out l h ds data a b i (Q : hasher → World → Prop) (R : NetworkError → World → Prop) w :
  writing w0 out ds h w →
  (∀ e w', keeps (λ q, q = out) w0 w' → ¬ no_faults w0 → R e w') →
  (∀ w', writing w0 out (ds ++ [data]) (hasher_update h data) w' → Q (hasher_update h data) w') →
  wp (write_piece paths out l h data a b i) Q R w.
Proof.
  intros (Hh & Hf & Hk) HR HQ. unfold write_piece. wp_simpl.
  assert (∀ x, out_step out w0 (set_fs (append_at (w_fs w) out x) w)) as Happ.
  { intros x. etrans; [exact Hk|]. split; [done|]. split; [done|]. intros q Hq. left. cbn [w_fs set_fs]. unfold append_at.
    destruct (w_fs w !! out) as [[]|]; [|done|done]. by rewrite lookup_insert_ne. }
  apply wp_file_write_all.
  - intros k n w' Hst Hnf. apply HR; [|intros Hn; apply Hnf; by eapply no_faults_env; [apply Hk|]].
    apply out_step_keeps. etrans; [apply (Happ (take n data))|]. apply stepped_out, Hst.
  - intros w' Hst. wp_simpl. apply wp_report_io. intros w2 He2 Hf2 [Hi2 Ho2]. wp_simpl. apply HQ.
    split_and!.
    + by rewrite Hh, hasher_updates_snoc.
    + rewrite Hf2, (fs_step_fs _ _ _ Hst), concat_app. cbn [concat]. rewrite app_nil_r. unfold append_at.
      unfold file_at in Hf. destruct (w_fs w !! out) as [[d|]|]; [|done|done]. simplify_eq.
      apply file_at_insert_eq.
    + etrans; [apply (Happ data)|]. etrans; [apply stepped_out, Hst|]. split; [done|]. split; [done|]. rewrite Hf2. by left.
Qed.

Lemma wp_finalize w0 out h ds id (Q : unit → World → Prop) (R : NetworkError → World → Prop) w :
  writing w0 out ds h w →
  (∀ e w', keeps (λ q, q = out) w0 w' → (no_faults w0 → hash_file_id (concat ds) ≠ id) → R e w') →
  (∀ w', out_step out w0 w' → file_at (w_fs w') out = Some (concat ds) →
     hash_file_id (concat ds) = id → Q tt w') →
  wp (finalize_streamed_output out h id) Q R w.
Proof.
  intros (Hh & Hf & Hk) HR HQ. unfold finalize_streamed_output. wp_simpl. apply wp_file_sync.
  - intros k w' Hst Hnf. apply HR; [apply out_step_keeps; etrans; [exact Hk|by apply stepped_out]|]. intros Hn. exfalso. apply Hnf. by eapply no_faults_env; [apply Hk|].
  - intros w' Hst. wp_simpl. assert (out_step out w0 w') as Hk' by (etrans; [exact Hk|by apply stepped_out]). rewrite Hh, hasher_updates_hash.
    change (mkFileId (blake3_hash (concat ds))) with (hash_file_id (concat ds)).
    case_decide as Hid; wp_simpl; [apply HR; [by apply out_step_keeps|done]|]. apply HQ; [done|by rewrite (stepped_fs _ _ Hst)|done].
Qed.

(** Creating the output file. *)
Definition can_output (m : fs) (out : path) : Prop :=
  out ≠ [] ∧ dirs_free m (parent_or_empty out) ∧ m !! out ≠ Some Dir.
Global Instance can_output_dec m out : Decision (can_output m out).
Proof. unfold can_output, dirs_free. apply _. Defined.

Lemma wp_create_output {A} out (k : net A) (Q : A → World → Prop) (R : NetworkError → World → Prop) w :
  (∀ e w', keeps (λ q, q = out) w w' → (no_faults w → ¬ can_output (w_fs w) out) → R e w') →
  (∀ w', writing w out [] hasher_new w' → wp k Q R w') →
  wp (do! prepare_output_file_parent out in do! map_err NE_Io (file_create out) in k) Q R w.
Proof.
  intros HR HQ. wp_simpl.
  eapply (wp_mono _ (λ _ w1, out_step out w w1 ∧
            (can_output (w_fs w) out → can_create (w_fs w1) out)) _
            (λ _ w', keeps (λ q, q = out) w w' ∧ (no_faults w → ¬ can_output (w_fs w) out))).
  - unfold prepare_output_file_parent. destruct (path_parent out) as [[|x p]|] eqn:Hp; wp_simpl.
    + split; [done|]. intros (Hne & _ & Hnd). split_and!; [done|done|]. unfold parent_or_empty. by rewrite Hp.
    + apply wp_create_dir_all.
      * intros k0 ps w' Hst _ Hps Hnf. split.
        -- eapply fs_step_keeps; [done|]. intros q _. by apply file_at_mkdirs.
        -- intros Hn (_ & Hd & _). apply (Hnf Hn). unfold parent_or_empty in Hd. by rewrite Hp in Hd.
      * intros w' [Hfree Hanc] Hst. split.
        -- eapply fs_step_out; [done|]. intros q _. apply mkdirs_kept; [|done].
           unfold parent_or_empty. by rewrite Hp.
        -- intros (Hne & _ & Hnd). rewrite (fs_step_fs _ _ _ Hst).
           destruct (path_snoc out Hne) as (o & y & ->).
           assert (o = x :: p) as ->.
           { pose proof (parent_snoc o y) as Hpar. unfold parent_or_empty in Hpar. by rewrite Hp in Hpar. }
           apply can_create_snoc; [|apply is_dir_in_mkdirs_ancestors].
           rewrite lookup_mkdirs, decide_False; [done|]. apply not_ancestor_snoc.
    + split; [done|]. intros (Hne & _ & _). by destruct out.
  - cbn beta. intros _ w1 [Hk1 Hcc]. wp_simpl. apply wp_file_create.
    + intros k0 w' Hst Hnf. apply HR.
      * apply out_step_keeps. etrans; [exact Hk1|by apply stepped_out].
      * intros Hn Hco. apply Hnf; [|by apply Hcc]. by eapply no_faults_env; [apply Hk1|].
    + intros w' _ Hst. apply HQ. split_and!; [done|rewrite (fs_step_fs _ _ _ Hst); apply file_at_insert_eq|].
      etrans; [exact Hk1|]. eapply fs_step_out; [done|]. intros q Hq. left. by rewrite lookup_insert_ne.
  - cbn beta. intros e w' [Hk Hnf]. by apply HR.
Qed.
End writing.

(** * Decrypting the chunks *)
Section decrypting.
Context `{Blake3Laws, Aead} `{DiskFormat}.

(** The plaintext of a chunk of the library. *)
Definition decrypts (m : fs) (paths : LibraryPaths) (file_id : FileId) (key : SymmetricKey)
    (meta : ChunkMeta) (d : bytes) : Prop :=
  ∃ c, file_at m (chunk_path paths (cm_index meta)) = Some c ∧ zlen c = cm_encrypted_size meta
    ∧ hash_chunk c = cm_blake3_hash meta
    ∧ decrypt_chunk key (cm_nonce meta) c (build_chunk_aad file_id (cm_index meta) (cm_plain_size meta)) = Ok d
    ∧ zlen d = cm_plain_size meta.

Lemma wp_decrypt_library_chunk paths file_id key meta (Q : DecryptedChunk → World → Prop)
    (R : NetworkError → World → Prop) w :
  (∀ e w', stepped w w' → (no_faults w → ∀ d, ¬ decrypts (w_fs w) paths file_id key meta d) → R e w') →
  (∀ d w', decrypts (w_fs w) paths file_id key meta d → stepped w w' →
     Q (mkDecryptedChunk (cm_index meta) d) w') →
  wp (decrypt_library_chunk paths file_id key meta) Q R w.
Proof.
  intros HR HQ. unfold decrypt_library_chunk. wp_simpl. apply wp_read_chunk.
  - intros e w' Hst Hwhy. apply HR; [done|]. intros Hnf d (c & Hc & Hsz & _). by eapply Hwhy.
  - intros c w' Hc Hsz Hst. cbn [ec_data]. case_decide as Hh; wp_simpl.
    { apply HR; [done|]. intros _ d (c' & Hc' & _ & Hh' & _). congruence. }
    set (aad := build_chunk_aad _ _ _).
    assert ((∃ d, decrypt_chunk key (cm_nonce meta) c aad = Ok d)
            ∨ ∃ e, decrypt_chunk key (cm_nonce meta) c aad = Err e) as [[d Hd]|[e He]]
      by (unfold decrypt_chunk; destruct (aead_decrypt _ _ _ _); cbn [ok_or]; eauto).
    + rewrite Hd. cbn [result_map_err]. wp_simpl. case_decide as Hp; wp_simpl.
      * apply HR; [done|]. intros _ d' (c' & Hc' & _ & _ & Hd' & Hp'). fold aad in Hd'. congruence.
      * apply HQ; [|done]. exists c. by split_and!.
    + rewrite He. cbn [result_map_err]. wp_simpl. apply HR; [done|].
      intros _ d' (c' & Hc' & _ & _ & Hd' & Hp'). fold aad in Hd'. congruence.
Qed.

Context (paths : LibraryPaths) (manifest : Manifest) (key : SymmetricKey) (out : path) (l : TransferLogLevel).
Let metas := mf_chunks manifest.
Let file_id := mf_file_id manifest.

(** The outcome every variant guarantees, whatever the library holds. *)
Definition output_good (w0 w : World) : Prop :=
  keeps (λ q, q = out) w0 w ∧ ∃ d, file_at (w_fs w) out = Some d ∧ hash_file_id d = file_id.

Lemma wp_sequential w :
  wp (decrypt_library_chunks_to_file_sequential paths manifest key out l)
    (λ _ w', output_good w w') (λ _ w', keeps (λ q, q = out) w w') w.
Proof using H0.
  unfold decrypt_library_chunks_to_file_sequential. apply wp_create_output; [done|].
  intros w1 Hw1. wp_simpl.
  wp_call (wp_mfold _ (λ (_ : list ChunkMeta) (st : hasher * Z) w', ∃ ds, writing w out ds st.1 w')
             _ _ (λ _ w', keeps (λ q, q = out) w w')).
  - by exists [].
  - intros done_ meta rest [h off] w2 _ (ds & Hw2). unfold sequential_round. wp_simpl.
    apply wp_decrypt_library_chunk; [intros e w3 Hst _; apply writing_keeps in Hw2; keep|].
    intros d w3 _ Hst. apply (writing_stepped _ _ _ _ _ _ Hst) in Hw2. wp_simpl.
    eapply wp_write_piece; [exact Hw2|done|]. intros w4 Hw4. wp_simpl. by eexists.
  - intros [h off] w2 (ds & Hw2). eapply wp_finalize; [exact Hw2|done|].
    intros w3 Hk Hf Hid. split; [by apply out_step_keeps|]. by exists (concat ds).
  - done.
Qed.

(** ** The consumer of the parallel variant *)
Let order := cm_index <$> metas.

Lemma wp_drain w0 st ds w :
  writing w0 out ds (co_hasher st) w → (co_next_position st ≤ length order)%nat →
  wp (drain paths out l order st)
    (λ st' w', (∃ ds', writing w0 out ds' (co_hasher st') w')
       ∧ (co_next_position st' ≤ length order)%nat ∧ co_first_error st' = co_first_error st)
    (λ _ w', keeps (λ q, q = out) w0 w') w.
Proof using H0.
  intros Hw Hn. unfold drain.
  apply (wp_mloop _ (λ st' w', (∃ ds', writing w0 out ds' (co_hasher st') w')
       ∧ (co_next_position st' ≤ length order)%nat ∧ co_first_error st' = co_first_error st)
       (λ st' _, (length order - co_next_position st')%nat)); [by eauto|lia|].
  intros st1 w1 ((ds1 & Hw1) & Hn1 & He1). unfold drain_round.
  destruct (order !! co_next_position st1) as [i|] eqn:Hi; [|wp_simpl; by eauto].
  destruct (co_pending st1 !! i) as [d|]; [|wp_simpl; by eauto]. wp_simpl.
  apply lookup_lt_Some in Hi. eapply wp_write_piece; [exact Hw1|done|].
  intros w2 Hw2. wp_simpl. cbn [co_hasher co_next_position co_first_error].
  split; [|lia]. split_and!; [by eexists|lia|done].
Qed.

Lemma wp_parallel arrivals w :
  wp (decrypt_library_chunks_to_file_parallel paths manifest key out arrivals l)
    (λ _ w', output_good w w') (λ _ w', keeps (λ q, q = out) w w') w.
Proof using H0.
  unfold decrypt_library_chunks_to_file_parallel. apply wp_create_output; [done|].
  intros w1 Hw1. wp_simpl.
  wp_call (wp_mfold _ (λ (_ : list ChunkMeta) (st : Consumer) w', (∃ ds, writing w out ds (co_hasher st) w')
                                  ∧ (co_next_position st ≤ length order)%nat)
             _ _ (λ _ w', keeps (λ q, q = out) w w')).
  - split; [by exists []|]. cbn. lia.
  - intros done_ meta rest st w2 _ ((ds & Hw2) & Hn). unfold consume. wp_simpl.
    apply wp_decrypt_library_chunk.
    + intros e w3 Hst _. apply (writing_stepped _ _ _ _ _ _ Hst) in Hw2.
      destruct (co_first_error st); wp_simpl; split; by eauto.
    + intros d w3 _ Hst. apply (writing_stepped _ _ _ _ _ _ Hst) in Hw2.
      destruct (co_first_error st); wp_simpl; [split; by eauto|].
      wp_call wp_drain; [exact Hw2|done| |done]. intros st' w4 (Hw4 & Hn4 & _). by split.
  - intros st w2 ((ds & Hw2) & _). pose proof (writing_keeps _ _ _ _ _ Hw2). destruct (co_first_error st); wp_simpl; [done|].
    case_decide; wp_simpl; [|done]. eapply wp_finalize; [exact Hw2|done|].
    intros w3 Hk Hf Hid. split; [by apply out_step_keeps|]. by exists (concat ds).
  - done.
Qed.

Lemma wp_reconstruct schedule w :
  wp (decrypt_library_chunks_to_file schedule paths manifest key out l)
    (λ _ w', output_good w w') (λ _ w', keeps (λ q, q = out) w w') w.
Proof using H0.
  unfold decrypt_library_chunks_to_file, default_decrypt_worker_count. wp_simpl.
  case_decide; wp_simpl; case_decide; first [apply wp_sequential | apply wp_parallel].
Qed.
End decrypting.

(** * Completeness: every arrival order gives the file *)
Section complete.
Context `{Blake3Laws, Aead} `{DiskFormat}.
Context (paths : LibraryPaths) (manifest : Manifest) (key : SymmetricKey) (out : path) (l : TransferLogLevel).
Context (w0 : World) (ds : list bytes).
Let metas := mf_chunks manifest.
Let file_id := mf_file_id manifest.
Let order := cm_index <$> metas.
Context (Hnf : no_faults w0).
Context (Hplain : Forall2 (decrypts (w_fs w0) paths file_id key) metas ds).
Context (Hout : Forall (λ i, chunk_path paths i ≠ out) order).
Context (Hnodup : NoDup order).

Lemma decrypts_fun m p f k meta d d' : decrypts m p f k meta d → decrypts m p f k meta d' → d = d'.
Proof. intros (c & ? & ? & ? & ? & ?) (c' & ? & ? & ? & ? & ?). congruence. Qed.

Lemma chunk_kept w i : keeps (λ q, q = out) w0 w → i ∈ order →
  file_at (w_fs w) (chunk_path paths i) = file_at (w_fs w0) (chunk_path paths i).
Proof using Hout. intros [_ Hk] Hi. apply Hk. rewrite Forall_forall in Hout. by apply Hout. Qed.

(** While the output is written, the chunk at position [k] still decrypts. *)
Lemma wp_decrypt_position k meta d (Q : DecryptedChunk → World → Prop) (R : NetworkError → World → Prop) w :
  metas !! k = Some meta → ds !! k = Some d → keeps (λ q, q = out) w0 w →
  (∀ w', stepped w w' → Q (mkDecryptedChunk (cm_index meta) d) w') →
  wp (decrypt_library_chunk paths file_id key meta) Q R w.
Proof using Hnf Hplain Hout.
  intros Hm Hd Hk HQ.
  assert (cm_index meta ∈ order) as Hio.
  { apply list_elem_of_fmap. exists meta. split; [done|]. by eapply list_elem_of_lookup_2. }
  assert (decrypts (w_fs w) paths file_id key meta d) as Hdec.
  { destruct (Forall2_lookup_lr _ _ _ _ _ _ Hplain Hm Hd) as (c & Hc & Hrest). exists c.
    split; [|done]. by rewrite (chunk_kept w). }
  apply wp_decrypt_library_chunk.
  - intros e w' Hst Hno. exfalso. eapply Hno; [|exact Hdec]. by eapply no_faults_env; [apply Hk|].
  - intros d' w' Hd' Hst. rewrite (decrypts_fun _ _ _ _ _ _ _ Hd' Hdec). by apply HQ.
Qed.

Lemma ds_length : length ds = length metas.
Proof using Hplain. symmetry. by eapply Forall2_length. Qed.

Lemma wp_sequential_complete :
  can_output (w_fs w0) out → hash_file_id (concat ds) = file_id →
  wp (decrypt_library_chunks_to_file_sequential paths manifest key out l)
    (λ _ w', out_step out w0 w' ∧ file_at (w_fs w') out = Some (concat ds)) (λ _ _, False) w0.
Proof using All.
  intros Hco Hid. unfold decrypt_library_chunks_to_file_sequential.
  apply wp_create_output; [intros e w' _ Hno; by apply (Hno Hnf)|]. intros w1 Hw1. wp_simpl.
  wp_call (wp_mfold _ (λ (done_ : list ChunkMeta) (st : hasher * Z) w',
             writing w0 out (take (length done_) ds) st.1 w') _ _ (λ _ _, False)).
  - done.
  - intros done_ meta rest [h off] w2 Hsplit Hw2. unfold sequential_round. wp_simpl.
    assert (metas !! length done_ = Some meta) as Hm by (unfold metas; rewrite Hsplit; by apply list_lookup_middle).
    assert (is_Some (ds !! length done_)) as [d Hd].
    { apply lookup_lt_is_Some. rewrite ds_length. by eapply lookup_lt_Some. }
    eapply wp_decrypt_position; [exact Hm|exact Hd|by eapply writing_keeps|]. intros w3 Hst3.
    apply (writing_stepped _ _ _ _ _ _ Hst3) in Hw2. wp_simpl.
    eapply wp_write_piece; [exact Hw2|done|]. intros w4 Hw4. wp_simpl. cbn [fst].
    rewrite length_app, Nat.add_1_r. by rewrite (take_S_r _ _ _ Hd).
  - intros [h off] w2 Hw2. fold metas in Hw2. rewrite <- ds_length, firstn_all in Hw2.
    eapply wp_finalize; [exact Hw2|intros e w' _ Hno; by apply (Hno Hnf)|]. by intros.
  - done.
Qed.

(** The consumer after the results of [done_]: positions below [next] are
    written, the other arrived ones are pending. *)
Definition consumed (done_ : list ChunkMeta) (st : Consumer) (w : World) : Prop :=
  writing w0 out (take (co_next_position st) ds) (co_hasher st) w
  ∧ (co_next_position st ≤ length metas)%nat ∧ co_first_error st = None
  ∧ (∀ i d, co_pending st !! i = Some d ↔
       ∃ k meta, (co_next_position st ≤ k)%nat ∧ metas !! k = Some meta ∧ cm_index meta = i
                 ∧ ds !! k = Some d ∧ meta ∈ done_)
  ∧ (∀ k meta, (k < co_next_position st)%nat → metas !! k = Some meta → meta ∈ done_).

(** Nothing more can be written. *)
Definition drained (done_ : list ChunkMeta) (st : Consumer) : Prop :=
  ∀ meta, metas !! co_next_position st = Some meta → meta ∉ done_.

Lemma position_inj k k' meta meta' :
  metas !! k = Some meta → metas !! k' = Some meta' → cm_index meta = cm_index meta' → k = k'.
Proof using Hnodup.
  intros Hk Hk' Hi. eapply (NoDup_lookup order k k' (cm_index meta)); [done| |];
    unfold order; rewrite list_lookup_fmap; [by rewrite Hk|by rewrite Hk', Hi].
Qed.

Lemma wp_drain_complete done_ st w :
  consumed done_ st w →
  wp (drain paths out l order st) (λ st' w', consumed done_ st' w' ∧ drained done_ st') (λ _ _, False) w.
Proof using All.
  intros Hc. assert (length order = length metas) as Hlo by (unfold order; by rewrite length_fmap).
  apply (wp_mloop _ (consumed done_) (λ st' _, (length order - co_next_position st')%nat)); [done|lia|].
  clear st w Hc. intros st w (Hw & Hn & He & Hpend & Hdone). unfold drain_round.
  destruct (order !! co_next_position st) as [i|] eqn:Hi.
  2: { wp_simpl. split; [by split_and!|]. intros meta Hm. unfold order in Hi.
       rewrite list_lookup_fmap, Hm in Hi. done. }
  unfold order in Hi. rewrite list_lookup_fmap in Hi.
  destruct (metas !! co_next_position st) as [meta|] eqn:Hm; [|done]. injection Hi as <-.
  destruct (co_pending st !! cm_index meta) as [d|] eqn:Hp.
  2: { wp_simpl. split; [by split_and!|]. intros meta' Hm' Hin. simplify_eq.
       assert (is_Some (ds !! co_next_position st)) as [d Hd].
       { apply lookup_lt_is_Some. rewrite ds_length. by eapply lookup_lt_Some. }
       assert (co_pending st !! cm_index meta = Some d) as Hsome; [|congruence].
       apply Hpend. exists (co_next_position st), meta. by split_and!. }
  apply Hpend in Hp as (k & meta' & Hk & Hm' & Hidx & Hd & Hin).
  assert (k = co_next_position st) as -> by (by eapply position_inj).
  simplify_eq. wp_simpl. eapply wp_write_piece; [exact Hw|done|]. intros w2 Hw2. wp_simpl.
  pose proof (lookup_lt_Some _ _ _ Hm) as Hlt. split; [|cbn [co_next_position]; lia].
  unfold consumed. cbn [co_next_position co_hasher co_first_error co_pending].
  rewrite (take_S_r _ _ _ Hd). split_and!; [done|lia|done| |].
  - intros j d'. rewrite lookup_delete_Some, Hpend. split.
    + intros [Hne (k & mk & Hk' & Hmk & Hij & Hdk & Hin')]. exists k, mk. split_and!; try done.
      destruct (decide (k = co_next_position st)) as [->|]; [|lia]. simplify_eq.
    + intros (k & mk & Hk' & Hmk & Hij & Hdk & Hin'). split.
      * intros Heq. assert (k = co_next_position st); [|lia]. eapply position_inj; [done|done|congruence].
      * exists k, mk. split_and!; try done. lia.
  - intros k mk Hk' Hmk. destruct (decide (k = co_next_position st)) as [->|]; [by simplify_eq|].
    apply (Hdone k); [lia|done].
Qed.

Lemma wp_consume_complete done_ meta k st w :
  metas !! k = Some meta → meta ∉ done_ → consumed done_ st w →
  wp (consume paths file_id key out l order st meta)
    (λ st' w', consumed (done_ ++ [meta]) st' w' ∧ drained (done_ ++ [meta]) st') (λ _ _, False) w.
Proof using All.
  intros Hm Hnew (Hw & Hn & He & Hpend & Hdone). unfold consume. wp_simpl.
  assert (is_Some (ds !! k)) as [d Hd].
  { apply lookup_lt_is_Some. rewrite ds_length. by eapply lookup_lt_Some. }
  eapply wp_decrypt_position; [exact Hm|exact Hd|by eapply writing_keeps|]. intros w1 Hst.
  apply (writing_stepped _ _ _ _ _ _ Hst) in Hw. rewrite He. apply wp_drain_complete.
  assert (co_next_position st ≤ k)%nat as Hk.
  { destruct (decide (co_next_position st ≤ k)%nat); [done|]. exfalso. apply Hnew, (Hdone k); [lia|done]. }
  unfold consumed. cbn [co_next_position co_hasher co_first_error co_pending dc_index dc_data].
  split_and!; [done|done|done| |].
  - intros j d'. rewrite lookup_insert_Some. split.
    + intros [[<- <-]|[Hne (k' & mk & Hk' & Hmk & Hij & Hdk & Hin)%Hpend]].
      * exists k, meta. split_and!; try done. apply elem_of_app. right. left.
      * exists k', mk. split_and!; try done. apply elem_of_app. by left.
    + intros (k' & mk & Hk' & Hmk & Hij & Hdk & Hin). destruct (decide (cm_index meta = j)) as [Heq|Hne].
      * left. split; [done|]. assert (k = k') as <- by (eapply position_inj; [done|done|congruence]). congruence.
      * right. split; [done|]. apply Hpend. exists k', mk. split_and!; try done.
        apply elem_of_app in Hin as [Hin|Hin]; [done|]. apply list_elem_of_singleton in Hin. congruence.
  - intros k' mk Hk' Hmk. apply elem_of_app. left. by eapply Hdone.
Qed.

Lemma wp_parallel_complete arrivals :
  arrivals ≡ₚ metas → can_output (w_fs w0) out → hash_file_id (concat ds) = file_id →
  wp (decrypt_library_chunks_to_file_parallel paths manifest key out arrivals l)
    (λ _ w', out_step out w0 w' ∧ file_at (w_fs w') out = Some (concat ds)) (λ _ _, False) w0.
Proof using All.
  intros Hperm Hco Hid. unfold decrypt_library_chunks_to_file_parallel.
  apply wp_create_output; [intros e w' _ Hno; by apply (Hno Hnf)|]. intros w1 Hw1. wp_simpl.
  assert (NoDup arrivals) as Hnda by (rewrite Hperm; by eapply NoDup_fmap_1).
  wp_call (wp_mfold _ (λ done_ st w', consumed done_ st w' ∧ drained done_ st) _ _ (λ _ _, False)).
  - split; [|by intros ??; apply not_elem_of_nil]. split_and!; [done|cbn; lia|done| |cbn; lia].
    intros i d. cbn [co_pending]. split; [done|]. intros (k & m & _ & _ & _ & _ & Hin). by apply not_elem_of_nil in Hin.
  - intros done_ meta rest st w2 Hsplit [Hc _].
    assert (meta ∈ metas) as [k Hk]%list_elem_of_lookup.
    { rewrite <- Hperm, Hsplit. apply elem_of_app. right. left. }
    eapply wp_consume_complete; [exact Hk| |done]. rewrite Hsplit in Hnda.
    apply NoDup_app in Hnda as (_ & Hd & _). intros Hin. apply (Hd _ Hin). left.
  - intros st w2 [(Hw & Hn & He & Hpend & _) Hdr]. rewrite He.
    assert (co_next_position st = length metas) as Hlast.
    { destruct (metas !! co_next_position st) as [meta|] eqn:Hm.
      - exfalso. apply (Hdr meta Hm). rewrite Hperm. by eapply list_elem_of_lookup_2.
      - apply lookup_ge_None in Hm. lia. }
    assert (co_pending st = ∅) as Hemp.
    { apply map_eq. intros i. rewrite lookup_empty. apply eq_None_not_Some. intros [d Hd].
      apply Hpend in Hd as (k & m & Hk & Hm & _). apply lookup_lt_Some in Hm. lia. }
    rewrite decide_True by done. rewrite Hlast, <- ds_length, firstn_all in Hw.
    eapply wp_finalize; [exact Hw|intros e w' _ Hno; by apply (Hno Hnf)|]. by intros.
  - done.
Qed.
End complete.

(** Every variant, when the library holds the plaintexts [ds]. *)
Lemma wp_reconstruct_complete `{Blake3Laws, Aead} `{DiskFormat} schedule paths manifest key out l ds w :
  no_faults w → can_output (w_fs w) out → (∀ metas, schedule metas ≡ₚ metas) →
  NoDup (cm_index <$> mf_chunks manifest) →
  Forall (λ i, chunk_path paths i ≠ out) (cm_index <$> mf_chunks manifest) →
  Forall2 (decrypts (w_fs w) paths (mf_file_id manifest) key) (mf_chunks manifest) ds →
  hash_file_id (concat ds) = mf_file_id manifest →
  wp (decrypt_library_chunks_to_file schedule paths manifest key out l)
    (λ _ w', out_step out w w' ∧ file_at (w_fs w') out = Some (concat ds)) (λ _ _, False) w.
Proof.
  intros Hnf Hco Hsch Hnd Hne Hpl Hid.
  unfold decrypt_library_chunks_to_file, default_decrypt_worker_count. wp_simpl.
  case_decide; wp_simpl; case_decide; first [by eapply wp_sequential_complete | by eapply wp_parallel_complete].
Qed.

Lemma reconstruct_run `{Blake3Laws, Aead} `{DiskFormat} schedule paths manifest key out l ds w :
  no_faults w → can_output (w_fs w) out → (∀ metas, schedule metas ≡ₚ metas) →
  NoDup (cm_index <$> mf_chunks manifest) →
  Forall (λ i, chunk_path paths i ≠ out) (cm_index <$> mf_chunks manifest) →
  Forall2 (decrypts (w_fs w) paths (mf_file_id manifest) key) (mf_chunks manifest) ds →
  hash_file_id (concat ds) = mf_file_id manifest →
  ∃ w', decrypt_library_chunks_to_file schedule paths manifest key out l w = (Ok tt, w')
    ∧ file_at (w_fs w') out = Some (concat ds).
Proof.
  intros Hnf Hco Hsch Hnd Hne Hpl Hid.
  destruct (wp_run _ _ _ _ (wp_reconstruct_complete schedule paths manifest key out l ds w Hnf Hco Hsch Hnd Hne Hpl Hid))
    as [([] & w' & Hrun & _ & Hf)|(? & ? & _ & [])]; by exists w'.
Qed.

(** * Claims *)

(** Reconstruction is sound in every world and for every delivery order of
    the workers: it returns, it changes no file but the output, and if it reports
    success then the output's BLAKE3 hash is the file id of the manifest, whatever
    the library, the peer or the operating system did. *)
Theorem reconstruct_sound `{Blake3Laws, Aead} `{DiskFormat} schedule paths manifest key out l w :
  match decrypt_library_chunks_to_file schedule paths manifest key out l w with
  | (Ok _, w') => keeps (λ q, q = out) w w'
                  ∧ ∃ d, file_at (w_fs w') out = Some d ∧ hash_file_id d = mf_file_id manifest
  | (Err _, w') => keeps (λ q, q = out) w w'
  | _ => False
  end.
Proof.
  pose proof (wp_reconstruct paths manifest key out l schedule w) as Hwp. unfold wp in Hwp.
  by destruct (decrypt_library_chunks_to_file _ _ _ _ _ _ _) as [[] ?].
Qed.


Import Toy DiskSample.
Module ReconstructSample.
Definition key : SymmetricKey := CryptoSample.key Byte.x05.
Definition nonce : Nonce := mkNonce (array_repeat 24 Byte.x02).
Definition plain : list bytes := [str_bytes "he"; str_bytes "llo"].
Definition file_id : FileId := hash_file_id (concat plain).
Definition cipher (i : Z) (d : bytes) : bytes :=
  match encrypt_chunk key nonce d (build_chunk_aad file_id i (zlen d)) with Ok c => c | _ => [] end.
Definition meta (i : Z) (d : bytes) : ChunkMeta :=
  mkChunkMeta i (zlen d) (zlen (cipher i d)) nonce (hash_chunk (cipher i d)).
Definition metas : list ChunkMeta := [meta 0 (str_bytes "he"); meta 1 (str_bytes "llo")].
Definition manifest : Manifest := mkManifest file_id "hello" 5 3 metas.
Definition paths : LibraryPaths := for_share [] (mkShareId (array_repeat 32 Byte.x07)).
Definition world : World := CryptoSample.world
  {[ chunk_path paths 0 := File (cipher 0 (str_bytes "he"));
     chunk_path paths 1 := File (cipher 1 (str_bytes "llo")) ]} [].
End ReconstructSample.


Lemma reconstruct_sound_witness : ∃ r w',
  decrypt_library_chunks_to_file (λ metas, rev metas) ReconstructSample.paths ReconstructSample.manifest
    ReconstructSample.key ["out"%string; "hello"%string] Quiet ReconstructSample.world = (r, w')
  ∧ keeps (λ q, q = ["out"%string; "hello"%string]) ReconstructSample.world w'
  ∧ (r = Ok tt → ∃ d, file_at (w_fs w') ["out"%string; "hello"%string] = Some d
                      ∧ hash_file_id d = mf_file_id ReconstructSample.manifest).
Proof.
  pose proof (reconstruct_sound (λ metas, rev metas) ReconstructSample.paths ReconstructSample.manifest
    ReconstructSample.key ["out"%string; "hello"%string] Quiet ReconstructSample.world) as H.
  destruct (decrypt_library_chunks_to_file _ _ _ _ _ _ _) as [r w'].
  exists r, w'. split; [reflexivity|]. destruct r as [u|e| |]; [|split; [exact H|discriminate]|destruct H|destruct H].
  split; [apply H|]. intros _. apply H.
Defined.
