(* ===== verification/Download.v ===== *)
(** Downloading from one peer after another: the request window, the main loop
    and the entry points of [network/transfer/download.rs].

    The loop keeps up to a window of chunk requests in flight, accepts the
    answers in any order, verifies each against the manifest before it is kept,
    and lets the window grow. *)
From stdpp Require Import base tactics list countable strings gmap.
From Stdlib Require Import ZArith Lia.
From S2P Require Import Prelude Bytes World Files Extern Crypto Descriptor Storage State Library Codec Handshake DownloadState Reconstruct.
Local Open Scope Z_scope.
Local Open Scope etle_scope.

(** * The request window *)

(** [max_request_window.clamp(1, 4)] *)
Definition initial_request_window (max_request_window : Z) : Z := Z.max 1 (Z.min max_request_window 4).

(** The doubling is at the width of [usize]. *)
Definition maybe_grow_request_window (active since max_request_window : Z) : Z * Z :=
  if decide (max_request_window ≤ active) then (active, since)
  else if decide (since < active) then (active, since)
  else (Z.min (as_u64 (active * 2)) max_request_window, 0).

(** The smallest key of a [BTreeMap]. *)
Definition first_key {A} (m : gmap Z A) : option Z :=
  match (map_to_list m).*1 with
  | [] => None
  | k :: ks => Some (foldl Z.min k ks)
  end.

(** * The main loop *)
Record Window := mkWindow {
  wi_active : Z;
  wi_since : Z;
  wi_next_meta : nat;
  wi_in_flight : gmap Z ChunkMeta;
  wi_library : option ActiveDownloadLibraryState;
  wi_chunks : gmap Z EncryptedChunk;
  wi_completed : gset Z;
}.

Definition set_requests (s : Window) (next_meta : nat) (in_flight : gmap Z ChunkMeta) : Window :=
  mkWindow (wi_active s) (wi_since s) next_meta in_flight (wi_library s) (wi_chunks s) (wi_completed s).

Section window.
Context `{Blake3} `{Bincode WireMessage} `{DiskFormat}.
Context (manifest : Manifest) (peer_available : gset Z) (streaming_to_library : bool)
        (output_state_dir : option path) (log_level : TransferLogLevel) (share_id : ShareId)
        (max_request_window : Z).

(** One round of the inner [while]: request the next chunk that is missing here
    and available there. *)
Definition request_round (s : Window) : net (Window + Window) :=
  if decide (Z.of_nat (size (wi_in_flight s)) < wi_active s) then
    match mf_chunks manifest !! wi_next_meta s with
    | None => ret (inr s)
    | Some meta =>
        let next := S (wi_next_meta s) in
        if decide (cm_index meta ∈ wi_completed s) then ret (inl (set_requests s next (wi_in_flight s)))
        else if decide (cm_index meta ∉ peer_available) then ret (inl (set_requests s next (wi_in_flight s)))
        else
          do! map_err NE_Protocol (send (RequestChunk (cm_index meta))) in
          ret (inl (set_requests s next (<[cm_index meta := meta]> (wi_in_flight s))))
    end
  else ret (inr s).
Definition request_chunks (s : Window) : net Window :=
  mloop (S (length (mf_chunks manifest))) request_round s.

Definition receive_answer (s : Window) : net (ReceivedChunkFrame * option path) :=
  if streaming_to_library then
    let! temp_path := download_chunk_temp_path (wi_library s) 0 in
    let! frame := map_err NE_Protocol (receive_chunk_to_file temp_path) in
    ret (frame, Some temp_path)
  else
    let! m := map_err NE_Protocol receive in
    ret (Message m, None).

Definition remove_temp (temp_path : option path) : net unit :=
  match temp_path with Some p => remove_file_if_exists p | None => ret tt end.

(** [in_flight.remove(&index).ok_or(UnexpectedChunkIndex { expected, actual: index })] *)
Definition take_in_flight (s : Window) (index : Z) : result NetworkError (ChunkMeta * gmap Z ChunkMeta) :=
  let expected := default index (first_key (wi_in_flight s)) in
  match wi_in_flight s !! index with
  | Some meta => Ok (meta, delete index (wi_in_flight s))
  | None => Err (UnexpectedChunkIndex expected index)
  end.

(** After a chunk was persisted: record it, report it, let the window grow. *)
Definition chunk_received (s : Window) (in_flight : gmap Z ChunkMeta) (library : option ActiveDownloadLibraryState)
    (chunks : gmap Z EncryptedChunk) (index chunk_len : Z) : net Window :=
  let completed := {[index]} ∪ wi_completed s in
  do! for_share_progress share_id "peer" "received+verified" log_level (Z.of_nat (size completed))
        (zlen (mf_chunks manifest)) index chunk_len in
  let since := saturating_add usize_max (wi_since s) 1 in
  let '(active, since) := maybe_grow_request_window (wi_active s) since max_request_window in
  ret (mkWindow active since (wi_next_meta s) in_flight library chunks completed).

Definition handle_answer (s : Window) (received : ReceivedChunkFrame * option path) : net Window :=
  match received with
  | (RawChunkFile chunk, Some temp_path) =>
      let index := rc_index chunk in
      let! r := lift_result (take_in_flight s index) in
      let '(meta, in_flight) := r in
      if decide (rc_blake3_hash chunk ≠ chunk_hash_bytes (cm_blake3_hash meta)) then
        do! remove_file_if_exists temp_path in
        throw (NE_File (ChunkHashMismatch (cm_index meta)))
      else
        let! library := persist_downloaded_chunk_file (wi_library s) index temp_path output_state_dir in
        chunk_received s in_flight library (wi_chunks s) index (rc_data_len chunk)
  | (Message (Chunk index data), temp_path) =>
      do! remove_temp temp_path in
      let! r := lift_result (take_in_flight s index) in
      let '(meta, in_flight) := r in
      if decide (hash_chunk data ≠ cm_blake3_hash meta)
      then throw (NE_File (ChunkHashMismatch (cm_index meta)))
      else
        let encrypted_chunk := mkEncryptedChunk index data in
        let! library := persist_downloaded_chunk (wi_library s) encrypted_chunk output_state_dir in
        let chunks := if streaming_to_library then wi_chunks s
                      else <[index := encrypted_chunk]> (wi_chunks s) in
        chunk_received s in_flight library chunks index (zlen data)
  | (Message (ErrorMsg message), temp_path) =>
      do! remove_temp temp_path in
      throw (PeerError message)
  | (Message actual, temp_path) =>
      do! remove_temp temp_path in
      throw (UnexpectedMessage "Chunk" actual)
  | (RawChunkFile _, None) => panic
  end.

(** One round of the outer [loop]. *)
Definition window_round (s : Window) : net (Window + Window) :=
  let! s := request_chunks s in
  if decide (wi_in_flight s = ∅) then ret (inr s)
  else
    let! received := receive_answer s in
    let! s := handle_answer s received in
    ret (inl s).

(** Chunks found in the library are reported first. *)
Definition report_reused (completed : gset Z) (_ : unit) (meta : ChunkMeta) : net unit :=
  if decide (cm_index meta ∈ completed)
  then for_share_progress share_id "peer" "reused" log_level (Z.of_nat (size completed))
         (zlen (mf_chunks manifest)) (cm_index meta) (cm_encrypted_size meta)
  else ret tt.
End window.

Section download.
Context `{Blake3, X25519, Aead} `{Bincode WireMessage} `{DiskFormat}.

Definition download_missing_chunks_windowed (manifest : Manifest) (peer_available : gset Z)
    (library : option ActiveDownloadLibraryState) (chunks : gmap Z EncryptedChunk) (completed : gset Z)
    (streaming_to_library : bool) (output_state_dir : option path) (log_level : TransferLogLevel)
    (request_window : Z) (share_id : ShareId) : net Window :=
  let max_request_window := Z.max request_window 1 in
  do! mfold (report_reused manifest log_level share_id completed) tt (mf_chunks manifest) in
  mloop (S (S (length (mf_chunks manifest))))
    (window_round manifest peer_available streaming_to_library output_state_dir log_level share_id max_request_window)
    (mkWindow (initial_request_window max_request_window) 0 0 ∅ library chunks completed).

(** * One peer *)
Definition client_transfer_session_key_exchange (auth_psk : option AuthPsk) : net SymmetricKey :=
  match auth_psk with
  | Some psk => client_authenticated_session_key_exchange psk
  | None => client_session_key_exchange
  end.

Definition send_requested_share_if_needed (share_id : option ShareId) : net unit :=
  match share_id with
  | None => ret tt
  | Some share_id => map_err NE_Protocol (send (RequestShare share_id))
  end.

Definition receive_peer_availability : net (gset Z) :=
  let! m := map_err NE_Protocol receive in
  match m with
  | Have chunks => ret (list_to_set chunks)
  | ErrorMsg message => throw (PeerError message)
  | actual => throw (UnexpectedMessage "Have" actual)
  end.

Record ConnectedDownloadPeer := mkConnectedPeer {
  cp_peer_addr : socket_addr;
  cp_manifest : Manifest;
  cp_file_key : SymmetricKey;
  cp_available_chunks : gset Z;
}.

(** What a download learns from a peer before it asks for chunks. *)
Definition receive_manifest : net Manifest :=
  let! m := map_err NE_Protocol receive in
  match m with
  | ManifestMsg manifest => ret manifest
  | actual => throw (UnexpectedMessage "Manifest" actual)
  end.

Definition receive_wrapped_file_key : net WrappedFileKey :=
  let! m := map_err NE_Protocol receive in
  match m with
  | WrappedFileKeyMsg nonce data => ret (mkWrappedFileKey nonce data)
  | actual => throw (UnexpectedMessage "WrappedFileKey" actual)
  end.

(** The stream of the peer is the connection of the world. *)
Definition connect_download_peer (peer_addr : socket_addr) (peer_id : string)
    (requested_share_id : option ShareId) (auth_psk : option AuthPsk) : net ConnectedDownloadPeer :=
  do! connect_peer peer_addr in
  let! _remote_peer_id := client_protocol_handshake peer_id in
  let! session_key := client_transfer_session_key_exchange auth_psk in
  do! send_requested_share_if_needed requested_share_id in
  let! manifest := receive_manifest in
  let! wrapped_file_key := receive_wrapped_file_key in
  let! file_key := lift_result (result_map_err NE_Crypto
                     (unwrap_file_key session_key (mf_file_id manifest) wrapped_file_key)) in
  let! available_chunks := receive_peer_availability in
  ret (mkConnectedPeer peer_addr manifest file_key available_chunks).

(** [manifest.chunks.iter().find(|meta| !completed_chunks.contains(&meta.index))] *)
Definition first_missing (manifest : Manifest) (completed : gset Z) : option ChunkMeta :=
  snd <$> list_find (λ meta, cm_index meta ∉ completed) (mf_chunks manifest).

(** Which chunks are already there, in the library or (never, without one) in
    memory. *)
Definition load_completed (library : option ActiveDownloadLibraryState) (manifest : Manifest)
    (output_state_dir : option path)
    : net (gset Z * gmap Z EncryptedChunk * option ActiveDownloadLibraryState) :=
  match library with
  | Some _ =>
      let! r := load_resumable_chunk_indexes library manifest output_state_dir in
      ret (r.1, ∅, r.2)
  | None =>
      let! r := load_resumable_chunks library manifest output_state_dir in
      ret (dom r.1, r.1, r.2)
  end.

Definition send_have_if_any (completed : gset Z) : net unit :=
  if decide (completed = ∅) then ret tt
  else map_err NE_Protocol (send (Have (sort_by Z.leb (elements completed)))).

(** From the file key to the finished file. *)
Definition download_from_connected (schedule : list ChunkMeta → list ChunkMeta) (peer : ConnectedDownloadPeer)
    (output_path : path) (options : DownloadFileOptions) : net Manifest :=
  let log_level := do_log_level options in
  let manifest := cp_manifest peer in
  let file_key := cp_file_key peer in
  let descriptor := descriptor_from_manifest manifest in
  let output_state_dir := output_parent_dir output_path in
  let! library := initialize_download_library_state (do_library_root options) descriptor file_key
                    output_state_dir (do_resume options) in
  let streaming_to_library := match library with Some _ => true | None => false end in
  let! r := load_completed library manifest output_state_dir in
  let '(completed, chunks, library) := r in
  do! send_have_if_any completed in
  let! s := download_missing_chunks_windowed manifest (cp_available_chunks peer) library chunks completed
              streaming_to_library output_state_dir log_level (do_request_window options)
              (d_share_id descriptor) in
  do! (if decide (Z.of_nat (size (wi_completed s)) ≠ zlen (mf_chunks manifest)) then
         match first_missing manifest (wi_completed s) with
         | Some meta => throw (MissingEncryptedChunk (cm_index meta))
         | None => ret tt
         end
       else ret tt) in
  do! (if streaming_to_library then
         let! active_state := lift_result (active_download_state (wi_library s)) in
         decrypt_library_chunks_to_file schedule (ad_paths active_state) manifest file_key output_path log_level
       else
         map_err NE_File (decrypt_to_file (mkEncryptedFile manifest (wi_chunks s)) file_key output_path)) in
  let! _library := mark_download_library_complete (wi_library s) output_state_dir in
  ret manifest.

Definition from_peer_with (schedule : list ChunkMeta → list ChunkMeta) (peer_addr : socket_addr)
    (output_path : path) (options : DownloadFileOptions) : net Manifest :=
  let! peer := connect_download_peer peer_addr (do_peer_id options) (do_requested_share_id options)
                 (do_auth_psk options) in
  download_from_connected schedule peer output_path options.

Definition from_peer (schedule : list ChunkMeta → list ChunkMeta) (peer_addr : socket_addr)
    (output_path : path) (peer_id : string) : net Manifest :=
  from_peer_with schedule peer_addr output_path (DownloadFileOptions_new peer_id Quiet).

(** * Several peers, one after the other *)
Context (error_to_string : NetworkError → string).

(** The [for] loop over the peers; the first success returns. *)
Fixpoint from_peers_loop (schedule : list ChunkMeta → list ChunkMeta) (output_path : path)
    (options : DownloadFileOptions) (total_peers attempt : Z) (last_error : option string)
    (peer_addrs : list socket_addr) : net Manifest :=
  match peer_addrs with
  | [] => throw (AllPeersFailed total_peers (default "unknown error"%string last_error))
  | peer_addr :: peer_addrs =>
      let attempt_options :=
        if bool_decide (1 < total_peers) || bool_decide (0 < attempt) then with_resume options true else options in
      let! r := try_ (from_peer_with schedule peer_addr output_path attempt_options) in
      match r with
      | Ok manifest => ret manifest
      | Err error =>
          from_peers_loop schedule output_path options total_peers (attempt + 1)
            (Some (error_to_string error)) peer_addrs
      | _ => panic
      end
  end.

Definition from_peers (schedule : list ChunkMeta → list ChunkMeta) (peer_addrs : list socket_addr)
    (output_path : path) (options : DownloadFileOptions) : net Manifest :=
  match peer_addrs with
  | [] => throw NoPeersProvided
  | _ => from_peers_loop schedule output_path options (zlen peer_addrs) 0 None peer_addrs
  end.
End download.

(** * Bounds of the window *)
Lemma initial_request_window_bounds n :
  1 ≤ n → 1 ≤ initial_request_window n ≤ n ∧ initial_request_window n ≤ 4.
Proof. unfold initial_request_window. lia. Qed.

(** Doubling never overflows below half the address space. *)
Lemma maybe_grow_bounds active since n :
  1 ≤ active ≤ n → 2 * active ≤ u64_max → 0 ≤ since →
  let '(active', since') := maybe_grow_request_window active since n in
  active ≤ active' ≤ n ∧ active' ≤ 2 * active ∧ 0 ≤ since' ≤ since
  ∧ (active' = active → since' = since) ∧ (active < n → active ≤ since → active < active').
Proof.
  intros Ha Hw Hs. unfold maybe_grow_request_window. repeat case_decide; try lia.
  unfold as_u64, u64_max in *. rewrite Z.mod_small by lia. lia.
Qed.

(** * Temporary names *)
Lemma last_byte_app s1 s2 : s2 ≠ ""%string → last (str_bytes (s1 +:+ s2)) = last (str_bytes s2).
Proof.
  intros Hne. rewrite str_bytes_app, last_app. destruct (last (str_bytes s2)) as [b|] eqn:Hl; [done|].
  apply last_None in Hl. exfalso. apply Hne. by apply str_bytes_inj.
Qed.

Lemma part_name_chunk i t j : part_name i t ≠ chunk_file_name j.
Proof.
  intros Heq%(f_equal (λ s, last (str_bytes s))). unfold part_name, chunk_file_name in Heq.
  rewrite (last_byte_app (dec_pad6 j)) in Heq by done.
  replace (dec_pad6 i +:+ "." +:+ CHUNK_EXTENSION +:+ "." +:+ dec t +:+ ".part")
    with ((dec_pad6 i +:+ "." +:+ CHUNK_EXTENSION +:+ "." +:+ dec t) +:+ ".part") in Heq
    by (by rewrite !str_app_assoc).
  rewrite last_byte_app in Heq by done. vm_compute in Heq. done.
Qed.

Lemma part_path_chunk paths i t j : chunks_dir paths ++ [part_name i t] ≠ chunk_path paths j.
Proof. intros Heq. apply app_inj_tail in Heq as [_ Heq]. by apply part_name_chunk in Heq. Qed.

(** * The invariant of the main loop *)
Section window_spec.
Context `{Blake3Laws} `{Bincode WireMessage} `{DiskFormat}.
Context (manifest : Manifest) (peer_available : gset Z) (output_state_dir : option path)
        (log_level : TransferLogLevel) (share_id : ShareId) (max_request_window : Z).
Context (lib : option LibraryPaths) (w0 : World).
Let metas := mf_chunks manifest.
Let streaming := match lib with Some _ => true | None => false end.
Context (Hmetas : Forall ChunkMeta_wf metas) (Hmax : 1 ≤ max_request_window).

(** Files of the share directory. *)
Definition dl_files (q : path) : Prop := ∃ paths, lib = Some paths ∧ share_dir paths `prefix_of` q.

(** A chunk file is the one it was, or matches the manifest. *)
Definition chunks_sound (w : World) : Prop :=
  ∀ paths i d, lib = Some paths → u32_range i → file_at (w_fs w) (chunk_path paths i) = Some d →
    file_at (w_fs w0) (chunk_path paths i) = Some d
    ∨ ∃ meta, meta ∈ metas ∧ cm_index meta = i ∧ hash_chunk d = cm_blake3_hash meta.

Definition safe (w : World) : Prop := keeps dl_files w0 w ∧ chunks_sound w.

(** What is recorded as complete is stored and verified. *)
Definition library_inv (s : Window) (w : World) : Prop :=
  match lib with
  | Some paths =>
      ∃ st, wi_library s = Some st ∧ ad_paths st = paths ∧ progress_wf (ad_progress st)
        ∧ wi_completed s = progress_set (ad_progress st)
        ∧ ∀ i, i ∈ wi_completed s → verified (w_fs w) paths metas i
  | None =>
      wi_library s = None
      ∧ ∀ i, i ∈ wi_completed s → ∃ c meta, wi_chunks s !! i = Some c ∧ meta ∈ metas ∧ cm_index meta = i
                                      ∧ hash_chunk (ec_data c) = cm_blake3_hash meta
  end.

Definition requests_inv (s : Window) : Prop :=
  (wi_next_meta s ≤ length metas)%nat
  ∧ (∀ i meta, wi_in_flight s !! i = Some meta → meta ∈ metas ∧ cm_index meta = i)
  ∧ ∀ k meta, (k < wi_next_meta s)%nat → metas !! k = Some meta →
      cm_index meta ∈ wi_completed s ∨ cm_index meta ∉ peer_available ∨ is_Some (wi_in_flight s !! cm_index meta).

(** Requests not yet answered or made. *)
Definition window_measure (s : Window) : nat :=
  (length metas - wi_next_meta s + size (wi_in_flight s))%nat.

(** The window stays open; a list of chunks is shorter than half the address
    space. *)
Definition growth_inv (s : Window) : Prop :=
  0 ≤ wi_since s ∧ wi_since s + Z.of_nat (window_measure s) ≤ zlen metas
  ∧ (2 * zlen metas ≤ u64_max → 1 ≤ wi_active s).

Definition window_inv (s : Window) (w : World) : Prop :=
  safe w ∧ library_inv s w ∧ requests_inv s ∧ growth_inv s.

Lemma in_flight_range s i meta : requests_inv s → wi_in_flight s !! i = Some meta → u32_range i.
Proof using Hmetas.
  intros (_ & Hr & _) Hi. apply Hr in Hi as [Hin <-]. rewrite Forall_forall in Hmetas. by apply Hmetas.
Qed.

Lemma safe_kept w w' : keeps (λ _, False) w w' → safe w → safe w'.
Proof.
  intros Hk [Hk0 Hs]. split; [etrans; [exact Hk0|]; eapply keeps_mono; [|exact Hk]; done|].
  intros paths i d Hp Hi Hd. destruct Hk as [_ Hf]. rewrite Hf in Hd by auto. by apply Hs.
Qed.

Lemma library_kept s w w' : keeps (λ _, False) w w' → library_inv s w → library_inv s w'.
Proof.
  intros [_ Hf]. unfold library_inv. destruct lib as [paths|]; [|done].
  intros (st & ? & ? & ? & ? & Hv). exists st. split_and!; try done. intros i Hi.
  destruct (Hv i Hi) as (meta & d & ? & ? & Hd & ?). exists meta, d. split_and!; try done. by rewrite Hf by auto.
Qed.

Lemma window_kept s w w' : keeps (λ _, False) w w' → window_inv s w → window_inv s w'.
Proof. intros Hk (? & ? & ?). split; [by eapply safe_kept|]. split; [by eapply library_kept|done]. Qed.

(** Requesting more chunks. *)
Lemma wp_request_round s w :
  window_inv s w →
  wp (request_round manifest peer_available s)
    (λ r w', match r with
             | inl s' => window_inv s' w' ∧ (window_measure s' ≤ window_measure s)%nat
                         ∧ (length metas - wi_next_meta s' < length metas - wi_next_meta s)%nat
             | inr s' => s' = s ∧ w' = w
                 ∧ (wi_active s ≤ Z.of_nat (size (wi_in_flight s)) ∨ wi_next_meta s = length metas)
             end) (λ _ w', safe w') w.
Proof using Hmetas.
  intros (Hs & Hl & (Hn & Hr & Hcov) & (Hg1 & Hg2 & Hg3)). unfold request_round. case_decide; wp_simpl.
  2: { split_and!; [done|done|]. left. lia. }
  destruct (mf_chunks manifest !! wi_next_meta s) as [meta|] eqn:Hm; wp_simpl.
  2: { split_and!; [done|done|]. right. apply lookup_ge_None in Hm. fold metas in Hm. lia. }
  pose proof (lookup_lt_Some _ _ _ Hm) as Hlt. fold metas in Hlt, Hm.
  assert (∀ fl w', keeps (λ _, False) w w' →
    (∀ i m, fl !! i = Some m → m ∈ metas ∧ cm_index m = i) → (size fl ≤ S (size (wi_in_flight s)))%nat →
    (∀ i, is_Some (wi_in_flight s !! i) → is_Some (fl !! i)) →
    (cm_index meta ∈ wi_completed s ∨ cm_index meta ∉ peer_available ∨ is_Some (fl !! cm_index meta)) →
    window_inv (set_requests s (S (wi_next_meta s)) fl) w'
    ∧ (window_measure (set_requests s (S (wi_next_meta s)) fl) ≤ window_measure s)%nat
    ∧ (length metas - S (wi_next_meta s) < length metas - wi_next_meta s)%nat) as Hnext.
  { intros fl w' Hk Hfl Hsz Hsub Hnew.
    assert (window_measure (set_requests s (S (wi_next_meta s)) fl) ≤ window_measure s)%nat as Hms
      by (unfold window_measure; cbn; lia).
    split; [|lia]. split; [by eapply safe_kept|]. split; [by eapply library_kept|]. split.
    - split; [cbn; lia|]. split; [exact Hfl|]. cbn [set_requests wi_next_meta wi_completed wi_in_flight].
      intros k m Hk' Hmk. destruct (decide (k = wi_next_meta s)) as [->|]; [by simplify_eq|].
      destruct (Hcov k m) as [?|[?|?]]; [lia|done|by left|by right; left|right; right; by apply Hsub].
    - split; [done|]. split; [cbn [set_requests wi_since]; lia|done]. }
  repeat case_decide; wp_simpl; [apply Hnext; [done|done|lia|done|by left]|apply Hnext; [done|done|lia|done|by right; left]|].
  apply wp_send.
  - intros e out w' Hsent _. eapply safe_kept; [by eapply sent_keeps|done].
  - intros f w' _ Hsent. wp_simpl. apply Hnext; [by eapply sent_keeps| | | |].
    + intros i m [[<- <-]|[_ ?]]%lookup_insert_Some; [|by apply Hr].
      split; [by eapply list_elem_of_lookup_2|done].
    + destruct (wi_in_flight s !! cm_index meta) as [x|] eqn:Hx.
      * rewrite map_size_insert_Some; [lia|by rewrite Hx].
      * rewrite map_size_insert_None; [lia|done].
    + intros i Hi. rewrite lookup_insert. case_decide; [by eexists|done].
    + right. right. rewrite lookup_insert_eq. by eexists.
Qed.

Lemma wp_request_chunks s w :
  window_inv s w →
  wp (request_chunks manifest peer_available s)
    (λ s' w', window_inv s' w' ∧ (window_measure s' ≤ window_measure s)%nat
       ∧ (wi_active s' ≤ Z.of_nat (size (wi_in_flight s')) ∨ wi_next_meta s' = length metas))
    (λ _ w', safe w') w.
Proof using Hmetas.
  intros Hinv. unfold request_chunks.
  apply (wp_mloop _ (λ s' w', window_inv s' w' ∧ (window_measure s' ≤ window_measure s)%nat)
    (λ s' _, (length metas - wi_next_meta s')%nat)); [done|fold metas; lia|].
  intros s1 w1 [Hinv1 Hm1]. wp_call (wp_request_round s1 w1 Hinv1); [|done].
  intros [s2|s2] w2.
  - intros (? & ? & ?). split; [split; [done|lia]|done].
  - by intros (-> & -> & Hexit).
Qed.

(** ** Handling an answer *)
Lemma take_in_flight_cases s i :
  (∃ meta, wi_in_flight s !! i = Some meta ∧ take_in_flight s i = Ok (meta, delete i (wi_in_flight s)))
  ∨ ∃ e, take_in_flight s i = Err e.
Proof. unfold take_in_flight. destruct (wi_in_flight s !! i) as [meta|]; [left|right]; by eexists. Qed.

Lemma wp_remove_file_if_exists (P : path → Prop) p w :
  P p → wp (remove_file_if_exists p) (λ _ w', keeps P w w') (λ _ _, False) w.
Proof.
  intros HP. unfold remove_file_if_exists. wp_simpl. destruct (path_exists p w); wp_simpl; [|done].
  apply wp_remove_file.
  - intros k w' Hst _. wp_simpl. by apply stepped_keeps.
  - intros d w' _ Hst. wp_simpl. eapply fs_step_keeps; [done|]. intros q Hq.
    rewrite file_at_delete, decide_False; [done|congruence].
Qed.

(** The temporary file is in the chunk directory but is no chunk. *)
Definition temp_ok (temp : option path) : Prop :=
  match lib with
  | Some paths => ∃ i t, temp = Some (chunks_dir paths ++ [part_name i t])
  | None => temp = None
  end.

Lemma temp_safe temp w w' : temp_ok temp → keeps (λ q, temp = Some q) w w' → safe w → safe w'.
Proof.
  intros Ht Hk [Hk0 Hs]. unfold temp_ok, safe, dl_files, chunks_sound in *.
  assert (∀ q, temp = Some q → ∃ paths, lib = Some paths ∧ share_dir paths `prefix_of` q) as Hdl.
  { intros q ->. destruct lib as [paths|]; [|done]. destruct Ht as (i & t & [= ->]). exists paths.
    split; [done|]. unfold chunks_dir. rewrite <- app_assoc. by eexists. }
  split; [etrans; [exact Hk0|eapply keeps_mono; [exact Hdl|exact Hk]]|].
  intros paths i d Hp Hi Hd. destruct Hk as [_ Hf]. rewrite Hf in Hd; [by apply Hs|].
  intros Heq. rewrite Hp in Ht. destruct Ht as (j & t & Ht). rewrite Ht in Heq. injection Heq as Heq.
  by apply part_path_chunk in Heq.
Qed.

Lemma temp_library temp s w w' : temp_ok temp → keeps (λ q, temp = Some q) w w' → library_inv s w → library_inv s w'.
Proof.
  intros Ht [_ Hf]. unfold library_inv, temp_ok in *. destruct lib as [paths|]; [|done].
  intros (st & ? & ? & ? & ? & Hv). exists st. split_and!; try done. intros i Hi.
  destruct (Hv i Hi) as (meta & d & ? & ? & Hd & ?). exists meta, d. split_and!; try done. rewrite Hf; [done|].
  destruct Ht as (j & t & ->). intros [= Heq]. by apply part_path_chunk in Heq.
Qed.

Lemma temp_window temp s w w' : temp_ok temp → keeps (λ q, temp = Some q) w w' → window_inv s w → window_inv s w'.
Proof. intros ?? (?&?&?). split; [by eapply temp_safe|]. split; [by eapply temp_library|done]. Qed.

(** Other chunk files survive the persisting of chunk [i]. *)
Lemma persist_other paths i temp j w w' :
  temp_ok temp → lib = Some paths → u32_range i → u32_range j → j ≠ i →
  keeps (persist_files paths i temp) w w' →
  file_at (w_fs w') (chunk_path paths j) = file_at (w_fs w) (chunk_path paths j).
Proof.
  intros Ht Hlib Hi Hj Hne [_ Hf]. apply Hf. intros [Hm|[Hh|[Heq|Heq]]].
  - by apply meta_files_chunk in Hm.
  - apply hidden_files_chunk in Hh; [done|apply Hj].
  - unfold temp_ok in Ht. rewrite Hlib in Ht. destruct Ht as (a & t & ->). injection Heq as Heq.
    by apply part_path_chunk in Heq.
  - apply chunk_path_inj in Heq; [done|apply Hj|apply Hi].
Qed.

Lemma persist_keeps paths i temp w w' :
  temp_ok temp → lib = Some paths → keeps (persist_files paths i temp) w w' → keeps dl_files w w'.
Proof.
  intros Ht Hlib. apply keeps_mono. intros q Hq. exists paths. split; [done|].
  unfold temp_ok in Ht. rewrite Hlib in Ht. destruct Ht as (a & t & ->).
  destruct Hq as [[n ->]|[(n & -> & _)|[[= <-]| ->]]]; unfold chunk_path, chunks_dir; rewrite <- ?app_assoc; by eexists.
Qed.

Lemma persist_sound_any paths i temp meta w w' :
  temp_ok temp → lib = Some paths → u32_range i → meta ∈ metas → cm_index meta = i →
  keeps (persist_files paths i temp) w w' →
  (∀ d, file_at (w_fs w') (chunk_path paths i) = Some d →
        file_at (w_fs w) (chunk_path paths i) = Some d ∨ hash_chunk d = cm_blake3_hash meta) →
  safe w → safe w'.
Proof.
  intros Ht Hlib Hi Hin Hidx Hk Hrep [Hk0 Hs].
  split; [etrans; [exact Hk0|by eapply persist_keeps]|]. intros p j d' Hp Hj Hd'.
  assert (p = paths) as -> by congruence. destruct (decide (j = i)) as [->|Hne].
  - destruct (Hrep d' Hd') as [Hold|?]; [by apply Hs|]. right. by exists meta.
  - rewrite (persist_other paths i temp j w w') in Hd' by done. by apply Hs.
Qed.

Lemma persist_sound paths i temp meta d w w' :
  temp_ok temp → lib = Some paths → u32_range i → meta ∈ metas → cm_index meta = i →
  hash_chunk d = cm_blake3_hash meta → keeps (persist_files paths i temp) w w' →
  file_at (w_fs w') (chunk_path paths i) ∈ [file_at (w_fs w) (chunk_path paths i); None; Some d] →
  safe w → safe w'.
Proof.
  intros Ht Hlib Hi Hin Hidx Hh Hk Hrep. eapply persist_sound_any; [done|done|exact Hi|exact Hin|done|done|].
  intros d' Hd'. rewrite Hd', !elem_of_cons, elem_of_nil in Hrep. destruct Hrep as [?|[?|[[= ->]|[]]]]; [by left|done|by right].
Qed.

(** What the rest of the round needs once chunk [i] is stored. *)
Definition stored (s : Window) (i : Z) (library : option ActiveDownloadLibraryState)
    (chunks : gmap Z EncryptedChunk) (w : World) : Prop :=
  safe w ∧ library_inv (mkWindow 0 0 0 ∅ library chunks ({[i]} ∪ wi_completed s)) w.

Lemma grow_active active since :
  1 ≤ active → 2 * zlen metas ≤ u64_max → since ≤ zlen metas →
  1 ≤ (maybe_grow_request_window active since max_request_window).1.
Proof using Hmax.
  intros Ha Hz Hs. unfold maybe_grow_request_window. repeat case_decide; cbn [fst]; try lia.
  unfold as_u64, u64_max in *. rewrite Z.mod_small by lia. lia.
Qed.

Lemma grow_since active since : 0 ≤ since →
  0 ≤ (maybe_grow_request_window active since max_request_window).2 ≤ since.
Proof. intros Hs. unfold maybe_grow_request_window. repeat case_decide; cbn [snd]; lia. Qed.

Lemma wp_chunk_received s i meta library chunks n w (R : NetworkError → World → Prop) :
  requests_inv s → growth_inv s → wi_in_flight s !! i = Some meta → stored s i library chunks w →
  wp (chunk_received manifest log_level share_id max_request_window s (delete i (wi_in_flight s)) library chunks i n)
    (λ s' w', window_inv s' w' ∧ (window_measure s' < window_measure s)%nat) R w.
Proof using All.
  intros (Hn & Hr & Hcov) (Hg1 & Hg2 & Hg3) Hi [Hs Hl]. unfold chunk_received. wp_simpl.
  apply wp_for_share_progress. intros w' He Hf.
  assert (keeps (λ _, False) w w') as Hk by (split; [done|by rewrite Hf]).
  set (since := saturating_add usize_max (wi_since s) 1).
  assert (size (delete i (wi_in_flight s)) < size (wi_in_flight s))%nat as Hsz.
  { rewrite map_size_delete_Some; [|by rewrite Hi]. assert (size (wi_in_flight s) ≠ 0)%nat; [|lia].
    intros Hz%map_size_empty_inv. by rewrite Hz in Hi. }
  assert (0 ≤ since ≤ wi_since s + 1) as Hsince by (unfold since, saturating_add, usize_max; lia).
  pose proof (grow_since (wi_active s) since) as Hgs.
  pose proof (grow_active (wi_active s) since) as Hga.
  destruct (maybe_grow_request_window (wi_active s) since max_request_window) as [active' since'].
  cbn [fst snd] in Hgs, Hga. wp_simpl.
  set (s' := mkWindow _ _ _ _ _ _ _).
  assert (window_measure s' < window_measure s)%nat as Hms by (unfold window_measure, s'; cbn; lia).
  split; [|done]. split; [by eapply safe_kept|]. split; [by eapply (library_kept (mkWindow 0 0 0 ∅ _ _ _))|].
  split; [split; [done|split]|split; [cbn; lia|split; [cbn [wi_since s']; lia|]]].
  - intros j m Hj. cbn [s' wi_in_flight] in Hj. apply lookup_delete_Some in Hj as [_ Hj]. by apply Hr.
  - intros k m Hk' Hm. cbn [s' wi_completed wi_in_flight wi_next_meta] in *.
    destruct (decide (cm_index m = i)) as [->|Hne]; [left; set_solver|].
    destruct (Hcov k m Hk' Hm) as [?|[?|?]]; [left; set_solver|by right; left|].
    right. right. by rewrite lookup_delete_ne.
  - intros Hz. cbn [wi_active s']. apply Hga; [by apply Hg3|done|]. lia.
Qed.

Lemma chunk_hash_eq d h : blake3_hash d = chunk_hash_bytes h → hash_chunk d = h.
Proof. intros Hd. destruct h. unfold hash_chunk, hash_bytes. by rewrite Hd. Qed.

(** Chunk [i], with content [d], was persisted in the library. *)
Lemma stored_library s i meta temp paths st st' d w w' :
  lib = Some paths → temp_ok temp → window_inv s w → wi_in_flight s !! i = Some meta →
  wi_library s = Some st → ad_paths st = paths → hash_chunk d = cm_blake3_hash meta →
  keeps (persist_files paths i temp) w w' → file_at (w_fs w') (chunk_path paths i) = Some d →
  ad_paths st' = paths → ad_progress st' = mark_completed (ad_progress st) i →
  stored s i (Some st') (wi_chunks s) w'.
Proof using Hmetas.
  intros Hlib Ht (Hs & Hl & Hr & _) Hi Hst Hp Hh Hk Hd Hp' Hpr'.
  pose proof (in_flight_range s i meta Hr Hi) as Hir. destruct Hr as (_ & Hr & _).
  destruct (Hr _ _ Hi) as [Hin Hidx]. split.
  - eapply persist_sound; [exact Ht|exact Hlib|exact Hir|exact Hin|done|done|exact Hk| |done].
    rewrite Hd. right. right. left.
  - unfold library_inv in *. rewrite Hlib in *. destruct Hl as (st0 & Hst0 & _ & Hwf & Hc & Hv).
    assert (st0 = st) as -> by congruence. exists st'. cbn [wi_library wi_completed].
    split_and!; [done|done|by rewrite Hpr'; apply mark_completed_wf|by rewrite Hpr', mark_completed_set, Hc|].
    intros j [->%elem_of_singleton|Hj]%elem_of_union; [by exists meta, d|].
    destruct (decide (j = i)) as [->|Hne]; [by exists meta, d|].
    destruct (Hv j Hj) as (m & d' & Hmj & Hmi & Hdj & Hhj). exists m, d'. split_and!; try done.
    rewrite (persist_other paths i temp j w w'); try done.
    rewrite <- Hmi. rewrite Forall_forall in Hmetas. by apply Hmetas.
Qed.

Lemma lib_cases : (∃ paths, lib = Some paths ∧ streaming = true) ∨ (lib = None ∧ streaming = false).
Proof. unfold streaming. destruct lib as [paths|]; [left; by exists paths|by right]. Qed.

(** An answer as [receive_answer] delivers it. *)
Definition answer_ok (received : ReceivedChunkFrame * option path) (w : World) : Prop :=
  temp_ok received.2 ∧
  match received with
  | (RawChunkFile chunk, Some temp) =>
      ∃ d, file_at (w_fs w) temp = Some d ∧ rc_blake3_hash chunk = blake3_hash d
  | (RawChunkFile _, None) => False
  | (Message _, _) => True
  end.

Lemma wp_remove_temp temp w :
  wp (remove_temp temp) (λ _ w', keeps (λ q, temp = Some q) w w') (λ _ _, False) w.
Proof. destruct temp as [p|]; cbn [remove_temp]; [by apply wp_remove_file_if_exists|by wp_simpl]. Qed.

Lemma temp_lib temp : temp_ok (Some temp) → ∃ paths, lib = Some paths.
Proof. unfold temp_ok. destruct lib as [paths|]; [by eexists|done]. Qed.

Lemma wp_handle_raw s chunk temp w :
  window_inv s w → answer_ok (RawChunkFile chunk, Some temp) w →
  wp (handle_answer manifest streaming output_state_dir log_level share_id max_request_window s
        (RawChunkFile chunk, Some temp))
    (λ s' w', window_inv s' w' ∧ (window_measure s' < window_measure s)%nat) (λ _ w', safe w') w.
Proof using All.
  intros Hinv [Ht (d & Hd & Hhash)]. cbn [handle_answer snd] in *. wp_simpl.
  pose proof Hinv as (Hs & Hl & Hr & Hg). destruct (temp_lib _ Ht) as [paths Hlib].
  destruct (take_in_flight_cases s (rc_index chunk)) as [(meta & Hi & ->)|(e & ->)]; [|done].
  pose proof (in_flight_range _ _ _ Hr Hi) as Hir. pose proof Hr as (_ & Hr2 & _). destruct (Hr2 _ _ Hi) as [Hin Hidx].
  case_decide as Hc; wp_simpl.
  { wp_call (wp_remove_file_if_exists (λ q, Some temp = Some q)); [done| |done].
    intros _ w' Hk. wp_simpl. by eapply temp_safe. }
  rewrite Hhash in Hc. apply chunk_hash_eq in Hc.
  unfold library_inv in Hl. rewrite Hlib in Hl. destruct Hl as (st & Hst & Hp & Hwf & _). rewrite Hst.
  assert (temp ≠ chunk_path (ad_paths st) (rc_index chunk)) as Hne.
  { unfold temp_ok in Ht. rewrite Hlib in Ht. destruct Ht as (a & t & [= ->]). rewrite Hp. apply part_path_chunk. }
  wp_call wp_persist_downloaded_chunk_file; [done|done|exact Hd|done| |].
  - intros r w' (Hk & Hf & st' & -> & Hp' & Hpr'). rewrite Hp in *.
    eapply wp_chunk_received; [done|done|exact Hi|].
    eapply stored_library; [exact Hlib|exact Ht|done|exact Hi|done|done|done|done|done|done|done].
  - intros e w' [Hk Hrep]. rewrite Hp in *.
    eapply persist_sound; [exact Ht|done|done|exact Hin|done|done|exact Hk|exact Hrep|done].
Qed.

Lemma wp_handle_chunk s index data temp w :
  window_inv s w → temp_ok temp →
  wp (handle_answer manifest streaming output_state_dir log_level share_id max_request_window s
        (Message (Chunk index data), temp))
    (λ s' w', window_inv s' w' ∧ (window_measure s' < window_measure s)%nat) (λ _ w', safe w') w.
Proof using All.
  intros Hinv Ht. cbn [handle_answer]. wp_simpl. wp_call wp_remove_temp; [|done].
  intros _ w1 Hk1. apply (temp_window _ _ _ _ Ht Hk1) in Hinv. clear Hk1 w. wp_simpl.
  pose proof Hinv as (Hs & Hl & Hr & Hg).
  destruct (take_in_flight_cases s index) as [(meta & Hi & ->)|(e & ->)]; [|done].
  pose proof (in_flight_range _ _ _ Hr Hi) as Hir. pose proof Hr as (_ & Hr2 & _). destruct (Hr2 _ _ Hi) as [Hin Hidx].
  case_decide as Hc; wp_simpl; [done|].
  unfold library_inv in Hl. destruct lib_cases as [(paths & Hlib & Hstr)|[Hlib Hstr]]; rewrite Hlib in Hl; rewrite Hstr.
  - destruct Hl as (st & Hst & Hp & Hwf & _). rewrite Hst.
    assert (∀ w', keeps (persist_files paths index None) w1 w' → keeps (persist_files paths index temp) w1 w') as Hkw.
    { intros w'. apply keeps_mono. intros q [?|[?|[?|?]]]; [by left|by right; left|done|by right; right; right]. }
    wp_call wp_persist_downloaded_chunk; [done|done| |].
    + cbn [ec_index ec_data]. intros r w' (Hk & Hf & st' & -> & Hp' & Hpr'). rewrite Hp in *. apply Hkw in Hk.
      eapply wp_chunk_received; [done|done|exact Hi|].
      eapply stored_library; [exact Hlib|exact Ht|done|exact Hi|done|done|done|done|done|done|done].
    + cbn [ec_index ec_data]. intros e w' [Hk Hrep]. rewrite Hp in *. apply Hkw in Hk.
      eapply persist_sound; [exact Ht|done|done|exact Hin|done|done|exact Hk|exact Hrep|done].
  - destruct Hl as [Hnone Hl]. rewrite Hnone. cbn [persist_downloaded_chunk]. wp_simpl.
    eapply wp_chunk_received; [done|done|exact Hi|]. split; [done|]. unfold library_inv. rewrite Hlib.
    split; [done|]. cbn [wi_completed wi_chunks]. intros j [->%elem_of_singleton|Hj]%elem_of_union.
    + exists (mkEncryptedChunk index data), meta. rewrite lookup_insert_eq. by split_and!.
    + destruct (decide (j = index)) as [->|Hne].
      * exists (mkEncryptedChunk index data), meta. rewrite lookup_insert_eq. by split_and!.
      * destruct (Hl j Hj) as (c & m & ? & ? & ? & ?). exists c, m. rewrite lookup_insert_ne by done. done.
Qed.

Lemma wp_handle_answer s received w :
  window_inv s w → answer_ok received w →
  wp (handle_answer manifest streaming output_state_dir log_level share_id max_request_window s received)
    (λ s' w', window_inv s' w' ∧ (window_measure s' < window_measure s)%nat) (λ _ w', safe w') w.
Proof using All.
  intros Hinv Ha. destruct received as [[chunk|m] temp].
  - destruct temp as [temp|]; [by apply wp_handle_raw|]. by destruct Ha.
  - destruct Ha as [Ht _]. cbn [snd] in Ht. destruct m; try (by apply wp_handle_chunk);
      cbn [handle_answer]; wp_simpl; (wp_call wp_remove_temp; [|done]); intros _ w' Hk; wp_simpl;
      by eapply temp_safe; [| |apply Hinv].
Qed.

Lemma wp_receive_answer s w :
  window_inv s w →
  wp (receive_answer streaming s) (λ r w', window_inv s w' ∧ answer_ok r w') (λ _ w', safe w') w.
Proof using All.
  intros Hinv. unfold receive_answer. destruct lib_cases as [(paths & Hlib & Hstr)|[Hlib Hstr]]; rewrite Hstr; wp_simpl.
  - pose proof Hinv as (_ & Hl & _). unfold library_inv in Hl. rewrite Hlib in Hl.
    destruct Hl as (st & Hst & Hp & _). rewrite Hst. unfold download_chunk_temp_path, active_download_state.
    cbn [ok_or]. wp_simpl. unfold staging_timestamp. apply wp_unix_nanos. intros t w1 Hst1. wp_simpl. rewrite Hp.
    assert (temp_ok (Some (chunks_dir paths ++ [part_name 0 t]))) as Ht
      by (unfold temp_ok; rewrite Hlib; by exists 0, t).
    eapply window_kept in Hinv as Hinv1; [|by apply stepped_keeps]. set (temp := chunks_dir paths ++ _) in *.
    assert (∀ w2, rx_to (Some temp) w1 w2 → window_inv s w2) as Hrx.
    { intros w2 Hrx. eapply temp_window; [exact Ht| |exact Hinv1]. by eapply rx_to_keeps. }
    apply wp_receive_chunk_to_file.
    + intros e w2 Hr. by apply Hrx.
    + intros i d w2 Hr _ Hd. wp_simpl. split; [by apply Hrx|]. split; [done|]. by exists d.
    + intros m w2 Hr. wp_simpl. split; [by apply Hrx, rx_to_weaken|done].
  - apply wp_receive_any.
    + intros e w' Hr. eapply safe_kept; [by eapply rx_to_keeps|apply Hinv].
    + intros m w' Hr _. wp_simpl. split; [by eapply window_kept; [eapply rx_to_keeps|]|]. split; [|done].
      unfold temp_ok. by rewrite Hlib.
Qed.

Lemma wp_window_round s w :
  window_inv s w →
  wp (window_round manifest peer_available streaming output_state_dir log_level share_id max_request_window s)
    (λ r w', match r with
             | inl s' => window_inv s' w' ∧ (window_measure s' < window_measure s)%nat
             | inr s' => window_inv s' w' ∧ wi_in_flight s' = ∅
                 ∧ (wi_active s' ≤ 0 ∨ wi_next_meta s' = length metas)
             end) (λ _ w', safe w') w.
Proof using All.
  intros Hinv. unfold window_round. wp_simpl. wp_call (wp_request_chunks s); [done| |done].
  intros s1 w1 (Hinv1 & Hm1 & Hexit). case_decide as Hemp; wp_simpl.
  { split; [done|]. split; [done|]. rewrite Hemp, map_size_empty in Hexit. exact Hexit. }
  wp_call wp_receive_answer; [done| |done]. intros r w2 [Hinv2 Ha]. wp_simpl.
  wp_call wp_handle_answer; [done|done| |done]. intros s3 w3 [Hinv3 Hm3]. wp_simpl. split; [done|lia].
Qed.

(** Every chunk the peer offered is complete when the loop ends. *)
Definition all_received (s : Window) : Prop :=
  2 * zlen metas ≤ u64_max →
  ∀ meta, meta ∈ metas → cm_index meta ∈ peer_available → cm_index meta ∈ wi_completed s.

Lemma window_done s w :
  window_inv s w → wi_in_flight s = ∅ → (wi_active s ≤ 0 ∨ wi_next_meta s = length metas) → all_received s.
Proof.
  intros (_ & _ & (_ & _ & Hcov) & (_ & _ & Hact)) Hemp Hexit Hz meta Hin Hav.
  apply list_elem_of_lookup in Hin as [k Hk]. destruct Hexit as [Ha|Hn]; [specialize (Hact Hz); lia|].
  destruct (Hcov k meta) as [?|[?|Hs]]; [apply lookup_lt_Some in Hk; lia|done|done|done|].
  rewrite Hemp, lookup_empty in Hs. by destruct Hs.
Qed.

Lemma wp_windowed library chunks completed request_window w :
  max_request_window = Z.max request_window 1 →
  safe w → library_inv (mkWindow 0 0 0 ∅ library chunks completed) w →
  wp (download_missing_chunks_windowed manifest peer_available library chunks completed streaming
        output_state_dir log_level request_window share_id)
    (λ s w', safe w' ∧ library_inv s w' ∧ all_received s) (λ _ w', safe w') w.
Proof using All.
  intros Hmw Hs Hl. unfold download_missing_chunks_windowed. rewrite <- Hmw. wp_simpl.
  wp_call (wp_mfold _ (λ (_ : list ChunkMeta) (_ : unit) w1, keeps (λ _, False) w w1) _ _ (λ _ _, False)); [done| | |done].
  { intros done_ meta rest u w1 _ Hk. unfold report_reused. case_decide; [|by wp_simpl].
    apply wp_for_share_progress. intros w2 He Hf. by eapply keeps_same_fs. }
  intros _ w1 Hk1. wp_simpl.
  apply (wp_mloop _ window_inv (λ s _, window_measure s)).
  - split; [by eapply safe_kept|]. split; [by eapply (library_kept (mkWindow 0 0 0 ∅ _ _ _))|].
    split; [split; [cbn; lia|split; [done|cbn; lia]]|].
    split; [done|]. split; [unfold window_measure, zlen; cbn; rewrite map_size_empty; lia|].
    intros _. cbn [wi_active]. apply initial_request_window_bounds. lia.
  - unfold window_measure. cbn. rewrite map_size_empty. fold metas. lia.
  - intros s w2 Hinv. wp_call wp_window_round; [done| |done]. intros [s'|s'] w3; [done|].
    intros (Hinv' & Hemp & Hexit). split; [apply Hinv'|]. split; [apply Hinv'|]. by eapply window_done.
Qed.
End window_spec.

(** * Talking to a peer touches no file *)
Definition nofile : path → Prop := λ _, False.
Definition quiet {A} (m : net A) : Prop :=
  ∀ w, wp m (λ _ w', keeps nofile w w') (λ _ w', keeps nofile w w') w.
Definition total {E A} (r : result E A) : Prop := r ≠ Panic ∧ r ≠ Diverged.

Lemma keeps_nofile P w w' : keeps nofile w w' → keeps P w w'.
Proof. by apply keeps_mono. Qed.

Lemma quiet_ret {A} (a : A) : quiet (ret a).
Proof. intros w. by wp_simpl. Qed.
Lemma quiet_throw {A} e : quiet (throw (A := A) e).
Proof. intros w. by wp_simpl. Qed.
Lemma quiet_lift {A} (r : result NetworkError A) : total r → quiet (lift_result r).
Proof. intros [? ?] w. wp_simpl. by destruct r. Qed.
Lemma quiet_lift_map {A E'} (f : E' → NetworkError) (r : result E' A) :
  total r → quiet (lift_result (result_map_err f r)).
Proof. intros [? ?]. apply quiet_lift. by destruct r. Qed.
Lemma quiet_bind {A B} (m : net A) (k : A → net B) : quiet m → (∀ a, quiet (k a)) → quiet (bind m k).
Proof.
  intros Hm Hk w. wp_simpl. wp_call Hm; [|done]. intros a w1 Hk1. wp_call Hk; intros ? w2 Hk2; by etrans.
Qed.
Lemma quiet_send `{Bincode WireMessage} m : quiet (map_err NE_Protocol (send m)).
Proof. intros w. wp_simpl. apply wp_send; intros; by eapply sent_keeps. Qed.
Lemma quiet_receive `{Bincode WireMessage} : quiet (map_err NE_Protocol receive).
Proof. intros w. wp_simpl. apply wp_receive_any; intros; by eapply rx_to_keeps. Qed.
Lemma quiet_generate `{Blake3, X25519} : quiet keypair_generate.
Proof. intros w. unfold keypair_generate. wp_simpl. unfold wp at 1. cbn [fill_bytes]. by wp_simpl. Qed.
Lemma quiet_connect addr : quiet (connect_peer addr).
Proof.
  intros w. unfold connect_peer. wp_simpl. apply wp_faulty; [done|]. intros _. unfold wp.
  by destruct (env_connect _ _ _).
Qed.

Lemma total_diffie_hellman `{Blake3, X25519} k p : total (diffie_hellman k p).
Proof. unfold diffie_hellman, total. by case_match. Qed.
Lemma total_verify_auth_tag a b : total (verify_auth_tag a b).
Proof. unfold verify_auth_tag, total. by case_match. Qed.
Lemma total_validate_capabilities v l : total (validate_capabilities v l).
Proof. destruct (validate_capabilities_total v l) as [->|[e ->]]; done. Qed.
Lemma total_unwrap_file_key `{Aead} k f x : total (unwrap_file_key k f x).
Proof.
  unfold unwrap_file_key, decrypt_chunk, total. destruct (aead_decrypt _ _ _ _) as [b|]; cbn [ok_or result_bind]; [|done].
  by destruct (to_array 32 b).
Qed.
#[export] Hint Resolve total_diffie_hellman total_verify_auth_tag total_validate_capabilities
  total_unwrap_file_key : etle.
#[export] Hint Resolve quiet_ret quiet_throw quiet_lift quiet_lift_map quiet_send quiet_receive quiet_generate
  quiet_connect : etle.

(** [hush] runs through the structure of a conversation. *)
Ltac hush := repeat (cbv beta iota zeta; match goal with
  | |- quiet (bind _ _) => apply quiet_bind; [|intros ?]
  | |- quiet (match ?x with _ => _ end) => destruct x
  | |- quiet _ => solve [eauto with etle]
  end).

Section conversation.
Context `{Blake3, X25519, Aead} `{Bincode WireMessage}.

Lemma quiet_handshake id : quiet (client_protocol_handshake id).
Proof.
  unfold client_protocol_handshake, client_hello_handshake, receive_hello, exchange_capabilities_as_client,
    send_local_capabilities, receive_and_validate_peer_capabilities. hush.
Qed.

Lemma quiet_server_handshake id : quiet (server_protocol_handshake id).
Proof.
  unfold server_protocol_handshake, server_hello_handshake, receive_hello, exchange_capabilities_as_server,
    send_local_capabilities, receive_and_validate_peer_capabilities. hush.
Qed.

Lemma quiet_client_exchange psk : quiet (client_transfer_session_key_exchange psk).
Proof.
  unfold client_transfer_session_key_exchange, client_authenticated_session_key_exchange,
    client_session_key_exchange, client_unauthenticated_session_key_exchange, receive_key, receive_auth_proof. hush.
Qed.

Lemma quiet_availability : quiet receive_peer_availability.
Proof. unfold receive_peer_availability. hush. Qed.

Lemma wp_receive_manifest `{!WireTyped} w :
  wp receive_manifest (λ m w', keeps nofile w w' ∧ Forall ChunkMeta_wf (mf_chunks m)) (λ _ w', keeps nofile w w') w.
Proof.
  unfold receive_manifest. wp_simpl. apply wp_receive_carries; [intros; by eapply rx_to_keeps|].
  intros m f w' Hc Hin _ Hst. apply (recv_step_keeps nofile) in Hst. destruct m; wp_simpl; try done.
  split; [done|]. destruct Hc as [(? & ? & ? & _)|(b & pl & _ & _ & Hdec)]; [done|].
  exact (wire_typed _ _ _ Hdec).
Qed.

Lemma wp_connect_download_peer `{!WireTyped} addr id share psk w :
  wp (connect_download_peer addr id share psk)
    (λ p w', keeps nofile w w' ∧ Forall ChunkMeta_wf (mf_chunks (cp_manifest p))) (λ _ w', keeps nofile w w') w.
Proof.
  unfold connect_download_peer, send_requested_share_if_needed. wp_simpl.
  wp_call (quiet_connect addr); [|done]. intros _ w1 Hk1. wp_simpl.
  wp_call (quiet_handshake id); [|intros; keep]. intros _ w2 Hk2. wp_simpl.
  wp_call (quiet_client_exchange psk); [|intros; keep]. intros key w3 Hk3. wp_simpl.
  eapply (wp_mono _ (λ _ w', keeps nofile w w') _ (λ _ w', keeps nofile w w')); [|cbn beta|done].
  { destruct share as [i|]; [|wp_simpl; keep]. wp_call (quiet_send (RequestShare i)); intros; keep. }
  intros _ w4 Hk4. wp_simpl. wp_call wp_receive_manifest; [|intros; keep]. intros m w5 [Hk5 Hm]. wp_simpl.
  assert (quiet receive_wrapped_file_key) as Hq by (unfold receive_wrapped_file_key; hush).
  wp_call Hq; [|intros; keep]. intros wrapped w6 Hk6. wp_simpl.
  destruct (total_unwrap_file_key key (mf_file_id m) wrapped) as [??].
  destruct (unwrap_file_key key (mf_file_id m) wrapped); cbn [result_map_err]; [|keep|done|done]. wp_simpl.
  wp_call quiet_availability; [|intros; keep]. intros av w7 Hk7. wp_simpl. split; [keep|done].
Qed.
End conversation.

(** * A whole download *)
Section end_to_end.
Context `{Blake3Laws, X25519, Aead} `{Bincode WireMessage} `{!WireTyped} `{DiskFormatTyped}.
Context (schedule : list ChunkMeta → list ChunkMeta) (out : path) (root : option path).

(** Everything below the library directory. *)
Definition library_files (q : path) : Prop := ∃ r, root = Some r ∧ r ++ [ETLE_DIR_NAME] `prefix_of` q.

(** Every chunk file is the one it was, or matches a manifest of its share. *)
Definition library_sound (w w' : World) : Prop :=
  ∀ r id i d, root = Some r → u32_range i →
    file_at (w_fs w') (chunk_path (for_share r id) i) = Some d →
    file_at (w_fs w) (chunk_path (for_share r id) i) = Some d
    ∨ ∃ manifest meta, d_share_id (descriptor_from_manifest manifest) = id
        ∧ meta ∈ mf_chunks manifest ∧ cm_index meta = i ∧ hash_chunk d = cm_blake3_hash meta.

Definition download_safe (w w' : World) : Prop :=
  keeps (λ q, q = out ∨ library_files q) w w' ∧ library_sound w w'.

Lemma download_safe_nofile w w' : keeps nofile w w' → download_safe w w'.
Proof.
  intros Hk. split; [by apply keeps_nofile|]. intros r id i d _ _ Hd. left.
  destruct Hk as [_ Hf]. by rewrite Hf in Hd by auto.
Qed.

Context (Hout : ¬ library_files out).

(** Steps that touch no chunk. *)
Lemma download_safe_step paths w w1 w2 :
  root = Some (lp_root paths) → download_safe w w1 →
  keeps (λ q, q = out ∨ meta_files paths q) w1 w2 → download_safe w w2.
Proof using Hout.
  intros Hroot [Hk Hs] Hk2. split.
  - etrans; [exact Hk|]. eapply keeps_mono; [|exact Hk2]. intros q [->|[n ->]]; [by left|]. right.
    exists (lp_root paths). split; [done|]. unfold share_dir, library_dir, etle_dir. rewrite <- !app_assoc.
    apply prefix_app, prefix_app_r. done.
  - intros r id i d Hr Hi Hd. destruct Hk2 as [_ Hf]. rewrite Hf in Hd; [by apply Hs|].
    intros [Heq|[n Hn]].
    + apply Hout. exists r. split; [done|]. rewrite <- Heq. unfold chunk_path, chunks_dir, share_dir, library_dir, etle_dir.
      cbn [lp_root for_share]. rewrite <- !app_assoc. apply prefix_app, prefix_app_r. done.
    + assert (r = lp_root paths) as -> by congruence.
      apply (f_equal length) in Hn. unfold chunk_path, chunks_dir, share_dir, library_dir, etle_dir in Hn.
      cbn [lp_root for_share] in Hn. rewrite !length_app in Hn. cbn in Hn. lia.
Qed.

Lemma share_dir_chunk r id id' i : share_dir (for_share r id) `prefix_of` chunk_path (for_share r id') i → id = id'.
Proof.
  unfold chunk_path, chunks_dir, share_dir, library_dir, etle_dir. cbn [lp_root lp_share_id for_share].
  rewrite <- !app_assoc. intros [k Hk]. rewrite <- !app_assoc in Hk. apply app_inv_head in Hk.
  injection Hk as Hk _. symmetry. by apply ShareId_to_string_inj.
Qed.

(** The invariant of the main loop, seen from outside. *)
Lemma window_safe manifest r w w' :
  root = Some r →
  safe manifest (Some (for_share r (d_share_id (descriptor_from_manifest manifest)))) w w' → download_safe w w'.
Proof.
  intros Hr [Hk Hs]. split.
  - eapply keeps_mono; [|exact Hk]. intros q (paths & [= <-] & Hq). right. exists r. split; [done|].
    etrans; [|exact Hq]. unfold share_dir, library_dir, etle_dir. cbn [lp_root for_share]. rewrite <- !app_assoc.
    apply prefix_app, prefix_app_r. done.
  - intros r' id i d Hr' Hi Hd. assert (r' = r) as -> by congruence.
    destruct (decide (id = d_share_id (descriptor_from_manifest manifest))) as [->|Hne].
    + destruct (Hs _ i d eq_refl Hi Hd) as [?|(meta & ? & ? & ?)]; [by left|]. right. by exists manifest, meta.
    + left. destruct Hk as [_ Hf]. rewrite Hf in Hd; [done|]. intros (paths & Hlib & Hp).
      assert (paths = for_share r (d_share_id (descriptor_from_manifest manifest))) as -> by congruence.
      by apply share_dir_chunk in Hp as <-.
Qed.

Lemma meta_safe manifest paths w w' :
  keeps (meta_files paths) w w' → safe manifest (Some paths) w w'.
Proof.
  intros Hk. split.
  - eapply keeps_mono; [|exact Hk]. intros q [n ->]. exists paths. split; [done|]. by eexists.
  - intros p i d [= ->] Hi Hd. left. by rewrite <- (keeps_meta_chunk _ _ _ _ Hk).
Qed.

Lemma total_decrypt_to_bytes enc key : total (decrypt_to_bytes enc key).
Proof.
  unfold decrypt_to_bytes. assert (∀ l, total (result_mapM (decrypt_meta enc key) l)) as Hm.
  { induction l as [|m l [IH1 IH2]]; [done|]. cbn [result_mapM].
    assert (total (decrypt_meta enc key m)) as [??].
    { unfold decrypt_meta, decrypt_chunk, total. destruct (ef_chunks enc !! cm_index m); cbn [ok_or result_bind]; [|done].
      case_decide; [done|]. cbn [result_bind]. by destruct (aead_decrypt _ _ _ _). }
    destruct (decrypt_meta enc key m); try done. cbn [result_bind]. by destruct (result_mapM _ _). }
  destruct (Hm (mf_chunks (ef_manifest enc))) as [??]. unfold total.
  destruct (result_mapM _ _); try done. cbn [result_bind]. by case_decide.
Qed.

(** The in-memory variant of the last step. *)
Lemma wp_decrypt_to_file_any enc key w :
  wp (decrypt_to_file enc key out)
    (λ _ w', keeps (λ q, q = out) w w'
       ∧ ∃ d, file_at (w_fs w') out = Some d ∧ hash_file_id d = mf_file_id (ef_manifest enc))
    (λ _ w', keeps (λ q, q = out) w w') w.
Proof.
  unfold decrypt_to_file. wp_simpl. destruct (total_decrypt_to_bytes enc key) as [??].
  destruct (decrypt_to_bytes enc key) as [d| | |] eqn:Hd; [|done|done|done]. wp_simpl. apply wp_fs_write.
  - intros k m w' Hst Hm _. eapply fs_step_keeps; [done|]. intros q Hq.
    destruct Hm as [->|[n ->]]; [done|by rewrite file_at_insert_ne].
  - intros w' _ Hst. rewrite (fs_step_fs _ _ _ Hst). split.
    + eapply fs_step_keeps; [done|]. intros q Hq. by rewrite file_at_insert_ne.
    + exists d. split; [apply file_at_insert_eq|]. unfold decrypt_to_bytes in Hd.
      apply result_bind_Ok in Hd as (cs & _ & Hd). case_decide as Hid; [done|]. injection Hd as <-.
      exact Hid.
Qed.

Lemma quiet_have completed : quiet (send_have_if_any completed).
Proof. unfold send_have_if_any. case_decide; hush. Qed.

Definition output_correct (m : Manifest) (w : World) : Prop :=
  ∃ d, file_at (w_fs w) out = Some d ∧ hash_file_id d = mf_file_id m.

Lemma meta_not_out paths : root = Some (lp_root paths) → ¬ meta_files paths out.
Proof using Hout.
  intros Hr [n Hn]. apply Hout. exists (lp_root paths). split; [done|]. rewrite Hn.
  unfold share_dir, library_dir, etle_dir. rewrite <- !app_assoc. apply prefix_app, prefix_app_r. done.
Qed.

Lemma wp_missing_check {A} manifest completed (k : net A) (Q : A → World → Prop) (R : NetworkError → World → Prop) w :
  (∀ e, R e w) → wp k Q R w →
  wp (do! (if decide (Z.of_nat (size completed) ≠ zlen (mf_chunks manifest)) then
             match first_missing manifest completed with
             | Some meta => throw (MissingEncryptedChunk (cm_index meta))
             | None => ret tt
             end
           else ret tt) in k) Q R w.
Proof. intros HR Hk. wp_simpl. case_decide; wp_simpl; [|done]. destruct (first_missing _ _); by wp_simpl. Qed.

(** With a library: from the manifest to the finished file. *)
Lemma wp_download_library r peer options w :
  do_library_root options = Some r → root = Some r → Forall ChunkMeta_wf (mf_chunks (cp_manifest peer)) →
  wp (download_from_connected schedule peer out options)
    (λ m w', download_safe w w' ∧ output_correct m w') (λ _ w', download_safe w w') w.
Proof using All.
  intros Hlr Hr Hmetas. unfold download_from_connected. rewrite Hlr. cbv zeta.
  set (manifest := cp_manifest peer) in *.
  set (paths := for_share r (d_share_id (descriptor_from_manifest manifest))).
  set (P := meta_files paths).
  assert (∀ w', keeps P w w' → download_safe w w') as Hmeta.
  { intros w' Hk. by apply (window_safe manifest r), meta_safe. }
  wp_simpl. wp_call wp_initialize_download_library_state; [|intros; by apply Hmeta].
  intros library w2 (Hk2 & st & -> & Hp & Hok). wp_simpl. cbn [load_completed]. wp_simpl.
  wp_call wp_load_resumable_chunk_indexes; [done| |].
  2: { intros e w3 Hk3. rewrite Hp in Hk3. apply Hmeta. fold paths in Hk2. by etrans. }
  rewrite Hp. fold paths P in Hk2 |- *. intros [completed lib'] w3 (Hk3 & Hin & st' & Hlib' & Hp' & Hwf & Hset).
  cbn [fst snd] in *. subst lib'. wp_simpl.
  wp_call quiet_have; [|intros e w4 Hk4; apply Hmeta; etrans; [exact Hk2|]; etrans; [exact Hk3|by apply keeps_nofile]].
  intros _ w4 Hk4. wp_simpl. apply (keeps_nofile P) in Hk4.
  assert (keeps P w w4) as Hk by (etrans; [exact Hk2|]; by etrans).
  wp_call (wp_windowed manifest (cp_available_chunks peer) (output_parent_dir out) (do_log_level options)
             (d_share_id (descriptor_from_manifest manifest)) (Z.max (do_request_window options) 1) (Some paths) w
             Hmetas ltac:(lia)); [done|by apply meta_safe| | |].
  { unfold library_inv. exists st'. cbn [wi_library wi_completed]. split_and!; [done|done|done|done|].
    intros i Hi%Hin. replace paths with (ad_paths st) by exact Hp. eapply resumable_verified; [|exact Hi]. intros j. rewrite Hp. fold paths.
    rewrite (keeps_meta_chunk _ _ _ _ Hk4). by apply keeps_meta_chunk. }
  2: { intros e w5 Hs. by eapply window_safe. }
  intros s w5 (Hs & Hl & _). apply (window_safe _ _ _ _ Hr) in Hs. apply wp_missing_check; [done|].
  unfold library_inv in Hl. destruct Hl as (st5 & -> & Hp5 & Hwf5 & _). unfold active_download_state.
  cbn [ok_or]. wp_simpl. rewrite Hp5. wp_call wp_reconstruct.
  2: { intros e w6 Hk6. eapply (download_safe_step paths); [done|exact Hs|]. eapply keeps_mono; [|exact Hk6]. by left. }
  intros _ w6 [Hk6 (d & Hd & Hid)]. wp_simpl. wp_call wp_mark_download_library_complete; [apply Hwf5| |].
  all: rewrite Hp5.
  2: { intros e w7 Hk7. eapply (download_safe_step paths); [done|exact Hs|]. etrans.
       - eapply keeps_mono; [|exact Hk6]. by left.
       - eapply keeps_mono; [|exact Hk7]. by right. }
  intros _ w7 Hk7. wp_simpl. split.
  - eapply (download_safe_step paths); [done|exact Hs|]. etrans.
    + eapply keeps_mono; [|exact Hk6]. by left.
    + eapply keeps_mono; [|exact Hk7]. by right.
  - exists d. split; [|done]. destruct Hk7 as [_ ->]; [done|]. by apply meta_not_out.
Qed.

(** Without a library the chunks stay in memory. *)
Lemma wp_download_memory peer options w :
  do_library_root options = None → root = None → Forall ChunkMeta_wf (mf_chunks (cp_manifest peer)) →
  wp (download_from_connected schedule peer out options)
    (λ m w', download_safe w w' ∧ output_correct m w') (λ _ w', download_safe w w') w.
Proof using All.
  intros Hlr Hr Hmetas. unfold download_from_connected. rewrite Hlr. cbv zeta. set (manifest := cp_manifest peer) in *.
  assert (∀ w', keeps (λ q, q = out) w w' → download_safe w w') as Hsafe.
  { intros w' Hk. split; [eapply keeps_mono; [|exact Hk]; by left|]. intros r id i d Hr'. congruence. }
  cbn [initialize_download_library_state]. wp_simpl. cbn [load_completed load_resumable_chunks]. wp_simpl.
  cbn [fst snd]. rewrite dom_empty_L. wp_call quiet_have; [|intros; by apply download_safe_nofile].
  intros _ w1 Hk1. wp_simpl.
  assert (∀ w', safe manifest None w w' → keeps nofile w w') as Hs2.
  { intros w' [Hk _]. eapply keeps_mono; [|exact Hk]. by intros q (? & ? & _). }
  wp_call (wp_windowed manifest (cp_available_chunks peer) (output_parent_dir out) (do_log_level options)
             (d_share_id (descriptor_from_manifest manifest)) (Z.max (do_request_window options) 1) None w
             Hmetas ltac:(lia)); [done| | | |].
  { split; [by apply keeps_nofile|]. intros p i d. done. }
  { split; [done|]. intros i Hi. by apply elem_of_empty in Hi. }
  2: { intros e w2 Hs. by apply download_safe_nofile, Hs2. }
  intros s w2 (Hs%Hs2 & [Hnone _] & _). apply wp_missing_check; [intros; by apply download_safe_nofile|].
  wp_simpl. wp_call wp_decrypt_to_file_any.
  2: { intros e w3 Hk3. apply Hsafe. etrans; [by apply keeps_nofile|done]. }
  intros _ w3 [Hk3 Hd]. rewrite Hnone. cbn [mark_download_library_complete]. wp_simpl.
  split; [|done]. apply Hsafe. etrans; [by apply keeps_nofile|done].
Qed.

Lemma wp_from_peer_with addr options w :
  do_library_root options = root →
  wp (from_peer_with schedule addr out options)
    (λ m w', download_safe w w' ∧ output_correct m w') (λ _ w', download_safe w w') w.
Proof using All.
  intros Hroot. unfold from_peer_with. wp_simpl.
  wp_call wp_connect_download_peer; [|intros; by apply download_safe_nofile].
  intros peer w1 [Hk1 Hm].
  assert (∀ w', download_safe w1 w' → download_safe w w') as Htrans.
  { intros w' [Hk Hs]. split; [etrans; [by apply keeps_nofile|done]|]. intros r id i d Hr Hi Hd.
    destruct (Hs r id i d Hr Hi Hd) as [Hold|?]; [left|by right]. destruct Hk1 as [_ Hf]. by rewrite Hf in Hold by auto. }
  eapply (wp_mono _ (λ m w', download_safe w1 w' ∧ output_correct m w') _ (λ _ w', download_safe w1 w')).
  - destruct (do_library_root options) as [r|] eqn:Hlr;
      [by apply (wp_download_library r)|by apply wp_download_memory].
  - intros m w' [? ?]. auto.
  - auto.
Qed.

Lemma download_safe_trans w w1 w2 : download_safe w w1 → download_safe w1 w2 → download_safe w w2.
Proof.
  intros [Hk1 Hs1] [Hk2 Hs2]. split; [by etrans|]. intros r id i d Hr Hi Hd.
  destruct (Hs2 r id i d Hr Hi Hd) as [Hold|?]; [by apply Hs1|by right].
Qed.

Lemma wp_from_peers_loop display options total addrs : ∀ attempt last w,
  do_library_root options = root →
  wp (from_peers_loop display schedule out options total attempt last addrs)
    (λ m w', download_safe w w' ∧ output_correct m w')
    (λ e w', download_safe w w' ∧ ∃ msg, e = AllPeersFailed total msg) w.
Proof using All.
  induction addrs as [|addr addrs IH]; intros attempt last w Hroot; cbn [from_peers_loop]; cbv zeta; wp_simpl.
  - split; [by apply download_safe_nofile|by eexists].
  - wp_call (wp_from_peer_with addr); [by destruct (_ || _)| |].
    + intros m w1 [Hs Ho]. by wp_simpl.
    + intros e w1 Hs. wp_call IH; [done| |].
      * intros m w2 [Hs2 Ho]. split; [by eapply download_safe_trans|done].
      * intros e2 w2 [Hs2 He]. split; [by eapply download_safe_trans|done].
Qed.
End end_to_end.

(** * Claims *)

(** C9: the windowed download loop terminates for every peer and every failure. It
    never replaces a chunk file by data that does not match the manifest, and
    when it succeeds, every chunk it counts as complete is stored and verified,
    the recorded progress is exactly that set, and every chunk the peer offered
    was received. *)
Theorem windowed_download_correct `{Blake3Laws} `{Bincode WireMessage} `{DiskFormat} manifest available st
    completed out_dir l window id w :
  Forall ChunkMeta_wf (mf_chunks manifest) → 2 * zlen (mf_chunks manifest) ≤ u64_max →
  progress_wf (ad_progress st) → completed = progress_set (ad_progress st) →
  (∀ i, i ∈ completed → verified (w_fs w) (ad_paths st) (mf_chunks manifest) i) →
  match download_missing_chunks_windowed manifest available (Some st) ∅ completed true out_dir l window id w with
  | (Ok s, w') =>
      safe manifest (Some (ad_paths st)) w w'
      ∧ (∃ st', wi_library s = Some st' ∧ ad_paths st' = ad_paths st
                ∧ wi_completed s = progress_set (ad_progress st'))
      ∧ (∀ i, i ∈ wi_completed s → verified (w_fs w') (ad_paths st) (mf_chunks manifest) i)
      ∧ (∀ meta, meta ∈ mf_chunks manifest → cm_index meta ∈ available → cm_index meta ∈ wi_completed s)
  | (Err _, w') => safe manifest (Some (ad_paths st)) w w'
  | _ => False
  end.
Proof.
  intros Hm Hlen Hwf Hc Hv.
  assert (safe manifest (Some (ad_paths st)) w w) as Hs0 by (by apply meta_safe).
  pose proof (wp_windowed manifest available out_dir l id (Z.max window 1) (Some (ad_paths st)) w Hm ltac:(lia)
    (Some st) ∅ completed window w eq_refl Hs0 ltac:(by exists st)) as Hwp.
  unfold wp in Hwp. destruct (download_missing_chunks_windowed _ _ _ _ _ _ _ _ _ _ _) as [[s|e| |] w']; try done.
  destruct Hwp as (Hs & (st' & ? & ? & ? & ? & ?) & Hall). split; [done|].
  split; [by exists st'|]. split; [done|]. intros meta. by apply Hall.
Qed.



Import Toy WireSample DiskSample.
Module DownloadSample.
Definition state : ActiveDownloadLibraryState :=
  mkActive ReconstructSample.paths (DownloadProgress_empty (lp_share_id ReconstructSample.paths)) 0 0.
Definition options : DownloadFileOptions := with_library_root (DownloadFileOptions_new "peer" Quiet) ["home"%string].
End DownloadSample.

Lemma windowed_download_correct_witness :
  match download_missing_chunks_windowed ReconstructSample.manifest {[0; 1]} (Some DownloadSample.state) ∅ ∅ true
          None Quiet 16 (lp_share_id ReconstructSample.paths) (CryptoSample.world ∅ []) with
  | (Ok s, w') =>
      safe ReconstructSample.manifest (Some ReconstructSample.paths) (CryptoSample.world ∅ []) w'
      ∧ (∃ st', wi_library s = Some st' ∧ ad_paths st' = ReconstructSample.paths
                ∧ wi_completed s = progress_set (ad_progress st'))
      ∧ (∀ i, i ∈ wi_completed s → verified (w_fs w') ReconstructSample.paths ReconstructSample.metas i)
      ∧ (∀ meta, meta ∈ ReconstructSample.metas → cm_index meta ∈ ({[0; 1]} : gset Z) → cm_index meta ∈ wi_completed s)
  | (Err _, w') => safe ReconstructSample.manifest (Some ReconstructSample.paths) (CryptoSample.world ∅ []) w'
  | _ => False
  end.
Proof.
  apply (windowed_download_correct ReconstructSample.manifest {[0; 1]} DownloadSample.state ∅ None Quiet 16
    (lp_share_id ReconstructSample.paths) (CryptoSample.world ∅ [])).
  - by_decide.
  - vm_compute. discriminate.
  - split; constructor.
  - reflexivity.
  - intros i Hi. by apply elem_of_empty in Hi.
Defined.

