(* ===== verification/Swarm.v ===== *)
(** Downloading from several peers at once: [from_peers_parallel] and its workers
    ([network/transfer/download.rs]).

    The workers share a queue of missing chunks, the set of completed chunks and
    the state of the library, each behind a mutex; every worker has a connection
    of its own. A worker is a state machine whose actions are the code between two
    accesses to shared state; a run interleaves the actions of the workers in any
    order. [acts] describes the actions abstractly; the code refines it, and what
    holds of every interleaving is proved on the abstract machine. *)
From stdpp Require Import base tactics list countable strings gmap.
From Stdlib Require Import ZArith Lia.
From S2P Require Import Prelude Bytes World Files Extern Crypto Descriptor Storage State Library Codec Handshake DownloadState Reconstruct Download.
Local Open Scope Z_scope.
Local Open Scope etle_scope.

(** * Shared state and workers *)
Record Shared := mkShared {
  sh_queue : list Z;
  sh_completed : gset Z;
  sh_library : option ActiveDownloadLibraryState;
}.
Definition set_queue (q : list Z) (sh : Shared) : Shared := mkShared q (sh_completed sh) (sh_library sh).
Definition set_library (l : option ActiveDownloadLibraryState) (sh : Shared) : Shared :=
  mkShared (sh_queue sh) (sh_completed sh) l.
Definition complete_chunk (i : Z) (sh : Shared) : Shared :=
  mkShared (sh_queue sh) ({[i]} ∪ sh_completed sh) (sh_library sh).

(** Where a worker stands in [parallel_download_worker]. *)
Inductive phase :=
  | Starting
  | Looping
  | Requesting (meta : ChunkMeta)
  | Receiving (meta : ChunkMeta)
  | Persisting (meta : ChunkMeta) (temp_path : path) (frame : ReceivedChunkFrame)
  | Recording (meta : ChunkMeta) (chunk_len : Z)
  | Releasing (meta : ChunkMeta) (error : NetworkError)
  | Finishing
  | Finished
  | Failed (error : NetworkError).

(** A worker with the connection to its peer. *)
Record Worker := mkWorker {
  wk_peer : ConnectedDownloadPeer;
  wk_in : bytes;
  wk_out : bytes;
  wk_phase : phase;
}.

Record Swarm := mkSwarm { sw_shared : Shared; sw_workers : list Worker }.

Definition ended (wk : Worker) : bool :=
  match wk_phase wk with Finished | Failed _ => true | _ => false end.

(** * The queue *)

(** The [for] loop of [pop_next_available_missing_chunk], under the queue's lock. *)
Fixpoint pop_attempts (attempts : nat) (completed available : gset Z) (queue : list Z)
    : option Z * list Z :=
  match attempts, queue with
  | S attempts, index :: queue =>
      if decide (index ∈ completed) then pop_attempts attempts completed available queue
      else if decide (index ∈ available) then (Some index, queue)
      else pop_attempts attempts completed available (queue ++ [index])
  | _, _ => (None, queue)
  end.
Definition pop_next_available_missing_chunk (queue : list Z) (completed available : gset Z)
    : option Z * list Z :=
  pop_attempts (length queue) completed available queue.

Section worker.
Context `{Blake3} `{Bincode WireMessage} `{DiskFormat}.
Context (manifest : Manifest) (output_dir : option path) (log_level : TransferLogLevel) (share_id : ShareId).

(** [manifest.chunks.iter().find(|meta| meta.index == index)] *)
Definition find_chunk_meta (index : Z) : option ChunkMeta :=
  snd <$> list_find (λ meta, cm_index meta = index) (mf_chunks manifest).

(** * One request *)

(** The answer to a request goes to a temporary file of the chunk. *)
Definition receive_requested (library : option ActiveDownloadLibraryState) (meta : ChunkMeta)
    : net (path * ReceivedChunkFrame) :=
  let! temp_path := download_chunk_temp_path library (cm_index meta) in
  let! frame := map_err NE_Protocol (receive_chunk_to_file temp_path) in
  ret (temp_path, frame).

(** Persisting in the shared state: what a failing operation did to it stays. *)
Definition persist_shared (missing : net unit) (store : LibraryPaths → net unit)
    (library : option ActiveDownloadLibraryState) (index : Z)
    : net (option ActiveDownloadLibraryState * result NetworkError unit) :=
  match library with
  | None =>
      do! missing in
      ret (None, Ok tt)
  | Some state =>
      let! r := try_ (store (ad_paths state)) in
      match r with
      | Err e => ret (Some state, Err e)
      | _ =>
          let marked := mark_persisted state index in
          let! r := try_ (maybe_flush_download_progress marked output_dir) in
          match r with
          | Ok state => ret (Some state, Ok tt)
          | Err e => ret (Some marked, Err e)
          | _ => panic
          end
      end
  end.

(** The answer is checked, then stored under the lock of the library state. *)
Definition finish_request (library : option ActiveDownloadLibraryState) (meta : ChunkMeta)
    (temp_path : path) (frame : ReceivedChunkFrame)
    : net (option ActiveDownloadLibraryState * result NetworkError Z) :=
  match frame with
  | RawChunkFile chunk =>
      if decide (rc_index chunk ≠ cm_index meta) then
        do! remove_file_if_exists temp_path in
        ret (library, Err (UnexpectedChunkIndex (cm_index meta) (rc_index chunk)))
      else if decide (rc_blake3_hash chunk ≠ chunk_hash_bytes (cm_blake3_hash meta)) then
        do! remove_file_if_exists temp_path in
        ret (library, Err (NE_File (ChunkHashMismatch (cm_index meta))))
      else
        let! r := persist_shared (remove_file_if_exists temp_path)
                    (λ paths, store_chunk_file paths (cm_index meta) temp_path) library (cm_index meta) in
        ret (r.1, result_bind r.2 (λ _, Ok (rc_data_len chunk)))
  | Message m =>
      do! remove_file_if_exists temp_path in
      match m with
      | Chunk index data =>
          if decide (index ≠ cm_index meta) then
            ret (library, Err (UnexpectedChunkIndex (cm_index meta) index))
          else if decide (hash_chunk data ≠ cm_blake3_hash meta) then
            ret (library, Err (NE_File (ChunkHashMismatch (cm_index meta))))
          else
            let encrypted_chunk := mkEncryptedChunk index data in
            let! r := persist_shared (ret tt)
                        (λ paths, let! _path := map_err NE_File (write_chunk paths encrypted_chunk) in ret tt)
                        library index in
            ret (r.1, result_bind r.2 (λ _, Ok (zlen data)))
      | ErrorMsg message => ret (library, Err (PeerError message))
      | actual => ret (library, Err (UnexpectedMessage "Chunk" actual))
      end
  end.

(** * The worker *)

(** [match r { Ok(a) => f(a), Err(e) => g(e) }] for the phase that follows. *)
Definition next_phase {A} (r : result NetworkError A) (f : A → phase) (g : NetworkError → phase) : phase :=
  match r with Err e => g e | Ok a => f a | _ => Finished end.

(** One action, in a world whose connection is the worker's. *)
Definition worker_action (available : gset Z) (ph : phase) (sh : Shared) : net (phase * Shared) :=
  match ph with
  | Starting =>
      let! r := try_ (send_have_if_any (sh_completed sh)) in
      ret (next_phase r (λ _, Looping) Failed, sh)
  | Looping =>
      let '(next, queue) := pop_next_available_missing_chunk (sh_queue sh) (sh_completed sh) available in
      match next with
      | None => ret (Finishing, set_queue queue sh)
      | Some index =>
          match find_chunk_meta index with
          | None => ret (Looping, set_queue queue sh)
          | Some meta => ret (Requesting meta, set_queue queue sh)
          end
      end
  | Requesting meta =>
      let! r := try_ (map_err NE_Protocol (send (RequestChunk (cm_index meta)))) in
      ret (next_phase r (λ _, Receiving meta) (Releasing meta), sh)
  | Receiving meta =>
      let! r := try_ (receive_requested (sh_library sh) meta) in
      ret (next_phase r (λ a, Persisting meta a.1 a.2) (Releasing meta), sh)
  | Persisting meta temp_path frame =>
      let! r := finish_request (sh_library sh) meta temp_path frame in
      ret (next_phase r.2 (Recording meta) (Releasing meta), set_library r.1 sh)
  | Recording meta chunk_len =>
      let sh := complete_chunk (cm_index meta) sh in
      do! for_share_progress share_id "peer" "parallel received+verified" log_level
            (Z.of_nat (size (sh_completed sh))) (zlen (mf_chunks manifest)) (cm_index meta) chunk_len in
      ret (Looping, sh)
  | Releasing meta error => ret (Failed error, set_queue (sh_queue sh ++ [cm_index meta]) sh)
  | Finishing =>
      let! _ignored := try_ (send_have_if_any (sh_completed sh)) in
      ret (Finished, sh)
  | Finished | Failed _ => ret (ph, sh)
  end.

(** Worker [k] takes one action on its own connection. *)
Definition worker_step (k : nat) (s : Swarm) : net Swarm :=
  match sw_workers s !! k with
  | None => ret s
  | Some wk =>
      do! modify (λ w, set_out (wk_out wk) (set_in (wk_in wk) w)) in
      let! r := worker_action (cp_available_chunks (wk_peer wk)) (wk_phase wk) (sw_shared s) in
      let! inbound := gets w_in in
      let! outbound := gets w_out in
      ret (mkSwarm r.2 (<[k := mkWorker (wk_peer wk) inbound outbound r.1]> (sw_workers s)))
  end.

(** The workers that still run. *)
Definition running (workers : list Worker) : list nat :=
  omap (λ p : nat * Worker, if ended p.2 then None else Some p.1) (zip (seq 0 (length workers)) workers).

(** The scheduler lets any running worker take the next action. *)
Definition swarm_round (picks : nat → nat) (a : nat * Swarm) : net ((nat * Swarm) + Swarm) :=
  let live := running (sw_workers a.2) in
  match live !! (picks a.1 mod length live)%nat with
  | None => ret (inr a.2)
  | Some k =>
      let! s := worker_step k a.2 in
      ret (inl (S a.1, s))
  end.

(** How many actions are left at most. *)
Definition phase_weight (ph : phase) : nat :=
  match ph with
  | Starting => 7 | Looping => 6 | Requesting _ => 14 | Receiving _ => 13 | Persisting _ _ _ => 12
  | Recording _ _ => 7 | Releasing _ _ => 11 | Finishing => 1 | Finished | Failed _ => 0
  end.
Definition swarm_measure (s : Swarm) : nat :=
  (10 * length (sh_queue (sw_shared s)) + sum_list (phase_weight ∘ wk_phase <$> sw_workers s))%nat.

(** All workers run to their end. *)
Definition run_swarm (picks : nat → nat) (s : Swarm) : net Swarm :=
  mloop (S (swarm_measure s)) (swarm_round picks) (0%nat, s).
End worker.

(** * The entry point *)
Record Prepared := mkPrepared {
  pr_connected : list Worker;
  pr_manifest : option Manifest;
  pr_file_key : option SymmetricKey;
  pr_last_error : option string;
}.

Section entry.
Context `{Blake3, X25519, Aead} `{Bincode WireMessage} `{DiskFormat}.
Context (error_to_string : NetworkError → string).

(** A peer that answers joins when its manifest and file key agree with those of
    the first. *)
Definition admit_peer (p : Prepared) (peer : ConnectedDownloadPeer) (inbound outbound : bytes) : Prepared :=
  let worker := mkWorker peer inbound outbound Starting in
  match pr_manifest p with
  | Some reference =>
      if negb (manifests_are_compatible reference (cp_manifest peer)) then p
      else if decide (pr_file_key p ≠ Some (cp_file_key peer) ∧ pr_file_key p ≠ None) then p
      else mkPrepared (pr_connected p ++ [worker]) (pr_manifest p) (pr_file_key p) (pr_last_error p)
  | None =>
      mkPrepared (pr_connected p ++ [worker]) (Some (cp_manifest peer)) (Some (cp_file_key peer)) (pr_last_error p)
  end.

Definition prepare_peer (options : DownloadFileOptions) (p : Prepared) (peer_addr : socket_addr) : net Prepared :=
  let! r := try_ (connect_download_peer peer_addr (do_peer_id options) (do_requested_share_id options)
                    (do_auth_psk options)) in
  match r with
  | Ok peer =>
      let! inbound := gets w_in in
      let! outbound := gets w_out in
      ret (admit_peer p peer inbound outbound)
  | Err error =>
      ret (mkPrepared (pr_connected p) (pr_manifest p) (pr_file_key p) (Some (error_to_string error)))
  | _ => panic
  end.

(** [decrypt_library_chunks_to_file] and [mark_download_library_complete]. *)
Definition finish_parallel (schedule : list ChunkMeta → list ChunkMeta) (library : option ActiveDownloadLibraryState)
    (manifest : Manifest) (file_key : SymmetricKey) (output_path : path) (options : DownloadFileOptions) : net Manifest :=
  let! active_state := lift_result (active_download_state library) in
  do! decrypt_library_chunks_to_file schedule (ad_paths active_state) manifest file_key output_path (do_log_level options) in
  let! _library := mark_download_library_complete library (output_parent_dir output_path) in
  ret manifest.

(** From the connected peers to the finished file. *)
Definition parallel_from_connected (schedule : list ChunkMeta → list ChunkMeta) (picks : nat → nat)
    (peer_addrs : list socket_addr) (connected : list Worker) (manifest : Manifest) (file_key : SymmetricKey)
    (output_path : path) (options : DownloadFileOptions) : net Manifest :=
  let descriptor := descriptor_from_manifest manifest in
  let output_state_dir := output_parent_dir output_path in
  let! library := initialize_download_library_state (do_library_root options) descriptor file_key output_state_dir true in
  match library with
  | None => throw (PeerError "parallel streaming download requires a library root")
  | Some _ =>
      let! r := load_resumable_chunk_indexes library manifest output_state_dir in
      let '(completed, library) := r in
      let missing_chunks := cm_index <$> filter (λ meta, cm_index meta ∉ completed) (mf_chunks manifest) in
      if decide (missing_chunks = []) then
        finish_parallel schedule library manifest file_key output_path options
      else
        let! s := run_swarm manifest output_state_dir (do_log_level options) (d_share_id descriptor) picks
                    (mkSwarm (mkShared missing_chunks completed library) connected) in
        let completed := sh_completed (sw_shared s) in
        match (if decide (Z.of_nat (size completed) ≠ zlen (mf_chunks manifest))
               then first_missing manifest completed else None) with
        | Some _ => from_peers error_to_string schedule peer_addrs output_path (with_resume options true)
        | None => finish_parallel schedule (sh_library (sw_shared s)) manifest file_key output_path options
        end
  end.

Definition from_peers_parallel (schedule : list ChunkMeta → list ChunkMeta) (picks : nat → nat)
    (peer_addrs : list socket_addr) (output_path : path) (options : DownloadFileOptions) (parallelism : Z)
    : net Manifest :=
  if decide (peer_addrs = []) then throw NoPeersProvided
  else if decide (parallelism ≤ 1 ∨ length peer_addrs = 1%nat) then
    from_peers error_to_string schedule peer_addrs output_path (with_resume options true)
  else
    let worker_limit := Z.min parallelism (zlen peer_addrs) in
    let! p := mfold (prepare_peer options) (mkPrepared [] None None None) (take (Z.to_nat worker_limit) peer_addrs) in
    let failed reason := throw (AllPeersFailed worker_limit (default reason (pr_last_error p))) in
    match pr_manifest p, pr_file_key p, pr_connected p with
    | None, _, _ => failed "no compatible peer prepared"%string
    | _, None, _ => failed "file key was not received"%string
    | _, _, [] => failed "no compatible peer prepared"%string
    | _, _, [worker] =>
        from_peers error_to_string schedule [cp_peer_addr (wk_peer worker)] output_path (with_resume options true)
    | Some manifest, Some file_key, connected =>
        parallel_from_connected schedule picks peer_addrs connected manifest file_key output_path options
    end.
End entry.

(** * Persisting in shared state agrees with the operation on owned state *)
Section agreement.
Context `{Blake3} `{Bincode WireMessage} `{DiskFormat}.

Definition forget_library (r : result NetworkError (option ActiveDownloadLibraryState * result NetworkError unit))
    : result NetworkError (option ActiveDownloadLibraryState) :=
  let? p := r in result_bind p.2 (λ _, Ok p.1).

Lemma persist_shared_agrees out missing store library index w :
  (match library with
   | None => do! missing in ret None
   | Some state =>
       do! store (ad_paths state) in
       let! state := maybe_flush_download_progress (mark_persisted state index) out in
       ret (Some state)
   end) w
  = (let '(r, w') := persist_shared out missing store library index w in (forget_library r, w')).
Proof.
  destruct library as [state|]; unfold persist_shared, bind, try_, ret, panic.
  - destruct (store (ad_paths state) w) as [[u|e| |] w1]; try done.
    destruct (maybe_flush_download_progress _ out w1) as [[st|e| |] w2]; done.
  - by destruct (missing w) as [[[]|e| |] w1].
Qed.

Lemma persist_shared_file out library index temp_path w :
  persist_downloaded_chunk_file library index temp_path out w
  = (let '(r, w') := persist_shared out (remove_file_if_exists temp_path)
                       (λ paths, store_chunk_file paths index temp_path) library index w in
     (forget_library r, w')).
Proof. rewrite <- persist_shared_agrees. by destruct library. Qed.

Lemma persist_shared_chunk out library chunk w :
  persist_downloaded_chunk library chunk out w
  = (let '(r, w') := persist_shared out (ret tt)
                       (λ paths, let! _path := map_err NE_File (write_chunk paths chunk) in ret tt)
                       library (ec_index chunk) w in
     (forget_library r, w')).
Proof.
  rewrite <- persist_shared_agrees. destruct library as [state|]; [|done]. cbn [persist_downloaded_chunk].
  unfold bind, ret. by destruct (map_err NE_File _ w) as [[]].
Qed.
End agreement.

(** * The queue *)
Definition popped (queue : list Z) (completed available : gset Z) (r : option Z * list Z) : Prop :=
  ∃ dropped, Forall (λ i, i ∈ completed) dropped ∧
    match r.1 with
    | Some i => queue ≡ₚ dropped ++ i :: r.2 ∧ i ∈ available ∧ i ∉ completed
    | None => queue ≡ₚ dropped ++ r.2 ∧ Forall (λ i, i ∉ available) r.2
    end.

Lemma pop_attempts_spec completed available todo : ∀ seen,
  Forall (λ i, i ∉ available) seen →
  popped (todo ++ seen) completed available (pop_attempts (length todo) completed available (todo ++ seen)).
Proof.
  induction todo as [|i todo IH]; intros seen Hseen; cbn [length pop_attempts app].
  - exists []. split; [constructor|]. by destruct seen.
  - case_decide as Hc; [|case_decide as Ha].
    + destruct (IH seen Hseen) as (dropped & Hd & Hr). exists (i :: dropped). split; [by constructor|].
      destruct (pop_attempts _ _ _ _) as [[j|] q]; cbn [fst snd] in *.
      * destruct Hr as (Hp & ? & ?). split; [|done]. simpl. by rewrite Hp.
      * destruct Hr as [Hp ?]. split; [|done]. simpl. by rewrite Hp.
    + exists []. split; [constructor|]. done.
    + rewrite <- app_assoc. assert (Forall (λ j, j ∉ available) (seen ++ [i])) as Hseen'
        by (apply Forall_app; split; [done|by constructor]).
      destruct (IH _ Hseen') as (dropped & Hd & Hr). exists dropped. split; [done|].
      assert (i :: todo ++ seen ≡ₚ todo ++ seen ++ [i]) as Hperm
        by (rewrite (app_assoc todo); apply Permutation_cons_append).
      destruct (pop_attempts _ _ _ _) as [[j|] q]; cbn [fst snd] in *; by rewrite Hperm.
Qed.

Lemma pop_spec queue completed available :
  popped queue completed available (pop_next_available_missing_chunk queue completed available).
Proof.
  unfold pop_next_available_missing_chunk. pose proof (pop_attempts_spec completed available queue []) as Hp.
  rewrite app_nil_r in Hp. by apply Hp.
Qed.

(** * The abstract machine *)
Section machine.
Context `{Blake3}.
Context (metas : list ChunkMeta) (paths : LibraryPaths).

(** The content an accepted answer delivers. *)
Definition accepted (meta : ChunkMeta) (temp_path : path) (frame : ReceivedChunkFrame) (w : World) (d : bytes) : Prop :=
  match frame with
  | RawChunkFile chunk => rc_index chunk = cm_index meta
      ∧ rc_blake3_hash chunk = chunk_hash_bytes (cm_blake3_hash meta) ∧ file_at (w_fs w) temp_path = Some d
  | Message (Chunk index data) => index = cm_index meta ∧ hash_chunk data = cm_blake3_hash meta ∧ data = d
  | _ => False
  end.

(** The library after a chunk was marked. *)
Definition marks (i : Z) (l l' : option ActiveDownloadLibraryState) : Prop :=
  ∃ st st', l = Some st ∧ l' = Some st' ∧ ad_paths st' = ad_paths st
            ∧ ad_progress st' = mark_completed (ad_progress st) i.

Definition part_file (i : Z) (temp : path) : Prop := ∃ t, temp = chunks_dir paths ++ [part_name i t].

(** Where an error leads: a worker that holds a chunk gives it back first. *)
Inductive acts (available : gset Z) : phase → Shared → World → phase → Shared → World → Prop :=
  | act_start sh w w' : keeps nofile w w' → acts available Starting sh w Looping sh w'
  | act_start_failed e sh w w' : keeps nofile w w' → acts available Starting sh w (Failed e) sh w'
  | act_idle q sh w :
      popped (sh_queue sh) (sh_completed sh) available (None, q) →
      acts available Looping sh w Finishing (set_queue q sh) w
  | act_pop i meta q sh w :
      popped (sh_queue sh) (sh_completed sh) available (Some i, q) → meta ∈ metas → cm_index meta = i →
      acts available Looping sh w (Requesting meta) (set_queue q sh) w
  | act_pop_unknown i q sh w :
      popped (sh_queue sh) (sh_completed sh) available (Some i, q) → i ∉ cm_index <$> metas →
      acts available Looping sh w Looping (set_queue q sh) w
  | act_request meta sh w w' : keeps nofile w w' → acts available (Requesting meta) sh w (Receiving meta) sh w'
  | act_request_failed meta e sh w w' :
      keeps nofile w w' → acts available (Requesting meta) sh w (Releasing meta e) sh w'
  | act_receive meta temp frame sh w w' :
      part_file (cm_index meta) temp → keeps (λ q, q = temp) w w' →
      (∀ chunk, frame = RawChunkFile chunk →
         ∃ d, file_at (w_fs w') temp = Some d ∧ rc_blake3_hash chunk = blake3_hash d) →
      acts available (Receiving meta) sh w (Persisting meta temp frame) sh w'
  | act_receive_failed meta temp e sh w w' :
      part_file (cm_index meta) temp → keeps (λ q, q = temp) w w' →
      acts available (Receiving meta) sh w (Releasing meta e) sh w'
  | act_reject meta temp frame e sh w w' :
      keeps (λ q, q = temp) w w' →
      acts available (Persisting meta temp frame) sh w (Releasing meta e) sh w'
  | act_store meta temp frame n d l sh w w' :
      accepted meta temp frame w d → keeps (persist_files paths (cm_index meta) (Some temp)) w w' →
      file_at (w_fs w') (chunk_path paths (cm_index meta)) = Some d → marks (cm_index meta) (sh_library sh) l →
      acts available (Persisting meta temp frame) sh w (Recording meta n) (set_library l sh) w'
  | act_store_unsaved meta temp frame e d l sh w w' :
      accepted meta temp frame w d → keeps (persist_files paths (cm_index meta) (Some temp)) w w' →
      file_at (w_fs w') (chunk_path paths (cm_index meta)) = Some d → marks (cm_index meta) (sh_library sh) l →
      acts available (Persisting meta temp frame) sh w (Releasing meta e) (set_library l sh) w'
  | act_store_failed meta temp frame e sh w w' :
      keeps (persist_files paths (cm_index meta) (Some temp)) w w' →
      file_at (w_fs w') (chunk_path paths (cm_index meta))
        ∈ [file_at (w_fs w) (chunk_path paths (cm_index meta)); None] →
      acts available (Persisting meta temp frame) sh w (Releasing meta e) sh w'
  | act_record meta n sh w w' :
      keeps nofile w w' →
      acts available (Recording meta n) sh w Looping (complete_chunk (cm_index meta) sh) w'
  | act_release meta e sh w :
      acts available (Releasing meta e) sh w (Failed e) (set_queue (sh_queue sh ++ [cm_index meta]) sh) w
  | act_finish sh w w' : keeps nofile w w' → acts available Finishing sh w Finished sh w'.

(** The connection of a worker becomes the connection of the world. *)
Definition on_connection (wk : Worker) (w : World) : World := set_out (wk_out wk) (set_in (wk_in wk) w).

(** A step of the swarm: one worker acts on its connection, the shared state and
    the file system. *)
Inductive swarm_step : Swarm * World → Swarm * World → Prop :=
  | step_worker k wk ph sh' s w w' :
      sw_workers s !! k = Some wk →
      acts (cp_available_chunks (wk_peer wk)) (wk_phase wk) (sw_shared s) (on_connection wk w) ph sh' w' →
      swarm_step (s, w)
        (mkSwarm sh' (<[k := mkWorker (wk_peer wk) (w_in w') (w_out w') ph]> (sw_workers s)), w').
End machine.

(** * The code refines the machine *)
Section refinement.
Context `{Blake3Laws} `{Bincode WireMessage} `{DiskFormat}.
Context (manifest : Manifest) (output_dir : option path) (log_level : TransferLogLevel) (share_id : ShareId).
Context (paths : LibraryPaths).
Let metas := mf_chunks manifest.
Context (Hmetas : Forall ChunkMeta_wf metas).

Definition library_ok (l : option ActiveDownloadLibraryState) : Prop :=
  ∃ st, l = Some st ∧ ad_paths st = paths ∧ progress_wf (ad_progress st).

Definition phase_ok (ph : phase) : Prop :=
  match ph with
  | Requesting meta | Receiving meta | Recording meta _ | Releasing meta _ => meta ∈ metas
  | Persisting meta temp _ => meta ∈ metas ∧ part_file paths (cm_index meta) temp
  | _ => True
  end.

Lemma meta_range meta : meta ∈ metas → u32_range (cm_index meta).
Proof using Hmetas. intros Hin. rewrite Forall_forall in Hmetas. by apply Hmetas. Qed.

Lemma part_file_chunk i temp j : part_file paths i temp → temp ≠ chunk_path paths j.
Proof. intros [t ->]. apply part_path_chunk. Qed.

Lemma library_marks i l l' : library_ok l → u32_range i → marks i l l' → library_ok l'.
Proof.
  intros (st & -> & Hp & Hwf) Hi (st0 & st' & [= <-] & -> & Hp' & Hpr). exists st'.
  split_and!; [done|congruence|]. rewrite Hpr. by apply mark_completed_wf.
Qed.

Lemma wp_persist_shared missing store st index (A B : World → Prop) w :
  progress_wf (ad_progress st) → u32_range index →
  wp (store (ad_paths st)) (λ _ w', A w') (λ _ w', B w') w →
  wp (persist_shared output_dir missing store (Some st) index)
    (λ r w', (B w' ∧ r.1 = Some st ∧ ∃ e, r.2 = Err e)
             ∨ ((∃ w1, A w1 ∧ keeps (meta_files (ad_paths st)) w1 w') ∧ marks index (Some st) r.1 ∧
                (r.2 = Ok tt ∨ ∃ e, r.2 = Err e))) (λ _ _, False) w.
Proof.
  intros Hwf Hi Hs. cbn [persist_shared]. wp_simpl. wp_call Hs.
  - intros _ w1 HA. wp_simpl. destruct (mark_persisted_ok st index Hwf Hi) as [_ Hok].
    wp_call wp_maybe_flush; [exact Hok| |].
    + intros st' w2 (Hk & Hp & Hpr). wp_simpl. right. split; [by exists w1|]. split; [by exists st, st'|by left].
    + intros e w2 Hk. wp_simpl. right. split; [by exists w1|]. split; [by exists st, (mark_persisted st index)|].
      right. by exists e.
  - intros e w1 HB. wp_simpl. left. split_and!; [done|done|by exists e].
Qed.

(** What a request that reached the lock becomes. *)
Lemma wp_finish_stored available missing store meta temp frame st d (n : Z) sh w0 w :
  sh_library sh = Some st → ad_paths st = paths → progress_wf (ad_progress st) → meta ∈ metas →
  keeps (λ q, q = temp) w0 w →
  accepted meta temp frame w0 d →
  file_at (w_fs w) (chunk_path paths (cm_index meta)) = file_at (w_fs w0) (chunk_path paths (cm_index meta)) →
  wp (store paths)
    (λ _ w', keeps (persist_files paths (cm_index meta) (Some temp)) w w'
             ∧ file_at (w_fs w') (chunk_path paths (cm_index meta)) = Some d)
    (λ _ w', keeps (persist_files paths (cm_index meta) (Some temp)) w w'
             ∧ file_at (w_fs w') (chunk_path paths (cm_index meta))
               ∈ [file_at (w_fs w) (chunk_path paths (cm_index meta)); None]) w →
  wp (let! r := persist_shared output_dir missing store (Some st) (cm_index meta) in ret (r.1, result_bind r.2 (λ _, Ok n)))
    (λ r w', acts metas paths available (Persisting meta temp frame) sh w0
               (next_phase r.2 (Recording meta) (Releasing meta)) (set_library r.1 sh) w') (λ _ _, False) w.
Proof using Hmetas.
  intros Hl Hp Hwf Hin Hk0 Hacc Hsame Hs. wp_simpl.
  assert (keeps (persist_files paths (cm_index meta) (Some temp)) w0 w) as Hk1.
  { eapply keeps_mono; [|exact Hk0]. intros q ->. right. right. by left. }
  wp_call wp_persist_shared; [done|by apply meta_range|rewrite Hp; exact Hs| |done].
  intros [l r] w'. cbn [fst snd]. intros [([Hk Hf] & -> & e & ->)|((w1 & [Hk Hf] & Hkm) & Hm & Hr)]; wp_simpl;
    cbn [fst snd].
  - cbn [next_phase result_bind]. rewrite <- Hl. replace (set_library (sh_library sh) sh) with sh by (by destruct sh).
    apply act_store_failed; [by etrans|]. by rewrite <- Hsame.
  - rewrite Hp in Hkm.
    assert (keeps (persist_files paths (cm_index meta) (Some temp)) w0 w') as Hk'.
    { etrans; [exact Hk1|]. etrans; [exact Hk|]. by apply keeps_meta_persist. }
    assert (file_at (w_fs w') (chunk_path paths (cm_index meta)) = Some d) as Hd
      by (by rewrite (keeps_meta_chunk _ _ _ _ Hkm)).
    rewrite <- Hl in Hm. destruct Hr as [->|[e ->]].
    + by eapply act_store.
    + by eapply act_store_unsaved.
Qed.

Lemma wp_remove_temp_file temp w :
  wp (remove_file_if_exists temp) (λ _ w', keeps (λ q, q = temp) w w') (λ _ _, False) w.
Proof. by apply wp_remove_file_if_exists. Qed.

(** A refused answer only costs its temporary file. *)
Lemma wp_reject available meta temp frame e sh w :
  wp (do! remove_file_if_exists temp in ret (sh_library sh, Err e : result NetworkError Z))
    (λ r w', acts metas paths available (Persisting meta temp frame) sh w
               (next_phase r.2 (Recording meta) (Releasing meta)) (set_library r.1 sh) w') (λ _ _, False) w.
Proof.
  wp_simpl. wp_call wp_remove_temp_file; [|done]. intros _ w' Hk. wp_simpl. cbn [fst snd next_phase].
  replace (set_library (sh_library sh) sh) with sh by (by destruct sh). by apply act_reject.
Qed.

Lemma wp_finish_request available meta temp frame sh w :
  library_ok (sh_library sh) → meta ∈ metas → part_file paths (cm_index meta) temp →
  wp (finish_request output_dir (sh_library sh) meta temp frame)
    (λ r w', acts metas paths available (Persisting meta temp frame) sh w
               (next_phase r.2 (Recording meta) (Releasing meta)) (set_library r.1 sh) w') (λ _ _, False) w.
Proof using Hmetas.
  intros (st & Hl & Hp & Hwf) Hin Ht. pose proof (part_file_chunk _ _ (cm_index meta) Ht) as Hne.
  destruct frame as [chunk|m]; cbn [finish_request].
  - case_decide as Hi; [apply wp_reject|]. case_decide as Hh; [apply wp_reject|].
    rewrite Hl. destruct (file_at (w_fs w) temp) as [d|] eqn:Hd.
    + eapply wp_finish_stored; try done.
      wp_call wp_store_chunk_file; [done| |].
      * intros _ w' (Hk & d' & Hd' & Hf). split; [done|congruence].
      * intros e w' [Hk Hf]. done.
    + wp_simpl. wp_call (wp_persist_shared (remove_file_if_exists temp)
        (λ paths, store_chunk_file paths (cm_index meta) temp) st (cm_index meta) (λ _, False)
        (λ w', keeps (persist_files paths (cm_index meta) (Some temp)) w w'
             ∧ file_at (w_fs w') (chunk_path paths (cm_index meta))
               ∈ [file_at (w_fs w) (chunk_path paths (cm_index meta)); None])); [done|by apply meta_range| | |done].
      { rewrite Hp. wp_call wp_store_chunk_file; [done| |].
        - intros _ w' (Hk & d' & Hd' & Hf). congruence.
        - intros e w' [Hk Hf]. done. }
      intros [l r] w' [([Hk Hf] & Hl' & e & He)|((? & [] & _) & _)]. cbn [fst snd] in *. subst l r. wp_simpl.
      cbn [fst snd result_bind next_phase]. rewrite <- Hl.
      replace (set_library (sh_library sh) sh) with sh by (by destruct sh). by apply act_store_failed.
  - destruct m as [| | | | | | | | | |index data|message]; try (by apply wp_reject).
    wp_simpl. wp_call wp_remove_temp_file; [|done]. intros _ w1 Hk1. wp_simpl.
    assert (∀ e, acts metas paths available (Persisting meta temp (Message (Chunk index data))) sh w
                   (Releasing meta e) (set_library (sh_library sh) sh) w1) as Hrej
      by (intros e; destruct sh; by apply act_reject).
    case_decide as Hi; [wp_simpl; apply Hrej|]. case_decide as Hh; [wp_simpl; apply Hrej|].
    subst index. rewrite Hl.
    eapply wp_finish_stored; try done.
    + destruct Hk1 as [_ ->]; [done|]. congruence.
    + apply wp_bind. wp_call (wp_write_chunk_any paths (mkEncryptedChunk (cm_index meta) data)).
      * cbn. by apply meta_range.
      * intros _ w' [Hk Hd]. wp_simpl. split; [|done]. eapply keeps_mono; [|exact Hk].
        intros q [?|[?|[?|?]]]; [by left|by right; left|done|by right; right; right].
      * intros e w' [Hk Hd]. split; [|cbn in Hd; rewrite Hd; left]. eapply keeps_mono; [|exact Hk].
        intros q [?|[?|[?|?]]]; [by left|by right; left|done|by right; right; right].
Qed.

Lemma wp_receive_requested sh meta w :
  library_ok (sh_library sh) →
  wp (receive_requested (sh_library sh) meta)
    (λ r w', part_file paths (cm_index meta) r.1 ∧ keeps (λ q, q = r.1) w w'
       ∧ ∀ chunk, r.2 = RawChunkFile chunk →
           ∃ d, file_at (w_fs w') r.1 = Some d ∧ rc_blake3_hash chunk = blake3_hash d)
    (λ _ w', ∃ temp, part_file paths (cm_index meta) temp ∧ keeps (λ q, q = temp) w w') w.
Proof.
  intros (st & Hl & Hp & _). rewrite Hl. unfold receive_requested, download_chunk_temp_path, active_download_state.
  cbn [ok_or]. wp_simpl. unfold staging_timestamp. apply wp_unix_nanos. intros t w1 Hst. wp_simpl. rewrite Hp.
  set (temp := chunks_dir paths ++ [part_name (cm_index meta) t]).
  assert (part_file paths (cm_index meta) temp) as Ht by (by exists t).
  assert (∀ w2, rx_to (Some temp) w1 w2 → keeps (λ q, q = temp) w w2) as Hrx.
  { intros w2 Hr. etrans; [by apply stepped_keeps|]. eapply rx_to_keeps; [exact Hr|]. by intros q [= ->]. }
  apply wp_receive_chunk_to_file.
  - intros e w2 Hr. exists temp. split; [done|by apply Hrx].
  - intros i d w2 Hr _ Hd. wp_simpl. cbn [fst snd]. split_and!; [done|by apply Hrx|]. intros chunk [= <-]. by exists d.
  - intros m w2 Hr. wp_simpl. cbn [fst snd]. split_and!; [done|by apply Hrx, rx_to_weaken|done].
Qed.

Lemma wp_worker_action available ph sh w :
  library_ok (sh_library sh) → phase_ok ph → (∀ e, ph ≠ Failed e) → ph ≠ Finished →
  wp (worker_action manifest output_dir log_level share_id available ph sh)
    (λ r w', acts metas paths available ph sh w r.1 r.2 w') (λ _ _, False) w.
Proof using All.
  intros Hl Hph Hnf Hne. destruct ph as [| |meta|meta|meta temp frame|meta n|meta e| | |e]; cbn [worker_action].
  - wp_simpl. wp_call quiet_have; intros ? w' Hk; wp_simpl; by constructor.
  - pose proof (pop_spec (sh_queue sh) (sh_completed sh) available) as Hpop.
    destruct (pop_next_available_missing_chunk _ _ _) as [[i|] q]; [|wp_simpl; by constructor].
    unfold find_chunk_meta. destruct (list_find _ _) as [[j meta]|] eqn:Hf; cbn [fmap option_fmap option_map snd]; wp_simpl.
    + apply list_find_Some in Hf as (Hj & Hi & _). eapply act_pop; [done|by eapply list_elem_of_lookup_2|done].
    + eapply act_pop_unknown; [done|]. apply list_find_None in Hf. rewrite Forall_forall in Hf.
      intros (m & -> & Hm)%list_elem_of_fmap. by apply (Hf m).
  - wp_simpl. apply wp_send; intros; wp_simpl; constructor; by eapply sent_keeps.
  - wp_simpl. wp_call wp_receive_requested; [done| |].
    + intros [temp frame] w' (Ht & Hk & Hc). wp_simpl. by apply act_receive.
    + intros e w' (temp & Ht & Hk). wp_simpl. by eapply act_receive_failed.
  - destruct Hph as [Hin Ht]. wp_simpl. wp_call wp_finish_request; [done|done|done| |done].
    intros [l r] w' Hact. by wp_simpl.
  - wp_simpl. apply wp_for_share_progress. intros w' He Hfs. wp_simpl. apply act_record. by eapply keeps_same_fs.
  - wp_simpl. apply act_release.
  - wp_simpl. wp_call quiet_have; intros ? w' Hk; wp_simpl; by constructor.
  - done.
  - by destruct (Hnf e).
Qed.
End refinement.

(** * Accounting for chunks *)
Definition holds (ph : phase) : option Z :=
  match ph with
  | Requesting meta | Receiving meta | Persisting meta _ _ | Recording meta _ | Releasing meta _ =>
      Some (cm_index meta)
  | _ => None
  end.
Definition hand (ph : phase) : list Z := match holds ph with Some i => [i] | None => [] end.
Definition held (workers : list Worker) : list Z := omap (holds ∘ wk_phase) workers.

(** The chunks that are still to come: queued or in the hands of a worker. *)
Definition outstanding (sh : Shared) (workers : list Worker) : list Z := sh_queue sh ++ held workers.

Lemma workers_split (workers : list Worker) k wk :
  workers !! k = Some wk →
  workers ≡ₚ wk :: delete k workers ∧ ∀ wk', <[k:=wk']> workers ≡ₚ wk' :: delete k workers.
Proof.
  intros Hk. split; [by apply delete_Permutation|]. intros wk'.
  rewrite insert_take_drop by (by eapply lookup_lt_Some). rewrite delete_take_drop.
  by rewrite <- Permutation_middle.
Qed.

Section accounting.
Context `{Blake3}.
Context (metas : list ChunkMeta) (paths : LibraryPaths) (available : gset Z).

(** What leaves the outstanding chunks is complete, or no chunk of the manifest. *)
Definition accounted (sh : Shared) (held : list Z) (sh' : Shared) (held' : list Z) : Prop :=
  ∃ gone, sh_queue sh ++ held ≡ₚ gone ++ sh_queue sh' ++ held'
    ∧ sh_completed sh ⊆ sh_completed sh'
    ∧ (∀ i, i ∈ sh_completed sh' → i ∈ sh_completed sh ∨ i ∈ gone)
    ∧ ∀ i, i ∈ gone → i ∈ sh_completed sh' ∨ i ∉ cm_index <$> metas.

Lemma accounted_same sh sh' h h' :
  sh_queue sh' = sh_queue sh → sh_completed sh' = sh_completed sh → h' = h → accounted sh h sh' h'.
Proof. intros Hq Hc ->. exists []. rewrite Hq, Hc. split_and!; [done|done|by left|]. by intros i ?%elem_of_nil. Qed.

Lemma acts_accounted ph sh w ph' sh' w' rest :
  acts metas paths available ph sh w ph' sh' w' →
  accounted sh (hand ph ++ rest) sh' (hand ph' ++ rest).
Proof.
  destruct 1 as [| |q sh w Hp|i meta q sh w Hp Hin <-|i q sh w Hp Hi| | | | | | | | |meta n sh w w'|meta e sh w|];
    try (by apply accounted_same); cbn [hand holds app].
  - destruct Hp as (gone & Hg & Hq & _). exists gone. cbn [set_queue sh_queue sh_completed fst snd] in *. rewrite Forall_forall in Hg.
    split_and!; [by rewrite Hq, <- app_assoc|done|by left|by left; auto].
  - destruct Hp as (gone & Hg & Hq & _). exists gone. cbn [set_queue sh_queue sh_completed fst snd] in *. rewrite Forall_forall in Hg.
    split_and!; [|done|by left|by left; auto]. rewrite Hq, <- app_assoc. apply Permutation_app_head. apply Permutation_middle.
  - destruct Hp as (gone & Hg & Hq & _). exists (gone ++ [i]). cbn [set_queue sh_queue sh_completed fst snd] in *.
    rewrite Forall_forall in Hg.
    split_and!; [rewrite Hq, <- !app_assoc; done|done|by left|].
    intros j [? | ->%list_elem_of_singleton]%elem_of_app; [left; auto|by right].
  - exists [cm_index meta]. cbn [complete_chunk sh_queue sh_completed]. split_and!; [|set_solver|set_solver|set_solver].
    by rewrite <- (Permutation_middle (sh_queue sh) rest (cm_index meta)).
  - exists []. cbn [set_queue sh_queue sh_completed]. split_and!; [|done|by left|by intros i ?%elem_of_nil].
    by rewrite <- app_assoc.
Qed.

(** Every chunk of the manifest is complete or outstanding. *)
Definition none_lost (sh : Shared) (held : list Z) : Prop :=
  ∀ i, i ∈ cm_index <$> metas → i ∈ sh_completed sh ∨ i ∈ sh_queue sh ++ held.

(** No chunk is outstanding twice, or outstanding and complete. *)
Definition exclusive (sh : Shared) (held : list Z) : Prop :=
  NoDup (sh_queue sh ++ held) ∧ ∀ i, i ∈ sh_completed sh → i ∉ sh_queue sh ++ held.

Lemma accounted_none_lost sh h sh' h' : accounted sh h sh' h' → none_lost sh h → none_lost sh' h'.
Proof.
  intros (gone & Hp & Hsub & _ & Hg) Hn i Hi. destruct (Hn i Hi) as [?|Ho]; [left; set_solver|].
  rewrite Hp in Ho. apply elem_of_app in Ho as [Ho|Ho]; [|by right]. destruct (Hg i Ho); [by left|done].
Qed.

Lemma accounted_exclusive sh h sh' h' : accounted sh h sh' h' → exclusive sh h → exclusive sh' h'.
Proof.
  intros (gone & Hp & Hsub & Hback & _) [Hnd Hex]. rewrite Hp in Hnd. apply NoDup_app in Hnd as (_ & Hdis & Hnd).
  split; [done|]. intros i Hi Ho. destruct (Hback i Hi) as [Hc|Hg]; [|by eapply Hdis].
  apply (Hex i Hc). rewrite Hp. apply elem_of_app. by right.
Qed.
End accounting.

(** * Names of temporary files *)
Lemma digits_split (l1 l2 r1 r2 : bytes) :
  Forall (λ b, 48 ≤ byte_val b < 58) l1 → Forall (λ b, 48 ≤ byte_val b < 58) l2 →
  l1 ++ Byte.x2e :: r1 = l2 ++ Byte.x2e :: r2 → l1 = l2.
Proof.
  assert (¬ (48 ≤ byte_val Byte.x2e < 58)) as Hdot by (vm_compute; intros [H _]; by apply H).
  intros H1. revert l2. induction H1 as [|b l1 Hb H1 IH]; intros l2 H2 Heq; destruct H2 as [|b' l2 Hb' H2].
  - done.
  - injection Heq as <- _. done.
  - injection Heq as -> _. done.
  - injection Heq as -> Heq. f_equal. by apply IH.
Qed.

Lemma part_name_bytes i t : ∃ r, str_bytes (part_name i t) = str_bytes (dec_pad6 i) ++ Byte.x2e :: r.
Proof. eexists. unfold part_name. rewrite !str_bytes_app. reflexivity. Qed.

Lemma part_name_index i t j t' : 0 ≤ i → 0 ≤ j → part_name i t = part_name j t' → i = j.
Proof.
  intros Hi Hj Heq. destruct (part_name_bytes i t) as [r Hr], (part_name_bytes j t') as [r' Hr'].
  rewrite Heq in Hr. rewrite Hr in Hr'. apply digits_split in Hr'; [|by apply dec_pad6_digits..].
  apply str_bytes_inj in Hr'. by apply dec_pad6_inj in Hr'.
Qed.

Lemma part_name_plain i t : 0 ≤ i → plain_name (part_name i t).
Proof.
  intros Hi. unfold plain_name. destruct (part_name_bytes i t) as [r ->].
  pose proof (dec_pad6_digits i Hi) as Hd. pose proof (dec_pad6_nonempty i) as Hn.
  destruct (str_bytes (dec_pad6 i)) as [|b l]; [done|]. cbn. intros [= ->]. inversion Hd as [|?? [Hb _]]; subst.
  by apply Hb.
Qed.

(** * What an action may touch *)
Section frames.
Context `{Blake3Laws}.
Context (manifest : Manifest) (paths : LibraryPaths).
Let metas := mf_chunks manifest.

(** The files of the worker that holds chunk [i]. *)
Definition worker_files (i : Z) (q : path) : Prop := persist_files paths i None q ∨ part_file paths i q.

Lemma persist_worker_files i temp w w' :
  part_file paths i temp → keeps (persist_files paths i (Some temp)) w w' → keeps (worker_files i) w w'.
Proof.
  intros Ht. apply keeps_mono. intros q [?|[?|[[= <-]|?]]]; [left; by left|left; right; by left|by right|].
  left. by right; right; right.
Qed.

Lemma temp_worker_files i temp w w' :
  part_file paths i temp → keeps (λ q, q = temp) w w' → keeps (worker_files i) w w'.
Proof. intros Ht. apply keeps_mono. intros q ->. by right. Qed.

Lemma worker_files_chunk i j : u32_range i → u32_range j → worker_files i (chunk_path paths j) → j = i.
Proof.
  intros [Hi _] [Hj _] [[Hm|[Hh|[?|Heq]]]|[t Ht]].
  - by apply meta_files_chunk in Hm.
  - by apply hidden_files_chunk in Hh.
  - done.
  - by apply chunk_path_inj in Heq.
  - symmetry in Ht. by apply part_path_chunk in Ht.
Qed.

Lemma worker_files_part i j t :
  u32_range i → u32_range j → worker_files i (chunks_dir paths ++ [part_name j t]) → j = i.
Proof.
  intros [Hi _] [Hj _] [[[n Hm]|[(n & Heq & Hn)|[?|Heq]]]|[t' Heq]].
  - unfold chunks_dir in Hm. rewrite <- app_assoc in Hm. by apply app_inv_head in Hm.
  - apply app_inj_tail in Heq as [_ <-]. destruct Hn. by apply part_name_plain.
  - done.
  - by apply part_path_chunk in Heq.
  - apply app_inj_tail in Heq as [_ Heq]. by apply part_name_index in Heq.
Qed.

(** Actions of a worker without a chunk touch nothing. *)
Definition hand_files (ph : phase) (q : path) : Prop := ∃ i, holds ph = Some i ∧ worker_files i q.

Lemma acts_keeps available ph sh w ph' sh' w' :
  acts metas paths available ph sh w ph' sh' w' → phase_ok manifest paths ph → keeps (hand_files ph) w w'.
Proof.
  assert (∀ i u v, holds ph = Some i → keeps (worker_files i) u v → keeps (hand_files ph) u v) as Hhand.
  { intros i u v Hi. apply keeps_mono. intros q Hq. by exists i. }
  destruct 1; cbn [phase_ok]; try (by intros; apply keeps_nofile); try done; intros Hok.
  - eapply Hhand; [done|by eapply temp_worker_files].
  - eapply Hhand; [done|by eapply temp_worker_files].
  - eapply Hhand; [done|by eapply temp_worker_files; [apply Hok|]].
  - eapply Hhand; [done|by eapply persist_worker_files; [apply Hok|]].
  - eapply Hhand; [done|by eapply persist_worker_files; [apply Hok|]].
  - eapply Hhand; [done|by eapply persist_worker_files; [apply Hok|]].
Qed.

Lemma dl_worker_files i q : worker_files i q → dl_files (Some paths) q.
Proof.
  intros Hq. exists paths. split; [done|]. destruct Hq as [[[n ->]|[(n & -> & _)|[? | ->]]]|[t ->]];
    try done; unfold chunk_path, chunks_dir; rewrite <- ?app_assoc; by eexists.
Qed.
End frames.

(** * The invariant of every interleaving *)
Section swarm_invariant.
Context `{Blake3Laws}.
Context (manifest : Manifest) (paths : LibraryPaths) (w0 : World).
Let metas := mf_chunks manifest.
Context (Hmetas : Forall ChunkMeta_wf metas).

(** Whatever the manifest: only files of the share change. *)
Definition swarm_basic (sh : Shared) (workers : list Worker) (w : World) : Prop :=
  keeps (dl_files (Some paths)) w0 w ∧ library_ok paths (sh_library sh)
  ∧ Forall (λ wk, phase_ok manifest paths (wk_phase wk)) workers.

(** Chunk [i] is marked in the progress of the library. *)
Definition recorded (sh : Shared) (i : Z) : Prop :=
  ∃ st, sh_library sh = Some st ∧ i ∈ progress_set (ad_progress st).

(** What a worker's phase promises about the files. *)
Definition worker_ok (sh : Shared) (w : World) (wk : Worker) : Prop :=
  match wk_phase wk with
  | Persisting meta temp (RawChunkFile chunk) =>
      ∃ d, file_at (w_fs w) temp = Some d ∧ rc_blake3_hash chunk = blake3_hash d
  | Recording meta _ => verified (w_fs w) paths metas (cm_index meta) ∧ recorded sh (cm_index meta)
  | _ => True
  end.

Definition failing (ph : phase) : bool := match ph with Releasing _ _ | Failed _ => true | _ => false end.
Definition waiting (ph : phase) : bool := match ph with Finishing | Finished => true | _ => false end.

(** A worker that found nothing to do was right, unless some worker failed. *)
Definition scanned (sh : Shared) (workers : list Worker) : Prop :=
  Exists (λ wk, failing (wk_phase wk)) workers
  ∨ Forall (λ wk, waiting (wk_phase wk) → ∀ i, i ∈ sh_queue sh → i ∉ cp_available_chunks (wk_peer wk)) workers.

Definition swarm_inv (sh : Shared) (workers : list Worker) (w : World) : Prop :=
  safe manifest (Some paths) w0 w ∧ exclusive sh (held workers) ∧ none_lost metas sh (held workers)
  ∧ (∀ i, i ∈ sh_completed sh → verified (w_fs w) paths metas i ∧ recorded sh i)
  ∧ Forall (worker_ok sh w) workers ∧ scanned sh workers.

Lemma acts_library available ph sh w ph' sh' w' :
  acts metas paths available ph sh w ph' sh' w' → phase_ok manifest paths ph → library_ok paths (sh_library sh) →
  library_ok paths (sh_library sh') ∧ (∀ i, recorded sh i → recorded sh' i).
Proof using All.
  assert (∀ i l s, library_ok paths (sh_library s) → i ∈ cm_index <$> metas → marks i (sh_library s) l →
    library_ok paths l ∧ ∀ j, recorded s j → recorded (set_library l s) j) as Hmark.
  { intros i l s Hl (meta & -> & Hin)%list_elem_of_fmap Hm. split.
    - eapply library_marks; [done|by eapply meta_range|done].
    - intros j (st & Hst & Hj). destruct Hm as (st0 & st' & Hst0 & -> & _ & Hpr). simplify_eq.
      exists st'. split; [done|]. rewrite Hpr, mark_completed_set; [set_solver|].
      destruct Hl as (st1 & Hl & _ & Hwf). congruence. }
  destruct 1; cbn [phase_ok set_queue set_library complete_chunk sh_library]; intros Hok Hl; try (split; [done|by auto]).
  - apply (Hmark (cm_index meta)); [done|by apply list_elem_of_fmap_2; apply Hok|done].
  - apply (Hmark (cm_index meta)); [done|by apply list_elem_of_fmap_2; apply Hok|done].
Qed.

Lemma acts_phase available ph sh w ph' sh' w' :
  acts metas paths available ph sh w ph' sh' w' → phase_ok manifest paths ph → phase_ok manifest paths ph'.
Proof. destruct 1; cbn [phase_ok]; try done; by intros [? ?]. Qed.

Lemma acts_basic wk i o ph' others sh sh' w w' :
  swarm_basic sh (wk :: others) w →
  acts metas paths (cp_available_chunks (wk_peer wk)) (wk_phase wk) sh w ph' sh' w' →
  swarm_basic sh' (mkWorker (wk_peer wk) i o ph' :: others) w'.
Proof using All.
  intros (Hk & Hl & [Hph Hphs]%Forall_cons) Hact. split; [|split].
  - etrans; [exact Hk|]. eapply keeps_mono; [|by eapply acts_keeps]. intros q (j & _ & Hq). by eapply dl_worker_files.
  - by eapply acts_library.
  - apply Forall_cons. split; [by eapply acts_phase|done].
Qed.

(** Stored chunks survive the actions of workers that do not hold them. *)
Lemma verified_kept ph w w' i :
  keeps (hand_files paths ph) w w' → phase_ok manifest paths ph → holds ph ≠ Some i →
  verified (w_fs w) paths metas i → verified (w_fs w') paths metas i.
Proof using All.
  intros [_ Hf] Hph Hne (meta & d & Hin & Hi & Hd & Hh). exists meta, d. split_and!; [done|done| |done].
  rewrite Hf; [done|]. intros (j & Hj & Hw). apply Hne. rewrite Hj. f_equal. symmetry.
  assert (u32_range j) as Hjr.
  { destruct ph; cbn [holds] in Hj; try done; injection Hj as <-; (eapply meta_range; [exact Hmetas|]); by apply Hph. }
  apply (worker_files_chunk paths) in Hw; [done|done|]. subst i. by eapply meta_range.
Qed.

Lemma worker_kept ph sh sh' w w' wk :
  keeps (hand_files paths ph) w w' → phase_ok manifest paths ph → phase_ok manifest paths (wk_phase wk) →
  (∀ i, recorded sh i → recorded sh' i) → (∀ i, holds ph = Some i → holds (wk_phase wk) ≠ Some i) →
  worker_ok sh w wk → worker_ok sh' w' wk.
Proof using All.
  intros Hk Hph Hwk Hrec Hne. unfold worker_ok.
  destruct (wk_phase wk) as [| | | |meta temp frame|meta n| | | |] eqn:Hp; try done.
  - destruct frame as [chunk|]; [|done]. intros (d & Hd & Hh). exists d. split; [|done].
    destruct Hk as [_ ->]; [done|]. intros (j & Hj & Hw). destruct Hwk as [Hin [t ->]].
    apply (Hne j Hj). cbn [holds]. f_equal. apply (worker_files_part paths) in Hw; [done| |by eapply meta_range].
    destruct ph; cbn [holds] in Hj; try done; injection Hj as <-; (eapply meta_range; [exact Hmetas|]); by apply Hph.
  - intros [Hv Hr]. split; [|by apply Hrec]. eapply verified_kept; [exact Hk|done| |done].
    intros Hj. by apply (Hne _ Hj).
Qed.

(** The content of an accepted answer matches the manifest. *)
Lemma accepted_hash meta temp frame w d sh p i o :
  accepted meta temp frame w d → worker_ok sh w (mkWorker p i o (Persisting meta temp frame)) →
  hash_chunk d = cm_blake3_hash meta.
Proof.
  destruct frame as [chunk|[]]; cbn [accepted worker_ok wk_phase]; try done.
  - intros (_ & Hh & Hd) (d' & Hd' & Hb). simplify_eq. apply chunk_hash_eq. congruence.
  - by intros (_ & Hh & ->) _.
Qed.

Lemma acts_safe wk ph' sh sh' w w' :
  acts metas paths (cp_available_chunks (wk_peer wk)) (wk_phase wk) sh w ph' sh' w' →
  phase_ok manifest paths (wk_phase wk) → worker_ok sh w wk →
  safe manifest (Some paths) w0 w → safe manifest (Some paths) w0 w'.
Proof using All.
  destruct wk as [peer inb outb ph]. cbn [wk_peer wk_phase].
  assert (∀ meta temp, part_file paths (cm_index meta) temp → temp_ok (Some paths) (Some temp)) as Htemp.
  { intros meta temp [t ->]. by exists (cm_index meta), t. }
  assert (∀ meta temp u v, part_file paths (cm_index meta) temp → keeps (λ q, q = temp) u v →
            safe manifest (Some paths) w0 u → safe manifest (Some paths) w0 v) as Hpart.
  { intros meta temp u v Ht Hk. eapply temp_safe; [by eapply Htemp|]. eapply keeps_mono; [|exact Hk]. by intros q ->. }
  destruct 1 as [| | | | | | | | | |meta temp frame n d l sh w w' Ha Hk Hd _|meta temp frame e d l sh w w' Ha Hk Hd _
    |meta temp frame e sh w w' Hk Hr| | |];
    cbn [phase_ok]; intros Hok Hw; try (by apply safe_kept); try done.
  - by eapply Hpart.
  - by eapply Hpart.
  - destruct Hok. by eapply Hpart.
  - destruct Hok as [Hin Ht]. pose proof (accepted_hash _ _ _ _ _ _ _ _ _ Ha Hw) as Hh.
    eapply persist_sound_any; [by eapply Htemp|done|by eapply meta_range|exact Hin|done|done|].
    intros d' Hd'. right. congruence.
  - destruct Hok as [Hin Ht]. pose proof (accepted_hash _ _ _ _ _ _ _ _ _ Ha Hw) as Hh.
    eapply persist_sound_any; [by eapply Htemp|done|by eapply meta_range|exact Hin|done|done|].
    intros d' Hd'. right. congruence.
  - destruct Hok as [Hin Ht].
    eapply persist_sound_any; [by eapply Htemp|done|by eapply meta_range|exact Hin|done|done|].
    intros d' Hd'. left. rewrite Hd', !elem_of_cons, elem_of_nil in Hr. by destruct Hr as [->|[?|[]]].
Qed.

Lemma acts_worker wk inb outb ph' sh sh' w w' :
  acts metas paths (cp_available_chunks (wk_peer wk)) (wk_phase wk) sh w ph' sh' w' →
  phase_ok manifest paths (wk_phase wk) → library_ok paths (sh_library sh) → worker_ok sh w wk →
  worker_ok sh' w' (mkWorker (wk_peer wk) inb outb ph').
Proof using All.
  destruct wk as [peer inb0 outb0 ph]. cbn [wk_peer wk_phase].
  destruct 1 as [| | | | | | |meta temp frame sh w w' _ _ Hc| | |meta temp frame n d l sh w w' Ha _ Hd Hm| | | | |];
    intros Hok Hl Hw; try done.
  - cbn [worker_ok wk_phase]. destruct frame as [chunk|]; [|done]. by apply Hc.
  - cbn [worker_ok wk_phase]. destruct Hok as [Hin _]. split.
    + exists meta, d. split_and!; [done|done|done|by eapply accepted_hash].
    + destruct Hl as (st0 & Hst0 & _ & Hwf). destruct Hm as (st & st' & Hst & -> & _ & Hpr). exists st'.
      split; [done|]. rewrite Hpr, mark_completed_set; [set_solver|congruence].
Qed.

Lemma acts_completed available ph sh w ph' sh' w' i :
  acts metas paths available ph sh w ph' sh' w' → i ∈ sh_completed sh' →
  i ∈ sh_completed sh ∨ ∃ meta n, ph = Recording meta n ∧ cm_index meta = i ∧ keeps nofile w w'.
Proof.
  destruct 1; cbn [set_queue set_library complete_chunk sh_completed]; intros Hi; try (by left).
  apply elem_of_union in Hi as [->%elem_of_singleton|Hi]; [right|by left]. by eexists _, _.
Qed.

Lemma acts_scanned wk inb outb ph' others sh sh' w w' :
  scanned sh (wk :: others) →
  acts metas paths (cp_available_chunks (wk_peer wk)) (wk_phase wk) sh w ph' sh' w' →
  scanned sh' (mkWorker (wk_peer wk) inb outb ph' :: others).
Proof.
  assert (∀ q : list Z, (∀ i, i ∈ q → i ∈ sh_queue sh) →
    Forall (λ wk, waiting (wk_phase wk) → ∀ i, i ∈ sh_queue sh → i ∉ cp_available_chunks (wk_peer wk)) others →
    Forall (λ wk, waiting (wk_phase wk) → ∀ i, i ∈ q → i ∉ cp_available_chunks (wk_peer wk)) others) as Hsub.
  { intros q Hq Hall. eapply Forall_impl; [exact Hall|]. intros v Hv Hwt i Hi. by apply Hv, Hq. }
  assert (∀ q dropped x, sh_queue sh ≡ₚ dropped ++ x :: q → ∀ i, i ∈ q → i ∈ sh_queue sh) as Hperm.
  { intros q dropped x Hq i Hi. rewrite Hq. set_solver. }
  destruct wk as [peer inb0 outb0 ph]. cbn [wk_peer wk_phase].
  intros [[Hf|Hf]%Exists_cons|[Hwk Hf]%Forall_cons] Hact.
  - left. apply Exists_cons. left. cbn [wk_phase] in *. by destruct Hact.
  - left. apply Exists_cons. by right.
  - cbn [wk_phase wk_peer] in Hwk. unfold scanned. rewrite Exists_cons, Forall_cons. cbn [wk_phase wk_peer].
    destruct Hact as [| |q sh w Hp|i meta q sh w Hp|i q sh w Hp| | | | | | | | | | |];
      try (right; split; [done|by apply Hsub]); try (by left; left).
    + destruct Hp as (dropped & _ & Hq & Hn). cbn [set_queue sh_queue fst snd] in *. right. split.
      * intros _ i Hi. rewrite Forall_forall in Hn. by apply Hn.
      * apply Hsub; [|done]. intros i Hi. rewrite Hq. set_solver.
    + destruct Hp as (dropped & _ & Hq & _). cbn [set_queue sh_queue fst snd] in *. right. split; [done|].
      apply Hsub; [by eapply Hperm|done].
    + destruct Hp as (dropped & _ & Hq & _). cbn [set_queue sh_queue fst snd] in *. right. split; [done|].
      apply Hsub; [by eapply Hperm|done].
Qed.

Lemma held_cons wk others : held (wk :: others) = hand (wk_phase wk) ++ held others.
Proof. unfold held, hand. cbn [omap list_omap]. unfold compose. by destruct (holds (wk_phase wk)). Qed.

Lemma held_elem wk workers i : wk ∈ workers → holds (wk_phase wk) = Some i → i ∈ held workers.
Proof. intros Hin Hi. apply list_elem_of_omap. by exists wk. Qed.

(** One worker acts; the others stand still. *)
Lemma acts_inv wk inb outb ph' others sh sh' w w' :
  swarm_basic sh (wk :: others) w → swarm_inv sh (wk :: others) w →
  acts metas paths (cp_available_chunks (wk_peer wk)) (wk_phase wk) sh w ph' sh' w' →
  swarm_inv sh' (mkWorker (wk_peer wk) inb outb ph' :: others) w'.
Proof using All.
  intros (_ & Hl & [Hph Hphs]%Forall_cons) (Hs & Hex & Hn & Hc & [Hw Hws]%Forall_cons & Hsc) Hact.
  pose proof (acts_accounted _ _ _ _ _ _ _ _ _ (held others) Hact) as Hacc.
  assert (held (mkWorker (wk_peer wk) inb outb ph' :: others) = hand ph' ++ held others) as Hh' by apply held_cons.
  rewrite held_cons in Hex, Hn. pose proof (acts_keeps _ _ _ _ _ _ _ _ _ Hact Hph) as Hk.
  destruct (acts_library _ _ _ _ _ _ _ Hact Hph Hl) as [Hl' Hrec].
  assert (∀ i, holds (wk_phase wk) = Some i → i ∈ sh_queue sh ++ hand (wk_phase wk) ++ held others) as Hown.
  { intros i Hi. unfold hand. rewrite Hi. set_solver. }
  split_and!.
  - by eapply acts_safe.
  - rewrite Hh'. by eapply accounted_exclusive.
  - rewrite Hh'. by eapply accounted_none_lost.
  - intros i Hi. destruct (acts_completed _ _ _ _ _ _ _ _ Hact Hi) as [Hci|(meta & n & Hp & <- & Hkn)].
    + destruct (Hc i Hci) as [Hv Hr]. split; [|by apply Hrec]. eapply verified_kept; [exact Hk|done| |done].
      intros Hh. destruct Hex as [_ Hex]. by eapply Hex, Hown.
    + unfold worker_ok in Hw. rewrite Hp in Hw. destruct Hw as [Hv Hr]. split; [|by apply Hrec].
      eapply verified_kept; [|exact (I : phase_ok manifest paths Looping)|done|exact Hv]. by apply keeps_nofile.
  - apply Forall_cons. split; [by eapply acts_worker|]. rewrite Forall_forall in Hphs, Hws |- *. intros v Hv.
    eapply worker_kept; [exact Hk|done|by apply Hphs|exact Hrec| |by apply Hws].
    intros i Hi Hvi. pose proof (held_elem _ _ _ Hv Hvi) as Hin. destruct Hex as [Hnd _].
    unfold hand in Hnd. rewrite Hi in Hnd. apply NoDup_app in Hnd as (_ & _ & Hnd). inversion Hnd. done.
  - by eapply acts_scanned.
Qed.

(** The invariants do not depend on the order of the workers. *)
Lemma basic_perm sh ws ws' w : ws ≡ₚ ws' → swarm_basic sh ws w → swarm_basic sh ws' w.
Proof. intros Hp (? & ? & Hf). split_and!; [done|done|by rewrite <- Hp]. Qed.

Lemma inv_perm sh ws ws' w : ws ≡ₚ ws' → swarm_inv sh ws w → swarm_inv sh ws' w.
Proof.
  intros Hp (Hs & [Hnd Hex] & Hn & Hc & Hw & Hsc). assert (held ws ≡ₚ held ws') as Hh by (unfold held; by rewrite Hp).
  split_and!; [done| | |done|by rewrite <- Hp|].
  - split; [by rewrite <- Hh|]. intros i Hi. rewrite <- Hh. by apply Hex.
  - intros i Hi. rewrite <- Hh. by apply Hn.
  - unfold scanned. by rewrite <- Hp.
Qed.

(** The invariant of the swarm: the full one when no chunk number repeats. *)
Definition invariant (sw : Swarm * World) : Prop :=
  swarm_basic (sw_shared sw.1) (sw_workers sw.1) sw.2
  ∧ (NoDup (cm_index <$> metas) → swarm_inv (sw_shared sw.1) (sw_workers sw.1) sw.2).

Lemma swarm_step_basic sw sw' :
  swarm_basic (sw_shared sw.1) (sw_workers sw.1) sw.2 → swarm_step metas paths sw sw' →
  swarm_basic (sw_shared sw'.1) (sw_workers sw'.1) sw'.2.
Proof using All.
  intros Hb Hstep. destruct Hstep as [k wk ph sh' s w w' Hk Hact]. cbn [fst snd sw_shared sw_workers] in *.
  destruct (workers_split _ _ _ Hk) as [Hp Hp']. apply (basic_perm _ _ _ _ Hp) in Hb.
  eapply basic_perm; [symmetry; apply Hp'|]. by eapply (acts_basic _ _ _ _ _ _ _ (on_connection wk w)).
Qed.

Lemma swarm_step_invariant sw sw' : invariant sw → swarm_step metas paths sw sw' → invariant sw'.
Proof using All.
  intros [Hb Hi] Hstep. split; [by eapply swarm_step_basic|]. intros Hnd. specialize (Hi Hnd).
  destruct Hstep as [k wk ph sh' s w w' Hk Hact]. cbn [fst snd sw_shared sw_workers] in *.
  destruct (workers_split _ _ _ Hk) as [Hp Hp'].
  eapply inv_perm; [symmetry; apply Hp'|]. eapply (acts_inv _ _ _ _ _ _ _ (on_connection wk w)); [| |done].
  - by eapply (basic_perm _ _ _ w).
  - by eapply (inv_perm _ _ _ w).
Qed.

(** What holds at the start holds after every interleaving. *)
Lemma rtc_invariant sw sw' : rtc (swarm_step metas paths) sw sw' → invariant sw → invariant sw'.
Proof using All. induction 1; [done|]. eauto using swarm_step_invariant. Qed.
End swarm_invariant.

(** * Every run ends *)
Lemma acts_weight `{Blake3} metas paths available ph sh w ph' sh' w' :
  acts metas paths available ph sh w ph' sh' w' →
  (10 * length (sh_queue sh') + phase_weight ph' < 10 * length (sh_queue sh) + phase_weight ph)%nat.
Proof.
  destruct 1 as [| |q sh w Hp|i meta q sh w Hp|i q sh w Hp| | | | | | | | | | |];
    cbn [phase_weight set_queue set_library complete_chunk sh_queue]; rewrite ?length_app; cbn [length]; try lia.
  all: destruct Hp as (dropped & _ & Hp); cbn [fst snd] in Hp; destruct Hp as [Hp%Permutation_length _];
    rewrite length_app in Hp; cbn [length] in Hp; lia.
Qed.

Lemma sum_list_perm (l l' : list nat) : l ≡ₚ l' → sum_list l = sum_list l'.
Proof. induction 1; cbn [sum_list_with id]; lia. Qed.

Lemma swarm_step_measure `{Blake3} metas paths s w s' w' :
  swarm_step metas paths (s, w) (s', w') → (swarm_measure s' < swarm_measure s)%nat.
Proof.
  inversion 1 as [k wk ph sh' ? ? ? Hk Hact]; subst. apply acts_weight in Hact. unfold swarm_measure.
  destruct (workers_split _ _ _ Hk) as [Hp Hp']. cbn [sw_shared sw_workers].
  rewrite (sum_list_perm _ _ (fmap_Permutation _ _ _ Hp)).
  rewrite (sum_list_perm _ _ (fmap_Permutation _ _ _ (Hp' (mkWorker (wk_peer wk) (w_in w') (w_out w') ph)))).
  cbn [fmap list_fmap sum_list_with id]. unfold compose in *. cbn [wk_phase] in *. lia.
Qed.

(** ** Running workers *)
Lemma running_spec workers k :
  k ∈ running workers ↔ ∃ wk, workers !! k = Some wk ∧ ended wk = false.
Proof.
  unfold running. rewrite list_elem_of_omap. split.
  - intros ([j wk] & Hin & He). cbn [fst snd] in He. destruct (ended wk) eqn:Hw; [done|]. injection He as ->.
    apply list_elem_of_lookup in Hin as [n Hn]. apply lookup_zip_Some in Hn as [Hs Hn].
    apply lookup_seq in Hs as [-> _]. by exists wk.
  - intros (wk & Hk & Hw). exists (k, wk). cbn [fst snd]. rewrite Hw. split; [|done].
    apply list_elem_of_lookup. exists k. apply lookup_zip_Some. split; [|done].
    apply lookup_seq. split; [done|by eapply lookup_lt_Some].
Qed.

Lemma pick_running (live : list nat) n :
  match live !! (n mod length live)%nat with Some k => k ∈ live | None => live = [] end.
Proof.
  destruct live as [|x live]; [done|]. destruct (_ !! _) as [k|] eqn:Hk; [by eapply list_elem_of_lookup_2|].
  apply lookup_ge_None in Hk. pose proof (Nat.mod_upper_bound n (length (x :: live)) ltac:(done)). lia.
Qed.

Section runs.
Context `{Blake3Laws} `{Bincode WireMessage} `{DiskFormat}.
Context (manifest : Manifest) (output_dir : option path) (log_level : TransferLogLevel) (share_id : ShareId)
        (paths : LibraryPaths) (w0 : World).
Let metas := mf_chunks manifest.
Context (Hmetas : Forall ChunkMeta_wf metas).

Lemma wp_worker_step k wk s w :
  sw_workers s !! k = Some wk → ended wk = false → swarm_basic manifest paths w0 (sw_shared s) (sw_workers s) w →
  wp (worker_step manifest output_dir log_level share_id k s)
    (λ s' w', swarm_step metas paths (s, w) (s', w')) (λ _ _, False) w.
Proof using All.
  intros Hk He (_ & Hl & Hph). unfold worker_step. rewrite Hk. wp_simpl.
  wp_call (wp_worker_action manifest output_dir log_level share_id paths Hmetas); [done| | | | |done].
  - rewrite Forall_forall in Hph. eapply Hph, list_elem_of_lookup_2, Hk.
  - intros e Hf. unfold ended in He. by rewrite Hf in He.
  - intros Hf. unfold ended in He. by rewrite Hf in He.
  - intros [ph sh] w' Hact. wp_simpl. by constructor.
Qed.

(** A run is a maximal sequence of steps. *)
Lemma wp_run_swarm picks s w :
  swarm_basic manifest paths w0 (sw_shared s) (sw_workers s) w →
  wp (run_swarm manifest output_dir log_level share_id picks s)
    (λ s' w', rtc (swarm_step metas paths) (s, w) (s', w')
       ∧ Forall (λ wk, ended wk = true) (sw_workers s')) (λ _ _, False) w.
Proof using All.
  intros Hinv. unfold run_swarm.
  apply (wp_mloop _ (λ a w', rtc (swarm_step metas paths) (s, w) (a.2, w')
                             ∧ swarm_basic manifest paths w0 (sw_shared a.2) (sw_workers a.2) w')
    (λ a _, swarm_measure a.2)); [by split; [apply rtc_refl|]|cbn; lia|].
  intros [n s1] w1 [Hr Hi]. cbn [fst snd] in *. unfold swarm_round. cbn [fst snd].
  pose proof (pick_running (running (sw_workers s1)) (picks n)) as Hpick.
  destruct (_ !! _) as [k|]; wp_simpl.
  - apply running_spec in Hpick as (wk & Hk & He).
    wp_call wp_worker_step; [done|done|done| |done]. intros s2 w2 Hst. wp_simpl. cbn [fst snd].
    split; [split|by eapply swarm_step_measure].
    + by eapply rtc_r.
    + by apply (swarm_step_basic _ _ _ Hmetas (s1, w1) (s2, w2)).
  - split; [done|]. apply Forall_forall. intros wk Hin. apply list_elem_of_lookup in Hin as [k Hk].
    destruct (ended wk) eqn:He; [done|]. assert (k ∈ running (sw_workers s1)) as Hrun
      by (apply running_spec; by exists wk). rewrite Hpick in Hrun. by apply elem_of_nil in Hrun.
Qed.
End runs.

(** * The swarm as a whole *)
Definition same_peers (ws ws' : list Worker) : Prop := wk_peer <$> ws' = wk_peer <$> ws.

Lemma rtc_same_peers `{Blake3} metas paths sw sw' :
  rtc (swarm_step metas paths) sw sw' → same_peers (sw_workers sw.1) (sw_workers sw'.1).
Proof.
  induction 1 as [|sw1 sw2 sw3 Hst _ IH]; [done|]. unfold same_peers in *. rewrite IH.
  destruct Hst as [k wk ph sh' s w w' Hk _]. cbn [fst sw_workers]. rewrite list_fmap_insert. cbn [wk_peer].
  apply list_insert_id. by rewrite list_lookup_fmap, Hk.
Qed.

Lemma held_ended workers : Forall (λ wk, ended wk = true) workers → held workers = [].
Proof.
  induction 1 as [|wk workers He _ IH]; [done|]. rewrite held_cons, IH, app_nil_r. unfold ended, hand in *.
  by destruct (wk_phase wk).
Qed.

Lemma held_starting workers : Forall (λ wk, wk_phase wk = Starting) workers → held workers = [].
Proof. induction 1 as [|wk workers He _ IH]; [done|]. by rewrite held_cons, IH, He. Qed.

Section start.
Context `{Blake3Laws}.
Context (manifest : Manifest) (st : ActiveDownloadLibraryState) (workers : list Worker).
Let metas := mf_chunks manifest.
Context (Hwf : progress_wf (ad_progress st)) (Hstart : Forall (λ wk, wk_phase wk = Starting) workers).

(** The shared state before the workers start. *)
Definition initial_swarm (completed : gset Z) : Swarm :=
  mkSwarm (mkShared (cm_index <$> filter (λ meta, cm_index meta ∉ completed) metas) completed (Some st)) workers.

Lemma initial_invariant completed w0 w :
  safe manifest (Some (ad_paths st)) w0 w → completed = progress_set (ad_progress st) →
  (∀ i, i ∈ completed → verified (w_fs w) (ad_paths st) metas i) →
  invariant manifest (ad_paths st) w0 (initial_swarm completed, w).
Proof using All.
  intros Hs Hc Hv. pose proof (held_starting _ Hstart) as Hh. rewrite Forall_forall in Hstart.
  split; cbn [fst snd initial_swarm sw_shared sw_workers].
  - split_and!; [apply Hs|by exists st|]. apply Forall_forall. intros wk Hin. by rewrite (Hstart wk Hin).
  - intros Hnd. split_and!; [done| | |split; [by apply Hv|]| |].
    + unfold exclusive. rewrite Hh. cbn [sh_queue sh_completed]. rewrite app_nil_r. split.
      * eapply sublist_NoDup; [exact Hnd|apply fmap_sublist, sublist_filter].
      * intros i Hi (meta & -> & Hin%list_elem_of_filter)%list_elem_of_fmap. by destruct Hin.
    + intros i (meta & -> & Hin)%list_elem_of_fmap. rewrite Hh, app_nil_r. cbn [sh_queue sh_completed].
      destruct (decide (cm_index meta ∈ completed)); [by left|right]. apply list_elem_of_fmap_2.
      by apply list_elem_of_filter.
    + exists st. cbn. by rewrite <- Hc.
    + apply Forall_forall. intros wk Hin. unfold worker_ok. by rewrite (Hstart wk Hin).
    + right. apply Forall_forall. intros wk Hin. by rewrite (Hstart wk Hin).
Qed.
End start.

(** When nobody failed, every chunk some peer offered is complete. *)
Lemma scanned_complete `{Blake3} metas sh ws :
  none_lost metas sh (held ws) → scanned sh ws → Forall (λ wk, ended wk = true) ws →
  Exists (λ wk, failing (wk_phase wk)) ws
  ∨ ∀ meta wk, meta ∈ metas → wk ∈ ws → cm_index meta ∈ cp_available_chunks (wk_peer wk) →
      cm_index meta ∈ sh_completed sh.
Proof.
  intros Hn Hsc He. destruct (decide (Exists (λ wk, failing (wk_phase wk)) ws)) as [|Hnf]; [by left|right].
  destruct Hsc as [|Hs]; [done|]. intros meta wk Hin Hwk Hav. rewrite (held_ended _ He) in Hn.
  destruct (Hn (cm_index meta)) as [?|Hq]; [by apply list_elem_of_fmap_2|done|]. rewrite app_nil_r in Hq.
  rewrite Forall_forall in Hs, He. specialize (Hs wk Hwk). specialize (He wk Hwk).
  assert (¬ failing (wk_phase wk)) as Hf by (intros Hf; apply Hnf, Exists_exists; by exists wk).
  unfold ended in He. destruct (wk_phase wk); try done.
  by destruct (Hs I _ Hq).
Qed.

(** * A whole parallel download *)
Section parallel.
Context `{Blake3Laws, X25519, Aead} `{Bincode WireMessage} `{!WireTyped} `{DiskFormatTyped}.
Context (error_to_string : NetworkError → string) (schedule : list ChunkMeta → list ChunkMeta) (picks : nat → nat).
Context (out : path) (root : option path) (Hout : ¬ library_files root out).

(** A share one of whose manifests gives two chunks the same number. *)
Definition ambiguous (id : ShareId) : Prop :=
  ∃ manifest, d_share_id (descriptor_from_manifest manifest) = id ∧ ¬ NoDup (cm_index <$> mf_chunks manifest).

(** The chunk files of every unambiguous share are the old ones or match a manifest
    of that share. *)
Definition chunks_sound (w w' : World) : Prop :=
  ∀ r id i d, root = Some r → ¬ ambiguous id → u32_range i →
    file_at (w_fs w') (chunk_path (for_share r id) i) = Some d →
    file_at (w_fs w) (chunk_path (for_share r id) i) = Some d
    ∨ ∃ manifest meta, d_share_id (descriptor_from_manifest manifest) = id
        ∧ meta ∈ mf_chunks manifest ∧ cm_index meta = i ∧ hash_chunk d = cm_blake3_hash meta.

(** Only the output and the library change, the chunk files soundly. *)
Definition parallel_safe (w w' : World) : Prop :=
  keeps (λ q, q = out ∨ library_files root q) w w' ∧ chunks_sound w w'.

Lemma download_parallel_safe w w' : download_safe out root w w' → parallel_safe w w'.
Proof. intros [Hk Hs]. split; [done|]. intros r id i d Hr _. by apply Hs. Qed.

Lemma parallel_safe_trans w w1 w2 : parallel_safe w w1 → parallel_safe w1 w2 → parallel_safe w w2.
Proof.
  intros [Hk1 Hs1] [Hk2 Hs2]. split; [by etrans|]. intros r id i d Hr Ha Hi Hd.
  destruct (Hs2 r id i d Hr Ha Hi Hd) as [Hold|?]; [by apply Hs1|by right].
Qed.

Lemma parallel_safe_nofile w w' : keeps nofile w w' → parallel_safe w w'.
Proof. intros Hk. by apply download_parallel_safe, download_safe_nofile. Qed.

Lemma parallel_safe_meta paths w w' :
  root = Some (lp_root paths) → keeps (λ q, q = out ∨ meta_files paths q) w w' → parallel_safe w w'.
Proof using Hout.
  intros Hr Hk. apply download_parallel_safe. eapply (download_safe_step out root Hout paths); [done| |exact Hk].
  by apply download_safe_nofile.
Qed.

(** What the invariant of the swarm says from outside. *)
Lemma swarm_parallel_safe manifest r w s w' :
  root = Some r →
  invariant manifest (for_share r (d_share_id (descriptor_from_manifest manifest))) w (s, w') → parallel_safe w w'.
Proof.
  intros Hr [(Hk & _) Hinv]. destruct (decide (NoDup (cm_index <$> mf_chunks manifest))) as [Hnd|Hnd].
  - apply download_parallel_safe. eapply window_safe; [done|]. by apply Hinv.
  - cbn [fst snd] in *. split.
    + eapply keeps_mono; [|exact Hk]. intros q (paths & [= <-] & Hq). right. exists r. split; [done|].
      etrans; [|exact Hq]. unfold share_dir, library_dir, etle_dir. cbn [lp_root for_share]. rewrite <- !app_assoc.
      apply prefix_app, prefix_app_r. done.
    + intros r' id i d Hr' Ha Hi Hd. assert (r' = r) as -> by congruence. left. destruct Hk as [_ Hf].
      rewrite Hf in Hd; [done|]. intros (paths & [= <-] & Hp). apply share_dir_chunk in Hp as <-.
      apply Ha. by exists manifest.
Qed.

Lemma wp_finish_parallel paths library manifest key options w :
  root = Some (lp_root paths) → library_ok paths library →
  wp (finish_parallel schedule library manifest key out options)
    (λ m w', m = manifest ∧ parallel_safe w w' ∧ output_correct out m w') (λ _ w', parallel_safe w w') w.
Proof using Hout H0.
  intros Hr (st & -> & Hp & Hwf). unfold finish_parallel, active_download_state. cbn [ok_or]. wp_simpl. rewrite Hp.
  assert (∀ w', keeps (λ q, q = out ∨ meta_files paths q) w w' → parallel_safe w w') as Hsafe
    by (intros w'; by apply parallel_safe_meta).
  wp_call wp_reconstruct.
  2: { intros e w1 Hk. apply Hsafe. eapply keeps_mono; [|exact Hk]. by left. }
  intros _ w1 [Hk1 (d & Hd & Hid)]. wp_simpl. wp_call wp_mark_download_library_complete; [apply Hwf| |]; rewrite Hp.
  all: assert (∀ w2, keeps (meta_files paths) w1 w2 → parallel_safe w w2) as Hs2
    by (intros w2 Hk2; apply Hsafe; etrans; [eapply keeps_mono; [|exact Hk1]; by left
                                            |eapply keeps_mono; [|exact Hk2]; by right]).
  - intros _ w2 Hk2. wp_simpl. split_and!; [done|by apply Hs2|]. exists d. split; [|done].
    destruct Hk2 as [_ ->]; [done|]. eapply (meta_not_out out root Hout), Hr.
  - intros e w2 Hk2. by apply Hs2.
Qed.

(** Falling back to one peer after the other. *)
Lemma wp_fallback options addrs w :
  do_library_root options = root → addrs ≠ [] →
  wp (from_peers error_to_string schedule addrs out (with_resume options true))
    (λ m w', parallel_safe w w' ∧ output_correct out m w')
    (λ e w', parallel_safe w w' ∧ ∃ msg, e = AllPeersFailed (zlen addrs) msg) w.
Proof using All.
  intros Hr Hne. destruct addrs as [|addr addrs]; [done|]. cbn [from_peers].
  wp_call (wp_from_peers_loop schedule out root Hout error_to_string (with_resume options true)
             (zlen (addr :: addrs)) (addr :: addrs) 0 None w); [done| |].
  - intros m w' [Hs Ho]. split; [by apply download_parallel_safe|done].
  - intros e w' [Hs He]. split; [by apply download_parallel_safe|done].
Qed.

(** The peers that joined have not started, and their manifest is well formed. *)
Definition prepared_ok (p : Prepared) : Prop :=
  Forall (λ wk, wk_phase wk = Starting) (pr_connected p)
  ∧ ∀ m, pr_manifest p = Some m → Forall ChunkMeta_wf (mf_chunks m).

Lemma admit_peer_ok p peer inb outb :
  prepared_ok p → Forall ChunkMeta_wf (mf_chunks (cp_manifest peer)) → prepared_ok (admit_peer p peer inb outb).
Proof.
  intros Hok Hp. pose proof Hok as [Hs Hm]. unfold admit_peer. destruct (pr_manifest p) as [m|] eqn:Heq.
  - destruct (manifests_are_compatible _ _); cbn [negb]; [|done]. case_decide; [done|].
    split; cbn [pr_connected pr_manifest]; [|intros m' Hm'; apply Hm; congruence].
    apply Forall_app. split; [done|by constructor].
  - split; cbn [pr_connected pr_manifest]; [apply Forall_app; split; [done|by constructor]|]. by intros m' [= <-].
Qed.

Lemma wp_prepare_peers options addrs w :
  wp (mfold (prepare_peer error_to_string options) (mkPrepared [] None None None) addrs)
    (λ p w', keeps nofile w w' ∧ prepared_ok p) (λ _ _, False) w.
Proof using All.
  apply (wp_mfold _ (λ (_ : list socket_addr) p w', keeps nofile w w' ∧ prepared_ok p)); [by split; [|split]|].
  intros _ addr rest p w1 _ [Hk Hp]. unfold prepare_peer. wp_simpl. wp_call wp_connect_download_peer.
  - intros peer w2 [Hk2 Hm]. wp_simpl. split; [by etrans|by apply admit_peer_ok].
  - intros e w2 Hk2. wp_simpl. split; [by etrans|]. destruct Hp as [Hs Hm]. by split.
Qed.

Lemma wp_parallel_from_connected addrs connected manifest key options w :
  do_library_root options = root → addrs ≠ [] → Forall (λ wk, wk_phase wk = Starting) connected →
  Forall ChunkMeta_wf (mf_chunks manifest) →
  wp (parallel_from_connected error_to_string schedule picks addrs connected manifest key out options)
    (λ m w', parallel_safe w w' ∧ output_correct out m w') (λ _ w', parallel_safe w w') w.
Proof using All.
  intros Hroot Hne Hstart Hm. unfold parallel_from_connected. cbv zeta. wp_simpl.
  destruct (do_library_root options) as [r|] eqn:Hr;
    [|cbn [initialize_download_library_state]; wp_simpl; by apply parallel_safe_nofile].
  symmetry in Hroot. set (paths := for_share r (d_share_id (descriptor_from_manifest manifest))).
  assert (∀ w', keeps (meta_files paths) w w' → parallel_safe w w') as Hmeta.
  { intros w' Hk. apply (parallel_safe_meta paths); [done|]. eapply keeps_mono; [|exact Hk]. by right. }
  wp_call wp_initialize_download_library_state; [|intros; by apply Hmeta].
  intros library w1 (Hk1 & st & -> & Hp & _). wp_simpl. fold paths in Hp, Hk1.
  wp_call wp_load_resumable_chunk_indexes; [done| |].
  2: { intros e w2 Hk2. rewrite Hp in Hk2. apply Hmeta. by etrans. }
  rewrite Hp. intros [completed lib'] w2 (Hk2 & Hin & st' & Hlib' & Hp' & Hwf & Hset). cbn [fst snd] in *. subst lib'.
  assert (keeps (meta_files paths) w w2) as Hk by (by etrans). assert (ad_paths st' = paths) as Hpaths by congruence.
  case_decide as Hmiss; wp_simpl.
  { wp_call (wp_finish_parallel paths); [done|by exists st'| |].
    - intros m w3 (-> & Hs & Ho). split; [eapply parallel_safe_trans; [by apply Hmeta|done]|done].
    - intros e w3 Hs. eapply parallel_safe_trans; [by apply Hmeta|done]. }
  assert (invariant manifest paths w (initial_swarm manifest st' connected completed, w2)) as Hinv.
  { rewrite <- Hpaths in Hk |- *. apply initial_invariant; [done|done|by apply meta_safe|done|].
    intros i Hi%Hin. rewrite Hpaths, <- Hp. eapply resumable_verified; [|exact Hi].
    intros j. rewrite Hp. by eapply keeps_meta_chunk. }
  unfold initial_swarm in Hinv.
  wp_call (wp_run_swarm manifest (output_parent_dir out) (do_log_level options)
             (d_share_id (descriptor_from_manifest manifest)) paths w Hm picks); [apply Hinv| |done].
  intros s w3 [Hrun _]. pose proof (rtc_invariant _ _ _ Hm _ _ Hrun Hinv) as Hinv3. pose proof (swarm_parallel_safe manifest r w s w3 Hroot Hinv3) as Hs3.
  destruct Hinv3 as [(_ & Hl & _) _]. cbn [fst snd] in Hl.
  assert (∀ w4, parallel_safe w3 w4 → parallel_safe w w4) as Hpast by (intros w4; by apply parallel_safe_trans).
  destruct (if decide _ then _ else _); wp_simpl.
  - wp_call (wp_fallback options addrs); [congruence|done| |].
    + intros m w4 [Hs Ho]. auto.
    + intros e w4 [Hs _]. auto.
  - wp_call (wp_finish_parallel paths); [done|done| |].
    + intros m w4 (-> & Hs & Ho). auto.
    + intros e w4 Hs. auto.
Qed.

Lemma wp_from_peers_parallel addrs options parallelism w :
  do_library_root options = root →
  wp (from_peers_parallel error_to_string schedule picks addrs out options parallelism)
    (λ m w', parallel_safe w w' ∧ addrs ≠ [] ∧ output_correct out m w')
    (λ e w', parallel_safe w w' ∧ (addrs = [] → e = NoPeersProvided)) w.
Proof using All.
  intros Hroot. unfold from_peers_parallel. case_decide as Hne; wp_simpl; [split; [by apply parallel_safe_nofile|done]|].
  case_decide; wp_simpl.
  { wp_call (wp_fallback options addrs); [done|done| |]; [by intros m w' [??]|by intros e w' [??]]. }
  wp_call wp_prepare_peers; [|done]. intros p w1 (Hk1 & Hstart & Hm).
  assert (∀ w', parallel_safe w1 w' → parallel_safe w w') as Hpast.
  { intros w'. apply parallel_safe_trans. by apply parallel_safe_nofile. }
  assert (parallel_safe w w1) as Hs1 by (by apply parallel_safe_nofile).
  destruct (pr_manifest p) as [manifest|]; [|by wp_simpl]. destruct (pr_file_key p) as [key|]; [|by wp_simpl].
  destruct (pr_connected p) as [|wk [|wk' connected]]; [by wp_simpl| |].
  - wp_call (wp_fallback options [cp_peer_addr (wk_peer wk)]); [done|done| |]; intros ? w' [? ?]; (split; [by auto|done]).
  - wp_call (wp_parallel_from_connected addrs (wk :: wk' :: connected) manifest key options); [done|done|done|by apply Hm| |].
    + intros m w' [? ?]. split; [by auto|done].
    + intros e w' ?. split; [by auto|done].
Qed.
End parallel.

(** * Claims *)

(** C20: the executable swarm refines the abstract machine, for every manifest and
    every scheduling of the workers: a run ends, without a panic, and is a
    sequence of abstract steps after which every worker has finished or failed. *)
Theorem run_swarm_refines `{Blake3Laws} `{Bincode WireMessage} `{DiskFormat} manifest out_dir l id picks s st w :
  Forall ChunkMeta_wf (mf_chunks manifest) → sh_library (sw_shared s) = Some st → progress_wf (ad_progress st) →
  Forall (λ wk, wk_phase wk = Starting) (sw_workers s) →
  match run_swarm manifest out_dir l id picks s w with
  | (Ok s', w') => rtc (swarm_step (mf_chunks manifest) (ad_paths st)) (s, w) (s', w')
                   ∧ Forall (λ wk, ended wk = true) (sw_workers s')
  | _ => False
  end.
Proof.
  intros Hm Hst Hwf Hstart. pose proof (wp_run_swarm manifest out_dir l id (ad_paths st) w Hm picks s w) as Hwp.
  unfold wp in Hwp. destruct (run_swarm _ _ _ _ _ _ _) as [[s'|e| |] w']; apply Hwp; split_and!; try done;
    try (by exists st); (eapply Forall_impl; [exact Hstart|]); by intros wk ->.
Qed.

(** C2: whatever the peers send, whichever operations fail and in whatever order
    the workers run, no chunk is lost or handed out twice: when the workers have
    ended, every chunk of the manifest is complete or back in the queue, and not
    both. What is complete is stored, verified and marked in the recorded
    progress, and no chunk file was replaced by data that does not match. If no
    worker failed, every chunk that some peer offered is complete. *)
Theorem swarm_correct `{Blake3Laws} `{Bincode WireMessage} `{DiskFormat} manifest out_dir l id picks st workers w :
  Forall ChunkMeta_wf (mf_chunks manifest) → NoDup (cm_index <$> mf_chunks manifest) →
  progress_wf (ad_progress st) → Forall (λ wk, wk_phase wk = Starting) workers →
  (∀ i, i ∈ progress_set (ad_progress st) → verified (w_fs w) (ad_paths st) (mf_chunks manifest) i) →
  match run_swarm manifest out_dir l id picks (initial_swarm manifest st workers (progress_set (ad_progress st))) w with
  | (Ok s, w') =>
      let sh := sw_shared s in
      safe manifest (Some (ad_paths st)) w w'
      ∧ NoDup (sh_queue sh)
      ∧ (∀ meta, meta ∈ mf_chunks manifest →
           (cm_index meta ∈ sh_completed sh ∧ cm_index meta ∉ sh_queue sh)
           ∨ (cm_index meta ∉ sh_completed sh ∧ cm_index meta ∈ sh_queue sh))
      ∧ (∀ i, i ∈ sh_completed sh →
           verified (w_fs w') (ad_paths st) (mf_chunks manifest) i ∧ recorded sh i)
      ∧ (Exists (λ wk, failing (wk_phase wk)) (sw_workers s)
         ∨ ∀ meta wk, meta ∈ mf_chunks manifest → wk ∈ workers →
             cm_index meta ∈ cp_available_chunks (wk_peer wk) → cm_index meta ∈ sh_completed sh)
  | _ => False
  end.
Proof.
  intros Hm Hnd Hwf Hstart Hv.
  pose proof (initial_invariant manifest st workers Hwf Hstart _ w w (meta_safe _ _ _ _ ltac:(done)) eq_refl Hv) as Hinv.
  pose proof (wp_run_swarm manifest out_dir l id (ad_paths st) w Hm picks _ w (proj1 Hinv)) as Hwp.
  unfold wp in Hwp. destruct (run_swarm _ _ _ _ _ _ _) as [[s|e| |] w']; try done. destruct Hwp as [Hrun He].
  destruct (rtc_invariant _ _ _ Hm _ _ Hrun Hinv) as [_ Hi]. destruct (Hi Hnd) as (Hs & [Hq Hex] & Hn & Hc & _ & Hsc).
  pose proof (rtc_same_peers _ _ _ _ Hrun) as Hpeers.
  unfold none_lost in Hn. cbn [fst snd] in *. pose proof (scanned_complete _ _ _ Hn Hsc He) as Hdone.
  rewrite (held_ended _ He), app_nil_r in *. cbv zeta. split_and!; [done|done| |done|].
  - intros meta Hin. destruct (Hn (cm_index meta)) as [Hci|Hqi]; [by apply list_elem_of_fmap_2|left|right].
    + split; [done|]. by apply Hex.
    + split; [|done]. intros Hci. by apply (Hex _ Hci).
  - destruct Hdone as [?|Hall]; [by left|right]. intros meta wk Hin Hwk Hav.
    assert (wk_peer wk ∈ wk_peer <$> sw_workers s) as (wk' & Heq & Hwk')%list_elem_of_fmap.
    { unfold same_peers in Hpeers. cbn [initial_swarm sw_workers] in Hpeers. rewrite Hpeers. by apply list_elem_of_fmap_2. }
    apply (Hall meta wk'); [done|done|]. by rewrite <- Heq.
Qed.


Import Toy WireSample DiskSample.
Module SwarmSample.
Definition bytes_of (m : WireMessage) : bytes := match frame m with Ok f => f | _ => [] end.
Definition worker (port : Z) (available : gset Z) (inbound : bytes) : Worker :=
  mkWorker (mkConnectedPeer (SocketAddr (IpV4 2130706433) port) ReconstructSample.manifest ReconstructSample.key available)
    inbound [] Starting.
Definition chunk (i : Z) (d : bytes) : bytes := bytes_of (Chunk i (ReconstructSample.cipher i d)).
(** The first peer has both chunks but closes after one; the second has both. *)
Definition workers : list Worker :=
  [worker 9000 {[0; 1]} (chunk 0 (str_bytes "he")); worker 9001 {[1]} (chunk 1 (str_bytes "llo"))].
Definition swarm : Swarm :=
  initial_swarm ReconstructSample.manifest DownloadSample.state workers
    (progress_set (ad_progress DownloadSample.state)).
(** What a run leaves: the completed chunks, the queue, who failed. *)
Definition outcome (picks : nat → nat) : list Z * list Z * list bool :=
  match run_swarm ReconstructSample.manifest None Quiet (lp_share_id ReconstructSample.paths) picks swarm
          (CryptoSample.world ∅ []) with
  | (Ok s, _) => (sort_by Z.leb (elements (sh_completed (sw_shared s))), sh_queue (sw_shared s),
                  (λ wk, failing (wk_phase wk)) <$> sw_workers s)
  | _ => ([], [], [])
  end.
End SwarmSample.

(** In turns, both peers deliver their chunk; alone, the first peer takes the
    second chunk as well and gives it back when its connection ends. *)
Example swarm_in_turns : SwarmSample.outcome (λ n, n) = ([0; 1], [], [false; false]).
Proof. vm_compute. reflexivity. Qed.
Example swarm_first_alone : SwarmSample.outcome (λ _, 0%nat) = ([0; 1], [], [true; false]).
Proof. vm_compute. reflexivity. Qed.

Lemma run_swarm_refines_witness :
  match run_swarm ReconstructSample.manifest None Quiet (lp_share_id ReconstructSample.paths) (λ n, n)
          SwarmSample.swarm (CryptoSample.world ∅ []) with
  | (Ok s', w') => rtc (swarm_step (mf_chunks ReconstructSample.manifest) (ad_paths DownloadSample.state))
                     (SwarmSample.swarm, CryptoSample.world ∅ []) (s', w')
                   ∧ Forall (λ wk, ended wk = true) (sw_workers s')
  | _ => False
  end.
Proof.
  apply (run_swarm_refines ReconstructSample.manifest None Quiet (lp_share_id ReconstructSample.paths) (λ n, n)
    SwarmSample.swarm DownloadSample.state (CryptoSample.world ∅ [])).
  - by_decide.
  - reflexivity.
  - split; constructor.
  - repeat constructor.
Defined.

Lemma swarm_correct_witness :
  match run_swarm ReconstructSample.manifest None Quiet (lp_share_id ReconstructSample.paths) (λ n, n)
          (initial_swarm ReconstructSample.manifest DownloadSample.state SwarmSample.workers
             (progress_set (ad_progress DownloadSample.state))) (CryptoSample.world ∅ []) with
  | (Ok s, w') =>
      let sh := sw_shared s in
      safe ReconstructSample.manifest (Some (ad_paths DownloadSample.state)) (CryptoSample.world ∅ []) w'
      ∧ NoDup (sh_queue sh)
      ∧ (∀ meta, meta ∈ mf_chunks ReconstructSample.manifest →
           (cm_index meta ∈ sh_completed sh ∧ cm_index meta ∉ sh_queue sh)
           ∨ (cm_index meta ∉ sh_completed sh ∧ cm_index meta ∈ sh_queue sh))
      ∧ (∀ i, i ∈ sh_completed sh →
           verified (w_fs w') (ad_paths DownloadSample.state) (mf_chunks ReconstructSample.manifest) i
           ∧ recorded sh i)
      ∧ (Exists (λ wk, failing (wk_phase wk)) (sw_workers s)
         ∨ ∀ meta wk, meta ∈ mf_chunks ReconstructSample.manifest → wk ∈ SwarmSample.workers →
             cm_index meta ∈ cp_available_chunks (wk_peer wk) → cm_index meta ∈ sh_completed sh)
  | _ => False
  end.
Proof.
  apply (swarm_correct ReconstructSample.manifest None Quiet (lp_share_id ReconstructSample.paths) (λ n, n)
    DownloadSample.state SwarmSample.workers (CryptoSample.world ∅ [])).
  - by_decide.
  - by_decide.
  - split; constructor.
  - repeat constructor.
  - intros i Hi. by apply elem_of_empty in Hi.
Defined.

