(* ===== verification/Seed.v ===== *)
(** [network/transfer/seed.rs]: adding a file to the library.

    The file is hashed, then read, encrypted and staged chunk by chunk by a
    reader, worker threads and a writer; the share is initialised and the staged
    chunks are moved into it. The threads appear through two choices the model
    quantifies over: the order in which encrypted chunks reach the writer, and
    whether the reader notices a writer that stopped. *)
From stdpp Require Import base tactics list countable strings gmap sorting.
From Stdlib Require Import ZArith Lia.
From S2P Require Import Prelude Bytes World Files Extern Crypto Descriptor Chunker Package Storage State Library Codec Handshake DownloadState Reconstruct.
Local Open Scope Z_scope.
Local Open Scope etle_scope.

Definition STAGING_DIR_NAME : string := "staging".

Record SeedPlainChunk := mkSeedPlainChunk { sp_index : Z; sp_data : bytes }.
Record SeedEncryptedChunk := mkSeedEncryptedChunk { se_meta : ChunkMeta; se_ciphertext : bytes }.

(** [path.file_name().map(..).filter(|name| !name.is_empty()).unwrap_or("unnamed")] *)
Definition manifest_file_name (p : path) : string :=
  match path_file_name p with
  | Some name => if decide (name = ""%string) then "unnamed" else name
  | None => "unnamed"
  end.

(** [total_size.div_ceil(chunk_size)], which fits a 64-bit [usize]. *)
Definition total_chunks_for_size (total_size chunk_size : Z) : Z :=
  if decide (total_size = 0 ∨ chunk_size = 0) then 0
  else (total_size + chunk_size - 1) / chunk_size.

Definition default_seed_worker_count : net Z :=
  let! parallelism := gets (λ w, env_parallelism (w_env w)) in
  ret (Z.max 1 (Z.min (default 2 parallelism) 4)).

(** [path.display()] *)
Definition path_display (p : path) : string :=
  foldr (λ c s, match s with EmptyString => c | _ => c +:+ "/" +:+ s end) ""%string p.

(** * Fresh directories *)

(** [for attempt in 0_u32.. { match fs::create_dir(..) { .. } }] below [base];
    the counter overflows after [u32::MAX]. *)
Definition fresh_dir_round (base : path) (prefix : string) (attempt : Z) : io (Z + path) :=
  if decide (u32_max < attempt) then panic
  else
    let! pid := gets (λ w, env_pid (w_env w)) in
    let! nanos := staging_timestamp in
    let candidate := base ++ [prefix +:+ dec pid +:+ "-" +:+ dec nanos +:+ "-" +:+ dec attempt] in
    let! r := try_ (create_dir candidate) in
    match r with
    | Ok _ => ret (inr candidate)
    | Err AlreadyExists => ret (inl (attempt + 1))
    | Err error => throw error
    | _ => panic
    end.
Definition create_fresh_dir (base : path) (prefix : string) : io path :=
  do! create_dir_all base in
  let! fuel := gets (λ w, S (size (w_fs w))) in
  mloop fuel (fresh_dir_round base prefix) 0.

(** The staging directory of one seeding. *)
Record StagedChunkDir := mkStagedChunkDir { staged_path : path }.
Definition StagedChunkDir_create (library_root : path) : io StagedChunkDir :=
  let! p := create_fresh_dir (library_root ++ [ETLE_DIR_NAME; STAGING_DIR_NAME]) "seed-" in
  ret (mkStagedChunkDir p).
Definition staged_chunk_path (s : StagedChunkDir) (index : Z) : path :=
  staged_path s ++ [dec_pad6 index +:+ "." +:+ CHUNK_EXTENSION].
Definition staged_write_chunk (s : StagedChunkDir) (index : Z) (data : bytes) : io unit :=
  fs_write (staged_chunk_path s index) data.
Definition staged_move_chunk (s : StagedChunkDir) (index : Z) (destination : path) : io unit :=
  do! (match path_parent destination with Some parent => create_dir_all parent | None => ret tt end) in
  let! present := gets (path_exists destination) in
  do! (if (present : bool) then remove_file destination else ret tt) in
  rename (staged_chunk_path s index) destination.
Definition StagedChunkDir_drop (s : StagedChunkDir) : net unit :=
  let! _ignored := try_ (remove_dir_all (staged_path s)) in
  ret tt.

(** A library root that lives as long as one served file. *)
Record TemporaryLibraryRoot := mkTemporaryLibraryRoot { temporary_path : path }.
Definition TemporaryLibraryRoot_create (temp_dir : path) : io TemporaryLibraryRoot :=
  let! p := create_fresh_dir (temp_dir ++ ["etle-transient-serve"%string]) "" in
  ret (mkTemporaryLibraryRoot p).
Definition TemporaryLibraryRoot_drop (t : TemporaryLibraryRoot) : net unit :=
  let! _ignored := try_ (remove_dir_all (temporary_path t)) in
  ret tt.

(** Run [m] and then the destructor [drop], whatever the outcome of [m]. *)
Definition with_drop {A} (m : net A) (drop : net unit) : net A :=
  let! r := try_ m in
  do! drop in
  lift_result r.

Section seed.
Context `{Blake3, Aead} `{DiskFormat}.

Definition encrypt_seed_chunk (file_id : FileId) (file_key : SymmetricKey) (chunk : SeedPlainChunk)
    : net SeedEncryptedChunk :=
  let! nonce := generate_nonce in
  let sample_len := zlen (sp_data chunk) in
  let aad := build_chunk_aad file_id (sp_index chunk) sample_len in
  let! ciphertext := lift_result (result_map_err NE_Crypto (encrypt_chunk file_key nonce (sp_data chunk) aad)) in
  ret (mkSeedEncryptedChunk
         (mkChunkMeta (sp_index chunk) sample_len (zlen ciphertext) nonce (hash_chunk ciphertext)) ciphertext).

(** ** The reader: the chunks it sent, and why it stopped *)
Record seed_reader := mkSeedReader { sr_rest : bytes; sr_chunks : list SeedPlainChunk; sr_index : Z }.
Definition read_seed_round (chunk_size : Z) (st : seed_reader)
    : net (seed_reader + list SeedPlainChunk * option NetworkError) :=
  let! r := try_ (file_read (Z.to_nat chunk_size) (sr_rest st)) in
  match r with
  | Ok read =>
      if decide (read.1 = []) then ret (inr (sr_chunks st, None))
      else
        let chunks := sr_chunks st ++ [mkSeedPlainChunk (sr_index st) read.1] in
        match checked_add u32_max (sr_index st) 1 with
        | Some index => ret (inl (mkSeedReader read.2 chunks index))
        | None => ret (inr (chunks, Some (NE_File TooManyChunks)))
        end
  | Err k => ret (inr (sr_chunks st, Some (NE_Io k)))
  | _ => panic
  end.
Definition read_seed_chunks (input_path : path) (chunk_size : Z)
    : net (list SeedPlainChunk * option NetworkError) :=
  let! r := try_ (read_file input_path) in
  match r with
  | Ok content => mloop (S (length content)) (read_seed_round chunk_size) (mkSeedReader content [] 0)
  | Err k => ret ([], Some (NE_Io k))
  | _ => panic
  end.

(** ** The writer: one encrypted chunk as it arrives *)
Definition stage_round (file_id : FileId) (file_key : SymmetricKey) (staging : StagedChunkDir) (context : string)
    (total_chunks : Z) (log_level : TransferLogLevel) (chunk_metas : list ChunkMeta) (chunk : SeedPlainChunk)
    : net (list ChunkMeta) :=
  let! encrypted := encrypt_seed_chunk file_id file_key chunk in
  let meta := se_meta encrypted in
  do! map_err NE_Io (staged_write_chunk staging (cm_index meta) (se_ciphertext encrypted)) in
  do! with_label context "daemon" "staged+encrypted" log_level (zlen chunk_metas + 1) total_chunks
        (cm_index meta) (cm_plain_size meta) in
  ret (chunk_metas ++ [meta]).

(** [arrival] orders the chunks as their encryptions reach the writer; [noticed]
    says whether the reader, still sending, found the workers gone. *)
Definition encrypt_file_to_staging_parallel (arrival : list SeedPlainChunk → list SeedPlainChunk) (noticed : bool)
    (input_path : path) (file_id : FileId) (file_key : SymmetricKey) (chunk_size : Z) (staging : StagedChunkDir)
    (log_level : TransferLogLevel) : net (list ChunkMeta) :=
  let! _worker_count := default_seed_worker_count in
  let! meta := map_err NE_Io (metadata input_path) in
  let total_chunks := total_chunks_for_size (node_len meta) chunk_size in
  let! read := read_seed_chunks input_path chunk_size in
  let! written := try_ (mfold (stage_round file_id file_key staging (path_display input_path) total_chunks log_level)
                          [] (arrival read.1)) in
  match read.2, written with
  | None, Ok chunk_metas => ret (sort_by_key cm_index chunk_metas)
  | Some e, Ok _ => throw e
  | reader, Err e =>
      if noticed then throw (PeerError "parallel seed worker stopped unexpectedly")
      else throw (default e reader)
  | _, _ => panic
  end.

(** ** Adding *)
Definition move_round (staging : StagedChunkDir) (paths : LibraryPaths) (_ : unit) (meta : ChunkMeta) : net unit :=
  map_err NE_Io (staged_move_chunk staging (cm_index meta) (chunk_path paths (cm_index meta))).

Definition add_staged (arrival : list SeedPlainChunk → list SeedPlainChunk) (noticed : bool) (input_path : path)
    (file_id : FileId) (file_size : Z) (file_key : SymmetricKey) (chunk_size : Z) (library_root : path)
    (log_level : TransferLogLevel) (staging : StagedChunkDir) : net EtleDescriptor :=
  let! chunk_metas := encrypt_file_to_staging_parallel arrival noticed input_path file_id file_key chunk_size
                        staging log_level in
  let manifest := mkManifest file_id (manifest_file_name input_path) file_size chunk_size chunk_metas in
  let descriptor := descriptor_from_manifest manifest in
  let! paths := map_err NE_File (library_init library_root descriptor file_key Seeding None) in
  do! mfold (move_round staging paths) tt (mf_chunks manifest) in
  ret descriptor.

Definition add_streaming (arrival : list SeedPlainChunk → list SeedPlainChunk) (noticed : bool) (input_path : path)
    (file_key : SymmetricKey) (chunk_size : Z) (library_root : path) (log_level : TransferLogLevel)
    : net EtleDescriptor :=
  if decide (chunk_size = 0) then throw (NE_File (InvalidChunkSize chunk_size))
  else
    let! file_id := map_err NE_Io (hash_file input_path) in
    let! meta := map_err NE_Io (metadata input_path) in
    let! staging := map_err NE_Io (StagedChunkDir_create library_root) in
    with_drop (add_staged arrival noticed input_path file_id (node_len meta) file_key chunk_size library_root
                 log_level staging)
      (StagedChunkDir_drop staging).

Definition seed_add (arrival : list SeedPlainChunk → list SeedPlainChunk) (noticed : bool) (input_path : path)
    (chunk_size : Z) (library_root : path) (log_level : TransferLogLevel) : net EtleDescriptor :=
  let! file_key := generate_file_key in
  add_streaming arrival noticed input_path file_key chunk_size library_root log_level.
End seed.

(** * Fresh directories are found *)

(** No injected failure pretends that a new directory already exists. *)
Definition honest_faults (w : World) : Prop :=
  ∀ n f, env_fault (w_env w) n = Some f → fault_kind f ≠ AlreadyExists.

(** Two texts that agree up to a separator outside [P] agree on both sides of it. *)
Lemma split_at_separator (P : byte → Prop) l l' x r r' :
  Forall P l → Forall P l' → ¬ P x → l ++ x :: r = l' ++ x :: r' → r = r'.
Proof.
  intros Hl. revert l'. induction Hl as [|b l Hb Hl IH]; intros l' Hl' Hx Heq.
  - destruct Hl' as [|b' l' Hb' Hl']; [by injection Heq|]. injection Heq as <- _. done.
  - destruct Hl' as [|b' l' Hb' Hl']; [by injection Heq as -> _|]. injection Heq as _ Heq. by eapply IH.
Qed.

Lemma fresh_name_inj prefix pid n n' a a' :
  0 ≤ n → 0 ≤ n' → 0 ≤ a → 0 ≤ a' →
  prefix +:+ dec pid +:+ "-" +:+ dec n +:+ "-" +:+ dec a = prefix +:+ dec pid +:+ "-" +:+ dec n' +:+ "-" +:+ dec a' →
  a = a'.
Proof.
  intros Hn Hn' Ha Ha' Heq%(f_equal str_bytes). rewrite !str_bytes_app in Heq.
  do 3 apply app_inv_head in Heq. apply dec_inj; [done|done|]. apply str_bytes_inj.
  assert (∀ z, 0 ≤ z → Forall (λ b, 48 ≤ byte_val b < 58) (str_bytes (dec z))) as Hd.
  { intros z Hz. unfold dec, str_bytes. rewrite String.list_byte_of_string_of_list_byte. by apply dec_bytes_digits. }
  eapply split_at_separator; [exact (Hd n Hn)|exact (Hd n' Hn')| |exact Heq]. by vm_compute; intros [? _].
Qed.

Lemma size_mkdirs (m : fs) ps : (size (mkdirs m ps) ≤ size m + length ps)%nat.
Proof.
  induction ps as [|p ps IH]; simpl; [lia|]. fold (mkdirs m ps).
  destruct (mkdirs m ps !! p) as [n|] eqn:Hp.
  - rewrite map_size_insert_Some by (by rewrite Hp). lia.
  - rewrite map_size_insert_None by done. lia.
Qed.

(** Distinct entries are at most as many as the map has. *)
Lemma NoDup_entries (m : fs) (l : list path) : NoDup l → Forall (λ q, is_Some (m !! q)) l → (length l ≤ size m)%nat.
Proof.
  intros Hnd Hl. rewrite <- (size_list_to_set (C := gset path) l Hnd), <- size_dom. apply subseteq_size.
  intros q Hq. rewrite elem_of_list_to_set in Hq. rewrite Forall_forall in Hl. by apply elem_of_dom, Hl.
Qed.

Lemma wp_create_dir p (Q : unit → World → Prop) (R : io_kind → World → Prop) w :
  p ≠ [] →
  (∀ k w', stepped w w' → (k = AlreadyExists → honest_faults w → is_Some (w_fs w !! p)) → R k w') →
  (∀ w', w_fs w !! p = None → fs_step w (<[p := Dir]> (w_fs w)) w' → Q tt w') →
  wp (create_dir p) Q R w.
Proof.
  intros Hne HR HQ. apply wp_faulty.
  { intros f Hf. apply HR; [done|]. intros Hk Hh. by destruct (Hh _ _ Hf). }
  intros _. unfold wp, path_exists. cbn [w_fs tick]. case_bool_decide as Hd.
  { apply HR; [done|]. intros _ _. naive_solver. }
  apply Decidable.not_or in Hd as [_ Hd]. destruct (is_dir_in _ _).
  - apply HQ; [by apply eq_None_not_Some|done].
  - apply HR; [done|done].
Qed.

Lemma wp_nanos {E} (Q : Z → World → Prop) (R : E → World → Prop) w :
  (∀ n w', 0 ≤ n → stepped w w' → Q n w') → wp unix_nanos Q R w.
Proof. intros HQ. unfold unix_nanos. wp_simpl. unfold wp at 1, now. wp_simpl. apply HQ; [|done]. case_decide; lia. Qed.

(** What the loop has tried so far. *)
Definition tried (base : path) (prefix : string) (pid : Z) (m : fs) (a : Z) (l : list path) : Prop :=
  zlen l = a ∧ NoDup l ∧ Forall (λ q, is_Some (m !! q)) l
  ∧ Forall (λ q, ∃ n i, 0 ≤ n ∧ 0 ≤ i < a ∧ q = base ++ [prefix +:+ dec pid +:+ "-" +:+ dec n +:+ "-" +:+ dec i]) l.

Lemma wp_fresh_dir_loop base prefix w (Q : path → World → Prop) (R : io_kind → World → Prop) :
  honest_faults w → Z.of_nat (size (w_fs w)) ≤ u32_max →
  (∀ k w', stepped w w' → R k w') →
  (∀ name w', w_fs w !! (base ++ [name]) = None → fs_step w (<[base ++ [name] := Dir]> (w_fs w)) w' →
     Q (base ++ [name]) w') →
  wp (mloop (S (size (w_fs w))) (fresh_dir_round base prefix) 0) Q R w.
Proof.
  intros Hh Hsz HR HQ. set (pid := env_pid (w_env w)).
  apply (wp_mloop _ (λ a w', stepped w w' ∧ ∃ l, tried base prefix pid (w_fs w) a l)
           (λ a _, size (w_fs w) - Z.to_nat a)%nat); [|lia|].
  { split; [done|]. exists []. split_and!; [done|constructor..]. }
  intros a w1 [Hst (l & Hlen & Hnd & Hl & Hform)].
  pose proof (NoDup_entries _ _ Hnd Hl) as Hle. pose proof (zlen_nonneg l). unfold zlen in Hlen.
  unfold fresh_dir_round. rewrite decide_False by lia. wp_simpl. unfold staging_timestamp. apply wp_nanos.
  intros n w2 Hn Hst2. wp_simpl. rewrite (stepped_env _ _ Hst). fold pid.
  set (name := prefix +:+ _). assert (stepped w w2) as Hst02 by (by etrans).
  apply wp_create_dir; [by destruct base| |].
  - intros k w3 Hst3 Hk. cbn beta iota. assert (stepped w w3) as Hst03 by (by etrans).
    destruct (decide (k = AlreadyExists)) as [->|Hne]; [|destruct k; try done; wp_simpl; by apply HR].
    wp_simpl. rewrite (stepped_fs _ _ Hst02) in Hk.
    assert (is_Some (w_fs w !! (base ++ [name]))) as Hs.
    { apply Hk; [done|]. intros i f. rewrite (stepped_env _ _ Hst02). apply Hh. }
    assert (tried base prefix pid (w_fs w) (a + 1) (l ++ [base ++ [name]])) as Htr.
    { split_and!.
      - unfold zlen. rewrite length_app. simpl. lia.
      - apply NoDup_app. split; [done|]. split; [|apply NoDup_singleton].
        intros q Hq Hin. apply list_elem_of_singleton in Hin as ->. rewrite Forall_forall in Hform.
        destruct (Hform _ Hq) as (n' & i & Hn' & Hi & Heq). apply app_inj_tail in Heq as [_ Heq].
        apply fresh_name_inj in Heq; lia.
      - apply Forall_app. split; [done|]. by constructor.
      - apply Forall_app. split.
        + eapply Forall_impl; [exact Hform|]. intros q (n' & i & ? & ? & ?). exists n', i. split_and!; [done|lia|lia|done].
        + constructor; [|done]. exists n, a. split_and!; [done|lia|lia|done]. }
    split; [split; [done|by eexists]|].
    destruct Htr as (Hlen' & Hnd' & Hl' & _). pose proof (NoDup_entries _ _ Hnd' Hl'). unfold zlen in Hlen'. lia.
  - intros w3 Hnone Hst3. cbn beta iota. wp_simpl. rewrite (stepped_fs _ _ Hst02) in Hnone, Hst3.
    apply HQ; [done|]. by eapply fs_step_stepped_l.
Qed.

Lemma file_at_insert_dir (m : fs) p q : m !! p = None → file_at (<[p := Dir]> m) q = file_at m q.
Proof.
  intros Hp. unfold file_at. destruct (decide (p = q)) as [->|Hne].
  - by rewrite lookup_insert_eq, Hp.
  - by rewrite lookup_insert_ne.
Qed.

Lemma wp_create_fresh_dir (P : path → Prop) base prefix w :
  honest_faults w → Z.of_nat (size (w_fs w)) + zlen base ≤ u32_max →
  wp (create_fresh_dir base prefix)
    (λ p w', keeps P w w' ∧ ∃ name, p = base ++ [name]) (λ _ w', keeps P w w') w.
Proof.
  intros Hh Hsz. unfold create_fresh_dir. wp_simpl. apply wp_create_dir_all.
  - intros k ps w' Hst _ Hps _. eapply fs_step_keeps; [done|]. intros q _. by apply file_at_mkdirs.
  - intros w1 [_ Hfree] Hst1. assert (keeps P w w1) as Hk1.
    { eapply fs_step_keeps; [done|]. intros q _. by apply file_at_mkdirs. }
    wp_simpl. apply wp_fresh_dir_loop.
    + intros n f. destruct Hk1 as [-> _]. apply Hh.
    + rewrite (fs_step_fs _ _ _ Hst1). pose proof (size_mkdirs (w_fs w) (ancestors base)).
      unfold ancestors in *. rewrite length_fmap, length_seq in *. unfold zlen in Hsz. lia.
    + intros k w2 Hst2. keep.
    + intros name w2 Hnone Hst2. split; [|by exists name]. etrans; [exact Hk1|].
      eapply fs_step_keeps; [done|]. intros q _. by apply file_at_insert_dir.
Qed.

(** * The reader *)
Definition seed_number (ds : list bytes) : list SeedPlainChunk := imap (λ i d, mkSeedPlainChunk (Z.of_nat i) d) ds.

Lemma seed_number_app ds d : seed_number (ds ++ [d]) = seed_number ds ++ [mkSeedPlainChunk (zlen ds) d].
Proof. unfold seed_number. rewrite imap_app. simpl. by rewrite Nat.add_0_r. Qed.

Lemma lookup_seed_number ds i : seed_number ds !! i = mkSeedPlainChunk (Z.of_nat i) <$> ds !! i.
Proof. unfold seed_number. by rewrite list_lookup_imap. Qed.

Lemma seed_number_index ds c : c ∈ seed_number ds → 0 ≤ sp_index c < zlen ds.
Proof.
  intros (i & Hi)%list_elem_of_lookup. rewrite lookup_seed_number in Hi. destruct (ds !! i) as [d|] eqn:Hd; [|done].
  apply lookup_lt_Some in Hd. injection Hi as <-. cbn [sp_index]. unfold zlen. lia.
Qed.

Lemma seed_number_NoDup ds : NoDup (sp_index <$> seed_number ds).
Proof.
  apply NoDup_fmap_2_strong.
  - intros x y (i & Hi)%list_elem_of_lookup (j & Hj)%list_elem_of_lookup Heq.
    rewrite lookup_seed_number in Hi, Hj. destruct (ds !! i) as [d|] eqn:Hdi; [|done].
    destruct (ds !! j) as [d'|] eqn:Hdj; [|done]. cbn in Hi, Hj. injection Hi as <-. injection Hj as <-.
    cbn [sp_index] in Heq. assert (i = j) as <- by lia. congruence.
  - apply NoDup_alt. intros i j x Hi Hj. rewrite lookup_seed_number in Hi, Hj.
    destruct (ds !! i); [|done]. destruct (ds !! j); [|done]. cbn in Hi, Hj. injection Hi as <-. injection Hj as Hij _. lia.
Qed.

(** What the reader sent, and that it sent everything unless it failed. *)
Definition seed_pieces (chunk_size : Z) (ds : list bytes) : Prop :=
  Forall (λ d, 0 < zlen d ≤ chunk_size) ds ∧ zlen ds ≤ u32_max + 1.

Lemma wp_read_seed_chunks p chunk_size w :
  0 < chunk_size →
  wp (read_seed_chunks p chunk_size)
    (λ r w', stepped w w' ∧ ∃ ds, r.1 = seed_number ds ∧ seed_pieces chunk_size ds
       ∧ (r.2 = None → file_at (w_fs w) p = Some (concat ds) ∧ zlen ds ≤ u32_max)) (λ _ _, False) w.
Proof.
  intros Hsize. unfold read_seed_chunks. wp_simpl. apply wp_read_file.
  { intros k w' Hst _. wp_simpl. split; [done|]. exists []. split_and!; [done|split; [constructor|done]|done]. }
  intros content w1 Hc Hst1. cbn beta iota.
  apply (wp_mloop _ (λ st w', stepped w w' ∧ ∃ ds, sr_chunks st = seed_number ds ∧ sr_index st = zlen ds
      ∧ sr_index st ≤ u32_max ∧ content = concat ds ++ sr_rest st ∧ Forall (λ d, 0 < zlen d ≤ chunk_size) ds)
    (λ st _, length (sr_rest st))).
  { split; [done|]. exists []. by split_and!. }
  { simpl. lia. }
  intros st w2 [Hst2 (ds & Hch & Hix & Hmax & Hcont & Hds)]. unfold read_seed_round. wp_simpl. apply wp_file_read.
  { intros k w' Hst _. wp_simpl. split; [by etrans|]. exists ds. split_and!; [done|split; [done|lia]|done]. }
  intros pre post w3 Hrest Hpre Hlen _ Hst3. cbn [fst snd]. assert (stepped w w3) by (by etrans). case_decide as Hemp.
  { wp_simpl. assert (sr_rest st = []) as Hnil by (destruct (Hpre Hemp); [lia|done]).
    split; [done|]. exists ds. cbn [fst snd]. split_and!; [done|split; [done|lia]|]. intros _.
    rewrite Hcont, Hnil, app_nil_r in Hc. split; [done|lia]. }
  assert (0 < zlen pre ≤ chunk_size) as Hpz.
  { unfold zlen. destruct pre; [done|]. cbn [length] in *. lia. }
  assert (Forall (λ d, 0 < zlen d ≤ chunk_size) (ds ++ [pre])) as Hds'.
  { apply Forall_app. split; [done|]. by constructor. }
  assert (zlen (ds ++ [pre]) = zlen ds + 1) as Hz by (rewrite zlen_app, zlen_cons, zlen_nil; lia).
  unfold checked_add. case_decide as Hov; wp_simpl.
  - split; [|rewrite Hrest, length_app; unfold zlen in Hpz; cbn [sr_rest]; lia]. split; [done|].
    exists (ds ++ [pre]). cbn [sr_chunks sr_index sr_rest]. rewrite Hch, Hix, seed_number_app.
    split_and!; [done|lia|lia| |done]. rewrite concat_app. simpl. by rewrite app_nil_r, <- app_assoc, <- Hrest.
  - split; [done|]. exists (ds ++ [pre]). cbn [fst snd]. rewrite Hch, Hix, seed_number_app.
    split_and!; [done|split; [done|lia]|done].
Qed.

(** * The writer *)
Lemma wp_with_label (P : path → Prop) context role action level done_ total_ index bytes w :
  wp (with_label context role action level done_ total_ index bytes)
    (λ _ w', keeps P w w' ∧ w_fs w' = w_fs w) (λ _ _, False) w.
Proof. unfold with_label, with_context_label. destruct level; [by wp_simpl|..]; unfold wp, report; done. Qed.

Lemma staged_chunk_path_inj s i j : 0 ≤ i → 0 ≤ j → staged_chunk_path s i = staged_chunk_path s j → i = j.
Proof. intros Hi Hj [_ Heq]%app_inj_tail. by apply chunk_file_name_inj in Heq. Qed.

Section writer.
Context `{Blake3, Aead}.
Context (file_id : FileId) (file_key : SymmetricKey) (staging : StagedChunkDir).

Definition staged_files (q : path) : Prop := staged_path staging `prefix_of` q.

Lemma staged_chunk_files i : staged_files (staged_chunk_path staging i).
Proof. by eexists. Qed.

(** [meta] describes the encryption of [chunk]; [at_] says where it is stored. *)
Definition stored_as (m : fs) (at_ : Z → path) (chunk : SeedPlainChunk) (meta : ChunkMeta) : Prop :=
  ∃ c, encrypt_chunk file_key (cm_nonce meta) (sp_data chunk)
         (build_chunk_aad file_id (sp_index chunk) (zlen (sp_data chunk))) = Ok c
    ∧ meta = mkChunkMeta (sp_index chunk) (zlen (sp_data chunk)) (zlen c) (cm_nonce meta) (hash_chunk c)
    ∧ file_at m (at_ (sp_index chunk)) = Some c.

Lemma stored_as_index m at_ chunk meta : stored_as m at_ chunk meta → cm_index meta = sp_index chunk.
Proof. by intros (c & _ & -> & _). Qed.

Lemma stored_as_ext m m' at_ at_' chunk meta :
  file_at m' (at_' (sp_index chunk)) = file_at m (at_ (sp_index chunk)) →
  stored_as m at_ chunk meta → stored_as m' at_' chunk meta.
Proof. intros Hm (c & ? & ? & Hf). exists c. split_and!; [done|done|]. by rewrite Hm. Qed.

Lemma wp_encrypt_seed_chunk chunk w :
  wp (encrypt_seed_chunk file_id file_key chunk)
    (λ e w', stepped w w' ∧ encrypt_chunk file_key (cm_nonce (se_meta e)) (sp_data chunk)
         (build_chunk_aad file_id (sp_index chunk) (zlen (sp_data chunk))) = Ok (se_ciphertext e)
       ∧ se_meta e = mkChunkMeta (sp_index chunk) (zlen (sp_data chunk)) (zlen (se_ciphertext e))
                       (cm_nonce (se_meta e)) (hash_chunk (se_ciphertext e)))
    (λ _ w', stepped w w') w.
Proof.
  unfold encrypt_seed_chunk, generate_nonce. wp_simpl. unfold fill_bytes, wp at 1. wp_simpl.
  destruct (encrypt_chunk _ _ _ _) as [c|e| |] eqn:He; cbn [result_map_err]; wp_simpl; [|done|..].
  - split_and!; done.
  - unfold encrypt_chunk, ok_or in He. by case_match.
  - unfold encrypt_chunk, ok_or in He. by case_match.
Qed.

Lemma wp_stage_round context total_ level metas chunk w :
  wp (stage_round file_id file_key staging context total_ level metas chunk)
    (λ metas' w', ∃ meta, metas' = metas ++ [meta]
       ∧ keeps (λ q, q = staged_chunk_path staging (sp_index chunk)) w w'
       ∧ stored_as (w_fs w') (staged_chunk_path staging) chunk meta)
    (λ _ w', keeps (λ q, q = staged_chunk_path staging (sp_index chunk)) w w') w.
Proof.
  unfold stage_round. wp_simpl. wp_call wp_encrypt_seed_chunk; [|intros e w1 Hst; by apply stepped_keeps].
  intros e w1 (Hst1 & He & Hm). wp_simpl. unfold staged_write_chunk.
  assert (cm_index (se_meta e) = sp_index chunk) as Hix by (by rewrite Hm). rewrite Hix.
  apply (stepped_keeps (λ q, q = staged_chunk_path staging (sp_index chunk))) in Hst1.
  set (p := staged_chunk_path staging (sp_index chunk)) in *. apply wp_fs_write.
  - intros k m w2 Hst2 Hm2 _. etrans; [exact Hst1|]. eapply fs_step_keeps; [done|]. intros q Hq.
    destruct Hm2 as [->|[n ->]]; [done|]. rewrite file_at_insert_ne; [done|congruence].
  - intros w2 _ Hst2. wp_simpl. wp_call (wp_with_label (λ q, q = p)); [|done]. intros _ w3 [Hk3 Hfs3].
    wp_simpl. exists (se_meta e). split_and!; [done| |].
    + etrans; [exact Hst1|]. etrans; [|exact Hk3]. eapply fs_step_keeps; [done|]. intros q Hq.
      rewrite file_at_insert_ne; [done|congruence].
    + exists (se_ciphertext e). split_and!; [done|done|].
      rewrite Hfs3, (fs_step_fs _ _ _ Hst2). apply file_at_insert_eq.
Qed.

Lemma wp_stage_loop context total_ level chunks w :
  NoDup (sp_index <$> chunks) → Forall (λ c, 0 ≤ sp_index c) chunks →
  wp (mfold (stage_round file_id file_key staging context total_ level) [] chunks)
    (λ metas w', keeps staged_files w w'
       ∧ Forall2 (stored_as (w_fs w') (staged_chunk_path staging)) chunks metas)
    (λ _ w', keeps staged_files w w') w.
Proof.
  intros Hnd Hpos. apply (wp_mfold _ (λ done_ metas w', keeps staged_files w w'
       ∧ Forall2 (stored_as (w_fs w') (staged_chunk_path staging)) done_ metas)).
  { split; [done|constructor]. }
  intros done_ chunk rest metas w1 -> [Hk1 Hf]. rewrite fmap_app, fmap_cons in Hnd.
  apply NoDup_app in Hnd as (_ & Hdis & _). apply Forall_app in Hpos as [Hpd Hpc].
  apply Forall_cons in Hpc as [Hpc _].
  assert (∀ w2, keeps (λ q, q = staged_chunk_path staging (sp_index chunk)) w1 w2 → keeps staged_files w w2) as Hks.
  { intros w2 Hk2. etrans; [exact Hk1|]. eapply keeps_mono; [|exact Hk2]. intros q ->. apply staged_chunk_files. }
  wp_call wp_stage_round; [|intros e w2 Hk2; by apply Hks].
  intros metas' w2 (meta & -> & Hk2 & Hm). split; [by apply Hks|]. apply Forall2_app; [|by constructor].
  apply (Forall2_impl (λ c m, (c ∈ done_) ∧ stored_as (w_fs w1) (staged_chunk_path staging) c m)
    (stored_as (w_fs w2) (staged_chunk_path staging))).
  - apply Forall2_same_length_lookup. split; [by eapply Forall2_length|]. intros i c m Hc Hm'.
    split; [by eapply list_elem_of_lookup_2|]. by eapply Forall2_lookup_lr.
  - intros c m [Hin He]. eapply stored_as_ext; [|exact He]. apply Hk2. intros Heq.
    apply staged_chunk_path_inj in Heq; [|by rewrite Forall_forall in Hpd; apply Hpd|done].
    apply (Hdis (sp_index c)); [by apply list_elem_of_fmap_2|]. rewrite Heq. left.
Qed.
End writer.

Lemma sort_encrypted `{Blake3, Aead} file_id key m at_ ds arrived metas :
  arrived ≡ₚ seed_number ds → Forall2 (stored_as file_id key m at_) arrived metas →
  Forall2 (stored_as file_id key m at_) (seed_number ds) (sort_by_key cm_index metas).
Proof.
  intros Hp Hf. destruct (Permutation_Forall2 Hp Hf) as (metas' & Hp' & Hf'). rewrite (sort_by_key_unique _ metas'); [done|done|].
  clear Hp Hf Hp'. assert (Forall2 (λ c m, cm_index m = sp_index c) (seed_number ds) metas') as Hix.
  { eapply Forall2_impl; [exact Hf'|]. intros c x. apply stored_as_index. }
  clear Hf'. apply StronglySorted_by_lookup. intros i j x y Hx Hy Hlt.
  assert (∀ k z, metas' !! k = Some z → cm_index z = Z.of_nat k) as Hnum.
  { intros k z Hz. destruct (Forall2_lookup_r _ _ _ _ _ Hix Hz) as (c & Hc & ->).
    rewrite lookup_seed_number in Hc. by destruct (ds !! k); [injection Hc as <-|]. }
  rewrite (Hnum _ _ Hx), (Hnum _ _ Hy). lia.
Qed.

Lemma wp_encrypt_to_staging `{Blake3, Aead} arrival noticed input file_id key chunk_size staging level w :
  (∀ l, arrival l ≡ₚ l) → 0 < chunk_size →
  wp (encrypt_file_to_staging_parallel arrival noticed input file_id key chunk_size staging level)
    (λ metas w', keeps (staged_files staging) w w' ∧ ∃ ds, file_at (w_fs w) input = Some (concat ds)
       ∧ seed_pieces chunk_size ds ∧ zlen ds ≤ u32_max
       ∧ Forall2 (stored_as file_id key (w_fs w') (staged_chunk_path staging)) (seed_number ds) metas)
    (λ _ w', keeps (staged_files staging) w w') w.
Proof.
  intros Harr Hsize. unfold encrypt_file_to_staging_parallel, default_seed_worker_count. wp_simpl.
  apply wp_metadata; [intros; by apply stepped_keeps|]. intros n w1 _ Hst1. wp_simpl.
  wp_call wp_read_seed_chunks; [done| |done]. intros [chunks stop] w2 (Hst2 & ds & Hch & Hds & Hall). cbn [fst snd] in *.
  subst chunks. wp_simpl. assert (stepped w w2) as Hst by (by etrans). apply (stepped_keeps (staged_files staging)) in Hst.
  wp_call wp_stage_loop.
  - rewrite (Harr (seed_number ds)). apply seed_number_NoDup.
  - rewrite (Harr (seed_number ds)). apply Forall_forall. intros c Hc%seed_number_index. lia.
  - intros metas w3 [Hk3 Hf]. assert (keeps (staged_files staging) w w3) as Hk by (by etrans).
    destruct stop as [e|]; wp_simpl; [done|]. split; [done|]. exists ds. destruct Hall as [Hc Hn]; [done|].
    rewrite (stepped_fs _ _ Hst1) in Hc. split_and!; [done|done|done|]. eapply sort_encrypted; [apply Harr|exact Hf].
  - intros e w3 Hk3. assert (keeps (staged_files staging) w w3) as Hk by (by etrans).
    destruct stop; cbn beta iota; destruct noticed; by wp_simpl.
Qed.

(** * Moving the staged chunks into the share *)
Lemma wp_staged_move_chunk s i dest w :
  staged_chunk_path s i ≠ dest →
  let touched := λ q, q = staged_chunk_path s i ∨ q = dest in
  wp (staged_move_chunk s i dest)
    (λ _ w', keeps touched w w' ∧ file_at (w_fs w') dest = file_at (w_fs w) (staged_chunk_path s i))
    (λ _ w', keeps touched w w') w.
Proof.
  intros Hne touched. unfold staged_move_chunk. wp_simpl.
  eapply (wp_mono _ (λ _ w', keeps (λ _, False) w w') _ (λ _ w', keeps (λ _, False) w w')); cbn beta.
  { destruct (path_parent dest); [apply wp_create_dir_all_any|by wp_simpl]. }
  2: { intros e w1 Hk1. eapply keeps_mono; [|exact Hk1]. done. }
  intros _ w1 Hk1. assert (keeps touched w w1) as Hkt1 by (by eapply keeps_mono; [|exact Hk1]). wp_simpl.
  eapply (wp_mono _ (λ _ w', keeps (λ q, q = dest) w1 w') _ (λ _ w', keeps (λ q, q = dest) w1 w')); cbn beta.
  { destruct (path_exists dest w1); [|by wp_simpl]. apply wp_remove_file; [intros; by apply stepped_keeps|].
    intros d w2 _ Hst. eapply fs_step_keeps; [done|]. intros q Hq. rewrite file_at_delete. by rewrite decide_False by congruence. }
  2: { intros e w2 Hk2. etrans; [exact Hkt1|]. eapply keeps_mono; [|exact Hk2]. by right. }
  intros _ w2 Hk2. assert (keeps touched w w2) as Hkt2.
  { etrans; [exact Hkt1|]. eapply keeps_mono; [|exact Hk2]. by right. }
  apply wp_rename; [intros k w3 Hst _; etrans; [exact Hkt2|by apply stepped_keeps]|].
  intros d w3 Hd Hst3. rewrite (fs_step_fs _ _ _ Hst3). split.
  - etrans; [exact Hkt2|]. eapply fs_step_keeps; [done|]. intros q Hq. unfold touched in Hq.
    rewrite file_at_insert_ne, file_at_delete, decide_False; [done|naive_solver|naive_solver].
  - rewrite file_at_insert_eq, <- Hd. destruct Hk2 as [_ Hf2], Hk1 as [_ Hf1]. rewrite Hf2 by done.
    by rewrite Hf1 by auto.
Qed.

Section moving.
Context `{Blake3, Aead} (file_id : FileId) (key : SymmetricKey) (staging : StagedChunkDir) (paths : LibraryPaths).
Context (Hdis : ∀ i, ¬ staged_files staging (chunk_path paths i)).

Definition moved_files (q : path) : Prop := staged_files staging q ∨ ∃ i, 0 ≤ i ∧ q = chunk_path paths i.

Lemma wp_move_loop ds metas w :
  Forall2 (stored_as file_id key (w_fs w) (staged_chunk_path staging)) (seed_number ds) metas →
  wp (mfold (move_round staging paths) tt metas)
    (λ _ w', keeps moved_files w w' ∧ Forall2 (stored_as file_id key (w_fs w') (chunk_path paths)) (seed_number ds) metas)
    (λ _ w', keeps moved_files w w') w.
Proof using Hdis.
  intros Hall. eapply wp_mono; [apply (wp_mfold _ (λ done_ _ w', keeps moved_files w w' ∧
    ∀ i c m, seed_number ds !! i = Some c → metas !! i = Some m →
      stored_as file_id key (w_fs w') (if decide (i < length done_)%nat then chunk_path paths else staged_chunk_path staging) c m)
    _ _ (λ _ w', keeps moved_files w w'))| |done]; cbn beta.
  - split; [done|]. intros i c m Hc Hm. rewrite decide_False by (simpl; lia). by eapply Forall2_lookup_lr.
  - intros done_ meta rest [] w1 -> [Hk1 HI]. unfold move_round. wp_simpl.
    set (n := length done_) in *. assert ((done_ ++ meta :: rest) !! n = Some meta) as Hn by (by apply list_lookup_middle).
    destruct (Forall2_lookup_r _ _ _ _ _ Hall Hn) as (cn & Hcn & Hsn). pose proof (stored_as_index _ _ _ _ _ _ Hsn) as Hix.
    rewrite Hix. assert (0 ≤ sp_index cn) as Hpos by (eapply list_elem_of_lookup_2, seed_number_index in Hcn; lia).
    assert (∀ j k, staged_chunk_path staging j ≠ chunk_path paths k) as Hne.
    { intros j k Heq. apply (Hdis k). rewrite <- Heq. apply staged_chunk_files. }
    assert (∀ w2, keeps (λ q, q = staged_chunk_path staging (sp_index cn) ∨ q = chunk_path paths (sp_index cn)) w1 w2 →
              keeps moved_files w w2) as Hks.
    { intros w2 Hk2. etrans; [exact Hk1|]. eapply keeps_mono; [|exact Hk2].
      intros q [-> | ->]; [left; apply staged_chunk_files|right; eauto]. }
    wp_call wp_staged_move_chunk; [apply Hne| |intros e w2 Hk2; by apply Hks].
    intros _ w2 [Hk2 Hmv]. split; [by apply Hks|]. intros i c m Hc Hm. rewrite length_app. fold n. cbn [length].
    specialize (HI i c m Hc Hm). destruct (decide (i = n)) as [->|Hin].
    + rewrite decide_False in HI by lia. rewrite decide_True by lia. assert (c = cn) as -> by congruence.
      eapply stored_as_ext; [|exact HI]. done.
    + assert (sp_index c ≠ sp_index cn ∧ 0 ≤ sp_index c) as [Hdiff Hpc].
      { split; [|eapply list_elem_of_lookup_2, seed_number_index in Hc; lia].
        rewrite lookup_seed_number in Hc, Hcn. destruct (ds !! i); [|done]. destruct (ds !! n); [|done].
        injection Hc as <-. injection Hcn as <-. cbn [sp_index]. lia. }
      destruct (decide (i < n)%nat) as [Hlt|Hge].
      * rewrite decide_True by lia. eapply stored_as_ext; [|exact HI]. apply Hk2.
        intros [Heq|Heq%chunk_path_inj]; [exact (Hne _ _ (eq_sym Heq))|lia..].
      * rewrite decide_False by lia. eapply stored_as_ext; [|exact HI]. apply Hk2.
        intros [Heq%staged_chunk_path_inj|Heq]; [lia..|exact (Hne _ _ Heq)].
  - intros _ w' [Hk HI]. split; [done|]. apply Forall2_same_length_lookup. split; [by eapply Forall2_length|].
    intros i c m Hc Hm. specialize (HI i c m Hc Hm). rewrite decide_True in HI; [done|]. by eapply lookup_lt_Some.
Qed.
End moving.

(** * The whole operation *)

(** Everything below the library directory of [root]. *)
Definition etle_files (root : path) (q : path) : Prop := root ++ [ETLE_DIR_NAME] `prefix_of` q.

Definition staging_under (root : path) (s : StagedChunkDir) : Prop :=
  ∃ name, staged_path s = (root ++ [ETLE_DIR_NAME; STAGING_DIR_NAME]) ++ [name].

Section layout.
Context (root : path) (s : StagedChunkDir) (Hs : staging_under root s).

Lemma staged_etle q : staged_files s q → etle_files root q.
Proof using Hs.
  destruct Hs as [name Heq]. unfold staged_files, etle_files. rewrite Heq, <- !app_assoc. intros [k ->].
  rewrite <- !app_assoc. apply prefix_app. by eexists.
Qed.

(** The library of shares and the staging area are different directories. *)
Lemma share_not_staged id k : ¬ staged_files s (share_dir (for_share root id) ++ k).
Proof using Hs.
  destruct Hs as [name Heq]. unfold staged_files, share_dir, library_dir, etle_dir. rewrite Heq.
  cbn [lp_root for_share]. rewrite <- !app_assoc. intros [k' Hk]. rewrite <- !app_assoc in Hk.
  apply app_inv_head in Hk. discriminate.
Qed.

Lemma share_etle id k : etle_files root (share_dir (for_share root id) ++ k).
Proof.
  unfold etle_files, share_dir, library_dir, etle_dir. cbn [lp_root for_share]. rewrite <- !app_assoc.
  apply prefix_app, prefix_app_r. done.
Qed.
End layout.

Section whole.
Context `{Blake3Laws, AeadLaws} `{DiskFormat}.
Context (input : path) (root : path) (chunk_size : Z) (key : SymmetricKey).

(** The share [d] of the library holds [content], encrypted under [key]. *)
Definition seeded (m : fs) (content : bytes) (d : EtleDescriptor) : Prop :=
  let paths := for_share root (d_share_id d) in
  ∃ manifest ds, d = descriptor_from_manifest manifest
    ∧ mf_file_id manifest = hash_file_id content ∧ mf_file_name manifest = manifest_file_name input
    ∧ mf_file_size manifest = zlen content ∧ mf_chunk_size manifest = chunk_size
    ∧ concat ds = content ∧ seed_pieces chunk_size ds
    ∧ (cm_index <$> mf_chunks manifest) = seqZ 0 (zlen ds)
    ∧ Forall2 (decrypts m paths (mf_file_id manifest) key) (mf_chunks manifest) ds
    ∧ (∃ b, EtleDescriptor_to_bytes d = Some b ∧ file_at m (descriptor_path paths) = Some b)
    ∧ ∃ b, EtleSecret_to_bytes (EtleSecret_new (d_share_id d) key) = Some b ∧ file_at m (secret_path paths) = Some b.

Lemma stored_decrypts m paths file_id c meta :
  stored_as file_id key m (chunk_path paths) c meta → decrypts m paths file_id key meta (sp_data c).
Proof using All.
  intros (x & He & Hm & Hf). exists x. rewrite Hm. cbn [cm_index cm_plain_size cm_encrypted_size cm_nonce cm_blake3_hash].
  split_and!; try done. unfold encrypt_chunk in He. rewrite ok_or_Ok in He. apply aead_decrypt_encrypt in He.
  unfold decrypt_chunk. by rewrite He.
Qed.

Lemma stored_list_decrypts m paths file_id ds metas :
  Forall2 (stored_as file_id key m (chunk_path paths)) (seed_number ds) metas →
  Forall2 (decrypts m paths file_id key) metas ds.
Proof using All.
  intros Hf. apply Forall2_same_length_lookup. split.
  { rewrite <- (Forall2_length _ _ _ Hf). unfold seed_number. apply length_imap. }
  intros i meta d Hm Hd. destruct (Forall2_lookup_r _ _ _ _ _ Hf Hm) as (c & Hc & Hst).
  rewrite lookup_seed_number, Hd in Hc. injection Hc as <-. by apply stored_decrypts in Hst.
Qed.

Lemma seeded_keeps m m' content d :
  (∀ k, file_at m' (share_dir (for_share root (d_share_id d)) ++ k) = file_at m (share_dir (for_share root (d_share_id d)) ++ k)) →
  seeded m content d → seeded m' content d.
Proof.
  intros Hm (manifest & ds & Hd & ? & ? & ? & ? & ? & ? & ? & Hf & (bd & Hbd & Hfd) & (bs & Hbs & Hfs)).
  exists manifest, ds. split_and!; try done.
  - eapply Forall2_impl; [exact Hf|]. intros meta x (c & Hc & ?). exists c. split; [|done].
    unfold chunk_path, chunks_dir in *. rewrite <- app_assoc in *. by rewrite Hm.
  - exists bd. split; [done|]. unfold descriptor_path. by rewrite Hm.
  - exists bs. split; [done|]. unfold secret_path. by rewrite Hm.
Qed.

Lemma seed_indexes file_id m at_ ds metas :
  Forall2 (stored_as file_id key m at_) (seed_number ds) metas → (cm_index <$> metas) = seqZ 0 (zlen ds).
Proof.
  intros Hf. assert (length metas = length ds) as Hlen.
  { rewrite <- (Forall2_length _ _ _ Hf). unfold seed_number. by rewrite length_imap. }
  apply list_eq. intros i. rewrite list_lookup_fmap. destruct (metas !! i) as [meta|] eqn:Hi; cbn.
  - destruct (Forall2_lookup_r _ _ _ _ _ Hf Hi) as (c & Hc & Hst). rewrite (stored_as_index _ _ _ _ _ _ Hst).
    rewrite lookup_seed_number in Hc. destruct (ds !! i) as [d|] eqn:Hd; [|done]. injection Hc as <-.
    apply lookup_lt_Some in Hd. rewrite lookup_seqZ_lt by (unfold zlen; lia). done.
  - apply lookup_ge_None in Hi. rewrite lookup_seqZ_ge; [done|]. unfold zlen. lia.
Qed.

Lemma wp_add_staged arrival noticed level s content w :
  (∀ l, arrival l ≡ₚ l) → 0 < chunk_size → staging_under root s → file_at (w_fs w) input = Some content →
  wp (add_staged arrival noticed input (hash_file_id content) (zlen content) key chunk_size root level s)
    (λ d w', keeps (etle_files root) w w' ∧ seeded (w_fs w') content d) (λ _ w', keeps (etle_files root) w w') w.
Proof using All.
  intros Harr Hsize Hs Hin. unfold add_staged. wp_simpl.
  assert (∀ v v', keeps (staged_files s) v v' → keeps (etle_files root) v v') as Hst.
  { intros v v'. apply keeps_mono. intros q. by apply staged_etle. }
  wp_call wp_encrypt_to_staging; [done|done| |intros; by apply Hst].
  intros metas w1 (Hk1 & ds & Hc & Hds & Hn & Hf). assert (concat ds = content) as Hcc by congruence.
  set (manifest := mkManifest _ _ _ _ _). set (d := descriptor_from_manifest manifest).
  set (paths := for_share root (d_share_id d)). wp_simpl.
  pose proof (seed_indexes _ _ _ _ _ Hf) as Hix.
  assert (∀ v v', keeps (meta_files paths) v v' → keeps (etle_files root) v v') as Hmeta.
  { intros v v'. apply keeps_mono. intros q [name ->]. apply share_etle. }
  assert (d_chunks d = metas) as Hdc by done.
  wp_call wp_library_init_exact.
  { rewrite Hdc, Hix. apply Forall_forall. intros i Hi%elem_of_seqZ. unfold u32_range. lia. }
  2: { intros e w2 Hk2. etrans; [by apply Hst|by apply Hmeta]. }
  fold d. intros p w2 (-> & Hk2 & Hbd & Hbs). fold paths in Hk2, Hbd, Hbs |- *. wp_simpl.
  assert (keeps (etle_files root) w w2) as Hk02 by (etrans; [by apply Hst|by apply Hmeta]).
  assert (∀ i, ¬ staged_files s (chunk_path paths i)) as Hdis.
  { intros i. unfold chunk_path, chunks_dir. rewrite <- app_assoc. by apply (share_not_staged root). }
  assert (∀ v v', keeps (moved_files s paths) v v' → keeps (etle_files root) v v') as Hmv.
  { intros v v'. apply keeps_mono. intros q [Hq|(i & _ & ->)]; [by apply (staged_etle root s)|].
    unfold chunk_path, chunks_dir. rewrite <- app_assoc. apply share_etle. }
  assert (Forall2 (stored_as (hash_file_id content) key (w_fs w2) (staged_chunk_path s)) (seed_number ds) metas) as Hf2.
  { eapply Forall2_impl; [exact Hf|]. intros c m. apply stored_as_ext. apply Hk2. intros [name Heq].
    apply (share_not_staged root s Hs (d_share_id d) [name]). fold paths. rewrite <- Heq. apply staged_chunk_files. }
  wp_call (wp_move_loop (hash_file_id content) key s paths); [done|exact Hf2| |intros e w3 Hk3; etrans; [exact Hk02|by apply Hmv]].
  intros _ w3 [Hk3 Hf3]. wp_simpl. split; [etrans; [exact Hk02|by apply Hmv]|].
  assert (∀ name, file_at (w_fs w3) (share_dir paths ++ [name]) = file_at (w_fs w2) (share_dir paths ++ [name])) as Hkeep.
  { intros name. apply Hk3. intros [Hq|(i & _ & Heq)]; [by eapply (share_not_staged root s Hs)|].
    by apply (meta_files_chunk paths i); exists name. }
  exists manifest, ds. split_and!; try done.
  - by eapply stored_list_decrypts.
  - destruct Hbd as (b & Hb & Hfb). exists b. split; [done|]. etrans; [apply Hkeep|exact Hfb].
  - destruct Hbs as (b & Hb & Hfb). exists b. split; [done|]. etrans; [apply Hkeep|exact Hfb].
Qed.

(** Dropping the staging directory leaves the share as it is. *)
Lemma wp_staged_drop s w : wp (StagedChunkDir_drop s) (λ _ w', keeps (staged_files s) w w') (λ _ _, False) w.
Proof.
  unfold StagedChunkDir_drop. wp_simpl. apply wp_remove_dir_all.
  - intros k m w' Hst Hm _. wp_simpl. eapply fs_step_keeps; [done|]. intros q Hq. unfold file_at. by rewrite Hm.
  - intros w' Hst. wp_simpl. eapply fs_step_keeps; [done|]. intros q Hq. unfold file_at.
    by rewrite lookup_remove_below, decide_False.
Qed.

Lemma wp_with_drop {A} (m : net A) drop (Q : A → World → Prop) (R : NetworkError → World → Prop) w :
  wp m (λ a w1, wp drop (λ _ w', Q a w') R w1) (λ e w1, wp drop (λ _ w', R e w') R w1) w →
  wp (with_drop m drop) Q R w.
Proof.
  intros Hm. unfold with_drop. wp_simpl. wp_call Hm.
  - intros a w1 Hd. wp_simpl. wp_call Hd; [|done]. intros _ w2 HQ. by wp_simpl.
  - intros e w1 Hd. wp_simpl. wp_call Hd; [|done]. intros _ w2 HR. by wp_simpl.
Qed.

Lemma wp_add_streaming arrival noticed level w :
  (∀ l, arrival l ≡ₚ l) → 0 ≤ chunk_size → honest_faults w →
  Z.of_nat (size (w_fs w)) + zlen root + 2 ≤ u32_max →
  wp (add_streaming arrival noticed input key chunk_size root level)
    (λ d w', keeps (etle_files root) w w' ∧ ∃ content, file_at (w_fs w) input = Some content ∧ seeded (w_fs w') content d)
    (λ _ w', keeps (etle_files root) w w') w.
Proof using All.
  intros Harr Hsize Hh Hsz. unfold add_streaming. case_decide; wp_simpl; [done|].
  apply wp_hash_file; [intros; by apply stepped_keeps|]. intros content w1 Hc Hst1. wp_simpl.
  apply wp_metadata; [intros k w2 Hst2 _; apply stepped_keeps; by etrans|]. rewrite (stepped_fs _ _ Hst1).
  intros n w2 Hn Hst2. wp_simpl. assert (stepped w w2) as Hst by (by etrans).
  assert (node_len n = zlen content) as ->.
  { unfold file_at in Hc. destruct Hn as [Hn|(_ & _ & Hn)]; rewrite Hn in Hc; [|done]. destruct n; naive_solver. }
  unfold StagedChunkDir_create. wp_simpl. wp_call (wp_create_fresh_dir (λ _, False)).
  - intros i f. rewrite (stepped_env _ _ Hst). apply Hh.
  - rewrite (stepped_fs _ _ Hst), zlen_app. change (zlen [ETLE_DIR_NAME; STAGING_DIR_NAME]) with 2. lia.
  - intros p w3 [Hk3 [name ->]]. wp_simpl. set (s := mkStagedChunkDir _).
    assert (staging_under root s) as Hs by (by exists name).
    assert (keeps (etle_files root) w w3) as Hk03.
    { etrans; [by apply stepped_keeps|]. eapply keeps_mono; [|exact Hk3]. done. }
    assert (∀ v v', keeps (staged_files s) v v' → keeps (etle_files root) v v') as Hse.
    { intros v v'. apply keeps_mono. intros q. by apply staged_etle. }
    apply wp_with_drop. wp_call (wp_add_staged arrival noticed level s content); [done|lia|done| | |].
    + destruct Hk3 as [_ Hf3]. rewrite Hf3 by auto. by rewrite (stepped_fs _ _ Hst).
    + intros d w4 [Hk4 Hd]. wp_call wp_staged_drop; [|done]. intros _ w5 Hk5. split.
      * etrans; [exact Hk03|]. etrans; [exact Hk4|by apply Hse].
      * exists content. split; [done|]. eapply seeded_keeps; [|exact Hd]. intros k. apply Hk5. by apply (share_not_staged root).
    + intros e w4 Hk4. wp_call wp_staged_drop; [|done]. intros _ w5 Hk5.
      etrans; [exact Hk03|]. etrans; [exact Hk4|by apply Hse].
  - intros k w3 Hk3. etrans; [by apply stepped_keeps|]. eapply keeps_mono; [|exact Hk3]. done.
Qed.
End whole.

(** ** Runs *)
Lemma wp_seed_add `{Blake3Laws, AeadLaws} `{DiskFormat} arrival noticed input chunk_size root level w :
  (∀ l, arrival l ≡ₚ l) → 0 ≤ chunk_size → honest_faults w →
  Z.of_nat (size (w_fs w)) + zlen root + 2 ≤ u32_max →
  wp (seed_add arrival noticed input chunk_size root level)
    (λ d w', keeps (etle_files root) w w'
       ∧ ∃ key content, file_at (w_fs w) input = Some content ∧ seeded input root chunk_size key (w_fs w') content d)
    (λ _ w', keeps (etle_files root) w w') w.
Proof.
  intros Harr Hsize Hh Hsz. unfold seed_add, generate_file_key. wp_simpl. unfold fill_bytes, wp at 1. wp_simpl.
  wp_use (wp_add_streaming input root chunk_size (mkSymmetricKey (env_rng (w_env w) (w_step w) 32)) arrival noticed level (tick w) Harr Hsize Hh Hsz);
    [|done].
  intros d w' (Hk & content & Hc & Hd). split; [exact Hk|]. by eexists _, content.
Qed.

Lemma seed_add_seeded `{Blake3Laws, AeadLaws} `{DiskFormat} arrival noticed input chunk_size root level w d w' :
  (∀ l, arrival l ≡ₚ l) → 0 ≤ chunk_size → honest_faults w →
  Z.of_nat (size (w_fs w)) + zlen root + 2 ≤ u32_max →
  seed_add arrival noticed input chunk_size root level w = (Ok d, w') →
  keeps (etle_files root) w w'
  ∧ ∃ key content, file_at (w_fs w) input = Some content ∧ seeded input root chunk_size key (w_fs w') content d.
Proof. intros Harr Hsize Hh Hsz Hrun. by eapply wp_Ok in Hrun; [|by apply wp_seed_add]. Qed.

Lemma read_secret_run `{DiskFormat} `{!BincodeLaws EtleSecret} paths secret b w :
  no_faults w → file_at (w_fs w) (secret_path paths) = Some b → EtleSecret_to_bytes secret = Some b →
  es_share_id secret = lp_share_id paths → (read_secret paths w).1 = Ok secret.
Proof.
  intros Hnf Hf Hb Hid.
  destruct (wp_run (read_secret paths) (λ s _, s = secret) (λ _ _, False) w) as [(? & ? & -> & ->)|(? & ? & _ & [])]; [|done].
  unfold read_secret. wp_simpl. apply wp_read_file; [rewrite Hf; naive_solver|].
  intros d w1 Hd Hst. assert (d = b) as -> by congruence. wp_simpl. unfold EtleSecret_from_bytes.
  rewrite (decode_exact_encode _ secret) by done. cbn [result_map_err]. wp_simpl. unfold ensure_share_id.
  rewrite decide_True by done. by wp_simpl.
Qed.

(** * Claims *)


(** C4: what was seeded can be reconstructed: after a successful [seed::add] the
    secret read from the library gives the file key, and reconstructing the share
    from the library, sequentially or in parallel, writes exactly the bytes of the
    original file. *)
Theorem seed_reconstruct_roundtrip `{Blake3Laws, AeadLaws} `{DiskFormat} `{!BincodeLaws EtleSecret}
    arrival noticed input chunk_size root level schedule out w d w' :
  (∀ l, arrival l ≡ₚ l) → 0 ≤ chunk_size → honest_faults w →
  Z.of_nat (size (w_fs w)) + zlen root + 2 ≤ u32_max →
  seed_add arrival noticed input chunk_size root level w = (Ok d, w') →
  no_faults w' → can_output (w_fs w') out → ¬ etle_files root out → (∀ metas, schedule metas ≡ₚ metas) →
  ∃ content manifest secret w'', file_at (w_fs w) input = Some content
    ∧ manifest_from_descriptor d = Ok manifest
    ∧ (read_secret (for_share root (d_share_id d)) w').1 = Ok secret
    ∧ decrypt_library_chunks_to_file schedule (for_share root (d_share_id d)) manifest (es_file_key secret) out level w'
      = (Ok tt, w'')
    ∧ file_at (w_fs w'') out = Some content.
Proof.
  intros Harr Hsize Hh Hsz Hrun Hnf Hco Hout Hsch.
  destruct (seed_add_seeded _ _ _ _ _ _ _ _ _ Harr Hsize Hh Hsz Hrun) as (_ & key & content & Hc & Hd).
  destruct Hd as (manifest & ds & Hd & Hid & _ & _ & _ & Hcat & Hds & Hix & Hf & _ & (b & Hb & Hfb)).
  destruct (reconstruct_run schedule (for_share root (d_share_id d)) manifest key out level ds w')
    as (w'' & Hrec & Hfile); [done|done|done| | |done|by rewrite Hcat|].
  - rewrite Hix. apply NoDup_seqZ.
  - apply Forall_forall. intros i _ <-. apply Hout. unfold chunk_path, chunks_dir. rewrite <- app_assoc. apply share_etle.
  - exists content, manifest, (EtleSecret_new (d_share_id d) key), w''. split_and!; [done| | |done|by rewrite <- Hcat].
    + rewrite Hd. unfold manifest_from_descriptor, descriptor_from_manifest. by destruct manifest.
    + eapply read_secret_run; [done|exact Hfb|exact Hb|done].
Qed.

(** * A concrete seeding *)
Import Toy StateSample DiskSample.
Module SeedSample.
Definition input : path := ["in"%string; "hello.txt"%string].
Definition content : bytes := str_bytes "hello world".
Definition root : path := ["home"%string].
Definition arrival (l : list SeedPlainChunk) : list SeedPlainChunk := rev l.
Definition world : World := CryptoSample.world {[ input := File content; ["out"%string] := Dir ]} [].
Definition run : result NetworkError EtleDescriptor * World := seed_add arrival false input 4 root Quiet world.
Definition ok_else {E A} (r : result E A) (a : A) : A := match r with Ok x => x | _ => a end.
Definition descriptor : EtleDescriptor :=
  ok_else run.1 (descriptor_from_manifest (mkManifest (hash_file_id []) "" 0 0 [])).
Definition after : World := run.2.
End SeedSample.


(** The sample succeeds, so the round trip applies to it. *)
Lemma seed_run_ok : SeedSample.run = (Ok SeedSample.descriptor, SeedSample.after).
Proof.
  assert ((match SeedSample.run.1 with Ok _ => true | _ => false end) = true) as Hok by (vm_compute; reflexivity).
  unfold SeedSample.descriptor, SeedSample.after. revert Hok. generalize SeedSample.run. clear.
  intros [[] w'] Hok; [reflexivity|discriminate..].
Qed.

Lemma seed_after_output : can_output (w_fs SeedSample.after) ["out"%string; "copy"%string].
Proof. by_decide. Qed.
Lemma seed_after_no_faults : no_faults SeedSample.after.
Proof.
  destruct (seed_add_seeded SeedSample.arrival false SeedSample.input 4 SeedSample.root Quiet SeedSample.world
    SeedSample.descriptor SeedSample.after) as [[He _] _].
  - intros l. symmetry. apply Permutation_rev.
  - lia.
  - intros n f Hf. discriminate Hf.
  - vm_compute. discriminate.
  - exact seed_run_ok.
  - intros n. by rewrite He.
Qed.

Lemma seed_reconstruct_roundtrip_witness : ∃ manifest secret w'',
  decrypt_library_chunks_to_file (λ metas, rev metas) (for_share SeedSample.root (d_share_id SeedSample.descriptor))
    manifest (es_file_key secret) ["out"%string; "copy"%string] Quiet SeedSample.after = (Ok tt, w'')
  ∧ file_at (w_fs w'') ["out"%string; "copy"%string] = Some SeedSample.content.
Proof.
  destruct (seed_reconstruct_roundtrip SeedSample.arrival false SeedSample.input 4 SeedSample.root Quiet
    (λ metas, rev metas) ["out"%string; "copy"%string] SeedSample.world SeedSample.descriptor SeedSample.after)
    as (content & manifest & secret & w'' & Hc & _ & _ & Hrun & Hf).
  - intros l. symmetry. apply Permutation_rev.
  - lia.
  - intros n f Hf. discriminate Hf.
  - vm_compute. discriminate.
  - exact seed_run_ok.
  - exact seed_after_no_faults.
  - exact seed_after_output.
  - intros [k Hk]. discriminate Hk.
  - intros metas. symmetry. apply Permutation_rev.
  - exists manifest, secret, w''. split; [exact Hrun|].
    assert (content = SeedSample.content) as -> by (vm_compute in Hc; vm_compute; congruence). exact Hf.
Defined.
