(* ===== verification/Serve.v ===== *)
(** [network/transfer/serve.rs]: serving the shares of a library to a peer.

    A session runs the handshake and the key exchange, sends the manifest, the
    wrapped file key and the chunks it has, and then answers requests until the
    peer has everything or closes the connection. *)
From stdpp Require Import base tactics list countable strings gmap.
From Stdlib Require Import ZArith Lia.
From S2P Require Import Prelude Bytes World Files Extern Crypto Descriptor Storage State Library Codec Handshake DownloadState Reconstruct Download Seed.
Local Open Scope Z_scope.
Local Open Scope etle_scope.

Definition is_peer_closed_protocol_error (error : ProtocolError) : bool :=
  match error with
  | PE_Io UnexpectedEof | PE_Io ConnectionReset | PE_Io BrokenPipe => true
  | _ => false
  end.

(** What a session loads from the library. *)
Record LoadedShare := mkLoadedShare {
  ls_paths : LibraryPaths;
  ls_descriptor : EtleDescriptor;
  ls_secret : EtleSecret;
  ls_manifest : Manifest;
  ls_available_chunks : list Z;
}.
Definition ls_available_set (s : LoadedShare) : gset Z := list_to_set (ls_available_chunks s).

Definition not_available (index : Z) : WireMessage :=
  ErrorMsg ("chunk " +:+ dec index +:+ " is not available from this peer").

Section serve.
Context `{Blake3, X25519, Aead} `{Bincode WireMessage} `{DiskFormat}.

Definition server_transfer_session_key_exchange (auth_psk : option AuthPsk) : net SymmetricKey :=
  match auth_psk with
  | Some psk => server_authenticated_session_key_exchange psk
  | None => server_session_key_exchange
  end.

Definition receive_requested_share : net ShareId :=
  let! m := map_err NE_Protocol receive in
  match m with
  | RequestShare share_id => ret share_id
  | actual => throw (UnexpectedMessage "RequestShare" actual)
  end.

Definition load_share (library_root : path) (share_id : ShareId) : net LoadedShare :=
  let paths := for_share library_root share_id in
  let! descriptor := map_err NE_File (read_descriptor paths) in
  let! secret := map_err NE_File (read_secret paths) in
  let! manifest := lift_result (manifest_from_descriptor descriptor) in
  let! available_chunks := available_chunk_indexes paths descriptor in
  ret (mkLoadedShare paths descriptor secret manifest available_chunks).

(** The messages before the first request. *)
Definition send_share_header (session_key : SymmetricKey) (share : LoadedShare) : net unit :=
  let manifest := ls_manifest share in
  do! map_err NE_Protocol (send (ManifestMsg manifest)) in
  let! wrapped := map_err NE_Crypto (wrap_file_key session_key (mf_file_id manifest) (es_file_key (ls_secret share))) in
  do! map_err NE_Protocol (send (WrappedFileKeyMsg (wrapped_nonce wrapped) (wrapped_data wrapped))) in
  map_err NE_Protocol (send (Have (ls_available_chunks share))).

(** [for index in chunks { if available_set.contains(&index) { served_or_known.insert(index); } }] *)
Definition note_known (available served_or_known : gset Z) (chunks : list Z) : gset Z :=
  foldl (λ s index, if decide (index ∈ available) then {[index]} ∪ s else s) served_or_known chunks.

Definition answer_request (share_id : ShareId) (share : LoadedShare) (action : string) (log_level : TransferLogLevel)
    (served_or_known : gset Z) (index : Z) : net (gset Z) :=
  if decide (index ∉ ls_available_set share) then
    do! map_err NE_Protocol (send (not_available index)) in
    ret served_or_known
  else
    let chunks := d_chunks (ls_descriptor share) in
    let! meta := lift_result (ok_or (snd <$> list_find (λ chunk, cm_index chunk = index) chunks)
                   (MissingEncryptedChunk index)) in
    do! map_err NE_Protocol (send_chunk_file index (chunk_path (ls_paths share) index) (cm_encrypted_size meta)) in
    let served_or_known := {[index]} ∪ served_or_known in
    do! with_context (Some share_id) "seeder" action log_level (Z.of_nat (size served_or_known))
          (zlen chunks) index (cm_encrypted_size meta) in
    ret served_or_known.

(** One round of the [while] loop; [inr] ends the session. *)
Definition serve_round (share_id : ShareId) (share : LoadedShare) (action : string) (log_level : TransferLogLevel)
    (served_or_known : gset Z) : net (gset Z + EtleDescriptor) :=
  if decide (Z.of_nat (size served_or_known) < zlen (d_chunks (ls_descriptor share))) then
    let! r := try_ receive in
    match r with
    | Ok (Have chunks) => ret (inl (note_known (ls_available_set share) served_or_known chunks))
    | Ok (RequestChunk index) =>
        let! served_or_known := answer_request share_id share action log_level served_or_known index in
        ret (inl served_or_known)
    | Ok actual => throw (UnexpectedMessage "Have or RequestChunk" actual)
    | Err error => if is_peer_closed_protocol_error error then ret (inr (ls_descriptor share))
                   else throw (NE_Protocol error)
    | _ => panic
    end
  else ret (inr (ls_descriptor share)).

(** Every round reads a message, and a peer sends finitely many bytes. *)
Definition serve_chunks (share_id : ShareId) (share : LoadedShare) (action : string) (log_level : TransferLogLevel)
    : net EtleDescriptor :=
  let! fuel := gets (λ w, S (length (w_in w))) in
  mloop fuel (serve_round share_id share action log_level) ∅.

(** ** Sessions *)
Definition library_connected_peer (library_root : path) (options : ServeFileOptions) : net EtleDescriptor :=
  let! _remote_peer_id := server_protocol_handshake (so_seeder_id options) in
  let! session_key := server_transfer_session_key_exchange (so_auth_psk options) in
  let! share_id := receive_requested_share in
  let! share := load_share library_root share_id in
  do! send_share_header session_key share in
  serve_chunks share_id share "served-from-library" (so_log_level options).

Definition share_connected_peer (library_root : path) (share_id : ShareId) (options : ServeFileOptions)
    : net EtleDescriptor :=
  let! share := load_share library_root share_id in
  let! _remote_peer_id := server_protocol_handshake (so_seeder_id options) in
  let! session_key := server_transfer_session_key_exchange (so_auth_psk options) in
  do! send_share_header session_key share in
  serve_chunks share_id share "served-from-state" (so_log_level options).

Definition library_once_from_listener (library_root : path) (options : ServeFileOptions) : net EtleDescriptor :=
  let! _peer_addr := accept_peer in
  library_connected_peer library_root options.
Definition library_once (library_root : path) (options : ServeFileOptions) : net EtleDescriptor :=
  library_once_from_listener library_root options.

Definition share_once_from_listener (library_root : path) (share_id : ShareId) (options : ServeFileOptions)
    : net EtleDescriptor :=
  let! _peer_addr := accept_peer in
  share_connected_peer library_root share_id options.
Definition share_once (library_root : path) (share_id : ShareId) (options : ServeFileOptions) : net EtleDescriptor :=
  share_once_from_listener library_root share_id options.

(** ** Serving one file: it is seeded first, into a temporary library if none is
    given. *)
Definition serve_seeded (arrival : list SeedPlainChunk → list SeedPlainChunk) (noticed : bool) (input_path : path)
    (chunk_size : Z) (options : ServeFileOptions) (library_root : path) : net unit :=
  let log_level := so_log_level options in
  let! descriptor := seed_add arrival noticed input_path chunk_size library_root log_level in
  let serve_options := serve_with_library_root (ServeFileOptions_new (so_seeder_id options) log_level) library_root in
  let serve_options := match so_auth_psk options with
                       | Some psk => serve_with_auth_psk serve_options psk
                       | None => serve_options
                       end in
  let! _descriptor := share_once_from_listener library_root (d_share_id descriptor) serve_options in
  ret tt.

Definition file_once_with (temp_dir : path) (arrival : list SeedPlainChunk → list SeedPlainChunk) (noticed : bool)
    (input_path : path) (chunk_size : Z) (options : ServeFileOptions) : net unit :=
  match so_library_root options with
  | Some root => serve_seeded arrival noticed input_path chunk_size options root
  | None =>
      let! temporary := map_err NE_Io (TemporaryLibraryRoot_create temp_dir) in
      with_drop (serve_seeded arrival noticed input_path chunk_size options (temporary_path temporary))
        (TemporaryLibraryRoot_drop temporary)
  end.
Definition file_once (temp_dir : path) (arrival : list SeedPlainChunk → list SeedPlainChunk) (noticed : bool)
    (input_path : path) (chunk_size : Z) (seeder_id : string) : net unit :=
  file_once_with temp_dir arrival noticed input_path chunk_size (ServeFileOptions_new seeder_id Quiet).
End serve.

(** * What a server says

    [spoke P w w']: no file changed, some input was consumed, and the output grew
    by whole frames of messages in [P]. A failing step may also have written a
    part of one more frame. *)
Lemma wp_and {S E A} (m : M S E A) (Q Q' : A → S → Prop) (R R' : E → S → Prop) s :
  wp m Q R s → wp m Q' R' s → wp m (λ a s', Q a s' ∧ Q' a s') (λ e s', R e s' ∧ R' e s') s.
Proof. unfold wp. by destruct (m s) as [[] ?]. Qed.

Section said.
Context `{Bincode WireMessage}.
Implicit Types P : WireMessage → Prop.

Lemma frames_cons m ms out :
  frames (m :: ms) = Ok out → ∃ f fs, frame m = Ok f ∧ frames ms = Ok fs ∧ out = f ++ fs.
Proof.
  cbn [frames]. destruct (frame m) as [f| | |]; [|done..]. cbn [result_bind].
  destruct (frames ms) as [fs| | |]; [|done..]. intros [= <-]. eauto.
Qed.

Lemma frames_app ms ms' fs fs' : frames ms = Ok fs → frames ms' = Ok fs' → frames (ms ++ ms') = Ok (fs ++ fs').
Proof.
  revert fs. induction ms as [|m ms IH]; intros fs Hf Hf'; [by injection Hf as <-|].
  apply frames_cons in Hf as (f & fs0 & Hm & Hms & ->). cbn [frames app]. rewrite Hm, (IH fs0) by done.
  cbn [result_bind]. by rewrite app_assoc.
Qed.

Definition said P (w w' : World) (tail : bytes) : Prop :=
  ∃ ms out, Forall P ms ∧ frames ms = Ok out ∧ w_out w' = w_out w ++ out ++ tail.
Definition listened (w w' : World) : Prop := keeps nofile w w' ∧ ∃ pre, w_in w = pre ++ w_in w'.
Definition spoke P (w w' : World) : Prop := listened w w' ∧ said P w w' [].
Definition spoke_part P (w w' : World) : Prop :=
  listened w w' ∧ ∃ tail, said P w w' tail ∧ (tail = [] ∨ ∃ m, P m ∧ frame_part m tail).

Global Instance listened_preorder : PreOrder listened.
Proof.
  split; [intros w; split; [done|by exists []]|].
  intros w1 w2 w3 [K1 [p1 H1]] [K2 [p2 H2]]. split; [by etrans|]. exists (p1 ++ p2). by rewrite H1, H2, app_assoc.
Qed.

Lemma said_trans P w w1 w2 tail : said P w w1 [] → said P w1 w2 tail → said P w w2 tail.
Proof.
  intros (ms & o & Hm & Hf & Ho) (ms' & o' & Hm' & Hf' & Ho'). exists (ms ++ ms'), (o ++ o').
  split; [by apply Forall_app|]. split; [by apply frames_app|]. by rewrite Ho', Ho, app_nil_r, <- !app_assoc.
Qed.

Global Instance spoke_preorder P : PreOrder (spoke P).
Proof.
  split.
  - intros w. split; [done|]. exists [], []. by rewrite app_nil_r.
  - intros w1 w2 w3 [L1 S1] [L2 S2]. split; [by etrans|by eapply said_trans].
Qed.

Lemma spoke_part_trans P w w1 w2 : spoke P w w1 → spoke_part P w1 w2 → spoke_part P w w2.
Proof.
  intros [L1 S1] [L2 (tail & S2 & Ht)]. split; [by etrans|]. exists tail. split; [by eapply said_trans|done].
Qed.

Lemma spoke_spoke_part P w w' : spoke P w w' → spoke_part P w w'.
Proof. intros [L S]. split; [done|]. exists []. split; [done|by left]. Qed.

Lemma spoke_mono P P' w w' : (∀ m, P m → P' m) → spoke P w w' → spoke P' w w'.
Proof.
  intros HP [L (ms & o & Hm & Hf & Ho)]. split; [done|]. exists ms, o. split_and!; try done.
  by eapply Forall_impl.
Qed.

Lemma spoke_part_mono P P' w w' : (∀ m, P m → P' m) → spoke_part P w w' → spoke_part P' w w'.
Proof.
  intros HP [L (tail & (ms & o & Hm & Hf & Ho) & Ht)]. split; [done|]. exists tail. split; [|naive_solver].
  exists ms, o. split_and!; try done. by eapply Forall_impl.
Qed.

Lemma stepped_spoke P w w' : stepped w w' → spoke P w w'.
Proof.
  intros Hst. split; [split; [by apply stepped_keeps|]|].
  - exists []. by destruct Hst as (_&_&->&_).
  - exists [], []. rewrite !app_nil_r. by destruct Hst as (_&_&_&->&_).
Qed.

Lemma rx_spoke P w w' : rx w w' → spoke P w w'.
Proof.
  intros Hrx. split; [split; [by eapply rx_to_keeps|by destruct Hrx as (_&_&_&?&_)]|].
  exists [], []. rewrite !app_nil_r. by destruct Hrx as (_&->&_).
Qed.

Lemma sent_frame_spoke P m f w w' : P m → frame m = Ok f → sent w f w' → spoke P w w'.
Proof.
  intros HP Hf Hs. split; [split; [by eapply sent_keeps|]|].
  - exists []. by destruct Hs as (_&_&->&_).
  - exists [m], f. split; [by constructor|]. cbn [frames]. rewrite Hf. cbn [result_bind].
    rewrite !app_nil_r. split; [done|]. by apply sent_out.
Qed.

Lemma sent_part_spoke P m tail w w' : tail = [] ∨ P m ∧ frame_part m tail → sent w tail w' → spoke_part P w w'.
Proof.
  intros Ht Hs. split; [split; [by eapply sent_keeps|]|].
  - exists []. by destruct Hs as (_&_&->&_).
  - exists tail. split; [|naive_solver]. exists [], []. split_and!; [constructor|done|]. by apply sent_out.
Qed.

(** Conversations all of whose messages are in [P]. *)
Definition speaks {A} P (m : net A) : Prop := ∀ w, wp m (λ _ w', spoke P w w') (λ _ w', spoke_part P w w') w.

Lemma speaks_ret {A} P (a : A) : speaks P (ret a).
Proof. intros w. by wp_simpl. Qed.
Lemma speaks_throw {A} P e : speaks (A := A) P (throw e).
Proof. intros w. wp_simpl. by apply spoke_spoke_part. Qed.
Lemma speaks_lift {A} P (r : result NetworkError A) : total r → speaks P (lift_result r).
Proof. intros [? ?] w. wp_simpl. destruct r; [done|by apply spoke_spoke_part|done|done]. Qed.
Lemma speaks_lift_map {A E'} P (f : E' → NetworkError) (r : result E' A) :
  total r → speaks P (lift_result (result_map_err f r)).
Proof. intros [? ?]. apply speaks_lift. by destruct r. Qed.
Lemma speaks_bind {A B} P (m : net A) (k : A → net B) : speaks P m → (∀ a, speaks P (k a)) → speaks P (bind m k).
Proof.
  intros Hm Hk w. wp_simpl. wp_call Hm; [|done]. intros a w1 Hs1.
  wp_call Hk; intros ? w2 Hs2; [by etrans|by eapply spoke_part_trans].
Qed.
Lemma wp_send_spoke P m w :
  P m → wp (send m) (λ _ w', spoke P w w') (λ _ w', spoke_part P w w') w.
Proof.
  intros HP. apply wp_send_part.
  - intros e out w' Hs Hp _. eapply sent_part_spoke; [by right|done].
  - intros f w' Hf Hs. by eapply sent_frame_spoke.
Qed.
Lemma speaks_send P m : P m → speaks P (map_err NE_Protocol (send m)).
Proof. intros HP w. wp_simpl. by apply wp_send_spoke. Qed.
Lemma speaks_receive P : speaks P (map_err NE_Protocol receive).
Proof.
  intros w. wp_simpl. apply wp_receive_any; intros; [apply spoke_spoke_part|]; by apply rx_spoke.
Qed.
Lemma speaks_generate `{Blake3, X25519} P : speaks P keypair_generate.
Proof.
  intros w. unfold keypair_generate. wp_simpl. unfold wp at 1. cbn [fill_bytes]. wp_simpl. by apply stepped_spoke.
Qed.
End said.
Create HintDb speaks discriminated.
#[export] Hint Resolve speaks_ret speaks_throw speaks_lift speaks_lift_map speaks_send speaks_receive speaks_generate
  total_diffie_hellman total_verify_auth_tag total_validate_capabilities : speaks.

(** [speak] runs through the structure of a conversation. *)
Ltac speak := repeat (cbv beta iota zeta; match goal with
  | |- speaks _ (bind _ _) => apply speaks_bind; [|intros ?]
  | |- speaks _ (match ?x with _ => _ end) => destruct x
  | |- speaks _ _ => solve [eauto with speaks]
  end).

(** * Sessions *)

(** The chunk file is there, with the right size and hash. *)
Definition intact `{Blake3} (m : fs) (paths : LibraryPaths) (meta : ChunkMeta) : Prop :=
  ∃ d, file_at m (chunk_path paths (cm_index meta)) = Some d
       ∧ zlen d = cm_encrypted_size meta ∧ hash_chunk d = cm_blake3_hash meta.

Section session.
Context `{Blake3, X25519, Aead} `{Bincode WireMessage} `{DiskFormat}.
Context (root : path) (psk : option AuthPsk) (w0 : World).

(** A session key that was agreed on only after the peer proved the pre-shared
    key, where one is set. *)
Definition granted (k : SymmetricKey) : Prop :=
  ∀ p, psk = Some p → ∃ v a b, (∃ pre, w_in w0 = pre ++ w_in v) ∧ peer_proved p Client v k a b.

(** The share [id] of the library, as its files describe it. *)
Definition stored (id : ShareId) (d : EtleDescriptor) : Prop :=
  ∃ b, file_at (w_fs w0) (descriptor_path (for_share root id)) = Some b
       ∧ EtleDescriptor_from_bytes b = Ok d ∧ d_share_id d = id ∧ verify_share_id d = true.
Definition stored_secret (id : ShareId) (s : EtleSecret) : Prop :=
  ∃ b, file_at (w_fs w0) (secret_path (for_share root id)) = Some b ∧ EtleSecret_from_bytes b = Ok s.

(** Everything a server may say, for a share [id] of its library. *)
Definition early (m : WireMessage) : Prop :=
  match m with Hello _ | Capabilities _ _ | KeyExchange _ | AuthProof _ => True | _ => False end.
Definition server_message (id : ShareId) (m : WireMessage) : Prop :=
  early m ∨ ∃ k d manifest, granted k ∧ stored id d ∧ manifest_from_descriptor d = Ok manifest ∧
    match m with
    | ManifestMsg mf => mf = manifest
    | WrappedFileKeyMsg nonce data =>
        ∃ s, stored_secret id s
             ∧ encrypt_chunk k nonce (array_data (symmetric_key_bytes (es_file_key s)))
                 (build_file_key_aad (mf_file_id manifest)) = Ok data
    | Have chunks => Forall (verified (w_fs w0) (for_share root id) (d_chunks d)) chunks
    | Chunk i data =>
        file_at (w_fs w0) (chunk_path (for_share root id) i) = Some data
        ∧ ∃ meta, meta ∈ d_chunks d ∧ cm_index meta = i ∧ hash_chunk data = cm_blake3_hash meta
    | ErrorMsg _ => True
    | _ => False
    end.

(** A share as [load_share] returns it. *)
Definition loaded (id : ShareId) (s : LoadedShare) : Prop :=
  ls_paths s = for_share root id ∧ stored id (ls_descriptor s) ∧ stored_secret id (ls_secret s)
  ∧ manifest_from_descriptor (ls_descriptor s) = Ok (ls_manifest s)
  ∧ ∀ i, (i ∈ ls_available_chunks s →
            ∃ meta, meta ∈ d_chunks (ls_descriptor s) ∧ cm_index meta = i ∧ intact (w_fs w0) (ls_paths s) meta)
         ∧ (no_faults w0 →
            (∃ meta, meta ∈ d_chunks (ls_descriptor s) ∧ cm_index meta = i ∧ intact (w_fs w0) (ls_paths s) meta) →
            i ∈ ls_available_chunks s).
End session.

#[export] Hint Extern 1 (early _) => exact I : speaks.

(** ** Loading *)
Section loading.
Context `{Blake3} `{DiskFormat}.

(** Exactly the intact chunks are available, unless reading fails. *)
Lemma wp_available_chunk paths available meta w :
  wp (available_chunk paths available meta)
    (λ r w', stepped w w' ∧ (r = available ++ [cm_index meta] ∧ intact (w_fs w) paths meta
                             ∨ r = available ∧ (no_faults w → ¬ intact (w_fs w) paths meta)))
    (λ _ _, False) w.
Proof.
  unfold available_chunk, library_has_chunk, is_file. wp_simpl. case_bool_decide as Hf; cbn [negb]; wp_simpl.
  2: { split; [done|]. right. split; [done|]. intros _ (d & Hd & _). apply Hf. by exists d. }
  apply wp_read_chunk.
  - intros e w' Hst Hwhy. wp_simpl. split; [done|]. right. split; [done|]. intros Hnf (d & Hd & Hsz & _).
    by destruct (Hwhy Hnf d).
  - intros d w' Hd Hsz Hst. wp_simpl. cbn [ec_data]. case_decide as Hh; wp_simpl; (split; [done|]).
    + left. split; [done|]. by exists d.
    + right. split; [done|]. intros _ (d' & Hd' & _ & Hh'). congruence.
Qed.

Lemma wp_available_chunk_indexes paths descriptor w :
  wp (available_chunk_indexes paths descriptor)
    (λ r w', stepped w w' ∧ ∀ i,
       (i ∈ r → ∃ meta, meta ∈ d_chunks descriptor ∧ cm_index meta = i ∧ intact (w_fs w) paths meta)
       ∧ (no_faults w → (∃ meta, meta ∈ d_chunks descriptor ∧ cm_index meta = i ∧ intact (w_fs w) paths meta) → i ∈ r))
    (λ _ _, False) w.
Proof.
  unfold available_chunk_indexes.
  apply (wp_mfold _ (λ done_ r w', stepped w w' ∧ ∀ i,
       (i ∈ r → ∃ meta, meta ∈ done_ ∧ cm_index meta = i ∧ intact (w_fs w) paths meta)
       ∧ (no_faults w → (∃ meta, meta ∈ done_ ∧ cm_index meta = i ∧ intact (w_fs w) paths meta) → i ∈ r))).
  - split; [done|]. intros i. split; [by intros ?%not_elem_of_nil|]. intros _ (? & ?%not_elem_of_nil & _). done.
  - intros done_ meta rest r w1 _ [Hst Hin]. wp_call wp_available_chunk; [|done].
    rewrite (stepped_fs _ _ Hst). intros r' w2 [Hst2 Hr]. split; [by etrans|]. intros i.
    assert (no_faults w1 ↔ no_faults w) as Hnf by (symmetry; by apply stepped_no_faults).
    setoid_rewrite elem_of_app. setoid_rewrite list_elem_of_singleton.
    destruct (Hin i) as [H1 H2]. destruct Hr as [[-> Hi]|[-> Hi]].
    + rewrite elem_of_app, list_elem_of_singleton. naive_solver.
    + naive_solver.
Qed.
Lemma wp_read_secret paths w (Q : EtleSecret → World → Prop) (R : FileError → World → Prop) :
  (∀ e w', stepped w w' → R e w') →
  (∀ b s w', file_at (w_fs w) (secret_path paths) = Some b → EtleSecret_from_bytes b = Ok s → stepped w w' → Q s w') →
  wp (read_secret paths) Q R w.
Proof.
  intros HR HQ. unfold read_secret. wp_simpl. apply wp_read_file; [intros; by apply HR|].
  intros b w1 Hb Hst. wp_simpl.
  assert (EtleSecret_from_bytes b ≠ Panic ∧ EtleSecret_from_bytes b ≠ Diverged) as [??] by apply decode_exact_total.
  destruct (EtleSecret_from_bytes b) as [s|e| |] eqn:Hs; [|by apply HR|done|done].
  cbn [result_map_err]. wp_simpl. unfold ensure_share_id. case_decide; wp_simpl; [by eapply HQ|by apply HR].
Qed.

Lemma total_manifest_from_descriptor d : total (manifest_from_descriptor d).
Proof. unfold manifest_from_descriptor, total. by repeat case_match. Qed.

Lemma wp_load_share root id w :
  wp (load_share root id) (λ s w', stepped w w' ∧ loaded root w id s) (λ _ w', stepped w w') w.
Proof.
  unfold load_share. wp_simpl. apply wp_read_descriptor; [done|]. intros b d w1 Hb Hd Hid Hv Hst1. wp_simpl.
  apply wp_read_secret; [intros; by etrans|]. intros b2 s w2 Hb2 Hs Hst2. wp_simpl.
  assert (stepped w w2) as Hst by (by etrans).
  destruct (total_manifest_from_descriptor d) as [??].
  destruct (manifest_from_descriptor d) as [mf| | |] eqn:Hm; [|done..]. wp_simpl.
  wp_call wp_available_chunk_indexes; [|done]. intros l w3 [Hst3 Hl]. wp_simpl. split; [by etrans|].
  rewrite (stepped_fs _ _ Hst) in Hl. rewrite (stepped_fs _ _ Hst1) in Hb2.
  assert (no_faults w2 ↔ no_faults w) as Hnf by (symmetry; by apply stepped_no_faults).
  split_and!; cbn [ls_paths ls_descriptor ls_secret ls_manifest ls_available_chunks]; [done|by exists b|by exists b2|done|].
  intros i. destruct (Hl i) as [Hl1 Hl2]. naive_solver.
Qed.
End loading.

Lemma loaded_listened `{Blake3} `{DiskFormat} root w0 w id s : listened w0 w → loaded root w id s → loaded root w0 id s.
Proof.
  intros [[E F] _]. assert (∀ p, file_at (w_fs w) p = file_at (w_fs w0) p) as Hf by (intros p; apply F; auto).
  unfold loaded, stored, stored_secret, intact, no_faults. setoid_rewrite Hf. by rewrite E.
Qed.

(** ** Any peer *)
Section any_session.
Context `{Blake3, X25519, Aead} `{Bincode WireMessage} `{DiskFormat}.

Lemma speaks_server_handshake id : speaks early (server_protocol_handshake id).
Proof.
  unfold server_protocol_handshake, server_hello_handshake, receive_hello, exchange_capabilities_as_server,
    send_local_capabilities, receive_and_validate_peer_capabilities. speak.
Qed.

Lemma speaks_server_exchange psk : speaks early (server_transfer_session_key_exchange psk).
Proof.
  unfold server_transfer_session_key_exchange, server_authenticated_session_key_exchange,
    server_session_key_exchange, server_unauthenticated_session_key_exchange, receive_key, receive_auth_proof. speak.
Qed.

(** The key exchange, where it is known that a peer that passes it has proved the
    pre-shared key. *)
Lemma wp_server_exchange psk w0 w :
  listened w0 w →
  wp (server_transfer_session_key_exchange psk)
    (λ k w', spoke early w w' ∧ granted psk w0 k) (λ _ w', spoke_part early w w') w.
Proof.
  intros [_ Hin]. destruct psk as [p|] eqn:Hpsk.
  - eapply wp_mono; [apply wp_and; [apply (speaks_server_exchange (Some p))|apply (wp_server_authenticated p)]| |].
    + cbn beta. intros k w' [Hs (a & b & Hp)]. split; [done|]. intros p' [= <-]. by exists w, a, b.
    + cbn beta. by intros e w' [Hs _].
  - wp_call (speaks_server_exchange None); [|done]. intros k w' Hs. split; [done|]. by intros p'.
Qed.

(** ** Serving a loaded share *)
Context (root : path) (psk : option AuthPsk) (w0 : World) (id : ShareId) (share : LoadedShare) (k : SymmetricKey).
Context (Hload : loaded root w0 id share) (Hk : granted psk w0 k).
Abbreviation P := (server_message root psk w0 id).

Lemma share_message m :
  match m with
  | ManifestMsg mf => mf = ls_manifest share
  | WrappedFileKeyMsg nonce data =>
      encrypt_chunk k nonce (array_data (symmetric_key_bytes (es_file_key (ls_secret share))))
        (build_file_key_aad (mf_file_id (ls_manifest share))) = Ok data
  | Have chunks => chunks = ls_available_chunks share
  | Chunk i data => i ∈ ls_available_chunks share ∧ file_at (w_fs w0) (chunk_path (for_share root id) i) = Some data
  | ErrorMsg _ => True
  | _ => False
  end → P m.
Proof using Hload Hk.
  destruct Hload as (Hp & Hd & Hs & Hm & Ha). intros Hmsg. right. exists k, (ls_descriptor share), (ls_manifest share).
  split_and!; [done..|]. rewrite Hp in Ha. destruct m; try done.
  - by exists (ls_secret share).
  - subst. apply Forall_forall. intros i Hi. apply Ha in Hi as (meta & Hin & Hix & d & Hf & _ & Hh). exists meta, d.
    rewrite Hix in Hf. done.
  - destruct Hmsg as [Hi Hf]. split; [done|]. apply Ha in Hi as (meta & Hin & Hix & d & Hf' & _ & Hh).
    exists meta. rewrite Hix in Hf'. split_and!; [done|done|]. congruence.
Qed.

Lemma speaks_header : speaks P (send_share_header k share).
Proof using Hload Hk.
  unfold send_share_header. cbv zeta. apply speaks_bind; [by apply speaks_send, share_message|]. intros _.
  intros w. wp_simpl. unfold wrap_file_key. wp_simpl. unfold generate_nonce. wp_simpl.
  unfold wp at 1. cbn [fill_bytes]. wp_simpl.
  set (nonce := mkNonce _). destruct (encrypt_chunk _ _ _ _) as [data| | |] eqn:He; wp_simpl.
  2: { by apply spoke_spoke_part, stepped_spoke. }
  2, 3: unfold encrypt_chunk, ok_or in He; by case_match.
  assert (spoke P w (tick w)) as Hs by (by apply stepped_spoke).
  eapply wp_mono; [apply (wp_send_spoke P); by apply share_message| |].
  - cbn beta. intros _ w2 Hs2. wp_simpl. eapply wp_mono; [apply (wp_send_spoke P (Have _)); by apply share_message| |].
    + cbn beta. intros _ w3 Hs3. etrans; [exact Hs|]. by etrans.
    + cbn beta. intros _ w3 Hs3. eapply spoke_part_trans; [|exact Hs3]. by etrans.
  - cbn beta. intros e w2 Hs2. by eapply spoke_part_trans.
Qed.

Lemma speaks_with_context s role action level done_ total_ index bytes :
  speaks P (with_context s role action level done_ total_ index bytes).
Proof.
  intros w. unfold with_context, with_context_label. destruct level; [by wp_simpl|..].
  all: unfold wp, report; (split; [split; [done|by exists []]|]); exists [], []; by rewrite app_nil_r.
Qed.

Lemma wp_answer_request action level served index w :
  listened w0 w →
  wp (answer_request id share action level served index) (λ _ w', spoke P w w') (λ _ w', spoke_part P w w') w.
Proof using Hload Hk.
  intros [[_ Hfs] _]. unfold answer_request. cbv zeta. case_decide as Hin.
  { apply (speaks_bind P); [by apply speaks_send, share_message|]. intros _. apply speaks_ret. }
  unfold ls_available_set in Hin. rewrite elem_of_list_to_set in Hin.
  wp_simpl. destruct (list_find _ _) as [[n meta]|]; cbn [fmap option_fmap option_map snd ok_or];
    [|by apply spoke_spoke_part].
  wp_simpl. destruct (Hload) as (Hp & _). rewrite Hp. apply wp_send_chunk_file.
  - intros e out w' Hs Hout _. destruct Hout as [->|(d & f & Hd & Hf & Hpre)].
    + eapply (sent_part_spoke _ (Chunk index [])); [by left|done].
    + eapply (sent_part_spoke _ (Chunk index d)); [|done]. right. split.
      * apply share_message. split; [done|]. rewrite <- Hfs by auto. done.
      * unfold frame_part. by rewrite Hf.
  - intros d f w1 Hd _ Hf Hs. wp_simpl.
    assert (spoke P w w1) as Hs1.
    { eapply sent_frame_spoke; [|done|done]. apply share_message. split; [done|]. rewrite <- Hfs by auto. done. }
    wp_call speaks_with_context.
    + intros _ w2 Hs2. wp_simpl. by etrans.
    + intros e w2 Hs2. by eapply spoke_part_trans.
Qed.

Lemma carries_nonempty f m : carries f m → f ≠ [].
Proof. intros [(ib & d & _ & _ & ->)|(b & pl & -> & _)] [_ Heq]%app_eq_nil; done. Qed.

Lemma wp_serve_chunks action level w :
  listened w0 w →
  wp (serve_chunks id share action level)
    (λ d w', spoke P w w' ∧ d = ls_descriptor share) (λ _ w', spoke_part P w w') w.
Proof using Hload Hk.
  intros Hl0. unfold serve_chunks. wp_simpl.
  apply (wp_mloop _ (λ _ w', spoke P w w') (λ _ w', length (w_in w'))); [done|lia|].
  intros served w1 Hs1. assert (listened w0 w1) as Hl1 by (etrans; [exact Hl0|apply Hs1]).
  unfold serve_round. case_decide; [|by wp_simpl]. wp_simpl. apply wp_receive_carries.
  - intros e w2 Hrx. assert (spoke P w w2) as Hs2 by (etrans; [exact Hs1|by apply rx_spoke]).
    cbn beta iota. destruct (is_peer_closed_protocol_error e); wp_simpl; [done|by apply spoke_spoke_part].
  - intros m f w2 Hc Hin _ Hst. assert (spoke P w1 w2) as Hs12.
    { apply rx_spoke. by eapply recv_step_rx. }
    assert (spoke P w w2) as Hs2 by (by etrans).
    assert (length (w_in w2) < length (w_in w1))%nat as Hlt.
    { rewrite Hin, length_app. apply carries_nonempty in Hc. destruct f; [done|]. simpl. lia. }
    destruct m; wp_simpl; try (by apply spoke_spoke_part); [done|].
    eapply wp_mono; [apply wp_answer_request; etrans; [exact Hl1|apply Hs12]| |].
    + cbn beta. intros served' w3 Hs3. wp_simpl. split; [by etrans|].
      destruct Hs3 as [[_ [pre Hpre]] _]. rewrite Hpre, length_app in Hlt. lia.
    + cbn beta. intros e w3 Hs3. by eapply spoke_part_trans.
Qed.
End any_session.

(** The peer asked for the share [id]. *)
Definition requested `{Bincode WireMessage} (w : World) (id : ShareId) : Prop :=
  ∃ pre f rest, w_in w = pre ++ f ++ rest ∧ carries f (RequestShare id).

Section sessions.
Context `{Blake3, X25519, Aead} `{Bincode WireMessage} `{DiskFormat}.

Lemma early_server root psk w id m : early m → server_message root psk w id m.
Proof. by left. Qed.

Lemma wp_receive_requested_share w :
  wp receive_requested_share
    (λ id w', rx w w' ∧ ∃ f, carries f (RequestShare id) ∧ w_in w = f ++ w_in w') (λ _ w', rx w w') w.
Proof.
  unfold receive_requested_share. wp_simpl. apply wp_receive_carries; [done|]. intros m f w' Hc Hin _ Hst.
  assert (rx w w') by (by eapply recv_step_rx). destruct m; wp_simpl; eauto.
Qed.

(** Handshake and key exchange, before anything else or after the share was loaded. *)
Lemma wp_open_session {A} name psk w0 w (j : SymmetricKey → net A) (Q : A → World → Prop)
    (R : NetworkError → World → Prop) :
  listened w0 w →
  (∀ e w', spoke_part early w w' → R e w') →
  (∀ k w', spoke early w w' → granted psk w0 k → wp (j k) Q R w') →
  wp (let! _remote_peer_id := server_protocol_handshake name in
      let! session_key := server_transfer_session_key_exchange psk in
      j session_key) Q R w.
Proof.
  intros Hl HR HQ. wp_simpl. wp_call (speaks_server_handshake name); [|done]. intros _ w1 Hs1. wp_simpl.
  wp_call (wp_server_exchange psk w0).
  - etrans; [exact Hl|apply Hs1].
  - intros k w2 [Hs2 Hk]. apply HQ; [by etrans|done].
  - intros e w2 Hs2. apply HR. by eapply spoke_part_trans.
Qed.

Lemma wp_serve_share root psk w0 w id share k action level :
  listened w0 w → loaded root w0 id share → granted psk w0 k →
  wp (do! send_share_header k share in serve_chunks id share action level)
    (λ d w', d = ls_descriptor share ∧ spoke (server_message root psk w0 id) w w')
    (λ _ w', spoke_part (server_message root psk w0 id) w w') w.
Proof.
  intros Hl Hload Hk. wp_simpl. wp_call speaks_header; [done|done| |done]. intros _ w1 Hs1.
  wp_call (wp_serve_chunks root psk w0); [done|done|etrans; [exact Hl|apply Hs1]| |].
  - intros d w2 [Hs2 ->]. split; [done|]. by etrans.
  - intros e w2 Hs2. by eapply spoke_part_trans.
Qed.

Lemma wp_library_connected_peer root options w :
  wp (library_connected_peer root options)
    (λ d w', ∃ id, requested w id ∧ stored root w id d ∧ spoke (server_message root (so_auth_psk options) w id) w w')
    (λ _ w', spoke_part early w w'
             ∨ ∃ id, requested w id ∧ spoke_part (server_message root (so_auth_psk options) w id) w w') w.
Proof.
  unfold library_connected_peer. apply (wp_open_session _ _ w); [done|intros e w' ?; by left|].
  intros k w2 Hs2 Hk. wp_simpl. wp_call wp_receive_requested_share.
  2: { intros e w3 Hrx. left. apply spoke_spoke_part. etrans; [exact Hs2|by apply rx_spoke]. }
  intros id w3 [Hrx (f & Hc & Hin)]. wp_simpl.
  assert (spoke early w w3) as Hs3 by (etrans; [exact Hs2|by apply rx_spoke]).
  assert (requested w id) as Hreq.
  { destruct Hs2 as [[_ [pre Hpre]] _]. exists pre, f, (w_in w3). by rewrite Hpre, Hin. }
  wp_call wp_load_share.
  2: { intros e w4 Hst. left. apply spoke_spoke_part. etrans; [exact Hs3|by apply stepped_spoke]. }
  intros share w4 [Hst4 Hload]. apply (loaded_listened _ w) in Hload; [|apply Hs3].
  assert (spoke early w w4) as Hs4 by (etrans; [exact Hs3|by apply stepped_spoke]).
  pose proof (spoke_mono _ _ _ _ (early_server root (so_auth_psk options) w id) Hs4) as Hs4'.
  wp_call (wp_serve_share root (so_auth_psk options) w); [apply Hs4|done|done| |].
  - intros d w5 [-> Hs5]. exists id. split_and!; [done|apply Hload|by etrans].
  - intros e w5 Hs5. right. exists id. split; [done|]. by eapply spoke_part_trans.
Qed.

Lemma wp_share_connected_peer root id options w :
  wp (share_connected_peer root id options)
    (λ d w', stored root w id d ∧ spoke (server_message root (so_auth_psk options) w id) w w')
    (λ _ w', spoke_part (server_message root (so_auth_psk options) w id) w w') w.
Proof.
  unfold share_connected_peer. wp_simpl. wp_call wp_load_share.
  2: { intros e w1 Hst. by apply spoke_spoke_part, stepped_spoke. }
  intros share w1 [Hst1 Hload]. pose proof (early_server root (so_auth_psk options) w id) as Hearly.
  assert (∀ P, spoke P w w1) as Hs1 by (intros; by apply stepped_spoke).
  apply (wp_open_session _ _ w); [apply (Hs1 early)| |].
  - intros e w2 Hs2. eapply spoke_part_trans; [apply Hs1|]. by eapply spoke_part_mono.
  - intros k w2 Hs2 Hk. apply (spoke_mono _ _ _ _ Hearly) in Hs2.
    assert (spoke (server_message root (so_auth_psk options) w id) w w2) as Hs02 by (etrans; [apply Hs1|done]).
    wp_call (wp_serve_share root (so_auth_psk options) w); [apply Hs02|done|done| |].
    + intros d w3 [-> Hs3]. split; [apply Hload|by etrans].
    + intros e w3 Hs3. by eapply spoke_part_trans.
Qed.
End sessions.

(** * The abstract server

    What a server that has the chunks [available], with the given data, answers to
    a sequence of messages, until all [total] chunks are served or known. *)
Section abstract_server.
Context (available : gset Z) (content : Z → bytes) (total_chunks : Z).

Fixpoint answers (served : gset Z) (ms : list WireMessage) : list WireMessage * option WireMessage :=
  if decide (total_chunks ≤ Z.of_nat (size served)) then ([], None)
  else
    match ms with
    | [] => ([], None)
    | Have chunks :: ms => answers (served ∪ (list_to_set chunks ∩ available)) ms
    | RequestChunk index :: ms =>
        if decide (index ∈ available)
        then let r := answers ({[index]} ∪ served) ms in (Chunk index (content index) :: r.1, r.2)
        else let r := answers served ms in (not_available index :: r.1, r.2)
    | m :: _ => ([], Some m)
    end.
End abstract_server.

Lemma note_known_set available served chunks :
  note_known available served chunks = served ∪ (list_to_set chunks ∩ available).
Proof.
  unfold note_known. revert served. induction chunks as [|i chunks IH]; intros served; simpl; [set_solver|].
  rewrite IH. case_decide; set_solver.
Qed.

Section refinement.
Context `{Blake3} `{WireBincodeLaws}.
Context (id : ShareId) (share : LoadedShare) (action : string) (content : Z → bytes).

(** The share's chunk files, as the server finds them. *)
Definition serves (m : fs) : Prop :=
  NoDup (cm_index <$> d_chunks (ls_descriptor share))
  ∧ ∀ i, i ∈ ls_available_chunks share →
      file_at m (chunk_path (ls_paths share) i) = Some (content i)
      ∧ ∃ meta, meta ∈ d_chunks (ls_descriptor share) ∧ cm_index meta = i ∧ zlen (content i) = cm_encrypted_size meta.

Abbreviation total_chunks := (zlen (d_chunks (ls_descriptor share))).
Abbreviation replies := (answers (ls_available_set share) content total_chunks).

Lemma find_meta meta :
  NoDup (cm_index <$> d_chunks (ls_descriptor share)) → meta ∈ d_chunks (ls_descriptor share) →
  ∃ n, list_find (λ chunk, cm_index chunk = cm_index meta) (d_chunks (ls_descriptor share)) = Some (n, meta).
Proof.
  intros Hnd Hin. destruct (list_find_elem_of (λ chunk, cm_index chunk = cm_index meta) _ meta Hin eq_refl) as [[n meta'] Hf].
  exists n. rewrite Hf. apply list_find_Some in Hf as (Hn & Heq & _).
  apply list_elem_of_lookup_1 in Hin as [n' Hn'].
  assert (n = n') as <-.
  { eapply NoDup_lookup; [exact Hnd| |]; rewrite list_lookup_fmap; [rewrite Hn|rewrite Hn']; cbn; by rewrite ?Heq. }
  congruence.
Qed.

(** Answering one request. *)
Lemma wp_answer_request_ok served index f w :
  no_faults w → serves (w_fs w) →
  frame (if decide (index ∈ ls_available_set share) then Chunk index (content index) else not_available index) = Ok f →
  wp (answer_request id share action Quiet served index)
    (λ served' w', sent w f w' ∧
       served' = if decide (index ∈ ls_available_set share) then {[index]} ∪ served else served) (λ _ _, False) w.
Proof.
  intros Hnf [Hnd Hs] Hf. unfold answer_request. cbv zeta. destruct (decide (index ∈ ls_available_set share)) as [Hin|Hin].
  - rewrite decide_False by auto. pose proof Hin as Hin'. unfold ls_available_set in Hin'. rewrite elem_of_list_to_set in Hin'.
    destruct (Hs index Hin') as (Hfile & meta & Hm & <- & Hsz). destruct (find_meta meta Hnd Hm) as [n Hfind].
    wp_simpl. rewrite Hfind. cbn [fmap option_fmap option_map snd ok_or]. wp_simpl. apply wp_send_chunk_file.
    + intros e out w' _ _ Hwhy. destruct (Hwhy Hnf) as [?|(d & Hd & Hor)]; [congruence|].
      assert (d = content (cm_index meta)) as -> by congruence. destruct Hor as [[_ ?]|[_ ?]]; congruence.
    + intros d f' w' Hd _ Hf' Hst. assert (d = content (cm_index meta)) as -> by congruence.
      assert (f' = f) as -> by congruence. unfold with_context, with_context_label. by wp_simpl.
  - rewrite decide_True by auto. wp_simpl. apply wp_send.
    + intros e out w' _ Hwhy. specialize (Hwhy Hnf). congruence.
    + intros f' w' Hf' Hst. assert (f' = f) as -> by congruence. by wp_simpl.
Qed.

(** At the end of the stream the peer has closed the connection. *)
Lemma wp_receive_eof (Q : WireMessage → World → Prop) (R : ProtocolError → World → Prop) w :
  no_faults w → w_in w = [] → (∀ w', stepped w w' → R (PE_Io UnexpectedEof) w') → wp receive Q R w.
Proof.
  intros Hnf Hin HR. unfold receive, read_frame_len. wp_simpl. unfold read_exact. apply wp_faulty.
  - intros f Hf. by destruct (fault_not_no_faults _ _ Hf).
  - intros _. unfold wp. cbn [w_in tick]. rewrite Hin. cbn [length]. rewrite decide_True by lia. apply HR.
    unfold stepped, set_in, tick. cbn. by rewrite Hin.
Qed.

(** What the whole loop did. *)
Definition answered (w : World) (out : bytes) (w' : World) : Prop :=
  w_out w' = w_out w ++ out ∧ w_fs w' = w_fs w.

Lemma answered_step w o1 w1 o2 w2 : sent w o1 w1 → answered w1 o2 w2 → answered w (o1 ++ o2) w2.
Proof.
  intros Hs [Ho Hf]. split; [by rewrite Ho, (sent_out _ _ _ Hs), app_assoc|]. by rewrite Hf, (sent_fs _ _ _ Hs).
Qed.

Lemma wp_serve_rounds fuel ms served fs out w :
  no_faults w → serves (w_fs w) → frames ms = Ok fs → Forall message_wf ms → w_in w = fs →
  frames (replies served ms).1 = Ok out → (length ms < fuel)%nat →
  wp (mloop fuel (serve_round id share action Quiet) served)
    (λ d w', d = ls_descriptor share ∧ (replies served ms).2 = None ∧ answered w out w')
    (λ e w', ∃ m, (replies served ms).2 = Some m ∧ e = UnexpectedMessage "Have or RequestChunk" m ∧ answered w out w') w.
Proof.
  revert fuel served fs out w. induction ms as [|m ms IH]; intros fuel served fs out w Hnf Hs Hfs Hwf Hin Hout Hfuel;
    (destruct fuel as [|fuel]; [simpl in Hfuel; lia|]); cbn [mloop answers] in *; unfold serve_round at 1.
  - injection Hfs as <-. assert (out = []) as -> by (case_decide; cbn in Hout; congruence).
    assert (∀ w', stepped w w' → answered w [] w') as Hnil.
    { intros w' (_&F&_&O&_). split; [by rewrite app_nil_r|done]. }
    destruct (decide (total_chunks ≤ Z.of_nat (size served))).
    + rewrite decide_False by lia. wp_simpl. split_and!; [done|done|by apply Hnil].
    + rewrite decide_True by lia. wp_simpl. apply wp_receive_eof; [done|done|]. intros w' Hst. cbn. auto.
  - destruct (decide (total_chunks ≤ Z.of_nat (size served))) as [Hd|Hd].
    { rewrite decide_False by lia. wp_simpl. injection Hout as <-. split_and!; [done|done|]. split; [by rewrite app_nil_r|done]. }
    rewrite decide_True by lia. apply frames_cons in Hfs as (f & fs' & Hf & Hms & ->). apply Forall_cons in Hwf as [Hw1 Hwf]. simpl in Hfuel.
    wp_simpl. eapply wp_receive_frame; [exact Hf|done|exact Hin|done|]. intros w1 Hst1.
    pose proof (recv_step_in _ _ _ Hst1) as Hin1. pose proof (proj1 (recv_step_no_faults _ _ _ Hst1) Hnf) as Hnf1.
    assert (w_fs w1 = w_fs w ∧ w_out w1 = w_out w) as [Hfs1 Ho1] by (by destruct Hst1 as (_&->&_&->&_)).
    assert (answered w [] w1) as Hans1 by (split; [by rewrite app_nil_r|done]).
    destruct m; wp_simpl; try (eexists; injection Hout as <-; by split_and!).
    + rewrite note_known_set. wp_call IH; [done|by rewrite Hfs1|done|done|done|exact Hout|lia| |].
      * intros d w2 (-> & -> & Ho & Hff). split_and!; [done|done|]. split; congruence.
      * intros e w2 (m & -> & -> & Ho & Hff). exists m. split_and!; [done|done|]. split; congruence.
    + assert (∃ fa o2, frame (if decide (index ∈ ls_available_set share) then Chunk index (content index) else not_available index) = Ok fa
                ∧ frames (replies (if decide (index ∈ ls_available_set share) then {[index]} ∪ served else served) ms).1 = Ok o2
                ∧ out = fa ++ o2) as (fa & o2 & Hfa & Ho2 & ->).
      { case_decide; cbn [fst] in Hout; apply frames_cons in Hout; naive_solver. }
      wp_call wp_answer_request_ok; [done|by rewrite Hfs1|exact Hfa| |done]. intros served' w2 [Hs2 ->]. wp_simpl.
      assert (w_in w2 = fs' ∧ w_fs w2 = w_fs w ∧ sent w1 fa w2) as (Hin2 & Hfs2 & _).
      { destruct Hs2 as (?&F2&I2&?). cbn in F2, I2. by rewrite I2, F2. }
      assert (∀ o w3, answered w2 o w3 → answered w (fa ++ o) w3) as Hstep.
      { intros o w3 Ha. pose proof (answered_step _ _ _ _ _ Hs2 Ha) as [??]. split; congruence. }
      wp_call IH; [by apply (sent_no_faults _ _ _ Hs2)|by rewrite Hfs2|done|done|done|exact Ho2|lia| |].
      * intros d w3 (-> & Hn & Ha). split_and!; [done| |by apply Hstep]. by case_decide.
      * intros e w3 (m & Hn & -> & Ha). exists m. split_and!; [|done|by apply Hstep]. by case_decide.
Qed.

Lemma frames_length ms fs : frames ms = Ok fs → (length ms ≤ length fs)%nat.
Proof.
  revert fs. induction ms as [|m ms IH]; intros fs Hfs; [simpl; lia|].
  apply frames_cons in Hfs as (f & fs' & Hf & Hms & ->). specialize (IH _ Hms). rewrite length_app. cbn [length].
  destruct (frame_cases m f Hf) as [(?&?&_&->&_)|(?&?&_&->&_)]; rewrite length_app; simpl; lia.
Qed.
(** The whole loop. *)
Lemma serve_run ms fs out w :
  no_faults w → serves (w_fs w) → frames ms = Ok fs → Forall message_wf ms → w_in w = fs →
  frames (replies ∅ ms).1 = Ok out →
  ∃ w', serve_chunks id share action Quiet w
        = (match (replies ∅ ms).2 with
           | None => Ok (ls_descriptor share)
           | Some m => Err (UnexpectedMessage "Have or RequestChunk" m)
           end, w')
        ∧ w_out w' = w_out w ++ out ∧ w_fs w' = w_fs w.
Proof.
  intros Hnf Hs Hfs Hwf Hin Hout. unfold serve_chunks. rewrite (bind_Ok _ _ _ (S (length (w_in w))) w) by done.
  destruct (wp_run _ _ _ _ (wp_serve_rounds (S (length (w_in w))) ms ∅ fs out w Hnf Hs Hfs Hwf Hin Hout
    ltac:(rewrite Hin; pose proof (frames_length _ _ Hfs); lia)))
    as [(d & w' & Hrun & -> & Hr & Ho)|(e & w' & Hrun & m & Hr & -> & Ho)];
    exists w'; rewrite Hr; by split.
Qed.
End refinement.

(** * Claims *)

(** C3: serving is safe against any peer and any failure: a session always
    returns, changes no file, and writes only whole frames (and, when it fails,
    possibly the beginning of one more) of these messages: greetings and key
    exchange; and, only after the peer proved the pre-shared key where one is
    set, the manifest of the requested share, its file key encrypted under that
    session's key, the numbers of chunks whose stored data match their hashes,
    such chunks' data, and refusals. *)
Theorem serve_safe `{Blake3, X25519, Aead} `{Bincode WireMessage} `{DiskFormat} root options share_id w :
  let psk := so_auth_psk options in
  match library_connected_peer root options w with
  | (Ok d, w') => ∃ id, requested w id ∧ stored root w id d ∧ spoke (server_message root psk w id) w w'
  | (Err _, w') =>
      spoke_part early w w' ∨ ∃ id, requested w id ∧ spoke_part (server_message root psk w id) w w'
  | _ => False
  end
  ∧ match share_connected_peer root share_id options w with
    | (Ok d, w') => stored root w share_id d ∧ spoke (server_message root psk w share_id) w w'
    | (Err _, w') => spoke_part (server_message root psk w share_id) w w'
    | _ => False
    end.
Proof.
  split; [pose proof (wp_library_connected_peer root options w) as Hwp
         |pose proof (wp_share_connected_peer root share_id options w) as Hwp];
    unfold wp in Hwp; by repeat case_match.
Qed.

(** C8: a server whose share is loaded and whose chunk files are in place refines
    the abstract server: given any messages of the peer, after which the peer
    closes, it writes exactly the abstract server's answers, changes no file, and
    ends in success unless the abstract server meets a message it does not
    expect, which it reports. *)
Theorem serve_refines `{Blake3} `{WireBincodeLaws} id share action content ms fs out w :
  no_faults w → serves share content (w_fs w) → frames ms = Ok fs → Forall message_wf ms → w_in w = fs →
  let r := answers (ls_available_set share) content (zlen (d_chunks (ls_descriptor share))) ∅ ms in
  frames r.1 = Ok out →
  ∃ w', serve_chunks id share action Quiet w
        = (match r.2 with
           | None => Ok (ls_descriptor share)
           | Some m => Err (UnexpectedMessage "Have or RequestChunk" m)
           end, w')
        ∧ w_out w' = w_out w ++ out ∧ w_fs w' = w_fs w.
Proof.
  intros Hnf Hs Hfs Hwf Hin r Hout. by apply serve_run with (fs := fs).
Qed.

(** * A concrete session *)
Import Toy WireSample DiskSample.
Module ServeSample.
Definition chunk0 : bytes := str_bytes "data".
Definition meta (i : Z) : ChunkMeta :=
  mkChunkMeta i 3 4 (mkNonce (array_repeat 24 Byte.x02)) (hash_chunk chunk0).
Definition descriptor : EtleDescriptor :=
  EtleDescriptor_new "file" 6 3 [mkFileEntry "file" 6 0 (hash_file_id [])] [meta 0; meta 1].
Definition share_id : ShareId := d_share_id descriptor.
Definition share : LoadedShare :=
  mkLoadedShare (for_share [] share_id) descriptor (mkEtleSecret share_id (CryptoSample.key Byte.x05))
    (mkManifest (hash_file_id []) "file" 6 3 [meta 0; meta 1]) [0].
Definition messages : list WireMessage := [Have [5]; RequestChunk 0; RequestChunk 1; RequestManifest].
Definition bytes_of (ms : list WireMessage) : bytes := match frames ms with Ok f => f | _ => [] end.
Definition world : World :=
  CryptoSample.world {[ chunk_path (for_share [] share_id) 0 := File chunk0 ]} (bytes_of messages).
End ServeSample.

Lemma serve_refines_witness :
  ∃ w', serve_chunks ServeSample.share_id ServeSample.share "served" Quiet ServeSample.world
        = (Err (UnexpectedMessage "Have or RequestChunk" RequestManifest), w')
        ∧ w_out w' = w_out ServeSample.world
            ++ ServeSample.bytes_of [Chunk 0 ServeSample.chunk0; not_available 1]
        ∧ w_fs w' = w_fs ServeSample.world.
Proof.
  apply (serve_refines ServeSample.share_id ServeSample.share "served" (λ _, ServeSample.chunk0)
    ServeSample.messages (ServeSample.bytes_of ServeSample.messages)
    (ServeSample.bytes_of [Chunk 0 ServeSample.chunk0; not_available 1]) ServeSample.world).
  - by intros n.
  - split; [by_decide|]. intros i Hi. apply list_elem_of_singleton in Hi as ->. split; [vm_compute; reflexivity|].
    exists (ServeSample.meta 0). split_and!; [left|reflexivity|vm_compute; reflexivity].
  - vm_compute. reflexivity.
  - repeat (constructor; [exact I|]). constructor.
  - reflexivity.
  - vm_compute. reflexivity.
Defined.
