(* ===== verification/Transfer.v ===== *)
(** A server and a downloader together: the transfer succeeds.

    The other files show that nothing wrong happens, whatever the peer sends. Here
    the peer is the server of [Serve], no operation fails, and the downloader
    starts from an absent share: the server's answers are what the downloader
    waits for, the downloader's requests are what the server answers, and the
    output file is the file that was shared. *)
From stdpp Require Import base tactics list countable strings gmap.
From Stdlib Require Import ZArith Lia.
From S2P Require Import Prelude Bytes World Files Extern Crypto Descriptor Storage State Library Codec Handshake DownloadState Reconstruct Download Swarm Seed Serve.
Local Open Scope Z_scope.
Local Open Scope etle_scope.

(** * A library in which nothing stands in the way *)
Section ready.
Context (paths : LibraryPaths) (base : fs).

(** A file of the share that is not hidden. *)
Definition plain_path (q : path) : Prop :=
  ∃ dir name, q = dir ++ [name] ∧ plain_name name ∧ share_dir paths `prefix_of` dir.

(** Only such files were created, replaced or removed. *)
Definition plain_change (m m' : fs) : Prop :=
  ∀ q, m' !! q = m !! q ∨ (plain_path q ∧ m' !! q ≠ Some Dir ∧ m !! q ≠ Some Dir).

Lemma plain_change_insert m p d : plain_path p → m !! p ≠ Some Dir → plain_change m (<[p := File d]> m).
Proof.
  intros Hp Hd q. destruct (decide (q = p)) as [->|]; [right|left; by apply lookup_insert_ne].
  by rewrite lookup_insert_eq.
Qed.

Lemma plain_change_trans m1 m2 m3 : plain_change m1 m2 → plain_change m2 m3 → plain_change m1 m3.
Proof.
  intros H1 H2 q. destruct (H1 q) as [E1|(P1 & D1 & D1')], (H2 q) as [E2|(P2 & D2 & D2')].
  - left. congruence.
  - right. split_and!; [done|done|congruence].
  - right. split_and!; [done|congruence|done].
  - by right.
Qed.

Lemma dir_ok_change m m' dir pid P : plain_change m m' → dir_ok m dir pid P → dir_ok m' dir pid P.
Proof.
  intros Hc (Hne & Hanc & HP & Htmp). split_and!; [done| | |].
  - rewrite Forall_forall in Hanc |- *. intros q Hq. destruct (Hc q) as [->|(_ & _ & Hd)]; [by apply Hanc|].
    by destruct Hd; apply Hanc.
  - intros name Hn. destruct (Hc (dir ++ [name])) as [->|(_ & Hd & _)]; [by apply HP|done].
  - intros name t. destruct (Hc (dir ++ [tmp_name name pid t])) as [->|((d & n & Heq & Hpl & _) & _)]; [by apply Htmp|].
    apply app_inj_tail in Heq as [_ <-]. destruct Hpl. apply tmp_name_head.
Qed.

(** An output outside the share can still be created. *)
Lemma can_output_change m m' out :
  ¬ share_dir paths `prefix_of` out → plain_change m m' → can_output m out → can_output m' out.
Proof.
  intros Hout Hc (Hne & Hd & Hnd).
  assert (∀ q, q `prefix_of` out → m' !! q = m !! q) as Hq.
  { intros q Hp. destruct (Hc q) as [?|((d & n & -> & _ & Hs) & _)]; [done|]. destruct Hout.
    etrans; [exact Hs|]. etrans; [by apply prefix_app_r|exact Hp]. }
  destruct (path_snoc out Hne) as (o & y & ->). rewrite parent_snoc in Hd.
  split_and!; [done| |by rewrite Hq]. rewrite parent_snoc. destruct Hd as [H1 H2].
  assert (∀ q, q `prefix_of` o → file_at m' q = file_at m q) as Hf
    by (intros q Hp; unfold file_at; rewrite Hq; [done|by apply prefix_app_r]).
  split; [by rewrite Hf|]. rewrite Forall_forall in H2 |- *. intros q Ha. rewrite Hf; [by apply H2|].
  by apply elem_of_ancestors in Ha as [_ ?].
Qed.

(** No operation fails, and since [base] only files of the share changed. *)
Definition ready (w : World) : Prop :=
  no_faults w ∧ share_ok w paths ∧ (∀ i t, w_fs w !! (chunks_dir paths ++ [part_name i t]) ≠ Some Dir)
  ∧ plain_change base (w_fs w).

Lemma ready_change w w' : w_env w' = w_env w → plain_change (w_fs w) (w_fs w') → ready w → ready w'.
Proof.
  intros He Hc (Hnf & [H1 H2] & Hp & Hb). split_and!.
  - by eapply no_faults_env.
  - unfold share_ok. rewrite He. split; by eapply dir_ok_change.
  - intros i t. destruct (Hc (chunks_dir paths ++ [part_name i t])) as [->|(_ & Hd & _)]; [apply Hp|done].
  - by eapply plain_change_trans.
Qed.

Lemma ready_same w w' : w_env w' = w_env w → w_fs w' = w_fs w → ready w → ready w'.
Proof. intros He Hf. apply ready_change; [done|]. rewrite Hf. by left. Qed.

Lemma ready_stepped w w' : stepped w w' → ready w → ready w'.
Proof. intros (He & Hf & _). by apply ready_same. Qed.

Lemma chunks_dir_prefix : share_dir paths `prefix_of` chunks_dir paths.
Proof. by apply prefix_app_r. Qed.

Lemma chunk_plain i : 0 ≤ i → plain_path (chunk_path paths i).
Proof.
  intros Hi. exists (chunks_dir paths), (chunk_file_name i).
  split_and!; [done|by apply chunk_file_name_plain|apply chunks_dir_prefix].
Qed.

Lemma part_plain i t : 0 ≤ i → plain_path (chunks_dir paths ++ [part_name i t]).
Proof. intros Hi. eexists _, _. split_and!; [done|by apply part_name_plain|apply chunks_dir_prefix]. Qed.

Lemma share_file_path_plain name : share_file name → plain_path (share_dir paths ++ [name]).
Proof. intros Hn. eexists _, _. split_and!; [done|by apply share_file_plain|done]. Qed.

Lemma ready_chunk w i : ready w → 0 ≤ i → w_fs w !! chunk_path paths i ≠ Some Dir.
Proof. intros (_ & [_ (_ & _ & HP & _)] & _) Hi. apply HP. by exists i. Qed.

Lemma ready_can_receive w i t : ready w → can_receive (w_fs w) (chunks_dir paths ++ [part_name i t]).
Proof.
  intros (_ & [_ Hok] & Hp & _). split_and!; [by destruct (chunks_dir paths)| |apply Hp].
  rewrite parent_snoc. by eapply dir_ok_free.
Qed.

(** The chunk files are the ones they were. *)
Definition same_chunks (w w' : World) : Prop :=
  ∀ i, u32_range i → file_at (w_fs w') (chunk_path paths i) = file_at (w_fs w) (chunk_path paths i).
(** Only the metadata of the share was rewritten. *)
Definition meta_step (w w' : World) : Prop :=
  ready w' ∧ same_io w w' ∧ keeps (meta_files paths) w w'.

Lemma meta_chunks w w' : keeps (meta_files paths) w w' → same_chunks w w'.
Proof. intros Hk i _. by eapply keeps_meta_chunk. Qed.

Lemma meta_step_trans w1 w2 w3 : meta_step w1 w2 → meta_step w2 w3 → meta_step w1 w3.
Proof. intros (R1 & [I1 O1] & K1) (R2 & [I2 O2] & K2). split_and!; [done|split; congruence|by etrans]. Qed.

Lemma stepped_meta w w' : stepped w w' → ready w → meta_step w w'.
Proof.
  intros Hst Hr. split_and!; [by eapply ready_stepped| |by apply stepped_keeps]. by destruct Hst as (_&_&?&?&_).
Qed.

(** Writing one of the files of the share. *)
Lemma wp_write_meta name id encoded data w :
  ready w → share_file name → lp_share_id paths = id → encoded = Ok data →
  wp (write_share_file paths id (share_dir paths ++ [name]) encoded false)
    (λ _ w', meta_step w w' ∧ file_at (w_fs w') (share_dir paths ++ [name]) = Some data) (λ _ _, False) w.
Proof.
  intros Hr Hn Hid Henc. pose proof Hr as (Hnf & Hok & _).
  eapply wp_mono; [apply (wp_write_share_file paths id name encoded data); done| |done].
  cbn beta. intros _ w' [Hst _]. pose proof (fs_step_fs _ _ _ Hst) as Hf. split; [split_and!|].
  - apply (ready_change w); [apply Hst| |exact Hr]. rewrite Hf. apply plain_change_insert.
    + by apply share_file_path_plain.
    + destruct Hok as [(_ & _ & HP & _) _]. by apply HP.
  - by destruct Hst as (_&_&?&?&_).
  - eapply fs_step_keeps; [done|]. intros q Hq. apply file_at_insert_ne. intros <-. apply Hq. by exists name.
  - rewrite Hf. apply file_at_insert_eq.
Qed.
End ready.

(** * The steps of a download, without failures *)
Section steps.
Context `{Blake3Laws} `{WireBincodeLaws} `{DiskEncodes}.
Context (paths : LibraryPaths) (base : fs).

Abbreviation ready := (ready paths base).
Abbreviation meta_step := (meta_step paths base).

Lemma wp_write_progress_ready p w :
  ready w → dp_share_id p = lp_share_id paths → Forall u32_range (dp_completed_chunks p) →
  wp (write_progress paths p) (λ _ w', meta_step w w') (λ _ _, False) w.
Proof using All.
  intros Hr Hid Hp. destruct (progress_encodes p Hp) as [b Hb]. unfold write_progress.
  eapply wp_mono; [apply wp_write_meta; [exact Hr| |done|exact Hb]| |done].
  - unfold share_file. set_solver.
  - by intros _ w' [? _].
Qed.

Lemma wp_write_state_ready s w :
  ready w → ss_share_id s = lp_share_id paths → Forall u32_range (ss_completed_chunks s) →
  wp (write_state paths s) (λ _ w', meta_step w w') (λ _ _, False) w.
Proof using All.
  intros Hr Hid Hs. destruct (state_encodes s Hs) as [b Hb]. unfold write_state.
  eapply wp_mono; [apply wp_write_meta; [exact Hr| |done|exact Hb]| |done].
  - unfold share_file. set_solver.
  - by intros _ w' [? _].
Qed.

(** The library state of the share. *)
Definition active (st : ActiveDownloadLibraryState) : Prop :=
  ad_paths st = paths ∧ dp_share_id (ad_progress st) = lp_share_id paths ∧ progress_wf (ad_progress st).

Lemma wp_flush_ready st mode out w :
  ready w → active st →
  wp (flush_download_progress st mode out)
    (λ st' w', meta_step w w' ∧ active st' ∧ ad_progress st' = ad_progress st) (λ _ _, False) w.
Proof using All.
  intros Hr (Hp & Hid & Hwf). unfold flush_download_progress. rewrite Hp. wp_simpl.
  eapply wp_mono; [apply wp_write_progress_ready; [done|done|apply Hwf]| |done].
  cbn beta. intros _ w1 Hm1. wp_simpl.
  eapply wp_mono; [apply wp_write_state_ready; [apply Hm1|done|apply from_progress_range, Hwf]| |done].
  cbn beta. intros _ w2 Hm2. wp_simpl. apply wp_now. intros t w3 Hst. wp_simpl. split; [|split; [by split_and!|done]].
  eapply meta_step_trans; [exact Hm1|]. eapply meta_step_trans; [exact Hm2|]. apply stepped_meta; [done|apply Hm2].
Qed.

Lemma wp_maybe_flush_ready st out w :
  ready w → active st →
  wp (maybe_flush_download_progress st out)
    (λ st' w', meta_step w w' ∧ active st' ∧ ad_progress st' = ad_progress st) (λ _ _, False) w.
Proof using All.
  intros Hr Ha. unfold maybe_flush_download_progress, should_flush_download_progress. wp_simpl.
  case_decide; wp_simpl; [by apply wp_flush_ready|]. apply wp_now. intros t w1 Hst. wp_simpl.
  pose proof (stepped_meta _ _ _ _ Hst Hr) as Hm1. case_bool_decide; wp_simpl; [|done].
  eapply wp_mono; [apply wp_flush_ready; [apply Hm1|done]| |done]. cbn beta. intros st' w2 (Hm2 & ? & ?).
  split_and!; [by eapply meta_step_trans|done|done].
Qed.

Lemma wp_complete_ready st out w :
  ready w → active st →
  wp (mark_download_library_complete (Some st) out) (λ _ w', meta_step w w') (λ _ _, False) w.
Proof using All.
  intros Hr Ha. cbn [mark_download_library_complete]. wp_simpl.
  eapply (wp_mono _ (λ st' w', meta_step w w' ∧ active st') _ (λ _ _, False)).
  - case_decide; [|wp_simpl; split; [by apply stepped_meta|done]].
    eapply wp_mono; [by apply wp_flush_ready| |done]. by intros st' w' (? & ? & _).
  - intros st' w1 [Hm1 (Hp & Hid & Hwf)]. wp_simpl. rewrite Hp.
    eapply wp_mono; [apply wp_write_state_ready; [apply Hm1|done|apply from_progress_range, Hwf]| |done].
    cbn beta. intros _ w2 Hm2. wp_simpl. by eapply meta_step_trans.
  - done.
Qed.

Lemma wp_store_ready i temp d w :
  ready w → 0 ≤ i → part_file paths i temp ∨ part_file paths 0 temp → file_at (w_fs w) temp = Some d →
  wp (store_chunk_file paths i temp)
    (λ _ w', ready w' ∧ fs_step w (<[chunk_path paths i := File d]> (delete temp (w_fs w))) w') (λ _ _, False) w.
Proof using All.
  intros Hr Hi Ht Hd. pose proof Hr as (Hnf & [_ Hok] & _). unfold store_chunk_file. wp_simpl.
  assert (∃ j t, 0 ≤ j ∧ temp = chunks_dir paths ++ [part_name j t]) as (j & t & Hj & ->)
    by (destruct Ht as [[t ->]|[t ->]]; [by exists i, t|by exists 0, t]). clear Ht.
  set (temp := chunks_dir paths ++ [part_name j t]) in *. set (final := chunk_path paths i) in *.
  assert (temp ≠ final) as Hne by apply part_path_chunk.
  eapply wp_mono; [apply (wp_create_dir_ok _ chunk_file); done| |done]. cbn beta. intros _ w1 Hst1. wp_simpl.
  eapply (wp_mono _ (λ _ w2, ∃ m, fs_step w m w2 ∧ m !! temp = w_fs w !! temp ∧ m !! final ≠ Some Dir
            ∧ <[final := File d]> (delete temp m) = <[final := File d]> (delete temp (w_fs w))
            ∧ is_dir_in m (chunks_dir paths) = true) _ (λ _ _, False)).
  - assert (is_dir_in (w_fs w) (chunks_dir paths) = true) as Hdir.
    { apply bool_decide_eq_true. right. destruct Hok as (Hcne & Hanc & _). rewrite Forall_forall in Hanc.
      by apply Hanc, elem_of_ancestors. }
    destruct (path_exists final w1) eqn:Hex; wp_simpl.
    + apply wp_remove_file.
      * intros k w2 _ Hno. specialize (Hno (proj1 (stepped_no_faults _ _ Hst1) Hnf)).
        rewrite (stepped_fs _ _ Hst1) in Hno. unfold path_exists in Hex. rewrite (stepped_fs _ _ Hst1) in Hex.
        apply bool_decide_eq_true in Hex as [Hnil|[n Hn]]; [by apply (f_equal length) in Hnil; unfold final, chunk_path in Hnil; rewrite length_app in Hnil; cbn in Hnil; lia|].
        unfold file_at in Hno. rewrite Hn in Hno. destruct n; [done|].
        exact (ready_chunk paths base w i Hr Hi Hn).
      * intros d' w2 _ Hst2. rewrite (stepped_fs _ _ Hst1) in Hst2. exists (delete final (w_fs w)). split_and!.
        -- fs_chain.
        -- by rewrite lookup_delete_ne.
        -- by rewrite lookup_delete_eq.
        -- apply map_eq. intros q. destruct (decide (q = final)) as [->|]; [by rewrite !lookup_insert_eq|].
           rewrite !lookup_insert_ne by done.
           destruct (decide (q = temp)) as [->|]; [by rewrite !lookup_delete_eq|by rewrite !lookup_delete_ne by done].
        -- unfold is_dir_in in *. apply bool_decide_eq_true in Hdir. apply bool_decide_eq_true.
           destruct Hdir as [?|Hdir]; [by left|right]. rewrite lookup_delete_ne; [done|]. intros Heq.
           apply (f_equal length) in Heq. unfold final, chunk_path in Heq. rewrite length_app in Heq. cbn in Heq. lia.
    + exists (w_fs w). split_and!; [by apply stepped_fs_step|done|exact (ready_chunk paths base w i Hr Hi)|done|done].
  - cbn beta. intros _ w2 (m & Hst2 & Htm & Hfm & Heq & Hdm). wp_simpl. pose proof (fs_step_fs _ _ _ Hst2) as Hf2.
    assert (no_faults w2) as Hnf2 by (by apply (fs_step_no_faults _ _ _ Hst2)).
    assert (file_at m temp = Some d) as Hdt by (unfold file_at in *; by rewrite Htm).
    apply wp_rename; rewrite Hf2.
    + intros k w3 _ Hno. apply (Hno Hnf2). split; [split_and!; [|done|]|by exists d].
      * unfold final, chunk_path. by destruct (chunks_dir paths).
      * unfold final, chunk_path. by rewrite parent_snoc.
    + intros d' w3 Hd' Hst3. assert (d' = d) as -> by congruence. rewrite Heq in Hst3.
      assert (fs_step w (<[final := File d]> (delete temp (w_fs w))) w3) as Hst by fs_chain. split; [|done].
      apply (ready_change paths base w); [apply Hst| |exact Hr]. rewrite (fs_step_fs _ _ _ Hst).
      eapply (plain_change_trans paths _ (delete temp (w_fs w))); [|apply plain_change_insert].
      * intros q. destruct (decide (q = temp)) as [->|]; [right|left; by apply lookup_delete_ne].
        split_and!; [by apply part_plain|by rewrite lookup_delete_eq|]. apply Hr.
      * by apply chunk_plain.
      * rewrite lookup_delete_ne by done. exact (ready_chunk paths base w i Hr Hi).
  - done.
Qed.

Lemma wp_persist_ready st i t out d w :
  ready w → active st → u32_range i →
  file_at (w_fs w) (chunks_dir paths ++ [part_name 0 t]) = Some d →
  wp (persist_downloaded_chunk_file (Some st) i (chunks_dir paths ++ [part_name 0 t]) out)
    (λ r w', (∃ st', r = Some st' ∧ active st') ∧ ready w' ∧ same_io w w'
       ∧ file_at (w_fs w') (chunk_path paths i) = Some d
       ∧ ∀ j, 0 ≤ j → j ≠ i → file_at (w_fs w') (chunk_path paths j) = file_at (w_fs w) (chunk_path paths j)) (λ _ _, False) w.
Proof using All.
  intros Hr (Hp & Hid & Hwf) Hi Hd. cbn [persist_downloaded_chunk_file]. rewrite Hp. wp_simpl.
  eapply wp_mono; [apply wp_store_ready; [exact Hr|apply Hi|right; by exists t|exact Hd]| |done].
  cbn beta. intros _ w1 [Hr1 Hst1]. wp_simpl.
  assert (active (mark_persisted st i)) as Ha
    by (split_and!; [done| |by apply mark_persisted_ok]; cbn [mark_persisted ad_progress]; unfold mark_completed;
        rewrite <- Hid; by repeat case_match).
  eapply wp_mono; [apply wp_maybe_flush_ready; [exact Hr1|exact Ha]| |done]. cbn beta.
  intros st' w2 (Hm2 & Ha' & _). wp_simpl. split; [by exists st'|]. split; [apply Hm2|].
  destruct Hm2 as (_ & [I2 O2] & K2), Hst1 as (_ & F1 & I1 & O1 & _).
  split; [split; [by rewrite I2, I1|by rewrite O2, O1]|]. split.
  - rewrite (keeps_meta_chunk _ _ _ _ K2), F1. apply file_at_insert_eq.
  - intros j Hj Hne. rewrite (keeps_meta_chunk _ _ _ _ K2), F1. etrans; [apply file_at_insert_ne|].
    + intros Heq. apply Hne. symmetry. apply chunk_path_inj in Heq; [done|apply Hi|done].
    + rewrite file_at_delete, decide_False; [done|]. intros Heq. by apply part_path_chunk in Heq.
Qed.

Lemma wp_receive_answer_ready s st i d f rest w :
  ready w → wi_library s = Some st → active st → frame (Chunk i d) = Ok f → u32_range i → w_in w = f ++ rest →
  wp (receive_answer true s)
    (λ r w', ∃ t, r = (RawChunkFile (mkReceivedRawChunkFile i (zlen d) (blake3_hash d)),
                       Some (chunks_dir paths ++ [part_name 0 t]))
       ∧ ready w' ∧ w_in w' = rest ∧ w_out w' = w_out w
       ∧ file_at (w_fs w') (chunks_dir paths ++ [part_name 0 t]) = Some d
       ∧ ∀ j, file_at (w_fs w') (chunk_path paths j) = file_at (w_fs w) (chunk_path paths j)) (λ _ _, False) w.
Proof using All.
  intros Hr Hlib (Hp & _) Hf Hi Hin. unfold receive_answer. rewrite Hlib. unfold download_chunk_temp_path, active_download_state.
  cbn [ok_or]. wp_simpl. unfold staging_timestamp. apply wp_unix_nanos. intros t w1 Hst. wp_simpl. rewrite Hp.
  apply (ready_stepped _ _ _ _ Hst) in Hr as Hr1. assert (w_in w1 = f ++ rest) as Hin1 by (by destruct Hst as (_ & _ & -> & _)).
  assert (w_out w1 = w_out w) as Ho1 by (by destruct Hst as (_ & _ & _ & -> & _)).
  eapply wp_receive_chunk_to_file_frame; [exact Hf|done|exact Hin1| |].
  - intros e w2 Hno. apply Hno; [apply Hr1|by eapply ready_can_receive].
  - intros w2 Hrest Hrx Hd. specialize (Hd i d eq_refl). wp_simpl. exists t. split; [done|]. split_and!; [|done| |done|].
    + apply (ready_change paths base w1); [apply Hrx| |exact Hr1]. intros q.
      destruct (decide (q = chunks_dir paths ++ [part_name 0 t])) as [->|Hq].
      * right. split_and!; [by apply part_plain| |by apply Hr1]. unfold file_at in Hd. intros Heq. by rewrite Heq in Hd.
      * destruct Hrx as (_ & _ & _ & _ & F). destruct (F q) as [?|(Hnone & _ & o & [= <-] & Ho)]; [congruence|by left|].
        exfalso. rewrite parent_snoc in Ho. destruct Hr1 as (_ & [_ (_ & Hanc & _)] & _).
        rewrite Forall_forall in Hanc. rewrite (Hanc q Ho) in Hnone. done.
    + destruct Hrx as (_ & -> & _). exact Ho1.
    + intros j. rewrite <- (stepped_fs _ _ Hst). eapply rx_to_file; [exact Hrx|].
      intros [= Heq]. by apply part_path_chunk in Heq.
Qed.
End steps.

(** * The window, without failures *)
Lemma filter_all {A} (P : A → Prop) `{!∀ x, Decision (P x)} (l : list A) : Forall P l → filter P l = l.
Proof. induction 1 as [|x l Hx _ IH]; [done|]. by rewrite filter_cons, decide_True, IH. Qed.

Definition flight (l : list ChunkMeta) : gmap Z ChunkMeta := list_to_map ((λ meta, (cm_index meta, meta)) <$> l).

Lemma flight_fst l : ((λ meta, (cm_index meta, meta)) <$> l).*1 = cm_index <$> l.
Proof. induction l; [done|]. cbn. by f_equal. Qed.

Lemma flight_snoc l meta : cm_index meta ∉ cm_index <$> l → flight (l ++ [meta]) = <[cm_index meta := meta]> (flight l).
Proof. intros Hn. unfold flight. rewrite fmap_app. apply list_to_map_snoc. by rewrite flight_fst. Qed.

Lemma flight_empty l : flight l = ∅ → l = [].
Proof. destruct l as [|meta l]; [done|]. unfold flight. cbn. intros He. by apply insert_non_empty in He. Qed.

Lemma flight_cons meta l : cm_index meta ∉ cm_index <$> l →
  flight (meta :: l) !! cm_index meta = Some meta ∧ delete (cm_index meta) (flight (meta :: l)) = flight l.
Proof.
  intros Hn. unfold flight. cbn. rewrite lookup_insert_eq. split; [done|]. rewrite delete_insert_id; [done|].
  apply not_elem_of_list_to_map_1. by rewrite flight_fst.
Qed.

Section live_window.
Context `{Blake3Laws} `{WireBincodeLaws} `{DiskEncodes}.
Context (paths : LibraryPaths) (base : fs).
Context (manifest : Manifest) (available completed0 : gset Z) (output_dir : option path) (log_level : TransferLogLevel)
        (share_id : ShareId) (max_request_window : Z) (w0 : World).
Context (content : Z → bytes) (rest out0 : bytes).
Let metas := mf_chunks manifest.
Context (Hmetas : Forall ChunkMeta_wf metas) (Hmax : 1 ≤ max_request_window) (Hsmall : 2 * zlen metas ≤ u64_max).
Context (Hnd : NoDup (cm_index <$> metas)).

(** The chunks to fetch, in the order of the manifest. *)
Definition wanted (meta : ChunkMeta) : Prop := cm_index meta ∉ completed0 ∧ cm_index meta ∈ available.
Global Instance wanted_dec meta : Decision (wanted meta) := ltac:(unfold wanted; apply _).
Definition todo : list ChunkMeta := filter wanted metas.
Definition request_of (meta : ChunkMeta) : WireMessage := RequestChunk (cm_index meta).
Definition answer_of (meta : ChunkMeta) : WireMessage := Chunk (cm_index meta) (content (cm_index meta)).

Context (Hcontent : ∀ meta, meta ∈ todo → hash_chunk (content (cm_index meta)) = cm_blake3_hash meta).
Context (Hrequests : ∀ meta, meta ∈ todo → ∃ f, frame (request_of meta) = Ok f).

(** The complete chunks are stored. *)
Definition in_place (w : World) (completed : gset Z) : Prop :=
  ∀ meta, meta ∈ metas → cm_index meta ∈ completed →
    file_at (w_fs w) (chunk_path paths (cm_index meta)) = Some (content (cm_index meta)).

Lemma in_place_same w w' completed : w_fs w' = w_fs w → in_place w completed → in_place w' completed.
Proof. unfold in_place. by intros ->. Qed.

(** The answered, the requested and the remaining chunks, in order; the answers
    still to come are on the connection. *)
Definition live (answered flying future : list ChunkMeta) (s : Window) (w : World) : Prop :=
  ready paths base w ∧ (∃ st, wi_library s = Some st ∧ active paths st)
  ∧ in_place w (wi_completed s)
  ∧ todo = answered ++ flying ++ future
  ∧ wi_in_flight s = flight flying
  ∧ future = filter wanted (drop (wi_next_meta s) metas)
  ∧ wi_completed s = completed0 ∪ list_to_set (cm_index <$> answered)
  ∧ (∃ fs, frames (answer_of <$> flying ++ future) = Ok fs ∧ w_in w = fs ++ rest)
  ∧ ∃ qs, frames (request_of <$> answered ++ flying) = Ok qs ∧ w_out w = out0 ++ qs.

Lemma todo_nodup : NoDup (cm_index <$> todo).
Proof using Hnd. eapply sublist_NoDup; [exact Hnd|apply fmap_sublist, sublist_filter]. Qed.

Lemma todo_meta meta : meta ∈ todo → meta ∈ metas ∧ wanted meta.
Proof. unfold todo. rewrite list_elem_of_filter. tauto. Qed.

(** A chunk that is not complete and offered is still to be requested. *)
Lemma next_wanted answered flying future s w meta :
  live answered flying future s w → metas !! wi_next_meta s = Some meta →
  if decide (cm_index meta ∉ wi_completed s ∧ cm_index meta ∈ available)
  then future = meta :: filter wanted (drop (S (wi_next_meta s)) metas)
  else future = filter wanted (drop (S (wi_next_meta s)) metas).
Proof using All.
  intros (_ & _ & _ & Hsplit & _ & Hfut & Hc & _) Hm. rewrite (drop_S _ _ _ Hm), filter_cons in Hfut.
  pose proof todo_nodup as Htn. case_decide as Hw; case_decide as Hw2.
  - done.
  - exfalso. destruct Hw as [Hn2 Ha]. apply Hw2. split; [|done]. rewrite Hc. intros [?|Hin]%elem_of_union; [done|].
    rewrite elem_of_list_to_set in Hin. rewrite Hsplit, Hfut, !fmap_app in Htn. apply NoDup_app in Htn as (_ & Hd & _).
    apply (Hd _ Hin). apply elem_of_app. right. cbn. left.
  - exfalso. apply Hw. destruct Hw2 as [Hn Ha]. split; [|done]. rewrite Hc in Hn. set_solver.
  - done.
Qed.

Lemma wp_request_round_live answered flying future s w :
  live answered flying future s w →
  wp (request_round manifest available s)
    (λ r w', match r with
             | inl s' => wi_next_meta s' = S (wi_next_meta s) ∧ (wi_next_meta s < length metas)%nat
                         ∧ ∃ flying' future', live answered flying' future' s' w'
             | inr s' => s' = s ∧ w' = w
             end) (λ _ _, False) w.
Proof using All.
  intros Hlive. pose proof Hlive as (Hr & Hlib & Hpl & Hsplit & Hfl & Hfut & Hc & Hin & qs & Hqs & Hout). unfold request_round.
  case_decide; wp_simpl; [|done]. fold metas. destruct (metas !! wi_next_meta s) as [meta|] eqn:Hm; [|by wp_simpl].
  pose proof (next_wanted _ _ _ _ _ _ Hlive Hm) as Hnext. pose proof (lookup_lt_Some _ _ _ Hm) as Hlt.
  assert (live answered flying (filter wanted (drop (S (wi_next_meta s)) metas)) (set_requests s (S (wi_next_meta s)) (wi_in_flight s)) w ∨
          (cm_index meta ∉ wi_completed s ∧ cm_index meta ∈ available)) as Hskip.
  { destruct (decide (cm_index meta ∉ wi_completed s ∧ cm_index meta ∈ available)) as [Hd|Hd]; [by right|left]. rewrite <- Hnext. split_and!; try done. exists qs. done. }
  destruct (decide (cm_index meta ∈ wi_completed s)) as [Hcomp|Hcomp]; wp_simpl.
  { destruct Hskip as [Hskip|[? _]]; [|done]. split_and!; [done|done|]. by eexists _, _. }
  destruct (decide (cm_index meta ∉ available)) as [Hav|Hav]; wp_simpl.
  { destruct Hskip as [Hskip|[_ ?]]; [|done]. split_and!; [done|done|]. by eexists _, _. }
  rewrite decide_True in Hnext by (split; [done|by apply dec_stable]).
  assert (meta ∈ todo) as Hmt by (rewrite Hsplit, Hnext; set_solver).
  apply wp_send.
  - intros e o w' _ Hno. destruct (Hrequests meta Hmt) as [f Hf]. specialize (Hno (proj1 Hr)). unfold request_of in Hf. congruence.
  - intros f w' Hf Hsent. wp_simpl. split_and!; [done|done|].
    exists (flying ++ [meta]), (filter wanted (drop (S (wi_next_meta s)) metas)).
    destruct Hsent as (He & Hfs & Hi & Ho & _). split_and!.
    + by eapply ready_same.
    + done.
    + by eapply in_place_same.
    + rewrite Hsplit, Hnext, <- !app_assoc. done.
    + cbn [set_requests wi_in_flight]. rewrite flight_snoc, Hfl; [done|]. pose proof todo_nodup as Htn.
      rewrite Hsplit, Hnext, !fmap_app in Htn. apply NoDup_app in Htn as (_ & _ & Htn).
      apply NoDup_app in Htn as (_ & Hd & _). intros Hbad. apply (Hd _ Hbad). cbn. left.
    + done.
    + done.
    + destruct Hin as (fs & Hfs2 & Hin). exists fs. rewrite <- app_assoc. cbn [app]. rewrite <- Hnext. split; [done|].
      rewrite Hi. exact Hin.
    + exists (qs ++ f). split.
      * rewrite app_assoc, fmap_app. apply frames_app; [done|].
        cbn [fmap list_fmap frames]. unfold request_of. rewrite Hf. cbn. by rewrite app_nil_r.
      * rewrite Ho. cbn. by rewrite Hout, app_assoc.
Qed.

Lemma wp_request_chunks_live answered flying future s w :
  live answered flying future s w →
  wp (request_chunks manifest available s)
    (λ s' w', ∃ flying' future', live answered flying' future' s' w') (λ _ _, False) w.
Proof using All.
  intros Hlive. unfold request_chunks.
  apply (wp_mloop _ (λ s' w', ∃ flying' future', live answered flying' future' s' w')
    (λ s' _, (length metas - wi_next_meta s')%nat)); [by exists flying, future|fold metas; lia|].
  intros s1 w1 (fl1 & fu1 & Hl1). eapply wp_mono; [by eapply wp_request_round_live| |done].
  intros [s2|s2] w2; cbn beta iota.
  - intros (-> & Hlt & Hl2). split; [done|lia].
  - intros [-> ->]. by exists fl1, fu1.
Qed.

(** The answer to the oldest request is next on the connection. *)
Lemma wp_window_round_live answered flying future s w :
  live answered flying future s w →
  wp (window_round manifest available true output_dir log_level share_id max_request_window s)
    (λ r w', match r with
             | inl s' => ∃ answered' flying' future', live answered' flying' future' s' w'
             | inr s' => ∃ future', live answered [] future' s' w'
             end) (λ _ _, False) w.
Proof using All.
  intros Hlive. unfold window_round. wp_simpl. eapply wp_mono; [by eapply wp_request_chunks_live| |done].
  cbn beta. clear dependent flying future w. intros s1 w1 (flying & future & Hlive).
  pose proof Hlive as (Hr & (st & Hst & Hact) & Hpl & Hsplit & Hfl & Hfut & Hc & (fs & Hfs & Hin) & qs & Hqs & Hout).
  case_decide as Hemp; wp_simpl.
  { rewrite Hfl in Hemp. apply flight_empty in Hemp as ->. by exists future. }
  destruct flying as [|meta flying]; [by rewrite Hfl in Hemp|].
  assert (meta ∈ todo) as Hmt by (rewrite Hsplit; set_solver). destruct (todo_meta _ Hmt) as [Hmm _].
  assert (u32_range (cm_index meta)) as Hi by (rewrite Forall_forall in Hmetas; by apply Hmetas).
  apply frames_cons in Hfs as (f & fs' & Hf & Hfs' & ->). rewrite <- app_assoc in Hin.
  eapply wp_mono; [eapply (wp_receive_answer_ready paths base); done| |done].
  cbn beta. intros received w2 (t & -> & Hr2 & Hin2 & Ho2 & Hd2 & Hk2). cbn [handle_answer rc_index rc_blake3_hash rc_data_len].
  pose proof todo_nodup as Htn. rewrite Hsplit, !fmap_app in Htn. apply NoDup_app in Htn as (_ & _ & Htn).
  cbn in Htn. apply NoDup_cons in Htn as [Hnotin _].
  assert (cm_index meta ∉ cm_index <$> flying) as Hnf by (intros Hbad; apply Hnotin, elem_of_app; by left).
  destruct (flight_cons meta flying Hnf) as [Hlook Hdel].
  unfold take_in_flight. rewrite Hfl, Hlook. wp_simpl. rewrite Hdel. rewrite decide_False.
  2: { intros Hne. apply Hne. pose proof (Hcontent meta Hmt) as Hh. rewrite <- Hh. reflexivity. }
  wp_simpl. rewrite Hst. eapply wp_mono; [eapply (wp_persist_ready paths base); [exact Hr2|exact Hact|exact Hi|exact Hd2]| |done].
  cbn beta. intros library w3 ((st3 & -> & Ha3) & Hr3 & [Hi3 Ho3] & Hd3 & Hk3). unfold chunk_received. wp_simpl.
  apply wp_report_io. intros w4 He4 Hf4 [Hi4 Ho4]. wp_simpl. destruct (maybe_grow_request_window _ _ _) as [a b]. wp_simpl.
  exists (answered ++ [meta]), flying, future. split_and!.
  - by eapply ready_same.
  - by exists st3.
  - intros m Hm. cbn [wi_completed]. intros [Hi1%elem_of_singleton|Hi1]%elem_of_union; rewrite Hf4.
    + by rewrite Hi1.
    + destruct (decide (cm_index m = cm_index meta)) as [->|Hne]; [done|].
      rewrite Forall_forall in Hmetas. rewrite Hk3, Hk2; [by apply Hpl|apply (Hmetas m Hm)|done].
  - by rewrite Hsplit, <- app_assoc.
  - done.
  - done.
  - cbn [wi_completed]. rewrite Hc, fmap_app, list_to_set_app_L. cbn. set_solver.
  - exists fs'. split; [done|]. by rewrite Hi4, Hi3, Hin2.
  - exists qs. rewrite <- app_assoc. split; [done|]. by rewrite Ho4, Ho3, Ho2.
Qed.

(** The whole loop: the requests of all the chunks to fetch go out in order, and
    every answer is stored. *)
Definition fetched (s : Window) (w : World) : Prop :=
  ready paths base w ∧ (∃ st, wi_library s = Some st ∧ active paths st)
  ∧ wi_completed s = completed0 ∪ list_to_set (cm_index <$> todo) ∧ in_place w (wi_completed s)
  ∧ w_in w = rest ∧ ∃ qs, frames (request_of <$> todo) = Ok qs ∧ w_out w = out0 ++ qs.

Lemma live_fetched answered s w :
  live answered [] [] s w → fetched s w.
Proof using All.
  intros (Hr & Hlib & Hpl & Hsplit & _ & _ & Hc & (fs & Hfs & Hin) & qs & Hqs & Hout).
  rewrite !app_nil_r in *. subst answered. injection Hfs as <-.
  split_and!; [done|done|done|done|done|by exists qs].
Qed.

Lemma wp_windowed_live st request_window fs w :
  max_request_window = Z.max request_window 1 →
  ready paths base w → active paths st → progress_set (ad_progress st) = completed0 →
  (∀ i, i ∈ completed0 → verified (w_fs w) paths metas i) → in_place w completed0 →
  frames (answer_of <$> todo) = Ok fs → w_in w = fs ++ rest → w_out w = out0 →
  wp (download_missing_chunks_windowed manifest available (Some st) ∅ completed0 true output_dir log_level
        request_window share_id)
    fetched (λ _ _, False) w.
Proof using All.
  intros Hmw Hr Hact Hset Hver Hpl Hfs Hin Hout. unfold download_missing_chunks_windowed. rewrite <- Hmw. wp_simpl.
  eapply wp_mono; [apply (wp_mfold _ (λ (_ : list ChunkMeta) (_ : unit) w1,
    w_env w1 = w_env w ∧ w_fs w1 = w_fs w ∧ same_io w w1) _ _ (λ _ _, False)); [done|]| |done].
  { intros done_ meta rest' u w1 _ (He & Hf & Hi & Ho). unfold report_reused. case_decide; [|by wp_simpl].
    apply wp_report_io. intros w2 He2 Hf2 [Hi2 Ho2]. split_and!; [congruence..|split; congruence]. }
  intros _ w1 (He1 & Hf1 & Hi1 & Ho1). wp_simpl.
  set (inv := window_inv manifest available (Some paths) w).
  apply (wp_mloop _ (λ s w', inv s w' ∧ ∃ answered flying future, live answered flying future s w')
    (λ s _, window_measure manifest s)).
  - assert (keeps (λ _, False) w w1) as Hk by (split; [done|]; intros q _; by rewrite Hf1). split.
    + split; [by eapply safe_kept; [|by apply meta_safe]|]. split; [exists st; split_and!; try done; [apply Hact..|]|].
      { intros i Hi. rewrite Hf1. by apply Hver. }
      split; [split; [cbn; lia|split; [done|cbn; lia]]|].
      split; [done|]. split; [unfold window_measure, zlen; cbn; rewrite map_size_empty; lia|].
      intros _. cbn [wi_active]. apply initial_request_window_bounds. lia.
    + exists [], [], todo. split_and!; try done.
      * by eapply ready_same.
      * by exists st.
      * by eapply in_place_same.
      * cbn. set_solver.
      * exists fs. by rewrite Hi1.
      * exists []. split; [done|]. by rewrite app_nil_r, Ho1.
  - unfold window_measure. cbn. rewrite map_size_empty. fold metas. lia.
  - intros s w2 [Hinv (answered & flying & future & Hlive)].
    eapply wp_mono; [apply wp_and; [by apply (wp_window_round manifest available output_dir log_level share_id
      max_request_window (Some paths) w Hmetas Hmax)|by eapply wp_window_round_live]| |].
    + intros [s'|s'] w3; cbn beta iota; intros [Hw Hl].
      * split; [|apply Hw]. split; [apply Hw|exact Hl].
      * destruct Hw as ((_ & _ & _ & _ & _ & Hact3) & _ & Hexit), Hl as (future' & Hl).
        assert (future' = []) as ->; [|by eapply live_fetched].
        pose proof Hl as (_ & _ & _ & _ & _ & -> & _). specialize (Hact3 Hsmall).
        destruct Hexit as [?|Hn]; [lia|]. fold metas in Hn. by rewrite Hn, drop_all.
    + by intros e w3 [_ ?].
Qed.
End live_window.

(** * A new download *)
Section fresh.
Context `{Blake3Laws, AeadLaws} `{WireBincodeLaws} `{DiskEncodes}.
Context (manifest : Manifest) (key : SymmetricKey) (root out : path).
Let descriptor := descriptor_from_manifest manifest.
Let paths := for_share root (d_share_id descriptor).
Let metas := mf_chunks manifest.

(** The output is neither in the share nor above it. *)
Definition apart : Prop := ¬ share_dir paths `prefix_of` out ∧ out ∉ ancestors (share_dir paths).
Context (Hapart : apart).

Lemma apart_below k : share_dir paths `prefix_of` k → ¬ k `prefix_of` out.
Proof. destruct Hapart as [Hp _]. intros Hk Ho. apply Hp. by etrans. Qed.

Lemma apart_made k : share_dir paths `prefix_of` k → ¬ made_for (Some out) k.
Proof.
  intros Hk (o & [= <-] & [_ Hq]%elem_of_ancestors). apply (apart_below k Hk). etrans; [exact Hq|].
  destruct out as [|x o _] using rev_ind; [done|]. rewrite parent_snoc. by apply prefix_app_r.
Qed.

Lemma in_chunks_dir k : share_dir paths `prefix_of` chunks_dir paths ++ k.
Proof. etrans; [apply chunks_dir_prefix|]. by apply prefix_app_r. Qed.

Lemma apart_chunk i : chunk_path paths i ≠ out.
Proof. intros Heq. apply (apart_below (chunk_path paths i)); [apply in_chunks_dir|by rewrite Heq]. Qed.

(** New directories of the share are not in the way of the output. *)
Lemma can_output_share_dirs m : can_output m out → can_output (with_share_dirs m paths) out.
Proof.
  destruct Hapart as [Hp Ha]. intros (Hne & [Hf Hfa] & Hd).
  assert (∀ q, file_at m q = None → file_at (with_share_dirs m paths) q = None) as Hnone.
  { intros q Hq. unfold file_at in *. rewrite lookup_share_dirs. by case_decide. }
  split_and!; [done|split; [by apply Hnone|]|].
  - eapply Forall_impl; [exact Hfa|]. intros q. apply Hnone.
  - rewrite lookup_share_dirs, decide_False; [done|]. intros [?|[-> | ->]]; [done| |];
      apply Hp; by apply prefix_app_r.
Qed.

(** Writing the output leaves the share as it is. *)
Lemma dir_ok_out m m' dir pid P :
  (∀ q, q ≠ out → node_kept (Some out) m m' q) → share_dir paths `prefix_of` dir → out ∉ ancestors dir →
  dir_ok m dir pid P → dir_ok m' dir pid P.
Proof.
  intros Hk Hdir Ho (Hne & Hanc & HP & Htmp).
  assert (∀ k, share_dir paths `prefix_of` k → m' !! k = m !! k) as Hin.
  { intros k Hs. destruct (Hk k) as [?|(_ & _ & Hm)]; [|done|by apply apart_made in Hm].
    intros ->. by apply (apart_below out). }
  assert (∀ name, share_dir paths `prefix_of` dir ++ [name]) as Hd by (intros name; by apply prefix_app_r).
  split_and!; [done| | |].
  - rewrite Forall_forall in Hanc |- *. intros q Hq. destruct (Hk q) as [->|(Hn & _)]; [|by apply Hanc|].
    + by intros ->.
    + by rewrite (Hanc q Hq) in Hn.
  - intros name Hn. rewrite Hin by done. by apply HP.
  - intros name t. rewrite Hin by done. by apply Htmp.
Qed.

Lemma ready_out base w w' : out_step out w w' → ready paths base w → ready paths (w_fs w') w'.
Proof.
  intros (He & _ & Hk) (Hnf & [Hs Hc] & Hp & _). split_and!; [by eapply no_faults_env| | |by left].
  - unfold share_ok. rewrite He. split; eapply dir_ok_out; try done.
    + apply Hapart.
    + apply chunks_dir_prefix.
    + unfold chunks_dir. intros [?|Heq]%prefix_snoc_ancestors; [by apply Hapart|].
      apply (apart_below out); [|done]. rewrite Heq. by apply prefix_app_r.
  - intros i t. destruct (Hk (chunks_dir paths ++ [part_name i t])) as [->|(_ & _ & Hm)]; [|apply Hp|].
    + intros Heq. apply (apart_below out); [|done]. rewrite <- Heq. apply in_chunks_dir.
    + apply apart_made in Hm; [done|]. apply in_chunks_dir.
Qed.

(** The new share directory is one in which nothing stands in the way. *)
Lemma ready_fresh w w' bd bs bp bst :
  no_faults w → share_absent (w_fs w) paths → share_ok w' paths →
  fs_step w (with_share_files root descriptor bd bs bp bst (with_share_dirs (w_fs w) paths)) w' →
  ready paths (with_share_dirs (w_fs w) paths) w'.
Proof.
  intros Hnf Habs Hok Hst. pose proof (fs_step_fs _ _ _ Hst) as Hf.
  set (m := with_share_dirs (w_fs w) paths) in *.
  assert (∀ name, share_file name → m !! (share_dir paths ++ [name]) ≠ Some Dir) as Hnd.
  { intros name Hn. unfold m. rewrite lookup_share_dirs_below; [done|done|done|..];
      intros [= ->]; unfold share_file in Hn; revert Hn;
      rewrite !elem_of_cons, elem_of_nil; intros [?|[?|[?|[?|[]]]]]; discriminate. }
  assert (∀ m' name d, (∀ name, share_file name → m' !! (share_dir paths ++ [name]) ≠ Some Dir) → share_file name →
    plain_change paths m m' → plain_change paths m (<[share_dir paths ++ [name] := File d]> m')
    ∧ ∀ n, share_file n → <[share_dir paths ++ [name] := File d]> m' !! (share_dir paths ++ [n]) ≠ Some Dir) as Hins.
  { intros m' name d Hm' Hn Hc. split.
    - eapply plain_change_trans; [exact Hc|]. apply plain_change_insert; [by apply share_file_path_plain|by apply Hm'].
    - intros n Hs. rewrite lookup_insert. case_decide; [done|]. by apply Hm'. }
  split_and!; [by apply (fs_step_no_faults _ _ _ Hst)|done| |].
  - intros i t. rewrite Hf. unfold with_share_files, m.
    assert (∀ name, share_dir paths ++ [name] ≠ chunks_dir paths ++ [part_name i t]) as Hne.
    { intros name Heq. unfold chunks_dir in Heq. rewrite <- app_assoc in Heq. by apply app_inv_head in Heq. }
    fold paths. unfold state_path, progress_path, secret_path, descriptor_path.
    rewrite !lookup_insert_ne by apply Hne. unfold chunks_dir. rewrite <- app_assoc.
    by rewrite lookup_share_dirs_below.
  - rewrite Hf. unfold with_share_files. fold paths.
    edestruct (Hins m DESCRIPTOR_FILE_NAME bd) as [H1' N1]; [done|unfold share_file; set_solver|by left|].
    edestruct (Hins _ SECRET_FILE_NAME bs N1) as [H2' N2]; [unfold share_file; set_solver|done|].
    edestruct (Hins _ PROGRESS_FILE_NAME bp N2) as [H3' N3]; [unfold share_file; set_solver|done|].
    edestruct (Hins _ STATE_FILE_NAME bst N3) as [H4' _]; [unfold share_file; set_solver|done|]. exact H4'.
Qed.

Lemma wp_init_fresh dir resume w :
  no_faults w → share_absent (w_fs w) paths →
  wp (initialize_download_library_state (Some root) descriptor key dir resume)
    (λ r w', ∃ st, r = Some st ∧ active paths st ∧ ad_progress st = DownloadProgress_empty (lp_share_id paths)
       ∧ ready paths (with_share_dirs (w_fs w) paths) w' ∧ same_io w w') (λ _ _, False) w.
Proof.
  intros Hnf Habs. cbn [initialize_download_library_state]. unfold resume_progress. wp_simpl. fold paths.
  assert (is_file (progress_path paths) w = false) as ->.
  { apply bool_decide_eq_false. intros [d Hd]. unfold file_at in Hd.
    rewrite (proj2 Habs (progress_path paths)) in Hd; [done|]. by apply prefix_app_r. }
  rewrite andb_false_r. wp_simpl.
  destruct (encodes_descriptor descriptor) as [bd Hbd].
  destruct (encodes_secret (EtleSecret_new (d_share_id descriptor) key)) as [bs Hbs].
  destruct (progress_encodes (initial_progress descriptor Downloading)) as [bp Hbp]; [constructor|].
  destruct (state_encodes (from_progress Downloading dir (initial_progress descriptor Downloading))) as [bst Hbst];
    [apply from_progress_range; constructor|].
  eapply wp_mono; [by apply (wp_library_init root descriptor key Downloading dir bd bs bp bst w)| |done].
  cbn beta. intros p w1 (-> & Hnf1 & Hok1 & _ & Hst1). fold paths in Hok1, Hst1 |- *. rewrite decide_True by done. wp_simpl.
  apply wp_now. intros t w2 Hst2. wp_simpl. eexists. split; [done|].
  split; [split_and!; [done|done|split; constructor]|]. split; [done|].
  split; [by eapply ready_stepped, ready_fresh; [exact Hst2|..]|].
  destruct Hst1 as (_ & _ & I1 & O1 & _), Hst2 as (_ & _ & I2 & O2 & _). split; [by rewrite I2, I1|by rewrite O2, O1].
Qed.

(** Nothing can be reused. *)
Lemma wp_load_fresh base st dir w :
  ready paths base w → active paths st → ad_progress st = DownloadProgress_empty (lp_share_id paths) →
  wp (load_completed (Some st) manifest dir)
    (λ r w', ∃ st', r = (∅, ∅, Some st') ∧ active paths st'
       ∧ ad_progress st' = DownloadProgress_empty (lp_share_id paths) ∧ ready paths base w' ∧ same_io w w')
    (λ _ _, False) w.
Proof.
  intros Hr (Hp & Hid & Hwf) Hprog. cbn [load_completed load_resumable_chunk_indexes]. wp_simpl. rewrite Hp.
  eapply wp_mono; [apply (wp_mfold _ (λ (_ : list ChunkMeta) acc w',
    acc = (∅, DownloadProgress_empty (lp_share_id paths)) ∧ w' = w) _ _ (λ _ _, False)); [done|]| |done].
  { intros done_ meta rest acc w1 _ [-> ->]. unfold load_indexes_round, resumable_chunk. wp_simpl. rewrite Hprog.
    rewrite orb_true_l. by wp_simpl. }
  cbn beta. intros acc w1 [-> ->]. wp_simpl. unfold save_valid_progress. cbv zeta. cbn [ad_paths ad_progress fst snd]. wp_simpl.
  rewrite Hp. eapply wp_mono; [apply (wp_write_progress_ready paths base); [done|done|constructor]| |done].
  cbn beta. intros _ w2 (Hr2 & [I2 O2] & _). wp_simpl.
  eapply wp_mono; [apply (wp_write_state_ready paths base); [done|done|apply from_progress_range; constructor]| |done].
  cbn beta. intros _ w3 (Hr3 & [I3 O3] & _). wp_simpl. eexists. split; [done|].
  split; [split_and!; [done|done|split; constructor]|]. split; [done|]. split; [done|]. split; congruence.
Qed.

(** The chunk data [content] of a share whose plaintexts are [ds]. *)
Definition enciphers (content : Z → bytes) (meta : ChunkMeta) (d : bytes) : Prop :=
  zlen (content (cm_index meta)) = cm_encrypted_size meta
  ∧ hash_chunk (content (cm_index meta)) = cm_blake3_hash meta
  ∧ decrypt_chunk key (cm_nonce meta) (content (cm_index meta))
      (build_chunk_aad (mf_file_id manifest) (cm_index meta) (cm_plain_size meta)) = Ok d
  ∧ zlen d = cm_plain_size meta.

Lemma enciphers_decrypts content m ds l :
  Forall2 (enciphers content) l ds →
  (∀ meta, meta ∈ l → file_at m (chunk_path paths (cm_index meta)) = Some (content (cm_index meta))) →
  Forall2 (decrypts m paths (mf_file_id manifest) key) l ds.
Proof.
  intros Hf Hm. induction Hf as [|meta d l' ds' He Hf IH]; constructor.
  - exists (content (cm_index meta)). split; [by apply Hm; left|]. by destruct He as (? & ? & ? & ?).
  - apply IH. intros meta' Hin. apply Hm. by right.
Qed.

Lemma frames_elem ms fs m : frames ms = Ok fs → m ∈ ms → ∃ f, frame m = Ok f.
Proof.
  revert fs. induction ms as [|m' ms IH]; intros fs Hfs Hin; [by apply not_elem_of_nil in Hin|].
  apply frames_cons in Hfs as (f & fs' & Hf & Hfs' & _). apply elem_of_cons in Hin as [->|Hin]; [by exists f|].
  by eapply IH.
Qed.

Context (schedule : list ChunkMeta → list ChunkMeta) (Hschedule : ∀ l, schedule l ≡ₚ l).
Context (content : Z → bytes) (ds : list bytes).
Context (Hmetas : Forall ChunkMeta_wf metas) (Hsmall : 2 * zlen metas ≤ u64_max) (Hnd : NoDup (cm_index <$> metas)).
Context (Hplain : Forall2 (enciphers content) metas ds) (Hfile : hash_file_id (concat ds) = mf_file_id manifest).

Lemma todo_all available : (∀ meta, meta ∈ metas → cm_index meta ∈ available) → todo manifest available ∅ = metas.
Proof using.
  intros Hav. apply filter_all, Forall_forall. intros meta Hm. split; [apply not_elem_of_empty|exact (Hav meta Hm)].
Qed.

Lemma size_all : size (list_to_set (cm_index <$> metas) : gset Z) = length metas.
Proof using Hnd. rewrite size_list_to_set by exact Hnd. apply length_fmap. Qed.

Lemma wp_fresh_download addr available options fs qs rest w :
  do_library_root options = Some root → no_faults w → share_absent (w_fs w) paths → can_output (w_fs w) out →
  (∀ meta, meta ∈ metas → cm_index meta ∈ available) →
  frames (request_of <$> metas) = Ok qs → frames (answer_of content <$> metas) = Ok fs → w_in w = fs ++ rest →
  wp (download_from_connected schedule (mkConnectedPeer addr manifest key available) out options)
    (λ m w', m = manifest ∧ file_at (w_fs w') out = Some (concat ds) ∧ w_in w' = rest ∧ w_out w' = w_out w ++ qs)
    (λ _ _, False) w.
Proof using All.
  intros Hroot Hnf Habs Hco Hav Hqs Hfs Hin. unfold download_from_connected. rewrite Hroot. cbn [cp_manifest cp_file_key cp_available_chunks].
  wp_simpl. eapply wp_mono; [by apply wp_init_fresh| |done]. cbn beta.
  intros library w1 (st & -> & Hact & Hprog & Hr1 & [I1 O1]). wp_simpl.
  set (base := with_share_dirs (w_fs w) paths) in *.
  eapply wp_mono; [by eapply wp_load_fresh| |done]. cbn beta.
  intros r w2 (st2 & -> & Hact2 & Hprog2 & Hr2 & [I2 O2]). wp_simpl. unfold send_have_if_any. rewrite decide_True by done. wp_simpl.
  eapply wp_mono; [eapply (wp_windowed_live paths base manifest available ∅ _ _ _ (Z.max (do_request_window options) 1) w2
    content rest (w_out w))| |done]; [done|lia|done|done| | |done|done|done|by rewrite Hprog2|..].
  { intros meta Hm. apply todo_meta in Hm as [Hm _]. apply list_elem_of_lookup in Hm as [k Hk].
    destruct (Forall2_lookup_l _ _ _ _ _ Hplain Hk) as (d & _ & _ & ? & _). done. }
  { intros meta Hm. apply todo_meta in Hm as [Hm _]. eapply frames_elem; [exact Hqs|].
    apply list_elem_of_fmap. by exists meta. }
  { intros i Hi. by apply elem_of_empty in Hi. }
  { intros meta _ Hi. by apply elem_of_empty in Hi. }
  { by rewrite todo_all. }
  { by rewrite I2, I1. }
  { by rewrite O2, O1. }
  cbn beta. intros s w3 (Hr3 & (st3 & Hst3 & Hact3) & Hc3 & Hpl3 & Hin3 & qs' & Hqs' & Hout3).
  rewrite todo_all in Hc3, Hqs' by done. assert (qs' = qs) as -> by congruence. rewrite union_empty_l_L in Hc3.
  rewrite Hc3, size_all. unfold zlen at 1. rewrite decide_False by (intros Hne; by apply Hne). wp_simpl.
  rewrite Hst3. unfold active_download_state. cbn [ok_or]. wp_simpl.
  destruct Hact3 as (Hp3 & Hact3). rewrite Hp3. eapply wp_mono; [eapply (wp_reconstruct_complete _ _ _ _ _ _ ds)| |done]; try done.
  { apply Hr3. }
  { eapply (can_output_change paths base); [apply Hapart|apply Hr3|by apply can_output_share_dirs]. }
  { apply Forall_forall. intros i _. by apply apart_chunk. }
  { eapply enciphers_decrypts; [exact Hplain|]. intros meta Hm. apply Hpl3; [done|]. rewrite Hc3.
    apply elem_of_list_to_set, list_elem_of_fmap. by exists meta. }
  cbn beta. intros _ w4 [Hst4 Hf4]. wp_simpl. pose proof Hst4 as (_ & [I4 O4] & _). apply (ready_out base) in Hst4; [|done].
  eapply wp_mono; [apply (wp_complete_ready paths (w_fs w4)); [exact Hst4|by split]| |done].
  cbn beta. intros _ w5 (Hr5 & [I5 O5] & [_ K5]). wp_simpl. split_and!; [done| |congruence|].
  - rewrite K5; [exact Hf4|]. intros [name Heq]. eapply (apart_below out); [|done]. rewrite Heq. by apply prefix_app_r.
  - rewrite O5, O4, Hout3. done.
Qed.
End fresh.

(** * The server's side *)
Lemma answers_all available content (todo served : list ChunkMeta) :
  NoDup (cm_index <$> served ++ todo) → (∀ meta, meta ∈ todo → cm_index meta ∈ available) →
  answers available content (zlen (served ++ todo)) (list_to_set (cm_index <$> served)) (request_of <$> todo)
  = (answer_of content <$> todo, None).
Proof.
  revert served. induction todo as [|meta l IH]; intros served Hnd Hav.
  - cbn [fmap list_fmap answers]. by case_decide.
  - cbn [fmap list_fmap answers]. unfold request_of at 1.
    assert (size (list_to_set (cm_index <$> served) : gset Z) = length served) as Hs.
    { rewrite fmap_app in Hnd. apply NoDup_app in Hnd as (Hnd & _). rewrite size_list_to_set by done. apply length_fmap. }
    rewrite Hs, decide_False by (unfold zlen; rewrite length_app; cbn; lia).
    rewrite decide_True by (apply Hav; left).
    assert ({[cm_index meta]} ∪ list_to_set (cm_index <$> served) = (list_to_set (cm_index <$> served ++ [meta]) : gset Z)) as ->.
    { rewrite fmap_app, list_to_set_app_L. cbn. set_solver. }
    specialize (IH (served ++ [meta])). rewrite <- app_assoc in IH. cbn [app] in IH.
    rewrite IH; [done|exact Hnd|]. intros m Hm. apply Hav. by right.
Qed.

(** * Claims *)

(** C6: a transfer completes: let a server hold every chunk of a share, and let
    a downloader that has nothing of the share yet, in a library where nothing
    stands in the way, be connected to it. If no operation fails, then the bytes
    the downloader writes are those the server needs to end in success, the bytes
    the server writes are those the downloader needs to end in success, and the
    downloaded output is the shared file, byte for byte. *)
Theorem transfer_completes `{Blake3Laws, AeadLaws} `{WireBincodeLaws} `{DiskEncodes}
    manifest key root out schedule content ds addr options id share action requests replies wc ws :
  let metas := mf_chunks manifest in
  let paths := for_share root (d_share_id (descriptor_from_manifest manifest)) in
  Forall ChunkMeta_wf metas → 2 * zlen metas ≤ u64_max → NoDup (cm_index <$> metas) →
  Forall2 (enciphers manifest key content) metas ds → hash_file_id (concat ds) = mf_file_id manifest →
  mf_chunks manifest = d_chunks (ls_descriptor share) → ls_available_chunks share = cm_index <$> metas →
  no_faults ws → serves share content (w_fs ws) →
  no_faults wc → share_absent (w_fs wc) paths → can_output (w_fs wc) out → apart manifest root out →
  do_library_root options = Some root → (∀ l, schedule l ≡ₚ l) →
  frames (request_of <$> metas) = Ok requests → frames (answer_of content <$> metas) = Ok replies →
  w_in wc = replies → w_in ws = requests →
  ∃ wc' ws',
    download_from_connected schedule (mkConnectedPeer addr manifest key (ls_available_set share)) out options wc
      = (Ok manifest, wc')
    ∧ w_out wc' = w_out wc ++ requests ∧ w_in wc' = [] ∧ file_at (w_fs wc') out = Some (concat ds)
    ∧ serve_chunks id share action Quiet ws = (Ok (ls_descriptor share), ws')
    ∧ w_out ws' = w_out ws ++ replies ∧ w_fs ws' = w_fs ws.
Proof.
  intros metas paths Hwf Hsmall Hnd Hpl Hfile Hch Hav Hnfs Hs Hnfc Habs Hco Hap Hroot Hsch Hreq Hrep Hinc Hins.
  assert (∀ meta, meta ∈ metas → cm_index meta ∈ ls_available_set share) as Hall.
  { intros meta Hm. unfold ls_available_set. rewrite Hav. apply elem_of_list_to_set, list_elem_of_fmap. by exists meta. }
  destruct (wp_run _ _ _ _ (wp_fresh_download manifest key root out Hap schedule Hsch content ds Hwf Hsmall Hnd Hpl Hfile
    addr (ls_available_set share) options replies requests [] wc Hroot Hnfc Habs Hco Hall Hreq Hrep
    ltac:(by rewrite app_nil_r)))
    as [(m & wc' & Hrc & -> & Hf & Hi & Ho)|(? & ? & _ & [])].
  pose proof (answers_all (ls_available_set share) content metas [] Hnd Hall) as Hans.
  change (answers (ls_available_set share) content (zlen (mf_chunks manifest)) ∅ (request_of <$> metas)
          = (answer_of content <$> metas, None)) in Hans. rewrite Hch in Hans.
  destruct (serve_run id share action content (request_of <$> metas) requests replies ws Hnfs Hs Hreq
    ltac:(by apply Forall_fmap, Forall_true) Hins ltac:(by rewrite Hans)) as (ws' & Hrs & Ho' & Hf').
  rewrite Hans in Hrs. by exists wc', ws'.
Qed.

(** * A concrete transfer *)
Import Toy WireSample DiskSample.
Module TransferSample.
Definition manifest : Manifest := ReconstructSample.manifest.
Definition metas : list ChunkMeta := ReconstructSample.metas.
Definition content (i : Z) : bytes :=
  ReconstructSample.cipher i (if decide (i = 0) then str_bytes "he" else str_bytes "llo").
Definition share : LoadedShare :=
  let descriptor := descriptor_from_manifest manifest in
  mkLoadedShare ReconstructSample.paths descriptor
    (EtleSecret_new (d_share_id descriptor) ReconstructSample.key) manifest [0; 1].
Definition bytes_of (ms : list WireMessage) : bytes := match frames ms with Ok f => f | _ => [] end.
Definition requests : bytes := bytes_of (request_of <$> metas).
Definition replies : bytes := bytes_of (answer_of content <$> metas).
Definition options : DownloadFileOptions := with_library_root (DownloadFileOptions_new "peer" Quiet) ["home"%string].
Definition client : World := CryptoSample.world ∅ replies.
Definition server : World := CryptoSample.world (w_fs ReconstructSample.world) requests.
End TransferSample.

Lemma transfer_completes_witness :
  let addr := SocketAddr (IpV4 2130706433) 9000 in
  ∃ wc' ws',
    download_from_connected (λ metas, rev metas)
        (mkConnectedPeer addr TransferSample.manifest ReconstructSample.key (ls_available_set TransferSample.share))
        ["copy"%string] TransferSample.options TransferSample.client
      = (Ok TransferSample.manifest, wc')
    ∧ w_out wc' = w_out TransferSample.client ++ TransferSample.requests ∧ w_in wc' = []
    ∧ file_at (w_fs wc') ["copy"%string] = Some (concat ReconstructSample.plain)
    ∧ serve_chunks (lp_share_id ReconstructSample.paths) TransferSample.share "served" Quiet TransferSample.server
      = (Ok (ls_descriptor TransferSample.share), ws')
    ∧ w_out ws' = w_out TransferSample.server ++ TransferSample.replies ∧ w_fs ws' = w_fs TransferSample.server.
Proof.
  intros addr.
  apply (transfer_completes TransferSample.manifest ReconstructSample.key ["home"%string] ["copy"%string]
    (λ metas, rev metas) TransferSample.content ReconstructSample.plain addr TransferSample.options
    (lp_share_id ReconstructSample.paths) TransferSample.share "served" TransferSample.requests TransferSample.replies
    TransferSample.client TransferSample.server).
  - by_decide.
  - vm_compute. discriminate.
  - by_decide.
  - repeat (apply Forall2_cons; split); [| |apply Forall2_nil; done]; split_and!; vm_compute; reflexivity.
  - vm_compute. reflexivity.
  - reflexivity.
  - reflexivity.
  - by intros n.
  - split; [by_decide|]. intros i Hi. apply elem_of_cons in Hi as [->|Hi]; [|apply list_elem_of_singleton in Hi as ->].
    + split; [vm_compute; reflexivity|]. exists (ReconstructSample.meta 0 (str_bytes "he")).
      split_and!; [left|reflexivity|vm_compute; reflexivity].
    + split; [vm_compute; reflexivity|]. exists (ReconstructSample.meta 1 (str_bytes "llo")).
      split_and!; [right; left|reflexivity|vm_compute; reflexivity].
  - by intros n.
  - split; [split; [reflexivity|apply Forall_forall; intros q _; reflexivity]|]. intros q _. reflexivity.
  - split; [done|]. split; by_decide.
  - split; by_decide.
  - reflexivity.
  - intros l. symmetry. apply Permutation_rev.
  - vm_compute. reflexivity.
  - vm_compute. reflexivity.
  - reflexivity.
  - reflexivity.
Defined.
