(* ===== verification/Discovery.v ===== *)
(** Discovery of peers on the local network ([src/src/discovery]): the client that
    asks for a share and collects the answers, and the server that answers for the
    shares of its library.

    A socket is a [Udp] state: the datagrams that will arrive, the datagrams sent
    so far, and the [World] of files, clock and faults. What arrives is arbitrary,
    and so is the time that passes between two steps. The network interfaces of the
    machine ([get_if_addrs]) are a parameter. *)
From stdpp Require Import base tactics list countable strings gmap sorting.
From Stdlib Require Import ZArith Lia.
From S2P Require Import Prelude Bytes World Files Text Extern Crypto Descriptor State Library.
Local Open Scope Z_scope.
Local Open Scope etle_scope.

(** * Addresses *)
(** [Ord for SocketAddr] *)
Definition addr_key (a : socket_addr) : Z * Z * Z :=
  match addr_ip a with IpV4 x => (0, x, addr_port a) | IpV6 x => (1, x, addr_port a) end.
Definition key_leb (k l : Z * Z * Z) : bool :=
  (k.1.1 <? l.1.1) || (k.1.1 =? l.1.1) && ((k.1.2 <? l.1.2) || (k.1.2 =? l.1.2) && (k.2 <=? l.2)).
Definition addr_leb (a b : socket_addr) : bool := key_leb (addr_key a) (addr_key b).

(** The elements of a [BTreeSet], in order. *)
Definition sorted_addrs (s : gset socket_addr) : list socket_addr := sort_by addr_leb (elements s).

Definition is_multicast (a : Z) : bool := bool_decide (224 ≤ a / 2 ^ 24 ≤ 239).
Definition is_loopback (ip : ip_addr) : bool :=
  match ip with IpV4 x => bool_decide (x / 2 ^ 24 = 127) | IpV6 x => bool_decide (x = 1) end.
Definition is_unspecified (ip : ip_addr) : bool :=
  match ip with IpV4 x | IpV6 x => bool_decide (x = 0) end.
Definition ipv4 (a b c d : Z) : Z := a * 2 ^ 24 + b * 2 ^ 16 + c * 2 ^ 8 + d.

(** * Constants and options *)
Definition DEFAULT_DISCOVERY_PORT : Z := 37037.
Definition DEFAULT_DISCOVERY_TIMEOUT_MS : Z := 3000.
Definition DEFAULT_DISCOVERY_MULTICAST_ADDR : Z := ipv4 239 255 0 86.
Definition DISCOVERY_MAGIC : string := "etle-discovery-v1".
Definition MAX_DISCOVERY_PACKET_SIZE : nat := 4096.

Record DiscoveryOptions := mkDiscoveryOptions {
  dopt_port : Z;
  dopt_timeout : Z;
  dopt_multicast : option Z;
  dopt_verbose : bool;
}.
(** Durations are nanoseconds. *)
Definition DiscoveryOptions_new (port : Z) : DiscoveryOptions :=
  mkDiscoveryOptions port (DEFAULT_DISCOVERY_TIMEOUT_MS * 1000000) (Some DEFAULT_DISCOVERY_MULTICAST_ADDR) false.
Definition with_timeout (o : DiscoveryOptions) (timeout : Z) : DiscoveryOptions :=
  mkDiscoveryOptions (dopt_port o) timeout (dopt_multicast o) (dopt_verbose o).
Definition with_multicast (o : DiscoveryOptions) (multicast : Z) : DiscoveryOptions :=
  mkDiscoveryOptions (dopt_port o) (dopt_timeout o) (if is_multicast multicast then Some multicast else None)
    (dopt_verbose o).
Definition without_multicast (o : DiscoveryOptions) : DiscoveryOptions :=
  mkDiscoveryOptions (dopt_port o) (dopt_timeout o) None (dopt_verbose o).
Definition with_verbose (o : DiscoveryOptions) (verbose : bool) : DiscoveryOptions :=
  mkDiscoveryOptions (dopt_port o) (dopt_timeout o) (dopt_multicast o) verbose.

(** * Messages *)
Inductive DiscoveryMessage :=
  | Query (magic : string) (share_id : ShareId)
  | Response (magic : string) (share_id : ShareId) (listen_addr : socket_addr) (listen_port : Z)
      (peer_id instance_id name : string).
Global Instance DiscoveryMessage_eq_dec : EqDecision DiscoveryMessage.
Proof. solve_decision. Defined.

(** * The socket *)
Record Udp := mkUdp {
  u_world : World;
  u_inbox : list (option (socket_addr * bytes));
  u_sent : list (socket_addr * bytes);
  u_joined : list (Z * Z);
}.
Definition set_world (w : World) (u : Udp) : Udp := mkUdp w (u_inbox u) (u_sent u) (u_joined u).
Definition set_inbox (i : list (option (socket_addr * bytes))) (u : Udp) : Udp :=
  mkUdp (u_world u) i (u_sent u) (u_joined u).
Definition add_sent (m : socket_addr * bytes) (u : Udp) : Udp :=
  mkUdp (u_world u) (u_inbox u) (u_sent u ++ [m]) (u_joined u).
Definition add_joined (j : Z * Z) (u : Udp) : Udp :=
  mkUdp (u_world u) (u_inbox u) (u_sent u) (u_joined u ++ [j]).

Abbreviation udp := (M Udp io_kind).

Definition on_world {E A} (m : M World E A) : M Udp E A := λ u,
  match m (u_world u) with (r, w) => (r, set_world w u) end.
(** A system call on the socket, which may fail. *)
Definition syscall : udp unit := on_world (faulty no_effect (λ w, (Ok tt, w))).

Definition send_to (payload : bytes) (target : socket_addr) : udp unit :=
  do! syscall in
  modify (add_sent (target, payload)).
Definition join_multicast_v4 (multicast interface : Z) : udp unit :=
  do! syscall in
  modify (add_joined (multicast, interface)).
(** A datagram arrives and is cut at the size of the buffer, or ([None], or nothing
    left) the call fails or its time is up. *)
Definition recv_from : udp (bytes * socket_addr) := λ u,
  match u_inbox u with
  | Some (source, data) :: rest => (Ok (take MAX_DISCOVERY_PACKET_SIZE data, source), set_inbox rest u)
  | None :: rest => (Err OtherIo, set_inbox rest u)
  | [] => (Err OtherIo, u)
  end.

(** [get_if_addrs::IfAddr] *)
Inductive IfAddr :=
  | IfV4 (ip netmask : Z) (broadcast : option Z)
  | IfV6.
Record DiscoveryInterface := mkInterface { di_ip : Z; di_broadcast : option Z }.

Definition subnet_broadcast (ip netmask : Z) : option Z :=
  if decide (netmask = u32_max) then None
  else Some (Z.lor ip (Z.lxor u32_max netmask)).

Definition active_interface (addr : IfAddr) : option DiscoveryInterface :=
  match addr with
  | IfV6 => None
  | IfV4 ip netmask broadcast =>
      if is_unspecified (IpV4 ip) then None
      else Some (mkInterface ip (match broadcast with Some b => Some b | None => subnet_broadcast ip netmask end))
  end.

Section network.
Context (get_if_addrs : result io_kind (list IfAddr)).

Definition active_ipv4_interfaces : result io_kind (list DiscoveryInterface) :=
  let? addrs := get_if_addrs in
  Ok (omap active_interface addrs).
(** [.unwrap_or_default()] *)
Definition active_or_none : list DiscoveryInterface :=
  match active_ipv4_interfaces with Ok l => l | _ => [] end.

Definition query_targets (port : Z) (multicast : option Z) : list socket_addr :=
  let target ip := SocketAddr (IpV4 ip) port in
  let targets := {[ target u32_max; target (ipv4 127 0 0 1) ]} : gset socket_addr in
  let targets := match multicast with
                 | Some m => if is_multicast m then {[ target m ]} ∪ targets else targets
                 | None => targets
                 end in
  sorted_addrs (list_to_set (target <$> omap di_broadcast active_or_none) ∪ targets).

Definition join_round (multicast : Z) (_ : unit) (interface : DiscoveryInterface) : udp unit :=
  let! _ignored := try_ (E := io_kind) (join_multicast_v4 multicast (di_ip interface)) in
  ret tt.
Definition join_multicast_on_active_interfaces (multicast : Z) : udp unit :=
  if negb (is_multicast multicast) then ret tt
  else
    do! mfold (join_round multicast) tt active_or_none in
    let! _ignored := try_ (E := io_kind) (join_multicast_v4 multicast 0) in
    ret tt.
End network.

Definition advertised_p2p_addr (p2p_listen : socket_addr) (source_ip : ip_addr) : socket_addr := p2p_listen.

Definition insert_preferred_peer (peers : gmap string socket_addr) (instance_id : string) (candidate : socket_addr)
    : gmap string socket_addr :=
  match peers !! instance_id with
  | None => <[instance_id := candidate]> peers
  | Some existing =>
      if is_loopback (addr_ip candidate) && negb (is_loopback (addr_ip existing))
      then <[instance_id := candidate]> peers else peers
  end.

(** The texts are the [to_string_lossy] of the library root and the [to_string] of
    the address and of the process id. *)
Definition discovery_instance_id `{Blake3} (library_root p2p_listen peer_id pid : string) : string :=
  let h := hasher_updates hasher_new
             (str_bytes <$> [DISCOVERY_MAGIC; peer_id; library_root; p2p_listen; pid]) in
  String.string_of_list_byte (write_hex (array_data (hasher_finalize h))).

Section messages.
Context `{Bincode DiscoveryMessage}.

Definition encode_message (message : DiscoveryMessage) : result io_kind bytes :=
  ok_or (bincode_encode message) InvalidData.
Definition decode_message (b : bytes) : result decode_error DiscoveryMessage :=
  let? r := ok_or (bincode_decode b) DecodeFailed in
  if decide (r.2 ≠ zlen b) then Err (OtherString "discovery message has trailing bytes") else Ok r.1.
End messages.

(** * The client *)
Section client.
Context `{Bincode DiscoveryMessage} (get_if_addrs : result io_kind (list IfAddr)).

Definition found : Type := gmap string socket_addr * gset socket_addr.

(** What a datagram adds. *)
Definition take_response (share_id : ShareId) (st : found) (datagram : bytes) (source : socket_addr) : found :=
  match decode_message datagram with
  | Ok (Response magic response_share_id listen_addr listen_port _ instance_id _) =>
      if decide (magic ≠ DISCOVERY_MAGIC ∨ response_share_id ≠ share_id) then st
      else
        let peer_addr := if is_unspecified (addr_ip listen_addr)
                         then SocketAddr (addr_ip source) listen_port else listen_addr in
        if decide (instance_id = ""%string) then (st.1, {[peer_addr]} ∪ st.2)
        else (insert_preferred_peer st.1 instance_id peer_addr, st.2)
  | _ => st
  end.

Definition client_round (share_id : ShareId) (deadline : Z) (st : found) : udp (found + found) :=
  let! t := on_world now in
  if decide (deadline ≤ t) then ret (inr st)
  else
    let! r := try_ recv_from in
    match r with
    | Ok (datagram, source) => ret (inl (take_response share_id st datagram source))
    | _ => ret (inr st)
    end.

Definition send_round (payload : bytes) (_ : unit) (target : socket_addr) : udp unit :=
  let! _ignored := try_ (E := io_kind) (send_to payload target) in
  ret tt.

Definition peers_with (share_id : ShareId) (options : DiscoveryOptions) : udp (list socket_addr) :=
  do! syscall in
  do! syscall in
  let! payload := lift_result (encode_message (Query DISCOVERY_MAGIC share_id)) in
  do! mfold (send_round payload) tt (query_targets get_if_addrs (dopt_port options) (dopt_multicast options)) in
  let! t := on_world now in
  let! fuel := gets (λ u, S (length (u_inbox u))) in
  let! st := mloop fuel (client_round share_id (t + dopt_timeout options)) (∅, ∅) in
  ret (sorted_addrs (map_to_set (λ _ a, a) st.1 ∪ st.2)).

Definition peers (share_id : ShareId) (discovery_port timeout : Z) : udp (list socket_addr) :=
  peers_with share_id (with_timeout (DiscoveryOptions_new discovery_port) timeout).
End client.

(** * The server *)
Definition is_discoverable_share (share : LocalShareSummary) (w : World) : bool :=
  if negb (ls_has_secret share) then false
  else if negb (match summary_mode share with
                | Some Seeding | Some Completed | Some Downloading => true
                | _ => false
                end) then false
  else if decide (summary_total_chunks share = 0) then false
  else bool_decide (0 < summary_completed_chunks share)
       || existsb (λ chunk, is_file (chunk_path (ls_paths share) (cm_index chunk)) w) (d_chunks (ls_descriptor share)).

Section server.
Context `{Blake3} `{Bincode DiscoveryMessage} `{Bincode EtleDescriptor}.
Context `{Bincode CompactDownloadProgress, Bincode DownloadProgress}.
Context `{Bincode CompactShareState, Bincode ShareState}.
Context (get_if_addrs : result io_kind (list IfAddr)).

Definition local_share_name (library_root : path) (share_id : ShareId) : M World io_kind (option string) :=
  let! shares := try_ (library_list library_root) in
  match shares with
  | Ok shares =>
      let! w := gets id in
      ret ((λ p, d_name (ls_descriptor p.2)) <$>
           list_find (λ share, d_share_id (ls_descriptor share) = share_id
                               ∧ is_discoverable_share share w = true) shares)
  | _ => ret None
  end.

(** The loop body: one datagram, answered or dropped. *)
Definition serve_datagram (library_root : path) (p2p_listen : socket_addr) (peer_id instance_id : string)
    (datagram : bytes) (source : socket_addr) : udp unit :=
  match decode_message datagram with
  | Ok (Query magic share_id) =>
      if decide (magic ≠ DISCOVERY_MAGIC) then ret tt
      else
        let! name := on_world (local_share_name library_root share_id) in
        match name with
        | None => ret tt
        | Some name =>
            let listen_addr := advertised_p2p_addr p2p_listen (addr_ip source) in
            let response := Response DISCOVERY_MAGIC share_id listen_addr (addr_port p2p_listen) peer_id
                              instance_id name in
            match encode_message response with
            | Ok payload =>
                let! _ignored := try_ (E := io_kind) (send_to payload source) in
                ret tt
            | _ => ret tt
            end
        end
  | _ => ret tt
  end.

Definition answer_round (library_root : path) (p2p_listen : socket_addr) (peer_id instance_id : string) (_ : unit)
    : udp (unit + unit) :=
  let! r := recv_from in
  do! serve_datagram library_root p2p_listen peer_id instance_id r.1 r.2 in
  ret (inl tt).

(** [instance_id] is the one of [discovery_instance_id]; the loop ends when the
    socket fails. *)
Definition serve_with (library_root : path) (p2p_listen : socket_addr) (peer_id instance_id : string)
    (options : DiscoveryOptions) : udp unit :=
  do! syscall in
  do! syscall in
  do! match dopt_multicast options with
      | Some multicast => join_multicast_on_active_interfaces get_if_addrs multicast
      | None => ret tt
      end in
  let! fuel := gets (λ u, S (length (u_inbox u))) in
  mloop fuel (answer_round library_root p2p_listen peer_id instance_id) tt.

Definition serve (library_root : path) (p2p_listen : socket_addr) (peer_id instance_id : string)
    (discovery_port : Z) : udp unit :=
  serve_with library_root p2p_listen peer_id instance_id (DiscoveryOptions_new discovery_port).
End server.

(** * Facts about addresses *)
Lemma key_leb_spec k l :
  key_leb k l = true ↔ k.1.1 < l.1.1 ∨ (k.1.1 = l.1.1 ∧ (k.1.2 < l.1.2 ∨ (k.1.2 = l.1.2 ∧ k.2 ≤ l.2))).
Proof.
  unfold key_leb. by rewrite orb_true_iff, andb_true_iff, orb_true_iff, andb_true_iff, !Z.ltb_lt, !Z.eqb_eq, Z.leb_le.
Qed.

Lemma addr_leb_total a b : addr_leb a b = false → addr_leb b a = true.
Proof.
  unfold addr_leb. rewrite <- not_true_iff_false, !key_leb_spec. lia.
Qed.

Lemma addr_leb_trans a b c : addr_leb a b = true → addr_leb b c = true → addr_leb a c = true.
Proof. unfold addr_leb. rewrite !key_leb_spec. lia. Qed.

(** The order a [BTreeSet] of addresses is listed in. *)
Definition addrs_ascend (l : list socket_addr) : Prop :=
  StronglySorted (λ a b, addr_leb a b = true ∧ a ≠ b) l.

Lemma sorted_addrs_ascend s : addrs_ascend (sorted_addrs s).
Proof.
  assert (NoDup (sorted_addrs s)) as Hnd by (unfold sorted_addrs; rewrite sort_by_perm; apply NoDup_elements).
  pose proof (sort_by_sorted addr_leb addr_leb_total addr_leb_trans (elements s)) as Hs.
  fold (sorted_addrs s) in Hs. unfold addrs_ascend. induction Hs as [|x l Hl IH Hx]; [constructor|].
  apply NoDup_cons in Hnd as [Hx' Hnd]. constructor; [by apply IH|].
  rewrite Forall_forall in Hx |- *. intros y Hy. split; [by apply Hx|]. by intros ->.
Qed.

Lemma elem_of_sorted_addrs a s : a ∈ sorted_addrs s ↔ a ∈ s.
Proof. unfold sorted_addrs. by rewrite sort_by_perm, elem_of_elements. Qed.

(** The network mask of a prefix of [n] bits. *)
Definition prefix_mask (n : Z) : Z := Z.lxor u32_max (Z.ones (32 - n)).

Lemma u32_max_ones : u32_max = Z.ones 32.
Proof. reflexivity. Qed.

(** * Facts about the socket *)
Lemma wp_on_world {E A} (m : M World E A) (Q : A → Udp → Prop) (R : E → Udp → Prop) u :
  wp m (λ a w, Q a (set_world w u)) (λ e w, R e (set_world w u)) (u_world u) → wp (on_world m) Q R u.
Proof. unfold wp, on_world. by destruct (m (u_world u)) as [[] ?]. Qed.

(** [quiet u u']: between [u] and [u'] nothing was received or sent, and no file changed. *)
Definition quiet (u u' : Udp) : Prop :=
  stepped (u_world u) (u_world u') ∧ u_inbox u' = u_inbox u ∧ u_sent u' = u_sent u.

Global Instance quiet_preorder : PreOrder quiet.
Proof.
  split; [done|]. intros u1 u2 u3 (H1 & H2 & H3) (G1 & G2 & G3).
  split; [by etrans | by rewrite G2, G3].
Qed.

Lemma wp_syscall (Q : unit → Udp → Prop) (R : io_kind → Udp → Prop) u :
  (∀ k u', quiet u u' → ¬ no_faults (u_world u) → R k u') → (∀ u', quiet u u' → Q tt u') →
  wp syscall Q R u.
Proof.
  intros HR HQ. apply wp_on_world, wp_faulty; [intros f Hf|intros _].
  - apply HR; [done|]. eauto with etle.
  - by apply HQ.
Qed.

Lemma wp_send_to payload target (Q : unit → Udp → Prop) (R : io_kind → Udp → Prop) u :
  (∀ k u', quiet u u' → ¬ no_faults (u_world u) → R k u') →
  (∀ u', stepped (u_world u) (u_world u') → u_inbox u' = u_inbox u →
         u_sent u' = u_sent u ++ [(target, payload)] → Q tt u') →
  wp (send_to payload target) Q R u.
Proof.
  intros HR HQ. unfold send_to. wp_simpl. apply wp_syscall; [done|].
  intros u' (Hs & Hi & Ho). apply wp_modify, HQ; simpl; [done|done|by rewrite Ho].
Qed.

(** What [recv_from] may do: a datagram, or an error that is dropped from the inbox. *)
Lemma wp_recv_from (Q : bytes * socket_addr → Udp → Prop) (R : io_kind → Udp → Prop) u :
  (∀ source data rest, u_inbox u = Some (source, data) :: rest →
     Q (take MAX_DISCOVERY_PACKET_SIZE data, source) (set_inbox rest u)) →
  (∀ u', u_inbox u = [] ∧ u' = u ∨ (∃ rest, u_inbox u = None :: rest ∧ u' = set_inbox rest u) → R OtherIo u') →
  wp recv_from Q R u.
Proof.
  intros HQ HR. unfold wp, recv_from. destruct (u_inbox u) as [|[[source data]|] rest] eqn:Hi.
  - apply HR. by left.
  - by apply HQ.
  - apply HR. right. by exists rest.
Qed.

(** The datagrams [heard] were taken from the inbox of [u0]. *)
Definition heard_so_far (u0 u : Udp) (heard : list (socket_addr * bytes)) : Prop :=
  u_inbox u0 = (Some <$> heard) ++ u_inbox u.

Lemma heard_snoc u0 u heard source data rest :
  heard_so_far u0 u heard → u_inbox u = Some (source, data) :: rest →
  heard_so_far u0 (set_inbox rest u) (heard ++ [(source, data)]).
Proof. unfold heard_so_far. intros -> ->. by rewrite fmap_app, <- app_assoc. Qed.

(** The receiver stopped because the socket did: nothing is left, or an error came. *)
Definition socket_stopped (u0 : Udp) (heard : list (socket_addr * bytes)) (u : Udp) : Prop :=
  u_inbox u0 = Some <$> heard ∧ u_inbox u = []
  ∨ u_inbox u0 = (Some <$> heard) ++ None :: u_inbox u.

Lemma stop_heard u0 u heard u' :
  heard_so_far u0 u heard →
  u_inbox u = [] ∧ u' = u ∨ (∃ rest, u_inbox u = None :: rest ∧ u' = set_inbox rest u) →
  socket_stopped u0 heard u'.
Proof.
  unfold heard_so_far, socket_stopped. intros Hh [[Hi ->]|(rest & Hi & ->)]; rewrite Hi in Hh.
  - left. by rewrite app_nil_r in Hh.
  - right. simpl. done.
Qed.

(** * The client *)
Section client_spec.
Context `{Bincode DiscoveryMessage} (share_id : ShareId).

(** What a datagram says about the share: the instance that answers and its address. *)
Definition answer_of (m : socket_addr * bytes) : option (string * socket_addr) :=
  match decode_message (take MAX_DISCOVERY_PACKET_SIZE m.2) with
  | Ok (Response magic id listen_addr listen_port _ instance_id _) =>
      if decide (magic = DISCOVERY_MAGIC ∧ id = share_id)
      then Some (instance_id, if is_unspecified (addr_ip listen_addr)
                              then SocketAddr (addr_ip m.1) listen_port else listen_addr)
      else None
  | _ => None
  end.

(** The address used for an instance: its first loopback address, or its first one. *)
Definition preferred (id : string) (answers : list (string * socket_addr)) : option socket_addr :=
  let mine := (filter (λ x, x.1 = id) answers).*2 in
  match head (filter (λ a, is_loopback (addr_ip a) = true) mine) with
  | Some a => Some a
  | None => head mine
  end.

(** The peers of a list of answers. *)
Definition peer_of (answers : list (string * socket_addr)) (a : socket_addr) : Prop :=
  (""%string, a) ∈ answers ∨ ∃ id, id ≠ ""%string ∧ preferred id answers = Some a.

Definition holds_answers (answers : list (string * socket_addr)) (st : found) : Prop :=
  (∀ a, a ∈ st.2 ↔ (""%string, a) ∈ answers)
  ∧ ∀ id, st.1 !! id = if decide (id = ""%string) then None else preferred id answers.

Lemma preferred_snoc id answers id' a :
  preferred id (answers ++ [(id', a)]) =
  if decide (id' = id)
  then match preferred id answers with
       | None => Some a
       | Some b => if is_loopback (addr_ip a) && negb (is_loopback (addr_ip b)) then Some a else Some b
       end
  else preferred id answers.
Proof.
  unfold preferred. rewrite filter_app, fmap_app, filter_app.
  destruct (decide (id' = id)) as [->|Hne].
  - rewrite (filter_cons_True _ (id, a)) by done. cbn [filter fmap list_fmap snd].
    set (mine := (filter _ answers).*2). clearbody mine.
    assert (∀ b, b ∈ filter (λ a, is_loopback (addr_ip a) = true) mine → is_loopback (addr_ip b) = true) as Hall.
    { intros b. rewrite list_elem_of_filter. by intros []. }
    destruct (filter (λ a, is_loopback (addr_ip a) = true) mine) as [|b lb] eqn:Hlb.
    + cbn [app head]. destruct (is_loopback (addr_ip a)) eqn:Ha.
      * rewrite filter_cons_True by done. cbn [head]. destruct mine as [|b mine]; [done|]. cbn [head andb].
        destruct (is_loopback (addr_ip b)) eqn:Hb; [|done].
        rewrite filter_cons_True in Hlb by done. discriminate.
      * rewrite filter_cons_False by (by rewrite Ha). cbn [filter head andb].
        by destruct mine as [|b mine].
    + cbn [app head]. rewrite (Hall b) by left. by rewrite andb_false_r.
  - rewrite (filter_cons_False _ (id', a)) by done. cbn. by rewrite !app_nil_r.
Qed.

Lemma holds_answers_nil : holds_answers [] (∅, ∅).
Proof. split; [set_solver|]. intros id. cbn [fst]. rewrite lookup_empty. by destruct (decide _). Qed.

Lemma take_response_holds answers st source data :
  holds_answers answers st →
  holds_answers (answers ++ option_list (answer_of (source, data)))
    (take_response share_id st (take MAX_DISCOVERY_PACKET_SIZE data) source).
Proof.
  intros Hst. unfold take_response, answer_of. cbn [fst snd].
  destruct (decode_message _) as [[|magic id listen_addr listen_port peer_id instance_id name]|e| |];
    cbn [option_list option_rect]; rewrite ?app_nil_r; try done.
  destruct (decide (magic = DISCOVERY_MAGIC ∧ id = share_id)) as [[-> ->]|Hno].
  - rewrite decide_False by (by intros [?|?]). cbn [option_list option_rect].
    set (a := if is_unspecified _ then _ else _). clearbody a. destruct Hst as [H2 H1].
    destruct (decide (instance_id = ""%string)) as [->|Hne].
    + split; cbn [fst snd].
      * intros b. rewrite elem_of_union, elem_of_singleton, H2, elem_of_app, list_elem_of_singleton. naive_solver.
      * intros id. rewrite H1, preferred_snoc. destruct (decide (id = ""%string)) as [|Hid]; [done|].
        by rewrite (decide_False (P := ""%string = id)) by congruence.
    + split; cbn [fst snd].
      * intros b. rewrite H2, elem_of_app, list_elem_of_singleton. naive_solver.
      * intros id. rewrite preferred_snoc. unfold insert_preferred_peer. rewrite H1.
        rewrite (decide_False (P := instance_id = ""%string)) by done.
        destruct (decide (instance_id = id)) as [<-|Hid].
        -- rewrite (decide_False (P := instance_id = ""%string)) by done.
           destruct (preferred instance_id answers) as [b|] eqn:Hb; [|by rewrite lookup_insert_eq].
           destruct (_ && _); [by rewrite lookup_insert_eq|].
           by rewrite H1, decide_False, Hb.
        -- destruct (preferred instance_id answers) as [b|];
             [destruct (_ && _)|]; rewrite ?lookup_insert_ne by done; apply H1.
  - rewrite decide_True; [|destruct (decide (magic = DISCOVERY_MAGIC)); [right; naive_solver|by left]].
    by rewrite app_nil_r.
Qed.

Lemma holds_answers_peers answers st a :
  holds_answers answers st →
  a ∈ sorted_addrs (map_to_set (λ _ a, a) st.1 ∪ st.2) ↔ peer_of answers a.
Proof.
  intros [H2 H1]. rewrite elem_of_sorted_addrs, elem_of_union, H2, elem_of_map_to_set.
  unfold peer_of. setoid_rewrite H1. split.
  - intros [(id & b & Hb & ->)|]; [|by left]. destruct (decide (id = ""%string)); [done|]. right. by exists id.
  - intros [|(id & Hid & Hp)]; [by right|]. left. exists id, a. by rewrite decide_False.
Qed.

(** The clock passed the deadline, counted from some reading of it. *)
Definition time_is_up (timeout : Z) (u : Udp) : Prop :=
  ∃ start stop, env_clock (w_env (u_world u)) start + timeout ≤ env_clock (w_env (u_world u)) stop.

Lemma wp_client_loop timeout start u0 fuel :
  (length (u_inbox u0) < fuel)%nat →
  wp (mloop fuel (client_round share_id (env_clock (w_env (u_world u0)) start + timeout)) (∅, ∅))
    (λ st u, stepped (u_world u0) (u_world u) ∧ u_sent u = u_sent u0 ∧ ∃ heard,
       holds_answers (omap answer_of heard) st
       ∧ (socket_stopped u0 heard u ∨ heard_so_far u0 u heard ∧ time_is_up timeout u0))
    (λ (_ : io_kind) _, False) u0.
Proof.
  intros Hfuel.
  apply (wp_mloop _ (λ st u, stepped (u_world u0) (u_world u) ∧ u_sent u = u_sent u0 ∧ ∃ heard,
           holds_answers (omap answer_of heard) st ∧ heard_so_far u0 u heard) (λ _ u, length (u_inbox u))).
  - split; [done|]. split; [done|]. exists []. split; [apply holds_answers_nil|done].
  - done.
  - clear Hfuel. intros st u (Hst & Hsent & heard & Hans & Hheard). unfold client_round. wp_simpl.
    apply wp_on_world. unfold wp at 1, now. case_decide as Hdl.
    + wp_simpl. split; [by etrans|]. split; [done|]. exists heard. split; [done|]. right. split; [done|].
      exists start, (w_step (u_world u)). rewrite (stepped_env _ _ Hst) in Hdl. exact Hdl.
    + wp_simpl. apply wp_recv_from.
      * intros source data rest Hin. cbn [u_inbox set_world] in Hin. wp_simpl. split; [|rewrite Hin; simpl; lia].
        split; [by etrans|]. split; [done|]. exists (heard ++ [(source, data)]).
        split; [|by eapply (heard_snoc u0 (set_world (tick (u_world u)) u))].
        rewrite omap_app. cbn [omap list_omap]. by apply take_response_holds.
      * intros u' Hu'. wp_simpl. pose proof (stop_heard u0 (set_world (tick (u_world u)) u) heard u' Hheard Hu') as Hstop.
        assert (stepped (u_world u0) (u_world u') ∧ u_sent u' = u_sent u0) as [??].
        { destruct Hu' as [[_ ->]|(rest & _ & ->)]; (split; [by etrans|done]). }
        split; [done|]. split; [done|]. exists heard. split; [done|]. by left.
Qed.
End client_spec.

Lemma wp_send_round payload targets u :
  wp (mfold (send_round payload) tt targets)
    (λ _ u', stepped (u_world u) (u_world u') ∧ u_inbox u' = u_inbox u
       ∧ (∃ sent, sent `sublist_of` targets ∧ u_sent u' = u_sent u ++ ((λ t, (t, payload)) <$> sent)
                  ∧ (no_faults (u_world u) → sent = targets)))
    (λ _ _, False) u.
Proof.
  apply (wp_mfold _ (λ done_ _ u', stepped (u_world u) (u_world u') ∧ u_inbox u' = u_inbox u
       ∧ (∃ sent, sent `sublist_of` done_ ∧ u_sent u' = u_sent u ++ ((λ t, (t, payload)) <$> sent)
                  ∧ (no_faults (u_world u) → sent = done_)))).
  - split; [done|]. split; [done|]. exists []. split; [done|]. split; [|done]. by rewrite app_nil_r.
  - intros done_ target rest [] u1 _ (Hst & Hin & sent & Hsub & Hsent & Hall). unfold send_round. wp_simpl.
    apply wp_send_to.
    + intros k u2 (Hst2 & Hin2 & Hsent2) Hf. wp_simpl. split; [by etrans|]. split; [by rewrite Hin2|].
      exists sent. split; [by apply sublist_inserts_r|]. split; [by rewrite Hsent2|].
      intros Hn. destruct Hf. by apply (stepped_no_faults _ _ Hst).
    + intros u2 Hst2 Hin2 Hsent2. wp_simpl. split; [by etrans|]. split; [by rewrite Hin2|].
      exists (sent ++ [target]). split; [by apply sublist_app|]. split.
      * by rewrite Hsent2, Hsent, fmap_app, <- app_assoc.
      * intros Hn. by rewrite Hall.
Qed.

(** * The server *)
Section server_spec.
Context `{Blake3} `{Bincode DiscoveryMessage} `{Bincode EtleDescriptor}.
Context `{Bincode CompactDownloadProgress, Bincode DownloadProgress}.
Context `{Bincode CompactShareState, Bincode ShareState}.
Context (library_root : path) (p2p_listen : socket_addr) (peer_id instance_id : string).

(** The library holds the share, and it may be announced under this name. *)
Definition offered (w : World) (share_id : ShareId) (name : string) : Prop :=
  ∃ share, summary_valid (w_fs w) library_root share ∧ d_share_id (ls_descriptor share) = share_id
    ∧ is_discoverable_share share w = true ∧ d_name (ls_descriptor share) = name.

Lemma is_discoverable_share_stepped share w w' :
  stepped w w' → is_discoverable_share share w' = is_discoverable_share share w.
Proof.
  intros Hst. unfold is_discoverable_share, is_file. by rewrite (stepped_fs _ _ Hst).
Qed.

Lemma offered_stepped w w' share_id name : stepped w w' → offered w' share_id name → offered w share_id name.
Proof.
  intros Hst (share & Hv & Hid & Hd & Hname). exists share.
  rewrite (stepped_fs _ _ Hst) in Hv. rewrite (is_discoverable_share_stepped share _ _ Hst) in Hd. done.
Qed.

Lemma wp_local_share_name share_id w :
  wp (local_share_name library_root share_id)
    (λ name w', stepped w w' ∧ ∀ n, name = Some n → offered w share_id n) (λ _ _, False) w.
Proof.
  unfold local_share_name. wp_simpl. wp_use wp_library_list.
  - intros shares w' (Hst & Hvalid & _). wp_simpl. split; [done|]. intros n Hn.
    apply fmap_Some in Hn as ([i share] & Hfind & ->). apply list_find_Some in Hfind as (Hi & [Hid Hd] & _).
    exists share. rewrite Forall_forall in Hvalid. split; [by apply Hvalid; apply list_elem_of_lookup; exists i|].
    split; [done|]. split; [|done]. rewrite <- (is_discoverable_share_stepped share _ _ Hst). exact Hd.
  - intros e w' Hst. wp_simpl. done.
Qed.

(** The reply [r] answers the received datagram [m]. *)
Definition answers_query (w : World) (m r : socket_addr * bytes) : Prop :=
  r.1 = m.1 ∧ ∃ share_id name,
    decode_message (take MAX_DISCOVERY_PACKET_SIZE m.2) = Ok (Query DISCOVERY_MAGIC share_id)
    ∧ offered w share_id name
    ∧ encode_message (Response DISCOVERY_MAGIC share_id p2p_listen (addr_port p2p_listen) peer_id instance_id name)
      = Ok r.2.

Lemma wp_serve_datagram source data u :
  wp (serve_datagram library_root p2p_listen peer_id instance_id (take MAX_DISCOVERY_PACKET_SIZE data) source)
    (λ _ u', stepped (u_world u) (u_world u') ∧ u_inbox u' = u_inbox u
       ∧ (u_sent u' = u_sent u ∨ ∃ r, u_sent u' = u_sent u ++ [r] ∧ answers_query (u_world u) (source, data) r))
    (λ _ _, False) u.
Proof.
  set (post := λ _ : unit, λ u' : Udp, _).
  assert (∀ u', quiet u u' → post tt u') as Hquiet by (intros u' (? & ? & ?); split_and!; [done|done|by left]).
  unfold serve_datagram.
  destruct (decode_message _) as [[magic share_id|]|e| |] eqn:Hdec; try (wp_simpl; by apply Hquiet).
  case_decide as Hmagic; [wp_simpl; by apply Hquiet|]. subst magic.
  wp_simpl. apply wp_on_world. wp_use wp_local_share_name; [|done].
  intros [name|] w (Hst & Hname); [|wp_simpl; by apply Hquiet].
  destruct (encode_message _) as [payload|e| |] eqn:Henc; try (wp_simpl; by apply Hquiet).
  wp_simpl. apply wp_send_to.
  - intros k u' (Hst' & Hin & Hsent) _. wp_simpl. apply Hquiet. split; [by etrans|done].
  - intros u' Hst' Hin Hsent. wp_simpl. split; [by etrans|]. split; [done|]. right. exists (source, payload).
    split; [done|]. split; [done|]. exists share_id, name. by split_and!; [|apply Hname|].
Qed.

(** What the server has done since [u0], having received [heard]. *)
Definition server_did (u0 : Udp) (heard : list (socket_addr * bytes)) (u : Udp) : Prop :=
  stepped (u_world u0) (u_world u) ∧ ∃ answered replies,
    answered `sublist_of` heard ∧ u_sent u = u_sent u0 ++ replies
    ∧ Forall2 (answers_query (u_world u0)) answered replies.

Lemma answers_query_stepped w w' m r : stepped w w' → answers_query w' m r → answers_query w m r.
Proof.
  intros Hst (Hr & share_id & name & Hdec & Hoff & Henc). split; [done|]. exists share_id, name.
  split_and!; [done| |done]. by eapply offered_stepped.
Qed.

Lemma server_did_snoc u0 heard u m u' :
  server_did u0 heard u → stepped (u_world u) (u_world u') →
  (u_sent u' = u_sent u ∨ ∃ r, u_sent u' = u_sent u ++ [r] ∧ answers_query (u_world u) m r) →
  server_did u0 (heard ++ [m]) u'.
Proof.
  intros (Hst & answered & replies & Hsub & Hsent & Hans) Hst' Hm. split; [by etrans|].
  destruct Hm as [Hm|(r & Hm & Hr)]; rewrite Hm, Hsent.
  - exists answered, replies. split_and!; [by apply sublist_inserts_r|done|done].
  - exists (answered ++ [m]), (replies ++ [r]). split_and!; [by apply sublist_app|by rewrite <- app_assoc|].
    apply Forall2_app; [done|]. constructor; [|done]. by eapply answers_query_stepped.
Qed.

Lemma wp_serve_loop u0 fuel :
  (length (u_inbox u0) < fuel)%nat →
  wp (mloop fuel (answer_round library_root p2p_listen peer_id instance_id) tt) (λ _ _, False)
    (λ _ u, ∃ heard, socket_stopped u0 heard u ∧ server_did u0 heard u) u0.
Proof.
  intros Hfuel.
  apply (wp_mloop _ (λ _ u, ∃ heard, heard_so_far u0 u heard ∧ server_did u0 heard u) (λ _ u, length (u_inbox u))).
  - exists []. split; [done|]. split; [done|]. exists [], []. by rewrite app_nil_r.
  - done.
  - clear Hfuel. intros [] u (heard & Hheard & Hdid). unfold answer_round. wp_simpl. apply wp_recv_from.
    + intros source data rest Hin. wp_simpl. cbn [fst snd]. wp_use wp_serve_datagram; [|done].
      intros _ u' (Hst & Hin' & Hsent). wp_simpl. split.
      * exists (heard ++ [(source, data)]). split; [|by eapply server_did_snoc].
        pose proof (heard_snoc _ _ _ _ _ _ Hheard Hin) as Hnext. unfold heard_so_far in *. by rewrite Hin'.
      * rewrite Hin', Hin. simpl. lia.
    + intros u' Hu'. exists heard. split; [by eapply stop_heard|].
      by destruct Hu' as [[_ ->]|(rest & _ & ->)].
Qed.
End server_spec.

Lemma wp_join_multicast gi multicast u :
  wp (join_multicast_on_active_interfaces gi multicast) (λ _ u', quiet u u') (λ _ _, False) u.
Proof.
  assert (∀ (i : Z) u, wp (let! _ignored := try_ (E := io_kind) (join_multicast_v4 multicast i) in ret (E := io_kind) tt)
            (λ _ u', quiet u u') (λ _ _, False) u) as Hjoin.
  { intros i u1. unfold join_multicast_v4. wp_simpl. apply wp_syscall; [intros k u2 Hq _|intros u2 Hq]; by wp_simpl. }
  unfold join_multicast_on_active_interfaces. destruct (is_multicast multicast); cbn [negb]; [|by wp_simpl].
  apply wp_bind. apply wp_mono with (Q := λ _ u', quiet u u') (R := λ _ _, False); [| |done].
  - apply (wp_mfold (join_round multicast) (λ _ _ u', quiet u u')); [done|].
    intros done_ interface rest [] u1 _ Hq. unfold join_round. wp_use Hjoin; [|done]. intros [] u2 Hq'. by etrans.
  - intros [] u1 Hq. wp_use Hjoin; [|done]. intros [] u2 Hq'. by etrans.
Qed.

(** * What the theorems need of whole runs *)
Section client_run.
Context `{Bincode DiscoveryMessage} (gi : result io_kind (list IfAddr)).

(** The outcome of a client that got as far as listening. *)
Definition client_outcome (share_id : ShareId) (options : DiscoveryOptions) (u : Udp)
    (peers : list socket_addr) (u' : Udp) : Prop :=
  stepped (u_world u) (u_world u')
  ∧ (∃ payload sent, encode_message (Query DISCOVERY_MAGIC share_id) = Ok payload
       ∧ sent `sublist_of` query_targets gi (dopt_port options) (dopt_multicast options)
       ∧ u_sent u' = u_sent u ++ ((λ t, (t, payload)) <$> sent)
       ∧ (no_faults (u_world u) → sent = query_targets gi (dopt_port options) (dopt_multicast options)))
  ∧ addrs_ascend peers
  ∧ ∃ heard, (socket_stopped u heard u' ∨ heard_so_far u u' heard ∧ time_is_up (dopt_timeout options) u)
       ∧ ∀ a, a ∈ peers ↔ peer_of (omap (answer_of share_id) heard) a.

Lemma wp_peers_with share_id options u :
  wp (peers_with gi share_id options) (client_outcome share_id options u)
    (λ _ u', quiet u u' ∧ (no_faults (u_world u) → ∀ payload, encode_message (Query DISCOVERY_MAGIC share_id) ≠ Ok payload)) u.
Proof.
  unfold peers_with. wp_simpl. apply wp_syscall; [done|]. intros u1 Hq1. wp_simpl.
  apply wp_syscall; [intros k u2 Hq2 Hf|intros u2 Hq2].
  { split; [by etrans|]. intros Hn. destruct Hf. by apply (stepped_no_faults _ _ (proj1 Hq1)). }
  assert (quiet u u2) as Hq by (by etrans). clear u1 Hq1 Hq2. wp_simpl.
  assert (∃ e, encode_message (Query DISCOVERY_MAGIC share_id) = Err e
             ∨ ∃ p, encode_message (Query DISCOVERY_MAGIC share_id) = Ok p) as (e & [Henc|[payload Henc]]).
  { exists InvalidData. unfold encode_message. destruct (bincode_encode _) as [p|]; [right; by exists p|by left]. }
  { rewrite Henc. by split. }
  rewrite Henc.
  wp_simpl. wp_use wp_send_round; [|done]. intros _ u3 (Hst3 & Hin3 & sent & Hsub & Hsent & Hall).
  destruct Hq as (Hst2 & Hin2 & Hsent2). wp_simpl.
  apply wp_on_world. unfold wp at 1, now. wp_simpl.
  set (u4 := set_world (tick (u_world u3)) u3). change (u_world u3) with (u_world u3).
  assert (env_clock (w_env (u_world u3)) (w_step (u_world u3)) = env_clock (w_env (u_world u4)) (w_step (u_world u3))) as -> by done.
  wp_use (wp_client_loop share_id (dopt_timeout options) (w_step (u_world u3)) u4); [simpl; lia| |done].
  assert (stepped (u_world u) (u_world u4)) as Hst4 by (by do 2 (etrans; [eassumption|])).
  assert (u_inbox u4 = u_inbox u) as Hin4 by (simpl; congruence).
  intros st u' (Hst & Hs' & heard & Hans & Hstop). wp_simpl. split; [by etrans|]. split.
  { exists payload, sent. split; [done|]. split; [done|]. split.
    - rewrite Hs'. simpl. by rewrite Hsent, Hsent2.
    - intros Hn. by apply Hall, (stepped_no_faults _ _ Hst2). }
  split; [apply sorted_addrs_ascend|]. exists heard. split; [|intros a; by apply holds_answers_peers].
  unfold socket_stopped, heard_so_far, time_is_up in *. rewrite <- Hin4.
  by rewrite (stepped_env _ _ Hst4) in Hstop.
Qed.
End client_run.

Section server_run.
Context `{Blake3} `{Bincode DiscoveryMessage} `{Bincode EtleDescriptor}.
Context `{Bincode CompactDownloadProgress, Bincode DownloadProgress}.
Context `{Bincode CompactShareState, Bincode ShareState}.
Context (gi : result io_kind (list IfAddr)) (library_root : path) (p2p_listen : socket_addr) (peer_id instance_id : string).

Lemma server_did_from u0 u1 heard u :
  quiet u0 u1 → server_did library_root p2p_listen peer_id instance_id u1 heard u →
  server_did library_root p2p_listen peer_id instance_id u0 heard u.
Proof.
  intros (Hst & _ & Hsent) (Hst' & answered & replies & Hsub & Hs & Hans). split; [by etrans|].
  exists answered, replies. split_and!; [done|by rewrite Hs, Hsent|].
  eapply Forall2_impl; [done|]. intros m r. by apply answers_query_stepped.
Qed.

Lemma wp_serve_with options u :
  wp (serve_with gi library_root p2p_listen peer_id instance_id options) (λ _ _, False)
    (λ _ u', ∃ heard, server_did library_root p2p_listen peer_id instance_id u heard u'
       ∧ (socket_stopped u heard u' ∨ heard = [] ∧ quiet u u' ∧ ¬ no_faults (u_world u))) u.
Proof.
  assert (∀ u', quiet u u' → server_did library_root p2p_listen peer_id instance_id u [] u') as Hnone.
  { intros u' (Hst & Hin & Hsent). split; [done|]. exists [], []. rewrite app_nil_r. by split_and!. }
  unfold serve_with. wp_simpl. apply wp_syscall.
  { intros k u1 Hq1 Hf. exists []. split; [by apply Hnone|]. by right. }
  intros u1 Hq1. wp_simpl. apply wp_syscall.
  { intros k u2 Hq2 Hf. assert (quiet u u2) by (by etrans). exists []. split; [by apply Hnone|]. right.
    split; [done|]. split; [done|]. intros Hn. destruct Hf. by apply (stepped_no_faults _ _ (proj1 Hq1)). }
  intros u2 Hq2. assert (quiet u u2) as Hq by (by etrans). clear u1 Hq1 Hq2. wp_simpl.
  apply wp_mono with (Q := λ _ u3, quiet u2 u3) (R := λ _ _, False); [| |done].
  { destruct (dopt_multicast options); [apply wp_join_multicast|by wp_simpl]. }
  intros [] u3 Hq3. assert (quiet u u3) as Hq' by (by etrans). wp_simpl.
  wp_use wp_serve_loop; [lia|done|]. intros e u' (heard & Hstop & Hdid). exists heard.
  split; [by eapply server_did_from|]. left.
  unfold socket_stopped in *. by rewrite <- (proj1 (proj2 Hq')).
Qed.
End server_run.

Lemma decode_encode_message `{BincodeLaws DiscoveryMessage} message payload :
  encode_message message = Ok payload → decode_message payload = Ok message.
Proof.
  unfold encode_message, decode_message. rewrite ok_or_Ok. intros Henc.
  pose proof (bincode_decode_encode _ _ [] Henc) as Hdec. rewrite app_nil_r in Hdec. rewrite Hdec. cbn.
  rewrite decide_False; [done|]. by intros [].
Qed.

Lemma decode_encode_packet `{BincodeLaws DiscoveryMessage} message payload :
  encode_message message = Ok payload → (length payload ≤ MAX_DISCOVERY_PACKET_SIZE)%nat →
  decode_message (take MAX_DISCOVERY_PACKET_SIZE payload) = Ok message.
Proof. intros ? ?. rewrite take_ge by done. by apply decode_encode_message. Qed.

(** The address a client uses for a server that listens on [p2p_listen] and answers from [ip]. *)
Definition reached_at (p2p_listen : socket_addr) (ip : ip_addr) : socket_addr :=
  if is_unspecified (addr_ip p2p_listen) then SocketAddr ip (addr_port p2p_listen) else p2p_listen.

Lemma answer_of_response `{BincodeLaws DiscoveryMessage} share_id p2p_listen peer_id instance_id name payload source :
  encode_message (Response DISCOVERY_MAGIC share_id p2p_listen (addr_port p2p_listen) peer_id instance_id name)
    = Ok payload →
  (length payload ≤ MAX_DISCOVERY_PACKET_SIZE)%nat →
  answer_of share_id (source, payload) = Some (instance_id, reached_at p2p_listen (addr_ip source)).
Proof.
  intros Henc Hlen. unfold answer_of. cbn [fst snd]. rewrite (decode_encode_packet _ _ Henc) by done.
  by rewrite decide_True.
Qed.

Lemma peer_of_single id a b : peer_of [(id, a)] b ↔ b = a.
Proof.
  unfold peer_of, preferred. rewrite list_elem_of_singleton. split.
  - intros [[= _ ->]|(id' & _ & Hp)]; [done|]. destruct (decide (id = id')) as [->|].
    + rewrite filter_cons_True in Hp by done. cbn [filter fmap list_fmap snd] in Hp.
      revert Hp. cbn. by case_decide; intros [= ->].
    + by rewrite filter_cons_False in Hp.
  - intros ->. destruct (decide (id = ""%string)) as [->|Hid]; [by left|]. right. exists id. split; [done|].
    rewrite filter_cons_True by done. cbn. by case_decide.
Qed.

Lemma addrs_ascend_single l a : addrs_ascend l → (∀ b, b ∈ l ↔ b = a) → l = [a].
Proof.
  intros Hl Hin. destruct l as [|x [|y l]].
  - exfalso. by eapply not_elem_of_nil, Hin.
  - f_equal. apply Hin. by left.
  - exfalso. apply StronglySorted_inv in Hl as [_ Hx]. apply Forall_cons in Hx as [[_ Hxy] _]. apply Hxy.
    trans a; [apply Hin; by left|symmetry; apply Hin; right; by left].
Qed.

Section reply.
Context `{Blake3} `{BincodeLaws DiscoveryMessage} `{Bincode EtleDescriptor}.
Context `{Bincode CompactDownloadProgress, Bincode DownloadProgress}.
Context `{Bincode CompactShareState, Bincode ShareState}.
Context (gi : result io_kind (list IfAddr)) (library_root : path) (p2p_listen : socket_addr) (peer_id instance_id : string).
Context (share_id : ShareId) (name : string) (query reply : bytes).
Context (Hquery : encode_message (Query DISCOVERY_MAGIC share_id) = Ok query)
        (Hreply : encode_message (Response DISCOVERY_MAGIC share_id p2p_listen (addr_port p2p_listen) peer_id
                                    instance_id name) = Ok reply)
        (Hlen : (length query ≤ MAX_DISCOVERY_PACKET_SIZE)%nat).

(** The lookup finds the share whenever it is made. *)
Definition announces (w : World) : Prop :=
  ∀ w', stepped w w' → (local_share_name library_root share_id w').1 = Ok (Some name).

Lemma wp_serve_query source u :
  no_faults (u_world u) → announces (u_world u) →
  wp (serve_datagram library_root p2p_listen peer_id instance_id (take MAX_DISCOVERY_PACKET_SIZE query) source)
    (λ _ u', quiet (add_sent (source, reply) u) u') (λ _ _, False) u.
Proof using All.
  intros Hn Hann. unfold serve_datagram. rewrite (decode_encode_packet _ _ Hquery) by done.
  rewrite decide_False by (by intros []). wp_simpl. apply wp_on_world.
  pose proof (wp_local_share_name library_root share_id (u_world u)) as Hname.
  specialize (Hann (u_world u) (reflexivity _)). unfold wp in Hname |- *.
  destruct (local_share_name library_root share_id (u_world u)) as [r w]. cbn [fst] in Hann. rewrite Hann in *.
  destruct Hname as [Hst _]. unfold advertised_p2p_addr. rewrite Hreply.
  fold (wp (let! _ignored := try_ (E := io_kind) (send_to reply source) in ret (E := io_kind) tt)
          (λ _ u', quiet (add_sent (source, reply) u) u') (λ _ _, False) (set_world w u)).
  wp_simpl. apply wp_send_to.
  - intros k u' _ Hf. destruct Hf. by apply (stepped_no_faults _ _ Hst).
  - intros u' Hst' Hin Hsent. wp_simpl. split; [by etrans|done].
Qed.

Lemma announces_stepped w w' : stepped w w' → announces w → announces w'.
Proof using. intros Hst Hann w2 Hst2. apply Hann. by etrans. Qed.

Lemma wp_serve_one_query options source u :
  no_faults (u_world u) → announces (u_world u) → u_inbox u = [Some (source, query)] →
  wp (serve_with gi library_root p2p_listen peer_id instance_id options) (λ _ _, False)
    (λ e u', e = OtherIo ∧ u_sent u' = u_sent u ++ [(source, reply)]) u.
Proof using All.
  intros Hn Hann Hin. unfold serve_with. wp_simpl. apply wp_syscall; [done|].
  intros u1 Hq1. wp_simpl. apply wp_syscall.
  { intros k u2 Hq2 Hf. destruct Hf. by apply (stepped_no_faults _ _ (proj1 Hq1)). }
  intros u2 Hq2. wp_simpl. apply wp_mono with (Q := λ _ u3, quiet u2 u3) (R := λ _ _, False); [| |done].
  { destruct (dopt_multicast options); [apply wp_join_multicast|by wp_simpl]. }
  intros [] u3 Hq3. assert (quiet u u3) as (Hst & Hin3 & Hsent3) by (by do 2 (etrans; [eassumption|])). wp_simpl.
  rewrite Hin3, Hin. cbn [length mloop]. unfold answer_round at 1. wp_simpl. apply wp_recv_from.
  2: { rewrite Hin3, Hin. intros u' [[? _]|(rest & ? & _)]; discriminate. }
  rewrite Hin3, Hin. intros ? ? ? [= <- <- <-]. wp_simpl. cbn [fst snd].
  wp_use wp_serve_query; [by apply (stepped_no_faults _ _ Hst)|by eapply announces_stepped| |done].
  intros [] u4 (Hst4 & Hin4 & Hsent4). wp_simpl. unfold answer_round. wp_simpl. apply wp_recv_from.
  - rewrite Hin4. done.
  - rewrite Hin4. intros u' [[_ ->]|(rest & ? & _)]; [|discriminate]. split; [done|].
    rewrite Hsent4. cbn. by rewrite Hsent3.
Qed.
End reply.

Lemma lor_ones a k : 0 ≤ k → Z.lor a (Z.ones k) = a / 2 ^ k * 2 ^ k + Z.ones k.
Proof.
  intros Hk. rewrite <- Z.shiftr_div_pow2, <- Z.shiftl_mul_pow2, <- Z.ldiff_ones_r by done.
  rewrite Z.add_nocarry_lxor, Z.lxor_lor; apply Z.bits_inj'; intros i Hi.
  1: rewrite !Z.lor_spec, Z.ldiff_spec. 2,3: rewrite Z.land_spec, Z.ldiff_spec, Z.bits_0.
  all: destruct (Z.testbit a i), (Z.testbit (Z.ones k) i); done.
Qed.

(** * The theorems *)

(** [peers_with] returns, in address order and without duplicates, exactly the
    addresses announced for the share by the datagrams it received before the
    socket stopped or the deadline passed: every address announced without an
    instance id, and one address for each instance id, its first loopback address
    or else its first one. It sends nothing but the query, and that to the query
    targets. It fails only when a socket call or the encoding of the query does,
    and then it has sent nothing. *)
Theorem peers_with_correct `{Bincode DiscoveryMessage} gi share_id options u :
  (∃ peers u', peers_with gi share_id options u = (Ok peers, u') ∧ client_outcome gi share_id options u peers u')
  ∨ (∃ e u', peers_with gi share_id options u = (Err e, u') ∧ quiet u u'
       ∧ (no_faults (u_world u) → ∀ payload, encode_message (Query DISCOVERY_MAGIC share_id) ≠ Ok payload)).
Proof. exact (wp_run _ _ _ _ (wp_peers_with gi share_id options u)). Qed.



(** For the mask of an [n]-bit network prefix, [subnet_broadcast] stays in 32
    bits and is the last address of the network of [ip]: the same prefix, all host
    bits set, and no address of the network above it. A single-host network has none. *)
Theorem subnet_broadcast_bounds ip n :
  u32_range ip → 0 ≤ n ≤ 32 →
  match subnet_broadcast ip (prefix_mask n) with
  | None => n = 32
  | Some b => n < 32 ∧ u32_range b ∧ b / 2 ^ (32 - n) = ip / 2 ^ (32 - n) ∧ b mod 2 ^ (32 - n) = 2 ^ (32 - n) - 1
      ∧ ∀ host, host / 2 ^ (32 - n) = ip / 2 ^ (32 - n) → host ≤ b
  end.
Proof.
  intros Hip Hn. unfold subnet_broadcast, prefix_mask. set (k := 32 - n).
  rewrite <- Z.lxor_assoc, Z.lxor_nilpotent, Z.lxor_0_l, lor_ones by lia.
  assert (0 < 2 ^ k) by (apply Z.pow_pos_nonneg; lia).
  case_decide as Hmask.
  - assert (Z.lxor u32_max (Z.lxor u32_max (Z.ones k)) = 0) as Hz by (by rewrite Hmask, Z.lxor_nilpotent).
    rewrite <- Z.lxor_assoc, Z.lxor_nilpotent, Z.lxor_0_l, Z.ones_equiv in Hz.
    destruct (decide (k = 0)); [lia|]. assert (2 ^ 1 ≤ 2 ^ k) by (apply Z.pow_le_mono_r; lia). lia.
  - assert (k ≠ 0) by (intros Hk; apply Hmask; by rewrite Hk). rewrite Z.ones_equiv.
    assert (2 ^ 32 = 2 ^ n * 2 ^ k) as Hp by (rewrite <- Z.pow_add_r by lia; f_equal; lia).
    assert (0 < 2 ^ n) by (apply Z.pow_pos_nonneg; lia).
    unfold u32_range, u32_max in *. rewrite Hp in *. set (q := ip / 2 ^ k).
    assert (0 ≤ q < 2 ^ n) by (split; [apply Z.div_pos; lia|apply Z.div_lt_upper_bound; lia]).
    split_and!; [lia|nia|nia| | |].
    + rewrite Z.div_add_l by lia. rewrite (Z.div_small (Z.pred _)) by lia. lia.
    + rewrite Z.add_comm, Z.mod_add by lia. rewrite Z.mod_small; lia.
    + intros host Hhost. pose proof (Z.div_mod host (2 ^ k)). pose proof (Z.mod_pos_bound host (2 ^ k)). rewrite Hhost in *. lia.
Qed.

Import Toy Sample StateSample.
Module DiscoverySample.
#[export] Instance message_countable : Countable DiscoveryMessage.
Proof.
  refine (inj_countable'
    (λ m, match m with
          | Query magic id => inl (magic, id)
          | Response magic id a p peer inst name => inr (magic, id, (a, p), (peer, inst, name))
          end)
    (λ s, match s with
          | inl (magic, id) => Query magic id
          | inr (magic, id, (a, p), (peer, inst, name)) => Response magic id a p peer inst name
          end) _). by intros [].
Defined.
#[export] Instance message_bincode : Bincode DiscoveryMessage := Toy.countable_bincode DiscoveryMessage.
#[export] Instance message_bincode_laws : BincodeLaws DiscoveryMessage := Toy.countable_bincode_laws DiscoveryMessage.

Definition share_id : ShareId := d_share_id Sample.descriptor.
Definition world : World :=
  (library_init [] Sample.descriptor (CryptoSample.key Byte.x09) Seeding None (CryptoSample.world ∅ [])).2.
Definition listen : socket_addr := SocketAddr (IpV4 0) 7000.
Definition client : socket_addr := SocketAddr (IpV4 (ipv4 192 168 1 5)) 50000.
Definition server : socket_addr := SocketAddr (IpV4 (ipv4 192 168 1 9)) 37037.
Definition interfaces : result io_kind (list IfAddr) := Ok [IfV4 (ipv4 192 168 1 5) (prefix_mask 24) None; IfV6].
Definition options : DiscoveryOptions := DiscoveryOptions_new DEFAULT_DISCOVERY_PORT.
Definition query : bytes := default [] (bincode_encode (Query DISCOVERY_MAGIC share_id)).
Definition reply : bytes :=
  default [] (bincode_encode (Response DISCOVERY_MAGIC share_id listen 7000 "peer" "instance" (d_name Sample.descriptor))).
Definition server_udp : Udp := mkUdp world [Some (client, query)] [] [].
(** A machine that is fast enough: its clock stands still. *)
Definition fast : Env := {|
  env_fault _ := None; env_read _ := 3%nat; env_clock _ := 0; env_rng n len := Toy.array_of_Z len 1;
  env_connect _ _ := Err NotFound; env_accept _ := Err NotFound; env_pid := 7; env_parallelism := Some 4;
|}.
Definition client_world : World :=
  {| w_env := fast; w_step := 0; w_fs := ∅; w_in := []; w_out := []; w_progress := [] |}.
Definition client_udp : Udp := mkUdp client_world [Some (server, reply)] [] [].
End DiscoverySample.
Import DiscoverySample.

Lemma subnet_broadcast_bounds_witness :
  subnet_broadcast (ipv4 192 168 1 5) (prefix_mask 24) = Some (ipv4 192 168 1 255)
  ∧ match subnet_broadcast (ipv4 192 168 1 5) (prefix_mask 24) with
    | None => 24 = 32
    | Some b => 24 < 32 ∧ u32_range b ∧ b / 2 ^ (32 - 24) = ipv4 192 168 1 5 / 2 ^ (32 - 24)
        ∧ b mod 2 ^ (32 - 24) = 2 ^ (32 - 24) - 1
        ∧ ∀ host, host / 2 ^ (32 - 24) = ipv4 192 168 1 5 / 2 ^ (32 - 24) → host ≤ b
    end.
Proof. split; [reflexivity|]. apply (subnet_broadcast_bounds (ipv4 192 168 1 5) 24); by_decide. Defined.

Lemma peers_with_correct_witness :
  (∃ peers u', peers_with DiscoverySample.interfaces DiscoverySample.share_id DiscoverySample.options
                 DiscoverySample.client_udp = (Ok peers, u')
     ∧ client_outcome DiscoverySample.interfaces DiscoverySample.share_id DiscoverySample.options
         DiscoverySample.client_udp peers u')
  ∨ (∃ e u', peers_with DiscoverySample.interfaces DiscoverySample.share_id DiscoverySample.options
               DiscoverySample.client_udp = (Err e, u')
       ∧ quiet DiscoverySample.client_udp u'
       ∧ (no_faults (u_world DiscoverySample.client_udp) →
          ∀ payload, encode_message (Query DISCOVERY_MAGIC DiscoverySample.share_id) ≠ Ok payload)).
Proof. apply peers_with_correct. Defined.


