(* ===== verification/Config.v ===== *)
(** The configuration file ([src/src/config]): where it is looked for, how it is
    parsed, and the values used where it says nothing.

    Text and path names are lists of scalar values ([Text]); the environment
    variables are a parameter [getenv], and [resolve] is the operating system's
    reading of a path name as a place in the file system of a [World]. *)
From stdpp Require Import base tactics list countable strings gmap.
From Stdlib Require Import ZArith Lia.
From S2P Require Import Prelude Bytes World Files Text Extern Crypto Discovery.
Local Open Scope Z_scope.
Local Open Scope etle_scope.

(** * Constants *)
Definition ETLE_CONFIG_ENV : string := "ETLE_CONFIG".
Definition DEFAULT_CONFIG_DIR_NAME : text := txt "etle".
Definition DEFAULT_CONFIG_FILE_NAME : text := txt "config.toml".
Definition DEFAULT_DOWNLOAD_PARALLELISM : Z := 0.
Definition DEFAULT_REQUEST_WINDOW : Z := 16.
Definition DEFAULT_P2P_PORT : Z := 7000.

Definition default_listen_addr : socket_addr := SocketAddr (IpV4 0) DEFAULT_P2P_PORT.

(** * Errors *)
Inductive ConfigError :=
  | ConfigIo (kind : io_kind)
  | InvalidLine (line : Z) (message : text)
  | InvalidValue (line : Z) (key value : text)
  | UnknownKey (line : Z) (key : text).
Global Instance ConfigError_eq_dec : EqDecision ConfigError.
Proof. solve_decision. Defined.

(** * The configuration *)
Record EtleConfig := mkEtleConfig {
  cfg_library_root : option text;
  cfg_ipc_socket : option text;
  cfg_listen : option socket_addr;
  cfg_discovery_port : option Z;
  cfg_discovery_multicast : option Z;
  cfg_discovery_timeout_ms : option Z;
  cfg_request_window : option Z;
  cfg_parallel : option Z;
  cfg_auth_psk : option text;
}.
Global Instance EtleConfig_eq_dec : EqDecision EtleConfig.
Proof. solve_decision. Defined.

Definition EtleConfig_default : EtleConfig := mkEtleConfig None None None None None None None None None.

(** An assignment to one field. *)
Inductive setting :=
  | SetLibraryRoot (v : text) | SetIpcSocket (v : text) | SetListen (v : socket_addr) | SetDiscoveryPort (v : Z)
  | SetDiscoveryMulticast (v : Z) | SetDiscoveryTimeoutMs (v : Z) | SetRequestWindow (v : Z) | SetParallel (v : Z)
  | SetAuthPsk (v : text).

Definition assign (c : EtleConfig) (s : setting) : EtleConfig :=
  let '(mkEtleConfig root sock listen port mc timeout window par psk) := c in
  match s with
  | SetLibraryRoot v => mkEtleConfig (Some v) sock listen port mc timeout window par psk
  | SetIpcSocket v => mkEtleConfig root (Some v) listen port mc timeout window par psk
  | SetListen v => mkEtleConfig root sock (Some v) port mc timeout window par psk
  | SetDiscoveryPort v => mkEtleConfig root sock listen (Some v) mc timeout window par psk
  | SetDiscoveryMulticast v => mkEtleConfig root sock listen port (Some v) timeout window par psk
  | SetDiscoveryTimeoutMs v => mkEtleConfig root sock listen port mc (Some v) window par psk
  | SetRequestWindow v => mkEtleConfig root sock listen port mc timeout (Some v) par psk
  | SetParallel v => mkEtleConfig root sock listen port mc timeout window (Some v) psk
  | SetAuthPsk v => mkEtleConfig root sock listen port mc timeout window par (Some v)
  end.

(** * Parsing *)
Definition quote_char : char := 34.
Definition hash_char : char := 35.
Definition equals_char : char := 61.
Definition backslash : char := 92.

Fixpoint strip_comment_from (in_string escaped : bool) (line : text) : text :=
  match line with
  | [] => []
  | ch :: line =>
      if escaped then ch :: strip_comment_from in_string false line
      else if decide (ch = backslash ∧ in_string = true) then ch :: strip_comment_from in_string true line
      else if decide (ch = quote_char) then ch :: strip_comment_from (negb in_string) false line
      else if decide (ch = hash_char ∧ in_string = false) then []
      else ch :: strip_comment_from in_string false line
  end.
Definition strip_comment (line : text) : text := strip_comment_from false false line.

Fixpoint unescape_basic_string (value : text) : text :=
  match value with
  | [] => []
  | ch :: rest =>
      if decide (ch ≠ backslash) then ch :: unescape_basic_string rest
      else match rest with
           | [] => [backslash]
           | other :: rest =>
               if decide (other = quote_char) then quote_char :: unescape_basic_string rest
               else if decide (other = backslash) then backslash :: unescape_basic_string rest
               else if decide (other = 110) then 10 :: unescape_basic_string rest
               else if decide (other = 116) then 9 :: unescape_basic_string rest
               else backslash :: other :: unescape_basic_string rest
           end
  end.

Definition parse_string_value (value : text) : text :=
  let value := trim value in
  match strip_prefix_char quote_char value ≫= strip_suffix_char quote_char with
  | Some inner => unescape_basic_string inner
  | None => value
  end.

Definition parse_value {A} (from_str : text → option A) (line : Z) (key value : text) : result ConfigError A :=
  ok_or (from_str value) (InvalidValue line key value).

(** The [match key] of [parse]. *)
Definition parse_setting (line : Z) (key value : text) : result ConfigError setting :=
  if decide (key = txt "library_root") then Ok (SetLibraryRoot (parse_string_value value))
  else if decide (key = txt "ipc_socket") then Ok (SetIpcSocket (parse_string_value value))
  else if decide (key = txt "listen") then
    let? v := parse_value parse_socket_addr line key (parse_string_value value) in Ok (SetListen v)
  else if decide (key = txt "discovery_port") then
    let? v := parse_value (parse_uint u16_max) line key value in Ok (SetDiscoveryPort v)
  else if decide (key = txt "discovery_multicast") then
    let? multicast := parse_value parse_ipv4 line key (parse_string_value value) in
    if negb (is_multicast multicast) then Err (InvalidValue line key (ipv4_text multicast))
    else Ok (SetDiscoveryMulticast multicast)
  else if decide (key = txt "discovery_timeout_ms") then
    let? v := parse_value (parse_uint u64_max) line key value in Ok (SetDiscoveryTimeoutMs v)
  else if decide (key = txt "request_window") then
    let? v := parse_value (parse_uint u64_max) line key value in Ok (SetRequestWindow v)
  else if decide (key = txt "parallel") then
    let? v := parse_value (parse_uint u64_max) line key value in Ok (SetParallel v)
  else if decide (key = txt "auth_psk") then Ok (SetAuthPsk (parse_string_value value))
  else Err (UnknownKey line key).

(** The loop body of [parse]. *)
Definition parse_line (line_number : Z) (config : EtleConfig) (raw_line : text) : result ConfigError EtleConfig :=
  let line := trim (strip_comment raw_line) in
  if decide (line = []) then Ok config
  else match split_once equals_char line with
       | None => Err (InvalidLine line_number (txt "expected `key = value`"))
       | Some (key, value) =>
           let key := trim key in
           let value := trim value in
           if decide (key = [] ∨ value = [])
           then Err (InvalidLine line_number (txt "key and value must be non-empty"))
           else let? s := parse_setting line_number key value in Ok (assign config s)
       end.

Fixpoint parse_lines (line_number : Z) (config : EtleConfig) (ls : list text) : result ConfigError EtleConfig :=
  match ls with
  | [] => Ok config
  | l :: ls => let? config := parse_line line_number config l in parse_lines (line_number + 1) config ls
  end.
Definition parse (source : text) : result ConfigError EtleConfig := parse_lines 1 EtleConfig_default (lines source).

(** * Paths as names *)
Definition slash : char := 47.
(** [Path::join] *)
Definition path_join (a b : text) : text :=
  if decide (head b = Some slash) then b
  else if decide (a = [] ∨ last a = Some slash) then a ++ b
  else a ++ slash :: b.

Section environment.
Context (getenv : string → option text).

Definition home_dir : option text := getenv "HOME".
Definition expand_tilde_path (value : text) : text :=
  if decide (value = txt "~") then default value home_dir
  else match strip_prefix_char 126 value ≫= strip_prefix_char slash, home_dir with
       | Some rest, Some home => path_join home rest
       | _, _ => value
       end.

Definition default_config_path : option text :=
  match getenv ETLE_CONFIG_ENV with
  | Some p => Some p
  | None =>
      match getenv "XDG_CONFIG_HOME" with
      | Some xdg => Some (path_join (path_join xdg DEFAULT_CONFIG_DIR_NAME) DEFAULT_CONFIG_FILE_NAME)
      | None => (λ home, path_join (path_join (path_join home (txt ".config")) DEFAULT_CONFIG_DIR_NAME)
                          DEFAULT_CONFIG_FILE_NAME) <$> getenv "HOME"
      end
  end.

(** ** The accessors *)
Definition cfg_get_library_root (c : EtleConfig) : option text := expand_tilde_path <$> cfg_library_root c.
Definition cfg_get_ipc_socket (c : EtleConfig) : option text := expand_tilde_path <$> cfg_ipc_socket c.
Definition listen_addr (c : EtleConfig) : socket_addr := default default_listen_addr (cfg_listen c).
Definition discovery_port (c : EtleConfig) : Z := default DEFAULT_DISCOVERY_PORT (cfg_discovery_port c).
Definition discovery_multicast (c : EtleConfig) : Z :=
  default DEFAULT_DISCOVERY_MULTICAST_ADDR (cfg_discovery_multicast c).
Definition discovery_timeout_ms (c : EtleConfig) : Z :=
  default DEFAULT_DISCOVERY_TIMEOUT_MS (cfg_discovery_timeout_ms c).
Definition cfg_get_request_window (c : EtleConfig) : Z := default DEFAULT_REQUEST_WINDOW (cfg_request_window c).
Definition cfg_get_parallel (c : EtleConfig) : Z := default DEFAULT_DOWNLOAD_PARALLELISM (cfg_parallel c).
Definition auth_psk (c : EtleConfig) : option text := cfg_auth_psk c.

(** ** Loading *)
Context (resolve : text → path).

(** [fs::read_to_string] *)
Definition read_to_string (p : path) : io text :=
  let! b := read_file p in
  lift_result (ok_or (utf8_decode b) InvalidData).

Definition from_path (name : text) : M World ConfigError EtleConfig :=
  let! r := try_ (read_to_string (resolve name)) in
  match r with
  | Ok source => lift_result (parse source)
  | Err NotFound => ret EtleConfig_default
  | Err error => throw (ConfigIo error)
  | _ => panic
  end.

Definition load : M World ConfigError EtleConfig :=
  match default_config_path with
  | None => ret EtleConfig_default
  | Some name => from_path name
  end.
End environment.

(** * The grammar: texts that spell a setting *)
Definition escape_char (c : char) : text :=
  if decide (c = quote_char) then [backslash; quote_char]
  else if decide (c = backslash) then [backslash; backslash]
  else if decide (c = 10) then [backslash; 110]
  else [c].
Definition escape (s : text) : text := s ≫= escape_char.
Definition quote (s : text) : text := quote_char :: escape s ++ [quote_char].

(** A value that needs no quotes. *)
Definition bare (v : text) : Prop := v ≠ [] ∧ trimmed v ∧ quote_char ∉ v ∧ hash_char ∉ v.
Global Instance bare_dec v : Decision (bare v).
Proof. unfold bare. apply _. Defined.

Definition text_spelled (v s : text) : Prop := v = quote s ∨ v = s ∧ bare s.
Global Instance text_spelled_dec v s : Decision (text_spelled v s).
Proof. unfold text_spelled. apply _. Defined.

Definition setting_key (s : setting) : text :=
  match s with
  | SetLibraryRoot _ => txt "library_root" | SetIpcSocket _ => txt "ipc_socket" | SetListen _ => txt "listen"
  | SetDiscoveryPort _ => txt "discovery_port" | SetDiscoveryMulticast _ => txt "discovery_multicast"
  | SetDiscoveryTimeoutMs _ => txt "discovery_timeout_ms" | SetRequestWindow _ => txt "request_window"
  | SetParallel _ => txt "parallel" | SetAuthPsk _ => txt "auth_psk"
  end.

(** The values a field can have. *)
Definition multicast_range (a : Z) : Prop := ipv4 224 0 0 0 ≤ a ≤ ipv4 239 255 255 255.
Global Instance multicast_range_dec a : Decision (multicast_range a).
Proof. unfold multicast_range. apply _. Defined.
Definition setting_wf (s : setting) : Prop :=
  match s with
  | SetListen a => addr_wf a
  | SetDiscoveryPort p => u16_range p
  | SetDiscoveryMulticast a => multicast_range a
  | SetDiscoveryTimeoutMs n | SetRequestWindow n | SetParallel n => u64_range n
  | SetLibraryRoot _ | SetIpcSocket _ | SetAuthPsk _ => True
  end.
Global Instance setting_wf_dec s : Decision (setting_wf s).
Proof. destruct s; apply _. Defined.

Definition value_spelled (v : text) (s : setting) : Prop :=
  match s with
  | SetLibraryRoot t | SetIpcSocket t | SetAuthPsk t => text_spelled v t
  | SetListen a =>
      match addr_ip a with IpV4 x => text_spelled v (socket_v4_text x (addr_port a)) | IpV6 _ => False end
  | SetDiscoveryMulticast a => text_spelled v (ipv4_text a)
  | SetDiscoveryPort n | SetDiscoveryTimeoutMs n | SetRequestWindow n | SetParallel n => v = dec_text n
  end.
Global Instance value_spelled_dec v s : Decision (value_spelled v s).
Proof. destruct s as [| |[[] ?]| | | | | |]; cbn; apply _. Defined.

Definition comment (t : text) : Prop := t = [] ∨ head t = Some hash_char.

(** A line with nothing, or with one setting; spaces and a comment are allowed. *)
Inductive line_spelled : text → option setting → Prop :=
  | spelled_nothing ws c : Forall whitespace ws → comment c → line_spelled (ws ++ c) None
  | spelled_setting ws1 ws2 ws3 v ws4 c s :
      Forall whitespace (ws1 ++ ws2 ++ ws3 ++ ws4) → comment c → value_spelled v s → setting_wf s →
      line_spelled ((ws1 ++ setting_key s ++ ws2 ++ equals_char :: ws3 ++ v ++ ws4) ++ c) (Some s).

(** ** Facts about the scanner *)
Lemma strip_comment_plain p r :
  quote_char ∉ p → hash_char ∉ p →
  strip_comment_from false false (p ++ r) = p ++ strip_comment_from false false r.
Proof.
  induction p as [|c p IH]; intros Hq Hh; [done|]. apply not_elem_of_cons in Hq as [Hq ?], Hh as [Hh ?].
  cbn [app strip_comment_from]. rewrite !decide_False by naive_solver. by rewrite IH.
Qed.

Lemma strip_comment_quoted s r :
  strip_comment_from true false (escape s ++ quote_char :: r) = escape s ++ quote_char :: strip_comment_from false false r.
Proof.
  induction s as [|c s IH]; [done|]. unfold escape in *. rewrite bind_cons, <- app_assoc. unfold escape_char at 1 3.
  case_decide as Hq; [subst; cbn; by rewrite IH|]. case_decide as Hb; [subst; cbn; by rewrite IH|].
  case_decide as Hn; [subst; cbn; by rewrite IH|]. cbn [app strip_comment_from].
  rewrite !decide_False by naive_solver. by rewrite IH.
Qed.

Lemma strip_comment_quote s r :
  strip_comment_from false false (quote s ++ r) = quote s ++ strip_comment_from false false r.
Proof.
  unfold quote. rewrite <- !app_comm_cons, <- !app_assoc. cbn [app].
  change (strip_comment_from false false (quote_char :: escape s ++ quote_char :: r))
    with (quote_char :: strip_comment_from true false (escape s ++ quote_char :: r)).
  by rewrite strip_comment_quoted.
Qed.

Lemma strip_comment_comment c : comment c → strip_comment_from false false c = [].
Proof. intros [->|Hc]; [done|]. destruct c as [|ch c]; [done|]. by injection Hc as ->. Qed.

Lemma unescape_escape s : unescape_basic_string (escape s) = s.
Proof.
  induction s as [|c s IH]; [done|]. unfold escape in *. rewrite bind_cons. unfold escape_char at 1.
  case_decide as Hq; [subst; cbn; by rewrite IH|]. case_decide as Hb; [subst; cbn; by rewrite IH|].
  case_decide as Hn; [subst; cbn; by rewrite IH|]. cbn [app unescape_basic_string].
  rewrite decide_True by done. by rewrite IH.
Qed.

(** Whitespace and keys have no special characters. *)
Definition plain (t : text) : Prop := Forall (λ c, c ≠ quote_char ∧ c ≠ hash_char ∧ c ≠ equals_char) t.
Global Instance plain_dec t : Decision (plain t).
Proof. unfold plain. apply _. Defined.

Lemma plain_ws ws : Forall whitespace ws → plain ws.
Proof.
  intros Hws. eapply Forall_impl; [exact Hws|]. intros c. unfold whitespace, quote_char, hash_char, equals_char. lia.
Qed.

Lemma plain_not_elem t : plain t → quote_char ∉ t ∧ hash_char ∉ t ∧ equals_char ∉ t.
Proof. unfold plain. rewrite Forall_forall. intros Ht. split_and!; intros Hin; by destruct (Ht _ Hin) as (? & ? & ?). Qed.

Lemma setting_key_ok s : plain (setting_key s) ∧ trimmed (setting_key s) ∧ setting_key s ≠ [].
Proof. destruct s; (split_and!; [by_decide|by_decide|done]). Qed.

(** ** Facts about values *)
Lemma last_cons_snoc {A} (x y : A) (l : list A) : last (x :: l ++ [y]) = Some y.
Proof. by rewrite app_comm_cons, last_snoc. Qed.

Lemma quote_trimmed s : trimmed (quote s) ∧ quote s ≠ [].
Proof.
  split; [|done]. split; [by vm_compute; intuition discriminate|]. unfold quote. rewrite last_cons_snoc.
  vm_compute. intuition discriminate.
Qed.

Lemma parse_string_value_spelled v s : text_spelled v s → parse_string_value v = s.
Proof.
  unfold parse_string_value. intros [->|[-> (Hne & Htr & Hq & Hh)]].
  - rewrite trim_trimmed by apply quote_trimmed. unfold quote. cbn [strip_prefix_char]. rewrite decide_True by done.
    cbn [mbind option_bind]. rewrite strip_suffix_char_snoc. apply unescape_escape.
  - rewrite trim_trimmed by done. destruct s as [|c s]; [done|]. apply not_elem_of_cons in Hq as [Hq _].
    cbn [strip_prefix_char]. by rewrite decide_False.
Qed.

Lemma text_spelled_ok v s :
  text_spelled v s → trimmed v ∧ v ≠ [] ∧ ∀ r, strip_comment_from false false (v ++ r) = v ++ strip_comment_from false false r.
Proof.
  intros [->|[-> (Hne & Htr & Hq & Hh)]].
  - split_and!; [apply quote_trimmed..|]. apply strip_comment_quote.
  - split_and!; [done|done|]. intros r. by apply strip_comment_plain.
Qed.

Lemma digits_plain n : 0 ≤ n → Forall (λ c, 48 ≤ c ≤ 57) (dec_text n).
Proof.
  intros Hn. unfold dec_text. apply Forall_fmap.
  eapply Forall_impl; [apply dec_digits_range; by apply dec_fuel_spec|]. intros d. cbn. lia.
Qed.

Lemma bare_dec_text n : 0 ≤ n → bare (dec_text n).
Proof.
  intros Hn. pose proof (digits_plain n Hn) as Hd.
  assert (∀ c, c ∈ dec_text n → 48 ≤ c ≤ 57) as Hin by (by apply Forall_forall).
  assert (∀ c, 48 ≤ c ≤ 57 → ¬ whitespace c) as Hws by (unfold whitespace; lia).
  split_and!.
  - unfold dec_text. intros Hnil%fmap_nil_inv. by apply (dec_digits_nonempty _ _ Hnil).
  - split; unfold edge.
    + destruct (dec_text n) as [|c t]; [done|]. apply Hws, Hin. left.
    + destruct (last (dec_text n)) as [c|] eqn:Hl; [|done]. apply Hws, Hin. by apply last_Some_elem_of.
  - intros Hq%Hin. unfold quote_char in Hq. lia.
  - intros Hq%Hin. unfold hash_char in Hq. lia.
Qed.

Lemma value_spelled_ok v s :
  value_spelled v s → setting_wf s →
  trimmed v ∧ v ≠ [] ∧ ∀ r, strip_comment_from false false (v ++ r) = v ++ strip_comment_from false false r.
Proof.
  assert (∀ n, 0 ≤ n → v = dec_text n → text_spelled v (dec_text n)) as Hnum.
  { intros n Hn ->. right. split; [done|]. by apply bare_dec_text. }
  destruct s as [t|t|[[x|x] p]|n|a|n|n|n|t]; cbn; intros Hv Hwf; try done;
    try (eapply text_spelled_ok; exact Hv); try (eapply text_spelled_ok, Hnum; [|exact Hv]).
  all: unfold u16_range, u64_range in *; lia.
Qed.

(** ** Facts about lines *)
Lemma u32_octets a : 0 ≤ a < 2 ^ 32 → is_multicast a = true ↔ multicast_range a.
Proof.
  intros Ha. unfold is_multicast, multicast_range, ipv4. rewrite bool_decide_eq_true.
  split; intros H; [|split].
  - pose proof (Z.div_mod a (2 ^ 24)). pose proof (Z.mod_pos_bound a (2 ^ 24)). lia.
  - apply Z.div_le_lower_bound; lia.
  - apply Z.lt_succ_r, Z.div_lt_upper_bound; lia.
Qed.

Lemma multicast_range_u32 a : multicast_range a → 0 ≤ a < 2 ^ 32.
Proof. unfold multicast_range, ipv4. lia. Qed.

(** Run the [match key] for literal keys. *)
Ltac pick_key := repeat match goal with
  | |- context [decide (txt ?a = txt ?b)] =>
      first [ rewrite (decide_True (P := txt a = txt b)) by reflexivity
            | rewrite (decide_False (P := txt a = txt b)) by by_decide ]
  end.

Lemma parse_setting_spelled n v s :
  value_spelled v s → setting_wf s → parse_setting n (setting_key s) v = Ok s.
Proof.
  intros Hv Hwf. unfold parse_setting. destruct s as [t|t|[[x|x] p]|k|a|k|k|k|t]; cbn [setting_key value_spelled addr_ip addr_port] in *;
    pick_key; unfold parse_value.
  1,2,10: by rewrite (parse_string_value_spelled _ _ Hv).
  1: rewrite (parse_string_value_spelled _ _ Hv), parse_socket_v4_text; [done|apply Hwf..].
  1: done.
  2: { rewrite (parse_string_value_spelled _ _ Hv), parse_ipv4_text by (by apply multicast_range_u32). cbn.
       destruct (is_multicast a) eqn:Hm; [done|].
       rewrite (proj2 (u32_octets a (multicast_range_u32 a Hwf)) Hwf) in Hm. done. }
  all: subst v; rewrite parse_uint_dec by apply Hwf; done.
Qed.

Lemma strip_comment_equals r :
  strip_comment_from false false (equals_char :: r) = equals_char :: strip_comment_from false false r.
Proof. done. Qed.

Lemma parse_line_spelled n c l o : line_spelled l o → parse_line n c l = Ok (from_option (assign c) c o).
Proof.
  intros [ws cm Hws Hcm|ws1 ws2 ws3 v ws4 cm s Hws Hcm Hv Hwf]; unfold parse_line, strip_comment.
  - destruct (plain_not_elem _ (plain_ws _ Hws)) as (? & ? & ?).
    by rewrite strip_comment_plain, strip_comment_comment, app_nil_r, trim_ws by done.
  - rewrite !Forall_app in Hws. destruct Hws as (Hws1 & Hws2 & Hws3 & Hws4).
    destruct (setting_key_ok s) as (Hkp & Hkt & Hkne). destruct (value_spelled_ok v s Hv Hwf) as (Hvt & Hvne & Hvs).
    set (body := setting_key s ++ ws2 ++ equals_char :: ws3 ++ v).
    assert (strip_comment_from false false ((ws1 ++ setting_key s ++ ws2 ++ equals_char :: ws3 ++ v ++ ws4) ++ cm)
            = ws1 ++ body ++ ws4) as ->.
    { assert (∀ t r, plain t → strip_comment_from false false (t ++ r) = t ++ strip_comment_from false false r) as Hp.
      { intros t r (? & ? & _)%plain_not_elem. by apply strip_comment_plain. }
      unfold body. rewrite <- !app_assoc, <- !app_comm_cons, <- !app_assoc.
      rewrite (Hp ws1), (Hp (setting_key s)), (Hp ws2), strip_comment_equals, (Hp ws3), Hvs, (Hp ws4)
        by first [by apply plain_ws | by apply setting_key_ok].
      by rewrite strip_comment_comment, app_nil_r. }
    assert (trimmed body) as Hbody.
    { split; unfold body; [destruct (setting_key s) eqn:Hk; [done|]; apply Hkt|].
      rewrite !app_assoc. change (equals_char :: ?t) with ([equals_char] ++ t). rewrite !app_assoc.
      destruct v as [|c0 v] using rev_ind; [done|]. rewrite app_assoc, last_snoc.
      destruct Hvt as [_ Hl]. by rewrite last_snoc in Hl. }
    rewrite trim_padded by done. rewrite decide_False.
    2: { unfold body. by destruct (setting_key s). }
    unfold body. rewrite app_assoc, split_once_app.
    2: { rewrite elem_of_app. intros [?|?]; [by apply (plain_not_elem _ Hkp)|by apply (plain_not_elem _ (plain_ws _ Hws2))]. }
    pose proof (trim_padded [] (setting_key s) ws2) as Hk. cbn [app] in Hk. rewrite Hk by done.
    pose proof (trim_padded ws3 v []) as Hvtrim. rewrite app_nil_r in Hvtrim. rewrite Hvtrim by done.
    rewrite decide_False by (by intros [?|?]). by rewrite parse_setting_spelled.
Qed.

Lemma parse_lines_spelled n c ls os :
  Forall2 line_spelled ls os → parse_lines n c ls = Ok (foldl assign c (omap id os)).
Proof.
  intros Hls. revert n c. induction Hls as [|l o ls os Hl _ IH]; intros n c; [done|].
  cbn [parse_lines]. rewrite (parse_line_spelled n c l o Hl). cbn [result_bind]. rewrite IH.
  by destruct o.
Qed.

(** ** Errors *)
Definition content (l : text) : text := trim (strip_comment l).
(** The line assigns [value] to [key], both without surrounding spaces. *)
Definition assigns (l key value : text) : Prop :=
  ∃ k v, split_once equals_char (content l) = Some (k, v) ∧ key = trim k ∧ value = trim v.

Definition known_keys : list text :=
  txt <$> ["library_root"; "ipc_socket"; "listen"; "discovery_port"; "discovery_multicast"; "discovery_timeout_ms";
           "request_window"; "parallel"; "auth_psk"]%string.

(** What is wrong with a value: it does not parse as the key's type, or is no
    multicast address; [bad] is what the message shows. *)
Definition bad_value (key value bad : text) : Prop :=
  key = txt "discovery_port" ∧ bad = value ∧ parse_uint u16_max value = None
  ∨ key ∈ [txt "discovery_timeout_ms"; txt "request_window"; txt "parallel"] ∧ bad = value
    ∧ parse_uint u64_max value = None
  ∨ key = txt "listen" ∧ bad = parse_string_value value ∧ parse_socket_addr bad = None
  ∨ key = txt "discovery_multicast" ∧ bad = parse_string_value value ∧ parse_ipv4 bad = None
  ∨ key = txt "discovery_multicast" ∧ ∃ a, parse_ipv4 (parse_string_value value) = Some a
    ∧ ¬ multicast_range a ∧ bad = ipv4_text a.

(** The error says what is wrong with line [n]. *)
Definition explains (n : Z) (l : text) (e : ConfigError) : Prop :=
  match e with
  | ConfigIo _ => False
  | InvalidLine line _ =>
      line = n ∧ content l ≠ []
      ∧ (equals_char ∉ content l ∨ ∃ key value, assigns l key value ∧ (key = [] ∨ value = []))
  | UnknownKey line key => line = n ∧ key ≠ [] ∧ key ∉ known_keys ∧ ∃ value, value ≠ [] ∧ assigns l key value
  | InvalidValue line key bad => line = n ∧ ∃ value, value ≠ [] ∧ assigns l key value ∧ bad_value key value bad
  end.

(** The cases of [bad_value] that a literal key leaves. *)
Ltac text_key :=
  let Hk := fresh in
  intros ?; unfold bad_value; rewrite ?elem_of_cons, ?elem_of_nil;
  intros [(Hk & -> & ?)|[(Hk & -> & ?)|[(Hk & -> & ?)|[(Hk & -> & ?)|(Hk & ? & ? & ? & ->)]]]];
  try (exfalso; vm_compute in Hk; intuition discriminate).

(** What the assignments of a setting require. *)
Lemma parse_setting_spec n key value :
  match parse_setting n key value with
  | Ok s => setting_wf s ∧ key ∈ known_keys ∧ ∀ bad, ¬ bad_value key value bad
  | Err (InvalidValue line k bad) => line = n ∧ k = key ∧ key ∈ known_keys ∧ bad_value key value bad
  | Err (UnknownKey line k) => line = n ∧ k = key ∧ key ∉ known_keys
  | _ => False
  end.
Proof.
  unfold parse_setting. repeat case_decide; subst; unfold parse_value.
  - split_and!; [done|by_decide|]. text_key.
  - split_and!; [done|by_decide|]. text_key.
  - destruct (parse_socket_addr _) as [a|] eqn:Ha; cbn [ok_or result_bind].
    + split_and!; [by eapply parse_socket_addr_wf|by_decide|]. text_key. congruence.
    + split_and!; [done..|by_decide|]. right; right; left. done.
  - destruct (parse_uint _ value) as [a|] eqn:Ha; cbn [ok_or result_bind].
    + split_and!; [by eapply parse_uint_range|by_decide|]. text_key. congruence.
    + split_and!; [done..|by_decide|]. by left.
  - destruct (parse_ipv4 _) as [a|] eqn:Ha; cbn [ok_or result_bind].
    + pose proof (u32_octets a (parse_ipv4_range _ _ Ha)) as Hm. destruct (is_multicast a); cbn [negb].
      * split_and!; [by apply Hm|by_decide|]. text_key; [congruence|naive_solver].
      * split_and!; [done..|by_decide|]. right; right; right; right. split; [done|]. exists a. naive_solver.
    + split_and!; [done..|by_decide|]. right; right; right; left. done.
  - destruct (parse_uint _ value) as [a|] eqn:Ha; cbn [ok_or result_bind].
    + split_and!; [by eapply parse_uint_range|by_decide|]. text_key. congruence.
    + split_and!; [done..|by_decide|]. right; left. split; [by_decide|done].
  - destruct (parse_uint _ value) as [a|] eqn:Ha; cbn [ok_or result_bind].
    + split_and!; [by eapply parse_uint_range|by_decide|]. text_key. congruence.
    + split_and!; [done..|by_decide|]. right; left. split; [by_decide|done].
  - destruct (parse_uint _ value) as [a|] eqn:Ha; cbn [ok_or result_bind].
    + split_and!; [by eapply parse_uint_range|by_decide|]. text_key. congruence.
    + split_and!; [done..|by_decide|]. right; left. split; [by_decide|done].
  - split_and!; [done|by_decide|]. text_key.
  - split_and!; [done..|]. unfold known_keys. cbn [fmap list_fmap]. rewrite !elem_of_cons, elem_of_nil. naive_solver.
Qed.

Lemma parse_line_spec n c l :
  match parse_line n c l with
  | Ok c' => (c' = c ∨ ∃ s, setting_wf s ∧ c' = assign c s) ∧ ∀ e, ¬ explains n l e
  | Err e => explains n l e
  | _ => False
  end.
Proof.
  unfold parse_line. fold (content l). case_decide as Hne.
  { split; [by left|]. intros [k|line m|line k v|line k]; cbn; [tauto|tauto|..]; unfold assigns; rewrite Hne; cbn;
      naive_solver. }
  destruct (split_once equals_char (content l)) as [[k v]|] eqn:Hsplit.
  2: { cbn. split_and!; [done|done|]. left. by apply split_once_None. }
  assert (assigns l (trim k) (trim v)) as Hassigns by (by exists k, v).
  assert (∀ k' v', assigns l k' v' → k' = trim k ∧ v' = trim v) as Huniq.
  { intros k' v' (k1 & v1 & Hs & -> & ->). rewrite Hsplit in Hs. by injection Hs as -> ->. }
  case_decide as Hempty; [cbn; split_and!; [done|done|right; by exists (trim k), (trim v)]|].
  assert (trim k ≠ [] ∧ trim v ≠ []) as [Hk Hv] by tauto.
  pose proof (parse_setting_spec n (trim k) (trim v)) as Hspec.
  destruct (parse_setting n (trim k) (trim v)) as [s|[kind|line m|line k' bad|line k']| |]; try done; cbn.
  - destruct Hspec as (Hwf & Hknown & Hbad). split; [right; by exists s|].
    intros [kind|line m|line k' v'|line k']; cbn; [tauto|..].
    + intros (_ & _ & [Hno|(k' & v' & (-> & ->)%Huniq & [?|?])]); [|done|done].
      apply split_once_None in Hno. congruence.
    + intros (_ & v2 & _ & (-> & ->)%Huniq & Hb). by apply (Hbad v').
    + intros (_ & _ & Hun & v2 & _ & (-> & ->)%Huniq). done.
  - destruct Hspec as (-> & -> & _ & Hb). split; [done|]. by exists (trim v).
  - destruct Hspec as (-> & -> & Hun). split_and!; [done|done|done|]. by exists (trim v).
Qed.

(** ** Whole files *)

(** Every field that is set holds a value of its type. *)
Definition config_wf (c : EtleConfig) : Prop :=
  (∀ a, cfg_listen c = Some a → addr_wf a) ∧ (∀ p, cfg_discovery_port c = Some p → u16_range p)
  ∧ (∀ a, cfg_discovery_multicast c = Some a → multicast_range a)
  ∧ (∀ n, cfg_discovery_timeout_ms c = Some n → u64_range n)
  ∧ (∀ n, cfg_request_window c = Some n → u64_range n) ∧ (∀ n, cfg_parallel c = Some n → u64_range n).

Lemma assign_wf c s : config_wf c → setting_wf s → config_wf (assign c s).
Proof.
  destruct c. intros (H1 & H2 & H3 & H4 & H5 & H6) Hs. unfold config_wf in *.
  destruct s; cbn in *; split_and!; naive_solver.
Qed.

(** What [parse_lines] makes of the lines: all are right, or the error is about the first that is not. *)
Lemma parse_lines_spec ls : ∀ n c,
  match parse_lines n c ls with
  | Ok c' => (config_wf c → config_wf c') ∧ ∀ i l, ls !! i = Some l → ∀ e, ¬ explains (n + Z.of_nat i) l e
  | Err e => ∃ i l, ls !! i = Some l ∧ explains (n + Z.of_nat i) l e
      ∧ ∀ j l', (j < i)%nat → ls !! j = Some l' → ∀ e', ¬ explains (n + Z.of_nat j) l' e'
  | _ => False
  end.
Proof.
  induction ls as [|l ls IH]; intros n c; cbn [parse_lines]; [by split|].
  assert (∀ j, n + Z.of_nat (S j) = n + 1 + Z.of_nat j) as Hshift by lia.
  assert (n = n + Z.of_nat 0) as Hzero by lia.
  pose proof (parse_line_spec n c l) as Hl. destruct (parse_line n c l) as [c1|e| |]; cbn [result_bind]; try done.
  - destruct Hl as [Hc1 Hl]. specialize (IH (n + 1) c1). destruct (parse_lines (n + 1) c1 ls) as [c'|e| |]; try done.
    + destruct IH as [Hwf Hls]. split.
      * intros Hc. apply Hwf. destruct Hc1 as [->|(s & Hs & ->)]; [done|]. by apply assign_wf.
      * intros [|i] l' Hi; [injection Hi as <-; by rewrite <- Hzero|]. rewrite Hshift. by apply Hls.
    + destruct IH as (i & l' & Hi & He & Hprev). exists (S i), l'. rewrite Hshift. split_and!; [done|done|].
      intros [|j] l2 Hj Hl2; [injection Hl2 as <-; by rewrite <- Hzero|]. rewrite Hshift. apply Hprev; [lia|done].
  - exists 0%nat, l. rewrite <- Hzero. split_and!; [done|done|]. intros j l' Hj. lia.
Qed.

(** * The theorems *)

(** C25: [parse] never panics, and it is right about every source: when it succeeds no
    line has an error, and when it fails the error it returns describes the first
    line that has one, by its number: text without [=], an empty key or value, a
    key that does not exist, or a value that is not one of its key's type. *)
Theorem parse_diagnoses source :
  match parse source with
  | Ok _ => ∀ i l, lines source !! i = Some l → ∀ e, ¬ explains (Z.of_nat i + 1) l e
  | Err e => ∃ i l, lines source !! i = Some l ∧ explains (Z.of_nat i + 1) l e
      ∧ ∀ j l', (j < i)%nat → lines source !! j = Some l' → ∀ e', ¬ explains (Z.of_nat j + 1) l' e'
  | _ => False
  end.
Proof.
  pose proof (parse_lines_spec (lines source) 1 EtleConfig_default) as Hspec. unfold parse.
  assert (∀ i, 1 + Z.of_nat i = Z.of_nat i + 1) as Hswap by lia.
  destruct (parse_lines _ _ _) as [c|e| |]; try done.
  - intros i l. rewrite <- Hswap. apply Hspec.
  - destruct Hspec as (i & l & Hi & He & Hprev). exists i, l. rewrite <- Hswap. split_and!; [done|done|].
    intros j l'. rewrite <- Hswap. apply Hprev.
Qed.

(** C39: a configuration that [parse] accepts is well typed: ports have 16 bits, the
    multicast address is one of 224.0.0.0 to 239.255.255.255, numbers have 64 bits,
    addresses are addresses; and so are the values of the accessors, with or
    without a default. *)
Theorem parse_typed source c :
  parse source = Ok c →
  config_wf c ∧ addr_wf (listen_addr c) ∧ u16_range (discovery_port c) ∧ multicast_range (discovery_multicast c)
  ∧ u64_range (discovery_timeout_ms c) ∧ u64_range (cfg_get_request_window c) ∧ u64_range (cfg_get_parallel c).
Proof.
  intros Hparse. pose proof (parse_lines_spec (lines source) 1 EtleConfig_default) as Hspec.
  unfold parse in Hparse. rewrite Hparse in Hspec. destruct Hspec as [Hwf _].
  assert (config_wf c) as Hc by (apply Hwf; by split_and!). split; [done|].
  destruct Hc as (H1 & H2 & H3 & H4 & H5 & H6).
  unfold listen_addr, discovery_port, discovery_multicast, discovery_timeout_ms, cfg_get_request_window, cfg_get_parallel.
  split_and!.
  - destruct (cfg_listen c); [by apply H1|by_decide].
  - destruct (cfg_discovery_port c); [by apply H2|by_decide].
  - destruct (cfg_discovery_multicast c); [by apply H3|by_decide].
  - destruct (cfg_discovery_timeout_ms c); [by apply H4|by_decide].
  - destruct (cfg_request_window c); [by apply H5|by_decide].
  - destruct (cfg_parallel c); [by apply H6|by_decide].
Qed.

Lemma unlines_scalar ls : Forall (Forall scalar) ls → Forall scalar (unlines ls).
Proof.
  unfold unlines. induction 1 as [|l ls Hl _ IH]; [done|].
  rewrite bind_cons, !Forall_app. split_and!; [done|by repeat constructor|done].
Qed.

(** [load] parses the file at the configured place. *)
Lemma load_file getenv resolve name source w :
  default_config_path getenv = Some name → file_at (w_fs w) (resolve name) = Some (utf8_encode source) →
  Forall scalar source → no_faults w → load getenv resolve w = (parse source, tick w).
Proof.
  intros Hname Hfile Hscalar Hn. unfold load. rewrite Hname. unfold from_path, read_to_string.
  unfold bind, try_. unfold file_at in Hfile. destruct (w_fs w !! resolve name) as [[d|]|] eqn:Hd; try done.
  injection Hfile as ->. rewrite (read_file_ok w Hn _ _ Hd).
  unfold lift_result. by rewrite utf8_decode_encode.
Qed.

(** [load] reads back what a file spells. When the file at the configured place
    holds lines that each spell one setting (with any spacing, quoting and comment)
    or none, [load] returns the configuration with exactly those settings, the
    last one of a key winning; it changes nothing. *)
Theorem load_roundtrip getenv resolve name ls os w :
  default_config_path getenv = Some name →
  file_at (w_fs w) (resolve name) = Some (utf8_encode (unlines ls)) → no_faults w →
  Forall2 line_spelled ls os → Forall plain_line ls → Forall (Forall scalar) ls →
  load getenv resolve w = (Ok (foldl assign EtleConfig_default (omap id os)), tick w).
Proof.
  intros Hname Hfile Hn Hls Hplain Hscalar. rewrite (load_file _ _ _ _ _ Hname Hfile) by auto using unlines_scalar.
  unfold parse. rewrite lines_unlines by done. by rewrite (parse_lines_spelled 1 EtleConfig_default ls os).
Qed.

Module ConfigSample.
Definition getenv (name : string) : option text :=
  if decide (name = "HOME"%string) then Some (txt "/home/u") else None.
(** Names without [.] and [..]: the parts between the slashes. *)
Fixpoint components (acc : text) (t : text) : path :=
  match t with
  | [] => if decide (acc = []) then [] else [String.string_of_list_byte (utf8_encode (reverse acc))]
  | c :: t =>
      if decide (c = slash)
      then (if decide (acc = []) then [] else [String.string_of_list_byte (utf8_encode (reverse acc))]) ++ components [] t
      else components (c :: acc) t
  end.
Definition resolve : text → path := components [].

Definition psk : text := txt "a # b = \" ++ [quote_char; 10; 233].
Definition ls : list text :=
  [ txt "# etle"; [];
    txt "  listen = " ++ quote (txt "127.0.0.1:7001") ++ txt "  # local";
    txt "discovery_port=40000";
    txt "auth_psk = " ++ quote psk ++ txt " # secret";
    txt "discovery_port = 40001" ].
Definition os : list (option setting) :=
  [ None; None; Some (SetListen (SocketAddr (IpV4 (ipv4 127 0 0 1)) 7001)); Some (SetDiscoveryPort 40000);
    Some (SetAuthPsk psk); Some (SetDiscoveryPort 40001) ].
Definition config : EtleConfig :=
  mkEtleConfig None None (Some (SocketAddr (IpV4 (ipv4 127 0 0 1)) 7001)) (Some 40001) None None None None (Some psk).
Definition file : path := ["home"; "u"; ".config"; "etle"; "config.toml"]%string.
Definition world : World := CryptoSample.world {[ file := File (utf8_encode (unlines ls)) ]} [].

Lemma spelled : Forall2 line_spelled ls os.
Proof.
  repeat constructor.
  - apply (spelled_nothing []); [done|by right].
  - apply (spelled_nothing []); [done|by left].
  - apply (spelled_setting (txt "  ") (txt " ") (txt " ") (quote (txt "127.0.0.1:7001")) (txt "  ") (txt "# local")
             (SetListen (SocketAddr (IpV4 (ipv4 127 0 0 1)) 7001))); [by_decide|by right|by_decide|by_decide].
  - apply (spelled_setting [] [] [] (txt "40000") [] [] (SetDiscoveryPort 40000)); [done|by left|by_decide|by_decide].
  - apply (spelled_setting [] (txt " ") (txt " ") (quote psk) (txt " ") (txt "# secret") (SetAuthPsk psk));
      [by_decide|by right|by left|done].
  - apply (spelled_setting [] (txt " ") (txt " ") (txt "40001") [] [] (SetDiscoveryPort 40001));
      [by_decide|by left|by_decide|by_decide].
Qed.
End ConfigSample.

Lemma load_roundtrip_witness :
  load ConfigSample.getenv ConfigSample.resolve ConfigSample.world = (Ok ConfigSample.config, tick ConfigSample.world).
Proof.
  apply (load_roundtrip ConfigSample.getenv ConfigSample.resolve (txt "/home/u/.config/etle/config.toml")
    ConfigSample.ls ConfigSample.os ConfigSample.world).
  - by vm_compute.
  - by vm_compute.
  - by intros n.
  - apply ConfigSample.spelled.
  - by_decide.
  - by_decide.
Defined.

Lemma parse_typed_witness :
  parse (unlines ConfigSample.ls) = Ok ConfigSample.config
  ∧ config_wf ConfigSample.config ∧ addr_wf (listen_addr ConfigSample.config)
  ∧ u16_range (discovery_port ConfigSample.config) ∧ multicast_range (discovery_multicast ConfigSample.config)
  ∧ u64_range (discovery_timeout_ms ConfigSample.config) ∧ u64_range (cfg_get_request_window ConfigSample.config)
  ∧ u64_range (cfg_get_parallel ConfigSample.config).
Proof.
  split; [by vm_compute|]. apply (parse_typed (unlines ConfigSample.ls)). by vm_compute.
Defined.

Example parse_errors :
  parse (txt "parallel = 4" ++ [10] ++ txt "port = 1") = Err (UnknownKey 2 (txt "port"))
  ∧ parse (txt "discovery_port = 65536") = Err (InvalidValue 1 (txt "discovery_port") (txt "65536"))
  ∧ parse (txt "discovery_multicast = 10.0.0.1") = Err (InvalidValue 1 (txt "discovery_multicast") (txt "10.0.0.1"))
  ∧ parse (txt "parallel") = Err (InvalidLine 1 (txt "expected `key = value`"))
  ∧ parse (txt "parallel = # 4") = Err (InvalidLine 1 (txt "key and value must be non-empty")).
Proof. by vm_compute. Qed.
