(* ===== verification/Ipc.v ===== *)
(** The local protocol between the daemon and its clients ([src/src/ipc]): commands,
    responses and events, their frames, the client, and the endpoint's path.

    A frame is a 32-bit big-endian length and a [bincode] message; the stream is
    the current connection of the [World]. The Unix variants are modelled. *)
From stdpp Require Import base tactics list countable strings gmap.
From Stdlib Require Import ZArith Lia.
From S2P Require Import Prelude Bytes World Files Extern Crypto Descriptor State Library Codec.
Local Open Scope Z_scope.
Local Open Scope etle_scope.

(** * Messages *)

(** The fields of [IpcCommand::Download] and [DownloadFresh]. *)
Record DownloadRequest := mkDownloadRequest {
  dr_share_id : ShareId;
  dr_peers : list socket_addr;
  dr_output : option path;
  dr_parallelism : Z;
  dr_request_window : Z;
  dr_discovery_port : Z;
  dr_discovery_timeout_ms : Z;
  dr_discovery_multicast : Z;
  dr_auth_psk : option string;
}.
Global Instance DownloadRequest_eq_dec : EqDecision DownloadRequest.
Proof. solve_decision. Defined.

Inductive IpcCommand :=
  | Ping
  | ListShares
  | SeedFile (input : path) (chunk_size : Z)
  | StartServing (listen : socket_addr)
  | StopServing
  | DeleteShare (share_id : ShareId)
  | Download (request : DownloadRequest)
  | DownloadFresh (request : DownloadRequest)
  | Pause (share_id : ShareId)
  | Resume (share_id : ShareId)
  | SubscribeEvents
  | Shutdown.
Global Instance IpcCommand_eq_dec : EqDecision IpcCommand.
Proof. solve_decision. Defined.

Record IpcShareSummary := mkIpcShareSummary {
  is_share_id : ShareId;
  is_name : string;
  is_completed_chunks : Z;
  is_total_chunks : Z;
  is_has_secret : bool;
  is_mode : option string;
}.
Global Instance IpcShareSummary_eq_dec : EqDecision IpcShareSummary.
Proof. solve_decision. Defined.

Inductive IpcResponse :=
  | Pong
  | Ack (message : string)
  | Shares (shares : list IpcShareSummary)
  | ShareAdded (share : IpcShareSummary)
  | ShareDeleted (share_id : ShareId) (name : string)
  | TransferQueued (share_id : ShareId) (job_id : string)
  | TransferCompleted (share_id : ShareId) (output : path) (file_name : string) (file_size chunks : Z)
  | IpcErrorResponse (message : string).
Global Instance IpcResponse_eq_dec : EqDecision IpcResponse.
Proof. solve_decision. Defined.

Inductive IpcEvent :=
  | ServerStarted (listen : socket_addr)
  | ServerStopped
  | EvShareUpdated (share : IpcShareSummary)
  | EvShareDeleted (share_id : ShareId)
  | PeerConnected (peer_id : string)
  | ChunkCompleted (share_id : ShareId) (completed_chunks total_chunks : Z)
  | TaskProgress (job_id : option string) (task label : string)
      (completed_chunks total_chunks bytes_done total_bytes bytes_per_second : Z)
  | TransferProgress (job_id : option string) (share_id : ShareId)
      (completed_chunks total_chunks bytes_done total_bytes bytes_per_second : Z)
  | EvTransferCompleted (job_id : option string) (share_id : ShareId) (output : path)
  | EvError (message : string).
Global Instance IpcEvent_eq_dec : EqDecision IpcEvent.
Proof. solve_decision. Defined.

Inductive IpcError :=
  | IpcIo (k : io_kind)
  | IpcEncode
  | IpcDecode (e : decode_error)
  | IpcEmptyFrame
  | IpcFrameTooLarge (len max : Z)
  | IpcTrailingBytes (bytes_read frame_len : Z).
Global Instance IpcError_eq_dec : EqDecision IpcError.
Proof. solve_decision. Defined.

Abbreviation ipc := (M World IpcError).

(** * Frames *)
Definition MAX_IPC_FRAME_SIZE : Z := 4 * 1024 * 1024.

Definition validate_ipc_frame_len (len : Z) : result IpcError unit :=
  if decide (len = 0) then Err IpcEmptyFrame
  else if decide (len > MAX_IPC_FRAME_SIZE) then Err (IpcFrameTooLarge len MAX_IPC_FRAME_SIZE)
  else Ok tt.

Section codec.
Context {T : Type} `{Bincode T}.

Definition send_ipc_message (message : T) : ipc unit :=
  let! payload := lift_result (ok_or (bincode_encode message) IpcEncode) in
  do! lift_result (validate_ipc_frame_len (zlen payload)) in
  do! map_err IpcIo (write_all (u32_to_be_bytes (as_u32 (zlen payload)))) in
  do! map_err IpcIo (write_all payload) in
  map_err IpcIo flush.

Definition receive_ipc_message : ipc T :=
  let! len_bytes := map_err IpcIo (read_exact 4) in
  let len := u32_from_be_bytes len_bytes in
  do! lift_result (validate_ipc_frame_len len) in
  let! payload := map_err IpcIo (read_exact (Z.to_nat len)) in
  let! r := lift_result (ok_or (bincode_decode payload) (IpcDecode DecodeFailed)) in
  if decide (r.2 ≠ zlen payload) then throw (IpcTrailingBytes r.2 (zlen payload)) else ret r.1.
End codec.

(** * The client *)
Section client.
Context `{Bincode IpcCommand, Bincode IpcResponse, Bincode IpcEvent}.

(** [UnixStream::connect]; the endpoint is the address [socket] stands for. *)
Definition send_ipc_command (socket : socket_addr) (command : IpcCommand) : ipc IpcResponse :=
  do! map_err IpcIo (connect socket) in
  do! send_ipc_message command in
  receive_ipc_message (T := IpcResponse).

(** The calls of [on_event], in order, are the second component of the state. *)
Definition on_stream {E A} (m : M World E A) : M (World * list IpcEvent) E A := λ s,
  match m s.1 with (r, w) => (r, (w, s.2)) end.

Definition event_round (_ : unit) : M (World * list IpcEvent) IpcError (unit + unit) :=
  let! event := on_stream (receive_ipc_message (T := IpcEvent)) in
  do! modify (λ s, (s.1, s.2 ++ [event])) in
  ret (inl tt).

Definition subscribe_ipc_events (socket : socket_addr) : M (World * list IpcEvent) IpcError unit :=
  do! on_stream (map_err IpcIo (connect socket)) in
  do! on_stream (send_ipc_message SubscribeEvents) in
  let! _ack := on_stream (receive_ipc_message (T := IpcResponse)) in
  let! fuel := gets (λ s, S (length (w_in s.1))) in
  mloop fuel event_round tt.
End client.

(** * The endpoint *)
Definition DEFAULT_IPC_SOCKET_FILE_NAME : string := "etled.sock".
Definition default_ipc_socket_path (library_root : path) : path :=
  library_root ++ [ETLE_DIR_NAME; DEFAULT_IPC_SOCKET_FILE_NAME].

(** * Facts about frames *)
Definition ipc_frame {T} `{Bincode T} (m : T) : result IpcError bytes :=
  let? payload := ok_or (bincode_encode m) IpcEncode in
  let? _ := validate_ipc_frame_len (zlen payload) in
  Ok (u32_to_be_bytes (zlen payload) ++ payload).

Lemma validate_ipc_frame_len_Ok n : validate_ipc_frame_len n = Ok tt ↔ n ≠ 0 ∧ n ≤ MAX_IPC_FRAME_SIZE.
Proof. unfold validate_ipc_frame_len. repeat case_decide; naive_solver lia. Qed.

Lemma validate_ipc_frame_len_total n : validate_ipc_frame_len n = Ok tt ∨ ∃ e, validate_ipc_frame_len n = Err e.
Proof. unfold validate_ipc_frame_len. repeat case_decide; eauto. Qed.

Lemma wp_send_ipc {T} `{Bincode T} (m : T) (Q : unit → World → Prop) (R : IpcError → World → Prop) w :
  (∀ f k out w', ipc_frame m = Ok f → sent w out w' → out `prefix_of` f → ¬ no_faults w → R (IpcIo k) w') →
  (∀ e, ipc_frame m = Err e → R e w) →
  (∀ f w', ipc_frame m = Ok f → sent w f w' → Q tt w') →
  wp (send_ipc_message m) Q R w.
Proof.
  intros HR He HQ. unfold send_ipc_message. wp_simpl. unfold ipc_frame in *.
  destruct (bincode_encode m) as [payload|]; cbn [ok_or result_bind] in *; [|by apply He].
  wp_simpl. destruct (validate_ipc_frame_len_total (zlen payload)) as [Hv|[e Hv]];
    rewrite Hv in *; cbn [result_bind] in *; [|by apply He].
  apply validate_ipc_frame_len_Ok in Hv. pose proof (zlen_nonneg payload).
  assert (as_u32 (zlen payload) = zlen payload) as ->
    by (unfold as_u32; apply Z.mod_small; unfold MAX_IPC_FRAME_SIZE in *; lia).
  assert (concat [u32_to_be_bytes (zlen payload); payload] = u32_to_be_bytes (zlen payload) ++ payload) as Hcat
    by (cbn [concat]; by rewrite app_nil_r).
  apply (wp_write_pieces IpcIo w [] [_; payload]); [by apply stepped_sent| |]; rewrite Hcat.
  - intros k out w' Hs Hp Hnf. by eapply HR.
  - intros w' Hs. by eapply HQ.
Qed.

(** [receive_ipc_message] on a frame: exactly the message, and the rest is left. *)
Lemma wp_receive_ipc {T} `{BincodeLaws T} (m : T) f rest (Q : T → World → Prop) (R : IpcError → World → Prop) w :
  ipc_frame m = Ok f → w_in w = f ++ rest → (∀ k w', ¬ no_faults w → R (IpcIo k) w') →
  (∀ w', recv_step w rest w' → Q m w') → wp receive_ipc_message Q R w.
Proof.
  unfold ipc_frame. rewrite result_bind_Ok. setoid_rewrite result_bind_Ok.
  intros (payload & Henc%ok_or_Ok & [] & Hv & Hf) Hin HR HQ.
  assert (f = u32_to_be_bytes (zlen payload) ++ payload) as -> by congruence.
  apply validate_ipc_frame_len_Ok in Hv as [Hne Hmax]. pose proof (zlen_nonneg payload).
  rewrite <- app_assoc in Hin. unfold receive_ipc_message. wp_simpl.
  eapply wp_read_exact_app; [exact Hin|apply length_u32_to_be_bytes|by eauto|].
  intros w1 Hst1. wp_simpl. rewrite u32_from_to_be_bytes by (unfold u32_range, u32_max, MAX_IPC_FRAME_SIZE in *; lia).
  rewrite (proj2 (validate_ipc_frame_len_Ok (zlen payload))) by done. wp_simpl.
  eapply (wp_read_exact_app payload rest); [by eapply recv_step_in|unfold zlen; lia| |].
  { intros k w' Hnf. apply HR. by rewrite (recv_step_no_faults _ _ _ Hst1). }
  intros w2 Hst2. wp_simpl. pose proof (bincode_decode_encode _ _ [] Henc) as Hdec. rewrite app_nil_r in Hdec.
  rewrite Hdec. cbn [ok_or]. wp_simpl. rewrite decide_False by (by intros []). wp_simpl.
  apply HQ. by eapply recv_step_trans.
Qed.

(** On any input: a message or an error, and only the stream is read. *)
Lemma wp_receive_ipc_any {T} `{Bincode T} (Q : T → World → Prop) (R : IpcError → World → Prop) w :
  (∀ e pre post w', w_in w = pre ++ post → recv_step w post w' → R e w') →
  (∀ m pre post w', w_in w = pre ++ post → 4 < zlen pre ≤ 4 + MAX_IPC_FRAME_SIZE → recv_step w post w' → Q m w') →
  wp receive_ipc_message Q R w.
Proof.
  intros HR HQ. unfold receive_ipc_message. wp_simpl. apply wp_read_exact.
  { intros k pre post w' Hin Hst _. by eapply HR. }
  intros pre post w1 Hin Hlen Hst1. wp_simpl. pose proof (recv_step_in _ _ _ Hst1) as Hp.
  destruct (validate_ipc_frame_len_total (u32_from_be_bytes pre)) as [Hv|[e Hv]]; rewrite Hv; wp_simpl; [|by eapply HR].
  apply validate_ipc_frame_len_Ok in Hv. pose proof (u32_from_be_bytes_range pre Hlen) as [Hpos _].
  assert (∀ p2 post2, w_in w1 = p2 ++ post2 → w_in w = (pre ++ p2) ++ post2) as Hsplit
    by (intros p2 post2 Hin2; by rewrite Hin, <- Hp, Hin2, <- app_assoc).
  apply wp_read_exact.
  { intros k p2 post2 w2 Hin2 Hst2 _. eapply HR; [by eapply Hsplit|by eapply recv_step_trans]. }
  intros p2 post2 w2 Hin2 Hlen2 Hst2. wp_simpl. assert (recv_step w post2 w2) as Hst by (by eapply recv_step_trans).
  destruct (bincode_decode p2) as [[m n]|]; cbn [ok_or]; wp_simpl; [|by eapply HR; first [by eapply Hsplit|done]].
  case_decide; wp_simpl; [by eapply HR; first [by eapply Hsplit|done]|]. eapply HQ; [by eapply Hsplit| |done]. unfold zlen. rewrite length_app. lia.
Qed.

(** A frame that was cut short, or no frame at all, is not a message. *)
Lemma wp_receive_ipc_cut {T} `{Bincode T} (m : T) f (Q : T → World → Prop) (R : IpcError → World → Prop) w :
  ipc_frame m = Ok f → w_in w `prefix_of` f → w_in w ≠ f → no_faults w →
  (∀ w', recv_step w [] w' → R (IpcIo UnexpectedEof) w') → wp receive_ipc_message Q R w.
Proof.
  unfold ipc_frame. rewrite result_bind_Ok. setoid_rewrite result_bind_Ok.
  intros (payload & Henc%ok_or_Ok & [] & Hv & Hf) Hpre Hne Hn HR.
  assert (f = u32_to_be_bytes (zlen payload) ++ payload) as -> by congruence.
  apply validate_ipc_frame_len_Ok in Hv as Hlen. pose proof (zlen_nonneg payload). unfold receive_ipc_message. wp_simpl.
  destruct (decide (length (w_in w) < 4)%nat) as [Hshort|Hlong].
  { unfold wp. rewrite read_exact_eof by done. by apply HR. }
  destruct Hpre as [post Hpost]. assert (∃ part, w_in w = u32_to_be_bytes (zlen payload) ++ part ∧ payload = part ++ post) as (part & Hin & Hpay).
  { apply (f_equal (take 4)) in Hpost as Ht. apply (f_equal (drop 4)) in Hpost as Hd.
    rewrite take_app_length' in Ht by (by rewrite length_u32_to_be_bytes). rewrite drop_app_length' in Hd by (by rewrite length_u32_to_be_bytes).
    rewrite take_app_le in Ht by lia. rewrite drop_app_le in Hd by lia. exists (drop 4 (w_in w)). split; [|done].
    by rewrite Ht, take_drop. }
  eapply wp_read_exact_app; [exact Hin|apply length_u32_to_be_bytes|by intros k w' []|].
  intros w1 Hst1. wp_simpl. rewrite u32_from_to_be_bytes by (unfold u32_range, u32_max, MAX_IPC_FRAME_SIZE in *; lia).
  rewrite Hv. wp_simpl. unfold wp. rewrite read_exact_eof; [|by apply (recv_step_no_faults _ _ _ Hst1)|].
  { apply HR. by eapply recv_step_trans. }
  rewrite (recv_step_in _ _ _ Hst1). assert (length payload ≠ length part).
  { intros Heq. rewrite Hpay, length_app in Heq. assert (post = []) as -> by (apply nil_length_inv; lia). rewrite app_nil_r in Hpay.
    by subst payload. }
  apply (f_equal length) in Hpay. rewrite length_app in Hpay. unfold zlen. lia.
Qed.

Lemma ipc_frame_length {T} `{Bincode T} (m : T) f : ipc_frame m = Ok f → (0 < length f)%nat.
Proof.
  unfold ipc_frame. rewrite result_bind_Ok. setoid_rewrite result_bind_Ok. intros (payload & _ & [] & _ & Hf).
  assert (f = u32_to_be_bytes (zlen payload) ++ payload) as -> by congruence. rewrite length_app, length_u32_to_be_bytes. lia.
Qed.

(** * Samples *)
Import Toy.
Module IpcSample.
Definition request_parts (r : DownloadRequest) :=
  ((dr_share_id r, dr_peers r, dr_output r, dr_parallelism r, dr_request_window r),
   (dr_discovery_port r, dr_discovery_timeout_ms r, dr_discovery_multicast r, dr_auth_psk r)).
Definition request_of p : DownloadRequest :=
  match p with ((a, b, c, d, e), (f, g, h, i)) => mkDownloadRequest a b c d e f g h i end.
#[export] Instance request_countable : Countable DownloadRequest.
Proof. refine (inj_countable' request_parts request_of _). by intros []. Defined.

Definition command_parts (c : IpcCommand) :=
  match c with
  | Ping => inl (0%nat)
  | ListShares => inl 1%nat
  | StopServing => inl 2%nat
  | SubscribeEvents => inl 3%nat
  | Shutdown => inl 4%nat
  | SeedFile p n => inr (inl (inl (p, n)))
  | StartServing a => inr (inl (inr a))
  | DeleteShare i => inr (inr (inl (0%nat, i)))
  | Pause i => inr (inr (inl (1%nat, i)))
  | Resume i => inr (inr (inl (2%nat, i)))
  | Download r => inr (inr (inr (false, r)))
  | DownloadFresh r => inr (inr (inr (true, r)))
  end.
Definition command_of p : IpcCommand :=
  match p with
  | inl 0%nat => Ping
  | inl 1%nat => ListShares
  | inl 2%nat => StopServing
  | inl 3%nat => SubscribeEvents
  | inl _ => Shutdown
  | inr (inl (inl (p, n))) => SeedFile p n
  | inr (inl (inr a)) => StartServing a
  | inr (inr (inl (0%nat, i))) => DeleteShare i
  | inr (inr (inl (1%nat, i))) => Pause i
  | inr (inr (inl (_, i))) => Resume i
  | inr (inr (inr (false, r))) => Download r
  | inr (inr (inr (true, r))) => DownloadFresh r
  end.
#[export] Instance command_countable : Countable IpcCommand.
Proof. refine (inj_countable' command_parts command_of _). by intros []. Defined.

#[export] Instance summary_countable : Countable IpcShareSummary.
Proof.
  refine (inj_countable' (λ s, (is_share_id s, is_name s, is_completed_chunks s, is_total_chunks s, is_has_secret s, is_mode s))
    (λ p, match p with (a, b, c, d, e, f) => mkIpcShareSummary a b c d e f end) _). by intros [].
Defined.

Definition response_parts (r : IpcResponse) :=
  match r with
  | Pong => inl (inl ())
  | Ack m => inl (inr (inl m))
  | IpcErrorResponse m => inl (inr (inr m))
  | Shares l => inr (inl (inl l))
  | ShareAdded s => inr (inl (inr s))
  | ShareDeleted i n => inr (inr (inl (i, n, false)))
  | TransferQueued i n => inr (inr (inl (i, n, true)))
  | TransferCompleted i o f a b => inr (inr (inr (i, o, f, a, b)))
  end.
Definition response_of p : IpcResponse :=
  match p with
  | inl (inl ()) => Pong
  | inl (inr (inl m)) => Ack m
  | inl (inr (inr m)) => IpcErrorResponse m
  | inr (inl (inl l)) => Shares l
  | inr (inl (inr s)) => ShareAdded s
  | inr (inr (inl (i, n, false))) => ShareDeleted i n
  | inr (inr (inl (i, n, true))) => TransferQueued i n
  | inr (inr (inr (i, o, f, a, b))) => TransferCompleted i o f a b
  end.
#[export] Instance response_countable : Countable IpcResponse.
Proof. refine (inj_countable' response_parts response_of _). by intros []. Defined.

Definition event_parts (e : IpcEvent) :=
  match e with
  | ServerStarted a => inl (inl (inl a))
  | ServerStopped => inl (inl (inr ()))
  | EvShareUpdated s => inl (inr (inl s))
  | EvShareDeleted i => inl (inr (inr i))
  | PeerConnected p => inr (inl (inl (false, p)))
  | EvError m => inr (inl (inl (true, m)))
  | ChunkCompleted i a b => inr (inl (inr (i, a, b)))
  | TaskProgress j t l a b c d e => inr (inr (inl (j, t, l, (a, b, c, d, e))))
  | TransferProgress j i a b c d e => inr (inr (inr (inl (j, i, (a, b, c, d, e)))))
  | EvTransferCompleted j i o => inr (inr (inr (inr (j, i, o))))
  end.
Definition event_of_parts p : IpcEvent :=
  match p with
  | inl (inl (inl a)) => ServerStarted a
  | inl (inl (inr ())) => ServerStopped
  | inl (inr (inl s)) => EvShareUpdated s
  | inl (inr (inr i)) => EvShareDeleted i
  | inr (inl (inl (false, p))) => PeerConnected p
  | inr (inl (inl (true, m))) => EvError m
  | inr (inl (inr (i, a, b))) => ChunkCompleted i a b
  | inr (inr (inl (j, t, l, (a, b, c, d, e)))) => TaskProgress j t l a b c d e
  | inr (inr (inr (inl (j, i, (a, b, c, d, e))))) => TransferProgress j i a b c d e
  | inr (inr (inr (inr (j, i, o)))) => EvTransferCompleted j i o
  end.
#[export] Instance event_countable : Countable IpcEvent.
Proof. refine (inj_countable' event_parts event_of_parts _). by intros []. Defined.

#[export] Instance command_bincode : Bincode IpcCommand := countable_bincode IpcCommand.
#[export] Instance response_bincode : Bincode IpcResponse := countable_bincode IpcResponse.
#[export] Instance event_bincode : Bincode IpcEvent := countable_bincode IpcEvent.
#[export] Instance command_laws : BincodeLaws IpcCommand := countable_bincode_laws IpcCommand.
#[export] Instance response_laws : BincodeLaws IpcResponse := countable_bincode_laws IpcResponse.
#[export] Instance event_laws : BincodeLaws IpcEvent := countable_bincode_laws IpcEvent.
End IpcSample.
