(* ===== verification/Output.v ===== *)
(** Where the daemon puts a finished download ([src/src/ipc/server/commands.rs],
    the functions about output paths): a file name taken from a manifest, which a
    peer wrote, becomes a free name in the output directory.

    [Path::file_name], [file_stem] and [extension] are those of Unix; a file name is
    a [string] of bytes. *)
From stdpp Require Import base tactics list countable strings gmap.
From Stdlib Require Import ZArith Lia.
From S2P Require Import Prelude Bytes World Files Extern Crypto Descriptor State Library Codec Handshake DownloadState Seed.
Local Open Scope Z_scope.
Local Open Scope etle_scope.

(** * [std::path] on names *)
Definition dot : byte := Byte.x2e.
Definition path_separator : byte := Byte.x2f.
Definition of_bytes (b : bytes) : string := String.string_of_list_byte b.

Fixpoint split_on (sep : byte) (acc l : bytes) : list bytes :=
  match l with
  | [] => [reverse acc]
  | b :: l => if decide (b = sep) then reverse acc :: split_on sep [] l else split_on sep (b :: acc) l
  end.
(** The components of a path text: empty ones and [.] do not count. *)
Definition path_parts (s : string) : list bytes :=
  filter (λ c, c ≠ [] ∧ c ≠ [dot]) (split_on path_separator [] (str_bytes s)).

(** [Path::new(s).file_name()] *)
Definition text_file_name (s : string) : option string :=
  match last (path_parts s) with
  | Some c => if decide (c = [dot; dot]) then None else Some (of_bytes c)
  | None => None
  end.

Fixpoint rsplit_once (sep : byte) (l : bytes) : option (bytes * bytes) :=
  match l with
  | [] => None
  | b :: r =>
      match rsplit_once sep r with
      | Some (x, y) => Some (b :: x, y)
      | None => if decide (b = sep) then Some ([], r) else None
      end
  end.
(** [Path::file_stem] and [Path::extension] of a last component. *)
Definition file_stem (name : string) : string :=
  if decide (name = ".."%string) then name
  else match rsplit_once dot (str_bytes name) with
       | None | Some ([], _) => name
       | Some (before, _) => of_bytes before
       end.
Definition file_extension (name : string) : option string :=
  if decide (name = ".."%string) then None
  else match rsplit_once dot (str_bytes name) with
       | None | Some ([], _) => None
       | Some (_, after) => Some (of_bytes after)
       end.

(** * The output path *)
Definition default_download_output_dir (library_root : path) : path := library_root ++ [OUTPUT_DIR_NAME].
Definition temporary_download_output_path (library_root : path) (pid : Z) : path :=
  default_download_output_dir library_root ++ [".etle-download-daemon-" +:+ dec pid +:+ ".part"].

Definition safe_output_file_name (file_name : string) : string :=
  match text_file_name file_name with
  | Some name => if decide (name = ""%string) then "downloaded-file" else name
  | None => "downloaded-file"
  end.
Definition default_download_output_path (library_root : path) (manifest_file_name : string) : path :=
  default_download_output_dir library_root ++ [safe_output_file_name manifest_file_name].

Definition create_output_parent_dir (p : path) : io unit :=
  match path_parent p with
  | Some parent => create_dir_all parent
  | None => ret tt
  end.

Definition copy_name (stem : string) (extension : option string) (copy_index : Z) : string :=
  match extension with
  | Some extension => stem +:+ " (" +:+ dec copy_index +:+ ")." +:+ extension
  | None => stem +:+ " (" +:+ dec copy_index +:+ ")"
  end.
(** One round of [for copy_index in 1_u32..]: to step past the last number overflows. *)
Definition copy_round {E} (parent : path) (stem : string) (extension : option string) (copy_index : Z)
    : M World E (Z + path) :=
  if decide (copy_index = u32_max) then panic
  else
    let candidate := parent ++ [copy_name stem extension copy_index] in
    let! taken := gets (path_exists candidate) in
    if negb taken then ret (inr candidate) else ret (inl (copy_index + 1)).

Definition unique_output_path {E} (p : path) : M World E path :=
  let! taken := gets (path_exists p) in
  if negb taken then ret p
  else
    let parent := default [] (path_parent p) in
    let stem := match path_file_name p with Some name => file_stem name | None => "downloaded-file" end in
    let extension := path_file_name p ≫= file_extension in
    let! fuel := gets (λ w, S (S (size (w_fs w)))) in
    mloop fuel (copy_round parent stem extension) 1.

Definition move_auto_download_output (temporary_output library_root : path) (manifest_file_name : string) : io path :=
  let! final_output := unique_output_path (default_download_output_path library_root manifest_file_name) in
  do! create_output_parent_dir final_output in
  do! rename temporary_output final_output in
  ret final_output.

(** * Names that stay in their directory *)
Definition plain_file_name (name : string) : Prop :=
  name ≠ ""%string ∧ name ≠ "."%string ∧ name ≠ ".."%string ∧ path_separator ∉ str_bytes name.
Global Instance plain_file_name_dec name : Decision (plain_file_name name).
Proof. unfold plain_file_name. apply _. Defined.

Lemma str_bytes_of_bytes b : str_bytes (of_bytes b) = b.
Proof. apply String.list_byte_of_string_of_list_byte. Qed.

Lemma of_bytes_str_bytes s : of_bytes (str_bytes s) = s.
Proof. apply String.string_of_list_byte_of_string. Qed.

Lemma split_on_parts sep acc l c : sep ∉ acc → c ∈ split_on sep acc l → sep ∉ c.
Proof.
  revert acc. induction l as [|b l IH]; intros acc Hacc; cbn [split_on].
  - intros ->%list_elem_of_singleton. by rewrite elem_of_reverse.
  - case_decide as Hb.
    + intros [->|Hc]%elem_of_cons; [by rewrite elem_of_reverse|]. by eapply IH; [apply not_elem_of_nil|].
    + apply IH. apply not_elem_of_cons. by split.
Qed.

Lemma split_on_plain sep acc l : sep ∉ l → split_on sep acc l = [reverse acc ++ l].
Proof.
  revert acc. induction l as [|b l IH]; intros acc Hl; cbn [split_on]; [by rewrite app_nil_r|].
  apply not_elem_of_cons in Hl as [Hb Hl]. rewrite decide_False by congruence. rewrite IH by done.
  by rewrite reverse_cons, <- app_assoc.
Qed.

Lemma text_file_name_plain s name : text_file_name s = Some name → plain_file_name name.
Proof.
  unfold text_file_name. destruct (last (path_parts s)) as [c|] eqn:Hl; [|done].
  case_decide as Hdd; [done|]. intros [= <-]. apply last_Some_elem_of in Hl.
  unfold path_parts in Hl. apply list_elem_of_filter in Hl as [[Hne Hd] Hc].
  apply split_on_parts in Hc; [|apply not_elem_of_nil].
  assert (∀ b, of_bytes c = of_bytes b → c = b) as Hinj
    by (intros b Hb%(f_equal str_bytes); by rewrite !str_bytes_of_bytes in Hb).
  split_and!; [by intros H%(Hinj [])|by intros H%(Hinj [dot])|by intros H%(Hinj [dot; dot])|by rewrite str_bytes_of_bytes].
Qed.

Lemma safe_output_file_name_plain s : plain_file_name (safe_output_file_name s).
Proof.
  unfold safe_output_file_name. destruct (text_file_name s) as [name|] eqn:Hn; [|by_decide].
  apply text_file_name_plain in Hn. by rewrite decide_False by apply Hn.
Qed.

(** A plain name is kept as it is. *)
Lemma safe_output_file_name_id name : plain_file_name name → safe_output_file_name name = name.
Proof.
  intros (Hne & Hd & Hdd & Hsep). unfold safe_output_file_name, text_file_name, path_parts.
  rewrite split_on_plain by done. rewrite reverse_nil. cbn [app].
  assert (∀ s, str_bytes name = str_bytes s → name = s) as Hinj by (intros s; apply str_bytes_inj).
  rewrite filter_cons_True; [|split; [by intros H%(Hinj ""%string)|by intros H%(Hinj "."%string)]].
  rewrite filter_nil. cbn [last]. rewrite decide_False by (by intros H%(Hinj ".."%string)).
  by rewrite of_bytes_str_bytes, decide_False.
Qed.

Lemma rsplit_once_Some sep l x y : rsplit_once sep l = Some (x, y) → l = x ++ sep :: y.
Proof.
  revert x y. induction l as [|b l IH]; intros x y; [done|]. cbn [rsplit_once].
  destruct (rsplit_once sep l) as [[x' y']|] eqn:Hs.
  - intros [= <- <-]. by rewrite (IH x' y').
  - case_decide as Hb; [|done]. intros [= <- <-]. by rewrite Hb.
Qed.

Lemma stem_extension_no_separator name :
  path_separator ∉ str_bytes name →
  path_separator ∉ str_bytes (file_stem name)
  ∧ ∀ e, file_extension name = Some e → path_separator ∉ str_bytes e.
Proof.
  intros Hsep. unfold file_stem, file_extension. case_decide; [by split|].
  destruct (rsplit_once dot (str_bytes name)) as [[x y]|] eqn:Hs; [|by split].
  apply rsplit_once_Some in Hs. rewrite Hs in Hsep. apply not_elem_of_app in Hsep as [Hx Hy].
  apply not_elem_of_cons in Hy as [_ Hy].
  destruct x as [|b x]; (split; [|intros e; try done; intros [= <-]; by rewrite str_bytes_of_bytes]).
  - rewrite Hs. cbn [app]. rewrite not_elem_of_cons. done.
  - by rewrite str_bytes_of_bytes.
Qed.

Lemma copy_name_bytes stem extension i :
  str_bytes (copy_name stem extension i)
  = str_bytes stem ++ str_bytes " (" ++ str_bytes (dec i) ++ str_bytes ")"
    ++ match extension with Some e => str_bytes "." ++ str_bytes e | None => [] end.
Proof.
  unfold copy_name. destruct extension as [e|]; rewrite !str_bytes_app; [|by rewrite app_nil_r].
  change (str_bytes ").") with (str_bytes ")" ++ str_bytes "."). by rewrite <- !app_assoc.
Qed.

Lemma copy_name_inj stem extension i j :
  0 ≤ i → 0 ≤ j → copy_name stem extension i = copy_name stem extension j → i = j.
Proof.
  intros Hi Hj H%(f_equal str_bytes). rewrite !copy_name_bytes in H. do 2 apply app_inv_head in H.
  apply app_inv_tail in H. by apply dec_inj, str_bytes_inj.
Qed.

Lemma dec_no_separator i : 0 ≤ i → path_separator ∉ str_bytes (dec i).
Proof.
  intros Hi Hin. unfold dec in Hin. rewrite str_bytes_of_bytes in Hin.
  pose proof (dec_bytes_digits i Hi) as Hd. rewrite Forall_forall in Hd. apply Hd in Hin.
  by vm_compute in Hin; destruct Hin as [[] _].
Qed.

Lemma copy_name_plain name i :
  path_separator ∉ str_bytes name → 0 ≤ i → plain_file_name (copy_name (file_stem name) (file_extension name) i).
Proof.
  intros Hsep Hi. set (n := copy_name _ _ _). destruct (stem_extension_no_separator name Hsep) as [Hs He].
  assert (Byte.x28 ∈ str_bytes n) as Hparen.
  { unfold n. rewrite copy_name_bytes, elem_of_app, elem_of_app. right; left. by_decide. }
  assert (∀ s, Byte.x28 ∉ str_bytes s → n ≠ s) as Hne by (intros s Hs' ->; done).
  split_and!; [apply Hne; by_decide|apply Hne; by_decide|apply Hne; by_decide|].
  unfold n. rewrite copy_name_bytes, !not_elem_of_app. split_and!; [done|by_decide|by apply dec_no_separator|by_decide|].
  destruct (file_extension name) as [e|]; [|by_decide]. rewrite not_elem_of_app. split; [by_decide|by apply He].
Qed.

(** * A free name is found *)

(** The name chosen for [name] in [dir]: itself when it is free, else the first free copy. *)
Definition chosen_name (m : fs) (dir : path) (name chosen : string) : Prop :=
  m !! (dir ++ [chosen]) = None
  ∧ (chosen = name
     ∨ ∃ i, 1 ≤ i ∧ chosen = copy_name (file_stem name) (file_extension name) i ∧ is_Some (m !! (dir ++ [name]))
         ∧ ∀ j, 1 ≤ j < i → is_Some (m !! (dir ++ [copy_name (file_stem name) (file_extension name) j]))).

Lemma path_exists_snoc dir name w : path_exists (dir ++ [name]) w = true ↔ is_Some (w_fs w !! (dir ++ [name])).
Proof.
  unfold path_exists. rewrite bool_decide_eq_true. split; [|by right]. intros [H|?]; [by destruct dir|done].
Qed.

(** The copies numbered up to [n] are all taken only if there are that many entries. *)
Lemma copies_taken (m : fs) dir stem extension (n : nat) :
  (∀ j, 1 ≤ j < Z.of_nat n + 1 → is_Some (m !! (dir ++ [copy_name stem extension j]))) → (n ≤ size m)%nat.
Proof.
  intros Htaken. set (l := (λ k, dir ++ [copy_name stem extension (Z.of_nat k + 1)]) <$> seq 0 n).
  assert (length l = n) as Hlen by (unfold l; by rewrite length_fmap, length_seq). rewrite <- Hlen. apply NoDup_entries.
  - apply NoDup_fmap_2_strong; [|apply NoDup_seq]. intros x y _ _ H%app_inv_head. injection H as H.
    apply copy_name_inj in H; lia.
  - apply Forall_fmap, Forall_forall. intros k Hk%elem_of_seq. apply Htaken. lia.
Qed.

(** Almost every 32-bit number is the number of an entry: the copies run out. *)
Definition too_many_entries (w : World) : Prop := u32_max - 1 ≤ Z.of_nat (size (w_fs w)).

Lemma wpp_unique_output_path {E} dir name w :
  wpp (unique_output_path (E := E) (dir ++ [name]))
    (λ p w', w' = w ∧ ∃ chosen, p = dir ++ [chosen] ∧ chosen_name (w_fs w) dir name chosen) (λ _ _, False)
    (λ w', w' = w ∧ too_many_entries w) w.
Proof.
  unfold unique_output_path. apply wpp_bind. unfold wpp at 1, gets.
  destruct (path_exists (dir ++ [name]) w) eqn:Hex; cbn [negb].
  2: { split; [done|]. exists name. split; [done|]. split; [|by left].
       apply eq_None_not_Some. rewrite <- path_exists_snoc. by rewrite Hex. }
  apply path_exists_snoc in Hex. rewrite path_file_name_snoc. cbn [mbind option_bind].
  assert (default [] (path_parent (dir ++ [name])) = dir) as ->
    by (unfold path_parent; destruct (dir ++ [name]) eqn:Hd; [by destruct dir|rewrite <- Hd; simpl; by rewrite removelast_last]).
  set (stem := file_stem name). set (ext := file_extension name). apply wpp_bind. unfold wpp at 1.
  apply (wpp_mloop _ (λ i w', w' = w ∧ 1 ≤ i ∧ ∀ j, 1 ≤ j < i → is_Some (w_fs w !! (dir ++ [copy_name stem ext j])))
           (λ i _, Z.to_nat (Z.of_nat (size (w_fs w)) + 2 - i))).
  - split_and!; [done|done|]. intros j. lia.
  - lia.
  - intros i w' (-> & Hi & Htaken).
    assert (i ≤ Z.of_nat (size (w_fs w)) + 1) as Hbound.
    { pose proof (copies_taken (w_fs w) dir stem ext (Z.to_nat (i - 1))) as H.
      rewrite Z2Nat.id in H by lia. replace (i - 1 + 1) with i in H by lia. specialize (H Htaken). lia. }
    unfold copy_round. case_decide as Hmax; [split; [done|]; unfold too_many_entries; lia|].
    apply wpp_bind. unfold wpp at 1, gets.
    destruct (path_exists (dir ++ [copy_name stem ext i]) w) eqn:Hc; cbn [negb].
    + apply path_exists_snoc in Hc. split; [split_and!; [done|lia|]|lia]. intros j Hj.
      destruct (decide (j = i)) as [->|]; [done|]. apply Htaken. lia.
    + split; [done|]. exists (copy_name stem ext i). split; [done|]. split.
      * apply eq_None_not_Some. rewrite <- path_exists_snoc. by rewrite Hc.
      * right. by exists i.
Qed.

Lemma chosen_name_plain m dir name chosen : plain_file_name name → chosen_name m dir name chosen → plain_file_name chosen.
Proof.
  intros Hp [_ [->|(i & Hi & -> & _)]]; [done|]. apply copy_name_plain; [apply Hp|lia].
Qed.

(** The move of the finished file. *)
Lemma wpp_move_auto_download_output tmp root name w :
  wpp (move_auto_download_output tmp root name)
    (λ p w', keeps (λ q, q = tmp ∨ q = p) w w'
       ∧ ∃ chosen d, p = default_download_output_dir root ++ [chosen]
           ∧ chosen_name (w_fs w) (default_download_output_dir root) (safe_output_file_name name) chosen
           ∧ file_at (w_fs w) tmp = Some d ∧ file_at (w_fs w') p = Some d ∧ w_fs w' !! tmp = None)
    (λ _ w', keeps (λ _, False) w w') (λ w', w' = w ∧ too_many_entries w) w.
Proof.
  unfold move_auto_download_output, default_download_output_path. apply wpp_bind.
  eapply wpp_mono; [apply wpp_unique_output_path| |done|done]. intros p _ (-> & chosen & -> & Hchosen). apply wp_wpp. wp_simpl.
  set (dir := default_download_output_dir root) in *.
  assert (path_parent (dir ++ [chosen]) = Some dir) as Hparent.
  { unfold path_parent. destruct (dir ++ [chosen]) eqn:Hd; [by destruct dir|]. rewrite <- Hd. simpl. by rewrite removelast_last. }
  unfold create_output_parent_dir. rewrite Hparent.
  assert (∀ ps w', fs_step w (mkdirs (w_fs w) ps) w' → Forall (λ q, file_at (w_fs w) q = None) ps → keeps (λ _, False) w w') as Hk.
  { intros ps w' Hst Hps. split; [by apply (stepped_env _ _ Hst)|]. intros q _.
    rewrite (fs_step_fs _ _ _ Hst). by apply file_at_mkdirs. }
  apply wp_create_dir_all; [intros k ps w1 Hst _ Hps _; by eapply Hk|].
  intros w1 Hfree Hst1. wp_simpl. assert (keeps (λ _, False) w w1) as Hk1 by (eapply Hk; [done|apply Hfree]).
  apply wp_rename; [intros k w2 Hst2 _; etrans; [done|]; by apply stepped_keeps|].
  intros d w2 Hd Hst2. wp_simpl. assert (file_at (w_fs w) tmp = Some d) as Hd0 by (by rewrite <- (proj2 Hk1 tmp (λ H, H))).
  assert (tmp ≠ dir ++ [chosen]) as Hne.
  { intros Heq. destruct Hchosen as [Hnone _]. unfold file_at in Hd0. rewrite Heq, Hnone in Hd0. done. }
  pose proof (fs_step_fs _ _ _ Hst2) as Hfs. split.
  - split; [by rewrite (stepped_env _ _ Hst2); apply Hk1|]. intros q Hq. rewrite Hfs.
    assert (q ≠ tmp ∧ q ≠ dir ++ [chosen]) as [Hq1 Hq2] by tauto.
    unfold file_at at 1. rewrite lookup_insert_ne, lookup_delete_ne by done. exact (proj2 Hk1 q (λ H, H)).
  - exists chosen, d. split_and!; [done|done|done| |].
    + unfold file_at. by rewrite Hfs, lookup_insert_eq.
    + by rewrite Hfs, lookup_insert_ne, lookup_delete_eq.
Qed.

(** * The theorem *)

(** A peer cannot choose where a download ends up: whatever the file name in the
    manifest, the finished file is moved to a name that was free, directly in the
    output directory of the library, with the content of the temporary file; no
    other file is touched. The name is the manifest's last path component, or its
    first free numbered copy. A failed move changes no file; the only panic is the
    overflow of the copy number, with more entries than 32-bit numbers. *)
Theorem move_auto_download_output_safe tmp root name w :
  match move_auto_download_output tmp root name w with
  | (Ok p, w') => keeps (λ q, q = tmp ∨ q = p) w w'
      ∧ ∃ chosen d, p = root ++ [OUTPUT_DIR_NAME; chosen] ∧ plain_file_name chosen
          ∧ chosen_name (w_fs w) (default_download_output_dir root) (safe_output_file_name name) chosen
          ∧ file_at (w_fs w) tmp = Some d ∧ file_at (w_fs w') p = Some d ∧ w_fs w' !! tmp = None
  | (Err _, w') => keeps (λ _, False) w w'
  | (Panic, w') => w' = w ∧ too_many_entries w
  | (Diverged, _) => False
  end.
Proof.
  pose proof (wpp_move_auto_download_output tmp root name w) as Hwp. unfold wpp in Hwp.
  destruct (move_auto_download_output tmp root name w) as [[p|k| |] w']; try done.
  destruct Hwp as (Hk & chosen & d & -> & Hc & Hrest). split; [done|]. exists chosen, d.
  split; [unfold default_download_output_dir; by rewrite <- app_assoc|].
  split; [eapply chosen_name_plain, Hc; apply safe_output_file_name_plain|done].
Qed.

Module OutputSample.
Definition root : path := ["home"%string].
Definition tmp : path := temporary_download_output_path root 7.
Definition out : path := default_download_output_dir root.
Definition world : World := CryptoSample.world
  {[ ["home"%string] := Dir; out := Dir; tmp := File (str_bytes "new"); out ++ ["a.txt"%string] := File (str_bytes "old") ]} [].
End OutputSample.

(** A hostile name: the first copy of [a.txt] in the output directory is used. *)
Example hostile_name :
  (move_auto_download_output OutputSample.tmp OutputSample.root "../../etc/./a.txt/" OutputSample.world).1
  = Ok (OutputSample.out ++ ["a (1).txt"%string]).
Proof. by vm_compute. Qed.
