(* ===== verification/Progress.v ===== *)
(** The progress reporter ([src/src/network/transfer/progress.rs]), the registry of
    running jobs ([jobs.rs]) and the event bus they publish to
    ([src/src/ipc/server/events.rs]).

    The process-wide maps and the bus are the [Reporter]; the bus is the list of
    everything published. Rates are computed in binary64, with the operations of
    [SpecFloat]; an instant is a number of nanoseconds. The log line is left out. *)
From stdpp Require Import base tactics list countable strings gmap.
From Stdlib Require Import ZArith Lia SpecFloat.
From S2P Require Import Prelude Bytes World Files Extern Crypto Descriptor State Library Codec Handshake DownloadState Ipc.
Local Open Scope Z_scope.
Local Open Scope etle_scope.

(** * Floating point *)
Definition f64 : Type := spec_float.
Definition f64_of_Z (n : Z) : f64 := binary_normalize 53 1024 n 0 false.
Definition f64_add : f64 → f64 → f64 := SFadd 53 1024.
Definition f64_div : f64 → f64 → f64 := SFdiv 53 1024.
Definition f64_le (a b : f64) : bool := match SFcompare a b with Some Lt | Some Eq => true | _ => false end.
(** 2^-52 *)
Definition f64_epsilon : f64 := S754_finite false (2 ^ 52)%positive (-104).
(** [as u64]: truncated and saturated; not-a-number gives zero. *)
Definition f64_as_u64 (a : f64) : Z :=
  match a with
  | S754_finite false m e => Z.min u64_max (Z.shiftl (Z.pos m) e)
  | S754_infinity false => u64_max
  | _ => 0
  end.
(** [Duration::as_secs_f64] *)
Definition as_secs_f64 (nanos : Z) : f64 :=
  f64_add (f64_of_Z (nanos / 1000000000)) (f64_div (f64_of_Z (nanos mod 1000000000)) (f64_of_Z 1000000000)).

(** * State *)
Definition ProgressKey : Type := string * string * string * Z.
Record ProgressState := mkProgressState {
  ps_start : Z;
  ps_last_log : Z;
  ps_last_done : Z;
  ps_bytes_done : Z;
}.
Record Reporter := mkReporter {
  rp_states : gmap ProgressKey ProgressState;
  rp_jobs : gmap ShareId string;
  rp_events : list IpcEvent;
}.
Definition set_states (m : gmap ProgressKey ProgressState) (r : Reporter) : Reporter :=
  mkReporter m (rp_jobs r) (rp_events r).
Definition set_jobs (m : gmap ShareId string) (r : Reporter) : Reporter :=
  mkReporter (rp_states r) m (rp_events r).

(** [events::publish] *)
Definition publish (event : IpcEvent) (r : Reporter) : Reporter :=
  mkReporter (rp_states r) (rp_jobs r) (rp_events r ++ [event]).

(** * Jobs *)
Definition register (share_id : ShareId) (job_id : string) (r : Reporter) : Reporter :=
  set_jobs (<[share_id := job_id]> (rp_jobs r)) r.
Definition unregister (share_id : ShareId) (job_id : string) (r : Reporter) : Reporter :=
  if decide (rp_jobs r !! share_id = Some job_id) then set_jobs (delete share_id (rp_jobs r)) r else r.
Definition active_job_id (r : Reporter) (share_id : ShareId) : option string := rp_jobs r !! share_id.

(** * Estimates *)
Definition estimated_total_bytes (done_bytes done total : Z) : Z :=
  if decide (total = 0) then 0
  else if decide (total ≤ done) then done_bytes
  else if decide (done = 0 ∨ done_bytes = 0) then 0
  else Z.min u64_max (Z.max (done_bytes / done) 1 * total).

Definition bytes_per_second (done_bytes elapsed : Z) : f64 :=
  let secs := as_secs_f64 elapsed in
  if f64_le secs f64_epsilon then f64_of_Z 0 else f64_div (f64_of_Z done_bytes) secs.

Definition should_log_progress (log_level : TransferLogLevel) (done total since_last_log : Z) : bool :=
  match log_level with
  | Quiet => false
  | Verbose => true
  | Normal => bool_decide (done = 1) || bool_decide (total ≤ done) || bool_decide (750000000 ≤ since_last_log)
  end.

(** [str::contains] *)
Fixpoint contains (pattern l : bytes) : bool :=
  bool_decide (pattern `prefix_of` l) || match l with [] => false | _ :: l => contains pattern l end.
Definition should_publish_legacy_transfer_progress (role action : string) : bool :=
  bool_decide (role = "peer"%string)
  && (contains (str_bytes "received+verified") (str_bytes action) || bool_decide (action = "reused"%string)).

(** * The reporter *)
Section report.
(** [Instant::checked_sub], which may be unable to represent the result. *)
Context (checked_sub : Z → Z → option Z).

Definition ProgressState_new (now : Z) : ProgressState :=
  mkProgressState now (default now (checked_sub now 1000000000)) 0 0.

Definition key_of (c : progress_call) : ProgressKey := (pc_context c, pc_role c, pc_action c, pc_total c).

(** [duration_since] saturates. *)
Definition duration_since (a b : Z) : Z := Z.max 0 (a - b).

(** The state a call finds, after counting it. *)
Definition count_call (now : Z) (c : progress_call) (r : Reporter) : ProgressState :=
  let state := default (ProgressState_new now) (rp_states r !! key_of c) in
  if decide (pc_done c > ps_last_done state)
  then mkProgressState (ps_start state) (ps_last_log state) (pc_done c)
         (saturating_add u64_max (ps_bytes_done state) (pc_bytes c))
  else state.

Definition progress_events (now : Z) (share_id : option ShareId) (c : progress_call) (state : ProgressState)
    (r : Reporter) : list IpcEvent :=
  let total_bytes := estimated_total_bytes (ps_bytes_done state) (pc_done c) (pc_total c) in
  let rate := f64_as_u64 (bytes_per_second (ps_bytes_done state) (duration_since now (ps_start state))) in
  let task := pc_role c +:+ ":" +:+ pc_action c in
  match share_id with
  | Some share_id =>
      let job_id := active_job_id r share_id in
      (if should_publish_legacy_transfer_progress (pc_role c) (pc_action c)
       then [TransferProgress job_id share_id (pc_done c) (pc_total c) (ps_bytes_done state) total_bytes rate]
       else [])
      ++ [TaskProgress job_id task (ShareId_to_string share_id) (pc_done c) (pc_total c) (ps_bytes_done state)
            total_bytes rate]
  | None =>
      [TaskProgress None task (pc_context c) (pc_done c) (pc_total c) (ps_bytes_done state) total_bytes rate]
  end.

(** [with_context_label] *)
Definition report_progress (now : Z) (share_id : option ShareId) (log_level : TransferLogLevel) (c : progress_call)
    (r : Reporter) : Reporter :=
  match log_level with
  | Quiet => r
  | _ =>
      let state := count_call now c r in
      if negb (should_log_progress log_level (pc_done c) (pc_total c) (duration_since now (ps_last_log state)))
      then set_states (<[key_of c := state]> (rp_states r)) r
      else
        let states := <[key_of c := mkProgressState (ps_start state) now (ps_last_done state) (ps_bytes_done state)]>
                        (rp_states r) in
        mkReporter (if decide (pc_total c ≤ pc_done c) then delete (key_of c) states else states) (rp_jobs r)
          (rp_events r ++ progress_events now share_id c state r)
  end.
End report.

(** * Facts *)
Definition call_wf (c : progress_call) : Prop := 0 ≤ pc_done c ∧ 0 ≤ pc_total c ∧ u64_range (pc_bytes c).

(** What is remembered is about unfinished work, and its numbers are in range. *)
Definition reporter_ok (r : Reporter) : Prop :=
  ∀ key st, rp_states r !! key = Some st → 0 ≤ ps_last_done st < key.2 ∧ u64_range (ps_bytes_done st).

Section facts.
Context (checked_sub : Z → Z → option Z).

Lemma count_call_ok now c r :
  reporter_ok r → call_wf c →
  let st := count_call checked_sub now c r in
  0 ≤ ps_last_done st ∧ (pc_done c < pc_total c → ps_last_done st < pc_total c) ∧ u64_range (ps_bytes_done st)
  ∧ pc_done c ≤ ps_last_done st.
Proof.
  intros Hok (Hd & Ht & Hb). unfold count_call. set (st0 := default _ _).
  assert (0 ≤ ps_last_done st0 ∧ u64_range (ps_bytes_done st0) ∧ (0 < pc_total c → ps_last_done st0 < pc_total c)) as (H1 & H2 & H3).
  { unfold st0. destruct (rp_states r !! key_of c) as [st|] eqn:Hst; cbn [default].
    - destruct (Hok _ _ Hst) as [H1 H2]. cbn in H1 |- *. split_and!; [lia|done|lia].
    - cbn. split_and!; [done|by_decide|lia]. }
  unfold u64_range, u64_max, saturating_add in *.
  assert (pc_done c < pc_total c → ps_last_done st0 < pc_total c) as H4 by (intros; apply H3; lia).
  case_decide; cbn; (split_and!; [lia|intros Hlt; specialize (H4 Hlt); lia|lia|lia|lia]).
Qed.

Lemma report_progress_ok now share_id level c r :
  reporter_ok r → call_wf c → reporter_ok (report_progress checked_sub now share_id level c r).
Proof.
  intros Hok Hwf. unfold report_progress. destruct (count_call_ok now c r Hok Hwf) as (Hc1 & Hc2 & Hc3 & _).
  destruct level; [done|..]; set (st := count_call checked_sub now c r) in *.
  all: destruct (should_log_progress _ _ _ _) eqn:Hlog; cbn [negb].
  all: intros key st'; cbn [rp_states set_states]; try (case_decide as Hfin).
  all: rewrite ?lookup_delete_Some, ?lookup_insert_Some; intros Hl.
  all: try destruct Hl as [Hne Hl].
  all: destruct Hl as [[<- <-]|[_ Hl]]; [|by eapply Hok]; try done; cbn [key_of snd ps_last_done ps_bytes_done].
  all: split; [split; [done|apply Hc2]|done]; try lia.
  cbn in Hlog. apply orb_false_iff in Hlog as [[_ Hlog%bool_decide_eq_false]%orb_false_iff _]. lia.
Qed.
End facts.

(** * Whole runs *)
Definition zsum (l : list Z) : Z := foldr Z.add 0 l.

Lemma zsum_app l k : zsum (l ++ k) = zsum l + zsum k.
Proof. induction l as [|x l IH]; simpl; [done|]. rewrite IH. lia. Qed.

Lemma zsum_nonneg l : Forall (λ x, 0 ≤ x) l → 0 ≤ zsum l.
Proof. induction 1; simpl; lia. Qed.

(** A call with its time, share and log level. *)
Record timed_call := TimedCall {
  tc_now : Z; tc_share : option ShareId; tc_level : TransferLogLevel; tc_call : progress_call;
}.

Section run.
Context (checked_sub : Z → Z → option Z).

Definition report_all (calls : list timed_call) (r : Reporter) : Reporter :=
  foldl (λ r t, report_progress checked_sub (tc_now t) (tc_share t) (tc_level t) (tc_call t) r) r calls.

(** The calls about [key]. *)
Definition calls_of (key : ProgressKey) (calls : list timed_call) : list timed_call :=
  filter (λ t, key_of (tc_call t) = key) calls.

Lemma report_all_snoc calls t r :
  report_all (calls ++ [t]) r
  = report_progress checked_sub (tc_now t) (tc_share t) (tc_level t) (tc_call t) (report_all calls r).
Proof. unfold report_all. by rewrite foldl_app. Qed.

Lemma report_progress_events now share_id level c r :
  rp_events r `prefix_of` rp_events (report_progress checked_sub now share_id level c r).
Proof.
  unfold report_progress. destruct level; [done|..]; destruct (negb _); cbn [rp_events set_states]; try done; by apply prefix_app_r.
Qed.

Lemma report_progress_other now share_id level c r key :
  key_of c ≠ key → rp_states (report_progress checked_sub now share_id level c r) !! key = rp_states r !! key.
Proof.
  intros Hne. unfold report_progress. destruct level; [done|..]; destruct (negb _); cbn [rp_states set_states];
    try (case_decide; rewrite ?lookup_delete_ne by done); by rewrite lookup_insert_ne.
Qed.

(** What is remembered after the calls numbered 1 to [k] of [n]. *)
Definition counted (r : Reporter) (key : ProgressKey) (k : Z) (sizes : list Z) : Prop :=
  match rp_states r !! key with
  | Some st => 0 < k < key.2 ∧ ps_last_done st = k ∧ ps_bytes_done st = Z.min u64_max (zsum sizes)
  | None => k = 0 ∧ sizes = [] ∨ k = key.2
  end.

(** The event that reports the end of the work. *)
Definition reports_end (key : ProgressKey) (bytes : Z) (e : IpcEvent) : Prop :=
  ∃ job label rate, e = TaskProgress job (key.1.1.2 +:+ ":" +:+ key.1.2) label key.2 key.2 bytes bytes rate.

(** A call that is logged: its event, and what is left of the state. *)
Lemma report_logged now share_id c r k sizes :
  let st := count_call checked_sub now c r in
  ps_last_done st = k → ps_bytes_done st = Z.min u64_max (zsum sizes) → pc_done c = k → 1 ≤ k ≤ pc_total c →
  let r' := mkReporter
      (if decide (pc_total c ≤ pc_done c)
       then delete (key_of c) (<[key_of c := mkProgressState (ps_start st) now (ps_last_done st) (ps_bytes_done st)]> (rp_states r))
       else <[key_of c := mkProgressState (ps_start st) now (ps_last_done st) (ps_bytes_done st)]> (rp_states r))
      (rp_jobs r) (rp_events r ++ progress_events now share_id c st r) in
  counted r' (key_of c) k sizes
  ∧ (k = pc_total c → ∃ e, e ∈ rp_events r' ∧ reports_end (key_of c) (Z.min u64_max (zsum sizes)) e).
Proof.
  intros st Hl Hb Hd Hk. split.
  - unfold counted. cbn [rp_states]. case_decide as Hfin.
    + rewrite lookup_delete_eq. right. cbn. lia.
    + rewrite lookup_insert_eq. cbn. split_and!; [lia|lia|done|done].
  - intros Hfin. cbn [rp_events]. unfold progress_events. rewrite Hb.
    assert (estimated_total_bytes (Z.min u64_max (zsum sizes)) (pc_done c) (pc_total c) = Z.min u64_max (zsum sizes)) as ->.
    { unfold estimated_total_bytes. rewrite decide_False, decide_True by lia. done. }
    destruct share_id as [id|]; eexists;
      (split; [apply elem_of_app; right; try (apply elem_of_app; right); apply list_elem_of_singleton; reflexivity|]).
    all: unfold reports_end; cbn; rewrite Hd, Hfin; by eexists _, _, _.
Qed.

Lemma report_own now share_id level c r k sizes :
  level ≠ Quiet → counted r (key_of c) (k - 1) sizes → Forall (λ x, 0 ≤ x) sizes → u64_range (pc_bytes c) →
  pc_done c = k → 1 ≤ k ≤ pc_total c →
  let r' := report_progress checked_sub now share_id level c r in
  counted r' (key_of c) k (sizes ++ [pc_bytes c])
  ∧ (k = pc_total c → ∃ e, e ∈ rp_events r' ∧ reports_end (key_of c) (Z.min u64_max (zsum (sizes ++ [pc_bytes c]))) e).
Proof.
  intros Hlevel Hcount Hpos Hbytes Hdone Hk. pose proof (zsum_nonneg _ Hpos) as Hsum.
  assert (ps_last_done (count_call checked_sub now c r) = k
          ∧ ps_bytes_done (count_call checked_sub now c r) = Z.min u64_max (zsum (sizes ++ [pc_bytes c]))) as [Hl Hb].
  { unfold count_call, counted in *. rewrite zsum_app. unfold u64_range in Hbytes. cbn [key_of snd] in Hcount.
    destruct (rp_states r !! key_of c) as [st|]; cbn [default from_option id].
    - destruct Hcount as (_ & Hl & Hb). rewrite decide_True by lia. cbn. rewrite Hb. unfold saturating_add. split; lia.
    - destruct Hcount as [[Hk1 ->]|]; [|lia]. cbn [ProgressState_new ps_last_done]. rewrite decide_True by lia. cbn.
      unfold saturating_add. split; lia. }
  set (st := count_call checked_sub now c r) in *.
  assert (ps_last_done st = pc_done c) as Hld by congruence.
  unfold report_progress. destruct level; [done|..].
  all: destruct (negb _) eqn:Hlog; cbn [rp_states rp_events set_states].
  all: fold st in Hlog.
  - apply negb_true_iff in Hlog. cbn in Hlog.
    apply orb_false_iff in Hlog as [[_ Hlog%bool_decide_eq_false]%orb_false_iff _]. split; [|lia].
    unfold counted. cbn [rp_states set_states]. rewrite lookup_insert_eq. cbn [key_of snd]. split_and!; [lia|lia|done|done].
  - by apply report_logged.
  - done.
  - by apply report_logged.
Qed.

Lemma report_all_counted key calls r :
  rp_states r !! key = None →
  Forall (λ t, tc_level t ≠ Quiet ∧ u64_range (pc_bytes (tc_call t))) (calls_of key calls) →
  ∀ k, (λ t, pc_done (tc_call t)) <$> calls_of key calls = seqZ 1 k → 0 ≤ k ≤ key.2 →
  let sizes := (λ t, pc_bytes (tc_call t)) <$> calls_of key calls in
  counted (report_all calls r) key k sizes
  ∧ (k = key.2 → 0 < k → ∃ e, e ∈ rp_events (report_all calls r) ∧ reports_end key (Z.min u64_max (zsum sizes)) e).
Proof.
  intros Hnone. induction calls as [|t calls IH] using rev_ind; intros Hwf k Hdones Hk.
  - cbn in *. assert (k = 0) as ->.
    { destruct (decide (k = 0)); [done|]. apply (f_equal length) in Hdones. rewrite length_seqZ in Hdones. cbn in Hdones. lia. }
    split; [unfold counted; rewrite Hnone; by left|]. lia.
  - unfold calls_of in *. rewrite filter_app, fmap_app in Hdones. rewrite filter_app in Hwf |- *. rewrite report_all_snoc.
    apply Forall_app in Hwf as [Hwf Ht]. rewrite fmap_app.
    destruct (decide (key_of (tc_call t) = key)) as [Hkey|Hkey].
    + rewrite filter_cons_True, filter_nil in * by done. cbn [fmap list_fmap] in *. apply Forall_singleton in Ht as [Hlevel Hbytes].
      assert (0 < k) as Hk0.
      { apply (f_equal length) in Hdones. rewrite length_app, length_seqZ in Hdones. cbn in Hdones. lia. }
      replace k with ((k - 1) + 1) in Hdones by lia. rewrite seqZ_app in Hdones by lia.
      apply app_inj_2 in Hdones as [Hdones Hlast]; [|by rewrite length_seqZ].
      replace (1 + (k - 1)) with k in Hlast by lia. cbn in Hlast. injection Hlast as Hlast.
      destruct (IH Hwf (k - 1) Hdones) as [Hcount _]; [lia|]. subst key.
      destruct (report_own (tc_now t) (tc_share t) (tc_level t) (tc_call t) (report_all calls r) k _ Hlevel Hcount)
        as [H1 H2]; [|done|lia|cbn in Hk; lia|].
      { apply Forall_fmap. eapply Forall_impl; [exact Hwf|]. intros t' [_ Hb]. cbn. unfold u64_range in Hb. lia. }
      split; [exact H1|]. intros Hfin _. by apply H2.
    + rewrite filter_cons_False, filter_nil in * by done. cbn [fmap list_fmap] in *. rewrite app_nil_r in *.
      destruct (IH Hwf k Hdones Hk) as [Hcount Hend]. split.
      * unfold counted in *. by rewrite report_progress_other.
      * intros Hfin Hpos. destruct (Hend Hfin Hpos) as (e & He & Hr). exists e. split; [|done].
        destruct (report_progress_events (tc_now t) (tc_share t) (tc_level t) (tc_call t) (report_all calls r)) as [l ->].
        apply elem_of_app. by left.
Qed.
End run.

(** * The theorems *)

(** Progress is accounted for exactly, however the reports of different transfers
    interleave. When a transfer makes one call per chunk, numbered 1 to [n] of [n],
    among any calls about other work, then in the end nothing is remembered about
    it (the next transfer of the same name starts from zero), and the bus has
    carried an event that says [n] of [n], with the sum of the sizes (saturated at
    64 bits) as both the bytes done and the estimated total. What is remembered
    at any time is unfinished work, and no event is ever taken back. *)
Theorem progress_run_complete checked_sub (key : ProgressKey) calls r :
  reporter_ok r → rp_states r !! key = None → 1 ≤ key.2 →
  Forall (λ t, call_wf (tc_call t)) calls → Forall (λ t, tc_level t ≠ Quiet) (calls_of key calls) →
  (λ t, pc_done (tc_call t)) <$> calls_of key calls = seqZ 1 key.2 →
  let r' := report_all checked_sub calls r in
  reporter_ok r' ∧ rp_events r `prefix_of` rp_events r' ∧ rp_states r' !! key = None
  ∧ ∃ e, e ∈ rp_events r'
      ∧ reports_end key (Z.min u64_max (zsum ((λ t, pc_bytes (tc_call t)) <$> calls_of key calls))) e.
Proof.
  intros Hok Hnone Hn Hwf Hlevel Hdones r'.
  assert (Forall (λ t, tc_level t ≠ Quiet ∧ u64_range (pc_bytes (tc_call t))) (calls_of key calls)) as Hmine.
  { rewrite Forall_forall in Hlevel, Hwf |- *. intros t Ht. split; [by apply Hlevel|].
    apply list_elem_of_filter in Ht as [_ Ht]. by destruct (Hwf t Ht) as (_ & _ & ?). }
  destruct (report_all_counted checked_sub key calls r Hnone Hmine key.2 Hdones) as [Hcount Hend]; [lia|].
  split_and!.
  - unfold r', report_all. clear -Hok Hwf. revert r Hok. induction Hwf as [|t calls Ht _ IH]; intros r Hok; [done|].
    cbn [foldl]. by apply IH, report_progress_ok.
  - unfold r', report_all. clear. revert r. induction calls as [|t calls IH]; intros r; [done|]. cbn [foldl].
    etrans; [apply report_progress_events|apply IH].
  - unfold counted in Hcount. unfold r'. destruct (rp_states (report_all checked_sub calls r) !! key) as [st|]; [|done].
    destruct Hcount as [? _]. lia.
  - apply Hend; [done|lia].
Qed.


Import Toy.
Module ProgressSample.
Definition call (context : string) (d n b : Z) : timed_call :=
  TimedCall d None Normal (ProgressCall context "peer" "reused" d n 0 b).
Definition calls : list timed_call := [call "a" 1 3 10; call "b" 1 2 7; call "a" 2 3 10; call "a" 3 3 5].
Definition key : ProgressKey := ("a", "peer", "reused", 3)%string.
Definition reporter : Reporter := mkReporter ∅ ∅ [].
End ProgressSample.

(** The rate of 25 bytes in 2 seconds. *)
Example rate : f64_as_u64 (bytes_per_second 25 2000000000) = 12.
Proof. by vm_compute. Qed.

Lemma progress_run_complete_witness :
  let r' := report_all (λ a b, Some (a - b)) ProgressSample.calls ProgressSample.reporter in
  reporter_ok r' ∧ rp_events ProgressSample.reporter `prefix_of` rp_events r' ∧ rp_states r' !! ProgressSample.key = None
  ∧ ∃ e, e ∈ rp_events r'
      ∧ reports_end ProgressSample.key
          (Z.min u64_max (zsum ((λ t, pc_bytes (tc_call t)) <$> calls_of ProgressSample.key ProgressSample.calls))) e.
Proof.
  apply progress_run_complete.
  - intros key st. cbn. by rewrite lookup_empty.
  - apply lookup_empty.
  - by vm_compute.
  - repeat constructor; by vm_compute.
  - vm_compute; repeat constructor; discriminate.
  - by vm_compute.
Defined.

