(* ===== verification/Daemon.v ===== *)
(** The daemon's command server ([src/src/ipc/server]): the answer to each command, the
    jobs that run in the background, the connections, and event subscriptions.

    A [Daemon] is the socket state and the [World] below it, the [Reporter] (progress,
    job registry, event bus), the queue of spawned jobs, and the subscribers. A
    connection and a job are each one step; jobs run in any order, between
    connections. How an error is displayed is a parameter ([show_..]: the
    [Display] implementations are generated by [thiserror]); log lines are left out. *)
From stdpp Require Import base tactics list countable strings gmap.
From Stdlib Require Import ZArith Lia.
From S2P Require Import Prelude Bytes World Files Extern Crypto Descriptor Chunker State Library Codec Handshake DownloadState Reconstruct Download Swarm Seed Discovery Ipc Output Progress.
Local Open Scope Z_scope.
Local Open Scope etle_scope.

(** * State *)
Inductive Job :=
  | SeedJob (input : path) (chunk_size : Z)
  | DownloadJob (job_id : string) (request : DownloadRequest) (resume : bool).
Global Instance Job_eq_dec : EqDecision Job.
Proof. solve_decision. Defined.

Record Daemon := mkDaemon {
  dm_udp : Udp;
  dm_reporter : Reporter;
  dm_queue : list Job;
  dm_subscribers : nat;
}.
Definition dm_world (d : Daemon) : World := u_world (dm_udp d).
Definition set_udp (u : Udp) (d : Daemon) : Daemon := mkDaemon u (dm_reporter d) (dm_queue d) (dm_subscribers d).
Definition set_reporter (r : Reporter) (d : Daemon) : Daemon := mkDaemon (dm_udp d) r (dm_queue d) (dm_subscribers d).
Definition set_queue (q : list Job) (d : Daemon) : Daemon := mkDaemon (dm_udp d) (dm_reporter d) q (dm_subscribers d).
Definition add_subscriber (d : Daemon) : Daemon := mkDaemon (dm_udp d) (dm_reporter d) (dm_queue d) (S (dm_subscribers d)).

Definition on_udp {E A} (m : M Udp E A) : M Daemon E A := λ d,
  match m (dm_udp d) with (r, u) => (r, set_udp u d) end.
Definition on_files {E A} (m : M World E A) : M Daemon E A := on_udp (on_world m).
Definition on_reporter {E} (f : Reporter → Reporter) : M Daemon E unit := modify (λ d, set_reporter (f (dm_reporter d)) d).
(** [tokio::spawn], [spawn_blocking] *)
Definition spawn {E} (job : Job) : M Daemon E unit := modify (λ d, set_queue (dm_queue d ++ [job]) d).

(** * Shares *)
Definition format_share_mode (mode : ShareMode) : string :=
  match mode with
  | Seeding => "seeding" | Downloading => "downloading" | Completed => "completed" | Paused => "paused"
  end.
Definition ipc_share_summary_from_local (share : LocalShareSummary) : IpcShareSummary :=
  mkIpcShareSummary (d_share_id (ls_descriptor share)) (d_name (ls_descriptor share)) (summary_completed_chunks share)
    (summary_total_chunks share) (ls_has_secret share) (format_share_mode <$> summary_mode share).

Definition effective_download_parallelism (requested_parallelism peer_count : Z) : Z :=
  if decide (requested_parallelism = 0) then Z.max peer_count 1 else requested_parallelism.

Definition transfer_completed_response (share_id : ShareId) (output : path) (manifest : Manifest) : IpcResponse :=
  TransferCompleted share_id output (mf_file_name manifest) (mf_file_size manifest) (zlen (mf_chunks manifest)).

Definition generate_job_id {E} (prefix : string) (share_id : ShareId) : M World E string :=
  let! nanos := unix_nanos in
  let! pid := gets (λ w, env_pid (w_env w)) in
  ret (prefix +:+ "-" +:+ ShareId_to_string share_id +:+ "-" +:+ dec (nanos / 1000000) +:+ "-" +:+ dec pid).

Section daemon.
Context `{Blake3, X25519, Aead} `{Bincode WireMessage} `{DiskFormat} `{Bincode DiscoveryMessage}.
Context (show_io : io_kind → string) (show_file : FileError → string) (show_network : NetworkError → string).

Section root.
Context (library_root : path).

Definition share_summary_by_id (share_id : ShareId) : M World string (option IpcShareSummary) :=
  let! shares := map_err show_file (library_list library_root) in
  ret ((λ p, ipc_share_summary_from_local p.2) <$>
       list_find (λ share, d_share_id (ls_descriptor share) = share_id) shares).

(** * Commands answered at once *)
Definition list_shares_response {E} : M Daemon E IpcResponse :=
  let! r := try_ (on_files (library_list library_root)) in
  match r with
  | Ok shares => ret (Shares (ipc_share_summary_from_local <$> shares))
  | Err error => ret (IpcErrorResponse (show_file error))
  | _ => panic
  end.

Definition delete_share_response {E} (share_id : ShareId) : M Daemon E IpcResponse :=
  let id := ShareId_to_string share_id in
  let! found := try_ (on_files (share_summary_by_id share_id)) in
  match found with
  | Ok (Some share) =>
      let! deleted := try_ (on_files (library_delete library_root share_id)) in
      match deleted with
      | Ok true =>
          do! on_reporter (publish (EvShareDeleted share_id)) in
          ret (ShareDeleted share_id (is_name share))
      | Ok false => ret (IpcErrorResponse ("share " +:+ id +:+ " disappeared before it could be deleted"))
      | Err error => ret (IpcErrorResponse (show_file error))
      | _ => panic
      end
  | Ok None => ret (IpcErrorResponse ("share " +:+ id +:+ " does not exist in the local library"))
  | Err message => ret (IpcErrorResponse message)
  | _ => panic
  end.

Definition handle {E} (command : IpcCommand) : M Daemon E IpcResponse :=
  match command with
  | Ping => ret Pong
  | ListShares => list_shares_response
  | DeleteShare share_id => delete_share_response share_id
  | Shutdown => ret (Ack "daemon shutdown requested")
  | StartServing _ => ret (Ack "P2P serving is already managed by etled serve")
  | StopServing => ret (IpcErrorResponse "stopping only the P2P server is not implemented yet; use Shutdown")
  | SeedFile _ _ => ret (IpcErrorResponse "seed requires async daemon handling")
  | Ipc.Download _ | DownloadFresh _ => ret (IpcErrorResponse "download requires async daemon handling")
  | Pause _ | Resume _ => ret (IpcErrorResponse "pause/resume control is not implemented yet")
  | SubscribeEvents => ret (Ack "use a streaming IPC connection to subscribe to events")
  end.

(** * Commands that become jobs *)
Definition queue_seed_file_command {E} (input : path) (chunk_size : Z) : M Daemon E IpcResponse :=
  do! spawn (SeedJob input chunk_size) in
  ret (Ack ("seed job queued: " +:+ path_display input)).

Definition queue_download_command {E} (request : DownloadRequest) (resume : bool) : M Daemon E IpcResponse :=
  let share_id := dr_share_id request in
  let! job_id := on_files (generate_job_id "download" share_id) in
  do! on_reporter (register share_id job_id) in
  do! spawn (DownloadJob job_id request resume) in
  ret (TransferQueued share_id job_id).

Definition handle_async {E} (command : IpcCommand) : M Daemon E IpcResponse :=
  match command with
  | SeedFile input chunk_size => queue_seed_file_command input chunk_size
  | Ipc.Download request => queue_download_command request true
  | DownloadFresh request => queue_download_command request false
  | command => handle command
  end.

(** * The jobs *)

(** The order in which encrypted chunks arrive and whether a stopped writer is
    noticed ([Seed]), the order of decrypted chunks and of the workers ([Reconstruct],
    [Swarm]), and the network interfaces ([Discovery]). *)
Context (arrival : list SeedPlainChunk → list SeedPlainChunk) (noticed : bool).
Context (schedule : list ChunkMeta → list ChunkMeta) (picks : nat → nat).
Context (get_if_addrs : result io_kind (list IfAddr)).

Definition run_seed_file_command {E} (input : path) (chunk_size : Z) : M World E IpcResponse :=
  let chunk_size := if decide (chunk_size = 0) then DEFAULT_CHUNK_SIZE else chunk_size in
  let! added := try_ (seed_add arrival noticed input chunk_size library_root Normal) in
  match added with
  | Ok descriptor =>
      let! found := try_ (share_summary_by_id (d_share_id descriptor)) in
      match found with
      | Ok (Some share) => ret (ShareAdded share)
      | Ok None =>
          ret (IpcErrorResponse ("share " +:+ ShareId_to_string (d_share_id descriptor)
                                 +:+ " was added but cannot be found in the local library"))
      | Err error => ret (IpcErrorResponse error)
      | _ => panic
      end
  | Err error => ret (IpcErrorResponse (show_network error))
  | _ => panic
  end.

(** The peers of a download: those of the request, or those that are discovered. *)
Definition download_peers {E} (request : DownloadRequest) : M Udp E (result string (list socket_addr)) :=
  match dr_peers request with
  | [] =>
      let options := with_multicast
        (with_timeout (DiscoveryOptions_new (dr_discovery_port request))
           (Z.max (dr_discovery_timeout_ms request) 1 * 1000000)) (dr_discovery_multicast request) in
      let! discovered := try_ (peers_with get_if_addrs (dr_share_id request) options) in
      match discovered with
      | Ok [] =>
          ret (Err ("no peers discovered for share " +:+ ShareId_to_string (dr_share_id request)
                    +:+ "; pass --peer manually or ensure etled discovery is enabled on the LAN"))
      | Ok peers => ret (Ok peers)
      | Err error => ret (Err ("peer discovery failed: " +:+ show_io error))
      | _ => panic
      end
  | peers => ret (Ok peers)
  end.

Definition download_options (request : DownloadRequest) (resume : bool) : DownloadFileOptions :=
  let options := with_request_window
    (with_requested_share_id
       (with_resume (with_library_root (DownloadFileOptions_new "etle-daemon" Normal) library_root) resume)
       (Some (dr_share_id request))) (dr_request_window request) in
  match dr_auth_psk request with
  | Some passphrase => with_auth_psk options (auth_psk_from_passphrase (str_bytes passphrase))
  | None => options
  end.

(** The transfer and, when the daemon chose the output, the move to its final name. *)
Definition download_to (request : DownloadRequest) (resume : bool) (output_path : path) (peers : list socket_addr)
    : M World string IpcResponse :=
  let parallelism := effective_download_parallelism (dr_parallelism request) (zlen peers) in
  let options := download_options request resume in
  let! manifest := map_err show_network
    (if decide (1 < parallelism)
     then from_peers_parallel show_network schedule picks peers output_path options parallelism
     else from_peers show_network schedule peers output_path options) in
  let! final_output :=
    match dr_output request with
    | None => map_err show_io (move_auto_download_output output_path library_root (mf_file_name manifest))
    | Some _ => ret output_path
    end in
  ret (transfer_completed_response (dr_share_id request) final_output manifest).

Definition handle_download_command {E} (request : DownloadRequest) (resume : bool) : M Udp E IpcResponse :=
  let! pid := gets (λ u, env_pid (w_env (u_world u))) in
  let output_path := default (temporary_download_output_path library_root pid) (dr_output request) in
  let! created := try_ (on_world (create_output_parent_dir output_path)) in
  match created with
  | Ok _ =>
      let! peers := download_peers request in
      match peers with
      | Ok peers =>
          let! r := try_ (on_world (download_to request resume output_path peers)) in
          match r with
          | Ok response => ret response
          | Err message => ret (IpcErrorResponse message)
          | _ => panic
          end
      | Err message => ret (IpcErrorResponse message)
      | _ => panic
      end
  | Err error => ret (IpcErrorResponse (show_io error))
  | _ => panic
  end.

(** What is published when a seed job ends. *)
Definition seed_job {E} (input : path) (chunk_size : Z) : M Daemon E unit :=
  let! response := on_files (run_seed_file_command input chunk_size) in
  match response with
  | ShareAdded share => on_reporter (publish (EvShareUpdated share))
  | IpcErrorResponse message => on_reporter (publish (EvError message))
  | _ => ret tt
  end.

Definition publish_download {E} (job_id : string) (share_id : ShareId) (response : IpcResponse) : M Daemon E unit :=
  match response with
  | TransferCompleted _ output _ file_size chunks =>
      do! on_reporter (publish (TaskProgress (Some job_id) "peer:completed" (ShareId_to_string share_id) chunks chunks
                                  file_size file_size 0)) in
      do! on_reporter (publish (EvTransferCompleted (Some job_id) share_id output)) in
      let! found := try_ (on_files (share_summary_by_id share_id)) in
      match found with
      | Ok (Some share) => on_reporter (publish (EvShareUpdated share))
      | _ => ret tt
      end
  | IpcErrorResponse message => on_reporter (publish (EvError message))
  | _ => ret tt
  end.

Definition download_job {E} (job_id : string) (request : DownloadRequest) (resume : bool) : M Daemon E unit :=
  let! response := on_udp (handle_download_command request resume) in
  do! publish_download job_id (dr_share_id request) response in
  on_reporter (unregister (dr_share_id request) job_id).

Definition run_job {E} (job : Job) : M Daemon E unit :=
  match job with
  | SeedJob input chunk_size => seed_job input chunk_size
  | DownloadJob job_id request resume => download_job job_id request resume
  end.

(** * Connections *)
Context `{Bincode IpcCommand, Bincode IpcResponse, Bincode IpcEvent}.

Definition is_disconnected_client (error : IpcError) : bool :=
  match error with
  | IpcIo k => bool_decide (k ∈ [BrokenPipe; ConnectionReset; ConnectionAborted; NotConnected; UnexpectedEof])
  | _ => false
  end.

Definition send_response_or_ignore_closed_client (response : IpcResponse) (should_shutdown : bool) : ipc bool :=
  let! r := try_ (send_ipc_message response) in
  match r with
  | Ok _ => ret should_shutdown
  | Err error => if is_disconnected_client error then ret should_shutdown else throw error
  | _ => panic
  end.

Definition once : M Daemon IpcError bool :=
  do! on_files (map_err IpcIo accept) in
  let! command := on_files (receive_ipc_message (T := IpcCommand)) in
  if decide (command = SubscribeEvents) then
    do! modify add_subscriber in
    ret false
  else
    let should_shutdown := bool_decide (command = Shutdown) in
    let! response := handle_async command in
    on_files (send_response_or_ignore_closed_client response should_shutdown).

(** What a subscriber receives from the bus: an event, or how many it missed; the
    bus closes when there is nothing left. *)
Definition event_of (received : IpcEvent + Z) : IpcEvent :=
  match received with
  | inl event => event
  | inr skipped => EvError ("event subscriber lagged; skipped " +:+ dec skipped +:+ " event(s)")
  end.

Fixpoint forward_events (received : list (IpcEvent + Z)) : ipc unit :=
  match received with
  | [] => ret tt
  | e :: received =>
      let! r := try_ (send_ipc_message (event_of e)) in
      match r with
      | Ok _ => forward_events received
      | Err error => if is_disconnected_client error then ret tt else throw error
      | _ => panic
      end
  end.

Definition serve_subscription (received : list (IpcEvent + Z)) : ipc unit :=
  let! r := try_ (send_ipc_message (Ack "event subscription started")) in
  match r with
  | Ok _ => forward_events received
  | Err error => if is_disconnected_client error then ret tt else throw error
  | _ => panic
  end.
End root.
End daemon.

(** * Facts about the layers *)
Lemma wp_on_udp {E A} (m : M Udp E A) (Q : A → Daemon → Prop) (R : E → Daemon → Prop) d :
  wp m (λ a u, Q a (set_udp u d)) (λ e u, R e (set_udp u d)) (dm_udp d) → wp (on_udp m) Q R d.
Proof. unfold wp, on_udp. by destruct (m (dm_udp d)) as [[] ?]. Qed.

Lemma wp_on_files {E A} (m : M World E A) (Q : A → Daemon → Prop) (R : E → Daemon → Prop) d :
  wp m (λ a w, Q a (set_udp (set_world w (dm_udp d)) d)) (λ e w, R e (set_udp (set_world w (dm_udp d)) d)) (dm_world d) →
  wp (on_files m) Q R d.
Proof. intros Hm. by apply wp_on_udp, wp_on_world. Qed.

Lemma wpp_on_world {E A} (m : M World E A) (Q : A → Udp → Prop) (R : E → Udp → Prop) (P : Udp → Prop) u :
  wpp m (λ a w, Q a (set_world w u)) (λ e w, R e (set_world w u)) (λ w, P (set_world w u)) (u_world u) →
  wpp (on_world m) Q R P u.
Proof. unfold wpp, on_world. by destruct (m (u_world u)) as [[] ?]. Qed.

Lemma wpp_on_udp {E A} (m : M Udp E A) (Q : A → Daemon → Prop) (R : E → Daemon → Prop) (P : Daemon → Prop) d :
  wpp m (λ a u, Q a (set_udp u d)) (λ e u, R e (set_udp u d)) (λ u, P (set_udp u d)) (dm_udp d) →
  wpp (on_udp m) Q R P d.
Proof. unfold wpp, on_udp. by destruct (m (dm_udp d)) as [[] ?]. Qed.

Lemma wp_on_reporter {E} f (Q : unit → Daemon → Prop) (R : E → Daemon → Prop) d :
  Q tt (set_reporter (f (dm_reporter d)) d) → wp (on_reporter f) Q R d.
Proof. exact id. Qed.

(** Between [d] and [d'] only the files may differ, and those as [P] says; the rest of
    the socket is untouched, no job was queued, nothing published. *)
Definition only_files (P : World → World → Prop) (d d' : Daemon) : Prop :=
  P (dm_world d) (dm_world d') ∧ u_inbox (dm_udp d') = u_inbox (dm_udp d) ∧ u_sent (dm_udp d') = u_sent (dm_udp d)
  ∧ dm_reporter d' = dm_reporter d ∧ dm_queue d' = dm_queue d ∧ dm_subscribers d' = dm_subscribers d.

(** Nothing but the clock moved. *)
Abbreviation idle := (only_files stepped).

Global Instance only_files_preorder P `{!PreOrder P} : PreOrder (only_files P).
Proof.
  split.
  - intros d. by split_and!.
  - intros d1 d2 d3 (H1 & H2 & H3 & H4 & H5 & H6) (G1 & G2 & G3 & G4 & G5 & G6).
    split_and!; [by etrans|congruence..].
Qed.

Lemma only_files_mono (P P' : World → World → Prop) d d' :
  (∀ w w', P w w' → P' w w') → only_files P d d' → only_files P' d d'.
Proof. intros HP (H & Hrest). split; [by apply HP|done]. Qed.

Lemma wp_create_dir_all_keeps p w :
  wp (create_dir_all p) (λ _ w', keeps nofile w w') (λ _ w', keeps nofile w w') w.
Proof.
  assert (∀ ps w', fs_step w (mkdirs (w_fs w) ps) w' → Forall (λ q, file_at (w_fs w) q = None) ps → keeps nofile w w') as Hk.
  { intros ps w' Hst Hps. split; [by apply (stepped_env _ _ Hst)|]. intros q _.
    rewrite (fs_step_fs _ _ _ Hst). by apply file_at_mkdirs. }
  apply wp_create_dir_all; [intros k ps w1 Hst _ Hps _; by eapply Hk|]. intros w1 Hfree Hst. eapply Hk; [done|apply Hfree].
Qed.

(** * The synchronous commands *)
Section commands.
Context `{Blake3} `{DiskFormat}.
Context (show_file : FileError → string) (library_root : path).

(** A summary that tells what the files of a share say. *)
Definition valid_share (m : fs) (s : IpcShareSummary) : Prop :=
  ∃ share, summary_valid m library_root share ∧ s = ipc_share_summary_from_local share.

Lemma wp_share_summary_by_id id w :
  wp (share_summary_by_id show_file library_root id)
    (λ r w', stepped w w' ∧ ∀ s, r = Some s → valid_share (w_fs w) s ∧ is_share_id s = id)
    (λ _ w', stepped w w') w.
Proof.
  unfold share_summary_by_id. wp_simpl. wp_use wp_library_list; [|done].
  intros shares w' (Hst & Hv & _). wp_simpl. split; [done|]. intros s Hs.
  apply fmap_Some in Hs as ([i share] & Hfind & ->). apply list_find_Some in Hfind as (Hi & Hid & _).
  split; [|exact Hid]. exists share. split; [|done]. rewrite Forall_forall in Hv. apply Hv.
  apply list_elem_of_lookup. by exists i.
Qed.

(** Only the directory of the share changes. *)
Definition share_dir_only (id : ShareId) (w w' : World) : Prop :=
  w_env w' = w_env w ∧ w_in w' = w_in w ∧ w_out w' = w_out w ∧ ∀ q, ¬ share_dir (for_share library_root id) `prefix_of` q → w_fs w' !! q = w_fs w !! q.

Global Instance share_dir_only_preorder id : PreOrder (share_dir_only id).
Proof.
  split; [done|]. intros w1 w2 w3 (E1 & I1 & O1 & F1) (E2 & I2 & O2 & F2).
  split_and!; [congruence..|]. intros q Hq. by rewrite F2, F1.
Qed.

Lemma stepped_share_dir id w w' : stepped w w' → share_dir_only id w w'.
Proof. intros (? & Hf & ? & ? & _). split_and!; [done..|]. intros q _. by rewrite Hf. Qed.

(** What a deletion answers, and what it did then. *)
Definition delete_outcome (id : ShareId) (d : Daemon) (response : IpcResponse) (d' : Daemon) : Prop :=
  match response with
  | ShareDeleted id' name =>
      id' = id ∧ rp_events (dm_reporter d') = rp_events (dm_reporter d) ++ [EvShareDeleted id]
      ∧ rp_jobs (dm_reporter d') = rp_jobs (dm_reporter d) ∧ rp_states (dm_reporter d') = rp_states (dm_reporter d)
      ∧ (∃ s, valid_share (w_fs (dm_world d)) s ∧ is_share_id s = id ∧ is_name s = name)
      ∧ ∀ q, share_dir (for_share library_root id) `prefix_of` q → w_fs (dm_world d') !! q = None
  | IpcErrorResponse _ => dm_reporter d' = dm_reporter d
  | _ => False
  end.

Lemma wp_library_delete id w :
  wp (library_delete library_root id)
    (λ deleted w', share_dir_only id w w'
       ∧ (deleted = true → ∀ q, share_dir (for_share library_root id) `prefix_of` q → w_fs w' !! q = None))
    (λ _ w', share_dir_only id w w') w.
Proof.
  unfold library_delete. wp_simpl. set (dir := share_dir (for_share library_root id)).
  destruct (path_exists dir w); cbn [negb]; wp_simpl; [|done]. apply wp_remove_dir_all.
  - intros k m w' Hst Hout _. pose proof Hst as (? & Hfs & ? & ? & _). split_and!; [done..|].
    intros q Hq. rewrite Hfs. by apply Hout.
  - intros w' Hst. wp_simpl. pose proof Hst as (? & Hfs & ? & ? & _). cbn in Hfs. split.
    + split_and!; [done..|]. intros q Hq. by rewrite Hfs, lookup_remove_below, decide_False.
    + intros _ q Hq. by rewrite Hfs, lookup_remove_below, decide_True.
Qed.

Lemma wp_delete_share_response {E} id d :
  wp (delete_share_response (E := E) show_file library_root id)
    (λ response d', delete_outcome id d response d' ∧ share_dir_only id (dm_world d) (dm_world d')
       ∧ u_sent (dm_udp d') = u_sent (dm_udp d) ∧ dm_queue d' = dm_queue d)
    (λ _ _, False) d.
Proof.
  unfold delete_share_response. wp_simpl. apply wp_on_files. wp_use wp_share_summary_by_id.
  2: { intros e w' Hst. wp_simpl. split_and!; [done|by apply stepped_share_dir|done|done]. }
  intros [s|] w1 (Hst1 & Hs).
  2: { wp_simpl. split_and!; [done|by apply stepped_share_dir|done|done]. }
  destruct (Hs s eq_refl) as [Hv Hid]. wp_simpl. apply wp_on_files. cbn [dm_world dm_udp set_udp set_world u_world].
  assert (∀ w2, share_dir_only id w1 w2 → share_dir_only id (dm_world d) w2) as Hpast.
  { intros w2 Ho. etrans; [by apply stepped_share_dir|done]. }
  wp_use wp_library_delete; [|intros e w2 Ho; wp_simpl; (split_and!; [done|by apply Hpast|done|done])].
  intros [] w2 (Ho & Hgone); wp_simpl; [|split_and!; [done|by apply Hpast|done|done]].
  apply wp_on_reporter. wp_simpl. split; [|split; [by apply Hpast|done]].
  cbn. split_and!; [done..|by exists s|by apply Hgone].
Qed.
End commands.

(** * Every command *)
Section every_command.
Context `{Blake3} `{DiskFormat}.
Context (show_file : FileError → string) (library_root : path).

Definition download_queued (request : DownloadRequest) (resume : bool) (d : Daemon) (response : IpcResponse)
    (d' : Daemon) : Prop :=
  let share_id := dr_share_id request in
  ∃ job_id, response = TransferQueued share_id job_id
    ∧ stepped (dm_world d) (dm_world d') ∧ u_inbox (dm_udp d') = u_inbox (dm_udp d) ∧ u_sent (dm_udp d') = u_sent (dm_udp d)
    ∧ dm_queue d' = dm_queue d ++ [DownloadJob job_id request resume]
    ∧ dm_reporter d' = register share_id job_id (dm_reporter d).

(** What each command answers and does. *)
Definition answered (command : IpcCommand) (d : Daemon) (response : IpcResponse) (d' : Daemon) : Prop :=
  match command with
  | Ping => response = Pong ∧ d' = d
  | Shutdown | StartServing _ | SubscribeEvents => (∃ m, response = Ack m) ∧ d' = d
  | StopServing | Pause _ | Resume _ => (∃ m, response = IpcErrorResponse m) ∧ d' = d
  | ListShares =>
      idle d d' ∧ ((∃ shares, response = Shares shares ∧ Forall (valid_share library_root (w_fs (dm_world d))) shares)
                   ∨ ∃ e, response = IpcErrorResponse (show_file e))
  | DeleteShare id =>
      delete_outcome library_root id d response d' ∧ share_dir_only library_root id (dm_world d) (dm_world d')
      ∧ u_sent (dm_udp d') = u_sent (dm_udp d) ∧ dm_queue d' = dm_queue d
  | SeedFile input chunk_size =>
      (∃ m, response = Ack m) ∧ d' = set_queue (dm_queue d ++ [SeedJob input chunk_size]) d
  | Ipc.Download request => download_queued request true d response d'
  | DownloadFresh request => download_queued request false d response d'
  end.

Lemma wp_generate_job_id {E} prefix id w :
  wp (generate_job_id (E := E) prefix id) (λ _ w', stepped w w') (λ _ _, False) w.
Proof. unfold generate_job_id. wp_simpl. apply wp_unix_nanos. intros n w' Hst. by wp_simpl. Qed.

Lemma wp_queue_download {E} request resume d :
  wp (queue_download_command (E := E) request resume) (download_queued request resume d) (λ _ _, False) d.
Proof.
  unfold queue_download_command. wp_simpl. apply wp_on_files. wp_use (wp_generate_job_id (E := E)); [|done].
  intros job_id w' Hst. wp_simpl. apply wp_on_reporter. wp_simpl. unfold spawn. wp_simpl. exists job_id. by split_and!.
Qed.

Lemma wp_handle_async {E} command d :
  wp (handle_async (E := E) show_file library_root command) (answered command d) (λ _ _, False) d.
Proof.
  destruct command; cbn [handle_async handle answered]; try (wp_simpl; solve [done | split; [by eexists|done]]).
  - unfold list_shares_response. wp_simpl. apply wp_on_files. wp_use wp_library_list.
    + intros shares w (Hst & Hv & _). wp_simpl. split; [by split_and!|]. left. eexists. split; [done|].
      apply Forall_fmap. eapply Forall_impl; [exact Hv|]. intros share Hs. by exists share.
    + intros e w Hst. wp_simpl. split; [by split_and!|]. right. by eexists.
  - apply wp_delete_share_response.
  - apply wp_queue_download.
  - apply wp_queue_download.
Qed.
End every_command.

(** * Connections *)
Section connections.
Context `{Blake3} `{DiskFormat} `{BincodeLaws IpcCommand, BincodeLaws IpcResponse}.
Context (show_file : FileError → string) (library_root : path).

Lemma wp_accept_ok inbound addr (Q : socket_addr → World → Prop) (R : io_kind → World → Prop) w :
  no_faults w → env_accept (w_env w) (S (w_step w)) = Ok (inbound, addr) →
  Q addr (set_out [] (set_in inbound (tick w))) → wp accept Q R w.
Proof.
  intros Hn Ha HQ. apply wp_faulty; [intros f Hf; by apply fault_not_no_faults in Hf|]. intros _.
  unfold wp. cbn [tick w_env w_step]. by rewrite Ha.
Qed.

(** The environment and the connection are those the command found. *)
Lemma answered_stream command d response d' :
  answered show_file library_root command d response d' →
  w_env (dm_world d') = w_env (dm_world d) ∧ w_in (dm_world d') = w_in (dm_world d)
  ∧ w_out (dm_world d') = w_out (dm_world d).
Proof.
  destruct command; cbn [answered].
  1,4,5,9,10,11,12: by intros [_ ->].
  - intros [[(? & ? & ? & ? & _) _] _]. done.
  - by intros [_ ->].
  - intros (_ & (? & ? & ? & _) & _). done.
  - intros (job & _ & (? & ? & ? & ? & _) & _). done.
  - intros (job & _ & (? & ? & ? & ? & _) & _). done.
Qed.

(** What the daemon did between two states, its stream apart. *)
Definition same_but_stream (d d' : Daemon) : Prop :=
  w_env (dm_world d') = w_env (dm_world d) ∧ w_fs (dm_world d') = w_fs (dm_world d)
  ∧ u_inbox (dm_udp d') = u_inbox (dm_udp d) ∧ u_sent (dm_udp d') = u_sent (dm_udp d)
  ∧ dm_reporter d' = dm_reporter d ∧ dm_queue d' = dm_queue d ∧ dm_subscribers d' = dm_subscribers d.

Lemma wp_once_command command fc rest addr d (Q : bool → Daemon → Prop) (R : IpcError → Daemon → Prop) :
  no_faults (dm_world d) → ipc_frame command = Ok fc → command ≠ SubscribeEvents →
  env_accept (w_env (dm_world d)) (S (w_step (dm_world d))) = Ok (fc ++ rest, addr) →
  (∀ d1 response d2, same_but_stream d d1 → answered show_file library_root command d1 response d2 →
     w_out (dm_world d2) = [] → w_env (dm_world d2) = w_env (dm_world d) →
     wp (on_files (send_response_or_ignore_closed_client response (bool_decide (command = Shutdown)))) Q R d2) →
  wp (once show_file library_root) Q R d.
Proof.
  intros Hn Hfc Hne Hacc Hk. unfold once. wp_simpl. apply wp_on_files. wp_simpl. eapply wp_accept_ok; [done|done|].
  wp_simpl. apply wp_on_files. cbn [dm_world dm_udp set_udp set_world u_world].
  eapply wp_receive_ipc; [exact Hfc|reflexivity| |].
  { intros k w' Hf. destruct Hf. done. }
  intros w1 Hst. rewrite decide_False by done. wp_simpl. pose proof Hst as (He & Hf & _ & Ho & _).
  wp_use (wp_handle_async show_file library_root (E := IpcError)); [|done]. intros response d2 Hans.
  destruct (answered_stream _ _ _ _ Hans) as (He2 & _ & Ho2). cbn in He2, Ho2.
  eapply Hk; [|exact Hans| |]; [|by rewrite Ho2, Ho|by rewrite He2, He].
  by split_and!.
Qed.

Lemma wp_send_response response stop fr (Q : bool → World → Prop) (R : IpcError → World → Prop) w :
  no_faults w → ipc_frame response = Ok fr → (∀ w', sent w fr w' → Q stop w') →
  wp (send_response_or_ignore_closed_client response stop) Q R w.
Proof.
  intros Hn Hfr HQ. unfold send_response_or_ignore_closed_client. wp_simpl. apply wp_send_ipc.
  - by intros f k out w' _ _ _ [].
  - intros e He. congruence.
  - intros f w' Hf Hs. wp_simpl. apply HQ. congruence.
Qed.

Lemma wp_send_command command fc response fr rest socket w :
  no_faults w → ipc_frame command = Ok fc → ipc_frame response = Ok fr →
  env_connect (w_env w) (S (w_step w)) socket = Ok (fr ++ rest) →
  wp (send_ipc_command socket command) (λ r w', r = response ∧ w_out w' = fc ∧ w_fs w' = w_fs w) (λ _ _, False) w.
Proof.
  intros Hn Hfc Hfr Hconn. unfold send_ipc_command. wp_simpl.
  apply wp_faulty; [intros f Hf; by apply fault_not_no_faults in Hf|]. intros _. unfold wp at 1. cbn [tick w_env w_step].
  rewrite Hconn. set (w1 := set_out [] (set_in (fr ++ rest) _)).
  change (wp (bind (send_ipc_message command) (λ _, receive_ipc_message (T := IpcResponse)))
            (λ r w', r = response ∧ w_out w' = fc ∧ w_fs w' = w_fs w) (λ _ _, False) w1).
  wp_simpl. apply wp_send_ipc; [by intros f k out w' _ _ _ []|congruence|]. intros f w2 Hf Hs.
  assert (f = fc) as -> by congruence. pose proof Hs as (He & Hfs & Hin & Hout & _).
  eapply wp_receive_ipc; [exact Hfr|exact Hin| |].
  - intros k w' Hf'. destruct Hf'. by rewrite <- (sent_no_faults _ _ _ Hs).
  - intros w3 (_ & Hfs3 & _ & Hout3 & _). split; [done|]. cbn in Hout3, Hfs3. rewrite Hout3, Hout, Hfs3. by split.
Qed.
End connections.

(** * The registry of jobs *)

(** The registry and the queue are the same; the bus carried more. *)
Definition registry_same (d d' : Daemon) : Prop :=
  rp_jobs (dm_reporter d') = rp_jobs (dm_reporter d) ∧ dm_queue d' = dm_queue d
  ∧ rp_events (dm_reporter d) `prefix_of` rp_events (dm_reporter d').
Global Instance registry_same_preorder : PreOrder registry_same.
Proof.
  split; [done|]. intros d1 d2 d3 (J1 & Q1 & E1) (J2 & Q2 & E2). split_and!; [congruence..|by etrans].
Qed.

(** Whatever its outcome, the computation leaves the registry alone. *)
Definition keeps_registry {E A} (m : M Daemon E A) : Prop := ∀ d, registry_same d (m d).2.

Lemma keeps_registry_bind {E A B} (m : M Daemon E A) (k : A → M Daemon E B) :
  keeps_registry m → (∀ a, keeps_registry (k a)) → keeps_registry (bind m k).
Proof.
  intros Hm Hk d. specialize (Hm d). unfold bind. destruct (m d) as [[a| | |] d']; try done. etrans; [exact Hm|apply Hk].
Qed.

Lemma keeps_registry_try {E E' A} (m : M Daemon E A) : keeps_registry m → keeps_registry (try_ (E' := E') m).
Proof. intros Hm d. specialize (Hm d). unfold try_. by destruct (m d) as [[] ?]. Qed.

Lemma keeps_registry_udp {E A} (m : M Udp E A) : keeps_registry (on_udp m).
Proof. intros d. unfold on_udp. by destruct (m (dm_udp d)). Qed.

Lemma keeps_registry_publish {E} e : keeps_registry (on_reporter (E := E) (publish e)).
Proof. intros d. split_and!; [done..|]. by apply prefix_app_r. Qed.

Lemma keeps_registry_ret {E A} (a : A) : keeps_registry (ret (E := E) a).
Proof. by intros d. Qed.

Create HintDb registry discriminated.
#[export] Hint Resolve keeps_registry_udp keeps_registry_publish keeps_registry_ret keeps_registry_try : registry.
#[export] Hint Unfold on_files : registry.
Ltac registry := repeat first [apply keeps_registry_bind; [|intros ?] | progress unfold on_files | case_match | by eauto with registry | done].

Section reachable.
Context `{Blake3, X25519, Aead} `{Bincode WireMessage} `{DiskFormat} `{Bincode DiscoveryMessage}.
Context `{Bincode IpcCommand, Bincode IpcResponse}.
Context (show_io : io_kind → string) (show_file : FileError → string) (show_network : NetworkError → string).
Context (library_root : path).

(** What may happen to a daemon: a connection, or a job of the queue, in any order;
    the choices of the scheduler, of the network and of the encryption threads are free. *)
Inductive daemon_step : Daemon → Daemon → Prop :=
  | step_connection d : daemon_step d (once show_file library_root d).2
  | step_job arrival noticed schedule picks get_if_addrs pre job post d d' :
      dm_queue d = pre ++ job :: post →
      run_job (E := Empty_set) show_io show_file show_network library_root arrival noticed schedule picks get_if_addrs
        job (set_queue (pre ++ post) d) = (Ok tt, d') →
      daemon_step d d'.

(** A registered job is one that has not ended. *)
Definition registry_ok (d : Daemon) : Prop :=
  ∀ share_id job_id, rp_jobs (dm_reporter d) !! share_id = Some job_id →
    ∃ request resume, DownloadJob job_id request resume ∈ dm_queue d ∧ dr_share_id request = share_id.

Lemma registry_same_ok d d' : registry_same d d' → registry_ok d → registry_ok d'.
Proof. intros (Hj & Hq & _) Hok share_id job_id. rewrite Hj, Hq. apply Hok. Qed.

(** A command either leaves the registry alone, or queues a job and registers it. *)
Lemma answered_registry command d response d' :
  answered show_file library_root command d response d' → registry_ok d →
  registry_ok d' ∧ rp_events (dm_reporter d) `prefix_of` rp_events (dm_reporter d').
Proof.
  intros Hans Hok.
  assert (∀ request resume, download_queued request resume d response d' →
            registry_ok d' ∧ rp_events (dm_reporter d) `prefix_of` rp_events (dm_reporter d')) as Hqueued.
  { intros request resume (job_id & _ & _ & _ & _ & Hq & Hr). split; [|by rewrite Hr].
    intros share_id id. rewrite Hq, Hr. cbn [rp_jobs register set_jobs].
    rewrite lookup_insert_Some. intros [[<- <-]|[_ Hl]].
    - exists request, resume. split; [|done]. apply elem_of_app. right. by left.
    - destruct (Hok _ _ Hl) as (request' & resume' & Hin & Hs). exists request', resume'.
      split; [|done]. apply elem_of_app. by left. }
  destruct command; cbn [answered] in Hans; try (by destruct Hans as [_ ->]); try (by eapply Hqueued).
  - destruct Hans as [(_ & _ & _ & Hr & Hq & _) _]. split; [|by rewrite Hr]. intros s j. rewrite Hr, Hq. apply Hok.
  - destruct Hans as [_ ->]. split; [|done]. intros s j Hl. destruct (Hok _ _ Hl) as (r & b & Hin & Hs).
    exists r, b. split; [|done]. apply elem_of_app. by left.
  - destruct Hans as (Hdel & _ & _ & Hq). destruct response; cbn [delete_outcome] in Hdel; try done.
    + destruct Hdel as (_ & He & Hj & _). rewrite He. split; [|by apply prefix_app_r].
      intros s j. rewrite Hj, Hq. apply Hok.
    + rewrite Hdel. split; [|done]. intros s j. rewrite Hdel, Hq. apply Hok.
Qed.

Lemma once_registry d :
  registry_ok d →
  registry_ok (once show_file library_root d).2
  ∧ rp_events (dm_reporter d) `prefix_of` rp_events (dm_reporter (once show_file library_root d).2).
Proof.
  intros Hok. unfold once, bind.
  pose proof (keeps_registry_udp (on_world (map_err IpcIo accept)) d) as Hacc. fold (on_files (map_err IpcIo accept)) in Hacc.
  destruct (on_files (map_err IpcIo accept) d) as [[[]| | |] d1]; cbn [snd] in *;
    try (split; [by eapply registry_same_ok|apply Hacc]).
  pose proof (keeps_registry_udp (on_world (receive_ipc_message (T := IpcCommand))) d1) as Hrecv.
  fold (on_files (receive_ipc_message (T := IpcCommand))) in Hrecv. assert (registry_same d (on_files (receive_ipc_message (T := IpcCommand)) d1).2) as Hboth by (by etrans).
  destruct (on_files (receive_ipc_message (T := IpcCommand)) d1) as [[command| | |] d2]; cbn [snd] in *;
    try (split; [by eapply registry_same_ok|apply Hboth]).
  case_decide; cbn [modify ret snd]; [split; [by apply (registry_same_ok d)|apply Hboth]|].
  destruct (wp_run _ _ _ _ (wp_handle_async show_file library_root (E := IpcError) command d2))
    as [(response & d3 & Hrun & Hans)|(? & ? & _ & [])].
  rewrite Hrun. destruct (answered_registry _ _ _ _ Hans) as [Hok3 He3]; [by eapply registry_same_ok|].
  pose proof (keeps_registry_udp (on_world (send_response_or_ignore_closed_client response (bool_decide (command = Shutdown)))) d3) as Hsend.
  split; [by eapply registry_same_ok|]. etrans; [apply Hboth|]. etrans; [exact He3|apply Hsend].
Qed.

Section job.
Context (arrival : list SeedPlainChunk → list SeedPlainChunk) (noticed : bool).
Context (schedule : list ChunkMeta → list ChunkMeta) (picks : nat → nat) (gi : result io_kind (list IfAddr)).

Lemma keeps_seed_job {E} input chunk_size :
  keeps_registry (seed_job (E := E) show_file show_network library_root arrival noticed input chunk_size).
Proof. unfold seed_job. registry. Qed.

Lemma keeps_publish_download {E} job_id id response :
  keeps_registry (publish_download (E := E) show_file library_root job_id id response).
Proof. unfold publish_download. registry. Qed.

Lemma download_job_registry {E} job_id request resume d :
  match download_job (E := E) show_io show_file show_network library_root schedule picks gi job_id request resume d with
  | (Ok _, d') => ∃ d1, registry_same d d1 ∧ d' = set_reporter (unregister (dr_share_id request) job_id (dm_reporter d1)) d1
  | (_, d') => registry_same d d'
  end.
Proof.
  unfold download_job, bind.
  pose proof (keeps_registry_udp (handle_download_command (E := E) show_io show_network library_root schedule picks gi request resume) d) as Hrun.
  destruct (on_udp _ d) as [[response| | |] d1]; try exact Hrun.
  pose proof (keeps_publish_download (E := E) job_id (dr_share_id request) response d1) as Hpub.
  assert (registry_same d (publish_download (E := E) show_file library_root job_id (dr_share_id request) response d1).2)
    as Hboth by (by etrans).
  destruct (publish_download _ _ _ _ _ d1) as [[[]| | |] d2]; try exact Hboth. by exists d2.
Qed.

Lemma job_step_registry pre job post d d' :
  dm_queue d = pre ++ job :: post → registry_ok d →
  run_job (E := Empty_set) show_io show_file show_network library_root arrival noticed schedule picks gi
    job (set_queue (pre ++ post) d) = (Ok tt, d') →
  registry_ok d' ∧ rp_events (dm_reporter d) `prefix_of` rp_events (dm_reporter d').
Proof.
  intros Hqueue Hok Hrun.
  assert (∀ share_id id, rp_jobs (dm_reporter d) !! share_id = Some id →
            (∃ resume request, job = DownloadJob id request resume ∧ dr_share_id request = share_id)
            ∨ ∃ request resume, DownloadJob id request resume ∈ pre ++ post ∧ dr_share_id request = share_id) as Hrest.
  { intros share_id id Hl. destruct (Hok _ _ Hl) as (request & resume & Hin & Hs). rewrite Hqueue in Hin.
    apply elem_of_app in Hin as [Hin|[<-|Hin]%elem_of_cons]; [right|left|right].
    - exists request, resume. rewrite elem_of_app. by auto.
    - by exists resume, request.
    - exists request, resume. rewrite elem_of_app. by auto. }
  destruct job as [input chunk_size|job_id request resume]; cbn [run_job] in Hrun.
  - pose proof (keeps_seed_job (E := Empty_set) input chunk_size (set_queue (pre ++ post) d)) as (Hj & Hq & He).
    rewrite Hrun in Hj, Hq, He. cbn in Hj, Hq, He. split; [|done]. intros share_id id. rewrite Hj, Hq.
    intros [(resume & request & Heq & _)|?]%Hrest; done.
  - pose proof (download_job_registry (E := Empty_set) job_id request resume (set_queue (pre ++ post) d)) as Hjob.
    rewrite Hrun in Hjob. destruct Hjob as (d1 & (Hj & Hq & He) & ->). cbn in Hj, Hq, He.
    assert (rp_events (unregister (dr_share_id request) job_id (dm_reporter d1)) = rp_events (dm_reporter d1)) as Hev
      by (unfold unregister; by case_decide).
    split; [|cbn; by rewrite Hev]. intros share_id id. cbn [dm_reporter set_reporter dm_queue]. rewrite Hq.
    assert (∀ j, rp_jobs (unregister (dr_share_id request) job_id (dm_reporter d1)) !! share_id = Some j →
              rp_jobs (dm_reporter d) !! share_id = Some j ∧ (share_id = dr_share_id request → j ≠ job_id)) as Hun.
    { intros j. unfold unregister. case_decide as Hreg; cbn [rp_jobs set_jobs]; rewrite Hj in *.
      - rewrite lookup_delete_Some. intros [Hne ?]. by split.
      - intros Hl. split; [done|]. intros -> ->. done. }
    intros [Hl Hne]%Hun. destruct (Hrest _ _ Hl) as [(resume' & request' & Heq & Hs)|?]; [|done].
    injection Heq as -> -> ->. by destruct (Hne (eq_sym Hs)).
Qed.
End job.

Lemma rtc_registry d d' :
  rtc daemon_step d d' → registry_ok d →
  registry_ok d' ∧ rp_events (dm_reporter d) `prefix_of` rp_events (dm_reporter d').
Proof.
  induction 1 as [d|d d1 d' Hstep _ IH]; intros Hok; [done|].
  assert (registry_ok d1 ∧ rp_events (dm_reporter d) `prefix_of` rp_events (dm_reporter d1)) as [Hok1 He1].
  { destruct Hstep as [d|arrival noticed schedule picks gi pre job post d d1 Hq Hrun]; [by apply once_registry|].
    by eapply job_step_registry. }
  destruct (IH Hok1) as [Hok' He']. split; [done|by etrans].
Qed.
End reachable.

(** * A download job *)
Section download_job.
Context `{Blake3Laws, X25519, Aead} `{Bincode WireMessage} `{!WireTyped} `{DiskFormatTyped} `{Bincode DiscoveryMessage}.
Context (show_io : io_kind → string) (show_file : FileError → string) (show_network : NetworkError → string).
Context (library_root : path) (schedule : list ChunkMeta → list ChunkMeta) (picks : nat → nat).
Context (gi : result io_kind (list IfAddr)).

(** The files a job may change: the path it downloads to, the library, and, when the
    daemon chose the output, a name in the output directory. *)
Definition job_files (request : DownloadRequest) (out : path) (q : path) : Prop :=
  q = out ∨ library_files (Some library_root) q
  ∨ dr_output request = None ∧ ∃ name, plain_file_name name ∧ q = library_root ++ [OUTPUT_DIR_NAME; name].

Definition job_safe (request : DownloadRequest) (out : path) (w w' : World) : Prop :=
  keeps (job_files request out) w w' ∧ chunks_sound (Some library_root) w w'.

Lemma job_safe_parallel request out w w' : parallel_safe out (Some library_root) w w' → job_safe request out w w'.
Proof.
  intros [Hk Hs]. split; [|done]. eapply keeps_mono; [|exact Hk]. intros q [->|?]; [by left|right; by left].
Qed.

Lemma job_safe_nofile request out w w' : keeps nofile w w' → job_safe request out w w'.
Proof. intros Hk. by apply job_safe_parallel, parallel_safe_nofile. Qed.

Lemma job_safe_trans request out w w1 w2 : job_safe request out w w1 → job_safe request out w1 w2 → job_safe request out w w2.
Proof.
  intros [Hk1 Hs1] [Hk2 Hs2]. split; [by etrans|]. intros r id i d Hr Ha Hi Hd.
  destruct (Hs2 r id i d Hr Ha Hi Hd) as [Hold|?]; [by apply Hs1|by right].
Qed.

Lemma output_not_library name : ¬ library_files (Some library_root) (library_root ++ [OUTPUT_DIR_NAME; name]).
Proof. intros (r & [= <-] & Hp). apply prefix_app_inv in Hp. apply prefix_cons_inv_1 in Hp. discriminate. Qed.

Lemma wp_from_peers_any out addrs options w :
  ¬ library_files (Some library_root) out → do_library_root options = Some library_root →
  wp (from_peers show_network schedule addrs out options)
    (λ m w', parallel_safe out (Some library_root) w w' ∧ output_correct out m w')
    (λ _ w', parallel_safe out (Some library_root) w w') w.
Proof.
  intros Hout Hroot. destruct addrs as [|addr addrs]; cbn [from_peers]; [wp_simpl; by apply parallel_safe_nofile|].
  wp_use (wp_from_peers_loop schedule out (Some library_root) Hout show_network options (zlen (addr :: addrs))); [done| |].
  - intros m w' [Hs Ho]. split; [by apply download_parallel_safe|done].
  - intros e w' [Hs _]. by apply download_parallel_safe.
Qed.

(** The move keeps the library and delivers the content. *)
Lemma wpp_move_output request out name m w0 w :
  ¬ library_files (Some library_root) out → dr_output request = None → output_correct out m w → job_safe request out w0 w →
  wpp (move_auto_download_output out library_root name)
    (λ p w', job_safe request out w0 w' ∧ output_correct p m w'
       ∧ ∃ chosen, plain_file_name chosen ∧ p = library_root ++ [OUTPUT_DIR_NAME; chosen])
    (λ _ w', job_safe request out w0 w') (λ w', too_many_entries w' ∧ job_safe request out w0 w') w.
Proof.
  intros Hout Hnone (d & Hd & Hid) Hsafe. eapply wpp_mono; [apply wpp_move_auto_download_output| | |].
  - intros p w' [Hk (chosen & d' & -> & Hchosen & Hd' & Hp & _)]. unfold default_download_output_dir in *. rewrite <- app_assoc in *.
    assert (plain_file_name chosen) as Hplain by (eapply chosen_name_plain, Hchosen; apply safe_output_file_name_plain).
    split; [|split; [exists d; split; [congruence|done]|by exists chosen]]. eapply job_safe_trans; [exact Hsafe|]. split.
    + eapply keeps_mono; [|exact Hk]. intros q [->| ->]; [by left|]. right; right. split; [done|]. by exists chosen.
    + intros r id i dc [= <-] _ _ Hdc. left. rewrite (proj2 Hk) in Hdc; [done|].
      assert (library_files (Some library_root) (chunk_path (for_share library_root id) i)) as Hlib.
      { exists library_root. split; [done|]. unfold chunk_path, chunks_dir, share_dir, library_dir, etle_dir. cbn [lp_root for_share].
        rewrite <- !app_assoc. apply prefix_app. by apply prefix_app_r. }
      intros [Heq|Heq]; rewrite Heq in Hlib; [done|by apply output_not_library in Hlib].
  - intros e w' Hk. eapply job_safe_trans; [exact Hsafe|]. by apply job_safe_nofile.
  - intros w' [-> ?]. by split.
Qed.

(** A finished download: the response and the file it names. *)
Definition delivered (request : DownloadRequest) (out : path) (response : IpcResponse) (w : World) : Prop :=
  ∃ manifest final, response = transfer_completed_response (dr_share_id request) final manifest
    ∧ output_correct final manifest w
    ∧ match dr_output request with
      | Some _ => final = out
      | None => ∃ name, plain_file_name name ∧ final = library_root ++ [OUTPUT_DIR_NAME; name]
      end.

Lemma wpp_download_to request resume out peers w :
  ¬ library_files (Some library_root) out →
  wpp (download_to show_io show_network library_root schedule picks request resume out peers)
    (λ response w', job_safe request out w w' ∧ delivered request out response w')
    (λ _ w', job_safe request out w w') (λ w', too_many_entries w' ∧ job_safe request out w w') w.
Proof.
  intros Hout. unfold download_to. apply wpp_bind, wpp_map_err, wp_wpp.
  assert (do_library_root (download_options library_root request resume) = Some library_root) as Hroot
    by (unfold download_options; by destruct (dr_auth_psk request)).
  apply wp_mono with (Q := λ m w', parallel_safe out (Some library_root) w w' ∧ output_correct out m w')
                     (R := λ _ w', parallel_safe out (Some library_root) w w').
  { case_decide; [|by apply wp_from_peers_any].
    wp_use (wp_from_peers_parallel show_network schedule picks out (Some library_root) Hout); [done| |].
    - intros m w' (Hs & _ & Ho). done.
    - intros e w' [Hs _]. done. }
  2: { intros e w' Hs. by apply job_safe_parallel. }
  intros m w1 [Hs Ho]. apply wpp_bind. apply (job_safe_parallel request) in Hs.
  destruct (dr_output request) as [p|] eqn:Hdr.
  - unfold wpp at 1, ret. split; [done|]. exists m, out. by rewrite Hdr.
  - apply wpp_map_err. eapply wpp_mono; [by apply wpp_move_output| |done|done].
    intros p w2 (Hs2 & Ho2 & Hp). unfold wpp, ret. split; [done|]. exists m, p. by rewrite Hdr.
Qed.

Lemma wp_download_peers {E} request u :
  wp (download_peers (E := E) show_io gi request) (λ r u', stepped (u_world u) (u_world u') ∧ ((∃ peers, r = Ok peers) ∨ ∃ message, r = Err message))
    (λ _ _, False) u.
Proof.
  unfold download_peers. destruct (dr_peers request) as [|p ps]; [|wp_simpl; split; [done|by eauto]]. wp_simpl. wp_use wp_peers_with.
  - intros peers u' [Hst _]. destruct peers; wp_simpl; (split; [done|by eauto]).
  - intros e u' [(Hst & _) _]. wp_simpl. split; [done|by eauto].
Qed.

Lemma wp_create_output_parent_dir p w :
  wp (create_output_parent_dir p) (λ _ w', keeps nofile w w') (λ _ w', keeps nofile w w') w.
Proof.
  unfold create_output_parent_dir. destruct (path_parent p) as [parent|]; [|by wp_simpl]. apply wp_create_dir_all_keeps.
Qed.

(** The path a job downloads to. *)
Definition job_output (request : DownloadRequest) (w : World) : path :=
  default (temporary_download_output_path library_root (env_pid (w_env w))) (dr_output request).

Definition handled (request : DownloadRequest) (out : path) (w : World) (response : IpcResponse) (w' : World) : Prop :=
  job_safe request out w w' ∧ ((∃ message, response = IpcErrorResponse message) ∨ delivered request out response w').

Lemma wpp_handle_download_command {E} request resume u :
  let out := job_output request (u_world u) in
  ¬ library_files (Some library_root) out →
  wpp (handle_download_command (E := E) show_io show_network library_root schedule picks gi request resume)
    (λ response u', handled request out (u_world u) response (u_world u')) (λ _ _, False)
    (λ u', too_many_entries (u_world u') ∧ job_safe request out (u_world u) (u_world u')) u.
Proof.
  intros out Hout. unfold handle_download_command. apply wpp_bind. unfold wpp at 1, gets. fold (job_output request (u_world u)). fold out.
  assert (∀ u' message, job_safe request out (u_world u) (u_world u') →
            handled request out (u_world u) (IpcErrorResponse message) (u_world u')) as Herr
    by (intros u' message Hs; split; [done|left; by eexists]).
  apply wpp_bind, wpp_try, wp_wpp, wp_on_world. wp_use wp_create_output_parent_dir.
  2: { intros e w1 Hk. apply Herr. by apply job_safe_nofile. }
  intros [] w1 Hk1. apply (job_safe_nofile request out) in Hk1. apply wpp_bind, wp_wpp. wp_use (wp_download_peers (E := E)); [|done].
  intros r u2 [Hst Hr]. assert (job_safe request out (u_world u) (u_world u2)) as Hs2.
  { eapply job_safe_trans; [exact Hk1|]. apply job_safe_nofile. by apply stepped_keeps. }
  destruct Hr as [[peers ->]|[message ->]]; [|by apply Herr].
  apply wpp_bind, wpp_try, wpp_on_world. eapply wpp_mono; [by apply wpp_download_to| | |].
  - intros response w3 [Hs3 Hd]. split; [by eapply job_safe_trans|by right].
  - intros message w3 Hs3. apply Herr. by eapply job_safe_trans.
  - intros w3 [Hmany Hs3]. split; [done|by eapply job_safe_trans].
Qed.

(** What a job reports in the end: one error, or its completion. *)
Definition job_reports (job_id : string) (request : DownloadRequest) (out : path) (d' : Daemon) (events : list IpcEvent) : Prop :=
  (∃ message, events = [EvError message])
  ∨ ∃ manifest final updated, output_correct final manifest (dm_world d')
      ∧ match dr_output request with
        | Some _ => final = out
        | None => ∃ name, plain_file_name name ∧ final = library_root ++ [OUTPUT_DIR_NAME; name]
        end
      ∧ events = [TaskProgress (Some job_id) "peer:completed" (ShareId_to_string (dr_share_id request))
                    (zlen (mf_chunks manifest)) (zlen (mf_chunks manifest)) (mf_file_size manifest) (mf_file_size manifest) 0;
                  EvTransferCompleted (Some job_id) (dr_share_id request) final] ++ updated
      ∧ (updated = [] ∨ ∃ s, valid_share library_root (w_fs (dm_world d')) s ∧ is_share_id s = dr_share_id request
                         ∧ updated = [EvShareUpdated s]).

Definition job_done (job_id : string) (request : DownloadRequest) (d d' : Daemon) : Prop :=
  let out := job_output request (dm_world d) in
  job_safe request out (dm_world d) (dm_world d') ∧ dm_queue d' = dm_queue d
  ∧ rp_jobs (dm_reporter d') = rp_jobs (unregister (dr_share_id request) job_id (dm_reporter d))
  ∧ ∃ events, rp_events (dm_reporter d') = rp_events (dm_reporter d) ++ events ∧ job_reports job_id request out d' events.

Lemma unregister_events id job r : rp_events (unregister id job r) = rp_events r.
Proof. unfold unregister. by case_decide. Qed.

Lemma unregister_jobs id job r r' : rp_jobs r = rp_jobs r' → rp_jobs (unregister id job r) = rp_jobs (unregister id job r').
Proof. intros Hj. unfold unregister. rewrite Hj. case_decide; cbn; congruence. Qed.

Lemma job_output_ok request w :
  (∀ p, dr_output request = Some p → ¬ library_files (Some library_root) p) →
  ¬ library_files (Some library_root) (job_output request w).
Proof.
  intros Hp. unfold job_output. destruct (dr_output request) as [p|]; cbn; [by apply Hp|].
  unfold temporary_download_output_path, default_download_output_dir. rewrite <- app_assoc. apply output_not_library.
Qed.

Lemma wpp_download_job {E} job_id request resume d :
  (∀ p, dr_output request = Some p → ¬ library_files (Some library_root) p) →
  wpp (download_job (E := E) show_io show_file show_network library_root schedule picks gi job_id request resume)
    (λ _ d', job_done job_id request d d') (λ _ _, False) (λ d', too_many_entries (dm_world d')) d.
Proof.
  intros Hout. apply (job_output_ok request (dm_world d)) in Hout. unfold download_job. apply wpp_bind, wpp_on_udp.
  eapply wpp_mono; [by apply wpp_handle_download_command| |done|by intros u [? _]].
  intros response u1 [Hsafe Hresp]. apply wp_wpp. wp_simpl. unfold job_done. set (out := job_output request (dm_world d)) in *.
  change (u_world (dm_udp d)) with (dm_world d) in *. fold out in Hsafe, Hresp.
  destruct Hresp as [[message ->]|(manifest & final & -> & Ho & Hfinal)]; cbn [publish_download transfer_completed_response].
  - apply wp_on_reporter, wp_on_reporter. split_and!; [exact Hsafe|done|by apply unregister_jobs|].
    exists [EvError message]. split; [cbn; by rewrite unregister_events|]. left. by exists message.
  - wp_simpl. apply wp_on_reporter. wp_simpl. apply wp_on_reporter. wp_simpl. apply wp_on_files. wp_use wp_share_summary_by_id.
    + intros found w2 [Hst Hfound]. cbn in Hst, Hfound. wp_simpl.
      assert (job_safe request out (dm_world d) w2) as Hsafe2
        by (eapply job_safe_trans; [exact Hsafe|]; by apply job_safe_nofile, stepped_keeps).
      assert (output_correct final manifest w2) as Ho2
        by (destruct Ho as (data & Hdata & Hid); exists data; by rewrite (stepped_fs _ _ Hst)).
      destruct found as [s|]; [|wp_simpl]; repeat apply wp_on_reporter;
        (split_and!; [exact Hsafe2|done|by apply unregister_jobs|]); eexists; (split; [cbn; rewrite unregister_events; cbn; rewrite <- !app_assoc; reflexivity|]);
        right; exists manifest, final; eexists; (split_and!; [exact Ho2|exact Hfinal|reflexivity|]); [right|by left].
      exists s. destruct (Hfound s eq_refl) as [Hv Hs]. split_and!; [|done|done]. cbn. by rewrite (stepped_fs _ _ Hst).
    + intros e w2 Hst. cbn in Hst. wp_simpl. apply wp_on_reporter. split_and!.
      * eapply job_safe_trans; [exact Hsafe|]. by apply job_safe_nofile, stepped_keeps.
      * done.
      * by apply unregister_jobs.
      * eexists. split; [cbn; rewrite unregister_events; cbn; rewrite <- !app_assoc; reflexivity|]. right. exists manifest, final, [].
        destruct Ho as (data & Hdata & Hid). split_and!; [exists data; cbn; by rewrite (stepped_fs _ _ Hst)|exact Hfinal|done|by left].
Qed.
End download_job.

(** * A seed job *)
Section seed_job.
Context `{Blake3Laws, X25519, AeadLaws} `{DiskFormat}.
Context (show_file : FileError → string) (show_network : NetworkError → string).
Context (library_root : path) (arrival : list SeedPlainChunk → list SeedPlainChunk) (noticed : bool).

Definition job_chunk_size (chunk_size : Z) : Z := if decide (chunk_size = 0) then DEFAULT_CHUNK_SIZE else chunk_size.

(** The share that a seed job announces: its files hold the input, encrypted. *)
Definition seed_reports (input : path) (chunk_size : Z) (w w' : World) (response : IpcResponse) : Prop :=
  (∃ message, response = IpcErrorResponse message)
  ∨ ∃ s key content descriptor, response = ShareAdded s ∧ valid_share library_root (w_fs w') s
      ∧ is_share_id s = d_share_id descriptor ∧ file_at (w_fs w) input = Some content
      ∧ seeded input library_root (job_chunk_size chunk_size) key (w_fs w') content descriptor.

Lemma wp_run_seed_file_command {E} input chunk_size w :
  (∀ l, arrival l ≡ₚ l) → 0 ≤ chunk_size → honest_faults w →
  Z.of_nat (size (w_fs w)) + zlen library_root + 2 ≤ u32_max →
  wp (run_seed_file_command (E := E) show_file show_network library_root arrival noticed input chunk_size)
    (λ response w', keeps (etle_files library_root) w w' ∧ seed_reports input chunk_size w w' response) (λ _ _, False) w.
Proof.
  intros Harr Hsize Hh Hsz. unfold run_seed_file_command. fold (job_chunk_size chunk_size).
  assert (0 ≤ job_chunk_size chunk_size) by (unfold job_chunk_size; case_decide; [by_decide|done]). wp_simpl.
  wp_use wp_seed_add; [done..| |intros e w1 Hk; wp_simpl; split; [done|left; by eexists]].
  intros descriptor w1 (Hk & key & content & Hc & Hseeded). wp_simpl. wp_use wp_share_summary_by_id.
  - intros found w2 [Hst Hfound]. wp_simpl.
    assert (keeps (etle_files library_root) w w2) as Hk2 by (etrans; [exact Hk|by apply stepped_keeps]).
    destruct found as [s|]; wp_simpl; (split; [exact Hk2|]); [right|left; by eexists].
    destruct (Hfound s eq_refl) as [Hv Hid]. exists s, key, content, descriptor. rewrite (stepped_fs _ _ Hst). by split_and!.
  - intros e w2 Hst. wp_simpl. split; [etrans; [exact Hk|by apply stepped_keeps]|left; by eexists].
Qed.
End seed_job.

(** [--no-resume] does not reach a parallel download: its fetchers take the options,
    and none of them reads [resume]. *)
Lemma parallel_ignores_resume `{Blake3, X25519, Aead} `{Bincode WireMessage} `{DiskFormat}
    (show_network : NetworkError → string) schedule picks addrs out options parallelism b w :
  from_peers_parallel show_network schedule picks addrs out (with_resume options b) parallelism w
  = from_peers_parallel show_network schedule picks addrs out options parallelism w.
Proof. reflexivity. Qed.

(** * The theorems *)
Section theorems.
Context `{Blake3Laws, X25519, Aead} `{Bincode WireMessage} `{!WireTyped} `{DiskFormatTyped} `{Bincode DiscoveryMessage}.
Context (show_io : io_kind → string) (show_file : FileError → string) (show_network : NetworkError → string).
Context (library_root : path) (schedule : list ChunkMeta → list ChunkMeta) (picks : nat → nat).
Context (gi : result io_kind (list IfAddr)).

(** Every command gets exactly one response, whatever fails, and does what it says
    and no more. Commands that are not implemented, and those that only acknowledge,
    change nothing. A listing changes nothing and tells what the share files hold, or
    reports an error. A seed is queued behind the jobs already there; a download is
    queued with a job id that is registered for its share, and that id is the
    response. [ShareDeleted] is answered, and the deletion published, only when a share
    of that id and name was there and nothing at all is left below its directory;
    otherwise nothing is published; and no other part of the library changes. *)
Theorem handle_async_correct command d :
  ∃ response d', handle_async (E := IpcError) show_file library_root command d = (Ok response, d')
    ∧ answered show_file library_root command d response d'.
Proof.
  destruct (wp_run _ _ _ _ (wp_handle_async (E := IpcError) show_file library_root command d))
    as [(response & d' & Hrun & Hans)|(? & ? & _ & [])]. by exists response, d'.
Qed.

End theorems.

(** A seed job, whatever fails and however the encryption threads interleave. It
    ends, changes nothing but the library, the queue and the registry are as before, and
    exactly one event was published: an error, or the summary of the new share. In the
    second case the share files give that summary, and hold the input file: the
    descriptor names it, and its chunks decrypt under the stored key, in order, to its
    content. *)
Theorem seed_job_correct `{Blake3Laws, X25519, AeadLaws} `{DiskFormat} show_file show_network library_root
    arrival noticed input chunk_size d :
  (∀ l, arrival l ≡ₚ l) → 0 ≤ chunk_size → honest_faults (dm_world d) →
  Z.of_nat (size (w_fs (dm_world d))) + zlen library_root + 2 ≤ u32_max →
  ∃ d' event, seed_job (E := Empty_set) show_file show_network library_root arrival noticed input chunk_size d = (Ok tt, d')
    ∧ keeps (etle_files library_root) (dm_world d) (dm_world d')
    ∧ dm_queue d' = dm_queue d ∧ rp_jobs (dm_reporter d') = rp_jobs (dm_reporter d)
    ∧ rp_events (dm_reporter d') = rp_events (dm_reporter d) ++ [event]
    ∧ ((∃ message, event = EvError message)
       ∨ ∃ s, event = EvShareUpdated s ∧ seed_reports library_root input chunk_size (dm_world d) (dm_world d') (ShareAdded s)).
Proof.
  intros Harr Hsize Hh Hsz.
  assert (wp (seed_job (E := Empty_set) show_file show_network library_root arrival noticed input chunk_size)
    (λ _ d', ∃ event, keeps (etle_files library_root) (dm_world d) (dm_world d')
       ∧ dm_queue d' = dm_queue d ∧ rp_jobs (dm_reporter d') = rp_jobs (dm_reporter d)
       ∧ rp_events (dm_reporter d') = rp_events (dm_reporter d) ++ [event]
       ∧ ((∃ message, event = EvError message)
          ∨ ∃ s, event = EvShareUpdated s ∧ seed_reports library_root input chunk_size (dm_world d) (dm_world d') (ShareAdded s)))
    (λ _ _, False) d) as Hjob.
  { unfold seed_job. wp_simpl. apply wp_on_files. wp_use wp_run_seed_file_command; [done..| |done].
    intros response w' [Hk Hr]. pose proof Hr as Hr'. destruct Hr as [[message ->]|(s & _ & _ & _ & -> & _)]; apply wp_on_reporter; eexists;
      (split_and!; [exact Hk|done|done|reflexivity|]); [left; by eexists|right; by exists s]. }
  destruct (wp_run _ _ _ _ Hjob) as [([] & d' & Hrun & event & Hev)|(? & ? & _ & [])]. by exists d', event.
Qed.

(** * Samples *)
Import Toy WireSample StateSample DiskSample DiscoverySample.
Module DaemonSample.
Definition reporter : Reporter := mkReporter ∅ ∅ [].
Definition daemon (w : World) : Daemon := mkDaemon (mkUdp w [] [] []) reporter [] 0.
Definition request : DownloadRequest :=
  mkDownloadRequest DiscoverySample.share_id [] None 0 4 0 0 0 None.
Definition show_io (_ : io_kind) : string := "io".
Definition show_file (_ : FileError) : string := "file".
Definition show_network (_ : NetworkError) : string := "network".
End DaemonSample.

(** A seed, then a listing: the share is there and complete (the sample file is read in
    short reads, hence four chunks). *)
Example seed_then_list :
  let run := (do! seed_job (E := Empty_set) DaemonSample.show_file DaemonSample.show_network SeedSample.root
                SeedSample.arrival false SeedSample.input 4 in
              handle_async DaemonSample.show_file SeedSample.root ListShares) (DaemonSample.daemon SeedSample.world) in
  match run with
  | (Ok (Shares [s]), d) =>
      bool_decide ((is_name s, is_completed_chunks s, is_total_chunks s, is_mode s, rp_events (dm_reporter d))
                   = ("hello.txt"%string, 4, 4, Some "seeding"%string, [EvShareUpdated s]))
  | _ => false
  end = true.
Proof. by vm_compute. Qed.


Lemma seed_job_correct_witness :
  let d := DaemonSample.daemon SeedSample.world in
  ∃ d' event, seed_job (E := Empty_set) DaemonSample.show_file DaemonSample.show_network SeedSample.root
      SeedSample.arrival false SeedSample.input 4 d = (Ok tt, d')
    ∧ keeps (etle_files SeedSample.root) (dm_world d) (dm_world d')
    ∧ dm_queue d' = dm_queue d ∧ rp_jobs (dm_reporter d') = rp_jobs (dm_reporter d)
    ∧ rp_events (dm_reporter d') = rp_events (dm_reporter d) ++ [event]
    ∧ ((∃ message, event = EvError message)
       ∨ ∃ s, event = EvShareUpdated s ∧ seed_reports SeedSample.root SeedSample.input 4 (dm_world d) (dm_world d') (ShareAdded s)).
Proof.
  apply seed_job_correct.
  - intros l. symmetry. apply Permutation_rev.
  - by_decide.
  - intros n f Hf. discriminate Hf.
  - vm_compute. discriminate.
Defined.
