(* ===== verification/Server.v ===== *)
(** The daemon's endpoint and its clients ([src/src/ipc/server/listener.rs],
    [cleanup.rs], [events.rs] and the clients of [src/src/ipc]): binding the socket,
    the loop over connections with the jobs between them, and what the two ends of a
    connection see of each other.

    A run of the server is a list of turns: each accepts one connection, or lets one
    of the queued jobs run. *)
From stdpp Require Import base tactics list countable strings gmap relations.
From Stdlib Require Import ZArith Lia.
From S2P Require Import Prelude Bytes World Files Extern Crypto Descriptor Chunker State Library Codec Handshake DownloadState Reconstruct Download Swarm Seed Discovery Ipc Output Progress Daemon.
Local Open Scope Z_scope.
Local Open Scope etle_scope.

(** * The socket *)

(** [UnixListener::bind]: the entry must not exist; it is modelled as an empty file. *)
Definition bind_socket (p : path) : io unit :=
  faulty no_effect (λ w,
    if path_exists p w then (Err OtherIo, w)
    else if is_dir_in (w_fs w) (parent_or_empty p)
    then (Ok tt, set_fs (<[p := File []]> (w_fs w)) w)
    else (Err NotFound, w)).

Definition bind_ipc_listener (socket_path : path) : ipc unit :=
  do! match path_parent socket_path with
      | Some parent => map_err IpcIo (create_dir_all parent)
      | None => ret tt
      end in
  let! there := gets (path_exists socket_path) in
  do! (if there then map_err IpcIo (remove_file socket_path) else ret tt) in
  map_err IpcIo (bind_socket socket_path).

(** [Drop for IpcSocketCleanup] *)
Definition IpcSocketCleanup_drop {E} (socket_path : path) : M World E unit :=
  let! _ := try_ (remove_file socket_path) in
  ret tt.

(** * The loop *)

(** The choices made outside the program while a job runs (see [Daemon]). *)
Record Choices := mkChoices {
  ch_arrival : list SeedPlainChunk → list SeedPlainChunk;
  ch_noticed : bool;
  ch_schedule : list ChunkMeta → list ChunkMeta;
  ch_picks : nat → nat;
  ch_interfaces : result io_kind (list IfAddr);
}.
Inductive turn :=
  | Connection
  | RunJob (index : nat) (choices : Choices).

Section server.
Context `{Blake3, X25519, Aead} `{Bincode WireMessage} `{DiskFormat} `{Bincode DiscoveryMessage}.
Context `{Bincode IpcCommand, Bincode IpcResponse}.
Context (show_io : io_kind → string) (show_file : FileError → string) (show_network : NetworkError → string).
Context (library_root : path).

Definition run_queued (index : nat) (c : Choices) : M Daemon IpcError unit :=
  let! queue := gets dm_queue in
  match queue !! index with
  | Some job =>
      do! modify (set_queue (take index queue ++ drop (S index) queue)) in
      map_err (Empty_set_rect (λ _, IpcError))
        (run_job show_io show_file show_network library_root (ch_arrival c) (ch_noticed c) (ch_schedule c)
           (ch_picks c) (ch_interfaces c) job)
  | None => ret tt
  end.

(** [loop { .. }]; the daemon is still running when the turns are used up. *)
Fixpoint serve_turns (turns : list turn) : M Daemon IpcError unit :=
  match turns with
  | [] => diverge
  | Connection :: turns =>
      let! should_shutdown := once show_file library_root in
      if (should_shutdown : bool) then ret tt else serve_turns turns
  | RunJob index c :: turns =>
      do! run_queued index c in
      serve_turns turns
  end.

Definition forever (socket_path : path) (turns : list turn) : M Daemon IpcError unit :=
  do! on_files (bind_ipc_listener socket_path) in
  let! r := try_ (serve_turns turns) in
  do! on_files (IpcSocketCleanup_drop socket_path) in
  lift_result r.
End server.

(** * One connection *)
Section connection.
Context `{Blake3} `{DiskFormat} `{Bincode IpcCommand, Bincode IpcResponse}.
Context (show_file : FileError → string) (library_root : path).

Global Instance same_but_stream_preorder : PreOrder same_but_stream.
Proof.
  split; [by intros d|]. intros d1 d2 d3 (A1 & A2 & A3 & A4 & A5 & A6 & A7) (B1 & B2 & B3 & B4 & B5 & B6 & B7).
  split_and!; congruence.
Qed.

(** How the answer to a client ends: sent, given up because the client is gone, or an
    error of the connection. *)
Definition response_sent (response : IpcResponse) (stop : bool) (d d' : Daemon) (r : result IpcError bool) : Prop :=
  same_but_stream d d'
  ∧ ∃ out, w_out (dm_world d') = w_out (dm_world d) ++ out
    ∧ match ipc_frame response with
      | Ok f => r = Ok stop ∧ out = f
          ∨ ¬ no_faults (dm_world d) ∧ out `prefix_of` f
            ∧ ∃ k, r = if is_disconnected_client (IpcIo k) then Ok stop else Err (IpcIo k)
      | Err e => out = [] ∧ r = if is_disconnected_client e then Ok stop else Err e
      | _ => False
      end.

Definition connection_outcome (d d' : Daemon) (r : result IpcError bool) : Prop :=
  (∃ e, r = Err e ∧ same_but_stream d d')
  ∨ r = Ok false ∧ same_but_stream (add_subscriber d) d'
  ∨ ∃ command d1 response d2,
      command ≠ SubscribeEvents ∧ same_but_stream d d1
      ∧ answered show_file library_root command d1 response d2
      ∧ response_sent response (bool_decide (command = Shutdown)) d2 d' r.

Lemma same_stream d w' :
  w_env w' = w_env (dm_world d) → w_fs w' = w_fs (dm_world d) → same_but_stream d (set_udp (set_world w' (dm_udp d)) d).
Proof. intros He Hf. by split_and!. Qed.

Lemma wp_respond response stop d :
  wp (on_files (send_response_or_ignore_closed_client response stop))
    (λ b d', response_sent response stop d d' (Ok b)) (λ e d', response_sent response stop d d' (Err e)) d.
Proof.
  apply wp_on_files. unfold send_response_or_ignore_closed_client. wp_simpl. apply wp_send_ipc.
  - intros f k out w' Hf (He & Hfs & _ & Ho & _) Hp Hn. wp_simpl.
    destruct (is_disconnected_client (IpcIo k)) eqn:Hk; wp_simpl; (split; [by apply same_stream|]);
      exists out; rewrite Hf; (split; [done|]); right; (split_and!; [done|done|]); exists k; by rewrite Hk.
  - intros e Hf. wp_simpl. destruct (is_disconnected_client e) eqn:He; wp_simpl; (split; [by apply same_stream|]);
      exists []; rewrite Hf, app_nil_r; (split; [done|]); by rewrite He.
  - intros f w' Hf (He & Hfs & _ & Ho & _). wp_simpl. split; [by apply same_stream|]. exists f. rewrite Hf. split; [done|by left].
Qed.

Lemma wp_accept_any (Q : socket_addr → World → Prop) (R : io_kind → World → Prop) w :
  (∀ k w', w_env w' = w_env w → w_fs w' = w_fs w → R k w') →
  (∀ addr w', w_env w' = w_env w → w_fs w' = w_fs w → Q addr w') → wp accept Q R w.
Proof.
  intros HR HQ. apply wp_faulty; [by intros f _; apply HR|]. intros _. unfold wp. cbn [tick w_env w_step].
  destruct (env_accept (w_env w) (S (w_step w))) as [[inbound addr]| | |]; first [by apply HQ|by apply HR].
Qed.

Lemma wp_once d :
  wp (once show_file library_root) (λ stop d', connection_outcome d d' (Ok stop)) (λ e d', connection_outcome d d' (Err e)) d.
Proof.
  unfold once. wp_simpl. apply wp_on_files. wp_simpl. apply wp_accept_any.
  { intros k w' He Hf. left. eexists. split; [done|]. by apply same_stream. }
  intros _ w' He Hf. apply (same_stream d) in He as Hd1; [|done]. set (d1 := set_udp _ d) in *. clearbody d1. clear He Hf w'.
  wp_simpl. apply wp_on_files.
  assert (∀ post w', recv_step (dm_world d1) post w' → same_but_stream d (set_udp (set_world w' (dm_udp d1)) d1)) as Hrx.
  { intros post w' (He & Hf & _). etrans; [exact Hd1|]. by apply same_stream. }
  apply wp_receive_ipc_any; [intros e _ post w' _ Hr; left; eexists; split; [done|by eapply Hrx]|].
  intros command _ post w' _ _ Hr. apply Hrx in Hr. set (d2 := set_udp _ d1) in *. clearbody d2. case_decide as Hsub.
  - wp_simpl. right; left. split; [done|]. destruct Hr as (A1 & A2 & A3 & A4 & A5 & A6 & A7). split_and!; unfold dm_world in *; cbn; congruence.
  - wp_simpl. wp_use (wp_handle_async show_file library_root (E := IpcError)); [|done]. intros response d3 Hans.
    wp_use wp_respond; intros r d4 Hres; right; right; by exists command, d2, response, d3.
Qed.
End connection.

(** A client that closes before its command is complete: the loop ends with its error. *)
Section unreadable.
Context `{Blake3, X25519, Aead} `{Bincode WireMessage} `{DiskFormat} `{Bincode DiscoveryMessage}.
Context `{Bincode IpcCommand, Bincode IpcResponse}.
Context (show_io : io_kind → string) (show_file : FileError → string) (show_network : NetworkError → string).
Context (library_root : path).

Lemma closed_client_ends_server (command : IpcCommand) f part addr turns d :
  no_faults (dm_world d) → ipc_frame command = Ok f → part `prefix_of` f → part ≠ f →
  env_accept (w_env (dm_world d)) (S (w_step (dm_world d))) = Ok (part, addr) →
  wp (serve_turns show_io show_file show_network library_root (Connection :: turns))
    (λ _ _, False) (λ e d', e = IpcIo UnexpectedEof ∧ same_but_stream d d') d.
Proof.
  intros Hn Hf Hpre Hne Hacc. cbn [serve_turns]. wp_simpl. unfold once. wp_simpl. apply wp_on_files. wp_simpl.
  eapply wp_accept_ok; [done|exact Hacc|]. wp_simpl. apply wp_on_files.
  eapply (wp_receive_ipc_cut command); [exact Hf|done|done|done|]. intros w' Hst. split; [done|].
  destruct Hst as (He & Hfs & _). by apply (same_stream d w').
Qed.
End unreadable.

(** * The endpoint *)
Definition socket_only (socket_path : path) (q : path) : Prop := q = socket_path.

Lemma wp_bind_socket p w :
  wp (bind_socket p) (λ _ w', keeps (socket_only p) w w' ∧ file_at (w_fs w') p = Some []) (λ _ w', keeps (socket_only p) w w') w.
Proof.
  apply wp_faulty; [by intros f _|]. intros _. unfold wp. destruct (path_exists _ _); [done|]. destruct (is_dir_in _ _); [|done].
  split; [|apply file_at_insert_eq]. split; [done|]. intros q Hq. apply file_at_insert_ne. by intros ->.
Qed.

Lemma removed_socket_only p w w' : fs_step w (delete p (w_fs w)) w' → keeps (socket_only p) w w'.
Proof.
  intros Hst. eapply fs_step_keeps; [exact Hst|]. intros q Hq. rewrite file_at_delete, decide_False; [done|]. by intros ->.
Qed.

Lemma wp_bind_ipc_listener p w :
  wp (bind_ipc_listener p) (λ _ w', keeps (socket_only p) w w' ∧ file_at (w_fs w') p = Some [])
    (λ _ w', keeps (socket_only p) w w') w.
Proof.
  unfold bind_ipc_listener. wp_simpl.
  apply wp_mono with (Q := λ _ w1, keeps (socket_only p) w w1) (R := λ _ w1, keeps (socket_only p) w w1); [|intros [] w1 Hw1|done].
  { destruct (path_parent p); wp_simpl; [|done]. wp_use wp_create_dir_all_keeps; intros; by apply keeps_nofile. }
  wp_simpl. apply wp_mono with (Q := λ _ w2, keeps (socket_only p) w w2) (R := λ _ w2, keeps (socket_only p) w w2);
    [|intros [] w2 Hw2; wp_simpl|done].
  { destruct (path_exists p w1); wp_simpl; [|done]. apply wp_remove_file.
    - intros k w2 Hst _. etrans; [exact Hw1|by apply stepped_keeps].
    - intros data w2 _ Hst. etrans; [exact Hw1|by apply removed_socket_only]. }
  wp_use wp_bind_socket; [intros [] w3 [Hw3 Hp]; split; [|done]|intros k w3 Hw3]; by etrans.
Qed.

Lemma wp_socket_drop {E} p w :
  wp (IpcSocketCleanup_drop (E := E) p)
    (λ _ w', keeps (socket_only p) w w' ∧ (no_faults w → file_at (w_fs w') p = None)) (λ _ _, False) w.
Proof.
  unfold IpcSocketCleanup_drop. wp_simpl. apply wp_remove_file.
  - intros k w' Hst Hnone. wp_simpl. split; [by apply stepped_keeps|]. by rewrite (stepped_fs _ _ Hst).
  - intros data w' _ Hst. wp_simpl. split.
    + by apply removed_socket_only.
    + intros _. rewrite (fs_step_fs _ _ _ Hst), file_at_delete. by rewrite decide_True.
Qed.

(** * Runs of the server *)
Section runs.
Context `{Blake3, X25519, Aead} `{Bincode WireMessage} `{DiskFormat} `{Bincode DiscoveryMessage}.
Context `{Bincode IpcCommand, Bincode IpcResponse}.
Context (show_io : io_kind → string) (show_file : FileError → string) (show_network : NetworkError → string).
Context (library_root : path).

Abbreviation steps := (rtc (daemon_step show_io show_file show_network library_root)).

Lemma run_queued_steps index c d :
  match run_queued show_io show_file show_network library_root index c d with
  | (Ok _, d') => steps d d'
  | (Err _, _) => False
  | _ => True
  end.
Proof.
  unfold run_queued, bind, gets. destruct (dm_queue d !! index) as [job|] eqn:Hjob; [|by apply rtc_refl]. cbn [modify].
  unfold map_err. match goal with |- context [run_job ?a ?b ?c ?e ?f ?g ?h ?i ?j job ?s] =>
    destruct (run_job (E := Empty_set) a b c e f g h i j job s) as [[[]|[]| |] d'] eqn:Hrun end; [|done..]. apply rtc_once. eapply step_job; [by symmetry; apply take_drop_middle|exact Hrun].
Qed.

Lemma serve_turns_steps turns d r d' :
  serve_turns show_io show_file show_network library_root turns d = (r, d') → r = Ok tt ∨ (∃ e, r = Err e) → steps d d'.
Proof.
  revert d. induction turns as [|t turns IH]; intros d; [by intros [= <- <-] [|[]]|].
  destruct t as [|index c]; cbn [serve_turns]; unfold bind.
  - pose proof (step_connection show_io show_file show_network library_root d) as Hstep.
    destruct (once show_file library_root d) as [[[]|e| |] d1]; cbn [snd] in Hstep.
    + intros [= <- <-] _. by apply rtc_once.
    + intros Hrun Hr. eapply rtc_l; [exact Hstep|by apply IH].
    + intros [= <- <-] _. by apply rtc_once.
    + by intros [= <- <-] [|[]].
    + by intros [= <- <-] [|[]].
  - pose proof (run_queued_steps index c d) as Hstep.
    destruct (run_queued _ _ _ _ index c d) as [[[]|e| |] d1]; [|done|by intros [= <- <-] [|[]]..].
    intros Hrun Hr. etrans; [exact Hstep|by apply IH].
Qed.
Lemma forever_inv socket_path turns d r d' :
  forever show_io show_file show_network library_root socket_path turns d = (r, d') → r = Ok tt ∨ (∃ e, r = Err e) →
  (∃ e w1, bind_ipc_listener socket_path (dm_world d) = (Err e, w1) ∧ r = Err e ∧ d' = set_udp (set_world w1 (dm_udp d)) d)
  ∨ ∃ w1 d2 w3, bind_ipc_listener socket_path (dm_world d) = (Ok tt, w1)
      ∧ serve_turns show_io show_file show_network library_root turns (set_udp (set_world w1 (dm_udp d)) d) = (r, d2)
      ∧ IpcSocketCleanup_drop (E := IpcError) socket_path (dm_world d2) = (Ok tt, w3)
      ∧ d' = set_udp (set_world w3 (dm_udp d2)) d2.
Proof.
  unfold forever, bind, on_files, on_udp, on_world, try_. change (u_world (dm_udp d)) with (dm_world d).
  destruct (bind_ipc_listener socket_path (dm_world d)) as [[[]|e| |] w1];
    [|intros [= <- <-] _; left; by exists e, w1|by intros [= <- <-] [|[]]..].
  destruct (serve_turns show_io show_file show_network library_root turns _) as [r2 d2] eqn:Hrun.
  assert (∃ w3, IpcSocketCleanup_drop (E := IpcError) socket_path (dm_world d2) = (Ok tt, w3)) as [w3 Hw3].
  { destruct (wp_run _ _ _ _ (wp_socket_drop (E := IpcError) socket_path (dm_world d2))) as [([] & w3 & ? & _)|(? & ? & _ & [])].
    by exists w3. }
  destruct r2 as [u|e| |]; [| |by intros [= <- <-] [|[]]..]; change (u_world (dm_udp d2)) with (dm_world d2); rewrite Hw3;
    intros [= <- <-] _; right; by exists w1, d2, w3.
Qed.
End runs.

(** * Subscriptions *)
Section subscription.
Context `{BincodeLaws IpcCommand, BincodeLaws IpcResponse, BincodeLaws IpcEvent}.

Definition ack_frame : result IpcError bytes := ipc_frame (Ack "event subscription started").
Definition event_frames (received : list (IpcEvent + Z)) : list (result IpcError bytes) :=
  (λ e, ipc_frame (event_of e)) <$> received.

(** A sequence of frames was sent as far as the stream and the format allowed. *)
Definition frames_sent (w : World) (frames : list (result IpcError bytes)) (w' : World) (r : result IpcError unit) : Prop :=
  ∃ whole rest part, frames = (Ok <$> whole) ++ rest ∧ sent w (concat whole ++ part) w'
    ∧ match rest with
      | [] => part = [] ∧ r = Ok tt
      | Ok f :: _ => part `prefix_of` f ∧ ¬ no_faults w
          ∧ ∃ k, r = if is_disconnected_client (IpcIo k) then Ok tt else Err (IpcIo k)
      | Err e :: _ => part = [] ∧ r = if is_disconnected_client e then Ok tt else Err e
      | _ => False
      end.

Lemma frames_sent_cons w f frames w1 w' r :
  sent w f w1 → frames_sent w1 frames w' r → frames_sent w (Ok f :: frames) w' r.
Proof.
  intros Hs (whole & rest & part & -> & Hs' & Hrest). exists (f :: whole), rest, part. split; [done|]. split.
  - cbn [concat]. rewrite <- app_assoc. by eapply sent_trans.
  - destruct rest as [|[]]; [done| |done..]. by rewrite (sent_no_faults _ _ _ Hs).
Qed.

(** One message, then the rest of them. *)
Lemma wp_send_then {T} `{Bincode T} (m : T) frames (k : ipc unit) w0 :
  (∀ w, wp k (λ _ w', frames_sent w frames w' (Ok tt)) (λ e w', frames_sent w frames w' (Err e)) w) →
  wp (let! r := try_ (E' := IpcError) (send_ipc_message m) in
      match r with
      | Ok _ => k
      | Err error => if is_disconnected_client error then ret tt else throw error
      | _ => panic
      end)
    (λ _ w', frames_sent w0 (ipc_frame m :: frames) w' (Ok tt)) (λ e w', frames_sent w0 (ipc_frame m :: frames) w' (Err e)) w0.
Proof.
  intros Hk. wp_simpl. apply wp_send_ipc.
  - intros f kind out w' Hf Hs Hp Hn. wp_simpl. destruct (is_disconnected_client (IpcIo kind)) eqn:Hkind; wp_simpl;
      exists [], (Ok f :: frames), out; rewrite Hf; (split_and!; [done|done|done|done|]); exists kind; by rewrite Hkind.
  - intros e Hf. wp_simpl. destruct (is_disconnected_client e) eqn:He; wp_simpl;
      exists [], (Err e :: frames), []; rewrite Hf; (split_and!; [done|by apply stepped_sent|done|]); by rewrite He.
  - intros f w1 Hf Hs. wp_simpl. rewrite Hf. wp_use Hk; intros ? w' Hs'; by eapply frames_sent_cons.
Qed.

Lemma wp_serve_subscription received w :
  wp (serve_subscription received) (λ _ w', frames_sent w (ack_frame :: event_frames received) w' (Ok tt))
    (λ e w', frames_sent w (ack_frame :: event_frames received) w' (Err e)) w.
Proof.
  unfold serve_subscription. apply wp_send_then. clear w. induction received as [|e received IH]; intros w; cbn [forward_events].
  - wp_simpl. exists [], [], []. split_and!; [done|by apply stepped_sent|done|done].
  - by apply wp_send_then.
Qed.
(** An unsendable message is an error of the format, not of the stream. *)
Lemma ipc_frame_Err {T} `{Bincode T} (m : T) e : ipc_frame m = Err e → is_disconnected_client e = false.
Proof.
  unfold ipc_frame. destruct (bincode_encode m) as [payload|]; cbn [ok_or result_bind]; [|by intros [= <-]].
  unfold validate_ipc_frame_len. repeat case_decide; cbn [result_bind]; by intros [= <-].
Qed.

(** The frames of the messages arrived whole, and of the next at most a proper part. *)
Definition arrived {T} `{Bincode T} (messages : list T) (out : bytes) : Prop :=
  ∃ fs part, Forall2 (λ m f, ipc_frame m = Ok f) messages fs ∧ out = concat fs ++ part
    ∧ (part = [] ∨ ∃ (m : T) f, ipc_frame m = Ok f ∧ part `prefix_of` f ∧ part ≠ f).

Lemma wp_receive_none {T} `{Bincode T} (Q : T → World → Prop) (R : IpcError → World → Prop) w :
  w_in w = [] ∨ (∃ (m : T) f, ipc_frame m = Ok f ∧ w_in w `prefix_of` f ∧ w_in w ≠ f) → no_faults w →
  (∀ w', recv_step w [] w' → R (IpcIo UnexpectedEof) w') → wp (receive_ipc_message (T := T)) Q R w.
Proof.
  intros [Hnil|(m & f & Hf & Hp & Hne)] Hn HR; [|by eapply wp_receive_ipc_cut]. unfold receive_ipc_message. wp_simpl.
  unfold wp. rewrite read_exact_eof; [by apply HR|done|]. rewrite Hnil. cbn. lia.
Qed.

Lemma wp_event_loop es w seen fuel :
  arrived es (w_in w) → no_faults w → (length (w_in w) < fuel)%nat →
  wp (mloop fuel event_round tt) (λ _ _, False)
    (λ e s, e = IpcIo UnexpectedEof ∧ s.2 = seen ++ es ∧ w_out s.1 = w_out w) (w, seen).
Proof.
  intros (fs & part & Hfs & Hin & Hpart). revert w seen fuel Hin.
  induction Hfs as [|e f es fs Hf _ IH]; intros w seen fuel Hin Hn Hfuel; (destruct fuel as [|fuel]; [lia|]);
    cbn [mloop]; unfold event_round; wp_simpl; unfold on_stream at 1, wp at 1.
  - assert (wp (receive_ipc_message (T := IpcEvent)) (λ _ _, False) (λ e w', e = IpcIo UnexpectedEof ∧ w_out w' = w_out w) w) as Hr.
    { apply wp_receive_none; [by rewrite Hin|done|]. intros w' (_ & _ & _ & Ho & _). by split. }
    cbn [fst snd]. unfold wp in Hr. destruct (receive_ipc_message w) as [[]  w']; try done. destruct Hr as [-> Ho].
    cbn. by rewrite app_nil_r.
  - assert (wp (receive_ipc_message (T := IpcEvent)) (λ m w', m = e ∧ recv_step w (concat fs ++ part) w') (λ _ _, False) w) as Hr.
    { cbn [concat] in Hin. rewrite <- app_assoc in Hin. eapply wp_receive_ipc; [exact Hf|exact Hin|by intros k w' []|by intros w']. }
    cbn [fst snd]. unfold wp in Hr. destruct (receive_ipc_message w) as [[]  w']; try done. destruct Hr as [-> Hst].
    wp_simpl. cbn [fst snd]. pose proof (recv_step_in _ _ _ Hst) as Hin'. apply ipc_frame_length in Hf.
    assert (no_faults w') as Hn' by (by apply (recv_step_no_faults _ _ _ Hst)).
    assert (length (w_in w') < fuel)%nat as Hfuel'
      by (rewrite Hin'; rewrite Hin in Hfuel; cbn [concat] in Hfuel; rewrite !length_app in *; lia).
    wp_use (IH w' (seen ++ [e]) fuel Hin' Hn' Hfuel'); [done|].
    intros err [w2 seen2] (-> & Hs & Ho). cbn [fst snd] in *. split_and!; [done|by rewrite Hs, <- app_assoc|].
    rewrite Ho. apply Hst.
Qed.
(** What the client makes of the server's output. *)
Lemma frames_sent_arrived w received fa w' r :
  ack_frame = Ok fa → w_out w = [] → frames_sent w (ack_frame :: event_frames received) w' r →
  (w_out w' `prefix_of` fa ∧ w_out w' ≠ fa ∧ ¬ no_faults w)
  ∨ ∃ k out, w_out w' = fa ++ out ∧ (k ≤ length received)%nat ∧ arrived (event_of <$> take k received) out
      ∧ (no_faults w → match received !! k with
                       | None => r = Ok tt
                       | Some e => ∃ err, ipc_frame (event_of e) = Err err ∧ r = Err err
                       end).
Proof.
  intros Hack Hw (whole & rest & part & Hframes & Hs & Hrest). rewrite (sent_out _ _ _ Hs), Hw. cbn [app].
  assert (∀ fs l, event_frames l = Ok <$> fs → Forall2 (λ m f, ipc_frame m = Ok f) (event_of <$> l) fs) as Hall.
  { induction fs as [|f fs IH]; intros [|e l]; try done; cbn. intros [= He Hl]. constructor; [done|by apply IH]. }
  destruct whole as [|f whole]; cbn in Hframes.
  { subst rest. rewrite Hack in Hrest. destruct Hrest as (Hp & Hn & _). cbn [concat app].
    destruct (decide (part = fa)) as [->|]; [right|by left]. exists 0%nat, []. split_and!; [by rewrite app_nil_r|lia| |done].
    exists [], []. split_and!; [constructor|done|by left]. }
  injection Hframes as Hfa Hev. assert (f = fa) as -> by congruence. clear Hfa. cbn [concat]. right. set (n := length whole).
  assert (event_frames (take n received) = Ok <$> whole) as Htake.
  { unfold event_frames in *. rewrite fmap_take, Hev. by rewrite take_app_length' by (by rewrite length_fmap). }
  assert (event_frames (drop n received) = rest) as Hdrop.
  { unfold event_frames in *. rewrite fmap_drop, Hev. by rewrite drop_app_length' by (by rewrite length_fmap). }
  assert (n ≤ length received)%nat as Hle.
  { apply (f_equal length) in Hev. unfold event_frames in Hev. rewrite length_app, !length_fmap in Hev. lia. }
  assert (received !! n = head (drop n received)) as Hhead by (by rewrite head_lookup, lookup_drop, Nat.add_0_r).
  destruct (drop n received) as [|e l] eqn:Hd; subst rest; cbn [event_frames fmap list_fmap] in Hrest.
  { destruct Hrest as [-> ->]. exists n, (concat whole ++ []). split_and!; [by rewrite app_assoc|done| |by rewrite Hhead].
    exists whole, []. split_and!; [by apply Hall|done|by left]. }
  destruct (ipc_frame (event_of e)) as [f|err| |] eqn:He; try done.
  - destruct Hrest as (Hp & Hn & _). destruct (decide (part = f)) as [->|Hne].
    + exists (S n), (concat (whole ++ [f]) ++ []). split_and!; [by rewrite concat_app; cbn; rewrite !app_nil_r, app_assoc| | |by intros].
      * apply lookup_lt_Some in Hhead. lia.
      * exists (whole ++ [f]), []. split_and!; [|done|by left]. apply Hall. unfold event_frames in *.
        by erewrite take_S_r, fmap_app, Htake, fmap_app by exact Hhead; cbn; rewrite He.
    + exists n, (concat whole ++ part). split_and!; [by rewrite app_assoc|done| |by intros].
      exists whole, part. split_and!; [by apply Hall|done|]. right. by exists (event_of e), f.
  - destruct Hrest as [-> Hr]. exists n, (concat whole ++ []). split_and!; [by rewrite app_assoc|done| |].
    + exists whole, []. split_and!; [by apply Hall|done|by left].
    + intros _. rewrite Hhead. exists err. split; [done|]. by rewrite Hr, (ipc_frame_Err _ _ He).
Qed.
Lemma wp_on_stream {E A} (m : M World E A) (Q : A → World * list IpcEvent → Prop) (R : E → World * list IpcEvent → Prop) s :
  wp m (λ a w, Q a (w, s.2)) (λ e w, R e (w, s.2)) s.1 → wp (on_stream m) Q R s.
Proof. unfold wp, on_stream. by destruct (m s.1) as [[] ?]. Qed.

Lemma wp_subscribe fc fa es inbound socket w :
  no_faults w → ipc_frame SubscribeEvents = Ok fc → ack_frame = Ok fa →
  env_connect (w_env w) (S (w_step w)) socket = Ok inbound →
  (inbound `prefix_of` fa ∧ inbound ≠ fa ∧ es = []) ∨ (∃ out, inbound = fa ++ out ∧ arrived es out) →
  wp (subscribe_ipc_events socket) (λ _ _, False) (λ e s, e = IpcIo UnexpectedEof ∧ s.2 = es ∧ w_out s.1 = fc) (w, []).
Proof.
  intros Hn Hfc Hack Hconn Hin. unfold subscribe_ipc_events. wp_simpl. apply wp_on_stream. cbn [fst snd]. wp_simpl.
  apply wp_faulty; [intros f Hf; by apply fault_not_no_faults in Hf|]. intros _. unfold wp at 1. cbn [tick w_env w_step].
  rewrite Hconn. set (w1 := set_out [] (set_in inbound _)). assert (no_faults w1) as Hn1 by done.
  assert (w_in w1 = inbound ∧ w_out w1 = []) as [Hin1 Hout1] by done. clearbody w1. cbn [from_option]. apply wp_bind, wp_on_stream. cbn [fst snd].
  apply wp_send_ipc; [by intros f k out w' _ _ _ []|congruence|]. intros f w2 Hf Hs. assert (f = fc) as -> by congruence.
  pose proof Hs as (_ & _ & Hin2 & Hout2 & _). cbn in Hin2, Hout2. rewrite Hin1 in Hin2. rewrite Hout1 in Hout2. cbn in Hout2.
  apply (sent_no_faults _ _ _ Hs) in Hn1 as Hn2. wp_simpl. apply wp_on_stream. cbn [fst snd].
  destruct Hin as [(Hp & Hne & ->)|(out & -> & Harr)].
  - eapply (wp_receive_ipc_cut (Ack "event subscription started")); [exact Hack|by rewrite Hin2|by rewrite Hin2|done|].
    intros w3 (_ & _ & _ & Ho & _). split_and!; [done|done|]. cbn in *. congruence.
  - eapply wp_receive_ipc; [exact Hack|exact Hin2|by intros k w' []|]. intros w3 Hst. wp_simpl. cbn [fst].
    pose proof (recv_step_in _ _ _ Hst) as Hin3.
    assert (no_faults w3) as Hn3 by (by apply (recv_step_no_faults _ _ _ Hst)).
    wp_use (wp_event_loop es w3 [] (S (length (w_in w3)))); [by rewrite Hin3|done|lia|done|].
    intros e [w4 seen] (-> & -> & Ho). split_and!; [done|done|]. destruct Hst as (_ & _ & _ & Ho3 & _). cbn in *. congruence.
Qed.
End subscription.

(** * The theorems *)
Section theorems.
Context `{Blake3, X25519, Aead} `{Bincode WireMessage} `{DiskFormat} `{Bincode DiscoveryMessage}.
Context `{BincodeLaws IpcCommand, BincodeLaws IpcResponse, BincodeLaws IpcEvent}.
Context (show_io : io_kind → string) (show_file : FileError → string) (show_network : NetworkError → string).
Context (library_root : path).

(** The two ends of a connection. *)
Lemma ipc_exchange command fc rest addr d :
  no_faults (dm_world d) → ipc_frame command = Ok fc → command ≠ SubscribeEvents →
  env_accept (w_env (dm_world d)) (S (w_step (dm_world d))) = Ok (fc ++ rest, addr) →
  ∃ d1 response d2, same_but_stream d d1 ∧ answered show_file library_root command d1 response d2
    ∧ ∀ fr, ipc_frame response = Ok fr →
        (∃ d', once show_file library_root d = (Ok (bool_decide (command = Shutdown)), d')
           ∧ same_but_stream d2 d' ∧ w_out (dm_world d') = fr)
        ∧ ∀ socket w rest', no_faults w → env_connect (w_env w) (S (w_step w)) socket = Ok (fr ++ rest') →
            ∃ w', send_ipc_command socket command w = (Ok response, w') ∧ w_out w' = fc ∧ w_fs w' = w_fs w.
Proof.
  intros Hn Hfc Hne Hacc.
  assert (wp (once show_file library_root)
    (λ b d', ∃ d1 response d2, same_but_stream d d1 ∧ answered show_file library_root command d1 response d2
       ∧ (∀ fr, ipc_frame response = Ok fr → b = bool_decide (command = Shutdown) ∧ same_but_stream d2 d' ∧ w_out (dm_world d') = fr))
    (λ e d', ∃ d1 response d2, same_but_stream d d1 ∧ answered show_file library_root command d1 response d2
       ∧ ∀ fr, ipc_frame response ≠ Ok fr) d) as Honce.
  { eapply wp_once_command; [done|exact Hfc|done|exact Hacc|]. intros d1 response d2 Hsame Hans Hout Henv.
    wp_use wp_respond; intros r d' (Hs & out & Ho & Hr); exists d1, response, d2; (split_and!; [done|done|]); intros fr Hfr;
      rewrite Hfr in Hr; destruct Hr as [[Hr ->]|(Hf & _)]; try done;
      try (destruct Hf; by apply (no_faults_env (dm_world d))).
    split; [congruence|]. by rewrite Ho, Hout. }
  assert (∀ response fr, ipc_frame response = Ok fr → ∀ socket w rest', no_faults w →
            env_connect (w_env w) (S (w_step w)) socket = Ok (fr ++ rest') →
            ∃ w', send_ipc_command socket command w = (Ok response, w') ∧ w_out w' = fc ∧ w_fs w' = w_fs w) as Hclient.
  { intros response fr Hfr socket w rest' Hw Hconn.
    destruct (wp_run _ _ _ _ (wp_send_command command fc response fr rest' socket w Hw Hfc Hfr Hconn)) as [(r & w' & Hrun & -> & ?)|(? & ? & _ & [])].
    by exists w'. }
  destruct (wp_run _ _ _ _ Honce) as [(b & d' & Hrun & d1 & response & d2 & Hs & Hans & Hk)|(e & d' & Hrun & d1 & response & d2 & Hs & Hans & Hk)];
    exists d1, response, d2; (split_and!; [done|done|]); intros fr Hfr; [|by apply Hk in Hfr].
  destruct (Hk fr Hfr) as (-> & Hs' & Ho). split; [by exists d'|by eapply Hclient].
Qed.



(** The events a daemon forwards reach the subscriber's callback, in order, each
    exactly once, and an event is never cut or invented: whatever fails on the
    daemon's side, a client that reads what was written has seen a prefix of them when
    its stream ends (a lag counts as the event that reports it). When nothing fails,
    the prefix is all of them, up to the first event that fits no frame, which ends the
    subscription with that error. *)
Theorem subscription_roundtrip received fa fc socket ws wc :
  ack_frame = Ok fa → ipc_frame SubscribeEvents = Ok fc → w_out ws = [] → no_faults wc →
  ∃ r ws', serve_subscription received ws = (r, ws') ∧ ((∃ u, r = Ok u) ∨ ∃ e, r = Err e)
    ∧ (env_connect (w_env wc) (S (w_step wc)) socket = Ok (w_out ws') →
       ∃ k wc', (k ≤ length received)%nat
         ∧ subscribe_ipc_events socket (wc, []) = (Err (IpcIo UnexpectedEof), (wc', event_of <$> take k received))
         ∧ w_out wc' = fc
         ∧ (no_faults ws → match received !! k with
                           | None => r = Ok tt
                           | Some e => ∃ err, ipc_frame (event_of e) = Err err ∧ r = Err err
                           end)).
Proof.
  intros Hack Hfc Hws Hwc.
  assert (∃ r ws', serve_subscription received ws = (r, ws') ∧ ((∃ u, r = Ok u) ∨ ∃ e, r = Err e)
            ∧ frames_sent ws (ack_frame :: event_frames received) ws' r) as (r & ws' & Hrun & Hr & Hsent).
  { destruct (wp_run _ _ _ _ (wp_serve_subscription received ws)) as [([] & ws' & Hrun & Hs)|(e & ws' & Hrun & Hs)];
      eexists _, ws'; eauto. }
  exists r, ws'. split_and!; [done|done|]. intros Hconn.
  apply (frames_sent_arrived _ _ fa) in Hsent; [|done|done].
  assert (∃ k, (k ≤ length received)%nat
    ∧ wp (subscribe_ipc_events socket) (λ _ _, False)
        (λ e s, e = IpcIo UnexpectedEof ∧ s.2 = event_of <$> take k received ∧ w_out s.1 = fc) (wc, [])
    ∧ (no_faults ws → match received !! k with
                      | None => r = Ok tt
                      | Some e => ∃ err, ipc_frame (event_of e) = Err err ∧ r = Err err
                      end)) as (k & Hk & Hsub & Hend).
  { destruct Hsent as [(Hp & Hne & Hf)|(k & out & Hout & Hk & Harr & Hend)]; [exists 0%nat|exists k];
      (split_and!; [lia| |done]); eapply wp_subscribe; eauto. }
  destruct (wp_run _ _ _ _ Hsub) as [(? & ? & _ & [])|(e & [wc' seen] & Hclient & -> & Hseen & Ho)]. cbn in Hseen, Ho.
  exists k, wc'. split_and!; [done| |done|done]. by rewrite Hclient, Hseen.
Qed.

End theorems.

(** * Samples *)
Import Toy WireSample StateSample DiskSample DiscoverySample IpcSample.
Module ServerSample.
Definition socket : path := ["run"%string; "etled.sock"%string].
Definition address : socket_addr := SocketAddr (IpV4 0) 0.
Definition frame {T} `{Bincode T} (m : T) : bytes := match ipc_frame m with Ok f => f | _ => [] end.

(** A world where every connection carries the given bytes. *)
Definition stream_world (inbound : bytes) : World :=
  {| w_env := {| env_fault _ := None; env_read _ := 0%nat; env_clock _ := 0; env_rng n len := Toy.array_of_Z len 1; env_connect _ _ := Ok inbound;
                 env_accept _ := Ok (inbound, address); env_pid := 7; env_parallelism := None |};
     w_step := 0; w_fs := ∅; w_in := []; w_out := []; w_progress := [] |}.
Definition daemon (inbound : bytes) : Daemon := mkDaemon (mkUdp (stream_world inbound) [] [] []) DaemonSample.reporter [] 0.
Definition received : list (IpcEvent + Z) := [inl ServerStopped; inr 3; inl (EvError "x")].
End ServerSample.

(** A pause is refused; the whole exchange, run. *)
Example pause_exchange :
  let '(stop, d) := once DaemonSample.show_file [] (ServerSample.daemon (ServerSample.frame (Pause DiscoverySample.share_id))) in
  bool_decide (stop = Ok false) && bool_decide ((send_ipc_command ServerSample.address (Pause DiscoverySample.share_id)
                   (ServerSample.stream_world (w_out (dm_world d)))).1
                = Ok (IpcErrorResponse "pause/resume control is not implemented yet")) = true.
Proof. by vm_compute. Qed.

(** A client that connects and closes ends the daemon. *)
Example closed_client :
  bool_decide ((forever DaemonSample.show_io DaemonSample.show_file DaemonSample.show_network [] ServerSample.socket
                  [Connection; Connection] (ServerSample.daemon [])).1 = Err (IpcIo UnexpectedEof)) = true.
Proof. by vm_compute. Qed.


Lemma subscription_roundtrip_witness :
  let ws := ServerSample.stream_world [] in
  let fa := ServerSample.frame (Ack "event subscription started") in
  let wc := ServerSample.stream_world (fa ++ concat ((λ e, ServerSample.frame (event_of e)) <$> ServerSample.received)) in
  ∃ r ws', serve_subscription ServerSample.received ws = (r, ws') ∧ ((∃ u, r = Ok u) ∨ ∃ e, r = Err e)
    ∧ (env_connect (w_env wc) (S (w_step wc)) ServerSample.address = Ok (w_out ws') →
       ∃ k wc', (k ≤ length ServerSample.received)%nat
         ∧ subscribe_ipc_events ServerSample.address (wc, [])
           = (Err (IpcIo UnexpectedEof), (wc', event_of <$> take k ServerSample.received))
         ∧ w_out wc' = ServerSample.frame SubscribeEvents
         ∧ (no_faults ws → match ServerSample.received !! k with
                           | None => r = Ok tt
                           | Some e => ∃ err, ipc_frame (event_of e) = Err err ∧ r = Err err
                           end)).
Proof.
  apply (subscription_roundtrip ServerSample.received (ServerSample.frame (Ack "event subscription started"))).
  - by vm_compute.
  - by vm_compute.
  - reflexivity.
  - by intros n.
Defined.

