(* ===== verification/Gui.v ===== *)
(** The graphical client's data ([src/src/gui/model.rs], [format.rs]): transfers, the
    state of the window in groups, the texts it shows, and the command built from the
    download form.

    A [String] of the source is a [string] of bytes in UTF-8; [trim] and
    [split_whitespace] work on its characters. How a path text is read ([PathBuf::from])
    is a parameter; an instant is a number of nanoseconds. Numbers are in binary64
    ([Progress]), printed with the exact digits of their value, halves to even. *)
From stdpp Require Import base tactics list countable strings gmap.
From Stdlib Require Import ZArith Lia SpecFloat.
From S2P Require Import Prelude Bytes World Text Files Extern Crypto Descriptor Chunker State Library Codec Handshake DownloadState Seed Discovery Config Ipc Output Progress.
Local Open Scope Z_scope.
Local Open Scope etle_scope.

(** * [str] *)
Definition str_text (s : string) : text := default [] (utf8_decode (str_bytes s)).
Definition text_str (t : text) : string := of_bytes (utf8_encode t).
Definition str_trim (s : string) : string := text_str (trim (str_text s)).

(** Pieces between separators, the empty ones included. *)
Fixpoint split_by (sep : char → bool) (acc t : text) : list text :=
  match t with
  | [] => [reverse acc]
  | c :: t => if sep c then reverse acc :: split_by sep [] t else split_by sep (c :: acc) t
  end.
Definition split_whitespace (s : string) : list text :=
  filter (λ w, w ≠ []) (split_by (λ c, bool_decide (whitespace c)) [] (str_text s)).
Fixpoint str_join (sep : text) (ws : list text) : text :=
  match ws with
  | [] => []
  | [w] => w
  | w :: ws => w ++ sep ++ str_join sep ws
  end.
Definition str_contains (s pattern : string) : bool := contains (str_bytes pattern) (str_bytes s).
Definition pad_left (width : nat) (s : string) : string :=
  of_bytes (replicate (width - length (str_text s)) Byte.x20) +:+ s.
Definition pad_right (width : nat) (s : string) : string :=
  s +:+ of_bytes (replicate (width - length (str_text s)) Byte.x20).

(** [{:.p}] of a binary64: the value is [m * 2^e], rounded to [p] digits. *)
Definition div_half_even (n d : Z) : Z :=
  let q := n / d in
  let r := n mod d in
  if decide (2 * r > d ∨ 2 * r = d ∧ Z.odd q = true) then q + 1 else q.
Definition pad_zeros (width : nat) (s : string) : string :=
  of_bytes (replicate (width - String.length s) (digit_char 0)) +:+ s.
Definition format_fixed (p : nat) (x : f64) : string :=
  let digits (m : positive) (e : Z) :=
    let n := if decide (0 ≤ e) then Z.pos m * 2 ^ e * 10 ^ Z.of_nat p
             else div_half_even (Z.pos m * 10 ^ Z.of_nat p) (2 ^ (- e)) in
    dec (n / 10 ^ Z.of_nat p)
    +:+ (if decide (p = O) then "" else "." +:+ pad_zeros p (dec (n mod 10 ^ Z.of_nat p))) in
  match x with
  | S754_zero s => (if s then "-" else "") +:+ (if decide (p = O) then "0" else "0." +:+ pad_zeros p "")
  | S754_finite s m e => (if s then "-" else "") +:+ digits m e
  | S754_infinity s => if s then "-inf" else "inf"
  | S754_nan => "NaN"
  end.

(** * [format.rs] *)
Definition non_empty (value : string) : option string :=
  let trimmed := str_trim value in
  if decide (trimmed = ""%string) then None else Some trimmed.

Definition f64_lt (a b : f64) : bool := match SFcompare a b with Some Lt => true | _ => false end.
Definition f64_clamp (x lo hi : f64) : f64 := if f64_lt x lo then lo else if f64_lt hi x then hi else x.
Definition f64_mul : f64 → f64 → f64 := SFmul 53 1024.

Definition fraction (done_ total : Z) : f64 :=
  if decide (total = 0) then f64_of_Z 0
  else f64_clamp (f64_div (f64_of_Z done_) (f64_of_Z total)) (f64_of_Z 0) (f64_of_Z 1).

Fixpoint scale_units (value : f64) (unit : string) (units : list string) : f64 * string :=
  match units with
  | next :: units => if f64_le (f64_of_Z 1024) value then scale_units (f64_div value (f64_of_Z 1024)) next units else (value, unit)
  | [] => (value, unit)
  end.
Definition human_bytes (bytes : Z) : string :=
  let (value, unit) := scale_units (f64_of_Z bytes) "B" ["KiB"; "MiB"; "GiB"; "TiB"]%string in
  if decide (unit = "B"%string) then dec bytes +:+ " B" else format_fixed 2 value +:+ " " +:+ unit.

(** [path] is the text of the path. *)
Definition file_label (path : string) : string :=
  match text_file_name path with
  | Some name => if decide (name = ""%string) then path else name
  | None => path
  end.
Definition trim_path_label (value : string) : string := file_label value.

Definition compact_log_line (value : string) : string := text_str (str_join [32] (split_whitespace value)).

(** [secs] since the epoch, if the clock is after it. *)
Definition short_time (secs : option Z) : string :=
  let secs := default 0 ((λ s, s mod 86400) <$> secs) in
  pad_zeros 2 (dec (secs / 3600)) +:+ ":" +:+ pad_zeros 2 (dec (secs mod 3600 / 60)) +:+ ":" +:+ pad_zeros 2 (dec (secs mod 60)).

(** * [model.rs] *)
Definition DEFAULT_REFRESH_INTERVAL_SECS : Z := 2.
Definition DEFAULT_ACTIVITY_LIMIT : nat := 160.

Inductive TransferKind := SeedKind | DownloadKind.
Global Instance TransferKind_eq_dec : EqDecision TransferKind.
Proof. solve_decision. Defined.
Definition kind_label (kind : TransferKind) : string := match kind with SeedKind => "seed" | DownloadKind => "download" end.

Inductive TransferStatus := Queued | Running | Done | Failed.
Global Instance TransferStatus_eq_dec : EqDecision TransferStatus.
Proof. solve_decision. Defined.
Definition status_icon (status : TransferStatus) : string :=
  match status with Queued => "…" | Running => "↻" | Done => "✓" | Failed => "✕" end.
Definition status_label (status : TransferStatus) : string :=
  match status with Queued => "queued" | Running => "running" | Done => "done" | Failed => "failed" end.
Definition is_finished (status : TransferStatus) : bool := match status with Done | Failed => true | _ => false end.

Record GuiTransfer := mkGuiTransfer {
  gt_id : string;
  gt_kind : TransferKind;
  gt_label : string;
  gt_share_id : option ShareId;
  gt_status : TransferStatus;
  gt_completed_chunks : Z;
  gt_total_chunks : Z;
  gt_bytes_done : Z;
  gt_total_bytes : Z;
  gt_bytes_per_second : Z;
  gt_detail : string;
  gt_updated_seq : Z;
}.
Global Instance GuiTransfer_eq_dec : EqDecision GuiTransfer.
Proof. solve_decision. Defined.

Definition transfer_fraction (t : GuiTransfer) : f64 :=
  if decide (0 < gt_total_bytes t) then fraction (gt_bytes_done t) (gt_total_bytes t)
  else if decide (0 < gt_total_chunks t) then fraction (gt_completed_chunks t) (gt_total_chunks t)
  else if decide (gt_status t = Done) then f64_of_Z 1
  else f64_of_Z 0.

Definition compact_line (t : GuiTransfer) : string :=
  let percent := f64_mul (transfer_fraction t) (f64_of_Z 100) in
  let chunks := if decide (gt_total_chunks t = 0) then "chunks --/--"%string
                else "chunks " +:+ dec (gt_completed_chunks t) +:+ "/" +:+ dec (gt_total_chunks t) in
  let bytes := if decide (gt_total_bytes t = 0) then "bytes --/--"%string
               else "bytes " +:+ human_bytes (gt_bytes_done t) +:+ "/" +:+ human_bytes (gt_total_bytes t) in
  let speed := if decide (gt_bytes_per_second t = 0) then "--/s"%string else human_bytes (gt_bytes_per_second t) +:+ "/s" in
  let phase := if decide (str_trim (gt_detail t) = ""%string) then kind_label (gt_kind t) else gt_detail t in
  status_icon (gt_status t) +:+ " " +:+ pad_right 7 (status_label (gt_status t)) +:+ " " +:+ pad_right 24 phase +:+ " "
  +:+ pad_left 6 (format_fixed 1 percent) +:+ "% · " +:+ chunks +:+ " · " +:+ bytes +:+ " · " +:+ speed.

Definition hide_key (t : GuiTransfer) : string :=
  kind_label (gt_kind t) +:+ ":" +:+ status_label (gt_status t) +:+ ":"
  +:+ match gt_share_id t with Some share_id => ShareId_to_string share_id | None => gt_id t end.

Inductive IpcRequestKind := PingRequest | ListSharesRequest | SeedRequest | DownloadRequestKind | DeleteShareRequest.
Global Instance IpcRequestKind_eq_dec : EqDecision IpcRequestKind.
Proof. solve_decision. Defined.
Definition request_label (kind : IpcRequestKind) : string :=
  match kind with
  | PingRequest => "ping" | ListSharesRequest => "refresh" | SeedRequest => "seed"
  | DownloadRequestKind => "download" | DeleteShareRequest => "delete"
  end.

(** ** The fields of [EtleGui], in groups *)

(** The connection. *)
Record Link := mkLink {
  active_socket_path : string;
  socket_draft : string;
  connected : bool;
  watching : bool;
  watch_generation : Z;
  auto_refresh : bool;
  refresh_interval_secs : Z;
  status : string;
  last_auto_refresh : Z;
  refresh_inflight : bool;
}.
(** The activity log. *)
Record Log := mkLog {
  clear_activity_on_task : bool;
  activity_limit : nat;
  activity : list string;
  last_activity_message : option string;
}.
(** The library page. *)
Record Shelf := mkShelf {
  selected_share : option nat;
  pending_delete_share : option ShareId;
  shares : list IpcShareSummary;
}.
(** The transfers page. *)
Record Tasks := mkTasks {
  transfers : list GuiTransfer;
  hidden_finished_transfers : gset string;
  latest_progress : string;
  progress_fraction : f64;
  next_transfer_seq : Z;
}.
(** The seed page. *)
Record SeedForm := mkSeedForm {
  seed_path : string;
  seed_files : list string;
  selected_seed_file : option nat;
  seed_chunk_size : Z;
}.
(** The download page and the transfer settings. *)
Record DownloadForm := mkDownloadForm {
  df_share_id : string;
  df_peers : string;
  df_output_path : string;
  df_parallelism : Z;
  df_request_window : Z;
  df_discovery_port : Z;
  df_discovery_timeout_ms : Z;
  df_discovery_multicast : Z;
  df_resume : bool;
  df_auth_psk : string;
}.
Record EtleGui := mkEtleGui {
  g_link : Link;
  g_log : Log;
  g_shelf : Shelf;
  g_tasks : Tasks;
  g_seed : SeedForm;
  g_download : DownloadForm;
}.

(** ** The log *)
Definition trim_activity (l : Log) : Log :=
  mkLog (clear_activity_on_task l) (activity_limit l)
    (drop (length (activity l) - activity_limit l) (activity l)) (last_activity_message l).

(** [time] is what [short_time] shows. *)
Definition log_message (time message : string) (l : Log) : Log :=
  let compact := compact_log_line message in
  if decide (last_activity_message l = Some compact) then l
  else trim_activity (mkLog (clear_activity_on_task l) (activity_limit l)
                        (activity l ++ [time +:+ "  " +:+ compact]) (Some compact)).

Definition prepare_new_task_log (l : Log) : Log :=
  if clear_activity_on_task l then mkLog (clear_activity_on_task l) (activity_limit l) [] None else l.

(** ** Starting *)
Record GuiInit := mkGuiInit {
  gi_socket_path : string;
  gi_auth_psk : string;
  gi_download_parallelism : Z;
  gi_request_window : Z;
  gi_discovery_port : Z;
  gi_discovery_timeout_ms : Z;
  gi_discovery_multicast : Z;
  gi_startup_warning : option string;
}.

(** [now] is [Instant::now()]. *)
Definition EtleGui_new (init : GuiInit) (now : Z) (time : string) : EtleGui :=
  let log := mkLog true DEFAULT_ACTIVITY_LIMIT [] None in
  mkEtleGui
    (mkLink (gi_socket_path init) (gi_socket_path init) false false 0 true DEFAULT_REFRESH_INTERVAL_SECS "offline" now false)
    (match gi_startup_warning init with Some warning => log_message time warning log | None => log end)
    (mkShelf None None [])
    (mkTasks [] ∅ "idle" (f64_of_Z 0) 1)
    (mkSeedForm "" [] None DEFAULT_CHUNK_SIZE)
    (mkDownloadForm "" "" "" (gi_download_parallelism init) (gi_request_window init) (gi_discovery_port init)
       (gi_discovery_timeout_ms init) (gi_discovery_multicast init) true (gi_auth_psk init)).

(** [elapsed] saturates. *)
Definition refresh_due (l : Link) (now : Z) : bool :=
  auto_refresh l && negb (refresh_inflight l)
  && bool_decide (Z.max (refresh_interval_secs l) 1 * 1000000000 ≤ Z.max 0 (now - last_auto_refresh l)).

(** ** The download command *)
Definition peer_separator (c : char) : bool := bool_decide (c = 44 ∨ c = 10 ∨ whitespace c).
Definition parse_peer (peer : string) : result string socket_addr :=
  ok_or (parse_socket_addr (str_text peer)) ("invalid peer `" +:+ peer +:+ "`: invalid socket address syntax").
Definition parse_peers (input : string) : result string (list socket_addr) :=
  result_mapM parse_peer (omap (λ piece, non_empty (text_str piece)) (split_by peer_separator [] (str_text input))).

Section command.
(** [PathBuf::from] *)
Context (path_from : string → path).

Definition build_download_command_from (f : DownloadForm) (share_id_text peers_text output_text auth_psk_text
    discovery_multicast_text : string) : result string (IpcCommand * ShareId) :=
  let? share_id := result_map_err (λ _, "invalid share id"%string) (ShareId_from_str (str_trim share_id_text)) in
  let? peers := parse_peers peers_text in
  let output := path_from <$> non_empty (str_trim output_text) in
  let auth_psk := match non_empty (str_trim auth_psk_text) with Some p => Some p | None => non_empty (df_auth_psk f) end in
  let? discovery_multicast := ok_or (parse_ipv4 (str_text (str_trim discovery_multicast_text)))
                                "invalid multicast address: invalid IPv4 address syntax"%string in
  let request := mkDownloadRequest share_id peers output (df_parallelism f) (Z.max (df_request_window f) 1)
                   (df_discovery_port f) (Z.max (df_discovery_timeout_ms f) 1) discovery_multicast auth_psk in
  Ok (if df_resume f then Ipc.Download request else DownloadFresh request, share_id).
End command.
