(* ===== verification/GuiApp.v ===== *)
(** The graphical client's behaviour ([src/src/gui/app.rs], [gui/ipc.rs]): what each
    message does to the window's state, and which requests it makes.

    [update] is one step of the application; what it asks for (requests to the daemon,
    subscriptions, messages to itself, the clipboard) is the list of [Effect]s, and the
    answers come back as messages, in any order. The clock is read once per message.
    What is drawn, and what the controls send, is in [View.v]. *)
From stdpp Require Import base tactics list countable strings gmap.
From Stdlib Require Import ZArith Lia SpecFloat Sorted.
From S2P Require Import Prelude Bytes World Text Files Extern Crypto Descriptor Chunker State Library Codec Handshake DownloadState Seed Discovery Config Ipc Output Progress Gui.
Local Open Scope Z_scope.
Local Open Scope etle_scope.

(** * Messages and effects *)
Inductive AppInput :=
  | ApplySocketText (value : string)
  | Connect
  | Refresh
  | AutoRefreshTick
  | StartWatch
  | OnIpcResponse (socket_path : string) (kind : IpcRequestKind) (response : result string IpcResponse)
  | OnIpcEvent (generation : Z) (event : IpcEvent)
  | IpcWatchStopped (generation : Z) (error : string)
  | SelectShare (index : nat)
  | CopySelectedShareId
  | DeleteSelectedShare
  | ConfirmDeleteSelectedShare
  | CancelDeleteShare
  | ClearLog
  | ClearFinishedTransfers
  | AddSeedPathText (value : string)
  | AddSeedFile (path : string)
  | BrowseSeedFiles
  | SelectSeedFile (index : nat)
  | RemoveSelectedSeedFile
  | ClearSeedFiles
  | SetSeedChunkSize (value : Z)
  | StartSeedSelected
  | SetParallelism (value : Z)
  | SetRequestWindow (value : Z)
  | SetDiscoveryPort (value : Z)
  | SetDiscoveryTimeout (value : Z)
  | SetResume (value : bool)
  | StartDownloadFromForm (share_id peers output auth_psk discovery_multicast : string)
  | ApplySettings (socket_path auth_psk : string)
  | SetAutoRefresh (value : bool)
  | SetClearActivityOnTask (value : bool)
  | SetRefreshInterval (value : Z)
  | SetActivityLimit (value : nat).

Inductive Effect :=
  | SpawnIpcCommand (socket_path : string) (kind : IpcRequestKind) (command : IpcCommand)
  | SpawnIpcWatch (socket_path : string) (generation : Z)
  | SendInput (message : AppInput)
  | SetClipboard (text : string).

(** What a step reads of its surroundings: [Instant::now], the wall clock, whether there
    is a display, and the files chosen in the dialog. *)
Record Moment := mkMoment {
  m_now : Z;
  m_secs : option Z;
  m_display : bool;
  m_picked : option (list string);
}.

Definition set_link (l : Link) (g : EtleGui) : EtleGui :=
  mkEtleGui l (g_log g) (g_shelf g) (g_tasks g) (g_seed g) (g_download g).
Definition set_log (l : Log) (g : EtleGui) : EtleGui :=
  mkEtleGui (g_link g) l (g_shelf g) (g_tasks g) (g_seed g) (g_download g).
Definition set_shelf (s : Shelf) (g : EtleGui) : EtleGui :=
  mkEtleGui (g_link g) (g_log g) s (g_tasks g) (g_seed g) (g_download g).
Definition set_tasks (t : Tasks) (g : EtleGui) : EtleGui :=
  mkEtleGui (g_link g) (g_log g) (g_shelf g) t (g_seed g) (g_download g).
Definition set_seed (s : SeedForm) (g : EtleGui) : EtleGui :=
  mkEtleGui (g_link g) (g_log g) (g_shelf g) (g_tasks g) s (g_download g).
Definition set_download (d : DownloadForm) (g : EtleGui) : EtleGui :=
  mkEtleGui (g_link g) (g_log g) (g_shelf g) (g_tasks g) (g_seed g) d.

Definition set_connected (b : bool) (l : Link) : Link :=
  mkLink (active_socket_path l) (socket_draft l) b (watching l) (watch_generation l) (auto_refresh l)
    (refresh_interval_secs l) (status l) (last_auto_refresh l) (refresh_inflight l).
Definition set_status (s : string) (l : Link) : Link :=
  mkLink (active_socket_path l) (socket_draft l) (connected l) (watching l) (watch_generation l) (auto_refresh l)
    (refresh_interval_secs l) s (last_auto_refresh l) (refresh_inflight l).
Definition set_inflight (b : bool) (l : Link) : Link :=
  mkLink (active_socket_path l) (socket_draft l) (connected l) (watching l) (watch_generation l) (auto_refresh l)
    (refresh_interval_secs l) (status l) (last_auto_refresh l) b.
Definition set_watching (b : bool) (generation : Z) (l : Link) : Link :=
  mkLink (active_socket_path l) (socket_draft l) (connected l) b generation (auto_refresh l)
    (refresh_interval_secs l) (status l) (last_auto_refresh l) (refresh_inflight l).
Definition set_draft (s : string) (l : Link) : Link :=
  mkLink (active_socket_path l) s (connected l) (watching l) (watch_generation l) (auto_refresh l)
    (refresh_interval_secs l) (status l) (last_auto_refresh l) (refresh_inflight l).

(** * Transfers *)
Definition bump_seq (s : Tasks) : Z * Tasks :=
  (next_transfer_seq s,
   mkTasks (transfers s) (hidden_finished_transfers s) (latest_progress s) (progress_fraction s)
     (saturating_add u64_max (next_transfer_seq s) 1)).

Definition status_rank (st : TransferStatus) : Z :=
  match st with Running => 0 | Queued => 1 | Failed => 2 | Done => 3 end.
(** [(status_rank, Reverse(updated_seq))] *)
Definition transfer_leb (a b : GuiTransfer) : bool :=
  (status_rank (gt_status a) <? status_rank (gt_status b))
  || (status_rank (gt_status a) =? status_rank (gt_status b)) && (gt_updated_seq b <=? gt_updated_seq a).
Definition set_transfers (l : list GuiTransfer) (s : Tasks) : Tasks :=
  mkTasks l (hidden_finished_transfers s) (latest_progress s) (progress_fraction s) (next_transfer_seq s).
Definition sort_transfers (s : Tasks) : Tasks := set_transfers (sort_by transfer_leb (transfers s)) s.

Definition transfer_hidden_keys (t : GuiTransfer) : list string :=
  [gt_id t; kind_label (gt_kind t) +:+ ":label:" +:+ gt_label t; hide_key t]
  ++ match gt_share_id t with
     | Some share_id => [kind_label (gt_kind t) +:+ ":share:" +:+ ShareId_to_string share_id]
     | None => []
     end.
Definition is_transfer_hidden (s : Tasks) (t : GuiTransfer) : bool :=
  is_finished (gt_status t) && existsb (λ key, bool_decide (key ∈ hidden_finished_transfers s)) (transfer_hidden_keys t).

(** [iter_mut().find(p)] and a change of what it finds. *)
Fixpoint update_first {A} (p : A → bool) (f : A → A) (l : list A) : option (list A) :=
  match l with
  | [] => None
  | x :: l => if p x then Some (f x :: l) else cons x <$> update_first p f l
  end.

Definition same_transfer (t candidate : GuiTransfer) : bool :=
  bool_decide (gt_id candidate = gt_id t)
  || bool_decide (gt_share_id t ≠ None ∧ gt_share_id candidate = gt_share_id t ∧ gt_kind candidate = gt_kind t)
  || bool_decide (gt_share_id t = None ∧ gt_share_id candidate = None ∧ gt_kind candidate = gt_kind t
                  ∧ gt_label candidate = gt_label t).
Definition upsert_transfer (t : GuiTransfer) (s : Tasks) : Tasks :=
  if is_transfer_hidden s t then s
  else sort_transfers (set_transfers (default (transfers s ++ [t]) (update_first (same_transfer t) (λ _, t) (transfers s))) s).

Definition set_progress_text (text : string) (f : f64) (s : Tasks) : Tasks :=
  mkTasks (transfers s) (hidden_finished_transfers s) text f (next_transfer_seq s).
Definition update_latest_from_transfer (t : GuiTransfer) (s : Tasks) : Tasks :=
  set_progress_text (gt_label t +:+ " · " +:+ compact_line t) (transfer_fraction t) s.

Definition idle_if_empty (s : Tasks) : Tasks :=
  if decide (transfers s = []) then set_progress_text "idle" (f64_of_Z 0) s else s.
Definition clear_finished_transfers (s : Tasks) : Tasks :=
  let hidden := filter (λ t, is_finished (gt_status t) = true) (transfers s) ≫= transfer_hidden_keys in
  idle_if_empty
    (mkTasks (filter (λ t, is_finished (gt_status t) = false) (transfers s))
       (list_to_set hidden ∪ hidden_finished_transfers s) (latest_progress s) (progress_fraction s) (next_transfer_seq s)).

Definition is_specific_progress_detail (detail : string) : bool :=
  existsb (str_contains detail) ["receiving"; "decrypting"; "encrypting"; "uploading"; "writing"; "saved"]%string.
Definition friendly_task_detail (task : string) : string :=
  if str_contains task "completed" then "completed"
  else if str_contains task "decrypted+written" then "decrypting + writing"
  else if str_contains task "received+verified" then "receiving + verifying"
  else if str_contains task "served-from-library" then "uploading chunks"
  else if str_contains task "staged+encrypted" then "encrypting + staging"
  else if str_contains task "seed" then "seeding"
  else text_str (str_text task ≫= λ c, if decide (c = 58) then str_text " · " else [c]).
Definition share_is_complete (share : IpcShareSummary) : bool :=
  if decide (is_total_chunks share = 0) then bool_decide (is_mode share = Some "seeding"%string ∨ is_mode share = Some "completed"%string)
  else bool_decide (is_total_chunks share ≤ is_completed_chunks share).

(** [find_transfer_by_share_mut] *)
Definition by_share (share_id : ShareId) (kind : TransferKind) (t : GuiTransfer) : bool :=
  bool_decide (gt_share_id t = Some share_id ∧ gt_kind t = kind).

(** The element of the highest number among the unfinished, the last one of equals. *)
Fixpoint last_max (best : option (nat * Z)) (i : nat) (l : list GuiTransfer) : option nat :=
  match l with
  | [] => fst <$> best
  | t :: l =>
      let better := match best with Some (_, seq) => bool_decide (seq ≤ gt_updated_seq t) | None => true end in
      last_max (if negb (is_finished (gt_status t)) && better then Some (i, gt_updated_seq t) else best) (S i) l
  end.
Definition fail_transfer (reason : string) (t : GuiTransfer) : GuiTransfer :=
  mkGuiTransfer (gt_id t) (gt_kind t) (gt_label t) (gt_share_id t) Failed (gt_completed_chunks t) (gt_total_chunks t)
    (gt_bytes_done t) (gt_total_bytes t) (gt_bytes_per_second t) (compact_log_line reason) (gt_updated_seq t).
Definition mark_recent_running_failed (reason : string) (s : Tasks) : Tasks :=
  sort_transfers
    match last_max None 0 (transfers s) with
    | Some i => set_transfers (alter (fail_transfer reason) i (transfers s)) s
    | None => s
    end.

(** * Shares *)
Definition selected_share_summary (s : Shelf) : option IpcShareSummary :=
  match selected_share s with Some index => shares s !! index | None => None end.
Definition find_share (share_id : ShareId) (s : Shelf) : option IpcShareSummary :=
  snd <$> list_find (λ share, is_share_id share = share_id) (shares s).

Definition remove_share (share_id : ShareId) (s : Shelf) : Shelf :=
  let kept := filter (λ share, is_share_id share ≠ share_id) (shares s) in
  mkShelf
    (match is_share_id <$> selected_share_summary s with
     | Some selected => if decide (selected ≠ share_id) then fst <$> list_find (λ share, is_share_id share = selected) kept else None
     | None => None
     end)
    (if decide (pending_delete_share s = Some share_id) then None else pending_delete_share s) kept.
Definition forget_share_transfers (share_id : ShareId) (s : Tasks) : Tasks :=
  idle_if_empty (set_transfers (filter (λ t, gt_share_id t ≠ Some share_id) (transfers s)) s).

Definition upsert_share (share : IpcShareSummary) (s : Shelf) : Shelf :=
  mkShelf (selected_share s) (pending_delete_share s)
    (default (shares s ++ [share])
       (update_first (λ candidate, bool_decide (is_share_id candidate = is_share_id share)) (λ _, share) (shares s))).

(** The card of a share, brought up to date. *)
Definition sync_transfer (share : IpcShareSummary) (seq : Z) (t : GuiTransfer) : GuiTransfer :=
  let mode := default "unknown"%string (is_mode share) in
  let finish := share_is_complete share && bool_decide (mode = "completed"%string ∨ mode = "seeding"%string) in
  let waiting := bool_decide (mode = "downloading"%string) && negb (is_finished (gt_status t)) in
  mkGuiTransfer (gt_id t) (gt_kind t) (is_name share) (gt_share_id t)
    (if finish then Done else if waiting then Running else gt_status t)
    (is_completed_chunks share) (is_total_chunks share) (gt_bytes_done t) (gt_total_bytes t) (gt_bytes_per_second t)
    (if finish then
       if decide (gt_kind t = SeedKind) then "encrypted and stored"
       else if str_contains (gt_detail t) "saved" then gt_detail t else "completed in library"
     else if waiting && negb (is_specific_progress_detail (gt_detail t)) then "waiting for live progress"
     else gt_detail t)
    seq.
Definition library_transfer (share : IpcShareSummary) (seq : Z) : GuiTransfer :=
  let mode := default "unknown"%string (is_mode share) in
  mkGuiTransfer ("library:" +:+ ShareId_to_string (is_share_id share) +:+ ":" +:+ mode) DownloadKind (is_name share)
    (Some (is_share_id share)) Running (is_completed_chunks share) (is_total_chunks share) 0 0 0
    "waiting for live progress" seq.
Definition sync_existing_transfer_from_share (share : IpcShareSummary) (s : Tasks) : Tasks :=
  let mode := default "unknown"%string (is_mode share) in
  let (seq, s) := bump_seq s in
  match list_find (λ t, gt_share_id t = Some (is_share_id share)) (transfers s) with
  | Some (index, t) =>
      let t := sync_transfer share seq t in
      let s := set_transfers (<[index := t]> (transfers s)) s in
      sort_transfers (if is_finished (gt_status t) then update_latest_from_transfer t s else s)
  | None =>
      if bool_decide (mode = "downloading"%string) && negb (share_is_complete share)
      then upsert_transfer (library_transfer share seq) s else s
  end.
Definition sync_existing_transfers_from_shares (l : list IpcShareSummary) (s : Tasks) : Tasks :=
  foldl (λ s share, sync_existing_transfer_from_share share s) s l.

Definition unbound_running_seed (t : GuiTransfer) : bool :=
  bool_decide (gt_kind t = SeedKind ∧ gt_share_id t = None) && negb (is_finished (gt_status t)).
Definition seed_of_share (share : IpcShareSummary) (count : nat) (t : GuiTransfer) : bool :=
  bool_decide (gt_kind t = SeedKind) && negb (is_finished (gt_status t))
  && (bool_decide (gt_label t = is_name share) || bool_decide (gt_share_id t = Some (is_share_id share))
      || bool_decide (count = 1%nat) && unbound_running_seed t).
Definition finish_seed (share : IpcShareSummary) (seq : Z) (t : GuiTransfer) : GuiTransfer :=
  mkGuiTransfer (gt_id t) (gt_kind t) (is_name share) (Some (is_share_id share)) Done (is_completed_chunks share)
    (is_total_chunks share) (gt_bytes_done t) (gt_total_bytes t) (gt_bytes_per_second t) "encrypted and stored" seq.
Definition mark_seed_completed_from_share (share : IpcShareSummary) (s : Tasks) : Tasks :=
  if negb (share_is_complete share) then s
  else
    let count := length (filter (λ t, unbound_running_seed t = true) (transfers s)) in
    let (seq, s) := bump_seq s in
    let updated := existsb (seed_of_share share count) (transfers s) in
    let s := set_transfers ((λ t, if seed_of_share share count t then finish_seed share seq t else t) <$> transfers s) s in
    sort_transfers
      (if negb updated && bool_decide (is_mode share = Some "seeding"%string)
       then sync_existing_transfer_from_share share s else s).

(** * Progress *)
Definition task_kind (task : string) : TransferKind :=
  if str_contains task "seed" || str_contains task "encrypt" || str_contains task "staged" then SeedKind else DownloadKind.
Definition parse_share_id (s : string) : option ShareId :=
  match ShareId_from_str s with Ok id => Some id | _ => None end.
Definition apply_task_progress (job_id : option string) (task progress_label : string)
    (completed_chunks total_chunks bytes_done total_bytes bytes_per_second : Z) (shelf : Shelf) (s : Tasks) : Tasks :=
  let kind := task_kind task in
  let share_id := parse_share_id progress_label in
  let label := match share_id ≫= (λ id, find_share id shelf) with
               | Some share => is_name share
               | None => trim_path_label progress_label
               end in
  let id := default (kind_label kind +:+ ":" +:+ label) job_id in
  let completed := bool_decide (0 < total_chunks ∧ total_chunks ≤ completed_chunks) in
  let state := if str_contains task "completed" || bool_decide (kind = SeedKind) && completed then Done else Running in
  let (seq, s) := bump_seq s in
  let t := mkGuiTransfer id kind label share_id state completed_chunks total_chunks bytes_done total_bytes
             bytes_per_second (friendly_task_detail task) seq in
  upsert_transfer t (update_latest_from_transfer t s).

Definition apply_transfer_progress (job_id : option string) (share_id : ShareId)
    (completed_chunks total_chunks bytes_done total_bytes bytes_per_second : Z) (shelf : Shelf) (s : Tasks) : Tasks :=
  let id := default ("download:" +:+ ShareId_to_string share_id) job_id in
  let (seq, s) := bump_seq s in
  let label := match find_share share_id shelf with Some share => is_name share | None => ShareId_to_string share_id end in
  let existing_detail :=
    match list_find (λ t, gt_id t = id ∨ by_share share_id DownloadKind t = true) (transfers s) with
    | Some (_, t) => gt_detail t
    | None => ""%string
    end in
  let detail := if is_specific_progress_detail existing_detail then existing_detail else "receiving + verifying"%string in
  let t := mkGuiTransfer id DownloadKind label (Some share_id) Running completed_chunks total_chunks bytes_done
             total_bytes bytes_per_second detail seq in
  upsert_transfer t (update_latest_from_transfer t s).

(** A change of the transfer at [index], shown as the latest progress. *)
Definition change_latest (index : option nat) (f : GuiTransfer → GuiTransfer) (otherwise : Tasks → Tasks) (s : Tasks) : Tasks :=
  sort_transfers
    (match index with
     | Some i =>
         match transfers s !! i with
         | Some t => update_latest_from_transfer (f t) (set_transfers (<[i := f t]> (transfers s)) s)
         | None => otherwise s
         end
     | None => otherwise s
     end).
Definition position_by_share (share_id : ShareId) (s : Tasks) : option nat :=
  fst <$> list_find (λ t, by_share share_id DownloadKind t = true) (transfers s).

Definition chunk_completed (share_id : ShareId) (completed_chunks total_chunks : Z) (s : Tasks) : Tasks :=
  let (seq, s) := bump_seq s in
  change_latest (position_by_share share_id s)
    (λ t, mkGuiTransfer (gt_id t) (gt_kind t) (gt_label t) (gt_share_id t) Running completed_chunks total_chunks
            (gt_bytes_done t) (gt_total_bytes t) (gt_bytes_per_second t) "chunk verified" seq)
    (set_progress_text ("chunk: " +:+ ShareId_to_string share_id +:+ " " +:+ dec completed_chunks +:+ "/" +:+ dec total_chunks)
       (fraction completed_chunks total_chunks)) s.

Definition transfer_completed_event (job_id : option string) (share_id : ShareId) (output : path) (shelf : Shelf) (s : Tasks) : Tasks :=
  let (seq, s) := bump_seq s in
  let by_job := match job_id with Some id => fst <$> list_find (λ t, gt_id t = id) (transfers s) | None => None end in
  let index := match by_job with Some i => Some i | None => position_by_share share_id s end in
  change_latest index
    (λ t, let '(label, completed, total) :=
            match find_share share_id shelf with
            | Some share => (is_name share, is_completed_chunks share, is_total_chunks share)
            | None => (gt_label t, gt_completed_chunks t, gt_total_chunks t)
            end in
          mkGuiTransfer (gt_id t) (gt_kind t) label (Some share_id) Done completed total (gt_bytes_done t)
            (gt_total_bytes t) (gt_bytes_per_second t) ("saved · " +:+ path_display output) seq)
    (set_progress_text ("completed · share=" +:+ ShareId_to_string share_id +:+ " · output=" +:+ path_display output) (f64_of_Z 1)) s.

Definition transfer_completed_answer (share_id : ShareId) (output : path) (file_name : string) (file_size chunks : Z) (s : Tasks) : Tasks :=
  let (seq, s) := bump_seq s in
  change_latest (position_by_share share_id s)
    (λ t, mkGuiTransfer (gt_id t) (gt_kind t) file_name (gt_share_id t) Done chunks chunks file_size file_size 0
            ("saved · " +:+ path_display output) seq)
    (set_progress_text ("completed · " +:+ file_name +:+ " · " +:+ human_bytes file_size +:+ " · " +:+ dec chunks
                        +:+ " chunks · " +:+ path_display output) (f64_of_Z 1)) s.

Definition transfer_queued_answer (share_id : ShareId) (job_id : string) (s : Tasks) : Tasks :=
  let (seq, s) := bump_seq s in
  sort_transfers
    match update_first (by_share share_id DownloadKind)
            (λ t, mkGuiTransfer job_id (gt_kind t) (gt_label t) (gt_share_id t) Running (gt_completed_chunks t)
                    (gt_total_chunks t) (gt_bytes_done t) (gt_total_bytes t) (gt_bytes_per_second t) "downloading" seq)
            (transfers s) with
    | Some l => set_transfers l s
    | None =>
        upsert_transfer (mkGuiTransfer job_id DownloadKind (ShareId_to_string share_id) (Some share_id) Running 0 0 0 0 0
                           "downloading" seq) s
    end.

(** * Messages *)
Section update.
(** [PathBuf::from], [Display for SocketAddr], and the surroundings of the step. *)
Context (path_from : string → path) (show_addr : socket_addr → string) (moment : Moment).

Definition push_log (message : string) (g : EtleGui) : EtleGui :=
  set_log (log_message (short_time (m_secs moment)) message (g_log g)) g.
Definition on_link (f : Link → Link) (g : EtleGui) : EtleGui := set_link (f (g_link g)) g.
Definition on_tasks (f : Tasks → Tasks) (g : EtleGui) : EtleGui := set_tasks (f (g_tasks g)) g.
Definition on_shelf (f : Shelf → Shelf) (g : EtleGui) : EtleGui := set_shelf (f (g_shelf g)) g.

Definition apply_ipc_response (kind : IpcRequestKind) (response : result string IpcResponse) (g : EtleGui) : EtleGui :=
  match response with
  | Ok Pong => push_log "daemon: pong" (on_link (λ l, set_status "online" (set_connected true l)) g)
  | Ok (Ack message) => push_log ("daemon: " +:+ message) (on_link (set_connected true) g)
  | Ok (Shares l) =>
      on_tasks (sync_existing_transfers_from_shares l)
        (on_shelf (λ s, mkShelf (match selected_share s with
                                 | Some index => if decide (length l ≤ index)%nat then None else Some index
                                 | None => None
                                 end) (pending_delete_share s) l)
           (on_link (λ k, set_status "idle" (set_connected true k)) g))
  | Ok (ShareAdded share) =>
      push_log ("share added: " +:+ ShareId_to_string (is_share_id share) +:+ " " +:+ is_name share)
        (on_tasks (mark_seed_completed_from_share share) (on_shelf (upsert_share share) (on_link (set_connected true) g)))
  | Ok (ShareDeleted share_id name) =>
      push_log ("share deleted: " +:+ ShareId_to_string share_id +:+ " " +:+ name)
        (on_tasks (forget_share_transfers share_id)
           (on_shelf (remove_share share_id) (on_link (λ l, set_status "share deleted" (set_connected true l)) g)))
  | Ok (TransferQueued share_id job_id) =>
      push_log ("queued: job=" +:+ job_id +:+ " share=" +:+ ShareId_to_string share_id)
        (on_tasks (transfer_queued_answer share_id job_id) (on_link (set_connected true) g))
  | Ok (TransferCompleted share_id output file_name file_size chunks) =>
      push_log ("completed: share=" +:+ ShareId_to_string share_id +:+ " output=" +:+ path_display output)
        (on_tasks (transfer_completed_answer share_id output file_name file_size chunks) (on_link (set_connected true) g))
  | Ok (IpcErrorResponse message) =>
      push_log ("daemon error: " +:+ message)
        (if decide (kind = SeedRequest ∨ kind = DownloadRequestKind) then on_tasks (mark_recent_running_failed message) g else g)
  | Err error =>
      match kind with
      | ListSharesRequest =>
          push_log ("refresh: " +:+ error) (on_link (λ l, set_status "refresh delayed" (set_inflight false l)) g)
      | PingRequest => push_log ("ipc: " +:+ error) (on_link (λ l, set_status "offline" (set_connected false l)) g)
      | SeedRequest | DownloadRequestKind =>
          push_log (request_label kind +:+ " request failed: " +:+ error)
            (on_tasks (mark_recent_running_failed error) (on_link (λ l, set_status "request failed" (set_connected false l)) g))
      | DeleteShareRequest =>
          push_log (request_label kind +:+ " request failed: " +:+ error)
            (on_link (λ l, set_status "request failed" (set_connected false l)) g)
      end
  | _ => g
  end.

Definition apply_ipc_event (event : IpcEvent) (g : EtleGui) : EtleGui :=
  match event with
  | ServerStarted listen => push_log ("server started: " +:+ show_addr listen) (on_link (set_connected true) g)
  | ServerStopped => push_log "server stopped" (on_link (set_connected false) g)
  | EvShareUpdated share =>
      on_tasks (λ s, sync_existing_transfer_from_share share (mark_seed_completed_from_share share s))
        (on_shelf (upsert_share share) g)
  | EvShareDeleted share_id =>
      push_log ("share deleted: " +:+ ShareId_to_string share_id)
        (on_tasks (forget_share_transfers share_id) (on_shelf (remove_share share_id) g))
  | PeerConnected peer_id => push_log ("peer connected: " +:+ peer_id) g
  | ChunkCompleted share_id completed_chunks total_chunks => on_tasks (chunk_completed share_id completed_chunks total_chunks) g
  | TaskProgress job_id task label completed_chunks total_chunks bytes_done total_bytes bytes_per_second =>
      on_tasks (apply_task_progress job_id task label completed_chunks total_chunks bytes_done total_bytes
                  bytes_per_second (g_shelf g)) g
  | TransferProgress job_id share_id completed_chunks total_chunks bytes_done total_bytes bytes_per_second =>
      on_tasks (apply_transfer_progress job_id share_id completed_chunks total_chunks bytes_done total_bytes
                  bytes_per_second (g_shelf g)) g
  | EvTransferCompleted job_id share_id output =>
      let g := on_tasks (transfer_completed_event job_id share_id output (g_shelf g)) g in
      push_log (latest_progress (g_tasks g)) g
  | EvError message => push_log ("event error: " +:+ message) (on_tasks (mark_recent_running_failed message) g)
  end.

Definition apply_socket (g : EtleGui) : EtleGui * list Effect :=
  let l := g_link g in
  let next := str_trim (socket_draft l) in
  if decide (next = ""%string) then (push_log "socket: empty path ignored" g, [])
  else
    ((if decide (next ≠ active_socket_path l) then
        push_log ("socket applied: " +:+ next)
          (on_shelf (λ s, mkShelf None (pending_delete_share s) [])
             (set_link (mkLink next (socket_draft l) false false (saturating_add u64_max (watch_generation l) 1)
                          (auto_refresh l) (refresh_interval_secs l) (status l) (last_auto_refresh l) false) g))
      else g),
     [SendInput Connect; SendInput Refresh; SendInput StartWatch]).

Definition spawn_refresh (g : EtleGui) : EtleGui * list Effect :=
  let l := g_link g in
  if refresh_inflight l then (g, [])
  else
    (set_link (mkLink (active_socket_path l) (socket_draft l) (connected l) (watching l) (watch_generation l)
                 (auto_refresh l) (refresh_interval_secs l) "refreshing" (m_now moment) true) g,
     [SpawnIpcCommand (active_socket_path l) ListSharesRequest ListShares]).

Definition gui_connect (g : EtleGui) : EtleGui * list Effect :=
  let socket := active_socket_path (g_link g) in
  if decide (str_trim socket = ""%string)
  then (push_log "ipc: empty socket path" (on_link (λ l, set_status "offline" (set_connected false l)) g), [])
  else (on_link (λ l, set_status "checking" (set_connected false l)) g, [SpawnIpcCommand socket PingRequest Ping]).

Definition start_watch (g : EtleGui) : EtleGui * list Effect :=
  let l := g_link g in
  if decide (str_trim (active_socket_path l) = ""%string)
  then (push_log "event watch: empty IPC endpoint" (on_link (λ l, set_status "offline" (set_connected false l)) g), [])
  else if watching l then (push_log "watch already active" g, [])
  else
    let generation := saturating_add u64_max (watch_generation l) 1 in
    (push_log "watch: subscribing to daemon events" (set_link (set_watching true generation l) g),
     [SpawnIpcWatch (active_socket_path l) generation]).

(** ** The seed page *)
Definition set_seed_files (files : list string) (selected : option nat) (s : SeedForm) : SeedForm :=
  mkSeedForm (seed_path s) files selected (seed_chunk_size s).
Definition add_seed_file (file : string) (g : EtleGui) : EtleGui :=
  let s := g_seed g in
  if decide (file = ""%string) then g
  else if existsb (λ existing, bool_decide (path_from existing = path_from file)) (seed_files s)
  then push_log ("seed queue: already added " +:+ file) g
  else
    set_seed (set_seed_files (seed_files s ++ [file])
                (match selected_seed_file s with Some i => Some i | None => Some 0%nat end) s)
      (push_log ("seed queue: added " +:+ file) g).
Definition add_seed_path_text (value : string) (g : EtleGui) : EtleGui :=
  let trimmed := str_trim value in
  if decide (trimmed = ""%string) then g
  else
    let g := add_seed_file trimmed g in
    set_seed (mkSeedForm "" (seed_files (g_seed g)) (selected_seed_file (g_seed g)) (seed_chunk_size (g_seed g))) g.

(** The selection after the file at [index] was removed. *)
Definition selection_after (index : nat) (files : list string) : option nat :=
  match files with [] => None | _ => Some (Nat.min index (length files - 1)) end.
Definition remove_selected_seed_file (g : EtleGui) : EtleGui :=
  let s := g_seed g in
  match selected_seed_file s with
  | None => g
  | Some index =>
      match seed_files s !! index with
      | Some removed =>
          let files := delete index (seed_files s) in
          set_seed (set_seed_files files (selection_after index files) s) (push_log ("seed queue: removed " +:+ removed) g)
      | None => g
      end
  end.

Definition start_seed_path (file : string) (g : EtleGui) : EtleGui * list Effect :=
  let g := set_log (prepare_new_task_log (g_log g)) g in
  let label := file_label file in
  let (seq, tasks) := bump_seq (g_tasks g) in
  let t := mkGuiTransfer ("seed:" +:+ label +:+ ":" +:+ dec seq) SeedKind label None Running 0 0 0 0 0
             ("encrypting · " +:+ file) seq in
  let tasks := set_progress_text ("encrypting · " +:+ file) (f64_of_Z 0) (upsert_transfer t tasks) in
  (push_log ("seed queued: " +:+ file) (set_tasks tasks g),
   [SpawnIpcCommand (active_socket_path (g_link g)) SeedRequest
      (SeedFile (path_from file) (Z.max (seed_chunk_size (g_seed g)) 1))]).
Definition start_seed_selected (g : EtleGui) : EtleGui * list Effect :=
  let s := g_seed g in
  let index := default 0%nat (selected_seed_file s) in
  match seed_files s with
  | [] => (push_log "seed: add a file first" g, [])
  | _ =>
      match seed_files s !! index with
      | None => (set_seed (set_seed_files (seed_files s) None s) (push_log "seed: selected file no longer exists" g), [])
      | Some file =>
          let files := delete index (seed_files s) in
          start_seed_path file (set_seed (set_seed_files files (selection_after index files) s) g)
      end
  end.

(** ** The download page *)
Definition start_download_from_form (share_id_text peers_text output_text auth_psk_text discovery_multicast_text : string)
    (g : EtleGui) : EtleGui * list Effect :=
  let f := g_download g in
  match build_download_command_from path_from f share_id_text peers_text output_text auth_psk_text discovery_multicast_text with
  | Ok (command, share_id) =>
      let id := ShareId_to_string share_id in
      let f := mkDownloadForm share_id_text peers_text output_text (df_parallelism f) (df_request_window f)
                 (df_discovery_port f) (df_discovery_timeout_ms f)
                 (default (df_discovery_multicast f) (parse_ipv4 (str_text discovery_multicast_text))) (df_resume f) auth_psk_text in
      let g := set_log (prepare_new_task_log (g_log g)) (set_download f g) in
      let (seq, tasks) := bump_seq (g_tasks g) in
      let t := mkGuiTransfer ("download:" +:+ id) DownloadKind id (Some share_id) Queued 0 0 0 0 0 "waiting for daemon" seq in
      let tasks := set_progress_text ("download queued · " +:+ id) (f64_of_Z 0) (upsert_transfer t tasks) in
      (push_log ("download queued: " +:+ id) (set_tasks tasks g),
       [SpawnIpcCommand (active_socket_path (g_link g)) DownloadRequestKind command])
  | Err error => (push_log ("download: " +:+ error) g, [])
  | _ => (g, [])
  end.

(** ** Deleting a share *)
Definition set_pending (p : option ShareId) (s : Shelf) : Shelf := mkShelf (selected_share s) p (shares s).
Definition request_delete_selected_share (g : EtleGui) : EtleGui :=
  match selected_share_summary (g_shelf g) with
  | None => push_log "delete: select a share first" (on_link (set_status "select share") g)
  | Some share =>
      push_log ("delete: confirmation shown for " +:+ ShareId_to_string (is_share_id share) +:+ " " +:+ is_name share)
        (on_link (set_status "confirm delete") (on_shelf (set_pending (Some (is_share_id share))) g))
  end.
Definition confirm_delete_selected_share (g : EtleGui) : EtleGui * list Effect :=
  match selected_share_summary (g_shelf g) with
  | None =>
      (push_log "delete: select a share first" (on_link (set_status "select share") (on_shelf (set_pending None) g)), [])
  | Some share =>
      if decide (pending_delete_share (g_shelf g) ≠ Some (is_share_id share)) then (request_delete_selected_share g, [])
      else
        (push_log ("delete requested: " +:+ ShareId_to_string (is_share_id share) +:+ " " +:+ is_name share)
           (on_link (set_status "delete requested") (on_shelf (set_pending None) g)),
         [SpawnIpcCommand (active_socket_path (g_link g)) DeleteShareRequest (DeleteShare (is_share_id share))])
  end.
Definition cancel_delete_share (g : EtleGui) : EtleGui :=
  match pending_delete_share (g_shelf g) with
  | Some _ => push_log "delete cancelled" (on_link (set_status "delete cancelled") (on_shelf (set_pending None) g))
  | None => g
  end.

(** ** One message *)
Definition set_settings (parallelism request_window port timeout : Z) (resume : bool) (f : DownloadForm) : DownloadForm :=
  mkDownloadForm (df_share_id f) (df_peers f) (df_output_path f) parallelism request_window port timeout
    (df_discovery_multicast f) resume (df_auth_psk f).
Definition on_settings (f : DownloadForm → DownloadForm) (g : EtleGui) : EtleGui := set_download (f (g_download g)) g.

Definition update (message : AppInput) (g : EtleGui) : EtleGui * list Effect :=
  match message with
  | ApplySocketText value => apply_socket (on_link (set_draft value) g)
  | Connect => gui_connect g
  | Refresh => spawn_refresh g
  | AutoRefreshTick => if refresh_due (g_link g) (m_now moment) then spawn_refresh g else (g, [])
  | StartWatch => start_watch g
  | OnIpcResponse socket_path kind response =>
      if decide (socket_path = active_socket_path (g_link g)) then
        (apply_ipc_response kind response
           (if decide (kind = ListSharesRequest) then on_link (set_inflight false) g else g), [])
      else (g, [])
  | OnIpcEvent generation event =>
      if decide (generation = watch_generation (g_link g)) then (apply_ipc_event event g, []) else (g, [])
  | IpcWatchStopped generation error =>
      if decide (generation = watch_generation (g_link g)) then
        (push_log ("watch stopped: " +:+ error)
           (on_link (λ l, set_status "offline" (set_connected false (set_watching false (watch_generation l) l))) g), [])
      else (g, [])
  | SelectShare index =>
      if decide (index < length (shares (g_shelf g)))%nat
      then (on_shelf (λ s, mkShelf (Some index) None (shares s)) g, []) else (g, [])
  | CopySelectedShareId =>
      match selected_share_summary (g_shelf g) with
      | Some share =>
          if m_display moment
          then (push_log "share id copied" g, [SetClipboard (ShareId_to_string (is_share_id share))]) else (g, [])
      | None => (g, [])
      end
  | DeleteSelectedShare => (request_delete_selected_share g, [])
  | ConfirmDeleteSelectedShare => confirm_delete_selected_share g
  | CancelDeleteShare => (cancel_delete_share g, [])
  | ClearLog => (set_log (mkLog (clear_activity_on_task (g_log g)) (activity_limit (g_log g)) [] None) g, [])
  | ClearFinishedTransfers => (on_tasks clear_finished_transfers g, [])
  | AddSeedPathText value => (add_seed_path_text value g, [])
  | AddSeedFile file => (add_seed_file file g, [])
  | BrowseSeedFiles => (g, (λ file, SendInput (AddSeedFile file)) <$> default [] (m_picked moment))
  | SelectSeedFile index =>
      if decide (index < length (seed_files (g_seed g)))%nat
      then (set_seed (set_seed_files (seed_files (g_seed g)) (Some index) (g_seed g)) g, []) else (g, [])
  | RemoveSelectedSeedFile => (remove_selected_seed_file g, [])
  | ClearSeedFiles => (set_seed (set_seed_files [] None (g_seed g)) g, [])
  | SetSeedChunkSize value =>
      (set_seed (mkSeedForm (seed_path (g_seed g)) (seed_files (g_seed g)) (selected_seed_file (g_seed g)) (Z.max value 1)) g, [])
  | StartSeedSelected => start_seed_selected g
  | SetParallelism value =>
      (on_settings (λ f, set_settings value (df_request_window f) (df_discovery_port f) (df_discovery_timeout_ms f) (df_resume f) f) g, [])
  | SetRequestWindow value =>
      (on_settings (λ f, set_settings (df_parallelism f) (Z.max value 1) (df_discovery_port f) (df_discovery_timeout_ms f) (df_resume f) f) g, [])
  | SetDiscoveryPort value =>
      (on_settings (λ f, set_settings (df_parallelism f) (df_request_window f) (Z.max value 1) (df_discovery_timeout_ms f) (df_resume f) f) g, [])
  | SetDiscoveryTimeout value =>
      (on_settings (λ f, set_settings (df_parallelism f) (df_request_window f) (df_discovery_port f) (Z.max value 1) (df_resume f) f) g, [])
  | SetResume value =>
      (on_settings (λ f, set_settings (df_parallelism f) (df_request_window f) (df_discovery_port f) (df_discovery_timeout_ms f) value f) g, [])
  | StartDownloadFromForm share_id peers output auth_psk discovery_multicast =>
      start_download_from_form share_id peers output auth_psk discovery_multicast g
  | ApplySettings socket_path auth_psk =>
      apply_socket (on_link (set_draft socket_path)
        (on_settings (λ f, mkDownloadForm (df_share_id f) (df_peers f) (df_output_path f) (df_parallelism f)
           (df_request_window f) (df_discovery_port f) (df_discovery_timeout_ms f) (df_discovery_multicast f) (df_resume f) auth_psk) g))
  | SetAutoRefresh value =>
      (on_link (λ l, mkLink (active_socket_path l) (socket_draft l) (connected l) (watching l) (watch_generation l) value
                       (refresh_interval_secs l) (status l) (last_auto_refresh l) (refresh_inflight l)) g, [])
  | SetClearActivityOnTask value =>
      (set_log (mkLog value (activity_limit (g_log g)) (activity (g_log g)) (last_activity_message (g_log g))) g, [])
  | SetRefreshInterval value =>
      (on_link (λ l, mkLink (active_socket_path l) (socket_draft l) (connected l) (watching l) (watch_generation l)
                       (auto_refresh l) (Z.max value 1) (status l) (last_auto_refresh l) (refresh_inflight l)) g, [])
  | SetActivityLimit value =>
      (set_log (trim_activity (mkLog (clear_activity_on_task (g_log g)) (Nat.max value 20) (activity (g_log g))
                                 (last_activity_message (g_log g)))) g, [])
  end.
End update.

(** [request_timeout] *)
Definition request_timeout (kind : IpcRequestKind) : Z := match kind with PingRequest => 5 | _ => 30 end.
(** The answer to a request: its outcome, or [None] when it timed out. *)
Definition command_answer (show_ipc : IpcError → string) (socket_path : string) (kind : IpcRequestKind)
    (outcome : option (result IpcError IpcResponse)) : AppInput :=
  OnIpcResponse socket_path kind
    match outcome with
    | Some (Ok response) => Ok response
    | Some (Err error) => Err (show_ipc error)
    | Some Panic => Panic
    | Some Diverged => Diverged
    | None => Err (request_label kind +:+ " request timed out")
    end.
