(* ===== verification/GuiProofs.v ===== *)
(** What the graphical client guarantees: an invariant of its state over every run, when
    it asks the daemon to delete, which subscriptions are alive, and the download form.

    A run is a list of messages, each with the surroundings it meets. *)
From stdpp Require Import base tactics list countable strings gmap.
From Stdlib Require Import ZArith Lia SpecFloat Sorted.
From S2P Require Import Prelude Bytes World Text Files Extern Crypto Descriptor Chunker State Library Codec Handshake DownloadState Seed Discovery Config Ipc Output Progress Gui GuiApp.
Local Open Scope Z_scope.
Local Open Scope etle_scope.

(** * Runs *)
Section run.
Context (path_from : string → path) (show_addr : socket_addr → string).

Abbreviation step := (Moment * AppInput)%type.
Definition after (g : EtleGui) (s : step) : EtleGui := (update path_from show_addr s.1 s.2 g).1.
Definition asked (g : EtleGui) (s : step) : list Effect := (update path_from show_addr s.1 s.2 g).2.
Definition run (g : EtleGui) (steps : list step) : EtleGui := foldl after g steps.

Lemma run_snoc g steps s : run g (steps ++ [s]) = after (run g steps) s.
Proof. unfold run. by rewrite foldl_app. Qed.
End run.

(** * Lists *)
Lemma update_first_Forall {A} (P : A → Prop) p f l l' :
  Forall P l → (∀ x, P x → P (f x)) → update_first p f l = Some l' → Forall P l'.
Proof.
  intros Hl Hf. revert l'. induction Hl as [|x l Hx Hl IH]; intros l'; [done|]. cbn [update_first].
  destruct (p x); [intros [= <-]; constructor; auto|]. intros (k & Hk & ->)%fmap_Some. constructor; auto.
Qed.

Lemma update_first_length {A} p f (l l' : list A) : update_first p f l = Some l' → length l' = length l.
Proof.
  revert l'. induction l as [|x l IH]; intros l'; [done|]. cbn [update_first].
  destruct (p x); [by intros [= <-]|]. intros (k & Hk & ->)%fmap_Some. cbn. by rewrite (IH k).
Qed.

(** * The invariant of each group *)
Definition last_entry (l : Log) : Prop :=
  match last_activity_message l with
  | None => activity l = []
  | Some message => ∃ time, last (activity l) = Some (time +:+ "  " +:+ message)
  end.
Definition log_ok (l : Log) : Prop :=
  (20 ≤ activity_limit l)%nat ∧ (length (activity l) ≤ activity_limit l)%nat ∧ last_entry l.

Definition selection_ok {A} (selected : option nat) (l : list A) : Prop :=
  match selected with Some i => (i < length l)%nat | None => True end.
Definition shelf_ok (s : Shelf) : Prop := selection_ok (selected_share s) (shares s).

Definition seq_ok (next : Z) (t : GuiTransfer) : Prop := 1 ≤ gt_updated_seq t ≤ next.
Definition numbered (s : Tasks) : Prop :=
  1 ≤ next_transfer_seq s ≤ u64_max ∧ Forall (seq_ok (next_transfer_seq s)) (transfers s).
Definition tasks_ok (s : Tasks) : Prop :=
  numbered s ∧ StronglySorted (λ a b, transfer_leb a b = true) (transfers s).

Definition seed_ok (path_from : string → path) (s : SeedForm) : Prop :=
  1 ≤ seed_chunk_size s ∧ NoDup (path_from <$> seed_files s) ∧ Forall (λ f, f ≠ ""%string) (seed_files s)
  ∧ selection_ok (selected_seed_file s) (seed_files s) ∧ (selected_seed_file s = None ↔ seed_files s = []).

Definition link_ok (l : Link) : Prop := 1 ≤ refresh_interval_secs l ∧ u64_range (watch_generation l).

Definition gui_ok (path_from : string → path) (g : EtleGui) : Prop :=
  link_ok (g_link g) ∧ log_ok (g_log g) ∧ shelf_ok (g_shelf g) ∧ tasks_ok (g_tasks g) ∧ seed_ok path_from (g_seed g).

(** ** The log *)
Lemma trim_activity_last l : (1 ≤ activity_limit l)%nat → last (activity (trim_activity l)) = last (activity l).
Proof.
  intros Hl. cbn. destruct (decide (length (activity l) ≤ activity_limit l)%nat) as [Hle|Hgt].
  - by replace (length (activity l) - activity_limit l)%nat with 0%nat by lia.
  - set (n := (length (activity l) - activity_limit l)%nat).
    rewrite <- (take_drop n (activity l)) at 2. rewrite last_app.
    destruct (last (drop n (activity l))) eqn:Hd; [done|]. apply last_None in Hd.
    apply (f_equal length) in Hd. rewrite length_drop in Hd. cbn in Hd. lia.
Qed.

Lemma trim_activity_ok l : (20 ≤ activity_limit l)%nat → last_entry l → log_ok (trim_activity l).
Proof.
  intros Hl Hlast. split; [done|]. split; [cbn; rewrite length_drop; lia|]. unfold last_entry in *.
  change (last_activity_message (trim_activity l)) with (last_activity_message l).
  destruct (last_activity_message l); [by rewrite trim_activity_last by lia|]. cbn. by rewrite Hlast, drop_nil.
Qed.

Lemma log_message_ok time message l : log_ok l → log_ok (log_message time message l).
Proof.
  intros (Hl & Hlen & Hlast). unfold log_message. case_decide; [done|]. apply trim_activity_ok; [done|].
  unfold last_entry. cbn. exists time. by rewrite last_snoc.
Qed.

Lemma prepare_new_task_log_ok l : log_ok l → log_ok (prepare_new_task_log l).
Proof. intros (Hl & ? & ?). unfold prepare_new_task_log. destruct (clear_activity_on_task l); [|done]. split_and!; cbn; [done|lia|done]. Qed.

(** ** Transfers *)
Lemma transfer_leb_total a b : transfer_leb a b = false → transfer_leb b a = true.
Proof. unfold transfer_leb. intros H. destruct (gt_status a), (gt_status b); cbn in *; lia. Qed.
Lemma transfer_leb_trans a b c : transfer_leb a b = true → transfer_leb b c = true → transfer_leb a c = true.
Proof. unfold transfer_leb. destruct (gt_status a), (gt_status b), (gt_status c); cbn; lia. Qed.

Lemma seq_ok_mono a b t : a ≤ b → seq_ok a t → seq_ok b t.
Proof. unfold seq_ok. lia. Qed.

Lemma bump_seq_ok s seq s' : bump_seq s = (seq, s') → tasks_ok s → tasks_ok s' ∧ 1 ≤ seq ≤ next_transfer_seq s'.
Proof.
  intros [= <- <-] [[Hn Hf] Hs]. unfold tasks_ok, numbered, saturating_add. cbn. split_and!; try lia; [|done].
  eapply Forall_impl; [exact Hf|]. intros t. apply seq_ok_mono. lia.
Qed.

Lemma sort_transfers_ok s : numbered s → tasks_ok (sort_transfers s).
Proof.
  intros [Hn Hl]. split; [split; [done|]|].
  - cbn. by rewrite sort_by_perm.
  - apply sort_by_sorted; [apply transfer_leb_total|apply transfer_leb_trans].
Qed.

Lemma set_transfers_numbered l s : numbered s → Forall (seq_ok (next_transfer_seq s)) l → numbered (set_transfers l s).
Proof. intros [Hn _] Hl. by split. Qed.

Lemma upsert_transfer_ok t s : tasks_ok s → seq_ok (next_transfer_seq s) t → tasks_ok (upsert_transfer t s).
Proof.
  intros [Hn Hs] Ht. unfold upsert_transfer. destruct (is_transfer_hidden s t); [done|]. apply sort_transfers_ok, set_transfers_numbered; [done|].
  destruct (update_first _ _ _) as [l|] eqn:Hu; cbn [default].
  - eapply update_first_Forall; [apply Hn| |exact Hu]. done.
  - apply Forall_app. split; [apply Hn|by constructor].
Qed.

Lemma filter_Forall {A} (P Q : A → Prop) `{!∀ x, Decision (P x)} l : Forall Q l → Forall Q (filter P l).
Proof. rewrite !Forall_forall. intros Hl x [_ Hx]%list_elem_of_filter. auto. Qed.

Lemma filter_sorted {A} (R : A → A → Prop) (P : A → Prop) `{!∀ x, Decision (P x)} l : StronglySorted R l → StronglySorted R (filter P l).
Proof.
  induction 1 as [|x l Hl IH Hx]; [constructor|]. rewrite filter_cons. case_decide; [|done]. constructor; [done|]. by apply filter_Forall.
Qed.

Lemma keep_transfers_ok (P : GuiTransfer → Prop) `{!∀ x, Decision (P x)} hidden text f s :
  tasks_ok s → tasks_ok (mkTasks (filter P (transfers s)) hidden text f (next_transfer_seq s)).
Proof. intros [[Hn Hf] Hs]. split; [split; [done|by apply filter_Forall]|by apply filter_sorted]. Qed.

Lemma set_progress_text_ok text f s : tasks_ok s → tasks_ok (set_progress_text text f s).
Proof. done. Qed.
Lemma idle_if_empty_ok s : tasks_ok s → tasks_ok (idle_if_empty s).
Proof. intros. unfold idle_if_empty. by case_decide. Qed.

(** A change of the elements of [transfers], with a new number or an old one. *)
Lemma sort_changed_ok (l : list GuiTransfer) s :
  tasks_ok s → Forall (seq_ok (next_transfer_seq s)) l → tasks_ok (sort_transfers (set_transfers l s)).
Proof. intros [Hn _] Hl. by apply sort_transfers_ok, set_transfers_numbered. Qed.

Lemma mark_recent_running_failed_ok reason s : tasks_ok s → tasks_ok (mark_recent_running_failed reason s).
Proof.
  intros Hs. unfold mark_recent_running_failed. destruct (last_max _ _ _); [|apply sort_transfers_ok, Hs].
  apply sort_changed_ok; [done|]. apply Forall_alter; [apply Hs|]. by intros t Ht.
Qed.

Lemma change_latest_ok index f otherwise s :
  tasks_ok s → (∀ t, seq_ok (next_transfer_seq s) t → seq_ok (next_transfer_seq s) (f t)) →
  (∀ s, tasks_ok s → tasks_ok (otherwise s)) → tasks_ok (change_latest index f otherwise s).
Proof.
  intros Hs Hf Ho. unfold change_latest. destruct index as [i|]; [|by apply sort_transfers_ok, Ho].
  destruct (transfers s !! i) as [t|] eqn:Ht; [|by apply sort_transfers_ok, Ho].
  apply sort_transfers_ok. split; [apply Hs|]. cbn. apply Forall_insert; [apply Hs|].
  apply Hf. eapply Forall_lookup_1; [apply Hs|exact Ht].
Qed.

(** The operations that number a transfer. *)
Ltac numbered :=
  match goal with |- context [bump_seq ?s] =>
    let seq := fresh "seq" in let s' := fresh "s'" in let E := fresh "Hbump" in
    destruct (bump_seq s) as [seq s'] eqn:E; apply bump_seq_ok in E as [? ?]; [|done]
  end.

Lemma chunk_completed_ok share_id completed total s : tasks_ok s → tasks_ok (chunk_completed share_id completed total s).
Proof. intros Hs. unfold chunk_completed. numbered. by apply change_latest_ok. Qed.

Lemma transfer_completed_event_ok job_id share_id output shelf s : tasks_ok s → tasks_ok (transfer_completed_event job_id share_id output shelf s).
Proof.
  intros Hs. unfold transfer_completed_event. numbered. apply change_latest_ok; [done| |done].
  intros t _. by destruct (find_share share_id shelf).
Qed.

Lemma transfer_completed_answer_ok share_id output name size chunks s :
  tasks_ok s → tasks_ok (transfer_completed_answer share_id output name size chunks s).
Proof. intros Hs. unfold transfer_completed_answer. numbered. by apply change_latest_ok. Qed.

Lemma transfer_queued_answer_ok share_id job_id s : tasks_ok s → tasks_ok (transfer_queued_answer share_id job_id s).
Proof.
  intros Hs. unfold transfer_queued_answer. numbered. destruct (update_first _ _ _) as [l|] eqn:Hu.
  - apply sort_changed_ok; [done|]. eapply update_first_Forall; [|intros t _|exact Hu]; [by apply H|done].
  - apply sort_transfers_ok. by apply upsert_transfer_ok.
Qed.

Lemma apply_task_progress_ok job_id task label a b c d e shelf s : tasks_ok s → tasks_ok (apply_task_progress job_id task label a b c d e shelf s).
Proof. intros Hs. unfold apply_task_progress. numbered. by apply upsert_transfer_ok. Qed.

Lemma apply_transfer_progress_ok job_id share_id a b c d e shelf s : tasks_ok s → tasks_ok (apply_transfer_progress job_id share_id a b c d e shelf s).
Proof. intros Hs. unfold apply_transfer_progress. numbered. by apply upsert_transfer_ok. Qed.

Lemma sync_existing_transfer_from_share_ok share s : tasks_ok s → tasks_ok (sync_existing_transfer_from_share share s).
Proof.
  intros Hs. unfold sync_existing_transfer_from_share. numbered. destruct (list_find _ _) as [[index t]|].
  - apply sort_transfers_ok. assert (numbered (set_transfers (<[index := sync_transfer share seq t]> (transfers s')) s')) as Hn.
    { apply set_transfers_numbered; [by apply H|]. by apply Forall_insert; [apply H|]. }
    by destruct (is_finished _).
  - destruct (_ && _); [|done]. by apply upsert_transfer_ok.
Qed.

Lemma sync_existing_transfers_from_shares_ok l s : tasks_ok s → tasks_ok (sync_existing_transfers_from_shares l s).
Proof.
  unfold sync_existing_transfers_from_shares. revert s. induction l as [|share l IH]; intros s Hs; [done|]. cbn [foldl].
  by apply IH, sync_existing_transfer_from_share_ok.
Qed.

Lemma mark_seed_completed_from_share_ok share s : tasks_ok s → tasks_ok (mark_seed_completed_from_share share s).
Proof.
  intros Hs. unfold mark_seed_completed_from_share. destruct (negb _); [done|]. numbered.
  set (l := _ <$> transfers s'). assert (Forall (seq_ok (next_transfer_seq s')) l) as Hl.
  { apply Forall_fmap. eapply Forall_impl; [apply H|]. intros t Ht. cbn. by destruct (seed_of_share _ _ _). }
  destruct (existsb _ (transfers s')) eqn:Hany; cbn [negb andb]; [by apply sort_changed_ok|].
  assert (l = transfers s') as ->.
  { unfold l. clear l Hl. revert Hany. induction (transfers s') as [|t k IH]; [done|]. cbn [existsb fmap list_fmap].
    intros [Ht Hk]%orb_false_iff. rewrite Ht. f_equal. by apply IH. }
  replace (set_transfers (transfers s') s') with s' by (by destruct s').
  destruct (bool_decide _); apply sort_transfers_ok; [by apply sync_existing_transfer_from_share_ok|apply H].
Qed.

Lemma clear_finished_transfers_ok s : tasks_ok s → tasks_ok (clear_finished_transfers s).
Proof. intros Hs. unfold clear_finished_transfers. by apply idle_if_empty_ok, keep_transfers_ok. Qed.

Lemma forget_share_transfers_ok share_id s : tasks_ok s → tasks_ok (forget_share_transfers share_id s).
Proof. intros Hs. unfold forget_share_transfers, set_transfers. by apply idle_if_empty_ok, keep_transfers_ok. Qed.

Create HintDb gui discriminated.
#[export] Hint Resolve log_message_ok prepare_new_task_log_ok mark_recent_running_failed_ok chunk_completed_ok
  transfer_completed_event_ok transfer_completed_answer_ok transfer_queued_answer_ok apply_task_progress_ok
  apply_transfer_progress_ok sync_existing_transfer_from_share_ok sync_existing_transfers_from_shares_ok
  mark_seed_completed_from_share_ok clear_finished_transfers_ok forget_share_transfers_ok : gui.

(** ** Selections *)
Lemma upsert_share_ok share s : shelf_ok s → shelf_ok (upsert_share share s).
Proof.
  unfold shelf_ok, upsert_share, selection_ok. cbn. destruct (selected_share s) as [i|]; [|done]. intros Hi.
  destruct (update_first _ _ _) as [l|] eqn:Hu; simpl; [by rewrite (update_first_length _ _ _ _ Hu)|].
  rewrite length_app. lia.
Qed.

Lemma remove_share_ok share_id s : shelf_ok (remove_share share_id s).
Proof.
  unfold shelf_ok, remove_share, selection_ok. cbn. destruct (is_share_id <$> _) as [selected|]; [|done]. case_decide; [|done].
  destruct (list_find _ _) as [[i share]|] eqn:Hf; [|done]. cbn. apply list_find_Some in Hf as [Hi _]. by eapply lookup_lt_Some.
Qed.

Lemma selection_after_ok index (files : list string) : selection_ok (selection_after index files) files.
Proof. unfold selection_after, selection_ok. destruct files; cbn; [done|lia]. Qed.

Lemma removed_seed_ok path_from index s :
  seed_ok path_from s → let files := delete index (seed_files s) in seed_ok path_from (set_seed_files files (selection_after index files) s).
Proof.
  intros (Hc & Hn & He & _ & _) files. split_and!; cbn.
  - done.
  - unfold files. rewrite list_fmap_delete. eapply sublist_NoDup; [exact Hn|apply sublist_delete].
  - by apply Forall_delete.
  - apply selection_after_ok.
  - unfold selection_after. by destruct files.
Qed.
#[export] Hint Resolve upsert_share_ok remove_share_ok removed_seed_ok : gui.

(** * The whole state *)
Section gui.
Context (path_from : string → path) (show_addr : socket_addr → string).
Abbreviation ok := (gui_ok path_from).

Lemma push_log_ok moment message g : ok g → ok (push_log moment message g).
Proof. intros (? & ? & ? & ? & ?). split_and!; [done| |done..]. by apply log_message_ok. Qed.
Lemma on_tasks_ok f g : ok g → (tasks_ok (g_tasks g) → tasks_ok (f (g_tasks g))) → ok (on_tasks f g).
Proof. intros (? & ? & ? & Ht & ?) Hf. split_and!; [done..| |done]. by apply Hf. Qed.
Lemma on_shelf_ok f g : ok g → (shelf_ok (g_shelf g) → shelf_ok (f (g_shelf g))) → ok (on_shelf f g).
Proof. intros (? & ? & Hs & ? & ?) Hf. split_and!; [done..| |done|done]. by apply Hf. Qed.
Lemma on_link_ok f g : ok g → (link_ok (g_link g) → link_ok (f (g_link g))) → ok (on_link f g).
Proof. intros (Hl & ? & ? & ? & ?) Hf. split_and!; [|done..]. by apply Hf. Qed.
Lemma set_log_ok l g : ok g → log_ok l → ok (set_log l g).
Proof. intros (? & ? & ? & ? & ?) ?. by split_and!. Qed.
Lemma set_seed_ok s g : ok g → seed_ok path_from s → ok (set_seed s g).
Proof. intros (? & ? & ? & ? & ?) ?. by split_and!. Qed.
Lemma set_download_ok f g : ok g → ok (set_download f g).
Proof. by intros (? & ? & ? & ? & ?). Qed.

Lemma set_connected_ok b l : link_ok l → link_ok (set_connected b l).
Proof. done. Qed.
Lemma set_status_ok st l : link_ok l → link_ok (set_status st l).
Proof. done. Qed.
Lemma set_inflight_ok b l : link_ok l → link_ok (set_inflight b l).
Proof. done. Qed.
Hint Resolve set_connected_ok set_status_ok set_inflight_ok : gui.

(** One layer of a message at a time. *)
Ltac gui := repeat (intros; cbv beta; lazymatch goal with
  | |- gui_ok _ (push_log _ _ _) => apply push_log_ok
  | |- gui_ok _ (on_tasks _ _) => apply on_tasks_ok
  | |- gui_ok _ (on_shelf _ _) => apply on_shelf_ok
  | |- gui_ok _ (on_link _ _) => apply on_link_ok
  | |- gui_ok _ (if decide ?P then _ else _) => destruct (decide P)
  | |- gui_ok _ (if ?b then _ else _) => destruct b
  | |- gui_ok _ (match ?x with _ => _ end) => destruct x
  | |- gui_ok _ _ => assumption
  | |- tasks_ok _ => solve [auto with gui]
  | |- link_ok _ => solve [auto with gui]
  | |- shelf_ok _ => solve [auto with gui]
  end).

Lemma apply_ipc_response_ok moment kind response g : ok g → ok (apply_ipc_response moment kind response g).
Proof.
  intros Hg. unfold apply_ipc_response. destruct response as [[]|error| |]; [gui..|destruct kind; gui|done|done].
  intros Hs. unfold shelf_ok, selection_ok in *. cbn in *. destruct (selected_share (g_shelf g)) as [index|]; [|done].
  case_decide; [done|]. cbn. lia.
Qed.

Lemma apply_ipc_event_ok moment event g : ok g → ok (apply_ipc_event show_addr moment event g).
Proof. intros Hg. unfold apply_ipc_event. destruct event; gui. Qed.

Lemma apply_socket_ok moment g : ok g → ok (apply_socket moment g).1.
Proof.
  intros Hg. unfold apply_socket. case_decide; cbn [fst]; [by apply push_log_ok|]. case_decide; [|done].
  apply push_log_ok, on_shelf_ok; [|done]. destruct Hg as ([Hr Hw] & ? & ? & ? & ?). split_and!; [|done..].
  split; [done|]. cbn. unfold u64_range, saturating_add in *. lia.
Qed.

Lemma spawn_refresh_ok moment g : ok g → ok (spawn_refresh moment g).1.
Proof. intros Hg. unfold spawn_refresh. destruct (refresh_inflight _); cbn [fst]; [done|]. by destruct Hg as ([Hr Hw] & ? & ? & ? & ?). Qed.

Lemma start_watch_ok moment g : ok g → ok (start_watch moment g).1.
Proof.
  intros Hg. unfold start_watch. case_decide; cbn [fst]; [gui|]. destruct (watching _); cbn [fst]; [by apply push_log_ok|].
  apply push_log_ok. destruct Hg as ([Hr Hw] & ? & ? & ? & ?). split_and!; [|done..].
  split; [done|]. cbn. unfold u64_range, saturating_add in *. lia.
Qed.

Lemma add_seed_file_ok moment file g : ok g → ok (add_seed_file path_from moment file g).
Proof.
  intros Hg. unfold add_seed_file. case_decide as Hne; [done|]. destruct (existsb _ _) eqn:Hany; [by apply push_log_ok|].
  apply set_seed_ok; [by apply push_log_ok|]. destruct Hg as (_ & _ & _ & _ & Hc & Hn & He & Hsel & Hiff).
  split_and!; cbn.
  - done.
  - rewrite fmap_app. apply NoDup_app. split_and!; [done| |by apply NoDup_singleton]. intros q Hq Hin%list_elem_of_singleton.
    apply list_elem_of_fmap in Hq as (f & -> & Hf). apply not_true_iff_false in Hany. apply Hany, existsb_exists.
    exists f. split; [by apply list_elem_of_In|by apply bool_decide_eq_true].
  - apply Forall_app. split; [done|by constructor].
  - destruct (selected_seed_file (g_seed g)) as [i|]; cbn in *; rewrite length_app; cbn; lia.
  - destruct (selected_seed_file (g_seed g)); (split; [done|]); by intros [_ [=]]%app_eq_nil.
Qed.

Lemma add_seed_path_text_ok moment value g : ok g → ok (add_seed_path_text path_from moment value g).
Proof.
  intros Hg. unfold add_seed_path_text. case_decide; [done|]. apply (add_seed_file_ok moment (str_trim value)) in Hg.
  apply set_seed_ok; [done|]. apply Hg.
Qed.

Lemma remove_selected_seed_file_ok moment g : ok g → ok (remove_selected_seed_file moment g).
Proof.
  intros Hg. unfold remove_selected_seed_file. destruct (selected_seed_file (g_seed g)) as [i|]; [|done].
  destruct (seed_files (g_seed g) !! i); [|done]. apply set_seed_ok; [by apply push_log_ok|]. apply removed_seed_ok, Hg.
Qed.

Lemma queue_task_ok (t : Z → GuiTransfer) text f g :
  (∀ seq, gt_updated_seq (t seq) = seq) → ok g →
  let (seq, tasks) := bump_seq (g_tasks g) in ok (set_tasks (set_progress_text text f (upsert_transfer (t seq) tasks)) g).
Proof.
  intros Ht (? & ? & ? & Hs & ?). destruct (bump_seq (g_tasks g)) as [seq tasks] eqn:Hb. apply bump_seq_ok in Hb as [Hok Hseq]; [|done].
  split_and!; [done..| |done]. apply set_progress_text_ok, upsert_transfer_ok; [done|]. unfold seq_ok. by rewrite Ht.
Qed.

Lemma start_seed_path_ok moment file g : ok g → ok (start_seed_path path_from moment file g).1.
Proof.
  intros Hg. unfold start_seed_path. assert (ok (set_log (prepare_new_task_log (g_log g)) g)) as Hg'
    by (apply set_log_ok; [done|]; apply prepare_new_task_log_ok, Hg).
  pose proof (queue_task_ok (λ seq, mkGuiTransfer ("seed:" +:+ file_label file +:+ ":" +:+ dec seq) SeedKind (file_label file) None
    Running 0 0 0 0 0 ("encrypting · " +:+ file) seq) ("encrypting · " +:+ file) (f64_of_Z 0) _ (λ _, eq_refl) Hg') as Hq.
  destruct (bump_seq _) as [seq tasks]. by apply push_log_ok.
Qed.

Lemma start_seed_selected_ok moment g : ok g → ok (start_seed_selected path_from moment g).1.
Proof.
  intros Hg. unfold start_seed_selected. destruct (seed_files (g_seed g)) as [|f l] eqn:Hfiles; [by apply push_log_ok|]. rewrite <- Hfiles.
  destruct (seed_files (g_seed g) !! _) as [file|] eqn:Hl.
  - apply start_seed_path_ok, set_seed_ok; [done|]. apply removed_seed_ok, Hg.
  - exfalso. destruct Hg as (_ & _ & _ & _ & _ & _ & _ & Hsel & Hiff). rewrite lookup_ge_None in Hl.
    destruct (selected_seed_file (g_seed g)) as [i|]; cbn in *; [lia|]. rewrite (proj1 Hiff eq_refl) in Hfiles. done.
Qed.

Lemma start_download_from_form_ok moment id peers output psk multicast g :
  ok g → ok (start_download_from_form path_from moment id peers output psk multicast g).1.
Proof.
  intros Hg. unfold start_download_from_form. destruct (build_download_command_from _ _ _ _ _ _ _) as [[command share_id]|error| |];
    cbn [fst]; [|by apply push_log_ok|done..].
  set (f := mkDownloadForm _ _ _ _ _ _ _ _ _ _). assert (ok (set_log (prepare_new_task_log (g_log g)) (set_download f g))) as Hg'.
  { apply set_log_ok; [by apply set_download_ok|]. apply prepare_new_task_log_ok, Hg. }
  set (name := ShareId_to_string share_id).
  pose proof (queue_task_ok (λ seq, mkGuiTransfer ("download:" +:+ name) DownloadKind name (Some share_id) Queued 0 0 0 0 0 "waiting for daemon" seq)
    ("download queued · " +:+ name) (f64_of_Z 0) _ (λ _, eq_refl) Hg') as Hq.
  destruct (bump_seq _) as [seq tasks]. by apply push_log_ok.
Qed.

Lemma request_delete_ok moment g : ok g → ok (request_delete_selected_share moment g).
Proof. intros Hg. unfold request_delete_selected_share. destruct (selected_share_summary _); gui; done. Qed.

Lemma confirm_delete_ok moment g : ok g → ok (confirm_delete_selected_share moment g).1.
Proof.
  intros Hg. unfold confirm_delete_selected_share. destruct (selected_share_summary _); [|cbn [fst]; gui; done].
  case_decide; cbn [fst]; [by apply request_delete_ok|gui; done].
Qed.

Lemma update_ok moment message g : ok g → ok (update path_from show_addr moment message g).1.
Proof.
  intros Hg. destruct message; cbn [update].
  - by apply apply_socket_ok, on_link_ok.
  - unfold gui_connect. case_decide; cbn [fst]; gui.
  - by apply spawn_refresh_ok.
  - destruct (refresh_due _ _); [by apply spawn_refresh_ok|done].
  - by apply start_watch_ok.
  - case_decide; [|done]. apply apply_ipc_response_ok. cbn [fst]. gui.
  - case_decide; [|done]. by apply apply_ipc_event_ok.
  - case_decide; [|done]. apply push_log_ok. by apply on_link_ok.
  - case_decide; [|done]. by apply on_shelf_ok.
  - destruct (selected_share_summary _); [|done]. destruct (m_display moment); [by apply push_log_ok|done].
  - by apply request_delete_ok.
  - by apply confirm_delete_ok.
  - cbn [fst]. unfold cancel_delete_share. destruct (pending_delete_share _); gui; done.
  - apply set_log_ok; [done|]. destruct Hg as (_ & (Hl & _) & _). split_and!; cbn; [done|lia|done].
  - cbn [fst]. gui.
  - by apply add_seed_path_text_ok.
  - by apply add_seed_file_ok.
  - done.
  - case_decide; [|done]. apply set_seed_ok; [done|]. destruct Hg as (_ & _ & _ & _ & ? & ? & ? & _ & _).
    split_and!; cbn; [done..|]. split; [done|]. intros Hnil. rewrite Hnil in *. cbn in *. lia.
  - by apply remove_selected_seed_file_ok.
  - apply set_seed_ok; [done|]. destruct Hg as (_ & _ & _ & _ & ? & _). split_and!; cbn; [done|constructor|constructor|done|done].
  - apply set_seed_ok; [done|]. destruct Hg as (_ & _ & _ & _ & ? & ? & ? & ? & ?). split_and!; cbn; [lia|done..].
  - by apply start_seed_selected_ok.
  - done.
  - done.
  - done.
  - done.
  - done.
  - by apply start_download_from_form_ok.
  - by apply apply_socket_ok, on_link_ok.
  - by apply on_link_ok.
  - apply set_log_ok; [done|]. apply Hg.
  - apply on_link_ok; [done|]. intros [Hr Hw]. split; [cbn; lia|done].
  - apply set_log_ok; [done|]. destruct Hg as (_ & (Hl & Hlen & Hlast) & _). apply trim_activity_ok; [cbn; lia|done].
Qed.
End gui.

(** * Deletion *)
Section deletion.
Context (path_from : string → path) (show_addr : socket_addr → string).
Abbreviation after := (after path_from show_addr).
Abbreviation asked := (asked path_from show_addr).
Abbreviation run := (run path_from show_addr).

Definition pending (g : EtleGui) : option ShareId := pending_delete_share (g_shelf g).
Definition selected_id (g : EtleGui) : option ShareId := is_share_id <$> selected_share_summary (g_shelf g).
Definition asks_delete (message : AppInput) : Prop := message = DeleteSelectedShare ∨ message = ConfirmDeleteSelectedShare.

(** Nothing else makes a share the one to delete. *)
Lemma request_delete_pending moment g id :
  pending (request_delete_selected_share moment g) = Some id → pending g = Some id ∨ selected_id g = Some id.
Proof. unfold request_delete_selected_share, selected_id. destruct (selected_share_summary _); cbn; [right; congruence|by left]. Qed.

Lemma confirm_delete_pending moment g id :
  pending (confirm_delete_selected_share moment g).1 = Some id → pending g = Some id ∨ selected_id g = Some id.
Proof.
  unfold confirm_delete_selected_share. destruct (selected_share_summary _) as [share|] eqn:Hs; [|done].
  case_decide; [apply request_delete_pending|done].
Qed.

Lemma apply_ipc_response_pending moment kind response g id :
  pending (apply_ipc_response moment kind response g) = Some id → pending g = Some id.
Proof.
  destruct response as [[]|error| |]; cbn; try done.
  - case_decide; done.
  - case_decide; done.
  - by destruct kind.
Qed.

Lemma apply_ipc_event_pending moment event g id :
  pending (apply_ipc_event show_addr moment event g) = Some id → pending g = Some id.
Proof. destruct event; cbn; try done. case_decide; done. Qed.

Lemma add_seed_file_pending moment file g : pending (add_seed_file path_from moment file g) = pending g.
Proof. unfold add_seed_file. case_decide; [done|]. by destruct (existsb _ _). Qed.

Lemma apply_socket_pending moment g : pending (apply_socket moment g).1 = pending g.
Proof. unfold apply_socket. case_decide; [done|]. cbn [fst]. by case_decide. Qed.

Lemma start_seed_path_pending moment file g : pending (start_seed_path path_from moment file g).1 = pending g.
Proof. done. Qed.

Lemma pending_step g s id :
  pending (after g s) = Some id → pending g = Some id ∨ selected_id g = Some id ∧ asks_delete s.2.
Proof.
  unfold after, asks_delete. destruct s as [moment message]. cbn [fst snd]. destruct message; cbn [update].
  - rewrite apply_socket_pending. by left.
  - unfold gui_connect. case_decide; by left.
  - unfold spawn_refresh. destruct (refresh_inflight _); by left.
  - unfold spawn_refresh. destruct (refresh_due _ _); [destruct (refresh_inflight _)|]; by left.
  - unfold start_watch. case_decide; [by left|]. destruct (watching _); by left.
  - case_decide; [|by left]. intros Hp%apply_ipc_response_pending. left. by case_decide.
  - case_decide; [|by left]. intros Hp%apply_ipc_event_pending. by left.
  - case_decide; by left.
  - case_decide; [done|by left].
  - destruct (selected_share_summary _); [destruct (m_display moment)|]; by left.
  - intros [?|?]%request_delete_pending; [by left|]. right. split; [done|by left].
  - intros [?|?]%confirm_delete_pending; [by left|]. right. split; [done|by right].
  - cbn [fst]. unfold cancel_delete_share. destruct (pending_delete_share (g_shelf g)) eqn:Hp; [done|]. by left.
  - by left.
  - by left.
  - cbn [fst]. unfold add_seed_path_text. case_decide; [by left|]. unfold pending. cbn. fold (pending (add_seed_file path_from moment (str_trim value) g)).
    rewrite add_seed_file_pending. by left.
  - cbn [fst]. rewrite add_seed_file_pending. by left.
  - by left.
  - case_decide; by left.
  - cbn [fst]. unfold remove_selected_seed_file. destruct (selected_seed_file _); [|by left]. destruct (seed_files _ !! _); by left.
  - by left.
  - by left.
  - unfold start_seed_selected. destruct (seed_files (g_seed g)); [by left|]. destruct (_ !! _); by left.
  - by left.
  - by left.
  - by left.
  - by left.
  - by left.
  - unfold start_download_from_form. destruct (build_download_command_from _ _ _ _ _ _ _) as [[]| | |]; by left.
  - rewrite apply_socket_pending. by left.
  - by left.
  - by left.
  - by left.
  - by left.
Qed.

(** Where the request comes from. *)
Lemma delete_asked g s socket kind id :
  SpawnIpcCommand socket kind (DeleteShare id) ∈ asked g s →
  s.2 = ConfirmDeleteSelectedShare ∧ pending g = Some id ∧ selected_id g = Some id
  ∧ socket = active_socket_path (g_link g) ∧ kind = DeleteShareRequest ∧ pending (after g s) = None.
Proof.
  unfold asked, after. destruct s as [moment message]. cbn [fst snd].
  assert (∀ e : Effect, e ∉ []) as Hnil by (intros e; apply not_elem_of_nil).
  assert (∀ e e' : Effect, e ∈ [e'] → e = e') as Hone by (intros e e'; apply list_elem_of_singleton).
  assert (∀ g e, e ∈ (apply_socket moment g).2 → ∃ m, e = SendInput m) as Hsock.
  { intros g' e. unfold apply_socket. case_decide; [by intros []%Hnil|]. cbn [snd]. rewrite !elem_of_cons.
    intros [->|[->|[->|[]%Hnil]]]; by eexists. }
  assert (∀ g e, e ∈ (spawn_refresh moment g).2 → ∃ socket, e = SpawnIpcCommand socket ListSharesRequest ListShares) as Hrefresh.
  { intros g' e. unfold spawn_refresh. destruct (refresh_inflight _); [by intros []%Hnil|]. intros ->%Hone. by eexists. }
  destruct message; cbn [update]; try (by intros []%Hnil).
  - by intros [? ?]%Hsock.
  - unfold gui_connect. case_decide; [by intros []%Hnil|]. by intros ?%Hone.
  - by intros [? ?]%Hrefresh.
  - destruct (refresh_due _ _); [by intros [? ?]%Hrefresh|by intros []%Hnil].
  - unfold start_watch. case_decide; [by intros []%Hnil|]. destruct (watching _); [by intros []%Hnil|]. by intros ?%Hone.
  - case_decide; by intros []%Hnil.
  - case_decide; by intros []%Hnil.
  - case_decide; by intros []%Hnil.
  - case_decide; by intros []%Hnil.
  - destruct (selected_share_summary _); [|by intros []%Hnil]. destruct (m_display moment); [by intros ?%Hone|by intros []%Hnil].
  - unfold confirm_delete_selected_share, selected_id, pending. destruct (selected_share_summary _) as [share|]; [|by intros []%Hnil].
    case_decide as Hp; [by intros []%Hnil|]. intros [= -> -> ->]%Hone. by split_and!.
  - cbn [snd]. intros (f & Hf & _)%list_elem_of_fmap. done.
  - case_decide; by intros []%Hnil.
  - unfold start_seed_selected. destruct (seed_files (g_seed g)); [by intros []%Hnil|]. destruct (_ !! _); [|by intros []%Hnil].
    unfold start_seed_path. destruct (bump_seq _). by intros ?%Hone.
  - unfold start_download_from_form. destruct (build_download_command_from _ _ _ _ _ _ _) as [[command id']| | |] eqn:Hb;
      [|by intros []%Hnil..]. destruct (bump_seq _). intros [= -> -> <-]%Hone. exfalso. revert Hb. unfold build_download_command_from.
    rewrite result_bind_Ok. setoid_rewrite result_bind_Ok. setoid_rewrite result_bind_Ok. intros (? & _ & ? & _ & ? & _ & Hb).
    destruct (df_resume _); discriminate Hb.
  - by intros [? ?]%Hsock.
Qed.

(** A pending deletion was asked for while its share was the selected one, and it has
    been pending ever since. *)
Lemma pending_asked g0 steps id :
  pending g0 = None → pending (run g0 steps) = Some id →
  ∃ pre request post, steps = pre ++ request :: post ∧ selected_id (run g0 pre) = Some id ∧ asks_delete request.2
    ∧ ∀ k, pending (run g0 (pre ++ request :: take k post)) = Some id.
Proof.
  intros H0. induction steps as [|s steps IH] using rev_ind; [cbn; congruence|]. rewrite run_snoc. intros Hp.
  assert (∀ k pre request post, pending (run g0 (pre ++ request :: post)) = Some id →
            pending (after (run g0 (pre ++ request :: post)) s) = Some id →
            (∀ k, pending (run g0 (pre ++ request :: take k post)) = Some id) →
            pending (run g0 (pre ++ request :: take k (post ++ [s]))) = Some id) as Hext.
  { intros k pre request post _ Hafter Hk. destruct (decide (k ≤ length post)%nat).
    - by rewrite take_app_le.
    - rewrite take_ge by (rewrite length_app; cbn; lia). rewrite app_comm_cons, app_assoc, run_snoc. done. }
  destruct (pending_step _ _ _ Hp) as [Hbefore|[Hsel Hask]].
  - destruct (IH Hbefore) as (pre & request & post & -> & Hsel & Hask & Hk). exists pre, request, (post ++ [s]).
    split_and!; [by rewrite <- app_assoc|done|done|]. intros k. by apply Hext.
  - exists steps, s, []. split_and!; [done|done|done|]. intros k. by rewrite take_nil, run_snoc.
Qed.
End deletion.

(** * Subscriptions *)
Section watches.
Context (path_from : string → path) (show_addr : socket_addr → string).
Abbreviation after := (after path_from show_addr).
Abbreviation asked := (asked path_from show_addr).
Abbreviation run := (run path_from show_addr).

Definition generation_of (e : Effect) : option Z := match e with SpawnIpcWatch _ generation => Some generation | _ => None end.
Fixpoint watches (g : EtleGui) (steps : list (Moment * AppInput)) : list Z :=
  match steps with
  | [] => []
  | s :: steps => omap generation_of (asked g s) ++ watches (after g s) steps
  end.

Lemma watches_snoc g steps s : watches g (steps ++ [s]) = watches g steps ++ omap generation_of (asked (run g steps) s).
Proof.
  revert g. induction steps as [|t steps IH]; intros g; cbn; [by rewrite app_nil_r|]. by rewrite IH, app_assoc.
Qed.
(** The watch state: the subscriptions so far, the last of which is the live one. *)
Definition watch_ok (count : Z) (gens : list Z) (l : Link) : Prop :=
  0 ≤ watch_generation l ≤ count ∧ StronglySorted Z.lt gens ∧ Forall (λ g, 1 ≤ g ≤ watch_generation l) gens
  ∧ (watching l = true → last gens = Some (watch_generation l)).

Lemma watch_ok_same count gens l l' :
  watch_ok count gens l → watch_generation l' = watch_generation l → (watching l' = true → watching l = true) →
  watch_ok (count + 1) (gens ++ []) l'.
Proof. intros (Hg & Hs & Hf & Hl) Hgen Hw. rewrite app_nil_r. unfold watch_ok. rewrite Hgen. split_and!; [lia|lia|done|done|auto]. Qed.

Lemma watch_ok_new count gens l l' :
  watch_ok count gens l → count < u64_max → watch_generation l' = saturating_add u64_max (watch_generation l) 1 →
  watch_ok (count + 1) (gens ++ [watch_generation l']) l'.
Proof.
  intros (Hg & Hs & Hf & Hl) Hcount Hgen. unfold saturating_add in Hgen. assert (watch_generation l' = watch_generation l + 1) as He by lia.
  split_and!; [lia|lia| | |by rewrite last_snoc].
  - clear Hl Hcount Hgen. induction Hs as [|g gens Hs IH Hlt]; cbn; [by repeat constructor|]. apply Forall_cons in Hf as [Hg1 Hf].
    constructor; [by apply IH|]. apply Forall_app. split; [done|]. constructor; [lia|constructor].
  - apply Forall_app. split; [|constructor; [lia|constructor]]. eapply Forall_impl; [exact Hf|]. cbn. lia.
Qed.

Lemma watch_ok_moved count gens l l' :
  watch_ok count gens l → count < u64_max → watch_generation l' = saturating_add u64_max (watch_generation l) 1 → watching l' = false →
  watch_ok (count + 1) (gens ++ []) l'.
Proof.
  intros (Hg & Hs & Hf & Hl) Hcount Hgen Hw. unfold saturating_add in Hgen. rewrite app_nil_r.
  split_and!; [lia|lia|done| |congruence]. eapply Forall_impl; [exact Hf|]. cbn. lia.
Qed.

(** What a step does to the watch state. *)
Definition watch_step (l l' : Link) (gens : list Z) : Prop :=
  gens = [] ∧ watch_generation l' = watch_generation l ∧ (watching l' = true → watching l = true)
  ∨ gens = [watch_generation l'] ∧ watch_generation l' = saturating_add u64_max (watch_generation l) 1
  ∨ gens = [] ∧ watch_generation l' = saturating_add u64_max (watch_generation l) 1 ∧ watching l' = false.

Lemma watch_same l l' gens :
  gens = [] → watch_generation l' = watch_generation l → watching l' = watching l → watch_step l l' gens.
Proof. intros -> Hg Hw. left. split_and!; [done|done|congruence]. Qed.

Lemma apply_socket_watch moment g g' :
  g_link g' = g_link g ∨ (∃ s, g_link g' = set_draft s (g_link g)) →
  watch_step (g_link g) (g_link (apply_socket moment g').1) (omap generation_of (apply_socket moment g').2).
Proof.
  intros Hl. assert (watch_generation (g_link g') = watch_generation (g_link g) ∧ watching (g_link g') = watching (g_link g)) as [Hg Hw]
    by (destruct Hl as [->|[s ->]]; done).
  unfold apply_socket. case_decide; [by apply watch_same|]. cbn [fst snd]. case_decide; [|by apply watch_same].
  right; right. split_and!; [done| |done]. cbn. by rewrite Hg.
Qed.

Lemma spawn_refresh_watch moment g :
  watch_step (g_link g) (g_link (spawn_refresh moment g).1) (omap generation_of (spawn_refresh moment g).2).
Proof. unfold spawn_refresh. destruct (refresh_inflight _); by apply watch_same. Qed.

Lemma request_delete_link moment g :
  watch_generation (g_link (request_delete_selected_share moment g)) = watch_generation (g_link g)
  ∧ watching (g_link (request_delete_selected_share moment g)) = watching (g_link g).
Proof. unfold request_delete_selected_share. by destruct (selected_share_summary _). Qed.

Lemma update_watch moment message g :
  let r := update path_from show_addr moment message g in watch_step (g_link g) (g_link r.1) (omap generation_of r.2).
Proof.
  destruct message; cbn [update]; cbv zeta.
  - apply apply_socket_watch. right. by eexists.
  - unfold gui_connect. case_decide; by apply watch_same.
  - apply spawn_refresh_watch.
  - destruct (refresh_due _ _); [apply spawn_refresh_watch|by apply watch_same].
  - unfold start_watch. case_decide; [by apply watch_same|]. destruct (watching _) eqn:Hw; [apply watch_same; done|].
    right; left. by split.
  - case_decide; [|by apply watch_same]. cbn [fst snd]. case_decide; destruct response as [[]|error| |]; try by apply watch_same.
    all: try by (cbn; case_decide; by apply watch_same). all: by destruct kind; apply watch_same.
  - case_decide; [|by apply watch_same]. by destruct event; apply watch_same.
  - case_decide; [|by apply watch_same]. left. split_and!; done.
  - case_decide; by apply watch_same.
  - destruct (selected_share_summary _); [destruct (m_display moment)|]; by apply watch_same.
  - apply watch_same; [done|apply request_delete_link..].
  - unfold confirm_delete_selected_share. destruct (selected_share_summary _); [|by apply watch_same].
    case_decide; [|by apply watch_same]. apply watch_same; [done|apply request_delete_link..].
  - cbn [fst snd]. unfold cancel_delete_share. destruct (pending_delete_share _); by apply watch_same.
  - by apply watch_same.
  - by apply watch_same.
  - cbn [fst snd]. unfold add_seed_path_text, add_seed_file. case_decide; [by apply watch_same|].
    destruct (existsb _ _); by apply watch_same.
  - cbn [fst snd]. unfold add_seed_file. case_decide; [by apply watch_same|]. destruct (existsb _ _); by apply watch_same.
  - apply watch_same; [|done..]. cbn [snd]. generalize (default [] (m_picked moment)) as l. induction l as [|f l IH]; [done|exact IH].
  - case_decide; by apply watch_same.
  - cbn [fst snd]. unfold remove_selected_seed_file. destruct (selected_seed_file _); [|by apply watch_same].
    destruct (seed_files _ !! _); by apply watch_same.
  - by apply watch_same.
  - by apply watch_same.
  - unfold start_seed_selected. destruct (seed_files (g_seed g)); [by apply watch_same|]. destruct (_ !! _); by apply watch_same.
  - by apply watch_same.
  - by apply watch_same.
  - by apply watch_same.
  - by apply watch_same.
  - by apply watch_same.
  - unfold start_download_from_form. destruct (build_download_command_from _ _ _ _ _ _ _) as [[]| | |]; by apply watch_same.
  - apply apply_socket_watch. right. by eexists.
  - by apply watch_same.
  - by apply watch_same.
  - by apply watch_same.
  - by apply watch_same.
Qed.

Lemma watches_ok g0 steps :
  watch_generation (g_link g0) = 0 → watching (g_link g0) = false → zlen steps ≤ u64_max →
  watch_ok (zlen steps) (watches g0 steps) (g_link (run g0 steps)).
Proof.
  intros Hg Hw. induction steps as [|s steps IH] using rev_ind; intros Hlen.
  - unfold watch_ok. change (run g0 []) with g0. rewrite Hg, Hw. change (zlen []) with 0. by split_and!; [..|constructor|constructor|].
  - rewrite zlen_app in *. change (zlen [s]) with 1 in *. specialize (IH ltac:(lia)). rewrite watches_snoc, run_snoc.
    assert (watch_step (g_link (run g0 steps)) (g_link (after (run g0 steps) s)) (omap generation_of (asked (run g0 steps) s))) as Hstep
      by apply update_watch.
    destruct Hstep as [(He & ? & ?)|[(He & ?)|(He & ? & ?)]]; rewrite He.
    + by eapply watch_ok_same.
    + eapply watch_ok_new; [exact IH|lia|done].
    + eapply watch_ok_moved; [exact IH|lia|done|done].
Qed.
End watches.

(** * The download form *)

(** Printable ASCII from [.] to [z]: what addresses and share ids are printed in. *)
Definition visible (t : text) : Prop := Forall (λ c, 46 ≤ c ≤ 122) t.

Lemma visible_scalar t : visible t → Forall scalar t.
Proof. intros Ht. eapply Forall_impl; [exact Ht|]. unfold scalar. cbn. lia. Qed.

Lemma visible_not_ws c : 46 ≤ c ≤ 122 → ¬ whitespace c.
Proof. unfold whitespace. lia. Qed.

Lemma visible_trimmed t : visible t → trimmed t.
Proof.
  intros Ht. unfold visible in Ht. rewrite Forall_forall in Ht. split.
  - destruct (head t) as [c|] eqn:Hc; [|done]. by apply visible_not_ws, Ht, head_Some_elem_of.
  - destruct (last t) as [c|] eqn:Hc; [|done]. by apply visible_not_ws, Ht, last_Some_elem_of.
Qed.

Lemma str_text_text_str t : Forall scalar t → str_text (text_str t) = t.
Proof. intros Ht. unfold str_text, text_str. by rewrite str_bytes_of_bytes, utf8_decode_encode. Qed.

Lemma str_trim_visible t : visible t → str_trim (text_str t) = text_str t.
Proof. intros Ht. unfold str_trim. rewrite str_text_text_str by (by apply visible_scalar). by rewrite trim_trimmed by (by apply visible_trimmed). Qed.

Lemma non_empty_visible t : visible t → t ≠ [] → non_empty (text_str t) = Some (text_str t).
Proof.
  intros Ht Hne. unfold non_empty. rewrite str_trim_visible by done. rewrite decide_False; [done|].
  intros He%(f_equal str_text). rewrite str_text_text_str in He by (by apply visible_scalar). by subst.
Qed.

Lemma visible_dec z : 0 ≤ z → visible (dec_text z).
Proof.
  intros Hz. apply Forall_fmap. eapply Forall_impl; [apply dec_digits_range, dec_fuel_spec; lia|]. intros d. cbn. lia.
Qed.

Lemma visible_ipv4 a : 0 ≤ a < 2 ^ 32 → visible (ipv4_text a).
Proof.
  intros Ha. unfold ipv4_text, visible. rewrite !Forall_app.
  split_and!; try (by constructor; [lia|]); apply visible_dec; first [apply Z.mod_pos_bound; lia|apply Z.div_pos; lia].
Qed.

Lemma visible_socket a port : 0 ≤ a < 2 ^ 32 → 0 ≤ port → visible (socket_v4_text a port).
Proof.
  intros Ha Hp. unfold socket_v4_text, visible. rewrite !Forall_app. split_and!; [by apply visible_ipv4| |by apply visible_dec].
  constructor; [lia|constructor].
Qed.

Lemma utf8_encode_visible t : visible t → utf8_encode t = byte_of_Z <$> t.
Proof.
  induction 1 as [|c t Hc _ IH]; [done|]. unfold utf8_encode in *. rewrite bind_cons, IH. unfold utf8_char. by rewrite decide_True by lia.
Qed.

Lemma share_id_text id : ∃ t, visible t ∧ t ≠ [] ∧ ShareId_to_string id = text_str t.
Proof.
  set (h := write_hex (array_data (share_id_bytes id))). exists (byte_val <$> h).
  assert (visible (byte_val <$> h)) as Hv.
  { unfold h, write_hex. apply Forall_fmap. apply Forall_concat, Forall_fmap, Forall_true. intros b. cbn.
    assert (∀ d, 0 ≤ d < 16 → 46 ≤ byte_val (hex_digit d) ≤ 122) as Hd.
    { intros d Hd. unfold hex_digit. rewrite byte_val_small; destruct (Z.ltb_spec d 10); lia. }
    pose proof (byte_val_range b). constructor; [|constructor; [|constructor]]; cbn; apply Hd; [|apply Z.mod_pos_bound; lia].
    split; [apply Z.div_pos; lia|apply Z.div_lt_upper_bound; lia]. }
  split_and!; [done| |].
  - intros He%(f_equal length). rewrite length_fmap in He. unfold h in He. rewrite length_write_hex, length_array in He. done.
  - unfold text_str. rewrite utf8_encode_visible by done. unfold ShareId_to_string, of_bytes. f_equal. fold h.
    rewrite <- list_fmap_compose. symmetry. rewrite <- (list_fmap_id h) at 2. apply list_fmap_ext. intros i b _. cbn. by apply byte_of_val.
Qed.

(** Splitting at runs of separators. *)
Lemma split_by_word sep acc w r :
  Forall (λ c, sep c = false) w → split_by sep acc (w ++ r) = split_by sep (reverse w ++ acc) r.
Proof.
  intros Hw. revert acc. induction Hw as [|c w Hc _ IH]; intros acc; [done|]. cbn [app split_by]. rewrite Hc, IH.
  by rewrite reverse_cons, <- app_assoc.
Qed.

Lemma split_by_run sep acc s r :
  Forall (λ c, sep c = true) s → s ≠ [] → split_by sep acc (s ++ r) = reverse acc :: replicate (length s - 1) [] ++ split_by sep [] r.
Proof.
  intros Hs Hne. revert acc. induction Hs as [|c s Hc Hs IH]; intros acc; [done|]. cbn [app split_by]. rewrite Hc.
  destruct s as [|c' s]; [done|]. rewrite IH by done. cbn [length Nat.sub]. by rewrite Nat.sub_0_r.
Qed.

Lemma omap_blank n : omap (λ piece, non_empty (text_str piece)) (replicate n []) = [].
Proof. induction n as [|n IH]; [done|]. exact IH. Qed.

(** The pieces of words joined by separators are the words. *)
Lemma peers_split s ws :
  s ≠ [] → Forall (λ c, peer_separator c = true) s → Forall (λ w, visible w ∧ w ≠ []) ws →
  omap (λ piece, non_empty (text_str piece)) (split_by peer_separator [] (str_join s ws)) = text_str <$> ws.
Proof.
  intros Hne Hs. assert (∀ w, visible w → Forall (λ c, peer_separator c = false) w) as Hword.
  { intros w Hw. eapply Forall_impl; [exact Hw|]. intros c Hc. unfold peer_separator. apply bool_decide_eq_false.
    pose proof (visible_not_ws c Hc). naive_solver lia. }
  induction 1 as [|w ws [Hw Hwne] Hws IH]; [done|]. destruct ws as [|w' ws].
  - cbn [str_join]. rewrite <- (app_nil_r w) at 1. rewrite split_by_word by auto. rewrite app_nil_r. cbn [split_by].
    rewrite reverse_involutive. cbn. by rewrite non_empty_visible.
  - change (str_join s (w :: w' :: ws)) with (w ++ s ++ str_join s (w' :: ws)). rewrite split_by_word by auto.
    rewrite split_by_run by done. rewrite app_nil_r, reverse_involutive. cbn [omap list_omap]. rewrite non_empty_visible by done.
    rewrite omap_app, omap_blank. by rewrite IH.
Qed.

Lemma separator_scalar s : Forall (λ c, peer_separator c = true) s → Forall scalar s.
Proof.
  intros Hs. eapply Forall_impl; [exact Hs|]. intros c Hc%bool_decide_eq_true. unfold whitespace in Hc. unfold scalar. lia.
Qed.

Lemma str_join_scalar s ws : Forall scalar s → Forall (Forall scalar) ws → Forall scalar (str_join s ws).
Proof.
  intros Hs. induction 1 as [|w ws Hw Hws IH]; [constructor|]. destruct ws as [|w' ws]; [done|].
  change (str_join s (w :: w' :: ws)) with (w ++ s ++ str_join s (w' :: ws)). by repeat (apply Forall_app; split).
Qed.

Definition printed_peers (s : text) (peers : list (Z * Z)) : string :=
  text_str (str_join s ((λ p, socket_v4_text p.1 p.2) <$> peers)).
Definition peer_ok (p : Z * Z) : Prop := 0 ≤ p.1 < 2 ^ 32 ∧ u16_range p.2.

Lemma parse_peers_printed s peers :
  s ≠ [] → Forall (λ c, peer_separator c = true) s → Forall peer_ok peers →
  parse_peers (printed_peers s peers) = Ok ((λ p, SocketAddr (IpV4 p.1) p.2) <$> peers).
Proof.
  intros Hne Hs Hp. unfold parse_peers, printed_peers.
  assert (Forall (λ w, visible w ∧ w ≠ []) ((λ p, socket_v4_text p.1 p.2) <$> peers)) as Hws.
  { apply Forall_fmap. eapply Forall_impl; [exact Hp|]. intros [a port] [Ha Hport]. cbn in *. unfold u16_range in Hport. split; [apply visible_socket; lia|].
    unfold socket_v4_text, ipv4_text. by intros [[? ?]%app_eq_nil ?]%app_eq_nil. }
  rewrite str_text_text_str.
  2: { apply str_join_scalar; [by apply separator_scalar|]. eapply Forall_impl; [exact Hws|]. intros w [Hw _]. by apply visible_scalar. }
  rewrite peers_split by done. apply result_mapM_Ok. rewrite <- list_fmap_compose. apply Forall2_fmap. apply Forall_Forall2_diag.
  eapply Forall_impl; [exact Hp|]. intros [a port] [Ha Hport]. cbn [fst snd] in Ha, Hport. unfold u16_range in Hport.
  cbn [compose fst snd]. unfold parse_peer, compose. cbn [fst snd].
  rewrite str_text_text_str by (apply visible_scalar, visible_socket; lia). by rewrite parse_socket_v4_text.
Qed.

Lemma parse_peers_total input : (∃ peers, parse_peers input = Ok peers) ∨ ∃ e, parse_peers input = Err e.
Proof.
  unfold parse_peers. induction (omap _ _) as [|piece l IH]; [left; by eexists|]. cbn [result_mapM]. unfold parse_peer at 1 3.
  destruct (parse_socket_addr _); cbn [ok_or result_bind]; [|right; by eexists].
  destruct IH as [[peers ->]|[e ->]]; cbn [result_bind]; eauto.
Qed.

(** * The theorems *)
Section theorems.
Context (path_from : string → path) (show_addr : socket_addr → string).

(** C32: the state of the window is sound after any messages in any order, whatever the
    daemon answers and publishes, late answers and events included: a selection always
    points into its list; the seed queue names each file once, and something is selected
    unless it is empty; transfers are numbered and sorted, the running first and the latest
    first among those of equal status; the log keeps to its limit, and its last line is
    the last message. *)
Theorem gui_run_ok init now time steps :
  gui_ok path_from (run path_from show_addr (EtleGui_new init now time) steps).
Proof.
  assert (gui_ok path_from (EtleGui_new init now time)) as Hok.
  { assert (log_ok (mkLog true DEFAULT_ACTIVITY_LIMIT [] None)) as Hlog by (split_and!; cbn; [unfold DEFAULT_ACTIVITY_LIMIT; lia|lia|done]).
    split_and!; cbn.
    - split; [done|by_decide].
    - destruct (gi_startup_warning init); [by apply log_message_ok|done].
    - done.
    - split; [split; [by_decide|constructor]|constructor].
    - split_and!; [by_decide|constructor|constructor|done|done]. }
  induction steps as [|s steps IH] using rev_ind; [done|]. rewrite run_snoc. by apply update_ok.
Qed.

(** C33: the window never asks the daemon to delete a share that was not confirmed. When
    it sends [DeleteShare], the message is the confirmation; that share is the one
    selected now; an earlier message asked for its deletion while it was the one
    selected then, and ever since, through whatever refreshes and events, that deletion
    has been the pending one. It is pending no longer: each confirmation deletes once. *)
Theorem delete_confirmed init now time steps s socket kind id :
  let g0 := EtleGui_new init now time in
  let g := run path_from show_addr g0 steps in
  SpawnIpcCommand socket kind (DeleteShare id) ∈ asked path_from show_addr g s →
  s.2 = ConfirmDeleteSelectedShare ∧ selected_id g = Some id ∧ socket = active_socket_path (g_link g)
  ∧ pending (after path_from show_addr g s) = None
  ∧ ∃ pre request post, steps = pre ++ request :: post
      ∧ selected_id (run path_from show_addr g0 pre) = Some id ∧ asks_delete request.2
      ∧ ∀ k, pending (run path_from show_addr g0 (pre ++ request :: take k post)) = Some id.
Proof.
  intros g0 g Hin. destruct (delete_asked _ _ _ _ _ _ _ Hin) as (Hmsg & Hp & Hsel & Hsock & _ & Hafter).
  split_and!; [done..|]. by apply pending_asked.
Qed.

(** At most one subscription is alive. Each subscription the window asks for has a
    number above all earlier ones; while it says it is watching, the last one asked for is
    the current one; and an event, or the end, of any subscription but the current one
    changes nothing, nor does an answer from another socket. *)
Theorem one_live_watch init now time steps :
  zlen steps ≤ u64_max →
  let g0 := EtleGui_new init now time in
  let g := run path_from show_addr g0 steps in
  let gens := watches path_from show_addr g0 steps in
  StronglySorted Z.lt gens ∧ Forall (λ n, n ≤ watch_generation (g_link g)) gens
  ∧ (watching (g_link g) = true → last gens = Some (watch_generation (g_link g)))
  ∧ (∀ moment n event, n ≠ watch_generation (g_link g) → update path_from show_addr moment (OnIpcEvent n event) g = (g, []))
  ∧ (∀ moment n error, n ≠ watch_generation (g_link g) → update path_from show_addr moment (IpcWatchStopped n error) g = (g, []))
  ∧ ∀ moment socket kind response, socket ≠ active_socket_path (g_link g) →
      update path_from show_addr moment (OnIpcResponse socket kind response) g = (g, []).
Proof.
  intros Hlen g0 g gens. destruct (watches_ok path_from show_addr g0 steps eq_refl eq_refl Hlen) as (Hg & Hs & Hf & Hl).
  split_and!; [done| |done|..].
  - eapply Forall_impl; [exact Hf|]. intros n Hn. cbn beta in Hn. unfold g. lia.
  - intros moment n event Hne. cbn [update]. by rewrite decide_False.
  - intros moment n event Hne. cbn [update]. by rewrite decide_False.
  - intros moment socket kind response Hne. cbn [update]. by rewrite decide_False.
Qed.
End theorems.

(** What the printed form asks for. *)
Lemma build_printed path_from f id s peers multicast output psk :
  s ≠ [] → Forall (λ c, peer_separator c = true) s → Forall peer_ok peers → 0 ≤ multicast < 2 ^ 32 →
  let request := mkDownloadRequest id ((λ p, SocketAddr (IpV4 p.1) p.2) <$> peers) (path_from <$> non_empty (str_trim output))
    (df_parallelism f) (Z.max (df_request_window f) 1) (df_discovery_port f) (Z.max (df_discovery_timeout_ms f) 1) multicast
    match non_empty (str_trim psk) with Some p => Some p | None => non_empty (df_auth_psk f) end in
  build_download_command_from path_from f (ShareId_to_string id) (printed_peers s peers) output psk (text_str (ipv4_text multicast))
  = Ok (if df_resume f then Ipc.Download request else DownloadFresh request, id).
Proof.
  intros Hne Hs Hp Hm request. destruct (share_id_text id) as (t & Ht & _ & Hid). unfold build_download_command_from.
  assert (str_trim (ShareId_to_string id) = ShareId_to_string id) as -> by (rewrite Hid; by apply str_trim_visible).
  rewrite ShareId_from_to_string. cbn [result_map_err result_bind].
  rewrite parse_peers_printed by done. cbn [result_bind]. pose proof (visible_ipv4 _ Hm) as Hv.
  rewrite str_trim_visible, str_text_text_str, parse_ipv4_text by first [done|by apply visible_scalar]. reflexivity.
Qed.

(** The download form is read as it is written. Any texts give a command or an error,
    never a panic; and a share id, peers and a multicast address that were printed, the
    peers between any commas and white space, are the ones of the command, which fetches
    afresh exactly when resuming is off, and whose window and timeout are at least one. *)
Theorem download_form_roundtrip path_from f id s peers multicast output psk :
  s ≠ [] → Forall (λ c, peer_separator c = true) s → Forall peer_ok peers → 0 ≤ multicast < 2 ^ 32 →
  (∀ a b c d e, (∃ r, build_download_command_from path_from f a b c d e = Ok r)
     ∨ ∃ error, build_download_command_from path_from f a b c d e = Err error)
  ∧ ∃ request,
      build_download_command_from path_from f (ShareId_to_string id) (printed_peers s peers) output psk
        (text_str (ipv4_text multicast))
      = Ok (if df_resume f then Ipc.Download request else DownloadFresh request, id)
      ∧ dr_share_id request = id ∧ dr_peers request = (λ p, SocketAddr (IpV4 p.1) p.2) <$> peers
      ∧ dr_discovery_multicast request = multicast
      ∧ dr_output request = path_from <$> non_empty (str_trim output)
      ∧ dr_auth_psk request = match non_empty (str_trim psk) with Some p => Some p | None => non_empty (df_auth_psk f) end
      ∧ 1 ≤ dr_request_window request ∧ 1 ≤ dr_discovery_timeout_ms request.
Proof.
  intros Hne Hs Hp Hm. split.
  - intros a b c d e. unfold build_download_command_from.
    destruct (ShareId_parse_print (str_trim a)) as (_ & Hpanic & Hdiv).
    destruct (ShareId_from_str _) as [id'| | |]; [|right; by eexists|done..]. cbn [result_map_err result_bind].
    destruct (parse_peers_total b) as [[ps ->]|[error ->]]; cbn [result_bind]; [|right; by eexists].
    destruct (parse_ipv4 _); cbn [ok_or result_bind]; eauto.
  - eexists. split; [by apply build_printed|]. split_and!; try done; cbn; lia.
Qed.

(** * A sample window *)
Import Toy WireSample StateSample DiskSample DiscoverySample IpcSample.
Module GuiSample.
Definition path_from (s : string) : path := [s].
Definition show_addr (a : socket_addr) : string := text_str (socket_v4_text 0 (addr_port a)).
Definition init : GuiInit := mkGuiInit "/run/etle.sock" "" 8 4 37037 1500 (ipv4 239 255 42 99) None.
Definition moment : Moment := mkMoment 5000000000 (Some 3661) true None.
Definition shelf : list IpcShareSummary := [mkIpcShareSummary share_id "sample" 1 2 true None].

Definition listed : Moment * AppInput :=
  (moment, OnIpcResponse "/run/etle.sock" ListSharesRequest (Ok (Ipc.Shares shelf))).
Definition steps : list (Moment * AppInput) :=
  [(moment, Connect); (moment, StartWatch); (moment, Refresh); listed; (moment, SelectShare 0); (moment, DeleteSelectedShare);
   (moment, Refresh); listed].
End GuiSample.
Import GuiSample.

(** A library is listed, its share selected and its deletion asked for; the list is
    refreshed; and the confirmation deletes. *)
Lemma delete_confirmed_witness :
  let g0 := EtleGui_new init 0 "" in
  let g := run path_from show_addr g0 steps in
  pending g = Some share_id ∧ pending (after path_from show_addr g (moment, ConfirmDeleteSelectedShare)) = None
  ∧ ∃ pre request post, steps = pre ++ request :: post
      ∧ selected_id (run path_from show_addr g0 pre) = Some share_id ∧ asks_delete request.2
      ∧ ∀ k, pending (run path_from show_addr g0 (pre ++ request :: take k post)) = Some share_id.
Proof.
  intros g0 g.
  destruct (delete_confirmed path_from show_addr init 0 "" steps (moment, ConfirmDeleteSelectedShare) "/run/etle.sock"
              DeleteShareRequest share_id) as (_ & _ & _ & Hp & Hfrom).
  { vm_compute. by left. }
  split; [by vm_compute|]. by split.
Defined.

(** A window that watches, loses its subscription and subscribes again. *)
Lemma one_live_watch_witness :
  let g0 := EtleGui_new init 0 "" in
  let again := [(moment, StartWatch); (moment, IpcWatchStopped 1 "closed"); (moment, StartWatch)] in
  let g := run path_from show_addr g0 again in
  watches path_from show_addr g0 again = [1; 2] ∧ watching (g_link g) = true
  ∧ update path_from show_addr moment (OnIpcEvent 1 (EvShareDeleted share_id)) g = (g, []).
Proof.
  intros g0 again g. split; [by vm_compute|]. split; [by vm_compute|].
  destruct (one_live_watch path_from show_addr init 0 "" again) as (_ & _ & _ & Hevent & _); [by vm_compute|].
  by apply Hevent.
Defined.

Lemma download_form_roundtrip_witness :
  let f := mkDownloadForm "" "" "" 8 0 37037 1500 (ipv4 239 255 42 99) true "" in
  let peers := [(ipv4 192 168 1 5, 7000); (ipv4 10 0 0 1, 7001)] in
  printed_peers [44; 32] peers = "192.168.1.5:7000, 10.0.0.1:7001"%string
  ∧ ∃ request,
      build_download_command_from path_from f (ShareId_to_string share_id) (printed_peers [44; 32] peers) " out" ""
        (text_str (ipv4_text (ipv4 239 255 42 99))) = Ok (Ipc.Download request, share_id)
      ∧ dr_peers request = [SocketAddr (IpV4 (ipv4 192 168 1 5)) 7000; SocketAddr (IpV4 (ipv4 10 0 0 1)) 7001]
      ∧ dr_output request = Some ["out"%string] ∧ 1 ≤ dr_request_window request.
Proof.
  intros f peers. split; [by vm_compute|].
  destruct (download_form_roundtrip path_from f share_id [44; 32] peers (ipv4 239 255 42 99) " out" "")
    as (_ & request & Hok & _ & Hpeers & _ & Hout & _ & Hwindow & _).
  - done.
  - by repeat constructor.
  - unfold peer_ok, u16_range. by_decide.
  - by_decide.
  - exists request. split; [exact Hok|]. split; [exact Hpeers|]. split; [exact Hout|exact Hwindow].
Defined.

(** ** Behaviours worth knowing *)

(** A refresh keeps the index of the selection, so another share may become the
    selected one; its deletion would still have to be confirmed anew. *)
Example refresh_moves_selection :
  let other := mkIpcShareSummary (mkShareId (array_repeat 32 Byte.x05)) "other" 0 2 true None in
  let g0 := EtleGui_new init 0 "" in
  let g := run path_from show_addr g0 steps in
  let g' := after path_from show_addr g (moment, OnIpcResponse "/run/etle.sock" ListSharesRequest (Ok (Ipc.Shares [other]))) in
  selected_id g = Some share_id ∧ selected_id g' = Some (is_share_id other) ∧ pending g' = Some share_id
  ∧ asked path_from show_addr g' (moment, ConfirmDeleteSelectedShare) = [].
Proof. intros other g0 g g'. split_and!; by vm_compute. Qed.

(** Once a finished task was cleared, the end of a later task of the same label is
    dropped, and its card stays running. *)
Example cleared_label_hides_the_next :
  let progress job chunks := (moment, OnIpcEvent 1 (TaskProgress (Some job) "seed:encrypt" "a.txt" chunks 2 0 0 0)) in
  let g := run path_from show_addr (EtleGui_new init 0 "")
             [(moment, StartWatch); progress "job-1" 2; (moment, ClearFinishedTransfers); progress "job-2" 1; progress "job-2" 2]%string in
  (λ t, (gt_id t, gt_status t, gt_completed_chunks t)) <$> transfers (g_tasks g) = [("job-2"%string, Running, 1)].
Proof. by vm_compute. Qed.

(** The failure of a request marks the transfer that moved last, which may be another. *)
Example failure_marks_another :
  let g := run path_from show_addr (EtleGui_new init 0 "")
             [(moment, StartWatch); (moment, AddSeedFile "a.txt"); (moment, StartSeedSelected);
              (moment, OnIpcEvent 1 (TransferProgress (Some "job-1") share_id 1 2 10 20 5));
              (moment, OnIpcResponse "/run/etle.sock" SeedRequest (Err "refused"))]%string in
  (λ t, (gt_kind t, gt_status t)) <$> transfers (g_tasks g) = [(SeedKind, Running); (DownloadKind, Failed)].
Proof. by vm_compute. Qed.
