(* ===== verification/Cli.v ===== *)
(** The command line client ([src/src/bin/etle-cli.rs]), the version information
    ([build_info.rs]) and the start of the graphical client ([GuiInit] in
    [gui/model.rs]): how options, environment and configuration are put together,
    what is asked of the daemon, and what is printed.

    The arguments are read by a parser outside the source, a parameter, into the
    options declared here. [getenv] is the environment, [resolve] reads a path name, and
    [endpoint] is the address a socket path stands for. *)
From stdpp Require Import base tactics list countable strings gmap.
From Stdlib Require Import ZArith Lia.
From S2P Require Import Prelude Bytes World Files Text Extern Crypto Descriptor Chunker State Library Codec Handshake DownloadState Seed Discovery Config Ipc Output Progress Daemon Server Gui.
Local Open Scope Z_scope.
Local Open Scope etle_scope.

(** * Version information *)

(** What the build script sets. *)
Record BuildInfo := mkBuildInfo {
  bi_version : string;
  bi_git_commit : string;
  bi_git_branch : string;
  bi_git_tag : string;
  bi_git_commit_count : string;
  bi_git_commit_message : string;
  bi_git_dirty : string;
  bi_build_date : string;
  bi_build_profile : string;
  bi_build_target : string;
  bi_build_host : string;
  bi_rustc_version : string;
  bi_build_ci : string;
  bi_build_repository : string;
  bi_build_run_id : string;
}.

Definition args_request_version (args : list string) : bool :=
  match filter (λ arg, arg ≠ "-v" ∧ arg ≠ "--verbose")%string args with
  | [arg] => bool_decide (arg ∈ ["--version"; "-V"; "version"; "build-info"; "--build-info"]%string)
  | _ => false
  end.

(** A slice of a [str] panics inside a character. *)
Definition char_boundary (n : nat) (b : bytes) : bool :=
  match b !! n with
  | Some c => negb (bool_decide (128 ≤ byte_val c < 192))
  | None => bool_decide (n = length b)
  end.
Definition short_commit {E} (commit : string) : result E string :=
  let b := str_bytes commit in
  if decide (7 ≤ length b)%nat then if char_boundary 7 b then Ok (of_bytes (take 7 b)) else Panic
  else Ok commit.

Definition version_abi_string {E} (info : BuildInfo) : result E string :=
  let dirty_suffix := if decide (bi_git_dirty info = "clean"%string) then ""%string else "_dirty"%string in
  let? commit := short_commit (bi_git_commit info) in
  Ok (commit +:+ dirty_suffix +:+ "_wire" +:+ dec ETLE_WIRE_PROTOCOL_VERSION +:+ "_desc" +:+ dec ETLE_DESCRIPTOR_VERSION).

Definition newline : string := of_bytes [Byte.x0a].
Definition double_quote : string := of_bytes [Byte.x22].
Definition long_version {E} (binary : string) (info : BuildInfo) : result E string :=
  let? abi := version_abi_string info in
  Ok (binary +:+ " " +:+ bi_version info +:+ " built from branch " +:+ bi_git_branch info +:+ " at commit "
      +:+ bi_git_commit info +:+ " " +:+ bi_git_dirty info +:+ " (" +:+ bi_git_commit_message info +:+ ")." +:+ newline
      +:+ "Date: " +:+ bi_build_date info +:+ newline
      +:+ "Tag: " +:+ bi_git_tag info +:+ ", commits: " +:+ bi_git_commit_count info +:+ newline +:+ newline
      +:+ "Build:" +:+ newline
      +:+ "Profile: " +:+ bi_build_profile info +:+ newline
      +:+ "Target: " +:+ bi_build_target info +:+ newline
      +:+ "Host: " +:+ bi_build_host info +:+ newline
      +:+ "Rustc: " +:+ bi_rustc_version info +:+ newline
      +:+ "CI: " +:+ bi_build_ci info +:+ newline
      +:+ "Repository: " +:+ bi_build_repository info +:+ newline
      +:+ "Run ID: " +:+ bi_build_run_id info +:+ newline +:+ newline
      +:+ "Protocol:" +:+ newline
      +:+ "Wire protocol: " +:+ dec ETLE_WIRE_PROTOCOL_VERSION +:+ newline
      +:+ "Descriptor format: " +:+ dec ETLE_DESCRIPTOR_VERSION +:+ newline
      +:+ "Capabilities: " +:+ CAPABILITY_RAW_CHUNK_FRAME +:+ ", " +:+ CAPABILITY_WINDOWED_REQUESTS +:+ newline +:+ newline
      +:+ "Version ABI string: " +:+ abi +:+ newline).

(** * What is printed *)
Inductive Line := Out (text : string) | ErrOut (text : string).
Global Instance Line_eq_dec : EqDecision Line.
Proof. solve_decision. Defined.

Definition print_share (share : IpcShareSummary) : Line :=
  let mode := default "unknown"%string (is_mode share) in
  let secret := (if is_has_secret share then "key=yes" else "key=no")%string in
  Out ("[library] " +:+ ShareId_to_string (is_share_id share) +:+ "  " +:+ mode +:+ "  chunks="
       +:+ dec (is_completed_chunks share) +:+ "/" +:+ dec (is_total_chunks share) +:+ "  " +:+ secret +:+ "  name="
       +:+ double_quote +:+ is_name share +:+ double_quote).
Definition print_shares (shares : list IpcShareSummary) : list Line :=
  match shares with [] => [Out "[library] no shares found"] | _ => print_share <$> shares end.

(** The lines, or the error the program ends with. *)
Definition print_response (response : IpcResponse) : result string (list Line) :=
  match response with
  | Pong => Ok [Out "[daemon] pong"]
  | Ack message => Ok [Out ("[daemon] " +:+ message)]
  | Ipc.Shares shares => Ok (print_shares shares)
  | ShareAdded share => Ok [Out "[daemon] share added"; print_share share]
  | ShareDeleted share_id name =>
      Ok [Out "[daemon] share deleted"; Out ("[daemon] share_id: " +:+ ShareId_to_string share_id); Out ("[daemon] name: " +:+ name)]
  | TransferQueued share_id job_id =>
      Ok [Out ("[daemon] transfer queued: " +:+ ShareId_to_string share_id); Out ("[daemon] job_id: " +:+ job_id)]
  | TransferCompleted share_id output file_name file_size chunks =>
      Ok [Out "[daemon] transfer completed"; Out ("[daemon] share_id: " +:+ ShareId_to_string share_id);
          Out ("[daemon] output: " +:+ path_display output); Out ("[daemon] file: " +:+ file_name);
          Out ("[daemon] file size: " +:+ dec file_size +:+ " bytes"); Out ("[daemon] chunks: " +:+ dec chunks)]
  | IpcErrorResponse message => Err message
  end.

Definition progress_numbers (completed_chunks total_chunks bytes_done total_bytes bytes_per_second : Z) : string :=
  "chunks=" +:+ dec completed_chunks +:+ "/" +:+ dec total_chunks +:+ " bytes=" +:+ dec bytes_done +:+ "/"
  +:+ dec total_bytes +:+ " speed=" +:+ dec bytes_per_second +:+ " B/s".
Definition print_event (show_addr : socket_addr → string) (event : IpcEvent) : list Line :=
  match event with
  | ServerStarted listen => [Out ("[event] server started: " +:+ show_addr listen)]
  | ServerStopped => [Out "[event] server stopped"]
  | EvShareUpdated share => [Out "[event] share updated"; print_share share]
  | EvShareDeleted share_id => [Out ("[event] share deleted: " +:+ ShareId_to_string share_id)]
  | PeerConnected peer_id => [Out ("[event] peer connected: " +:+ peer_id)]
  | ChunkCompleted share_id completed_chunks total_chunks =>
      [Out ("[event] chunk completed: " +:+ ShareId_to_string share_id +:+ " chunks=" +:+ dec completed_chunks +:+ "/"
            +:+ dec total_chunks)]
  | TaskProgress job_id task label completed_chunks total_chunks bytes_done total_bytes bytes_per_second =>
      [Out ("[event] task progress: job=" +:+ default "unknown"%string job_id +:+ " task=" +:+ task +:+ " label="
            +:+ double_quote +:+ label +:+ double_quote +:+ " "
            +:+ progress_numbers completed_chunks total_chunks bytes_done total_bytes bytes_per_second)]
  | TransferProgress job_id share_id completed_chunks total_chunks bytes_done total_bytes bytes_per_second =>
      [Out ("[event] progress: job=" +:+ default "unknown"%string job_id +:+ " share=" +:+ ShareId_to_string share_id +:+ " "
            +:+ progress_numbers completed_chunks total_chunks bytes_done total_bytes bytes_per_second)]
  | EvTransferCompleted job_id share_id output =>
      [Out ("[event] transfer completed: job=" +:+ default "unknown"%string job_id +:+ " share="
            +:+ ShareId_to_string share_id +:+ " output=" +:+ path_display output)]
  | EvError message => [ErrOut ("[event] error: " +:+ message)]
  end.

(** * Options *)
Inductive DaemonCommand := DaemonPing | DaemonList | DaemonShutdown | DaemonWatch.
Record DownloadArgs := mkDownloadArgs {
  da_peer : list socket_addr;
  da_share_id : ShareId;
  da_output : option path;
  da_resume : bool;
  da_no_resume : bool;
  da_parallel : option Z;
  da_request_window : option Z;
  da_auth_psk : option string;
  da_discovery_port : option Z;
  da_discovery_timeout_ms : option Z;
  da_discovery_multicast : option Z;
}.
Inductive CliCommand :=
  | CliVersion
  | CliSeed (file : path) (chunk_size : Z)
  | CliList
  | CliDelete (share_id : ShareId)
  | CliDownload (args : DownloadArgs)
  | CliDaemon (command : DaemonCommand).
Record Cli := mkCli {
  cli_verbose : bool;
  cli_ipc_socket : option path;
  cli_command : CliCommand;
}.
Inductive CliError :=
  | CliConfig (e : ConfigError)
  | CliIpc (e : IpcError)
  | CliMessage (message : string).

(** * The programs *)
Section programs.
Context (getenv : string → option text) (resolve : text → path) (endpoint : path → socket_addr).
Context (show_addr : socket_addr → string).

(** ** From the environment and the configuration *)
Definition configured_library_root (config : EtleConfig) : path :=
  default (default_library_root (λ name, resolve <$> getenv name)) (resolve <$> cfg_get_library_root getenv config).
Definition configured_ipc_socket (config : EtleConfig) (library_root : path) : path :=
  default (default_ipc_socket_path library_root) (resolve <$> cfg_get_ipc_socket getenv config).
(** [or_else], evaluated only where the option is not given. *)
Definition or_else {A} (a b : option A) : option A := match a with Some _ => a | None => b end.
Definition env_auth_psk : option string := text_str <$> getenv "ETLE_AUTH_PSK".
Definition configured_auth_psk (config : EtleConfig) : option string :=
  or_else env_auth_psk (text_str <$> Config.auth_psk config).

Definition download_command (config : EtleConfig) (args : DownloadArgs) : IpcCommand :=
  let request := mkDownloadRequest (da_share_id args) (da_peer args) (da_output args)
    (default (cfg_get_parallel config) (da_parallel args))
    (default (cfg_get_request_window config) (da_request_window args))
    (default (Config.discovery_port config) (da_discovery_port args))
    (default (Config.discovery_timeout_ms config) (da_discovery_timeout_ms args))
    (default (Config.discovery_multicast config) (da_discovery_multicast args))
    (or_else (da_auth_psk args) (configured_auth_psk config)) in
  if da_no_resume args then DownloadFresh request else Ipc.Download request.
Definition cli_ipc_command (config : EtleConfig) (command : CliCommand) : option IpcCommand :=
  match command with
  | CliVersion => None
  | CliSeed file chunk_size => Some (SeedFile file chunk_size)
  | CliList => Some ListShares
  | CliDelete share_id => Some (DeleteShare share_id)
  | CliDownload args => Some (download_command config args)
  | CliDaemon DaemonPing => Some Ping
  | CliDaemon DaemonList => Some ListShares
  | CliDaemon DaemonShutdown => Some Shutdown
  | CliDaemon DaemonWatch => Some SubscribeEvents
  end.
Definition cli_socket_path (config : EtleConfig) (cli : Cli) : path :=
  default (configured_ipc_socket config (configured_library_root config)) (cli_ipc_socket cli).

(** ** [etle-cli] *)
Abbreviation terminal := (M (World * list Line) CliError).
Definition on_machine {E A} (m : M World E A) : M (World * list Line) E A := λ s,
  match m s.1 with (r, w) => (r, (w, s.2)) end.
Definition print_lines {E} (lines : list Line) : M (World * list Line) E unit := modify (λ s, (s.1, s.2 ++ lines)).

Section client.
Context `{Bincode IpcCommand, Bincode IpcResponse, Bincode IpcEvent}.

(** [subscribe_ipc_events] with [print_event] as its callback. *)
Definition watch (socket : path) : M (World * list Line) IpcError unit := λ s,
  match subscribe_ipc_events (endpoint socket) (s.1, []) with
  | (r, (w, events)) => (r, (w, s.2 ++ (events ≫= print_event show_addr)))
  end.

Definition cli_main (info : BuildInfo) (cli : Cli) : terminal unit :=
  match cli_command cli with
  | CliVersion =>
      let! text := lift_result (long_version "etle-cli" info) in
      print_lines [Out text]
  | command =>
      let! config := on_machine (map_err CliConfig (load getenv resolve)) in
      let socket := cli_socket_path config cli in
      do! (if cli_verbose cli then print_lines [Out ("[cli] ipc socket: " +:+ path_display socket)] else ret tt) in
      match cli_ipc_command config command with
      | None => ret tt
      | Some SubscribeEvents => map_err CliIpc (watch socket)
      | Some command =>
          let! response := on_machine (map_err CliIpc (send_ipc_command (endpoint socket) command)) in
          let! lines := lift_result (result_map_err CliMessage (print_response response)) in
          print_lines lines
      end
  end.

(** [main]; [parse] is the parser of the arguments, which ends the program itself when
    they are wrong. *)
Definition etle_cli (parse : list string → option Cli) (info : BuildInfo) (args : list string) : terminal unit :=
  if args_request_version args then
    let! text := lift_result (long_version "etle-cli" info) in
    print_lines [Out text]
  else
    match parse args with
    | Some cli => cli_main info cli
    | None => ret tt
    end.
End client.

(** ** The start of the graphical client *)
Definition gui_settings (config : EtleConfig) (startup_warning : option string) : GuiInit :=
  mkGuiInit (path_display (configured_ipc_socket config (configured_library_root config)))
    (default ""%string (configured_auth_psk config)) (cfg_get_parallel config) (cfg_get_request_window config)
    (Config.discovery_port config) (Config.discovery_timeout_ms config) (Config.discovery_multicast config) startup_warning.
Definition GuiInit_default {E} (show_config : ConfigError → string) : M World E GuiInit :=
  let! loaded := try_ (load getenv resolve) in
  match loaded with
  | Ok config => ret (gui_settings config None)
  | Err error =>
      ret (gui_settings EtleConfig_default
             (Some ("config: failed to load config.toml; using built-in defaults (" +:+ show_config error +:+ ")")))
  | _ => panic
  end.
End programs.

(** * What a listing tells *)

(** A field ends at the first separator. *)
Lemma field_inj (c : byte) a b x y : c ∉ a → c ∉ b → a ++ c :: x = b ++ c :: y → a = b ∧ x = y.
Proof.
  revert b. induction a as [|a0 a IH]; intros [|b0 b] Ha Hb; cbn.
  - by intros [= <-].
  - intros [= <- _]. by destruct Hb; left.
  - intros [= -> _]. by destruct Ha; left.
  - intros [= <- Heq]. apply not_elem_of_cons in Ha as [_ Ha]. apply not_elem_of_cons in Hb as [_ Hb].
    destruct (IH b Ha Hb Heq) as [-> ->]. done.
Qed.

(** What the daemon lists ([ipc_share_summary_from_local]). *)
Definition listed_share (s : IpcShareSummary) : Prop :=
  0 ≤ is_completed_chunks s ∧ 0 ≤ is_total_chunks s ∧ (is_mode s = None ∨ ∃ m, is_mode s = Some (format_share_mode m)).

Definition share_fields (s : IpcShareSummary) : bytes :=
  str_bytes (default "unknown"%string (is_mode s)) ++ Byte.x20 :: str_bytes " chunks=" ++ str_bytes (dec (is_completed_chunks s))
  ++ Byte.x2f :: str_bytes (dec (is_total_chunks s)) ++ Byte.x20 :: str_bytes " key="
  ++ str_bytes (if is_has_secret s then "yes" else "no") ++ Byte.x20 :: str_bytes " name=" ++ Byte.x22 :: str_bytes (is_name s) ++ [Byte.x22].

Lemma print_share_bytes s :
  ∃ text, print_share s = Out text
    ∧ str_bytes text = str_bytes "[library] " ++ str_bytes (ShareId_to_string (is_share_id s)) ++ str_bytes "  " ++ share_fields s.
Proof.
  eexists. split; [reflexivity|]. unfold share_fields. rewrite !str_bytes_app. unfold double_quote. rewrite str_bytes_of_bytes.
  change (str_bytes "  chunks=") with (Byte.x20 :: str_bytes " chunks="). change (str_bytes "/") with [Byte.x2f].
  change (str_bytes "  name=") with (Byte.x20 :: str_bytes " name=").
  assert (str_bytes (if is_has_secret s then "key=yes" else "key=no")
          = str_bytes "key=" ++ str_bytes (if is_has_secret s then "yes" else "no")) as -> by (by destruct (is_has_secret s)).
  change (str_bytes " key=") with (Byte.x20 :: str_bytes "key="). change (str_bytes "  ") with [Byte.x20; Byte.x20].
  change (str_bytes "[library] ") with (str_bytes "[library] ").
  rewrite <- ?app_assoc. cbn [app]. rewrite <- ?app_assoc. cbn [app]. by rewrite <- ?app_assoc.
Qed.

Lemma digits_no_byte (c : byte) n : 0 ≤ n → (byte_val c < 48 ∨ 58 ≤ byte_val c) → c ∉ str_bytes (dec n).
Proof.
  intros Hn Hc Hin. unfold dec in Hin. rewrite str_bytes_of_bytes in Hin. pose proof (dec_bytes_digits n Hn) as Hd.
  rewrite Forall_forall in Hd. apply Hd in Hin. lia.
Qed.

Lemma listed_mode_word s : listed_share s → Byte.x20 ∉ str_bytes (default "unknown"%string (is_mode s)).
Proof. intros (_ & _ & [->|[m ->]]); [by_decide|]. destruct m; by_decide. Qed.

Lemma listed_mode_inj s s' : listed_share s → listed_share s' →
  default "unknown"%string (is_mode s) = default "unknown"%string (is_mode s') → is_mode s = is_mode s'.
Proof.
  intros (_ & _ & Hs) (_ & _ & Hs').
  destruct Hs as [->|[m ->]], Hs' as [->|[m' ->]]; cbn; [done|by destruct m'|by destruct m|congruence].
Qed.

Lemma share_fields_inj s s' : listed_share s → listed_share s' → share_fields s = share_fields s' →
  is_name s = is_name s' ∧ is_completed_chunks s = is_completed_chunks s' ∧ is_total_chunks s = is_total_chunks s'
  ∧ is_has_secret s = is_has_secret s' ∧ is_mode s = is_mode s'.
Proof.
  intros Hl Hl'. pose proof (listed_mode_word s Hl) as Hm. pose proof (listed_mode_word s' Hl') as Hm'.
  pose proof (listed_mode_inj s s' Hl Hl') as Hmode. destruct Hl as (Hc & Ht & _), Hl' as (Hc' & Ht' & _).
  unfold share_fields. intros [Hmo Heq]%field_inj; [|done..]. apply str_bytes_inj, Hmode in Hmo. apply app_inv_head in Heq.
  apply field_inj in Heq as [Hcc Heq]; [|apply digits_no_byte; [done|by_decide]..]. apply str_bytes_inj, dec_inj in Hcc; [|done..].
  apply field_inj in Heq as [Htt Heq]; [|apply digits_no_byte; [done|by_decide]..]. apply str_bytes_inj, dec_inj in Htt; [|done..].
  apply app_inv_head in Heq. apply field_inj in Heq as [Hse Heq]; [|destruct (is_has_secret s); by_decide|destruct (is_has_secret s'); by_decide].
  apply app_inv_head in Heq. injection Heq as Heq. apply app_inv_tail, str_bytes_inj in Heq.
  split_and!; [done..| |done]. destruct (is_has_secret s), (is_has_secret s'); done.
Qed.

Lemma length_ShareId_to_string id : length (str_bytes (ShareId_to_string id)) = 64%nat.
Proof. unfold ShareId_to_string. by rewrite str_bytes_of_list, length_write_hex, length_array. Qed.

Lemma print_share_inj s s' : listed_share s → listed_share s' → print_share s = print_share s' → s = s'.
Proof.
  intros Hl Hl' Heq. destruct (print_share_bytes s) as (t & Ht & Hb), (print_share_bytes s') as (t' & Ht' & Hb').
  assert (t = t') as -> by congruence. rewrite Hb in Hb'. apply app_inv_head in Hb'.
  apply app_inj_1 in Hb' as [Hid Hb']; [|by rewrite !length_ShareId_to_string]. apply str_bytes_inj, ShareId_to_string_inj in Hid.
  apply app_inv_head, share_fields_inj in Hb' as (? & ? & ? & ? & ?); [|done..]. destruct s, s'. cbn in *. by subst.
Qed.

Lemma listed_from_local share : listed_share (ipc_share_summary_from_local share).
Proof.
  unfold listed_share, ipc_share_summary_from_local, summary_completed_chunks, summary_total_chunks.
  cbn [is_completed_chunks is_total_chunks is_mode]. split_and!; [destruct (ls_progress share); unfold zlen; lia|unfold zlen; lia|]. destruct (summary_mode share) as [m|]; [right; by exists m|by left].
Qed.

Lemma fmap_inj_on {A B} (P : A → Prop) (f : A → B) l l' :
  (∀ a a', P a → P a' → f a = f a' → a = a') → Forall P l → Forall P l' → f <$> l = f <$> l' → l = l'.
Proof.
  intros Hf Hl. revert l'. induction Hl as [|a l Ha Hl IH]; intros [|a' l'] Hl' Heq; try done.
  apply Forall_cons in Hl' as [Ha' Hl']. injection Heq as Heq Hrest. f_equal; [by apply Hf|by apply IH].
Qed.

Lemma print_share_not_empty s : print_share s ≠ Out "[library] no shares found".
Proof.
  destruct (print_share_bytes s) as (t & -> & Hb). intros [= ->]. apply (f_equal length) in Hb.
  rewrite !length_app, length_ShareId_to_string in Hb.
  change (length (str_bytes _)) with 25%nat in Hb at 1. lia.
Qed.

(** * What is asked and answered *)

(** The configuration file spells [config]. *)
Definition configured (getenv : string → option text) (resolve : text → path) (w : World) (config : EtleConfig) : Prop :=
  ∃ name ls os, default_config_path getenv = Some name
    ∧ file_at (w_fs w) (resolve name) = Some (utf8_encode (unlines ls))
    ∧ Forall2 line_spelled ls os ∧ Forall plain_line ls ∧ Forall (Forall scalar) ls
    ∧ config = foldl assign EtleConfig_default (omap id os).

Lemma load_configured getenv resolve w config :
  no_faults w → configured getenv resolve w config → load getenv resolve w = (Ok config, tick w).
Proof.
  intros Hn (name & ls & os & Hname & Hfile & Hls & Hplain & Hscalar & ->).
  rewrite (load_file _ _ _ _ _ Hname Hfile) by auto using unlines_scalar.
  unfold parse. rewrite lines_unlines by done. by rewrite (parse_lines_spelled 1 EtleConfig_default ls os).
Qed.

(** What the end of a run shows of a response. *)
Definition printed (response : IpcResponse) : list Line :=
  match print_response response with Ok lines => lines | _ => [] end.
Definition outcome_of (response : IpcResponse) : result CliError unit :=
  match print_response response with Ok _ => Ok tt | Err message => Err (CliMessage message) | _ => Panic end.

Section client_facts.
Context `{BincodeLaws IpcCommand, BincodeLaws IpcResponse, BincodeLaws IpcEvent}.
Context (getenv : string → option text) (resolve : text → path) (endpoint : path → socket_addr).
Context (show_addr : socket_addr → string).

Definition socket_line (config : EtleConfig) (cli : Cli) : list Line :=
  if cli_verbose cli then [Out ("[cli] ipc socket: " +:+ path_display (cli_socket_path getenv resolve config cli))] else [].

Lemma cli_main_run info cli config command fc response fr rest w before :
  no_faults w → configured getenv resolve w config →
  cli_ipc_command getenv config (cli_command cli) = Some command → command ≠ SubscribeEvents →
  ipc_frame command = Ok fc → ipc_frame response = Ok fr →
  (∀ n, env_connect (w_env w) n (endpoint (cli_socket_path getenv resolve config cli)) = Ok (fr ++ rest)) →
  ∃ w', cli_main getenv resolve endpoint show_addr info cli (w, before)
        = (outcome_of response, (w', before ++ socket_line config cli ++ printed response))
    ∧ w_out w' = fc ∧ w_fs w' = w_fs w.
Proof.
  intros Hn Hconf Hcmd Hne Hfc Hfr Hconn.
  destruct (wp_run _ _ _ _ (wp_send_command command fc response fr rest _ (tick w) Hn Hfc Hfr (Hconn _)))
    as [(r & w' & Hrun & -> & Ho & Hfs)|(? & ? & _ & [])].
  exists w'. split; [|by split]. unfold cli_main.
  assert (cli_command cli ≠ CliVersion) as Hversion by (intros Hv; by rewrite Hv in Hcmd).
  transitivity ((let! config := on_machine (map_err CliConfig (load getenv resolve)) in
      let socket := cli_socket_path getenv resolve config cli in
      do! (if cli_verbose cli then print_lines [Out ("[cli] ipc socket: " +:+ path_display socket)] else ret tt) in
      match cli_ipc_command getenv config (cli_command cli) with
      | None => ret tt
      | Some SubscribeEvents => map_err CliIpc (watch endpoint show_addr socket)
      | Some command =>
          let! response := on_machine (map_err CliIpc (send_ipc_command (endpoint socket) command)) in
          let! lines := lift_result (result_map_err CliMessage (print_response response)) in
          print_lines lines
      end) (w, before)); [by destruct (cli_command cli)|].
  unfold bind at 1, on_machine at 1, map_err at 1. cbn [fst snd]. rewrite (load_configured _ _ _ _ Hn Hconf). cbn [result_map_err]. cbv zeta.
  rewrite Hcmd.
  assert (∀ before', (let! response := on_machine (map_err CliIpc (send_ipc_command (endpoint (cli_socket_path getenv resolve config cli)) command)) in
            let! lines := lift_result (result_map_err CliMessage (print_response response)) in
            print_lines lines) (tick w, before')
          = (outcome_of response, (w', before' ++ printed response))) as Hask.
  { intros before'. unfold bind at 1, on_machine, map_err. cbn [fst snd]. rewrite Hrun. cbn [result_map_err].
    unfold bind, lift_result, print_lines, modify, outcome_of, printed. by destruct response; cbn; rewrite ?app_nil_r. }
  unfold socket_line. destruct (cli_verbose cli); unfold bind at 1; unfold print_lines at 1, modify, ret; cbn [fst snd].
  - rewrite app_assoc, <- Hask. by destruct command.
  - rewrite app_nil_l, <- Hask. by destruct command.
Qed.
End client_facts.

(** * The theorems *)

(** A listing tells which shares the daemon has: two libraries print the same lines
    exactly when their shares agree in everything a summary holds (id, name, counts,
    key and mode), in the same order, whatever the names contain. *)
Theorem listing_identifies shares shares' :
  print_shares (ipc_share_summary_from_local <$> shares) = print_shares (ipc_share_summary_from_local <$> shares')
  ↔ ipc_share_summary_from_local <$> shares = ipc_share_summary_from_local <$> shares'.
Proof.
  split; [|by intros ->].
  assert (∀ l, Forall listed_share (ipc_share_summary_from_local <$> l)) as Hlisted.
  { intros l. apply Forall_fmap, Forall_forall. intros share _. apply listed_from_local. }
  pose proof (Hlisted shares) as Hl. pose proof (Hlisted shares') as Hl'. revert Hl Hl'.
  generalize (ipc_share_summary_from_local <$> shares), (ipc_share_summary_from_local <$> shares').
  intros l l' Hl Hl' Heq. destruct l as [|s l], l' as [|s' l']; [done| | |].
  - apply (f_equal head) in Heq. change (Some (Out "[library] no shares found") = Some (print_share s')) in Heq.
    destruct (print_share_not_empty s'). congruence.
  - apply (f_equal head) in Heq. change (Some (print_share s) = Some (Out "[library] no shares found")) in Heq.
    destruct (print_share_not_empty s). congruence.
  - apply (fmap_inj_on listed_share print_share); [exact print_share_inj|done|done|exact Heq].
Qed.

Section theorems.
Context `{Blake3} `{DiskFormat}.
Context `{BincodeLaws IpcCommand, BincodeLaws IpcResponse, BincodeLaws IpcEvent}.
Context (show_file : FileError → string) (library_root : path).
Context (getenv : string → option text) (resolve : text → path) (endpoint : path → socket_addr).
Context (show_addr : socket_addr → string).

End theorems.

(** * A sample: [etle-cli download] against a daemon *)
Import Toy WireSample StateSample DiskSample DiscoverySample IpcSample.
Module CliSample.
Definition info : BuildInfo :=
  mkBuildInfo "0.1.0" "0123456789abcdef" "main" "none" "7" "message" "dirty" "" "" "" "" "" "" "" "".
Definition endpoint (p : path) : socket_addr := SocketAddr (IpV4 0) 0.
Definition show_addr (a : socket_addr) : string := text_str (socket_v4_text 0 (addr_port a)).
Definition args : DownloadArgs :=
  mkDownloadArgs [] share_id None false true (Some 3) None None None None None.
Definition cli : Cli := mkCli true None (CliDownload args).
Definition command : IpcCommand :=
  DownloadFresh (mkDownloadRequest share_id [] None 3 DEFAULT_REQUEST_WINDOW 40001 DEFAULT_DISCOVERY_TIMEOUT_MS
                   DEFAULT_DISCOVERY_MULTICAST_ADDR (Some (text_str ConfigSample.psk))).
Definition frame {T} `{Bincode T} (m : T) : bytes := match ipc_frame m with Ok f => f | _ => [] end.
Definition listing : Cli := mkCli true None CliList.
End CliSample.
Import CliSample.

(** The options, then the configuration file, then the defaults. *)
Example sample_command : cli_ipc_command ConfigSample.getenv ConfigSample.config (cli_command cli) = Some command.
Proof. by vm_compute. Qed.

Example version_abi : version_abi_string (E := Empty_set) info = Ok "0123456_dirty_wire3_desc1"%string.
Proof. by vm_compute. Qed.

