(* ===== verification/Etled.v ===== *)
(** The daemon program ([src/src/bin/etled.rs]) and the accept loops of the TCP
    server ([share_forever] and [library_forever] of
    [src/src/network/transfer/serve.rs]).

    A loop that accepts peers is given the number of peers that come; it is still
    running when they have been served. The sessions are tasks of their own in the
    program: each has its own connection and only reads the library, so they are run
    here one after another. The tasks the program starts beside its main loop (the TCP
    server, the discovery server) are values that say what is started. *)
From stdpp Require Import base tactics list countable strings gmap relations.
From Stdlib Require Import ZArith Lia.
From S2P Require Import Prelude Bytes World Files Text Extern Crypto Descriptor Chunker State Library Codec Handshake DownloadState Reconstruct Download Swarm Seed Serve Discovery Config Ipc Output Progress Daemon Server Gui Cli.
Local Open Scope Z_scope.
Local Open Scope etle_scope.

(** * The accept loops *)
(** [TcpListener::bind] *)
Definition bind_listener (addr : socket_addr) : net unit := map_err NE_Io (faulty no_effect (λ w, (Ok tt, w))).

Section accept.
Context `{Blake3, X25519, Aead} `{Bincode WireMessage} `{DiskFormat}.

(** The outcome of a session is only printed. *)
Fixpoint share_forever (library_root : path) (share_id : ShareId) (options : ServeFileOptions) (peers : nat) : net unit :=
  match peers with
  | O => diverge
  | S peers =>
      let! _peer_addr := accept_peer in
      let! _session := try_ (E' := NetworkError) (share_connected_peer library_root share_id options) in
      share_forever library_root share_id options peers
  end.
Fixpoint library_forever (library_root : path) (options : ServeFileOptions) (peers : nat) : net unit :=
  match peers with
  | O => diverge
  | S peers =>
      let! _peer_addr := accept_peer in
      let! _session := try_ (E' := NetworkError) (library_connected_peer library_root options) in
      library_forever library_root options peers
  end.
End accept.

(** * [etled] *)
Record ServeArgs := mkServeArgs {
  sa_listen : option socket_addr;
  sa_peer_id : string;
  sa_library_root : option path;
  sa_ipc_socket : option path;
  sa_no_ipc : bool;
  sa_discovery_port : option Z;
  sa_discovery_multicast : option Z;
  sa_auth_psk : option string;
  sa_no_discovery : bool;
}.
Inductive EtledCommand := EtledVersion | EtledServe (args : ServeArgs).
Record EtledCli := mkEtledCli {
  ec_verbose : bool;
  ec_command : EtledCommand;
}.
Inductive EtledError :=
  | EtledConfig (e : ConfigError)
  | EtledFile (e : FileError)
  | EtledNetwork (e : NetworkError)
  | EtledIpc (e : IpcError).

(** What the options, the environment and the configuration come to. *)
Record Setup := mkSetup {
  st_library_root : path;
  st_listen : socket_addr;
  st_discovery_port : Z;
  st_discovery_multicast : Z;
  st_ipc_socket : path;
  st_auth_psk : option string;
}.
(** The arguments of [discovery::server::serve_with]. *)
Record DiscoveryTask := mkDiscoveryTask {
  dt_library_root : path;
  dt_listen : socket_addr;
  dt_peer_id : string;
  dt_options : DiscoveryOptions;
}.

Section etled.
Context `{Blake3, X25519, Aead} `{Bincode WireMessage} `{DiskFormat} `{Bincode DiscoveryMessage}.
Context `{Bincode IpcCommand, Bincode IpcResponse}.
Context (show_io : io_kind → string) (show_file : FileError → string) (show_network : NetworkError → string).
Context (getenv : string → option text) (resolve : text → path) (show_addr : socket_addr → string).

Definition serve_setup (config : EtleConfig) (args : ServeArgs) : Setup :=
  let library_root := default (configured_library_root getenv resolve config) (sa_library_root args) in
  mkSetup library_root
    (default (default default_listen_addr (cfg_listen config)) (sa_listen args))
    (default (Config.discovery_port config) (sa_discovery_port args))
    (default (Config.discovery_multicast config) (sa_discovery_multicast args))
    (default (configured_ipc_socket getenv resolve config library_root) (sa_ipc_socket args))
    (or_else (sa_auth_psk args) (configured_auth_psk getenv config)).

Definition serve_options (log_level : TransferLogLevel) (args : ServeArgs) (setup : Setup) : ServeFileOptions :=
  let options := ServeFileOptions_new (sa_peer_id args) log_level in
  match st_auth_psk setup with
  | Some passphrase => serve_with_auth_psk options (auth_psk_from_passphrase (str_bytes passphrase))
  | None => options
  end.
Definition discovery_task (log_level : TransferLogLevel) (args : ServeArgs) (setup : Setup) : option DiscoveryTask :=
  if sa_no_discovery args then None
  else Some (mkDiscoveryTask (st_library_root setup) (st_listen setup) (sa_peer_id args)
               (Discovery.with_verbose
                  (Discovery.with_multicast (DiscoveryOptions_new (st_discovery_port setup)) (st_discovery_multicast setup))
                  (is_verbose log_level))).

(** The lines printed at the start. *)
Definition startup_line (share : LocalShareSummary) : Line :=
  Out ("[daemon] share " +:+ ShareId_to_string (d_share_id (Library.ls_descriptor share)) +:+ "  chunks="
       +:+ dec (summary_completed_chunks share) +:+ "/" +:+ dec (summary_total_chunks share) +:+ "  "
       +:+ (if ls_has_secret share then "key=yes" else "key=no") +:+ "  name=" +:+ double_quote
       +:+ d_name (Library.ls_descriptor share) +:+ double_quote).
Definition print_startup_banner (library_root : path) (listen : socket_addr) : M (World * list Line) FileError unit :=
  do! print_lines [Out "[daemon] etled starting"; Out ("[daemon] listen address: " +:+ show_addr listen);
                   Out ("[daemon] library root: " +:+ path_display library_root);
                   Out "[daemon] mode: foreground; press Ctrl+C to stop";
                   Out "[daemon] peers must request a share_id with RequestShare"] in
  let! shares := on_machine (library_list library_root) in
  print_lines match shares with
              | [] => [Out "[daemon] no local shares found yet"]
              | _ => Out ("[daemon] loaded " +:+ dec (zlen shares) +:+ " local share(s)") :: (startup_line <$> shares)
              end.
(** What is printed is not kept. *)
Definition unprinted {E A} (m : M (World * list Line) E A) : M World E A := λ w,
  match m (w, []) with (r, (w, _)) => (r, w) end.

(** The rest of [Command::Serve] once the address is bound. With the endpoint for
    commands the main loop is [forever], whose turns are [turns]; without it, the TCP
    server, to which [peers] peers come. *)
Definition serve_main_loop (log_level : TransferLogLevel) (args : ServeArgs) (setup : Setup) (turns : list turn) (peers : nat)
    : M Daemon EtledError unit :=
  if sa_no_ipc args then
    on_files (map_err EtledNetwork (library_forever (st_library_root setup) (serve_options log_level args setup) peers))
  else
    do! on_reporter (publish (ServerStarted (st_listen setup))) in
    let! ipc_result := try_ (forever show_io show_file show_network (st_library_root setup) (st_ipc_socket setup) turns) in
    do! on_reporter (publish ServerStopped) in
    lift_result (result_map_err EtledIpc ipc_result).

(** [Command::Serve] *)
Definition serve_command (log_level : TransferLogLevel) (args : ServeArgs) (turns : list turn) (peers : nat)
    : M Daemon EtledError unit :=
  let! config := on_files (map_err EtledConfig (load getenv resolve)) in
  let setup := serve_setup config args in
  do! on_files (map_err EtledFile (unprinted (print_startup_banner (st_library_root setup) (st_listen setup)))) in
  do! on_files (map_err EtledNetwork (bind_listener (st_listen setup))) in
  serve_main_loop log_level args setup turns peers.

(** [main], after the arguments were read. *)
Definition etled_main (cli : EtledCli) (turns : list turn) (peers : nat) : M Daemon EtledError unit :=
  match ec_command cli with
  | EtledVersion => ret tt
  | EtledServe args => serve_command (if ec_verbose cli then Verbose else Normal) args turns peers
  end.
End etled.

(** * The accept loop serves everyone *)

(** One peer: accepted, and served to the end of its session. *)
Definition peer_served (session : net EtleDescriptor) (w w' : World) : Prop :=
  ∃ addr w1 r, accept w = (Ok addr, w1) ∧ session w1 = (r, w') ∧ ((∃ d, r = Ok d) ∨ ∃ e, r = Err e).

Lemma wp_accept_keeps w : wp accept (λ _ w', keeps nofile w w') (λ _ w', keeps nofile w w') w.
Proof. apply wp_accept_any; intros ? w' He Hf; (split; [done|]); intros q _; by rewrite Hf. Qed.

Section accept_loop.
Context (session : net EtleDescriptor).
Fixpoint accept_loop (peers : nat) : net unit :=
  match peers with
  | O => diverge
  | S peers =>
      let! _peer_addr := accept_peer in
      let! _session := try_ (E' := NetworkError) session in
      accept_loop peers
  end.

Lemma accept_loop_served peers w :
  (∀ w, wp session (λ _ w', keeps nofile w w') (λ _ w', keeps nofile w w') w) →
  ∃ r w' n w1, accept_loop peers w = (r, w') ∧ keeps nofile w w' ∧ nsteps (peer_served session) n w w1
    ∧ ((n = peers ∧ r = Diverged ∧ w' = w1) ∨ ((n < peers)%nat ∧ ∃ k, accept w1 = (Err k, w') ∧ r = Err (NE_Io k))).
Proof.
  intros Hsession. revert w. induction peers as [|peers IH]; intros w.
  { exists Diverged, w, 0%nat, w. split_and!; [done|done|constructor|by left]. }
  cbn [accept_loop]. unfold bind, accept_peer, map_err, try_.
  destruct (wp_run _ _ _ _ (wp_accept_keeps w)) as [(addr & w1 & Ha & Hk1)|(k & w1 & Ha & Hk1)]; rewrite Ha; cbn [result_map_err].
  - assert (∃ r w2, session w1 = (r, w2) ∧ ((∃ d, r = Ok d) ∨ ∃ e, r = Err e) ∧ keeps nofile w1 w2) as (r & w2 & Hs & Hr & Hk2).
    { destruct (wp_run _ _ _ _ (Hsession w1)) as [(d & w2 & Hs & Hk2)|(e & w2 & Hs & Hk2)]; eexists _, w2; eauto. }
    destruct (IH w2) as (r' & w' & n & w3 & Hrun & Hk & Hsteps & Hend). exists r', w', (S n), w3. split_and!.
    + rewrite Hs. by destruct Hr as [[d ->]|[e ->]].
    + etrans; [exact Hk1|]. by etrans.
    + eapply nsteps_l; [|exact Hsteps]. by exists addr, w1, r.
    + destruct Hend as [(-> & ? & ?)|(? & ?)]; [by left|right; split; [lia|done]].
  - exists (Err (NE_Io k)), w1, 0%nat, w. split_and!; [done|done|constructor|]. right. split; [lia|]. by exists k.
Qed.
End accept_loop.

Section forever.
Context `{Blake3, X25519, Aead} `{Bincode WireMessage} `{DiskFormat}.

Lemma library_forever_loop root options peers :
  library_forever root options peers = accept_loop (library_connected_peer root options) peers.
Proof. induction peers as [|peers IH]; [done|]. cbn [library_forever accept_loop]. by rewrite IH. Qed.
Lemma share_forever_loop root share_id options peers :
  share_forever root share_id options peers = accept_loop (share_connected_peer root share_id options) peers.
Proof. induction peers as [|peers IH]; [done|]. cbn [share_forever accept_loop]. by rewrite IH. Qed.

Lemma library_session_keeps root options w :
  wp (library_connected_peer root options) (λ _ w', keeps nofile w w') (λ _ w', keeps nofile w w') w.
Proof.
  eapply wp_mono; [apply wp_library_connected_peer| |].
  - intros d w' (id & _ & _ & Hs). apply Hs.
  - intros e w' [Hs|(id & _ & Hs)]; apply Hs.
Qed.
Lemma share_session_keeps root id options w :
  wp (share_connected_peer root id options) (λ _ w', keeps nofile w w') (λ _ w', keeps nofile w w') w.
Proof.
  eapply wp_mono; [apply wp_share_connected_peer| |].
  - intros d w' [_ Hs]. apply Hs.
  - intros e w' Hs. apply Hs.
Qed.
End forever.

(** * The start *)
Section start.
Context (getenv : string → option text) (resolve : text → path).

Lemma wp_load w : wp (load getenv resolve) (λ _ w', stepped w w') (λ _ w', stepped w w') w.
Proof.
  unfold load. destruct (default_config_path getenv) as [name|]; [|by wp_simpl]. unfold from_path, read_to_string. wp_simpl.
  apply wp_read_file.
  - intros k w' Hst _. destruct k; by wp_simpl.
  - intros d w' _ Hst. wp_simpl. destruct (utf8_decode d) as [source|]; cbn [ok_or]; [|by wp_simpl].
    wp_simpl. pose proof (parse_lines_spec (lines source) 1 EtleConfig_default) as Hspec. unfold parse.
    by destruct (parse_lines _ _ _).
Qed.

Lemma wp_bind_listener addr w : wp (bind_listener addr) (λ _ w', stepped w w') (λ _ w', stepped w w') w.
Proof. unfold bind_listener. wp_simpl. apply wp_faulty; [by intros f _|]. intros _. by apply wp_ret. Qed.

Lemma wp_startup_banner `{Blake3} `{DiskFormat} show_addr root listen w :
  wp (unprinted (print_startup_banner show_addr root listen)) (λ _ w', stepped w w') (λ _ w', stepped w w') w.
Proof.
  unfold wp, unprinted, print_startup_banner, bind, print_lines, modify, on_machine. cbn [fst snd].
  by destruct (wp_run _ _ _ _ (wp_library_list root w)) as [(shares & w' & -> & Hst & _)|(e & w' & -> & Hst)].
Qed.
End start.

Section runs.
Context `{Blake3, X25519, Aead} `{Bincode WireMessage} `{DiskFormat} `{Bincode DiscoveryMessage}.
Context `{Bincode IpcCommand, Bincode IpcResponse, Bincode IpcEvent}.
Context (show_io : io_kind → string) (show_file : FileError → string) (show_network : NetworkError → string).
Context (getenv : string → option text) (resolve : text → path) (show_addr : socket_addr → string).
Context (endpoint : path → socket_addr).

(** Only the step counter of the world moved. *)
Definition untouched (d d' : Daemon) : Prop :=
  stepped (dm_world d) (dm_world d') ∧ d' = set_udp (set_world (dm_world d') (dm_udp d)) d.

Lemma untouched_on_files {E E' A B} (f : E → E') (m : M World E A) d :
  (∀ w, wp m (λ _ w', stepped w w') (λ _ w', stepped w w') w) →
  ∃ d1, untouched d d1
  ∧ ((∃ a w1, m (dm_world d) = (Ok a, w1) ∧ ∀ k : A → M Daemon E' B, bind (on_files (map_err f m)) k d = k a d1)
     ∨ ∃ e, ∀ k : A → M Daemon E' B, bind (on_files (map_err f m)) k d = (Err (f e), d1)).
Proof.
  intros Hm. destruct (wp_run _ _ _ _ (Hm (dm_world d))) as [(a & w & Hrun & Hst)|(e & w & Hrun & Hst)];
    exists (set_udp (set_world w (dm_udp d)) d); (split; [by split|]).
  - left. exists a, w. split; [done|]. intros k. unfold bind, on_files, on_udp, on_world, map_err.
    change (u_world (dm_udp d)) with (dm_world d). by rewrite Hrun.
  - right. exists e. intros k. unfold bind, on_files, on_udp, on_world, map_err.
    change (u_world (dm_udp d)) with (dm_world d). by rewrite Hrun.
Qed.

Lemma untouched_trans d d1 d2 : untouched d d1 → untouched d1 d2 → untouched d d2.
Proof. intros [Hs1 Hd1] [Hs2 Hd2]. split; [by etrans|]. rewrite Hd2. by rewrite Hd1. Qed.

Lemma serve_start log_level args turns peers d :
  ∃ d1, untouched d d1
  ∧ ((∃ e, serve_command show_io show_file show_network getenv resolve show_addr log_level args turns peers d = (Err e, d1)
        ∧ ∀ e', e ≠ EtledIpc e')
     ∨ ∃ config w1, load getenv resolve (dm_world d) = (Ok config, w1)
         ∧ serve_command show_io show_file show_network getenv resolve show_addr log_level args turns peers d
           = serve_main_loop show_io show_file show_network log_level args (serve_setup getenv resolve config args) turns peers d1).
Proof.
  unfold serve_command.
  destruct (untouched_on_files (B := unit) EtledConfig (load getenv resolve) d (wp_load getenv resolve))
    as (d1 & Hd1 & [(config & w1 & Hload & Hk1)|(e & Hk1)]).
  2: { exists d1. split; [done|]. left. exists (EtledConfig e). by rewrite Hk1. }
  rewrite Hk1. cbv zeta. set (setup := serve_setup getenv resolve config args).
  destruct (untouched_on_files (B := unit) EtledFile (unprinted (print_startup_banner show_addr (st_library_root setup) (st_listen setup))) d1
              (wp_startup_banner show_addr _ _)) as (d2 & Hd2 & [(ls & w2 & _ & Hk2)|(e & Hk2)]).
  2: { exists d2. split; [by eapply untouched_trans|]. left. exists (EtledFile e). by rewrite Hk2. }
  rewrite Hk2.
  destruct (untouched_on_files (B := unit) EtledNetwork (bind_listener (st_listen setup)) d2 (wp_bind_listener _))
    as (d3 & Hd3 & [(u & w3 & _ & Hk3)|(e & Hk3)]).
  2: { exists d3. split; [eapply untouched_trans; [exact Hd1|by eapply untouched_trans]|]. left. exists (EtledNetwork e). by rewrite Hk3. }
  exists d3. split; [eapply untouched_trans; [exact Hd1|by eapply untouched_trans]|]. right. exists config, w1. split; [done|]. by rewrite Hk3.
Qed.

(** While the daemon serves, the bus only grows. *)
Lemma forever_grows root socket turns d r d' :
  registry_ok d → (∃ u, r = Ok u) ∨ (∃ e, r = Err e) →
  forever show_io show_file show_network root socket turns d = (r, d') →
  registry_ok d' ∧ rp_events (dm_reporter d) `prefix_of` rp_events (dm_reporter d').
Proof.
  intros Hok Hr Hrun. assert (r = Ok tt ∨ ∃ e, r = Err e) as Hr' by (destruct Hr as [[[] ->]|]; [by left|by right]).
  destruct (forever_inv _ _ _ _ _ _ _ _ _ Hrun Hr') as [(e & w1 & _ & _ & ->)|(w1 & d2 & w3 & _ & Hserve & _ & ->)]; [done|].
  pose proof (serve_turns_steps _ _ _ _ _ _ _ _ Hserve Hr') as Hsteps.
  exact (rtc_registry _ _ _ _ (set_udp (set_world w1 (dm_udp d)) d) d2 Hsteps Hok).
Qed.
End runs.

(** * The theorems *)
Section theorems.
Context `{Blake3, X25519, Aead} `{Bincode WireMessage} `{DiskFormat} `{Bincode DiscoveryMessage}.
Context `{Bincode IpcCommand, Bincode IpcResponse, Bincode IpcEvent}.
Context (show_io : io_kind → string) (show_file : FileError → string) (show_network : NetworkError → string).
Context (getenv : string → option text) (resolve : text → path) (show_addr : socket_addr → string).
Context (endpoint : path → socket_addr).



(** C26: a configuration file with an error stops the command line client and the daemon
    with that error, before anything is sent, bound, published or printed; the
    graphical client starts nevertheless, with the values of an empty configuration,
    and says so. *)
Theorem broken_configuration (show_config : ConfigError → string) name source error :
  default_config_path getenv = Some name → Forall scalar source → parse source = Err error →
  (∀ info cli before w, no_faults w → file_at (w_fs w) (resolve name) = Some (utf8_encode source) → cli_command cli ≠ CliVersion →
     cli_main getenv resolve endpoint show_addr info cli (w, before) = (Err (CliConfig error), (tick w, before)))
  ∧ (∀ log_level args turns peers d, no_faults (dm_world d) →
       file_at (w_fs (dm_world d)) (resolve name) = Some (utf8_encode source) →
       ∃ d', serve_command show_io show_file show_network getenv resolve show_addr log_level args turns peers d
             = (Err (EtledConfig error), d') ∧ untouched d d')
  ∧ (∀ w, no_faults w → file_at (w_fs w) (resolve name) = Some (utf8_encode source) →
       GuiInit_default (E := Empty_set) getenv resolve show_config w
       = (Ok (gui_settings getenv resolve EtleConfig_default
                (Some ("config: failed to load config.toml; using built-in defaults (" +:+ show_config error +:+ ")")%string)), tick w)).
Proof.
  intros Hname Hscalar Hparse.
  assert (∀ w, no_faults w → file_at (w_fs w) (resolve name) = Some (utf8_encode source) →
            load getenv resolve w = (Err error, tick w)) as Hload.
  { intros w Hn Hfile. by rewrite (load_file _ _ _ _ _ Hname Hfile), Hparse. }
  split_and!.
  - intros info cli before w Hn Hfile Hversion. unfold cli_main.
    destruct (cli_command cli) eqn:Hcmd; [done|..]; unfold bind, on_machine, map_err; cbn [fst snd]; by rewrite (Hload w Hn Hfile).
  - intros log_level args turns peers d Hn Hfile. exists (set_udp (set_world (tick (dm_world d)) (dm_udp d)) d). split; [|by split].
    unfold serve_command, bind, on_files, on_udp, on_world, map_err. change (u_world (dm_udp d)) with (dm_world d). by rewrite (Hload _ Hn Hfile).
  - intros w Hn Hfile. unfold GuiInit_default, bind, try_. by rewrite (Hload w Hn Hfile).
Qed.
End theorems.

(** * Samples *)
Import Toy WireSample StateSample DiskSample DiscoverySample IpcSample.
Module EtledSample.
Definition getenv (name : string) : option text := None.
Definition args : ServeArgs := mkServeArgs None "etle-daemon" None None false None None (Some "secret"%string) false.
Definition run : M Daemon EtledError unit :=
  serve_command DaemonSample.show_io DaemonSample.show_file DaemonSample.show_network getenv ConfigSample.resolve
    CliSample.show_addr Normal args [Connection] 0.
Definition shutdown : Daemon := ServerSample.daemon (ServerSample.frame Shutdown).
Definition source : text := txt "parallel = many".
Definition broken : World := CryptoSample.world {[ ConfigSample.file := File (utf8_encode source) ]} [].
End EtledSample.


Lemma broken_configuration_witness :
  let error := InvalidValue 1 (txt "parallel") (txt "many") in
  cli_main ConfigSample.getenv ConfigSample.resolve CliSample.endpoint CliSample.show_addr CliSample.info CliSample.listing
    (EtledSample.broken, []) = (Err (CliConfig error), (tick EtledSample.broken, [])).
Proof.
  apply (broken_configuration DaemonSample.show_io DaemonSample.show_file DaemonSample.show_network ConfigSample.getenv
           ConfigSample.resolve CliSample.show_addr CliSample.endpoint (λ _, ""%string)
           (txt "/home/u/.config/etle/config.toml") EtledSample.source).
  - by vm_compute.
  - by_decide.
  - by vm_compute.
  - by intros n.
  - by vm_compute.
  - discriminate.
Defined.
