(* ===== verification/Examples.v ===== *)
(** The example programs [src/examples/local_roundtrip.rs] and
    [src/examples/debug_roundtrip.rs]: two whole programs that put the hash, the key
    exchange, the key wrapping, the chunker and the storage together, with what they
    print. They are the repository's own statement of what the library is for, and
    the theorems say that the programs succeed, and that success means what they
    print.

    [getenv] is the environment, [resolve] reads a path name and [hex_encode] is the
    [hex] crate. The state is the machine and the lines printed so far. *)
From stdpp Require Import base tactics list countable strings gmap.
From Stdlib Require Import ZArith Lia.
From S2P Require Import Prelude Bytes World Files Extern Crypto Descriptor Chunker Package Storage Library Seed Output Cli.
Local Open Scope Z_scope.
Local Open Scope etle_scope.

(** [anyhow::Error], by where it comes from. *)
Inductive ExampleError :=
  | Usage (message : string)
  | ExIo (k : io_kind)
  | ExCrypto (e : CryptoError)
  | ExFile (e : FileError)
  | Ensure (message : string).

Abbreviation example := (M (World * list string) ExampleError).

(** A library call on the machine; printing leaves the machine alone. *)
Definition on_disk {E A} (m : M World E A) : M (World * list string) E A := λ s,
  match m s.1 with (r, w) => (r, (w, s.2)) end.
Definition println {E} (line : string) : M (World * list string) E unit :=
  modify (λ s, (s.1, s.2 ++ [line])).
Definition ensure (condition : bool) (message : string) : example unit :=
  if condition then ret tt else throw (Ensure message).

Definition print_banner (title : string) : example unit :=
  do! println "" in
  do! println "============================================" in
  do! println title in
  println "============================================".

Definition print_step (index : Z) (title : string) : example unit :=
  do! println "" in
  println ("[ step=" +:+ dec index +:+ " title=" +:+ double_quote +:+ title +:+ double_quote +:+ " ]").

Definition print_kv (key value : string) : example unit := println (key +:+ "=" +:+ value).

Definition result_lines (name status : string) : list string :=
  [""; "result=" +:+ status; "example=" +:+ name]%string.
Definition print_result (name status : string) : example unit :=
  do! println "" in
  do! println ("result=" +:+ status) in
  println ("example=" +:+ name).

(** [Display] of [bool] and of [FileId], the derived [Debug] of [Nonce]. *)
Definition show_bool (b : bool) : string := if b then "true" else "false".
Definition FileId_to_string (id : FileId) : string :=
  of_bytes (write_hex (array_data (file_id_bytes id))).
Definition show_nonce (nonce : Nonce) : string :=
  "Nonce([" +:+ String.concat ", " ((λ b, dec (byte_val b)) <$> array_data (nonce_bytes nonce)) +:+ "])".

Definition hex_prefix (b : bytes) (max_len : Z) : string :=
  let shown := Z.min (zlen b) max_len in
  let output := of_bytes (write_hex (take (Z.to_nat shown) b)) in
  if decide (zlen b > shown) then output +:+ "..." else output.

Definition default_workspace_path (input : path) : path := [".etle-work"%string; file_name input].

Definition prepare_workspace (workspace : path) : io unit :=
  do! create_dir_all workspace in
  let chunks_dir := debug_chunks_dir workspace in
  let! exists_ := gets (path_exists chunks_dir) in
  if exists_ then remove_dir_all chunks_dir else ret tt.

Section programs.
Context `{Blake3, X25519, Aead, Bincode Manifest}.
Context (getenv : string → option string) (resolve : string → path) (hex_encode : bytes → string).

Definition example_psk : AuthPsk :=
  auth_psk_from_passphrase (str_bytes (default "etle-example-psk"%string (getenv "ETLE_EXAMPLE_PSK"))).

(** * [local_roundtrip] *)
Definition verify_psk_proofs (psk : AuthPsk) (seeder_session_key peer_session_key : SymmetricKey)
    (peer_public seeder_public : PublicKeyBytes) : example unit :=
  let peer_proof := derive_auth_tag psk peer_session_key peer_public seeder_public Client in
  let expected_peer_proof := derive_auth_tag psk seeder_session_key peer_public seeder_public Client in
  do! ensure (auth_tags_equal peer_proof expected_peer_proof) "client PSK proof failed" in
  let seeder_proof := derive_auth_tag psk seeder_session_key peer_public seeder_public Server in
  let expected_seeder_proof := derive_auth_tag psk peer_session_key peer_public seeder_public Server in
  ensure (auth_tags_equal seeder_proof expected_seeder_proof) "server PSK proof failed".

Definition local_roundtrip (args : list string) : example unit :=
  let! input := lift_result (ok_or (args !! 1%nat)
                  (Usage "usage: cargo run --example local_roundtrip -- <file>")) in
  let input := resolve input in
  do! print_banner "ETLE example: local authenticated encrypted roundtrip" in
  do! print_step 1 "load input and derive file identity" in
  let! file_id := on_disk (map_err ExIo (hash_file input)) in
  do! print_kv "input" (path_display input) in
  do! print_kv "file_id" (FileId_to_string file_id) in
  do! print_kv "chunk_size" (dec DEFAULT_CHUNK_SIZE) in
  do! print_step 2 "generate ephemeral X25519 peers" in
  let psk := example_psk in
  let! seeder := on_disk keypair_generate in
  let! peer := on_disk keypair_generate in
  let seeder_public := keypair_public seeder in
  let peer_public := keypair_public peer in
  do! print_kv "seeder_public" (hex_encode (array_data (public_key_bytes seeder_public))) in
  do! print_kv "peer_public" (hex_encode (array_data (public_key_bytes peer_public))) in
  do! print_step 3 "derive transcript-bound session keys" in
  let! seeder_shared := lift_result (result_map_err ExCrypto (diffie_hellman seeder peer_public)) in
  let! peer_shared := lift_result (result_map_err ExCrypto (diffie_hellman peer seeder_public)) in
  let seeder_session_key := derive_session_key_with_transcript seeder_shared peer_public seeder_public in
  let peer_session_key := derive_session_key_with_transcript peer_shared peer_public seeder_public in
  do! print_kv "session_keys_equal" (show_bool (bool_decide (seeder_session_key = peer_session_key))) in
  do! ensure (bool_decide (seeder_session_key = peer_session_key)) "session keys do not match" in
  do! print_step 4 "verify PSK proofs for both roles" in
  do! verify_psk_proofs psk seeder_session_key peer_session_key peer_public seeder_public in
  do! print_kv "client_psk_proof" "ok" in
  do! print_kv "server_psk_proof" "ok" in
  do! print_step 5 "generate and wrap reusable file key" in
  let! file_key := on_disk generate_file_key in
  let! wrapped_file_key := on_disk (map_err ExCrypto (wrap_file_key seeder_session_key file_id file_key)) in
  let! peer_file_key := lift_result (result_map_err ExCrypto (unwrap_file_key peer_session_key file_id wrapped_file_key)) in
  do! print_kv "wrapped_file_key_len" (dec (zlen (wrapped_data wrapped_file_key))) in
  do! print_kv "unwrapped_key_matches" (show_bool (bool_decide (peer_file_key = file_key))) in
  do! ensure (bool_decide (peer_file_key = file_key)) "unwrapped file key does not match" in
  do! print_step 6 "encrypt chunks and decrypt to output file" in
  let! encrypted := on_disk (map_err ExFile (encrypt_file input file_key DEFAULT_CHUNK_SIZE)) in
  let output_path := default_output_path input in
  do! on_disk (map_err ExFile (decrypt_to_file encrypted peer_file_key output_path)) in
  do! print_kv "chunks" (dec (zlen (mf_chunks (ef_manifest encrypted)))) in
  do! print_kv "output" (path_display output_path) in
  do! print_step 7 "verify reconstructed output hash" in
  let! output_file_id := on_disk (map_err ExIo (hash_file output_path)) in
  let verified := bool_decide (output_file_id = file_id) in
  do! print_kv "output_file_id" (FileId_to_string output_file_id) in
  do! print_kv "verified" (show_bool verified) in
  do! ensure verified "reconstructed file hash does not match original" in
  print_result "local_roundtrip" "ok".

(** * [debug_roundtrip] *)

(** The first five chunks, with their sizes. *)
Definition print_plain_chunk (_ : unit) (chunk : PlainChunk) : example unit :=
  print_kv ("chunk_" +:+ dec (plain_index chunk) +:+ "_plain_size") (dec (zlen (plain_data chunk))).

Definition reconstructed_path (workspace input : path) : path :=
  workspace ++ [("reconstructed-" +:+ file_name input)%string].

(** Steps 1 and 2: the identity of the input. *)
Definition debug_prepare (input workspace : path) : example FileId :=
  do! print_step 1 "prepare input and workspace" in
  do! on_disk (map_err ExIo (prepare_workspace workspace)) in
  let! file_id := on_disk (map_err ExIo (hash_file input)) in
  let! meta := on_disk (map_err ExIo (metadata input)) in
  let file_size := node_len meta in
  do! print_kv "input" (path_display input) in
  do! print_kv "input_size" (dec file_size +:+ " bytes") in
  do! print_kv "file_id" (FileId_to_string file_id) in
  do! print_kv "workspace" (path_display workspace) in
  do! print_step 2 "split plaintext into chunks" in
  let! plain_chunks := on_disk (map_err ExFile (read_file_chunks input DEFAULT_CHUNK_SIZE)) in
  do! print_kv "chunk_size" (dec DEFAULT_CHUNK_SIZE +:+ " bytes") in
  do! print_kv "chunks" (dec (zlen plain_chunks)) in
  do! mfold print_plain_chunk tt (take 5 plain_chunks) in
  do! (if decide (zlen plain_chunks > 5) then print_kv "remaining_chunks" (dec (zlen plain_chunks - 5)) else ret tt) in
  ret file_id.

(** Step 3: the session keys of the two sides. *)
Definition debug_session : example (SymmetricKey * SymmetricKey) :=
  do! print_step 3 "derive authenticated session" in
  let psk := example_psk in
  let! seeder := on_disk keypair_generate in
  let! peer := on_disk keypair_generate in
  let seeder_public_key := keypair_public seeder in
  let peer_public_key := keypair_public peer in
  let! seeder_shared := lift_result (result_map_err ExCrypto (diffie_hellman seeder peer_public_key)) in
  let! peer_shared := lift_result (result_map_err ExCrypto (diffie_hellman peer seeder_public_key)) in
  let seeder_session_key := derive_session_key_with_transcript seeder_shared peer_public_key seeder_public_key in
  let peer_session_key := derive_session_key_with_transcript peer_shared peer_public_key seeder_public_key in
  do! print_kv "session_keys_equal" (show_bool (bool_decide (seeder_session_key = peer_session_key))) in
  do! ensure (bool_decide (seeder_session_key = peer_session_key)) "session keys do not match" in
  let peer_proof := derive_auth_tag psk peer_session_key peer_public_key seeder_public_key Client in
  let expected_peer_proof := derive_auth_tag psk seeder_session_key peer_public_key seeder_public_key Client in
  let psk_ok := auth_tags_equal peer_proof expected_peer_proof in
  do! print_kv "client_psk_proof" (show_bool psk_ok) in
  do! ensure psk_ok "client PSK proof failed" in
  ret (seeder_session_key, peer_session_key).

(** Step 4: the encrypted file in the workspace, and the key the peer unwrapped. *)
Definition debug_seal (input workspace : path) (file_id : FileId) (seeder_session_key peer_session_key : SymmetricKey)
    : example (EncryptedFile * SymmetricKey) :=
  do! print_step 4 "wrap file key and encrypt chunks" in
  let! file_key := on_disk generate_file_key in
  let! wrapped := on_disk (map_err ExCrypto (wrap_file_key seeder_session_key file_id file_key)) in
  let! peer_file_key := lift_result (result_map_err ExCrypto (unwrap_file_key peer_session_key file_id wrapped)) in
  let key_ok := bool_decide (peer_file_key = file_key) in
  do! print_kv "wrapped_file_key_nonce" (show_nonce (wrapped_nonce wrapped)) in
  do! print_kv "wrapped_file_key_size" (dec (zlen (wrapped_data wrapped)) +:+ " bytes") in
  do! print_kv "unwrapped_key_matches" (show_bool key_ok) in
  do! ensure key_ok "unwrapped file key does not match" in
  let! encrypted := on_disk (map_err ExFile (encrypt_file input file_key DEFAULT_CHUNK_SIZE)) in
  do! on_disk (map_err ExFile (write_debug_workspace encrypted workspace)) in
  do! print_kv "manifest" (path_display (debug_manifest_path workspace)) in
  do! print_kv "chunks_dir" (path_display (debug_chunks_dir workspace)) in
  do! match ef_chunks encrypted !! 0 with
      | Some first =>
          do! print_kv "first_chunk_path" (path_display (debug_chunk_path workspace 0)) in
          do! print_kv "first_chunk_size" (dec (zlen (ec_data first)) +:+ " bytes") in
          print_kv "first_chunk_prefix" (hex_prefix (ec_data first) 16)
      | None => ret tt
      end in
  ret (encrypted, peer_file_key).

(** Steps 5 and 6: the file restored from the workspace. *)
Definition debug_restore (input workspace : path) (file_id : FileId) (encrypted : EncryptedFile)
    (peer_file_key : SymmetricKey) : example unit :=
  do! print_step 5 "reload workspace and decrypt" in
  let! loaded := on_disk (map_err ExFile (read_debug_workspace workspace)) in
  let! plaintext := lift_result (result_map_err ExFile (decrypt_to_bytes loaded peer_file_key)) in
  do! print_kv "loaded_manifest_matches" (show_bool (bool_decide (ef_manifest loaded = ef_manifest encrypted))) in
  do! print_kv "decrypted_bytes" (dec (zlen plaintext)) in
  do! print_step 6 "reconstruct output and verify final hash" in
  let output_path := reconstructed_path workspace input in
  do! on_disk (map_err ExIo (fs_write output_path plaintext)) in
  let! output_hash := on_disk (map_err ExIo (hash_file output_path)) in
  let verified := bool_decide (output_hash = file_id) in
  do! print_kv "output" (path_display output_path) in
  do! print_kv "output_file_id" (FileId_to_string output_hash) in
  do! print_kv "verified" (show_bool verified) in
  do! ensure verified "reconstructed file hash does not match original" in
  print_result "debug_roundtrip" "ok".

Definition debug_roundtrip (args : list string) : example unit :=
  let! input := lift_result (ok_or (args !! 1%nat)
                  (Usage "usage: cargo run --example debug_roundtrip -- <file> [workspace]")) in
  let input := resolve input in
  let workspace := default (default_workspace_path input) (resolve <$> args !! 2%nat) in
  do! print_banner "ETLE example: debug workspace roundtrip" in
  let! file_id := debug_prepare input workspace in
  let! keys := debug_session in
  let! sealed := debug_seal input workspace file_id keys.1 keys.2 in
  debug_restore input workspace file_id sealed.1 sealed.2.
End programs.

(** * Running the programs *)
Lemma wp_on_disk {E A} (m : M World E A) (Q : A → World * list string → Prop) (R : E → World * list string → Prop) w out :
  wp m (λ a w', Q a (w', out)) (λ e w', R e (w', out)) w → wp (on_disk m) Q R (w, out).
Proof. unfold wp, on_disk. cbn [fst snd]. by destruct (m w) as [[] ?]. Qed.

Lemma wp_println {E} line (Q : unit → World * list string → Prop) (R : E → World * list string → Prop) w out :
  (∀ out', Q tt (w, out')) → wp (println line) Q R (w, out).
Proof. intros HQ. apply HQ. Qed.

Lemma wp_print_kv key value (Q : unit → World * list string → Prop) R w out :
  (∀ out', Q tt (w, out')) → wp (print_kv key value) Q R (w, out).
Proof. apply wp_println. Qed.

Lemma wp_print_step index title (Q : unit → World * list string → Prop) R w out :
  (∀ out', Q tt (w, out')) → wp (print_step index title) Q R (w, out).
Proof. intros HQ. apply HQ. Qed.

Lemma wp_print_banner title (Q : unit → World * list string → Prop) R w out :
  (∀ out', Q tt (w, out')) → wp (print_banner title) Q R (w, out).
Proof. intros HQ. apply HQ. Qed.

Lemma wp_print_result name status (Q : unit → World * list string → Prop) R w out :
  Q tt (w, out ++ result_lines name status) → wp (print_result name status) Q R (w, out).
Proof. unfold wp, print_result, println, modify, bind, result_lines. cbn [fst snd]. by rewrite <- !app_assoc. Qed.

(** The checks of the programs are proved, not assumed: [ensure] must hold. *)
Lemma wp_ensure c message (Q : unit → World * list string → Prop) R s :
  c = true → Q tt s → wp (ensure c message) Q R s.
Proof. by intros ->. Qed.

Ltac ex_step := first
  [ wp_step | apply wp_print_kv; intros ? | apply wp_print_step; intros ? | apply wp_print_banner; intros ?
  | apply wp_on_disk; cbn [fst snd] | progress cbv zeta ].
Ltac ex_simpl := repeat ex_step.

(** A key pair [keypair_generate] can return. *)
Definition generated `{X25519} (k : EphemeralKeypair) : Prop :=
  ∃ seed, k = mkEphemeralKeypair (x_secret_random seed) (mkPublicKeyBytes (x_public (x_secret_random seed))).

Lemma wp_keypair_generate `{X25519} {E} (Q : EphemeralKeypair → World → Prop) (R : E → World → Prop) w :
  (∀ k w', generated k → stepped w w' → Q k w') → wp keypair_generate Q R w.
Proof. intros HQ. apply HQ; [by eexists|done]. Qed.

(** The session of two generated key pairs: both sides derive one key, unless X25519
    gives the all-zero secret, which [diffie_hellman] refuses. *)
Lemma diffie_hellman_cases `{Blake3, X25519Laws} a b :
  generated a → generated b →
  (∃ shared, diffie_hellman a (keypair_public b) = Ok shared ∧ diffie_hellman b (keypair_public a) = Ok shared)
  ∨ diffie_hellman a (keypair_public b) = Err InvalidPublicKey.
Proof.
  intros [s ->] [t ->]. rewrite <- (diffie_hellman_comm (mkEphemeralKeypair (x_secret_random s) _)) by done.
  unfold diffie_hellman. case_match; [by right|left; by eexists].
Qed.

(** What X25519 promises for keys that were generated: no all-zero secret. *)
Definition contributory `{Blake3, X25519} : Prop :=
  ∀ a b, generated a → generated b → diffie_hellman a (keypair_public b) ≠ Err InvalidPublicKey.

Lemma wp_wrap_file_key `{AeadLaws} session_key file_id file_key (Q : WrappedFileKey → World → Prop) R w :
  (∀ wrapped w', unwrap_file_key session_key file_id wrapped = Ok file_key → stepped w w' → Q wrapped w') →
  wp (wrap_file_key session_key file_id file_key) Q R w.
Proof.
  intros HQ. destruct (wrap_unwrap_roundtrip session_key file_id file_key w) as (wrapped & w' & Hrun & Hu & Hst).
  unfold wp. rewrite Hrun. by apply HQ.
Qed.

Lemma wp_generate_file_key {E} (Q : SymmetricKey → World → Prop) (R : E → World → Prop) w :
  (∀ k w', stepped w w' → Q k w') → wp generate_file_key Q R w.
Proof. intros HQ. by apply HQ. Qed.

Lemma same_tag a : auth_tags_equal a a = true.
Proof. by apply auth_tags_equal_spec. Qed.

Lemma wp_verify_psk_proofs `{Blake3} psk k p q (Q : unit → World * list string → Prop) R s :
  Q tt s → wp (verify_psk_proofs psk k k p q) Q R s.
Proof. intros HQ. unfold verify_psk_proofs. ex_simpl. apply wp_ensure; [apply same_tag|]. by apply wp_ensure; [apply same_tag|]. Qed.

(** ** [local_roundtrip] *)
Lemma with_file_name_ne p name : path_file_name p ≠ Some name → with_file_name p name ≠ p.
Proof.
  unfold with_file_name, parent_or_empty, path_parent, path_file_name. intros Hne Heq. apply Hne.
  rewrite <- Heq. apply last_snoc.
Qed.

Lemma str_app_ne s t : (s +:+ t)%string = t → s = ""%string.
Proof.
  intros Heq%(f_equal str_bytes). rewrite str_bytes_app in Heq. apply (f_equal length) in Heq as Hl.
  rewrite length_app in Hl. apply str_bytes_inj. destruct (str_bytes s); [done|simpl in Hl; lia].
Qed.

Lemma default_output_path_ne input : default_output_path input ≠ input.
Proof.
  apply with_file_name_ne. unfold file_name. destruct (path_file_name input) as [name|]; cbn [default from_option]; [|done].
  intros [= Heq]. symmetry in Heq. by apply str_app_ne in Heq.
Qed.

Section local.
Context `{Blake3Laws, X25519Laws, AeadLaws}.
Context (getenv : string → option string) (resolve : string → path) (hex_encode : bytes → string).
Context (args : list string) (w : World).

(** The file named on the command line can be read, and its copy written. *)
Definition local_ready (name : string) (content : bytes) : Prop :=
  args !! 1%nat = Some name ∧ file_at (w_fs w) (resolve name) = Some content ∧ zlen content ≤ u32_max
  ∧ can_create (w_fs w) (default_output_path (resolve name)).

(** What a failing run may have done, and why it failed. *)
Definition local_failed (e : ExampleError) (w' : World) : Prop :=
  (∀ message, e ≠ Ensure message)
  ∧ (∀ q, default_output_path ∘ resolve <$> args !! 1%nat ≠ Some q → file_at (w_fs w') q = file_at (w_fs w) q)
  ∧ (no_faults w → contributory → ∀ name content, ¬ local_ready name content).

Lemma local_failed_stepped e w' :
  stepped w w' → (∀ message, e ≠ Ensure message) →
  (no_faults w → contributory → ∀ name content, ¬ local_ready name content) → local_failed e w'.
Proof. intros Hst He Hn. split_and!; [done| |done]. intros q _. by rewrite (stepped_fs _ _ Hst). Qed.

Lemma wp_local_roundtrip out :
  wp (local_roundtrip getenv resolve hex_encode args)
    (λ _ s', ∃ name content out', args !! 1%nat = Some name ∧ file_at (w_fs w) (resolve name) = Some content
       ∧ fs_step w (<[default_output_path (resolve name) := File content]> (w_fs w)) s'.1
       ∧ s'.2 = out' ++ result_lines "local_roundtrip" "ok")
    (λ e s', local_failed e s'.1) (w, out).
Proof using All.
  unfold local_roundtrip. wp_simpl. destruct (args !! 1%nat) as [name|] eqn:Hargs; cbn [ok_or].
  2: { apply local_failed_stepped; [done..|]. intros _ _ name content (Hn & _). congruence. }
  ex_simpl. apply wp_hash_file.
  { intros k w1 Hst Hk. apply local_failed_stepped; [done..|]. intros ? _ name' content (Hn & Hf & _).
    destruct Hk; [done|]. congruence. }
  intros content w1 Hf Hst1. ex_simpl. apply wp_keypair_generate. intros seeder w2 Hs Hst2. ex_simpl.
  apply wp_keypair_generate. intros peer w3 Hp Hst3. assert (stepped w w3) as Hst03 by (do 2 (etrans; [done|]); done).
  ex_simpl. destruct (diffie_hellman_cases seeder peer Hs Hp) as [(shared & Ha & Hb)|Ha]; rewrite Ha; cbn [result_map_err].
  2: { apply local_failed_stepped; [done..|]. intros _ Hc. by destruct (Hc _ _ Hs Hp). }
  rewrite Hb. cbn [result_map_err]. ex_simpl. apply wp_ensure; [by apply bool_decide_eq_true|]. ex_simpl.
  apply wp_verify_psk_proofs. ex_simpl. apply wp_generate_file_key. intros key w4 Hst4. ex_simpl.
  apply wp_wrap_file_key. intros wrapped w5 Hu Hst5. ex_simpl. rewrite Hu. cbn [result_map_err]. ex_simpl.
  apply wp_ensure; [by apply bool_decide_eq_true|]. ex_simpl.
  assert (stepped w w5) as Hst05 by (do 2 (etrans; [done|]); done).
  wp_use (wp_encrypt_file (resolve name) key DEFAULT_CHUNK_SIZE w5); [done| |]; rewrite (stepped_fs _ _ Hst05).
  2: { intros e w6 [Hst6 He]. assert (stepped w w6) as Hst06 by (by etrans).
    apply local_failed_stepped; [done|by intros ? [=]|]. intros Hnf _ name' content' (Hn & Hf' & Hmax & _).
    setoid_rewrite <- (stepped_no_faults _ _ Hst05) in He. assert (name' = name) as -> by congruence.
    destruct He as [(k & _ & [?|?])|[(_ & c & ? & ?)|(_ & Hbig)]]; [done|congruence| |by vm_compute in Hbig].
    simplify_eq. lia. }
  intros encrypted w6 (Hst6 & c & Hc & Henc). simplify_eq. ex_simpl. assert (stepped w w6) as Hst06 by (by etrans).
  unfold decrypt_to_file. wp_simpl. rewrite (decrypt_encrypted _ _ _ _ _ Henc). wp_simpl.
  apply wp_fs_write; rewrite (stepped_fs _ _ Hst06).
  { intros k m w7 Hst7 Hm Hcc. split_and!; [done| |].
    - intros q Hq. cbn [fst]. rewrite (fs_step_fs _ _ _ Hst7). destruct Hm as [->|[n ->]]; [done|].
      apply file_at_insert_ne. rewrite Hargs in Hq. cbn in Hq. congruence.
    - intros Hnf _ name' content' (Hn & _ & _ & Hcan). simplify_eq. apply Hcc; [|done].
      by apply (stepped_no_faults _ _ Hst06). }
  intros w7 _ Hst7. ex_simpl. assert (fs_step w (<[default_output_path (resolve name) := File content]> (w_fs w)) w7) as Hst07 by fs_chain.
  apply wp_hash_file; rewrite (fs_step_fs _ _ _ Hst07).
  { intros k w8 Hst8 Hk. rewrite file_at_insert_eq in Hk. split_and!; [done| |].
    - intros q Hq. cbn [fst]. rewrite (stepped_fs _ _ Hst8), (fs_step_fs _ _ _ Hst07).
      apply file_at_insert_ne. rewrite Hargs in Hq. cbn in Hq. congruence.
    - intros Hnf. apply (fs_step_no_faults _ _ _ Hst07) in Hnf. by destruct Hk. }
  intros copy w8 Hcopy Hst8. rewrite file_at_insert_eq in Hcopy. simplify_eq. ex_simpl.
  apply wp_ensure; [by apply bool_decide_eq_true|]. apply wp_print_result.
  eexists name, copy, _. split_and!; [done|done|fs_chain|done].
Qed.
End local.

(** ** [debug_roundtrip] *)

(** The file system once the workspace has been prepared. *)
Definition prepared (m : fs) (workspace : path) : fs :=
  let m1 := mkdirs m (ancestors workspace) in
  if bool_decide (is_Some (m1 !! debug_chunks_dir workspace)) then remove_below m1 (debug_chunks_dir workspace) else m1.

Lemma prefix_snoc_cases {A} (q p : list A) x : q `prefix_of` p ++ [x] → q `prefix_of` p ∨ q = p ++ [x].
Proof.
  intros [k Hk]. destruct k as [|y k _] using rev_ind; [right; by rewrite app_nil_r in Hk|left].
  rewrite app_assoc in Hk. apply app_inj_tail in Hk as [-> _]. by apply prefix_app_r.
Qed.

Lemma chunks_dir_not_ancestor root : debug_chunks_dir root ∉ ancestors root.
Proof.
  intros [_ [k Hk]]%elem_of_ancestors. apply (f_equal length) in Hk. revert Hk.
  unfold debug_chunks_dir. rewrite !length_app. simpl. lia.
Qed.

Lemma below_chunks_dir root : root `prefix_of` debug_chunks_dir root.
Proof. by apply prefix_app_r. Qed.

Lemma only_below_removed root m m' p :
  root `prefix_of` p → (∀ q, ¬ p `prefix_of` q → m' !! q = m !! q) → only_below root m m'.
Proof. intros Hp Hm q Hq. unfold file_at. rewrite Hm; [done|]. intros Hpq. apply Hq. by etrans. Qed.

(** What [workspace] must look like for the preparation to succeed and to leave a
    workspace that can be written. *)
Definition workspace_clear (m : fs) (workspace : path) : Prop :=
  dirs_free m workspace ∧ file_at m (debug_chunks_dir workspace) = None
  ∧ m !! debug_manifest_path workspace ≠ Some Dir
  ∧ (m !! debug_chunks_dir workspace = None → chunks_free m workspace).

Lemma wp_prepare_workspace workspace w :
  wp (prepare_workspace workspace)
    (λ _ w', fs_step w (prepared (w_fs w) workspace) w' ∧ dirs_free (w_fs w) workspace)
    (λ _ w', ∃ m', fs_step w m' w' ∧ only_below workspace (w_fs w) m' ∧ (no_faults w → ¬ workspace_clear (w_fs w) workspace)) w.
Proof.
  unfold prepare_workspace. wp_simpl. apply wp_create_dir_all.
  { intros k ps w1 Hst _ Hps Hn. eexists. split_and!; [done|by apply only_below_mkdirs|]. intros Hnf [? _]. by apply Hn. }
  intros w1 Hfree Hst1. cbv zeta. wp_simpl. unfold path_exists, prepared. rewrite (fs_step_fs _ _ _ Hst1).
  set (m1 := mkdirs (w_fs w) (ancestors workspace)) in *.
  assert (bool_decide (debug_chunks_dir workspace = [] ∨ is_Some (m1 !! debug_chunks_dir workspace))
          = bool_decide (is_Some (m1 !! debug_chunks_dir workspace))) as ->.
  { apply bool_decide_ext. split; [intros [Hn|?]; [by destruct workspace|done]|by right]. }
  case_bool_decide as Hex; [|by wp_simpl].
  apply wp_remove_dir_all; rewrite (fs_step_fs _ _ _ Hst1).
  - intros k m w2 Hst2 Hm Hn. exists m. split_and!; [fs_chain| |].
    + etrans; [apply only_below_mkdirs, Hfree|]. by eapply only_below_removed; [apply below_chunks_dir|].
    + intros Hnf (_ & Hf & _). destruct Hn; [by apply (fs_step_no_faults _ _ _ Hst1)|].
      unfold m1 in *. rewrite lookup_mkdirs, decide_False in Hex |- * by apply chunks_dir_not_ancestor.
      unfold file_at in Hf. destruct Hex as [[] Hx]; by rewrite Hx in *.
  - intros w2 Hst2. split; [fs_chain|done].
Qed.

Section prepared.
Context (m : fs) (workspace : path) (Hfree : dirs_free m workspace).

Lemma prepared_only_below : only_below workspace m (prepared m workspace).
Proof using Hfree.
  unfold prepared. etrans; [apply only_below_mkdirs, Hfree|]. case_bool_decide; [|done].
  eapply only_below_removed; [apply below_chunks_dir|]. intros q Hq. by rewrite lookup_remove_below, decide_False.
Qed.

(** What is still there was there before. *)
Lemma lookup_prepared q n :
  prepared m workspace !! q = Some n → m !! q = Some n ∨ (n = Dir ∧ q ∈ ancestors workspace).
Proof using.
  unfold prepared. case_bool_decide; rewrite ?lookup_remove_below; [case_decide; [done|]|]; rewrite lookup_mkdirs;
    case_decide; naive_solver.
Qed.

Lemma file_at_prepared q d : file_at (prepared m workspace) q = Some d → file_at m q = Some d.
Proof using.
  unfold file_at. destruct (prepared m workspace !! q) as [[d'|]|] eqn:Hq; [|done..].
  apply lookup_prepared in Hq as [->|[? _]]; done.
Qed.

Lemma file_at_prepared_keep q d :
  file_at m q = Some d → ¬ debug_chunks_dir workspace `prefix_of` q → file_at (prepared m workspace) q = Some d.
Proof using Hfree.
  intros Hq Hp. rewrite <- Hq. rewrite <- (file_at_mkdirs m (ancestors workspace) q) by apply Hfree.
  unfold prepared, file_at. case_bool_decide; [|done]. by rewrite lookup_remove_below, decide_False.
Qed.

Lemma is_dir_in_prepared : is_dir_in (prepared m workspace) workspace = true.
Proof using.
  apply bool_decide_eq_true. destruct (decide (workspace = [])) as [|Hne]; [by left|right].
  assert (mkdirs m (ancestors workspace) !! workspace = Some Dir) as Hd.
  { rewrite lookup_mkdirs, decide_True; [done|]. by apply elem_of_ancestors. }
  unfold prepared. case_bool_decide; [|done]. rewrite lookup_remove_below, decide_False; [done|].
  intros [k Hk]. apply (f_equal length) in Hk. revert Hk. unfold debug_chunks_dir. rewrite !length_app. simpl. lia.
Qed.

Lemma prepared_workspace_free : workspace_clear m workspace → workspace_free (prepared m workspace) workspace.
Proof using.
  intros (Hdirs & Hf & Hman & Hcf).
  assert (∀ q, file_at m q = None → file_at (prepared m workspace) q = None) as Hkeep.
  { intros q Hq. destruct (file_at (prepared m workspace) q) as [d|] eqn:Hd; [|done].
    apply file_at_prepared in Hd. congruence. }
  split_and!.
  - split; [by apply Hkeep|]. apply Forall_forall. intros q [Hq Hpre]%elem_of_ancestors. apply Hkeep.
    unfold debug_chunks_dir in Hpre. apply prefix_snoc_cases in Hpre as [Hpre| ->]; [|done].
    destruct Hdirs as [_ Hall]. rewrite Forall_forall in Hall. apply Hall. by apply elem_of_ancestors.
  - intros [?|[_ Hin]]%lookup_prepared; [done|]. apply elem_of_ancestors in Hin as [_ [k Hk]].
    apply (f_equal length) in Hk. revert Hk. unfold debug_manifest_path. rewrite !length_app. simpl. lia.
  - intros i Hd. pose proof (lookup_prepared _ _ Hd) as [Hm|[_ Hin]].
    + unfold prepared in Hd. case_bool_decide as Hex.
      * rewrite lookup_remove_below, decide_True in Hd; [done|]. by apply prefix_app_r.
      * apply (Hcf) in Hm; [done|]. apply eq_None_not_Some. intros Hs. apply Hex.
        rewrite lookup_mkdirs. by case_decide.
    + apply elem_of_ancestors in Hin as [_ [k Hk]]. apply (f_equal length) in Hk. revert Hk.
      unfold debug_chunk_path, debug_chunks_dir. rewrite !length_app. simpl. lia.
Qed.
End prepared.

Lemma wp_write_unencodable `{Bincode Manifest} enc root w :
  Manifest_to_bytes (ef_manifest enc) = None →
  wp (write_debug_workspace enc root) (λ _ _, False)
    (λ _ w', ∃ m', fs_step w m' w' ∧ only_below root (w_fs w) m') w.
Proof.
  intros Hnone. unfold write_debug_workspace. wp_simpl. apply wp_create_dir_all.
  { intros k ps w1 Hst _ Hps _. eexists. split; [done|by apply only_below_mkdirs]. }
  intros w1 [_ Hfree] Hst1. wp_simpl. rewrite Hnone. wp_simpl. eexists. split; [done|by apply only_below_mkdirs].
Qed.

Lemma wp_print_plain_chunks chunks (Q : unit → World * list string → Prop) R w out :
  (∀ out', Q tt (w, out')) → wp (mfold print_plain_chunk tt chunks) Q R (w, out).
Proof.
  intros HQ. eapply wp_mono; [apply (wp_mfold _ (λ _ _ s, s.1 = w))|..]; [done| |intros [] [w' out'] Hw; cbn in Hw; subst; apply HQ|done].
  intros _ chunk rest [] [w' out'] _ Hw. by apply wp_print_kv.
Qed.

Section debug_blocks.
Context `{Blake3Laws, X25519Laws, AeadLaws} `{BincodeLaws Manifest}.
Context (resolve : string → path) (args : list string) (w : World).

Definition debug_workspace (name : string) : path :=
  default (default_workspace_path (resolve name)) (resolve <$> args !! 2%nat).

Definition encodable : Prop := ∀ manifest, is_Some (Manifest_to_bytes manifest).

(** The file can be read and is not inside the directory that is deleted, and the
    workspace can be written. *)
Definition debug_ready (name : string) (content : bytes) : Prop :=
  args !! 1%nat = Some name ∧ file_at (w_fs w) (resolve name) = Some content ∧ zlen content ≤ u32_max
  ∧ workspace_clear (w_fs w) (debug_workspace name)
  ∧ ¬ debug_chunks_dir (debug_workspace name) `prefix_of` resolve name
  ∧ w_fs w !! reconstructed_path (debug_workspace name) (resolve name) ≠ Some Dir.

(** What a failing run may have done, and why it failed. *)
Definition debug_failed (e : ExampleError) (w' : World) : Prop :=
  (∀ message, e ≠ Ensure message)
  ∧ match args !! 1%nat with
    | Some name => only_below (debug_workspace name) (w_fs w) (w_fs w')
    | None => w_fs w' = w_fs w
    end
  ∧ (no_faults w → contributory → encodable → ∀ name content, ¬ debug_ready name content).

Lemma debug_failed_step name m e w' :
  args !! 1%nat = Some name → fs_step w m w' → only_below (debug_workspace name) (w_fs w) m →
  (∀ message, e ≠ Ensure message) →
  (no_faults w → contributory → encodable → ∀ content, ¬ debug_ready name content) → debug_failed e w'.
Proof.
  intros Hargs Hst Ho He Hn. split_and!; [done|rewrite Hargs; by rewrite (fs_step_fs _ _ _ Hst)|].
  intros Hnf Hc Hm name' content Hready. assert (name' = name) as -> by (destruct Hready; congruence).
  by apply (Hn Hnf Hc Hm content).
Qed.

Lemma reconstructed_below workspace input : workspace `prefix_of` reconstructed_path workspace input.
Proof. by apply prefix_app_r. Qed.

Lemma reconstructed_not_ancestor workspace input :
  reconstructed_path workspace input ∉ ancestors (debug_chunks_dir workspace).
Proof.
  intros [_ Hpre]%elem_of_ancestors. unfold debug_chunks_dir, reconstructed_path in Hpre.
  apply prefix_app_inv, prefix_cons_inv_1 in Hpre. discriminate Hpre.
Qed.

(** The workspace of the command line and the input, in the blocks of the program. *)
Context (name : string) (Hargs : args !! 1%nat = Some name).
#[local] Abbreviation input := (resolve name).
#[local] Abbreviation ws := (debug_workspace name).

(** A block failed after the workspace was prepared ([m]) and written ([m']). *)
Lemma debug_failed_after m e w1 w' :
  fs_step w m w1 → only_below ws (w_fs w) m → (∃ m', fs_step w1 m' w' ∧ only_below ws m m') →
  (∀ message, e ≠ Ensure message) →
  (no_faults w1 → contributory → encodable → ∀ content, ¬ debug_ready name content) → debug_failed e w'.
Proof using Hargs.
  intros Hst Ho (m' & Hst' & Ho') He Hn. eapply (debug_failed_step name m'); [done|fs_chain|by etrans|done|].
  intros Hnf. apply Hn. by apply (fs_step_no_faults _ _ _ Hst).
Qed.

Definition at_input (w1 : World) (content : bytes) : Prop :=
  fs_step w (prepared (w_fs w) ws) w1 ∧ dirs_free (w_fs w) ws ∧ file_at (prepared (w_fs w) ws) input = Some content.

Lemma debug_failed_at_input w1 content e w' :
  at_input w1 content → stepped w1 w' → (∀ message, e ≠ Ensure message) →
  (no_faults w1 → contributory → encodable → ∀ content, ¬ debug_ready name content) → debug_failed e w'.
Proof using Hargs.
  intros (Hst & Hfree & _) Hst'. eapply debug_failed_after; [done|by apply prepared_only_below|].
  exists (prepared (w_fs w) ws). split; [|done]. rewrite <- (fs_step_fs _ _ _ Hst). by apply stepped_fs_step.
Qed.

Lemma debug_ready_content w1 content content' : at_input w1 content → debug_ready name content' → content' = content.
Proof using.
  intros (_ & Hfree & Hf) (_ & Hf' & _ & _ & Hnot & _).
  apply (file_at_prepared_keep _ _ Hfree) in Hf'; [|done]. congruence.
Qed.

Lemma wp_debug_prepare out :
  wp (debug_prepare input ws)
    (λ id s', ∃ content, id = hash_file_id content ∧ at_input s'.1 content)
    (λ e s', debug_failed e s'.1) (w, out).
Proof using All.
  unfold debug_prepare. ex_simpl. wp_use wp_prepare_workspace.
  2: { intros k w1 (m & Hst & Ho & Hn). eapply debug_failed_step; [done..|]. intros Hnf _ _ content (_ & _ & _ & Hclear & _).
    by apply Hn. }
  intros [] w1 [Hst1 Hfree]. assert (∀ content, debug_ready name content → file_at (w_fs w1) input = Some content) as Hkept.
  { intros content (_ & Hf & _ & _ & Hnot & _). rewrite (fs_step_fs _ _ _ Hst1). by apply file_at_prepared_keep. }
  assert (∀ w2 e, stepped w1 w2 → (∀ message, e ≠ Ensure message) →
    (no_faults w1 → contributory → encodable → ∀ content, ¬ debug_ready name content) → debug_failed e w2) as Hquiet.
  { intros w2 e Hst2. eapply debug_failed_after; [done|by apply prepared_only_below|].
    exists (prepared (w_fs w) ws). split; [|done]. rewrite <- (fs_step_fs _ _ _ Hst1). by apply stepped_fs_step. }
  ex_simpl. apply wp_hash_file.
  { intros k w2 Hst2 Hk. apply Hquiet; [done..|]. intros Hnf _ _ content Hr%Hkept. destruct Hk; [done|congruence]. }
  intros content w2 Hf Hst2. ex_simpl. apply wp_metadata; rewrite (stepped_fs _ _ Hst2).
  { intros k w3 Hst3 Hk. apply Hquiet; [by etrans|done|]. intros Hnf _ _ content' Hr%Hkept.
    rewrite <- (stepped_no_faults _ _ Hst2) in Hk. destruct Hk as [?|[Hk _]]; [done|]. unfold file_at in Hf. by rewrite Hk in Hf. }
  intros meta w3 _ Hst3. assert (stepped w1 w3) as Hst13 by (by etrans). ex_simpl.
  wp_use (wp_read_file_chunks input DEFAULT_CHUNK_SIZE w3); [done| |]; rewrite (stepped_fs _ _ Hst13).
  2: { intros e w4 [Hst4 He]. setoid_rewrite <- (stepped_no_faults _ _ Hst13) in He. apply Hquiet; [by etrans| |].
    - destruct He as [(k & -> & _)|[-> _]]; by intros ? [=].
    - intros Hnf _ _ content' Hr. pose proof (Hkept _ Hr) as Hf'. destruct Hr as (_ & _ & Hmax & _).
      destruct He as [(k & _ & [?|?])|(_ & c & ? & ?)]; [done|congruence|]. assert (c = content') as -> by congruence. lia. }
  intros chunks w4 (_ & _ & _ & Hst4). ex_simpl. apply wp_print_plain_chunks. intros out1.
  assert (∀ n (Q : unit → World * list string → Prop) R w' o, (∀ o', Q tt (w', o')) →
    wp (if decide (n > 5) then print_kv "remaining_chunks" (dec (n - 5)) else ret tt) Q R (w', o)) as Hmore.
  { intros. case_decide; [by apply wp_print_kv|]. by wp_simpl. }
  ex_simpl. apply Hmore. intros out2. ex_simpl. exists content. split; [done|]. cbn [fst].
  rewrite (fs_step_fs _ _ _ Hst1) in Hf. split_and!; [|done|done]. eapply fs_step_stepped_r; [done|by etrans].
Qed.

Lemma wp_debug_session getenv content w1 out :
  at_input w1 content →
  wp (debug_session getenv) (λ keys s', keys.1 = keys.2 ∧ at_input s'.1 content) (λ e s', debug_failed e s'.1) (w1, out).
Proof using All.
  intros Hin. unfold debug_session. ex_simpl. apply wp_keypair_generate. intros seeder w2 Hs Hst2. ex_simpl.
  apply wp_keypair_generate. intros peer w3 Hp Hst3. assert (stepped w1 w3) as Hst13 by (by etrans).
  ex_simpl. destruct (diffie_hellman_cases seeder peer Hs Hp) as [(shared & Ha & Hb)|Ha]; rewrite Ha; cbn [result_map_err].
  2: { eapply debug_failed_at_input; [done..|]. intros _ Hc. by destruct (Hc _ _ Hs Hp). }
  rewrite Hb. cbn [result_map_err]. ex_simpl. apply wp_ensure; [by apply bool_decide_eq_true|]. ex_simpl.
  apply wp_ensure; [apply same_tag|]. ex_simpl. split; [done|]. destruct Hin as (? & ? & ?). split_and!; [|done..]. fs_chain.
Qed.

(** The encrypted file and the key after step 4, and the workspace that holds it. *)
Definition sealed_at (content : bytes) (sealed : EncryptedFile * SymmetricKey) (w2 : World) : Prop :=
  ∃ m mb, fs_step w m w2 ∧ grown ws (prepared (w_fs w) ws) m ∧ dirs_free (w_fs w) ws
    ∧ encrypted_as sealed.2 (file_name input) DEFAULT_CHUNK_SIZE content sealed.1
    ∧ Manifest_to_bytes (ef_manifest sealed.1) = Some mb
    ∧ workspace_holds sealed.1 ws mb (mf_chunks (ef_manifest sealed.1)) m.

Lemma wp_debug_seal content session w1 out :
  at_input w1 content →
  wp (debug_seal input ws (hash_file_id content) session session) (λ sealed s', sealed_at content sealed s'.1)
    (λ e s', debug_failed e s'.1) (w1, out).
Proof using All.
  intros Hin. pose proof Hin as (Hst1 & Hfree & Hf). rewrite <- (fs_step_fs _ _ _ Hst1) in Hf.
  unfold debug_seal. ex_simpl. apply wp_generate_file_key. intros key w2 Hst2. ex_simpl.
  apply wp_wrap_file_key. intros wrapped w3 Hu Hst3. ex_simpl. rewrite Hu. cbn [result_map_err]. ex_simpl.
  apply wp_ensure; [by apply bool_decide_eq_true|]. ex_simpl. assert (stepped w1 w3) as Hst13 by (by etrans).
  wp_use (wp_encrypt_file input key DEFAULT_CHUNK_SIZE w3); [done| |]; rewrite (stepped_fs _ _ Hst13).
  2: { intros e w4 [Hst4 He]. setoid_rewrite <- (stepped_no_faults _ _ Hst13) in He.
    eapply debug_failed_at_input; [done|by etrans|by intros ? [=]|]. intros Hnf _ _ content' Hr.
    pose proof (debug_ready_content _ _ _ Hin Hr) as ->. destruct Hr as (_ & _ & Hmax & _).
    destruct He as [(k & _ & [?|?])|[(_ & c & ? & ?)|(_ & Hbig)]]; [done|congruence| |by vm_compute in Hbig].
    assert (c = content) as -> by congruence. lia. }
  intros enc w4 (Hst4 & c & Hc & Henc). assert (c = content) as -> by congruence. ex_simpl.
  assert (stepped w1 w4) as Hst14 by (by etrans). pose proof (encrypted_as_wf _ _ _ _ _ Henc) as Hwf.
  assert (∀ w' e m, fs_step w4 m w' → only_below ws (prepared (w_fs w) ws) m → (∀ message, e ≠ Ensure message) →
    (no_faults w4 → encodable → ∀ content, ¬ debug_ready name content) → debug_failed e w') as Hloud.
  { intros w' e m Hst' Ho He Hn. eapply debug_failed_after; [exact Hst1|by apply prepared_only_below| |done|].
    - exists m. split; [fs_chain|done].
    - intros Hnf _. apply Hn. by apply (stepped_no_faults _ _ Hst14). }
  assert (w_fs w4 = prepared (w_fs w) ws) as Hfs4 by (rewrite (stepped_fs _ _ Hst14); by eapply fs_step_fs).
  destruct (Manifest_to_bytes (ef_manifest enc)) as [mb|] eqn:Hmb.
  2: { wp_use wp_write_unencodable; [done|by intros|]. intros e w5 (m & Hst5 & Ho). rewrite Hfs4 in Ho.
    eapply Hloud; [done..|by intros ? [=]|]. intros _ Hm. destruct (Hm (ef_manifest enc)) as [? ?]. congruence. }
  wp_use (wp_write_debug_workspace enc ws mb Hwf Hmb w4); rewrite Hfs4.
  2: { intros e w5 (m & Hst5 & Ho & Hn). eapply Hloud; [done..|by intros ? [=]|].
    intros Hnf _ content' (_ & _ & _ & Hclear & _). apply Hn; [done|]. by apply prepared_workspace_free. }
  intros [] w5 (m & Hst5 & Hholds & Hg). ex_simpl.
  eapply wp_mono with (Q := λ _ s', s'.1 = w5); [|intros [] [w6 out6] Hw6; cbn in Hw6; subst w6; wp_simpl|intros e s He; exact He].
  - case_match; ex_simpl; done.
  - exists m, mb. split_and!; [|done..]. eapply fs_step_trans; [|done]. fs_chain.
Qed.

Lemma wp_debug_restore content sealed w1 out :
  sealed_at content sealed w1 →
  wp (debug_restore input ws (hash_file_id content) sealed.1 sealed.2)
    (λ _ s', file_at (w_fs s'.1) (reconstructed_path ws input) = Some content ∧ only_below ws (w_fs w) (w_fs s'.1)
       ∧ ∃ out', s'.2 = out' ++ result_lines "debug_roundtrip" "ok")
    (λ e s', debug_failed e s'.1) (w1, out).
Proof using All.
  destruct sealed as [enc key]. intros (m & mb & Hst1 & Hg & Hfree & Henc & Hmb & Hholds). cbn [fst snd] in *.
  pose proof (encrypted_as_wf _ _ _ _ _ Henc) as Hwf. rewrite <- (fs_step_fs _ _ _ Hst1) in Hholds.
  assert (only_below ws (w_fs w) m) as Ho by (etrans; [by apply prepared_only_below|apply Hg]).
  assert (∀ w' e m', fs_step w1 m' w' → only_below ws m m' → (∀ message, e ≠ Ensure message) →
    (no_faults w1 → ∀ content, ¬ debug_ready name content) → debug_failed e w') as Hloud.
  { intros w' e m' Hst' Ho' He Hn. eapply debug_failed_after; [done|done|by exists m'|done|]. intros Hnf _ _. by apply Hn. }
  unfold debug_restore. ex_simpl. wp_use (wp_read_debug_workspace enc ws mb Hwf Hmb w1 Hholds).
  2: { intros e w2 [Hst2 Hnf]. apply (Hloud _ _ (w_fs w1)); [by apply stepped_fs_step|by rewrite (fs_step_fs _ _ _ Hst1)|by intros ? [=]|done]. }
  intros ? w2 [Hst2 ->]. ex_simpl. rewrite (decrypt_encrypted _ _ _ _ _ Henc). cbn [result_map_err]. ex_simpl.
  set (output := reconstructed_path ws input).
  apply wp_fs_write; rewrite (stepped_fs _ _ Hst2), (fs_step_fs _ _ _ Hst1).
  { intros k m' w3 Hst3 Hm Hcc. eapply (Hloud _ _ m'); [fs_chain| |done|].
    - by eapply only_below_partial, Hm; apply reconstructed_below.
    - intros Hnf content' (_ & _ & _ & _ & _ & Hout). apply Hcc; [by apply (stepped_no_faults _ _ Hst2)|].
      apply can_create_snoc; [|apply Hg, is_dir_in_prepared].
      intros [Hd|Hin]%Hg; [|by apply reconstructed_not_ancestor in Hin].
      apply lookup_prepared in Hd as [?|[_ Hin]]; [done|]. apply elem_of_ancestors in Hin as [_ [j Hj]].
      apply (f_equal length) in Hj. revert Hj. rewrite !length_app. simpl. lia. }
  intros w3 _ Hst3. assert (fs_step w1 (<[output := File content]> m) w3) as Hst13 by fs_chain.
  assert (only_below ws m (<[output := File content]> m)) as Ho3 by apply only_below_insert, reconstructed_below.
  ex_simpl. apply wp_hash_file; rewrite (fs_step_fs _ _ _ Hst13), file_at_insert_eq.
  { intros k w4 Hst4 Hk. eapply Hloud; [fs_chain|done..|]. intros Hnf. apply (fs_step_no_faults _ _ _ Hst13) in Hnf. by destruct Hk. }
  intros copy w4 [= <-] Hst4. ex_simpl. apply wp_ensure; [by apply bool_decide_eq_true|]. apply wp_print_result.
  cbn [fst snd]. rewrite (stepped_fs _ _ Hst4), (fs_step_fs _ _ _ Hst13). split_and!; [apply file_at_insert_eq|by etrans|by eexists].
Qed.
End debug_blocks.

Lemma wp_debug_roundtrip `{Blake3Laws, X25519Laws, AeadLaws} `{BincodeLaws Manifest} getenv resolve args w out :
  wp (debug_roundtrip getenv resolve args)
    (λ _ s', ∃ name content out', args !! 1%nat = Some name ∧ file_at (w_fs w) (resolve name) = Some content
       ∧ file_at (w_fs s'.1) (reconstructed_path (debug_workspace resolve args name) (resolve name)) = Some content
       ∧ only_below (debug_workspace resolve args name) (w_fs w) (w_fs s'.1)
       ∧ s'.2 = out' ++ result_lines "debug_roundtrip" "ok")
    (λ e s', debug_failed resolve args w e s'.1) (w, out).
Proof.
  unfold debug_roundtrip. wp_simpl. destruct (args !! 1%nat) as [name|] eqn:Hargs; cbn [ok_or].
  2: { split_and!; [done|by rewrite Hargs|]. intros _ _ _ name content (Hn & _). congruence. }
  ex_simpl. wp_use (wp_debug_prepare resolve args w name Hargs); [|done].
  intros id [w1 out1] (content & -> & Hin1). ex_simpl. wp_use (wp_debug_session resolve args w name Hargs getenv content w1); [done| |done].
  intros [k1 k2] [w2 out2] [Heq Hin2]. cbn [fst snd] in Heq, Hin2 |- *. subst k2. ex_simpl.
  wp_use (wp_debug_seal resolve args w name Hargs content k1 w2); [done| |done].
  intros sealed [w3 out3] Hsealed. cbn [fst] in Hsealed. ex_simpl.
  wp_use (wp_debug_restore resolve args w name Hargs content sealed w3); [done| |done].
  intros [] [w4 out4] (Hout & Ho & before & ->). exists name, content, before. split_and!; [done| |done..].
  destruct Hin1 as (_ & _ & Hf). by apply file_at_prepared in Hf.
Qed.

(** * The theorems *)

(** C23: the example programs mean what they print. [local_roundtrip] and
    [debug_roundtrip] return for every command line, environment, machine and
    sequence of failures. When one ends without an error, its last lines are the
    result [ok], and the copy it made has exactly the content of the input file; a
    failure is never one of its own checks ([ensure!]). Whatever happens, the first
    touches no file but its output, and the second none outside its workspace. *)
Theorem examples_sound `{Blake3Laws, X25519Laws, AeadLaws} `{BincodeLaws Manifest} getenv resolve hex_encode args w out :
  match local_roundtrip getenv resolve hex_encode args (w, out) with
  | (Ok _, (w', out')) =>
      ∃ name content before, args !! 1%nat = Some name ∧ file_at (w_fs w) (resolve name) = Some content
        ∧ fs_step w (<[default_output_path (resolve name) := File content]> (w_fs w)) w'
        ∧ out' = before ++ result_lines "local_roundtrip" "ok"
  | (Err e, (w', _)) =>
      (∀ message, e ≠ Ensure message)
      ∧ ∀ q, default_output_path ∘ resolve <$> args !! 1%nat ≠ Some q → file_at (w_fs w') q = file_at (w_fs w) q
  | _ => False
  end
  ∧ match debug_roundtrip getenv resolve args (w, out) with
    | (Ok _, (w', out')) =>
        ∃ name content before, args !! 1%nat = Some name ∧ file_at (w_fs w) (resolve name) = Some content
          ∧ file_at (w_fs w') (reconstructed_path (debug_workspace resolve args name) (resolve name)) = Some content
          ∧ only_below (debug_workspace resolve args name) (w_fs w) (w_fs w')
          ∧ out' = before ++ result_lines "debug_roundtrip" "ok"
    | (Err e, (w', _)) =>
        (∀ message, e ≠ Ensure message)
        ∧ match args !! 1%nat with
          | Some name => only_below (debug_workspace resolve args name) (w_fs w) (w_fs w')
          | None => w_fs w' = w_fs w
          end
    | _ => False
    end.
Proof.
  split.
  - destruct (wp_run _ _ _ _ (wp_local_roundtrip getenv resolve hex_encode args w out))
      as [([] & [w' out'] & Hrun & Hok)|(e & [w' out'] & Hrun & He & Hq & _)]; rewrite Hrun; [exact Hok|done].
  - destruct (wp_run _ _ _ _ (wp_debug_roundtrip getenv resolve args w out))
      as [([] & [w' out'] & Hrun & Hok)|(e & [w' out'] & Hrun & He & Hq & _)]; rewrite Hrun; [exact Hok|done].
Qed.

(** C24: the example programs succeed. On a machine without faults, with an X25519
    that gives no all-zero secret to generated keys, [local_roundtrip] ends with [ok]
    when the named file has at most [u32::MAX] bytes and the output path can be
    written; so does [debug_roundtrip], for every manifest that can be encoded, when
    its workspace can be prepared, the input is not inside the chunk directory that
    the preparation deletes, and no directory has the name of the output. *)
Theorem examples_succeed `{Blake3Laws, X25519Laws, AeadLaws} `{BincodeLaws Manifest} getenv resolve hex_encode args w out
    name content :
  no_faults w → contributory →
  (local_ready resolve args w name content →
     ∃ w' out', local_roundtrip getenv resolve hex_encode args (w, out) = (Ok tt, (w', out'))
       ∧ file_at (w_fs w') (default_output_path (resolve name)) = Some content)
  ∧ (encodable → debug_ready resolve args w name content →
     ∃ w' out', debug_roundtrip getenv resolve args (w, out) = (Ok tt, (w', out'))
       ∧ file_at (w_fs w') (reconstructed_path (debug_workspace resolve args name) (resolve name)) = Some content).
Proof.
  intros Hnf Hc. split.
  - intros Hready. destruct (wp_run _ _ _ _ (wp_local_roundtrip getenv resolve hex_encode args w out))
      as [([] & [w' out'] & Hrun & name' & content' & _ & Hargs & Hf & Hst & _)|(e & s' & _ & _ & _ & Hn)]; [|by destruct (Hn Hnf Hc name content)].
    destruct Hready as (Hargs' & Hf' & _). assert (name' = name) as -> by congruence. assert (content' = content) as -> by congruence.
    exists w', out'. split; [done|]. cbn [fst] in Hst. rewrite (fs_step_fs _ _ _ Hst). apply file_at_insert_eq.
  - intros Henc Hready. destruct (wp_run _ _ _ _ (wp_debug_roundtrip getenv resolve args w out))
      as [([] & [w' out'] & Hrun & name' & content' & _ & Hargs & Hf & Hout & _)|(e & s' & _ & _ & _ & Hn)]; [|by destruct (Hn Hnf Hc Henc name content)].
    destruct Hready as (Hargs' & Hf' & _). assert (name' = name) as -> by congruence. assert (content' = content) as -> by congruence.
    by exists w', out'.
Qed.

(** * Witnesses *)
Import Toy Sample.
Module ExamplesSample.
(** Key agreement that always gives the same non-zero secret. *)
#[export] Instance agreeing_x25519 : X25519 := {|
  x_secret := array 32;
  x_secret_random s := s;
  x_public s := s;
  x_diffie_hellman _ _ := array_repeat 32 Byte.x01;
|}.
#[export] Instance agreeing_laws : X25519Laws.
Proof. by split. Qed.
Definition getenv (name : string) : option string := None.
Definition resolve (name : string) : path := [name].
Definition hex_encode (b : bytes) : string := of_bytes (write_hex b).
Definition args : list string := ["example"; "f"]%string.
Definition world : World := CryptoSample.world {[ ["f"%string] := File (str_bytes "hello") ]} [].

Lemma lookup_world p n : w_fs world !! p = Some n → p = ["f"%string] ∧ n = File (str_bytes "hello").
Proof. unfold world. cbn [w_fs CryptoSample.world]. by intros [<- <-]%lookup_singleton_Some. Qed.
Lemma world_contributory : contributory.
Proof. by intros a b _ _. Qed.
Lemma world_encodable : encodable.
Proof. intros manifest. by eexists. Qed.
Lemma world_debug_ready : debug_ready resolve args world "f" (str_bytes "hello").
Proof.
  split_and!; [done|done|by_decide| |by_decide|by_decide].
  split_and!; [by_decide|done|by_decide|].
  intros _ i [Hp _]%lookup_world. discriminate Hp.
Qed.
End ExamplesSample.
Import ExamplesSample.

Lemma examples_sound_witness :
  match debug_roundtrip ExamplesSample.getenv ExamplesSample.resolve ["example"%string] (ExamplesSample.world, []) with
  | (Err e, (w', _)) => (∀ message, e ≠ Ensure message) ∧ w_fs w' = w_fs ExamplesSample.world
  | _ => False
  end.
Proof.
  exact (proj2 (examples_sound ExamplesSample.getenv ExamplesSample.resolve ExamplesSample.hex_encode
    ["example"%string] ExamplesSample.world [])).
Defined.

Lemma examples_succeed_witness :
  (∃ w' out', local_roundtrip ExamplesSample.getenv ExamplesSample.resolve ExamplesSample.hex_encode ExamplesSample.args
       (ExamplesSample.world, []) = (Ok tt, (w', out'))
     ∧ file_at (w_fs w') ["reconstructed-f"%string] = Some (str_bytes "hello"))
  ∧ (∃ w' out', debug_roundtrip ExamplesSample.getenv ExamplesSample.resolve ExamplesSample.args
       (ExamplesSample.world, []) = (Ok tt, (w', out'))
     ∧ file_at (w_fs w') [".etle-work"; "f"; "reconstructed-f"]%string = Some (str_bytes "hello")).
Proof.
  destruct (examples_succeed ExamplesSample.getenv ExamplesSample.resolve ExamplesSample.hex_encode ExamplesSample.args
    ExamplesSample.world [] "f" (str_bytes "hello")) as [Hlocal Hdebug]; [by intros ?|apply ExamplesSample.world_contributory|].
  split; [apply Hlocal|apply Hdebug].
  - split_and!; [reflexivity|reflexivity|by_decide|split_and!; by_decide].
  - apply ExamplesSample.world_encodable.
  - apply ExamplesSample.world_debug_ready.
Defined.
