(* ===== verification/Build.v ===== *)
(** The build script ([src/build.rs]): the directives it prints for cargo, which put
    the version information of [build_info.rs] into the program.

    [getenv] is the environment ([env::var(..).ok()]), [run] runs a command: [None]
    when it cannot be started, otherwise whether it succeeded and its standard
    output; [unix_now] is the clock, [None] before 1970. Cargo is the class [Cargo]. Text
    is a list of [char]s. *)
From stdpp Require Import base tactics list countable strings gmap.
From Stdlib Require Import ZArith Lia.
From S2P Require Import Prelude Bytes World Text Descriptor Config Output Gui Cli.
Local Open Scope Z_scope.
Local Open Scope etle_scope.

(** * [String::from_utf8_lossy] *)

(** Which second bytes may follow a first byte of three and of four bytes. *)
Definition second_of_three (b0 b1 : Z) : Prop :=
  b0 = 0xe0 ∧ 0xa0 ≤ b1 < 0xc0 ∨ 0xe1 ≤ b0 < 0xed ∧ 0x80 ≤ b1 < 0xc0
  ∨ b0 = 0xed ∧ 0x80 ≤ b1 < 0xa0 ∨ 0xee ≤ b0 < 0xf0 ∧ 0x80 ≤ b1 < 0xc0.
Global Instance second_of_three_dec b0 b1 : Decision (second_of_three b0 b1).
Proof. unfold second_of_three. apply _. Defined.
Definition second_of_four (b0 b1 : Z) : Prop :=
  b0 = 0xf0 ∧ 0x90 ≤ b1 < 0xc0 ∨ 0xf1 ≤ b0 < 0xf4 ∧ 0x80 ≤ b1 < 0xc0 ∨ b0 = 0xf4 ∧ 0x80 ≤ b1 < 0x90.
Global Instance second_of_four_dec b0 b1 : Decision (second_of_four b0 b1).
Proof. unfold second_of_four. apply _. Defined.

(** Every maximal start of an encoding that goes wrong becomes one U+FFFD. *)
Definition REPLACEMENT : char := 0xfffd.
Fixpoint utf8_lossy (b : bytes) : text :=
  match b with
  | [] => []
  | b0 :: r0 =>
      if decide (byte_val b0 < 0x80) then byte_val b0 :: utf8_lossy r0
      else if decide (0xc2 ≤ byte_val b0 < 0xe0) then
        match r0 with
        | b1 :: r1 => if decide (continuation b1) then code2 b0 b1 :: utf8_lossy r1 else REPLACEMENT :: utf8_lossy r0
        | [] => [REPLACEMENT]
        end
      else if decide (0xe0 ≤ byte_val b0 < 0xf0) then
        match r0 with
        | b1 :: r1 =>
            if decide (second_of_three (byte_val b0) (byte_val b1)) then
              match r1 with
              | b2 :: r2 => if decide (continuation b2) then code3 b0 b1 b2 :: utf8_lossy r2 else REPLACEMENT :: utf8_lossy r1
              | [] => [REPLACEMENT]
              end
            else REPLACEMENT :: utf8_lossy r0
        | [] => [REPLACEMENT]
        end
      else if decide (0xf0 ≤ byte_val b0 < 0xf5) then
        match r0 with
        | b1 :: r1 =>
            if decide (second_of_four (byte_val b0) (byte_val b1)) then
              match r1 with
              | b2 :: r2 =>
                  if decide (continuation b2) then
                    match r2 with
                    | b3 :: r3 => if decide (continuation b3) then code4 b0 b1 b2 b3 :: utf8_lossy r3 else REPLACEMENT :: utf8_lossy r2
                    | [] => [REPLACEMENT]
                    end
                  else REPLACEMENT :: utf8_lossy r1
              | [] => [REPLACEMENT]
              end
            else REPLACEMENT :: utf8_lossy r0
        | [] => [REPLACEMENT]
        end
      else REPLACEMENT :: utf8_lossy r0
  end.

(** * Cargo *)

(** A line [cargo:rustc-env=NAME=value] sets a variable. *)
Definition strip_prefix_text (p t : text) : option text :=
  if decide (take (length p) t = p) then Some (drop (length p) t) else None.
Definition cargo_env (line : text) : option (text * text) :=
  strip_prefix_text (txt "cargo:rustc-env=") line ≫= split_once 61.

(** What cargo makes of the output of the script, as it documents it: line by line. *)
Class Cargo := { cargo_reads : text → list (text * text) }.
Class CargoLaws `{Cargo} : Prop := {
  cargo_reads_lines output : cargo_reads output = omap cargo_env (lines output);
}.

(** * The script *)
Section script.
Context (getenv : string → option text) (run : string → list string → option (bool * bytes)) (unix_now : option Z).

Definition or_else {A} (o o' : option A) : option A := match o with Some a => Some a | None => o' end.
Definition non_empty (t : text) : option text := if decide (t = []) then None else Some t.

Definition env_value (name : string) : option text := getenv name ≫= λ value, non_empty (trim value).

Definition github_tag : option text :=
  if decide (getenv "GITHUB_REF_TYPE" = Some (txt "tag")) then env_value "GITHUB_REF_NAME" else None.

Definition command_one_line (program : string) (args : list string) : option text :=
  match run program args with
  | Some (true, stdout) => non_empty (trim (utf8_lossy stdout))
  | _ => None
  end.
Definition git (args : list string) : option text := command_one_line "git" args.

Definition git_dirty_state : text :=
  match run "git" ["status"; "--porcelain"]%string with
  | Some (true, stdout) => if decide (stdout = []) then txt "clean" else txt "dirty"
  | _ => txt "unknown"
  end.

Definition one_line (value : text) : text := (λ c, if decide (c = 13 ∨ c = 10) then 32 else c) <$> value.

Definition unix_now_string : text := txt "unix:" ++ dec_text (default 0 unix_now).

Definition emit (name : string) (value : text) : text :=
  txt "cargo:rustc-env=" ++ txt name ++ txt "=" ++ one_line value.

(** The variables, in the order of the calls of [emit]. *)
Definition unknown (o : option text) : text := default (txt "unknown") o.
Definition build_vars : list (string * text) :=
  [("ETLE_GIT_COMMIT", unknown (git ["rev-parse"; "HEAD"]));
   ("ETLE_GIT_BRANCH", unknown (or_else (env_value "GITHUB_REF_NAME") (git ["branch"; "--show-current"])));
   ("ETLE_GIT_TAG", unknown (or_else (or_else (env_value "ETLE_RELEASE_TAG") github_tag)
                              (git ["describe"; "--tags"; "--exact-match"; "HEAD"])));
   ("ETLE_GIT_COMMIT_COUNT", unknown (git ["rev-list"; "--count"; "HEAD"]));
   ("ETLE_GIT_COMMIT_MESSAGE", unknown (git ["log"; "-1"; "--pretty=%s"]));
   ("ETLE_GIT_DIRTY", git_dirty_state);
   ("ETLE_BUILD_DATE", default unix_now_string
                         (or_else (env_value "ETLE_BUILD_DATE") (git ["show"; "-s"; "--format=%cI"; "HEAD"])));
   ("ETLE_BUILD_PROFILE", unknown (getenv "PROFILE"));
   ("ETLE_BUILD_TARGET", unknown (getenv "TARGET"));
   ("ETLE_BUILD_HOST", unknown (getenv "HOST"));
   ("ETLE_RUSTC_VERSION", unknown (command_one_line "rustc" ["--version"]));
   ("ETLE_BUILD_CI", default (txt "false") (env_value "GITHUB_ACTIONS"));
   ("ETLE_BUILD_REPOSITORY", unknown (env_value "GITHUB_REPOSITORY"));
   ("ETLE_BUILD_RUN_ID", unknown (env_value "GITHUB_RUN_ID"))]%string.

Definition rerun_lines : list text :=
  txt <$> ["cargo:rerun-if-env-changed=ETLE_BUILD_DATE"; "cargo:rerun-if-env-changed=ETLE_RELEASE_TAG";
           "cargo:rerun-if-env-changed=GITHUB_ACTIONS"; "cargo:rerun-if-env-changed=GITHUB_REF_NAME";
           "cargo:rerun-if-env-changed=GITHUB_REF_TYPE"; "cargo:rerun-if-env-changed=GITHUB_REPOSITORY";
           "cargo:rerun-if-env-changed=GITHUB_RUN_ID"; "cargo:rerun-if-changed=.git/HEAD"]%string.

(** [main]: the lines it prints. *)
Definition build_main : list text := rerun_lines ++ ((λ v, emit v.1 v.2) <$> build_vars).

(** [env!] in [build_info.rs]; [version] is [CARGO_PKG_VERSION]. *)
Definition env_var (vars : list (text * text)) (name : string) : string :=
  match filter (λ v, v.1 = txt name) vars with v :: _ => text_str v.2 | [] => "" end.
Definition build_info `{Cargo} (version : string) : BuildInfo :=
  let var := env_var (cargo_reads (unlines build_main)) in
  mkBuildInfo version (var "ETLE_GIT_COMMIT") (var "ETLE_GIT_BRANCH") (var "ETLE_GIT_TAG")
    (var "ETLE_GIT_COMMIT_COUNT") (var "ETLE_GIT_COMMIT_MESSAGE") (var "ETLE_GIT_DIRTY")
    (var "ETLE_BUILD_DATE") (var "ETLE_BUILD_PROFILE") (var "ETLE_BUILD_TARGET") (var "ETLE_BUILD_HOST")
    (var "ETLE_RUSTC_VERSION") (var "ETLE_BUILD_CI") (var "ETLE_BUILD_REPOSITORY") (var "ETLE_BUILD_RUN_ID").
End script.

(** * Facts about the text *)
Lemma code3_second b0 b1 b2 :
  0xe0 ≤ byte_val b0 < 0xf0 → continuation b1 → continuation b2 →
  (second_of_three (byte_val b0) (byte_val b1) ↔ 0x800 ≤ code3 b0 b1 b2 ∧ scalar (code3 b0 b1 b2)).
Proof. unfold continuation, code3, scalar, second_of_three. lia. Qed.

Lemma code4_second b0 b1 b2 b3 :
  0xf0 ≤ byte_val b0 → continuation b1 → continuation b2 → continuation b3 →
  (second_of_four (byte_val b0) (byte_val b1) ∧ byte_val b0 < 0xf5
   ↔ 0x10000 ≤ code4 b0 b1 b2 b3 ∧ scalar (code4 b0 b1 b2 b3)).
Proof. unfold continuation, code4, scalar, second_of_four. lia. Qed.

Lemma second_continuation b0 b1 :
  second_of_three (byte_val b0) (byte_val b1) ∨ second_of_four (byte_val b0) (byte_val b1) → continuation b1.
Proof. unfold continuation, second_of_three, second_of_four. lia. Qed.

(** What decodes at all is decoded. *)
Lemma utf8_lossy_decode b t : utf8_decode b = Some t → utf8_lossy b = t.
Proof.
  revert t. induction b as [b IH] using (induction_ltof1 _ (@length byte)). unfold ltof in IH. intros t.
  assert (∀ c r, (length r < length b)%nat → cons c <$> utf8_decode r = Some t → c :: utf8_lossy r = t) as Hnext.
  { intros c r Hr. destruct (utf8_decode r) as [t'|] eqn:Hd; [|done]. intros [= <-]. f_equal. by apply IH. }
  destruct b as [|b0 r0]; [by intros [= <-]|]. cbn [utf8_decode utf8_lossy]. pose proof (byte_val_range b0).
  destruct (decide (byte_val b0 < 128)) as [|H0]; [by apply Hnext; simpl; lia|].
  destruct r0 as [|b1 r1]; [done|]. destruct (decide (byte_val b0 < 224)).
  { case_decide as Hc; [|done]. intros Hd. destruct Hc as [Hc1 Hc2]. pose proof Hc1 as Hr. unfold continuation in Hr.
    unfold code2 in Hc2. rewrite decide_True by lia. rewrite decide_True by done. apply Hnext; [simpl; lia|done]. }
  rewrite decide_False by lia. destruct r1 as [|b2 r2]; [done|]. destruct (decide (byte_val b0 < 240)).
  { case_decide as Hc; [|done]. destruct Hc as (Hc1 & Hc2 & Hc). apply code3_second in Hc; [|lia|done..]. intros Hd.
    rewrite !decide_True by (done || lia). apply Hnext; [simpl; lia|done]. }
  rewrite decide_False by lia. destruct r2 as [|b3 r3]; [done|].
  case_decide as Hc; [|done]. destruct Hc as (Hc1 & Hc2 & Hc3 & Hc). apply code4_second in Hc as [Hc ?]; [|lia|done..].
  intros Hd. rewrite !decide_True by (done || lia). apply Hnext; [simpl; lia|done].
Qed.

(** The result is text. *)
Lemma utf8_lossy_scalar b : Forall scalar (utf8_lossy b).
Proof.
  induction b as [b IH] using (induction_ltof1 _ (@length byte)). unfold ltof in IH.
  assert (scalar REPLACEMENT) as Hrep by by_decide.
  destruct b as [|b0 r0]; [constructor|]. cbn [utf8_lossy]. pose proof (byte_val_range b0).
  case_decide. { constructor; [unfold scalar; lia|]. apply IH. simpl. lia. }
  case_decide. { destruct r0 as [|b1 r1]; [by repeat constructor|].
    case_decide as Hc; constructor; try done; try (apply IH; simpl; lia). unfold continuation in Hc. unfold scalar, code2. lia. }
  case_decide. { destruct r0 as [|b1 r1]; [by repeat constructor|].
    case_decide as Hs; [|constructor; [done|apply IH; simpl; lia]]. destruct r1 as [|b2 r2]; [by repeat constructor|].
    case_decide; constructor; try done; try (apply IH; simpl; lia).
    apply (code3_second b0 b1 b2); [done|by eapply second_continuation; left|done..]. }
  case_decide. 2: { constructor; [done|apply IH; simpl; lia]. }
  destruct r0 as [|b1 r1]; [by repeat constructor|].
  case_decide as Hs; [|constructor; [done|apply IH; simpl; lia]]. destruct r1 as [|b2 r2]; [by repeat constructor|].
  case_decide; [|constructor; [done|apply IH; simpl; lia]]. destruct r2 as [|b3 r3]; [by repeat constructor|].
  case_decide; constructor; try done; try (apply IH; simpl; lia).
  apply (code4_second b0 b1 b2 b3); [lia|by eapply second_continuation; right|done|done|]. split; [done|lia].
Qed.

Lemma utf8_lossy_ascii b : Forall (λ c, byte_val c < 128) b → Forall (λ c, 0 ≤ c < 128) (utf8_lossy b).
Proof.
  induction 1 as [|c b Hc _ IH]; [constructor|]. cbn [utf8_lossy]. rewrite decide_True by done.
  pose proof (byte_val_range c). constructor; [lia|done].
Qed.

Lemma Forall_trim (P : char → Prop) t : Forall P t → Forall P (trim t).
Proof.
  assert (∀ t, Forall P t → Forall P (trim_start t)) as Hs.
  { intros t' Ht. destruct (trim_start_suffix t') as (p & Hp & _). rewrite Hp in Ht. by apply Forall_app in Ht as [_ ?]. }
  intros Ht. unfold trim, trim_end. by apply Forall_reverse, Hs, Forall_reverse, Hs.
Qed.

Lemma strip_prefix_text_app p t : strip_prefix_text p (p ++ t) = Some t.
Proof. unfold strip_prefix_text. by rewrite take_app_length, decide_True, drop_app_length. Qed.

Lemma one_line_plain t : 13 ∉ one_line t ∧ 10 ∉ one_line t.
Proof. split; intros (c & Heq & _)%list_elem_of_fmap; case_decide; lia. Qed.

Lemma one_line_nil t : one_line t = [] ↔ t = [].
Proof. split; [|by intros ->]. by destruct t. Qed.

Lemma Forall_one_line (P : char → Prop) t : P 32 → Forall P t → Forall P (one_line t).
Proof. intros Hs Ht. apply Forall_fmap. eapply Forall_impl; [done|]. intros c Hc. cbn. by case_decide. Qed.

(** A line without line ends. *)
Definition unbroken (l : text) : Prop := 10 ∉ l ∧ 13 ∉ l.
Global Instance unbroken_dec l : Decision (unbroken l).
Proof. unfold unbroken. apply _. Defined.
Lemma unbroken_plain l : unbroken l → plain_line l.
Proof. intros [H10 H13]. split; [done|]. intros Hl. apply H13. by apply last_Some_elem_of. Qed.
Lemma unbroken_app l l' : unbroken l → unbroken l' → unbroken (l ++ l').
Proof. unfold unbroken. rewrite !elem_of_app. tauto. Qed.

Lemma emit_unbroken name value : unbroken (txt name) → unbroken (emit name value).
Proof.
  intros Hname. unfold emit. repeat apply unbroken_app; [by_decide|done|by_decide|].
  destruct (one_line_plain value). by split.
Qed.

Lemma cargo_env_emit name value :
  61 ∉ txt name → cargo_env (emit name value) = Some (txt name, one_line value).
Proof. intros Hname. unfold cargo_env, emit. rewrite strip_prefix_text_app. cbn. by apply split_once_app. Qed.

(** * What cargo reads *)
Section reading.
Context (getenv : string → option text) (run : string → list string → option (bool * bytes)) (unix_now : option Z).

(** The names of the variables hold neither line ends nor an equals sign. *)
Lemma build_names : Forall (λ v, unbroken (txt v.1) ∧ 61 ∉ txt v.1) (build_vars getenv run unix_now).
Proof. unfold build_vars. repeat (constructor; [split; by_decide|]). constructor. Qed.

Lemma build_main_unbroken : Forall unbroken (build_main getenv run unix_now).
Proof.
  apply Forall_app. split; [by_decide|]. apply Forall_fmap. eapply Forall_impl; [apply build_names|].
  intros [name value] [Hname _]. by apply emit_unbroken.
Qed.

Lemma cargo_reads_main `{CargoLaws} :
  cargo_reads (unlines (build_main getenv run unix_now))
  = (λ v, (txt v.1, one_line v.2)) <$> build_vars getenv run unix_now.
Proof.
  rewrite cargo_reads_lines, lines_unlines by (eapply Forall_impl; [apply build_main_unbroken|apply unbroken_plain]).
  unfold build_main. rewrite omap_app. change (omap cargo_env rerun_lines) with (@nil (text * text)). cbn [app].
  pose proof build_names as Hnames. induction Hnames as [|[name value] vars [_ Hname] _ IH]; [done|].
  rewrite !fmap_cons. cbn [omap list_omap fst snd]. cbn [fst] in Hname. rewrite cargo_env_emit by done. by rewrite <- IH.
Qed.

Lemma non_empty_Some t t' : non_empty t = Some t' → t' = t ∧ t ≠ [].
Proof. unfold non_empty. case_decide; naive_solver. Qed.

(** Every source of a value. *)
Lemma command_one_line_Some program args t :
  command_one_line run program args = Some t →
  t ≠ [] ∧ ∃ out, run program args = Some (true, out) ∧ t = trim (utf8_lossy out).
Proof.
  unfold command_one_line. destruct (run program args) as [[[] out]|]; [|done..].
  intros [-> Hne]%non_empty_Some. split; [done|by exists out].
Qed.
Lemma env_value_Some name t :
  env_value getenv name = Some t → t ≠ [] ∧ ∃ value, getenv name = Some value ∧ t = trim value.
Proof.
  unfold env_value. destruct (getenv name) as [value|]; [|done]. intros [-> Hne]%non_empty_Some. split; [done|by exists value].
Qed.
End reading.

(** * The version text *)
Definition line_ends (s : string) : nat := length (filter (λ b, b = Byte.x0a) (str_bytes s)).
Lemma line_ends_app s t : line_ends (s +:+ t) = (line_ends s + line_ends t)%nat.
Proof. unfold line_ends. by rewrite str_bytes_app, filter_app, length_app. Qed.

Lemma utf8_char_newline c : scalar c → c ≠ 10 → Byte.x0a ∉ utf8_char c.
Proof.
  intros Hc Hne Hin. unfold scalar in Hc.
  assert (∀ z, 0 ≤ z < 256 → Byte.x0a = byte_of_Z z → z = 10) as Hbyte.
  { intros z Hz Heq. apply (f_equal byte_val) in Heq. rewrite byte_val_of_Z, Z.mod_small in Heq by done. by symmetry. }
  unfold utf8_char in Hin. repeat case_decide; repeat (apply elem_of_cons in Hin as [Hin|Hin]);
    try (by apply elem_of_nil in Hin); apply Hbyte in Hin; lia || (Z.div_mod_to_equations; lia).
Qed.

Lemma line_ends_0 s : Byte.x0a ∉ str_bytes s → line_ends s = 0%nat.
Proof.
  unfold line_ends. generalize (str_bytes s). intros l. induction l as [|b l IH]; intros Hn; [done|].
  apply not_elem_of_cons in Hn as [Hb Hl]. rewrite filter_cons_False by congruence. by apply IH.
Qed.

Lemma line_ends_text t : Forall scalar t → 10 ∉ t → line_ends (text_str t) = 0%nat.
Proof.
  intros Ht Hn. apply line_ends_0. unfold text_str, of_bytes. rewrite str_bytes_of_list.
  intros (c & Hc & Hin)%list_elem_of_bind. rewrite Forall_forall in Ht.
  by apply (utf8_char_newline c); [apply Ht|intros ->|].
Qed.

Lemma utf8_encode_ascii t : Forall (λ c, 0 ≤ c < 128) t → Forall (λ b, byte_val b < 128) (utf8_encode t).
Proof.
  induction 1 as [|c t Hc _ IH]; [constructor|]. unfold utf8_encode in *. rewrite bind_cons. apply Forall_app. split; [|done].
  unfold utf8_char. rewrite decide_True by lia. constructor; [|done]. rewrite byte_val_of_Z, Z.mod_small by lia. lia.
Qed.

(** The cut after seven bytes is inside no character of an ASCII text. *)
Lemma short_commit_ascii {E} s :
  Forall (λ b, byte_val b < 128) (str_bytes s) → Byte.x0a ∉ str_bytes s →
  ∃ commit, @short_commit E s = Ok commit ∧ line_ends commit = 0%nat.
Proof.
  intros Ha Hn. unfold short_commit. cbv zeta. case_decide as Hlen; [|exists s; split; [done|by apply line_ends_0]].
  assert (char_boundary 7 (str_bytes s) = true) as ->.
  { unfold char_boundary. destruct (str_bytes s !! 7%nat) as [c|] eqn:Hc.
    - apply negb_true_iff, bool_decide_eq_false. rewrite Forall_lookup in Ha. specialize (Ha _ _ Hc). cbn in Ha. lia.
    - apply bool_decide_eq_true. apply lookup_ge_None in Hc. lia. }
  eexists. split; [done|]. apply line_ends_0. unfold of_bytes. rewrite str_bytes_of_list.
  intros Hin%list_elem_of_lookup. destruct Hin as (i & Hi). apply lookup_take_Some in Hi as [Hi _].
  apply Hn. by eapply list_elem_of_lookup_2.
Qed.

Definition info_fields (info : BuildInfo) : list string :=
  [bi_version info; bi_git_commit info; bi_git_branch info; bi_git_tag info; bi_git_commit_count info;
   bi_git_commit_message info; bi_git_dirty info; bi_build_date info; bi_build_profile info; bi_build_target info;
   bi_build_host info; bi_rustc_version info; bi_build_ci info; bi_build_repository info; bi_build_run_id info].

Lemma long_version_lines {E} binary info :
  line_ends binary = 0%nat → Forall (λ s, line_ends s = 0%nat) (info_fields info) →
  Forall (λ b, byte_val b < 128) (str_bytes (bi_git_commit info)) → Byte.x0a ∉ str_bytes (bi_git_commit info) →
  ∃ t, @long_version E binary info = Ok t ∧ line_ends t = 19%nat.
Proof.
  intros Hb Hf Ha Hn. destruct (@short_commit_ascii E (bi_git_commit info)) as (commit & Hc & Hcn); [done..|].
  unfold long_version, version_abi_string. rewrite Hc. cbn [result_bind]. eexists. split; [done|].
  unfold info_fields in Hf. rewrite !Forall_cons in Hf. destruct_and? Hf.
  rewrite !line_ends_app. repeat match goal with Hs : line_ends _ = 0%nat |- _ => rewrite Hs; clear Hs end.
  destruct (decide (bi_git_dirty info = "clean"%string)); vm_compute; reflexivity.
Qed.

(** * What the program finds *)
Lemma txt_inj s t : txt s = txt t → s = t.
Proof.
  unfold txt. intros Heq. apply str_bytes_inj. apply (list_fmap_eq_inj byte_val) in Heq; [done|]. exact byte_val_inj.
Qed.

Lemma filter_names (vars : list (string * text)) name value :
  NoDup vars.*1 → (name, value) ∈ vars →
  filter (λ v : text * text, v.1 = txt name) ((λ v, (txt v.1, one_line v.2)) <$> vars) = [(txt name, one_line value)].
Proof.
  assert (∀ vars : list (string * text), name ∉ vars.*1 →
    filter (λ v : text * text, v.1 = txt name) ((λ v, (txt v.1, one_line v.2)) <$> vars) = []) as Hnone.
  { induction vars0 as [|[n v] vs IH]; intros Hn; [done|]. rewrite fmap_cons in Hn. apply not_elem_of_cons in Hn as [Hne Hn].
    rewrite fmap_cons, filter_cons_False; [by apply IH|]. intros Heq. cbn in Heq. apply Hne. symmetry.
    by apply txt_inj. }
  intros Hnd Hin. induction vars as [|[n v] vs IH]; [by apply elem_of_nil in Hin|].
  rewrite fmap_cons in Hnd. apply NoDup_cons in Hnd as [Hn Hnd]. rewrite fmap_cons.
  apply elem_of_cons in Hin as [[= -> ->]|Hin].
  - rewrite filter_cons_True by done. by rewrite Hnone.
  - rewrite filter_cons_False; [by apply IH|]. cbn. intros Heq. apply Hn. apply list_elem_of_fmap. exists (name, value).
    split; [by apply txt_inj|done].
Qed.

Section found.
Context (getenv : string → option text) (run : string → list string → option (bool * bytes)) (unix_now : option Z).

Lemma build_vars_NoDup : NoDup (build_vars getenv run unix_now).*1.
Proof. unfold build_vars. cbn [fmap list_fmap fst]. by_decide. Qed.

Lemma env_var_build `{CargoLaws} name value :
  (name, value) ∈ build_vars getenv run unix_now →
  env_var (cargo_reads (unlines (build_main getenv run unix_now))) name = text_str (one_line value).
Proof.
  intros Hin. unfold env_var. rewrite (cargo_reads_main getenv run unix_now), (filter_names _ name value); [done|apply build_vars_NoDup|done].
Qed.

(** The strings of the environment and of the commands are text. *)
Definition env_text : Prop :=
  (∀ name t, getenv name = Some t → Forall scalar t) ∧ (∀ n, unix_now = Some n → 0 ≤ n).

Lemma command_scalar program args t : command_one_line run program args = Some t → Forall scalar t.
Proof. intros (_ & out & _ & ->)%command_one_line_Some. apply Forall_trim, utf8_lossy_scalar. Qed.

Lemma build_values_scalar : env_text → Forall (λ v, Forall scalar v.2) (build_vars getenv run unix_now).
Proof.
  intros [Henv Hclock].
  assert (∀ name t, env_value getenv name = Some t → Forall scalar t) as Hvalue.
  { intros name t (_ & value & Hv & ->)%env_value_Some. by eapply Forall_trim, Henv. }
  assert (∀ d o, Forall scalar d → (∀ t, o = Some t → Forall scalar t) → Forall scalar (default d o)) as Hdef.
  { intros d [t|] Hd Ho; [by apply Ho|done]. }
  assert (∀ o o' : option text, (∀ t, o = Some t → Forall scalar t) → (∀ t, o' = Some t → Forall scalar t) →
    ∀ t, or_else o o' = Some t → Forall scalar t) as Helse.
  { intros [t|] o' Ho Ho' t'; cbn; [intros [= ->]; by apply Ho|apply Ho']. }
  assert (∀ t, github_tag getenv = Some t → Forall scalar t) as Htag.
  { intros t. unfold github_tag. case_decide; [apply Hvalue|done]. }
  assert (Forall scalar (txt "unknown") ∧ Forall scalar (txt "false") ∧ Forall scalar (txt "clean") ∧ Forall scalar (txt "dirty"))
    as (Hu & Hfa & Hcl & Hdi) by (split_and!; by_decide).
  assert (Forall scalar (unix_now_string unix_now)) as Hnow.
  { unfold unix_now_string. apply Forall_app. split; [by_decide|].
    eapply Forall_impl; [apply digits_plain; destruct unix_now; cbn; [by apply Hclock|done]|]. unfold scalar. cbn. intros; lia. }
  unfold build_vars. repeat constructor; cbn [snd]; unfold unknown; try (apply Hdef; [done|]); unfold git; eauto using command_scalar.
  unfold git_dirty_state. repeat case_match; done.
Qed.

Lemma build_commit_ascii :
  (∀ out, run "git" ["rev-parse"; "HEAD"]%string = Some (true, out) → Forall (λ b, byte_val b < 128) out) →
  Forall (λ c, 0 ≤ c < 128) (one_line (unknown (git run ["rev-parse"; "HEAD"]%string))).
Proof.
  intros Hout. apply Forall_one_line; [lia|]. unfold unknown, git. destruct (command_one_line _ _ _) as [t|] eqn:Ht; cbn; [|by_decide].
  apply command_one_line_Some in Ht as (_ & out & Hrun & ->). by apply Forall_trim, utf8_lossy_ascii, Hout.
Qed.
End found.

(** * The theorems *)

(** C38: the build script tells cargo exactly what it means to. Whatever the commands
    print, successfully or not, and whatever the environment holds - a commit message
    or a branch name with line ends or with text that looks like a directive included
    - cargo ([CargoLaws]) reads back the lines that were printed, and they set the fourteen
    variables, each once, to their values with line ends replaced by spaces. The
    values that come from a command or a trimmed variable are never empty. *)
Theorem build_script_correct `{CargoLaws} getenv run unix_now :
  let output := unlines (build_main getenv run unix_now) in
  lines output = build_main getenv run unix_now
  ∧ cargo_reads output = (λ v, (txt v.1, one_line v.2)) <$> build_vars getenv run unix_now
  ∧ NoDup (cargo_reads output).*1 ∧ Forall (λ v, unbroken v.2) (cargo_reads output)
  ∧ Forall (λ v, v.1 ∈ txt <$> ["ETLE_BUILD_PROFILE"; "ETLE_BUILD_TARGET"; "ETLE_BUILD_HOST"]%string ∨ v.2 ≠ [])
      (cargo_reads output).
Proof.
  cbv zeta. rewrite (cargo_reads_main getenv run unix_now). split_and!.
  - apply lines_unlines. eapply Forall_impl; [apply build_main_unbroken|apply unbroken_plain].
  - done.
  - assert (((λ v : string * text, (txt v.1, one_line v.2)) <$> build_vars getenv run unix_now).*1
            = txt <$> (build_vars getenv run unix_now).*1) as -> by (by rewrite <- !list_fmap_compose).
    apply NoDup_fmap_2; [exact txt_inj|apply build_vars_NoDup].
  - apply Forall_fmap, Forall_forall. intros v _. cbn. destruct (one_line_plain v.2). by split.
  - assert (∀ o, (∀ t, o = Some t → t ≠ []) → unknown o ≠ []) as Hu by (intros [t|] Ho; [by apply Ho|done]).
    assert (∀ (d : text) o, d ≠ [] → (∀ t, o = Some t → t ≠ []) → default d o ≠ []) as Hd by (intros d [t|] Hne Ho; [by apply Ho|done]).
    assert (∀ (name : string) (t : text), env_value getenv name = Some t → t ≠ []) as Hv by (intros name t Ht; by apply env_value_Some in Ht as [? _]).
    assert (∀ (args : list string) (t : text), git run args = Some t → t ≠ []) as Hg by (intros args t Ht; exact (proj1 (command_one_line_Some run _ args t Ht))).
    assert (∀ o o' : option text, (∀ t, o = Some t → t ≠ []) → (∀ t, o' = Some t → t ≠ []) → ∀ t, or_else o o' = Some t → t ≠ []) as He.
    { intros [t|] o' Ho Ho' t'; cbn; [intros [= ->]; by apply Ho|apply Ho']. }
    assert (∀ t, github_tag getenv = Some t → t ≠ []) as Ht by (intros t; unfold github_tag; case_decide; [apply Hv|done]).
    apply Forall_fmap. unfold build_vars. repeat (apply Forall_cons; split); try (apply Forall_nil; exact I); cbn [compose fst snd];
      rewrite one_line_nil; try (left; by_decide); right;
      try (first [apply Hu|apply Hd; [discriminate|]]; repeat apply He; first [apply Hv|apply Hg|apply Ht]).
    + unfold git_dirty_state. repeat case_match; discriminate.
    + apply Hu. intros t Hv'. exact (proj1 (command_one_line_Some run _ _ t Hv')).
Qed.

(** The version information cannot break the version text, and printing it cannot
    panic. If the commands and the environment hold text and the commit id git prints
    is ASCII (the cut after seven bytes in [version_abi_string] would panic inside a
    character), then for the information the build script puts into the program
    [long_version] returns a text of exactly nineteen lines, whatever the commit
    message and the names in it are. *)
Theorem version_text_intact `{CargoLaws} {E} getenv run unix_now version binary :
  env_text getenv unix_now →
  (∀ out, run "git" ["rev-parse"; "HEAD"]%string = Some (true, out) → Forall (λ b, byte_val b < 128) out) →
  line_ends version = 0%nat → line_ends binary = 0%nat →
  ∃ t, @long_version E binary (build_info getenv run unix_now version) = Ok t ∧ line_ends t = 19%nat.
Proof.
  intros Henv Hcommit Hversion Hbinary. pose proof (build_commit_ascii run Hcommit) as Hascii.
  assert (∀ name value, (name, value) ∈ build_vars getenv run unix_now →
    line_ends (env_var (cargo_reads (unlines (build_main getenv run unix_now))) name) = 0%nat) as Hvar.
  { intros name value Hin. rewrite (env_var_build _ _ _ name value Hin). apply line_ends_text; [|apply one_line_plain].
    apply Forall_one_line; [by_decide|]. pose proof (build_values_scalar _ run _ Henv) as Hall. rewrite Forall_forall in Hall.
    by apply (Hall _ Hin). }
  assert (bi_git_commit (build_info getenv run unix_now version)
          = text_str (one_line (unknown (git run ["rev-parse"; "HEAD"]%string)))) as Hc.
  { cbn [build_info bi_git_commit]. apply (env_var_build getenv run unix_now "ETLE_GIT_COMMIT"). left. }
  apply long_version_lines; [done| | |].
  - unfold build_info, info_fields. cbv zeta.
    cbn [bi_version bi_git_commit bi_git_branch bi_git_tag bi_git_commit_count bi_git_commit_message bi_git_dirty bi_build_date
         bi_build_profile bi_build_target bi_build_host bi_rustc_version bi_build_ci bi_build_repository bi_build_run_id].
    repeat (constructor; [first [done|eapply Hvar; unfold build_vars; repeat (apply elem_of_cons; first [left; reflexivity|right])]|]).
    constructor.
  - rewrite Hc. unfold text_str, of_bytes. rewrite str_bytes_of_list. by apply utf8_encode_ascii.
  - rewrite Hc. unfold text_str, of_bytes. rewrite str_bytes_of_list. intros (c & Hin & Hi)%list_elem_of_bind.
    rewrite Forall_forall in Hascii. specialize (Hascii _ Hi). apply (utf8_char_newline c); [unfold scalar; lia| |done].
    intros ->. by apply one_line_plain in Hi.
Qed.

(** * Witnesses *)
Module BuildSample.
Definition getenv (name : string) : option text :=
  if decide (name = "PROFILE"%string) then Some (txt "release") else None.
(** A commit message that tries to set a variable of its own. *)
Definition run (program : string) (args : list string) : option (bool * bytes) :=
  if decide (args = ["rev-parse"; "HEAD"]%string) then Some (true, str_bytes "0123456789abcdef" ++ [Byte.x0a])
  else if decide (args = ["log"; "-1"; "--pretty=%s"]%string)
  then Some (true, str_bytes "fix" ++ [Byte.x0a] ++ str_bytes "cargo:rustc-env=ETLE_GIT_TAG=v9")
  else None.
#[export] Instance cargo : Cargo := { cargo_reads output := omap cargo_env (lines output) }.
#[export] Instance cargo_laws : CargoLaws.
Proof. by split. Qed.
End BuildSample.
Import BuildSample.

(** A commit message of two lines, the second a directive: it sets no variable. *)
Lemma build_script_correct_witness :
  let vars := cargo_reads (unlines (build_main BuildSample.getenv BuildSample.run (Some 1700000000))) in
  vars = (λ v, (txt v.1, one_line v.2)) <$> build_vars BuildSample.getenv BuildSample.run (Some 1700000000)
  ∧ env_var vars "ETLE_GIT_TAG" = "unknown"%string
  ∧ env_var vars "ETLE_GIT_COMMIT_MESSAGE" = "fix cargo:rustc-env=ETLE_GIT_TAG=v9"%string.
Proof.
  intros vars. destruct (build_script_correct BuildSample.getenv BuildSample.run (Some 1700000000)) as (_ & Hvars & _).
  split; [exact Hvars|]. split; vm_compute; reflexivity.
Defined.

Lemma version_text_intact_witness :
  ∃ t, @long_version unit "etle-cli" (build_info BuildSample.getenv BuildSample.run (Some 1700000000) "1.0.1") = Ok t
    ∧ line_ends t = 19%nat.
Proof.
  apply (version_text_intact BuildSample.getenv BuildSample.run (Some 1700000000) "1.0.1" "etle-cli").
  - split; [|intros n [= <-]; lia]. intros name t. unfold BuildSample.getenv. case_decide; [|done]. intros [= <-]. by_decide.
  - intros out. unfold BuildSample.run. rewrite decide_True by done. intros [= <-]. by_decide.
  - reflexivity.
  - reflexivity.
Defined.
