(* ===== verification/View.v ===== *)
(** What the graphical client shows ([src/src/gui/widgets.rs], and [update_view], the
    signal handlers and [selected_share_detail] of [gui/app.rs]).

    GTK is outside the source. What the program asks of it is a list of [Call]s, in
    order; what it reads back (the values of spin buttons and check buttons, the texts
    of entries, the file picked in a dialog) is an argument. [ToolkitLaws] states the
    documented effect of the calls: a label or buffer shows the text it was given last,
    a list the rows appended since it was cleared. The layout of the widgets and their
    style are not modelled. *)
From stdpp Require Import base tactics list countable strings gmap.
From Stdlib Require Import ZArith Lia SpecFloat.
From S2P Require Import Prelude Bytes World Text Files Extern Crypto Descriptor Chunker State Library Codec Handshake DownloadState Seed Discovery Config Ipc Output Progress Gui GuiApp GuiProofs Cli.
Local Open Scope Z_scope.
Local Open Scope etle_scope.

(** * Widgets *)
Inductive Item :=
  | TitleLabel (text : string)
  | BadgeLabel (text : string)
  | MutedLabel (text : string)
  | Bar (fraction : f64) (pulsing : bool).
(** The items of one row of a list, from the top. *)
Definition Row : Type := list Item.

Inductive Spin :=
  | SeedChunkSpin | ParallelSpin | RequestWindowSpin | DiscoveryPortSpin | DiscoveryTimeoutSpin
  | RefreshIntervalSpin | ActivityLimitSpin.
Inductive CheckBox := ResumeCheck | AutoRefreshCheck | ClearActivityCheck.
Inductive ListWidget := SeedList | LibraryList | TransferList.
Global Instance ListWidget_eq_dec : EqDecision ListWidget.
Proof. solve_decision. Defined.

Inductive Call :=
  | SetStatusLabel (text : string)
  | SetSpin (spin : Spin) (value : f64)
  | SetCheck (check : CheckBox) (active : bool)
  | ClearList (l : ListWidget)
  | AppendRow (l : ListWidget) (row : Row)
  | SetDetail (text : string)
  | SetConfirmVisible (visible : bool)
  | SetConfirmLabel (text : string)
  | SetFraction (fraction : f64)
  | Pulse
  | SetProgressLabel (text : string)
  | SetActivity (text : string).

(** * [widgets.rs]: the rows *)

(** [str::ends_with] *)
Definition str_ends_with (s suffix : string) : bool := bool_decide (str_bytes suffix `suffix_of` str_bytes s).

Definition short_phase (detail : string) : string :=
  if str_contains detail "decrypting" then "decrypt"
  else if str_contains detail "receiving" then "receive"
  else if str_contains detail "encrypting" then "encrypt"
  else if str_contains detail "uploading" then "upload"
  else "running".

Definition share_fraction (share : IpcShareSummary) : f64 :=
  if decide (is_total_chunks share = 0) then
    if decide (is_mode share = Some "seeding"%string ∨ is_mode share = Some "completed"%string)
    then f64_of_Z 1 else f64_of_Z 0
  else f64_clamp (f64_div (f64_of_Z (is_completed_chunks share)) (f64_of_Z (is_total_chunks share))) (f64_of_Z 0) (f64_of_Z 1).
Definition share_percent (share : IpcShareSummary) : f64 := f64_mul (share_fraction share) (f64_of_Z 100).

Definition seed_row (file : string) : Row := [TitleLabel (file_label file); MutedLabel file].
Definition seed_rows (files : list string) : list Row :=
  match files with
  | [] => [[MutedLabel "No files queued. Add files with Browse or paste a path and press Enter."]]
  | _ => seed_row <$> files
  end.

Definition library_row (share : IpcShareSummary) : Row :=
  let mode := default "unknown"%string (is_mode share) in
  let secret := (if is_has_secret share then "key: yes" else "key: no")%string in
  let percent := share_percent share in
  [TitleLabel (is_name share); BadgeLabel mode;
   MutedLabel (dec (is_completed_chunks share) +:+ "/" +:+ dec (is_total_chunks share) +:+ " chunks · "
               +:+ format_fixed 1 percent +:+ "% · " +:+ secret);
   Bar (share_fraction share) false; MutedLabel (ShareId_to_string (is_share_id share))].
Definition library_rows (shares : list IpcShareSummary) : list Row :=
  match shares with
  | [] => [[MutedLabel "No shares in this daemon library."]]
  | _ => library_row <$> shares
  end.

Definition transfer_row (t : GuiTransfer) : Row :=
  let badge_text := if decide (gt_status t = Running) then status_icon (gt_status t) +:+ " " +:+ short_phase (gt_detail t)
                    else status_icon (gt_status t) +:+ " " +:+ status_label (gt_status t) in
  let pulsing := bool_decide (gt_status t = Running ∧ gt_total_bytes t = 0 ∧ gt_total_chunks t = 0) in
  [TitleLabel (gt_label t); BadgeLabel badge_text; MutedLabel (compact_line t);
   Bar (transfer_fraction t) pulsing; MutedLabel (gt_detail t)].
Definition transfer_rows (transfers : list GuiTransfer) : list Row :=
  match transfers with
  | [] => [[MutedLabel "No transfer yet."]]
  | _ => transfer_row <$> transfers
  end.

(** [refill_seed_list], [refill_library_list], [refill_transfer_list] *)
Definition refill (l : ListWidget) (rows : list Row) : list Call := ClearList l :: (AppendRow l <$> rows).
Definition refill_seed_list (files : list string) : list Call := refill SeedList (seed_rows files).
Definition refill_library_list (shares : list IpcShareSummary) : list Call := refill LibraryList (library_rows shares).
Definition refill_transfer_list (transfers : list GuiTransfer) : list Call := refill TransferList (transfer_rows transfers).

(** * [widgets.rs]: the signatures *)
Definition seed_signature (files : list string) : string := String.concat newline files.

Definition show_flag (b : bool) : string := if b then "true" else "false".
Definition share_signature (share : IpcShareSummary) : string :=
  ShareId_to_string (is_share_id share) +:+ ":" +:+ is_name share +:+ ":" +:+ default "" (is_mode share) +:+ ":"
  +:+ dec (is_completed_chunks share) +:+ ":" +:+ dec (is_total_chunks share) +:+ ":" +:+ show_flag (is_has_secret share).
Definition library_signature (shares : list IpcShareSummary) : string := String.concat newline (share_signature <$> shares).

Definition one_transfer_signature (t : GuiTransfer) : string :=
  gt_id t +:+ ":" +:+ kind_label (gt_kind t) +:+ ":" +:+ gt_label t +:+ ":" +:+ status_label (gt_status t) +:+ ":"
  +:+ from_option ShareId_to_string "" (gt_share_id t) +:+ ":" +:+ dec (gt_completed_chunks t) +:+ ":"
  +:+ dec (gt_total_chunks t) +:+ ":" +:+ dec (gt_bytes_done t) +:+ ":" +:+ dec (gt_total_bytes t) +:+ ":"
  +:+ dec (gt_bytes_per_second t) +:+ ":" +:+ gt_detail t.
Definition transfer_signature (transfers : list GuiTransfer) : string :=
  String.concat newline (one_transfer_signature <$> transfers).

Definition set_spin_if_changed (spin : Spin) (shown value : f64) : list Call :=
  if f64_lt f64_epsilon (SFabs (SFsub 53 1024 shown value)) then [SetSpin spin value] else [].

(** * [update_view] *)

(** The [RefCell]s of [GuiWidgets]. *)
Record Cells := mkCells {
  library_cell : string;
  seed_cell : string;
  transfer_cell : string;
  detail_cell : string;
  activity_cell : string;
}.
(** As [init] creates them. *)
Definition Cells_new : Cells := mkCells "" "" "" "" "".

(** What the controls hold when the view is updated. *)
Record Controls := mkControls {
  spin_value : Spin → f64;
  check_active : CheckBox → bool;
}.

Definition selected_share_detail (s : Shelf) : string :=
  match selected_share_summary s with
  | None => "select a share"
  | Some share =>
      let percent :=
        if decide (is_total_chunks share = 0) then if share_is_complete share then f64_of_Z 100 else f64_of_Z 0
        else f64_mul (f64_div (f64_of_Z (is_completed_chunks share)) (f64_of_Z (is_total_chunks share))) (f64_of_Z 100) in
      let missing := Z.max 0 (is_total_chunks share - is_completed_chunks share) in
      "Name       : " +:+ is_name share +:+ newline +:+ "Share ID   : " +:+ ShareId_to_string (is_share_id share) +:+ newline
      +:+ "Mode       : " +:+ default "unknown" (is_mode share) +:+ newline +:+ "Chunks     : " +:+ dec (is_completed_chunks share)
      +:+ "/" +:+ dec (is_total_chunks share) +:+ " (" +:+ format_fixed 2 percent +:+ "%)" +:+ newline +:+ "Missing    : "
      +:+ dec missing +:+ newline +:+ "Secret key : " +:+ (if is_has_secret share then "yes" else "no")
  end.

Definition pending_delete_share_summary (s : Shelf) : option IpcShareSummary :=
  match pending_delete_share s with Some pending => find_share pending s | None => None end.

Definition status_text (g : EtleGui) : string :=
  let l := g_link g in
  let status_detail :=
    if bool_decide (status l = ""%string) || bool_decide (status l ∈ ["online"; "offline"; "idle"]%string)
       || str_ends_with (status l) " share(s)"
    then ""%string else " · " +:+ status l in
  (if connected l then "online" else "offline") +:+ " · " +:+ dec (zlen (shares (g_shelf g))) +:+ " share(s)" +:+ status_detail
  +:+ (if watching l then " · events on" else "").

Definition confirm_text (share : IpcShareSummary) : string :=
  "Delete " +:+ double_quote +:+ is_name share +:+ double_quote
  +:+ " from the local ETLE library? This removes ETLE metadata and encrypted chunks. Original source/output files are not touched.".
Definition confirm_calls (s : Shelf) : list Call :=
  match pending_delete_share_summary s with
  | Some share => [SetConfirmVisible true; SetConfirmLabel (confirm_text share)]
  | None => [SetConfirmVisible false; SetConfirmLabel ""]
  end.

(** The values of the controls in the model. *)
Definition model_spin (g : EtleGui) (spin : Spin) : Z :=
  match spin with
  | SeedChunkSpin => seed_chunk_size (g_seed g)
  | ParallelSpin => df_parallelism (g_download g)
  | RequestWindowSpin => df_request_window (g_download g)
  | DiscoveryPortSpin => df_discovery_port (g_download g)
  | DiscoveryTimeoutSpin => df_discovery_timeout_ms (g_download g)
  | RefreshIntervalSpin => refresh_interval_secs (g_link g)
  | ActivityLimitSpin => Z.of_nat (activity_limit (g_log g))
  end.
Definition model_check (g : EtleGui) (check : CheckBox) : bool :=
  match check with
  | ResumeCheck => df_resume (g_download g)
  | AutoRefreshCheck => auto_refresh (g_link g)
  | ClearActivityCheck => clear_activity_on_task (g_log g)
  end.
Definition sync_spin (g : EtleGui) (c : Controls) (spin : Spin) : list Call :=
  set_spin_if_changed spin (spin_value c spin) (f64_of_Z (model_spin g spin)).
Definition sync_check (g : EtleGui) (c : Controls) (check : CheckBox) : list Call :=
  if decide (check_active c check ≠ model_check g check) then [SetCheck check (model_check g check)] else [].

(** [if *cell != next { draw; *cell = next }] *)
Definition if_changed (cell next : string) (draw : list Call) : list Call := if decide (cell ≠ next) then draw else [].

Definition f64_is_zero (x : f64) : bool := match SFcompare x (f64_of_Z 0) with Some Eq => true | _ => false end.
Definition activity_text (l : Log) : string := String.concat newline (activity l).

Definition update_view (g : EtleGui) (c : Controls) (cells : Cells) : list Call * Cells :=
  let seed_sig := seed_signature (seed_files (g_seed g)) in
  let library_sig := library_signature (shares (g_shelf g)) in
  let detail_text := selected_share_detail (g_shelf g) in
  let transfer_sig := transfer_signature (transfers (g_tasks g)) in
  let activity_now := activity_text (g_log g) in
  ([SetStatusLabel (status_text g)]
   ++ sync_spin g c SeedChunkSpin ++ sync_spin g c ParallelSpin ++ sync_spin g c RequestWindowSpin
   ++ sync_spin g c DiscoveryPortSpin ++ sync_spin g c DiscoveryTimeoutSpin
   ++ sync_check g c ResumeCheck ++ sync_check g c AutoRefreshCheck ++ sync_check g c ClearActivityCheck
   ++ sync_spin g c RefreshIntervalSpin ++ sync_spin g c ActivityLimitSpin
   ++ if_changed (seed_cell cells) seed_sig (refill_seed_list (seed_files (g_seed g)))
   ++ if_changed (library_cell cells) library_sig (refill_library_list (shares (g_shelf g)))
   ++ if_changed (detail_cell cells) detail_text [SetDetail detail_text]
   ++ confirm_calls (g_shelf g)
   ++ if_changed (transfer_cell cells) transfer_sig (refill_transfer_list (transfers (g_tasks g)))
   ++ [SetFraction (progress_fraction (g_tasks g))]
   ++ (if f64_is_zero (progress_fraction (g_tasks g))
          && existsb (λ t, bool_decide (gt_status t = Running ∧ gt_total_bytes t = 0)) (transfers (g_tasks g))
       then [Pulse] else [])
   ++ [SetProgressLabel (latest_progress (g_tasks g))]
   ++ if_changed (activity_cell cells) activity_now [SetActivity activity_now],
   mkCells library_sig seed_sig transfer_sig detail_text activity_now).

(** * What is on the screen *)

(** The parts of the window that a call may change. *)
Inductive Target := ToStatus | ToControls | ToRows (l : ListWidget) | ToDetail | ToConfirm | ToFraction | ToProgress | ToActivity.
Global Instance Target_eq_dec : EqDecision Target.
Proof. solve_decision. Defined.
Definition target (call : Call) : Target :=
  match call with
  | SetStatusLabel _ => ToStatus
  | SetSpin _ _ | SetCheck _ _ => ToControls
  | ClearList l | AppendRow l _ => ToRows l
  | SetDetail _ => ToDetail
  | SetConfirmVisible _ | SetConfirmLabel _ => ToConfirm
  | SetFraction _ | Pulse => ToFraction
  | SetProgressLabel _ => ToProgress
  | SetActivity _ => ToActivity
  end.

(** What a part shows; the controls are read back as [Controls]. *)
Inductive Part :=
  | PText (text : string)
  | PRows (rows : list Row)
  | PConfirm (visible : bool) (text : string)
  | PFraction (fraction : f64)
  | PNothing.

(** What [init] puts in each part. *)
Definition initial (t : Target) : Part :=
  match t with
  | ToStatus | ToDetail | ToActivity => PText ""
  | ToControls => PNothing
  | ToRows _ => PRows []
  | ToConfirm => PConfirm false ""
  | ToFraction => PFraction (f64_of_Z 0)
  | ToProgress => PText "idle"
  end.
(** The documented effect of a call on its part. *)
Definition effect (p : Part) (call : Call) : Part :=
  match call, p with
  | (SetStatusLabel text | SetDetail text | SetProgressLabel text | SetActivity text), _ => PText text
  | ClearList _, _ => PRows []
  | AppendRow _ row, PRows rows => PRows (rows ++ [row])
  | SetConfirmVisible visible, PConfirm _ text => PConfirm visible text
  | SetConfirmLabel text, PConfirm visible _ => PConfirm visible text
  | SetFraction fraction, _ => PFraction fraction
  | _, p => p
  end.

(** The toolkit, and what the window relies on: a call changes its own part, as
    documented, and no other. *)
Class Toolkit := {
  screen : Type;
  screen_new : screen;
  perform : screen → Call → screen;
  part : Target → screen → Part;
}.
Class ToolkitLaws `{Toolkit} : Prop := {
  part_new t : part t screen_new = initial t;
  part_perform t s call : part t (perform s call) = if decide (target call = t) then effect (part t s) call else part t s;
}.

(** Drawing everything, without asking what has changed. *)
Definition model_rows (g : EtleGui) (l : ListWidget) : list Row :=
  match l with
  | SeedList => seed_rows (seed_files (g_seed g))
  | LibraryList => library_rows (shares (g_shelf g))
  | TransferList => transfer_rows (transfers (g_tasks g))
  end.
Definition redrawn (g : EtleGui) (t : Target) : Part :=
  match t with
  | ToStatus => PText (status_text g)
  | ToControls => PNothing
  | ToRows l => PRows (model_rows g l)
  | ToDetail => PText (selected_share_detail (g_shelf g))
  | ToConfirm =>
      match pending_delete_share_summary (g_shelf g) with
      | Some share => PConfirm true (confirm_text share)
      | None => PConfirm false ""
      end
  | ToFraction => PFraction (progress_fraction (g_tasks g))
  | ToProgress => PText (latest_progress (g_tasks g))
  | ToActivity => PText (activity_text (g_log g))
  end.

(** Updates of the view, one after each message, whatever the user did to the controls in between. *)
Definition view_step `{Toolkit} (s : screen * Cells) (x : EtleGui * Controls) : screen * Cells :=
  let (calls, cells) := update_view x.1 x.2 s.2 in (foldl perform s.1 calls, cells).
Definition view_run `{Toolkit} (xs : list (EtleGui * Controls)) : screen * Cells := foldl view_step (screen_new, Cells_new) xs.

(** ** The calls by what they change *)
Lemma part_calls `{ToolkitLaws} t s calls :
  part t (foldl perform s calls) = foldl effect (part t s) (filter (λ call, target call = t) calls).
Proof.
  revert s. induction calls as [|call calls IH]; intros s; [done|]. cbn [foldl]. rewrite IH, part_perform.
  destruct (decide (target call = t)); [by rewrite filter_cons_True|by rewrite filter_cons_False].
Qed.

(** The calls of an update, in blocks. *)
Definition view_blocks (g : EtleGui) (c : Controls) (cells : Cells) : list (Target * list Call) :=
  [(ToStatus, [SetStatusLabel (status_text g)]);
   (ToControls, sync_spin g c SeedChunkSpin ++ sync_spin g c ParallelSpin ++ sync_spin g c RequestWindowSpin
     ++ sync_spin g c DiscoveryPortSpin ++ sync_spin g c DiscoveryTimeoutSpin
     ++ sync_check g c ResumeCheck ++ sync_check g c AutoRefreshCheck ++ sync_check g c ClearActivityCheck
     ++ sync_spin g c RefreshIntervalSpin ++ sync_spin g c ActivityLimitSpin);
   (ToRows SeedList, if_changed (seed_cell cells) (seed_signature (seed_files (g_seed g))) (refill_seed_list (seed_files (g_seed g))));
   (ToRows LibraryList, if_changed (library_cell cells) (library_signature (shares (g_shelf g))) (refill_library_list (shares (g_shelf g))));
   (ToDetail, if_changed (detail_cell cells) (selected_share_detail (g_shelf g)) [SetDetail (selected_share_detail (g_shelf g))]);
   (ToConfirm, confirm_calls (g_shelf g));
   (ToRows TransferList, if_changed (transfer_cell cells) (transfer_signature (transfers (g_tasks g))) (refill_transfer_list (transfers (g_tasks g))));
   (ToFraction, SetFraction (progress_fraction (g_tasks g)) ::
      (if f64_is_zero (progress_fraction (g_tasks g))
          && existsb (λ t, bool_decide (gt_status t = Running ∧ gt_total_bytes t = 0)) (transfers (g_tasks g))
       then [Pulse] else []));
   (ToProgress, [SetProgressLabel (latest_progress (g_tasks g))]);
   (ToActivity, if_changed (activity_cell cells) (activity_text (g_log g)) [SetActivity (activity_text (g_log g))])].

Lemma update_view_blocks g c cells : (update_view g c cells).1 = concat (snd <$> view_blocks g c cells).
Proof. unfold update_view, view_blocks. cbn [fst snd fmap list_fmap concat]. rewrite app_nil_r, <- !app_assoc. reflexivity. Qed.

Definition tagged (b : Target * list Call) : Prop := Forall (λ call, target call = b.1) b.2.

Lemma tagged_if_changed t cell next draw : tagged (t, draw) → tagged (t, if_changed cell next draw).
Proof. unfold tagged, if_changed. cbn. intros Hd. by case_decide. Qed.
Lemma tagged_refill l rows : tagged (ToRows l, refill l rows).
Proof.
  unfold tagged, refill. cbn [fst snd]. constructor; [done|]. apply Forall_forall.
  by intros call (row & -> & _)%list_elem_of_fmap.
Qed.
Lemma tagged_spin g c spin : Forall (λ call, target call = ToControls) (sync_spin g c spin).
Proof. unfold sync_spin, set_spin_if_changed. case_match; by repeat constructor. Qed.
Lemma tagged_check g c check : Forall (λ call, target call = ToControls) (sync_check g c check).
Proof. unfold sync_check. case_decide; by repeat constructor. Qed.

Lemma view_blocks_tagged g c cells : Forall tagged (view_blocks g c cells).
Proof.
  unfold view_blocks. rewrite !Forall_cons. split_and!; [| | | | | | | | | |by apply Forall_nil];
    try apply tagged_if_changed; try apply tagged_refill; unfold tagged; cbn [fst snd].
  - by repeat constructor.
  - rewrite !Forall_app. split_and!; first [apply tagged_spin|apply tagged_check].
  - by repeat constructor.
  - unfold confirm_calls. case_match; by repeat constructor.
  - constructor; [done|]. case_match; by repeat constructor.
  - by repeat constructor.
  - by repeat constructor.
Qed.

Lemma filter_tagged t blocks :
  Forall tagged blocks →
  filter (λ call, target call = t) (concat (snd <$> blocks)) = concat (snd <$> filter (λ b, b.1 = t) blocks).
Proof.
  induction 1 as [|[u calls] blocks Hb _ IH]; [done|]. rewrite fmap_cons. cbn [concat snd]. rewrite filter_app, IH.
  unfold tagged in Hb. cbn [fst snd] in Hb. destruct (decide (u = t)) as [->|Hne].
  - rewrite filter_cons_True by done. rewrite fmap_cons. cbn [concat snd]. f_equal. clear IH.
    induction Hb as [|call calls Hc _ IH]; [done|]. by rewrite filter_cons_True, IH.
  - rewrite filter_cons_False by done. replace (filter (λ call, target call = t) calls) with (@nil Call); [done|].
    induction Hb as [|call calls Hc _ IHb]; [done|]. rewrite filter_cons_False; [done|]. by rewrite Hc.
Qed.

Lemma part_view_step `{ToolkitLaws} t s g c :
  part t (view_step s (g, c)).1 = foldl effect (part t s.1) (concat (snd <$> filter (λ b, b.1 = t) (view_blocks g c s.2))).
Proof.
  unfold view_step. destruct (update_view g c s.2) as [calls cells] eqn:Hu. cbn [fst snd]. rewrite Hu. cbn [fst].
  rewrite part_calls. replace calls with (update_view g c s.2).1 by (by rewrite Hu).
  by rewrite update_view_blocks, filter_tagged by apply view_blocks_tagged.
Qed.

(** * Signatures tell what is shown *)

(** Fields between separators. *)
Fixpoint join (c : byte) (fs : list bytes) : bytes :=
  match fs with
  | [] => []
  | [f] => f
  | f :: fs => f ++ c :: join c fs
  end.

Lemma join_cons c f fs : fs ≠ [] → join c (f :: fs) = f ++ c :: join c fs.
Proof. by destruct fs. Qed.

Lemma join_snoc c fs x : fs ≠ [] → join c (fs ++ [x]) = join c fs ++ c :: x.
Proof.
  induction fs as [|f fs IH]; intros Hne; [done|]. destruct fs as [|g fs]; [done|].
  change ((f :: g :: fs) ++ [x]) with (f :: ((g :: fs) ++ [x])). rewrite join_cons by done. rewrite IH by done.
  rewrite (join_cons c f (g :: fs)) by done. by rewrite <- app_assoc.
Qed.

Lemma field_inj_r (c : byte) a b x y : c ∉ x → c ∉ y → a ++ c :: x = b ++ c :: y → a = b ∧ x = y.
Proof.
  intros Hx Hy Heq%(f_equal reverse). rewrite !reverse_app, !reverse_cons, <- !app_assoc in Heq. cbn [app] in Heq.
  apply field_inj in Heq as [Hxy Hab]; [|by rewrite elem_of_reverse..]. by apply (inj reverse) in Hxy, Hab.
Qed.

(** One field may hold the separator: it ends where the fields around it begin. *)
Lemma join_inj_right c x x' post post' :
  length post = length post' → Forall (c ∉.) post → Forall (c ∉.) post' →
  join c (x :: post) = join c (x' :: post') → x = x' ∧ post = post'.
Proof.
  revert post'. induction post as [|p post IH] using rev_ind; intros post' Hlen Hp Hp' Heq.
  { destruct post'; [by split|done]. }
  destruct post' as [|p' post' _] using rev_ind; [rewrite length_app in Hlen; simpl in Hlen; lia|].
  rewrite !length_app in Hlen. apply Forall_app in Hp as [Hp Hpc], Hp' as [Hp' Hpc'].
  rewrite !Forall_singleton in Hpc, Hpc'. rewrite !app_comm_cons, !join_snoc in Heq by done.
  apply field_inj_r in Heq as [Heq ->]; [|done..]. apply IH in Heq as [-> ->]; [done|simpl in Hlen; lia|done..].
Qed.

Lemma join_inj c pre pre' x x' post post' :
  length pre = length pre' → length post = length post' → Forall (c ∉.) pre → Forall (c ∉.) pre' →
  Forall (c ∉.) post → Forall (c ∉.) post' → join c (pre ++ x :: post) = join c (pre' ++ x' :: post') →
  pre = pre' ∧ x = x' ∧ post = post'.
Proof.
  intros Hlen Hlen' Hpre. revert pre' Hlen. induction Hpre as [|p pre Hp _ IH]; intros [|p' pre'] Hlen Hpre' Hpost Hpost' Heq; try done.
  { cbn [app] in Heq. apply join_inj_right in Heq as [-> ->]; done. }
  apply Forall_cons in Hpre' as [Hp' Hpre']. cbn [app] in Heq. rewrite !join_cons in Heq by (by intros [_ ?]%app_nil).
  apply field_inj in Heq as [-> Heq]; [|done..]. apply IH in Heq as (-> & -> & ->); [done|simpl in Hlen; lia|done..].
Qed.

(** Lines that are not empty. *)
Definition line_like (c : byte) (f : bytes) : Prop := c ∉ f ∧ f ≠ [].
Lemma join_lines_inj c ls ls' :
  Forall (line_like c) ls → Forall (line_like c) ls' → join c ls = join c ls' → ls = ls'.
Proof.
  intros Hls. revert ls'. induction Hls as [|f ls [Hf Hne] Hls IH]; intros ls' Hls' Heq.
  - destruct Hls' as [|f' ls' [Hf' Hne'] _]; [done|]. exfalso. symmetry in Heq. destruct ls' as [|g ls']; [done|].
    rewrite join_cons in Heq by done. by apply app_eq_nil in Heq as [_ ?].
  - destruct Hls' as [|f' ls' [Hf' Hne'] Hls'].
    { exfalso. destruct ls as [|g ls]; [done|]. rewrite join_cons in Heq by done. by apply app_eq_nil in Heq as [_ ?]. }
    destruct ls as [|g ls], ls' as [|g' ls'].
    + cbn in Heq. by subst.
    + cbn [join] in Heq. exfalso. apply Hf. rewrite Heq. apply elem_of_app. right. left.
    + cbn [join] in Heq. exfalso. apply Hf'. rewrite <- Heq. apply elem_of_app. right. left.
    + rewrite !join_cons in Heq by done. apply field_inj in Heq as [-> Heq]; [|done..]. f_equal. by apply IH.
Qed.

Lemma str_bytes_lines l : str_bytes (String.concat newline l) = join Byte.x0a (str_bytes <$> l).
Proof.
  induction l as [|s l IH]; [done|]. destruct l as [|s' l]; [done|].
  change (String.concat newline (s :: s' :: l)) with (s +:+ newline +:+ String.concat newline (s' :: l)).
  rewrite !str_bytes_app, IH. reflexivity.
Qed.

Lemma lines_inj {A} (P : A → Prop) (f : A → string) l l' :
  (∀ a, P a → line_like Byte.x0a (str_bytes (f a))) → Forall P l → Forall P l' →
  String.concat newline (f <$> l) = String.concat newline (f <$> l') → f <$> l = f <$> l'.
Proof.
  intros Hf Hl Hl' Heq%(f_equal str_bytes). rewrite !str_bytes_lines in Heq.
  assert (∀ l, Forall P l → Forall (line_like Byte.x0a) (str_bytes <$> (f <$> l))) as Hall.
  { intros k Hk. rewrite !Forall_fmap. eapply Forall_impl; [done|]. intros a. apply Hf. }
  apply join_lines_inj in Heq; [|by apply Hall..]. revert Heq. generalize (f <$> l), (f <$> l'). clear.
  intros k. induction k as [|s k IH]; intros [|s' k'] Heq; try done. injection Heq as Hs Heq. f_equal; [by apply str_bytes_inj|by apply IH].
Qed.

(** The texts for which signatures tell everything: no line ends; no colon in the
    fields of a transfer that are shown, nor in the mode of a share. *)
Definition no_byte (c : byte) (s : string) : Prop := c ∉ str_bytes s.
Global Instance no_byte_dec c s : Decision (no_byte c s).
Proof. unfold no_byte. apply _. Defined.
Definition colon : byte := Byte.x3a.
Definition line_feed : byte := Byte.x0a.
Definition plain_file (file : string) : Prop := file ≠ ""%string ∧ no_byte line_feed file.
Global Instance plain_file_dec file : Decision (plain_file file).
Proof. unfold plain_file. apply _. Defined.
Definition plain_share (share : IpcShareSummary) : Prop :=
  no_byte line_feed (is_name share) ∧ 0 ≤ is_completed_chunks share ∧ 0 ≤ is_total_chunks share
  ∧ from_option (λ mode, mode ≠ ""%string ∧ no_byte colon mode ∧ no_byte line_feed mode) True (is_mode share).
Global Instance plain_share_dec share : Decision (plain_share share).
Proof. unfold plain_share. destruct (is_mode share); apply _. Defined.
Definition plain_transfer (t : GuiTransfer) : Prop :=
  no_byte line_feed (gt_id t) ∧ no_byte line_feed (gt_label t) ∧ no_byte line_feed (gt_detail t)
  ∧ no_byte colon (gt_label t) ∧ no_byte colon (gt_detail t)
  ∧ 0 ≤ gt_completed_chunks t ∧ 0 ≤ gt_total_chunks t ∧ 0 ≤ gt_bytes_done t ∧ 0 ≤ gt_total_bytes t ∧ 0 ≤ gt_bytes_per_second t.
Global Instance plain_transfer_dec t : Decision (plain_transfer t).
Proof. unfold plain_transfer. apply _. Defined.
Definition plain_model (g : EtleGui) : Prop :=
  Forall plain_file (seed_files (g_seed g)) ∧ Forall plain_share (shares (g_shelf g)) ∧ Forall plain_transfer (transfers (g_tasks g)).

Global Instance plain_model_dec g : Decision (plain_model g).
Proof. unfold plain_model. apply _. Defined.

Lemma dec_no_byte c n : 0 ≤ n → (byte_val c < 48 ∨ 58 ≤ byte_val c) → no_byte c (dec n).
Proof. apply digits_no_byte. Qed.
Lemma id_no_byte c id : c ∈ [colon; line_feed] → no_byte c (ShareId_to_string id).
Proof.
  intros Hc Hin. unfold ShareId_to_string in Hin. rewrite str_bytes_of_list in Hin. unfold write_hex in Hin.
  apply list_elem_of_In, in_concat in Hin as (l & Hl & Hin). apply list_elem_of_In, list_elem_of_fmap in Hl as (b & -> & _).
  apply list_elem_of_In in Hin. revert Hin. rewrite !elem_of_cons, elem_of_nil in Hc.
  destruct b, Hc as [->|[->|[]]]; by_decide.
Qed.

(** A share's signature, in fields. *)
Definition share_signature_fields (s : IpcShareSummary) : list bytes :=
  str_bytes <$> [ShareId_to_string (is_share_id s); is_name s; default "" (is_mode s); dec (is_completed_chunks s);
                 dec (is_total_chunks s); show_flag (is_has_secret s)]%string.
Lemma share_signature_bytes s : str_bytes (share_signature s) = join colon (share_signature_fields s).
Proof. unfold share_signature, share_signature_fields. rewrite !str_bytes_app. reflexivity. Qed.

Definition transfer_signature_fields (t : GuiTransfer) : list bytes :=
  str_bytes <$> [gt_id t; kind_label (gt_kind t); gt_label t; status_label (gt_status t);
                 from_option ShareId_to_string "" (gt_share_id t); dec (gt_completed_chunks t); dec (gt_total_chunks t);
                 dec (gt_bytes_done t); dec (gt_total_bytes t); dec (gt_bytes_per_second t); gt_detail t]%string.
Lemma transfer_signature_bytes t : str_bytes (one_transfer_signature t) = join colon (transfer_signature_fields t).
Proof. unfold one_transfer_signature, transfer_signature_fields. rewrite !str_bytes_app. reflexivity. Qed.

Lemma join_no_byte c sep fs : c ≠ sep → Forall (c ∉.) fs → c ∉ join sep fs.
Proof.
  intros Hne. induction 1 as [|f fs Hf Hfs IH]; [apply not_elem_of_nil|]. destruct fs as [|g fs]; [done|].
  rewrite join_cons by done. rewrite not_elem_of_app, not_elem_of_cons. done.
Qed.
Lemma join_not_nil sep f g fs : join sep (f :: g :: fs) ≠ [].
Proof. rewrite join_cons by done. by intros [_ ?]%app_eq_nil. Qed.

Lemma show_flag_no_byte c b : c ∈ [colon; line_feed] → no_byte c (show_flag b).
Proof. rewrite !elem_of_cons, elem_of_nil. intros [->|[->|[]]]; destruct b; by_decide. Qed.
Lemma mode_no_byte c s : c ∈ [colon; line_feed] → plain_share s → no_byte c (default "" (is_mode s)).
Proof.
  rewrite !elem_of_cons, elem_of_nil. intros Hc (_ & _ & _ & Hm). destruct (is_mode s) as [m|]; cbn in *.
  - destruct Hc as [->|[->|[]]]; naive_solver.
  - destruct Hc as [->|[->|[]]]; by_decide.
Qed.

Lemma share_signature_line s : plain_share s → line_like line_feed (str_bytes (share_signature s)).
Proof.
  intros Hs. pose proof Hs as (Hname & Hc & Ht & _). rewrite share_signature_bytes. split; [|apply join_not_nil].
  apply join_no_byte; [done|]. unfold share_signature_fields. rewrite !fmap_cons, !Forall_cons. split_and!; try done.
  - apply id_no_byte. right. left.
  - apply mode_no_byte; [right; left|done].
  - apply dec_no_byte; [done|by_decide].
  - apply dec_no_byte; [done|by_decide].
  - apply show_flag_no_byte. right. left.
Qed.

Lemma share_signature_row s s' :
  plain_share s → plain_share s' → share_signature s = share_signature s' → library_row s = library_row s'.
Proof.
  intros Hs Hs' Heq%(f_equal str_bytes). rewrite !share_signature_bytes in Heq.
  assert (∀ s, plain_share s → Forall (colon ∉.) (drop 2 (share_signature_fields s))) as Hpost.
  { intros k Hk. pose proof Hk as (_ & Hc & Ht & _). unfold share_signature_fields. cbn [fmap list_fmap drop]. rewrite !Forall_cons.
    split_and!; [apply mode_no_byte; [left|done]|apply dec_no_byte; [done|by_decide]..|apply show_flag_no_byte; left|by apply Forall_nil]. }
  apply (join_inj colon (take 1 (share_signature_fields s)) (take 1 (share_signature_fields s')) _ _
           (drop 2 (share_signature_fields s)) (drop 2 (share_signature_fields s'))) in Heq; try done; try (by apply Hpost).
  2-3: apply Forall_singleton, id_no_byte; left.
  destruct Heq as (Hid & Hname & Hrest). unfold share_signature_fields in *. cbn [fmap list_fmap take drop] in *.
  injection Hid as Hid. injection Hrest as Hm Hc Ht Hf. apply str_bytes_inj in Hid, Hname, Hm, Hc, Ht, Hf.
  apply ShareId_to_string_inj in Hid. destruct Hs as (_ & ? & ? & Hmode), Hs' as (_ & ? & ? & Hmode').
  apply dec_inj in Hc, Ht; [|done..].
  assert (is_mode s = is_mode s') as Hmm.
  { destruct (is_mode s) as [m|], (is_mode s') as [m'|]; cbn in *; naive_solver congruence. }
  assert (is_has_secret s = is_has_secret s') as Hsec by (by destruct (is_has_secret s), (is_has_secret s')).
  destruct s, s'. cbn in *. by subst.
Qed.

Lemma transfer_signature_line t : plain_transfer t → line_like line_feed (str_bytes (one_transfer_signature t)).
Proof.
  intros (Hid & Hl & Hd & _ & _ & Hnum). rewrite transfer_signature_bytes. split; [|apply join_not_nil].
  apply join_no_byte; [done|]. unfold transfer_signature_fields. rewrite !fmap_cons, !Forall_cons.
  destruct_and! Hnum. split_and!; try done; try (apply dec_no_byte; [done|by_decide]).
  - destruct (gt_kind t); by_decide.
  - destruct (gt_status t); by_decide.
  - destruct (gt_share_id t); cbn [from_option]; [apply id_no_byte; right; left|by_decide].
Qed.

Lemma transfer_signature_row t t' :
  plain_transfer t → plain_transfer t' → one_transfer_signature t = one_transfer_signature t' → transfer_row t = transfer_row t'.
Proof.
  intros Ht Ht' Heq%(f_equal str_bytes). rewrite !transfer_signature_bytes in Heq.
  assert (∀ t, plain_transfer t → Forall (colon ∉.) (drop 1 (transfer_signature_fields t))) as Hpost.
  { intros k (_ & _ & _ & Hl & Hd & Hnum). unfold transfer_signature_fields. cbn [fmap list_fmap drop]. rewrite !Forall_cons.
    destruct_and! Hnum. split_and!; try done; try (apply dec_no_byte; [done|by_decide]).
    - destruct (gt_kind k); by_decide.
    - destruct (gt_status k); by_decide.
    - destruct (gt_share_id k); cbn [from_option]; [apply id_no_byte; left|by_decide]. }
  apply (join_inj_right colon _ _ (drop 1 (transfer_signature_fields t)) (drop 1 (transfer_signature_fields t'))) in Heq;
    try done; try (by apply Hpost).
  destruct Heq as (_ & Hrest). unfold transfer_signature_fields in Hrest. cbn [fmap list_fmap drop] in Hrest.
  injection Hrest as Hk Hl Hst _ Hc Htc Hb Htb Hbps Hd. apply str_bytes_inj in Hk, Hl, Hst, Hc, Htc, Hb, Htb, Hbps, Hd.
  destruct Ht as (_ & _ & _ & _ & _ & ? & ? & ? & ? & ?), Ht' as (_ & _ & _ & _ & _ & ? & ? & ? & ? & ?).
  apply dec_inj in Hc, Htc, Hb, Htb, Hbps; [|done..].
  assert (gt_kind t = gt_kind t') as Hkind by (by destruct (gt_kind t), (gt_kind t')).
  assert (gt_status t = gt_status t') as Hstatus by (by destruct (gt_status t), (gt_status t')).
  unfold transfer_row, compact_line, transfer_fraction. rewrite Hl, Hc, Htc, Hb, Htb, Hbps, Hd, Hkind, Hstatus. reflexivity.
Qed.

(** * The view of a run *)
Definition cell_of (cells : Cells) (l : ListWidget) : string :=
  match l with SeedList => seed_cell cells | LibraryList => library_cell cells | TransferList => transfer_cell cells end.
Definition model_signature (g : EtleGui) (l : ListWidget) : string :=
  match l with
  | SeedList => seed_signature (seed_files (g_seed g))
  | LibraryList => library_signature (shares (g_shelf g))
  | TransferList => transfer_signature (transfers (g_tasks g))
  end.
Definition model_empty (g : EtleGui) (l : ListWidget) : bool :=
  match l with
  | SeedList => bool_decide (seed_files (g_seed g) = [])
  | LibraryList => bool_decide (shares (g_shelf g) = [])
  | TransferList => bool_decide (transfers (g_tasks g) = [])
  end.

Lemma fmap_determined {A B C} (P : A → Prop) (f : A → B) (h : A → C) l l' :
  (∀ a b, P a → P b → f a = f b → h a = h b) → Forall P l → Forall P l' → f <$> l = f <$> l' → h <$> l = h <$> l'.
Proof.
  intros Hf Hl. revert l'. induction Hl as [|a l Ha _ IH]; intros [|b l'] Hl' Heq; try done.
  apply Forall_cons in Hl' as [Hb Hl']. injection Heq as Hab Heq. rewrite !fmap_cons. f_equal; [by apply Hf|by apply IH].
Qed.

(** A list of items with their signatures and rows. *)
Lemma signature_rows {A} (P : A → Prop) (f : A → string) (row : A → Row) (placeholder : list Row) l l' :
  (∀ a, P a → line_like Byte.x0a (str_bytes (f a))) → (∀ a b, P a → P b → f a = f b → row a = row b) →
  Forall P l → Forall P l' → String.concat newline (f <$> l) = String.concat newline (f <$> l') →
  (match l with [] => placeholder | _ => row <$> l end) = (match l' with [] => placeholder | _ => row <$> l' end)
  ∧ (l = [] ↔ l' = []).
Proof.
  intros Hline Hrow Hl Hl' Heq. apply (lines_inj P) in Heq; [|done..].
  pose proof (fmap_determined P f row l l' Hrow Hl Hl' Heq) as Hrows. by destruct l, l'.
Qed.

Lemma file_line file : plain_file file → line_like Byte.x0a (str_bytes (id file)).
Proof. intros [Hne Hn]. split; [done|]. intros Hnil. apply Hne. by apply str_bytes_inj. Qed.

Lemma model_signature_rows l g g' :
  plain_model g → plain_model g' → model_signature g l = model_signature g' l →
  model_rows g l = model_rows g' l ∧ model_empty g l = model_empty g' l.
Proof.
  intros (Hf & Hs & Ht) (Hf' & Hs' & Ht') Heq. destruct l; cbn [model_signature model_rows model_empty] in *.
  - unfold seed_signature in Heq. rewrite <- (list_fmap_id (seed_files (g_seed g))), <- (list_fmap_id (seed_files (g_seed g'))) in Heq.
    destruct (signature_rows plain_file id seed_row [[MutedLabel "No files queued. Add files with Browse or paste a path and press Enter."]]
      _ _ file_line ltac:(intros a b _ _ Hab; cbn in Hab; by rewrite Hab) Hf Hf' Heq) as [Hr He]. split; [exact Hr|by apply bool_decide_ext].
  - destruct (signature_rows plain_share share_signature library_row [[MutedLabel "No shares in this daemon library."]]
      _ _ share_signature_line share_signature_row Hs Hs' Heq) as [Hr He]. split; [exact Hr|by apply bool_decide_ext].
  - destruct (signature_rows plain_transfer one_transfer_signature transfer_row [[MutedLabel "No transfer yet."]]
      _ _ transfer_signature_line transfer_signature_row Ht Ht' Heq) as [Hr He]. split; [exact Hr|by apply bool_decide_ext].
Qed.

(** Only the empty list has the empty signature. *)
Lemma model_signature_empty l g : plain_model g → model_signature g l = ""%string ↔ model_empty g l = true.
Proof.
  intros Hg. set (g0 := mkEtleGui (g_link g) (g_log g) (mkShelf None None []) (set_transfers [] (g_tasks g))
                          (set_seed_files [] None (g_seed g)) (g_download g)).
  split.
  - intros Hs. destruct (model_signature_rows l g g0) as [_ ->]; [done|by split_and!|by destruct l|by destruct l].
  - destruct l; cbn [model_empty model_signature]; intros ->%bool_decide_eq_true; reflexivity.
Qed.

Lemma refill_shows l rows p : foldl effect p (refill l rows) = PRows rows.
Proof.
  unfold refill. cbn [foldl effect]. change rows with ([] ++ rows) at 2. generalize (@nil Row) as before.
  induction rows as [|row rows IH]; intros before; [by rewrite app_nil_r|]. rewrite fmap_cons. cbn [foldl effect].
  rewrite IH. by rewrite <- app_assoc.
Qed.

Section screen.
Context `{ToolkitLaws}.

Ltac pick_block :=
  unfold view_blocks; repeat first [rewrite filter_cons_True by done | rewrite filter_cons_False by done];
  rewrite ?filter_nil; rewrite ?fmap_cons, ?fmap_nil; cbn [snd concat]; rewrite ?app_nil_r.

Lemma rows_view_step l s g c :
  part (ToRows l) (view_step s (g, c)).1
  = if decide (cell_of s.2 l ≠ model_signature g l) then PRows (model_rows g l) else part (ToRows l) s.1.
Proof.
  rewrite part_view_step.
  assert (concat (snd <$> filter (λ b, b.1 = ToRows l) (view_blocks g c s.2))
          = if_changed (cell_of s.2 l) (model_signature g l) (refill l (model_rows g l))) as ->.
  { destruct l; pick_block; reflexivity. }
  unfold if_changed. case_decide; [|done]. apply refill_shows.
Qed.

Lemma view_run_snoc xs x : view_run (xs ++ [x]) = view_step (view_run xs) x.
Proof. unfold view_run. by rewrite foldl_app. Qed.

Lemma view_step_cells s g c :
  (view_step s (g, c)).2 = mkCells (library_signature (shares (g_shelf g))) (seed_signature (seed_files (g_seed g)))
    (transfer_signature (transfers (g_tasks g))) (selected_share_detail (g_shelf g)) (activity_text (g_log g)).
Proof. reflexivity. Qed.

(** No model so far had an entry in the list. *)
Definition never_filled (xs : list (EtleGui * Controls)) (l : ListWidget) : bool := forallb (λ x, model_empty x.1 l) xs.

Lemma view_run_rows xs g c l :
  Forall (λ x, plain_model x.1) (xs ++ [(g, c)]) →
  part (ToRows l) (view_run (xs ++ [(g, c)])).1 = PRows (if never_filled (xs ++ [(g, c)]) l then [] else model_rows g l).
Proof.
  revert g c. induction xs as [|[g' c'] xs IH] using rev_ind; intros g c Hall.
  - cbn [app]. change (view_run [(g, c)]) with (view_step (screen_new, Cells_new) (g, c)). rewrite rows_view_step. cbn [fst snd]. rewrite part_new. cbn [fst snd].
    apply Forall_cons in Hall as [Hall _]. cbn [fst] in Hall. pose proof (model_signature_empty l g Hall) as Hempty.
    assert (cell_of Cells_new l = ""%string) as -> by (by destruct l). unfold never_filled. cbn [forallb fst].
    rewrite andb_true_r. destruct (model_empty g l).
    + by rewrite (proj2 Hempty), decide_False by auto.
    + rewrite decide_True; [done|]. intros Heq. symmetry in Heq. by apply Hempty in Heq.
  - rewrite view_run_snoc, rows_view_step. apply Forall_app in Hall as [Hxs Hg]. apply Forall_cons in Hg as [Hg _]. cbn [fst] in Hg.
    rewrite IH by done. apply Forall_app in Hxs as [_ Hg']. apply Forall_cons in Hg' as [Hg' _]. cbn [fst] in Hg'.
    assert (cell_of (view_run (xs ++ [(g', c')])).2 l = model_signature g' l) as ->.
    { rewrite view_run_snoc, view_step_cells. by destruct l. }
    assert (never_filled ((xs ++ [(g', c')]) ++ [(g, c)]) l = never_filled (xs ++ [(g', c')]) l && model_empty g l) as Hnf.
    { unfold never_filled. rewrite forallb_app. cbn [forallb fst]. by rewrite andb_true_r. }
    rewrite Hnf. case_decide as Hne.
    + destruct (never_filled (xs ++ [(g', c')]) l) eqn:Hn; [|done]. cbn [andb].
      destruct (model_empty g l) eqn:He; [|done]. exfalso. apply Hne.
      apply model_signature_empty in He; [|done]. rewrite He. apply model_signature_empty; [done|].
      unfold never_filled in Hn. rewrite forallb_app in Hn. apply andb_true_iff in Hn as [_ Hn]. cbn in Hn.
      by rewrite andb_true_r in Hn.
    + destruct (model_signature_rows l g' g) as [Hr He]; [done..|]. rewrite Hr, <- He.
      destruct (never_filled (xs ++ [(g', c')]) l) eqn:Hn; [|done]. cbn [andb].
      unfold never_filled in Hn. rewrite forallb_app in Hn. apply andb_true_iff in Hn as [_ Hn]. cbn in Hn.
      rewrite andb_true_r in Hn. by rewrite Hn.
Qed.

(** The other parts: always drawn, or whenever they differ from the cell. *)
Definition is_text (t : Target) : Prop := match t with ToRows _ | ToControls => False | _ => True end.
Definition follows (s : screen * Cells) : Prop :=
  part ToDetail s.1 = PText (detail_cell s.2) ∧ part ToActivity s.1 = PText (activity_cell s.2)
  ∧ ∃ visible text, part ToConfirm s.1 = PConfirm visible text.
Lemma texts_view_step t s g c : is_text t → follows s → part t (view_step s (g, c)).1 = redrawn g t.
Proof.
  intros Ht (Hd & Ha & visible & text & Hconf). rewrite part_view_step. destruct t; cbn [is_text] in Ht; try done; pick_block; cbn [redrawn].
  - unfold if_changed. case_decide as Hne; [done|]. cbn [foldl]. rewrite Hd. by rewrite Hne.
  - rewrite Hconf. unfold confirm_calls. by case_match.
  - by case_match.
  - unfold if_changed. case_decide as Hne; [done|]. cbn [foldl]. rewrite Ha. by rewrite Hne.
Qed.

Lemma view_run_follows xs : follows (view_run xs).
Proof.
  induction xs as [|[g c] xs IH] using rev_ind.
  - unfold follows, view_run. cbn [foldl fst snd]. rewrite !part_new. split_and!; [done|done|by do 2 eexists].
  - rewrite view_run_snoc. unfold follows. rewrite !texts_view_step by done. rewrite view_step_cells. cbn [redrawn].
    split_and!; [done|done|]. case_match; by do 2 eexists.
Qed.
End screen.

(** A control that shows its value is left alone. *)
Lemma set_spin_same spin x : set_spin_if_changed spin x x = [].
Proof.
  unfold set_spin_if_changed. destruct x as [[]|[]| |[] m e]; try done.
  all: cbn [SFsub]; by rewrite Z.sub_diag.
Qed.

(** The controls show the model. *)
Definition controls_show (g : EtleGui) (c : Controls) : Prop :=
  (∀ spin, spin_value c spin = f64_of_Z (model_spin g spin)) ∧ ∀ check, check_active c check = model_check g check.

Lemma if_changed_same x draw : if_changed x x draw = [].
Proof. unfold if_changed. by rewrite decide_False by auto. Qed.

Lemma quiet_update `{Toolkit} s g c c' :
  controls_show g c' →
  Forall (λ call, target call ∈ [ToStatus; ToConfirm; ToFraction; ToProgress]) (update_view g c' (view_step s (g, c)).2).1.
Proof.
  intros [Hspin Hcheck]. rewrite view_step_cells. unfold update_view. cbn [fst].
  assert (∀ spin, sync_spin g c' spin = []) as Hs by (intros spin; unfold sync_spin; rewrite Hspin; apply set_spin_same).
  assert (∀ check, sync_check g c' check = []) as Hc by (intros check; unfold sync_check; by rewrite Hcheck, decide_False by auto).
  rewrite !Hs, !Hc. cbn [seed_cell library_cell transfer_cell detail_cell activity_cell]. rewrite !if_changed_same. cbn [app].
  unfold confirm_calls. repeat case_match; repeat constructor.
Qed.

(** C35: the screen always shows the model, whatever the user did to the controls. After
    any run of updates, where the texts have no line ends and no colons in the places
    named by [plain_model], every label, buffer, bar and list is as a redrawing of the
    last model from nothing would leave it, though the lists and the two buffers are
    touched only when a signature or a text changed; except that a list that was empty all along
    has no row, not even the one that says it is empty. Another update of the same model
    leaves every list, both buffers and every control that shows it alone. *)
Theorem view_faithful `{ToolkitLaws} (xs : list (EtleGui * Controls)) (g : EtleGui) (c : Controls) :
  Forall (λ x, plain_model x.1) (xs ++ [(g, c)]) →
  (∀ t, t ≠ ToControls →
     part t (view_run (xs ++ [(g, c)])).1
     = match t with
       | ToRows l => if never_filled (xs ++ [(g, c)]) l then PRows [] else redrawn g t
       | _ => redrawn g t
       end)
  ∧ ∀ c', controls_show g c' →
      Forall (λ call, target call ∈ [ToStatus; ToConfirm; ToFraction; ToProgress]) (update_view g c' (view_run (xs ++ [(g, c)])).2).1.
Proof.
  intros Hall. split; [|rewrite view_run_snoc; intros c'; apply quiet_update]. pose proof (view_run_follows xs) as Hf.
  intros t Ht. pose proof (λ l, view_run_rows xs g c l Hall) as Hrows.
  destruct t as [| |l| | | | |]; [|done| |..]; try (rewrite view_run_snoc; by apply texts_view_step).
  rewrite Hrows. by destruct (never_filled _ _).
Qed.

(** * What the controls send ([init] of [app.rs] and the pages of [widgets.rs]) *)

(** The text of each entry. *)
Record Entries := mkEntries {
  socket_entry : string;
  seed_entry : string;
  share_id_entry : string;
  peers_entry : string;
  output_entry : string;
  psk_entry : string;
  discovery_multicast_entry : string;
  settings_socket_entry : string;
  settings_psk_entry : string;
}.
Definition set_seed_entry (text : string) (e : Entries) : Entries :=
  mkEntries (socket_entry e) text (share_id_entry e) (peers_entry e) (output_entry e) (psk_entry e)
    (discovery_multicast_entry e) (settings_socket_entry e) (settings_psk_entry e).
Definition set_output_entry (text : string) (e : Entries) : Entries :=
  mkEntries (socket_entry e) (seed_entry e) (share_id_entry e) (peers_entry e) text (psk_entry e)
    (discovery_multicast_entry e) (settings_socket_entry e) (settings_psk_entry e).

(** As [init] fills them in. *)
Definition init_entries (g : EtleGui) : Entries :=
  mkEntries (socket_draft (g_link g)) "" "" "" "" "" (text_str (ipv4_text (df_discovery_multicast (g_download g))))
    (socket_draft (g_link g)) (df_auth_psk (g_download g)).

(** [SpinButton::with_range] *)
Definition spin_range (spin : Spin) : Z * Z :=
  match spin with
  | SeedChunkSpin => (1, 1073741824)
  | ParallelSpin => (0, 128)
  | RequestWindowSpin => (1, 2048)
  | DiscoveryPortSpin => (1, 65535)
  | DiscoveryTimeoutSpin => (1, 120000)
  | RefreshIntervalSpin => (1, 60)
  | ActivityLimitSpin => (20, 2000)
  end.

Inductive HeaderButton := ApplySocketButton | ConnectButton | RefreshButton | WatchButton.
Inductive LibraryButton := CopyButton | DeleteButton | CancelDeleteButton | ConfirmDeleteButton | ClearFinishedButton.
Inductive SeedButton := AddButton | BrowseButton | SeedSelectedButton | RemoveButton | ClearButton.
Inductive DownloadButton := OutputButton | StartButton.
Inductive ActivityButton := ClearLogButton | ClearCompletedButton.
Inductive SettingsButton := SettingsApplySocketButton | ApplySettingsButton | PingButton | RefreshNowButton | StartWatchButton.
Inductive Entry :=
  | SocketEntry | SeedEntry | ShareIdEntry | PeersEntry | OutputEntry | MulticastEntry | PskEntry
  | SettingsSocketEntry | SettingsPskEntry.

Inductive Signal :=
  | HeaderClicked (b : HeaderButton)
  | LibraryClicked (b : LibraryButton)
  | SeedClicked (b : SeedButton)
  | DownloadClicked (b : DownloadButton)
  | ActivityClicked (b : ActivityButton)
  | SettingsClicked (b : SettingsButton)
  | Activated (e : Entry)
  | RowSelected (l : ListWidget) (index : option Z)
  (** the spin's [value_as_int] *)
  | ValueChanged (spin : Spin) (value : Z)
  | Toggled (check : CheckBox) (active : bool).

Definition spin_message (spin : Spin) (value : Z) : AppInput :=
  match spin with
  | SeedChunkSpin => SetSeedChunkSize (Z.max value 1)
  | ParallelSpin => SetParallelism (Z.max value 0)
  | RequestWindowSpin => SetRequestWindow (Z.max value 1)
  | DiscoveryPortSpin => SetDiscoveryPort (Z.max 1 (Z.min value 65535))
  | DiscoveryTimeoutSpin => SetDiscoveryTimeout (Z.max value 1)
  | RefreshIntervalSpin => SetRefreshInterval (Z.max value 1)
  | ActivityLimitSpin => SetActivityLimit (Z.to_nat (Z.max value 20))
  end.
Definition check_message (check : CheckBox) (active : bool) : AppInput :=
  match check with
  | ResumeCheck => SetResume active
  | AutoRefreshCheck => SetAutoRefresh active
  | ClearActivityCheck => SetClearActivityOnTask active
  end.
(** [send_download] and [apply] *)
Definition send_download (e : Entries) : AppInput :=
  StartDownloadFromForm (share_id_entry e) (peers_entry e) (output_entry e) (psk_entry e) (discovery_multicast_entry e).
Definition send_settings (e : Entries) : AppInput := ApplySettings (settings_socket_entry e) (settings_psk_entry e).

Definition header_clicked (b : HeaderButton) (e : Entries) : AppInput :=
  match b with
  | ApplySocketButton => ApplySocketText (socket_entry e)
  | ConnectButton => Connect
  | RefreshButton => Refresh
  | WatchButton => StartWatch
  end.
Definition library_clicked (b : LibraryButton) : AppInput :=
  match b with
  | CopyButton => CopySelectedShareId
  | DeleteButton => DeleteSelectedShare
  | CancelDeleteButton => CancelDeleteShare
  | ConfirmDeleteButton => ConfirmDeleteSelectedShare
  | ClearFinishedButton => ClearFinishedTransfers
  end.
(** What each button of the seed page does to the entry, and sends. *)
Definition seed_clicked (b : SeedButton) (e : Entries) : AppInput * Entries :=
  match b with
  | AddButton => (AddSeedPathText (seed_entry e), set_seed_entry "" e)
  | BrowseButton => (BrowseSeedFiles, e)
  | SeedSelectedButton => (StartSeedSelected, e)
  | RemoveButton => (RemoveSelectedSeedFile, e)
  | ClearButton => (ClearSeedFiles, e)
  end.
Definition activity_clicked (b : ActivityButton) : AppInput :=
  match b with ClearLogButton => ClearLog | ClearCompletedButton => ClearFinishedTransfers end.
Definition settings_clicked (b : SettingsButton) (e : Entries) : AppInput :=
  match b with
  | SettingsApplySocketButton | ApplySettingsButton => send_settings e
  | PingButton => Connect
  | RefreshNowButton => Refresh
  | StartWatchButton => StartWatch
  end.
Definition row_selected (l : ListWidget) (index : option Z) : list AppInput :=
  match index with
  | Some index =>
      if decide (0 ≤ index) then
        match l with
        | LibraryList => [SelectShare (Z.to_nat index)]
        | SeedList => [SelectSeedFile (Z.to_nat index)]
        | TransferList => []
        end
      else []
  | None => []
  end.

(** [saved] is what the save dialog answers. Pressing Enter in the PSK entry of the
    download page does nothing: it has no handler. *)
Definition on_signal (saved : option string) (signal : Signal) (e : Entries) : list AppInput * Entries :=
  match signal with
  | HeaderClicked b => ([header_clicked b e], e)
  | LibraryClicked b => ([library_clicked b], e)
  | SeedClicked b => let (message, e) := seed_clicked b e in ([message], e)
  | DownloadClicked OutputButton => ([], match saved with Some path => set_output_entry path e | None => e end)
  | DownloadClicked StartButton => ([send_download e], e)
  | ActivityClicked b => ([activity_clicked b], e)
  | SettingsClicked b => ([settings_clicked b e], e)
  | Activated SocketEntry => ([ApplySocketText (socket_entry e)], e)
  | Activated SeedEntry => ([AddSeedPathText (seed_entry e)], set_seed_entry "" e)
  | Activated (ShareIdEntry | PeersEntry | OutputEntry | MulticastEntry) => ([send_download e], e)
  | Activated PskEntry => ([], e)
  | Activated (SettingsSocketEntry | SettingsPskEntry) => ([send_settings e], e)
  | RowSelected l index => (row_selected l index, e)
  | ValueChanged spin value => ([spin_message spin value], e)
  | Toggled check active => ([check_message check active], e)
  end.

(** What [init] sends. *)
Definition init_messages : list AppInput := [Connect; Refresh; StartWatch].

(** ** Spin buttons *)

(** [value_as_int], and the value a button holds after [set_value], which GTK keeps in
    the button's range. *)
Class SpinButton := {
  value_as_int : f64 → Z;
  set_value : Spin → f64 → f64;
}.
Definition in_range (spin : Spin) (v : Z) : Prop := (spin_range spin).1 ≤ v ≤ (spin_range spin).2.
Class SpinLaws `{SpinButton} (spin : Spin) : Prop := {
  value_as_int_of_Z v : in_range spin v → value_as_int (f64_of_Z v) = v;
  set_value_in_range v : in_range spin v → set_value spin (f64_of_Z v) = f64_of_Z v;
}.

Section controls.
Context (path_from : string → path) (show_addr : socket_addr → string).
Abbreviation upd := (update path_from show_addr).

Definition after_spin (moment : Moment) (spin : Spin) (v : Z) (g : EtleGui) : EtleGui := (upd moment (spin_message spin v) g).1.
Definition after_check (moment : Moment) (check : CheckBox) (b : bool) (g : EtleGui) : EtleGui := (upd moment (check_message check b) g).1.

(** A spin that changed to [x] sends its message, the view is updated, and may set the
    spin, which then has changed again. [None]: the fuel ran out. *)
Fixpoint feedback `{SpinButton} (fuel : nat) (moment : Moment) (spin : Spin) (x : f64) (g : EtleGui) : option (f64 * EtleGui) :=
  match fuel with
  | O => None
  | S fuel =>
      let g := after_spin moment spin (value_as_int x) g in
      match set_spin_if_changed spin x (f64_of_Z (model_spin g spin)) with
      | SetSpin _ y :: _ => feedback fuel moment spin (set_value spin y) g
      | _ => Some (x, g)
      end
  end.

Lemma trim_activity_idem l : trim_activity (trim_activity l) = trim_activity l.
Proof. unfold trim_activity. cbn. f_equal. rewrite length_drop, drop_drop. f_equal. lia. Qed.

Lemma spin_model moment spin v g : in_range spin v → model_spin (after_spin moment spin v g) spin = v.
Proof. unfold in_range. destruct spin; cbn; lia. Qed.
Lemma spin_other moment spin v g other : other ≠ spin → model_spin (after_spin moment spin v g) other = model_spin g other.
Proof. by destruct spin, other. Qed.
Lemma spin_checks moment spin v g check : model_check (after_spin moment spin v g) check = model_check g check.
Proof. by destruct spin, check. Qed.
Lemma spin_again moment spin v g : after_spin moment spin v (after_spin moment spin v g) = after_spin moment spin v g.
Proof.
  destruct spin; try done. unfold after_spin. cbn [spin_message GuiApp.update fst]. unfold set_log. cbn.
  f_equal. rewrite <- (trim_activity_idem (mkLog _ _ (activity (g_log g)) _)). reflexivity.
Qed.
Lemma check_model moment check b g : model_check (after_check moment check b g) check = b.
Proof. by destruct check. Qed.
Lemma check_other moment check b g other : other ≠ check → model_check (after_check moment check b g) other = model_check g other.
Proof. by destruct check, other. Qed.
Lemma check_spins moment check b g spin : model_spin (after_check moment check b g) spin = model_spin g spin.
Proof. by destruct check, spin. Qed.

Lemma set_spin_cases spin x y : set_spin_if_changed spin x y = [] ∨ set_spin_if_changed spin x y = [SetSpin spin y].
Proof. unfold set_spin_if_changed. case_match; auto. Qed.

(** C37: the controls and the model settle. A spin button that changed, by hand or by the
    view, sends its value; the view may correct the button, to a whole number, which
    sends again; and after at most two rounds nothing more is sent. The model then holds
    the value the button shows, which the view leaves alone, and no other setting has
    changed. A check button sets its own option and no other. *)
Theorem controls_settle `{SpinButton} (spin : Spin) (x : f64) (moment : Moment) (g : EtleGui) (fuel : nat) :
  SpinLaws spin → in_range spin (value_as_int x) → (2 ≤ fuel)%nat →
  let g' := after_spin moment spin (value_as_int x) g in
  (∃ y, feedback fuel moment spin x g = Some (y, g') ∧ value_as_int y = value_as_int x
    ∧ ∀ c, spin_value c spin = y → sync_spin g' c spin = [])
  ∧ model_spin g' spin = value_as_int x
  ∧ (∀ other, other ≠ spin → model_spin g' other = model_spin g other) ∧ (∀ check, model_check g' check = model_check g check)
  ∧ ∀ check b, let g' := after_check moment check b g in
      model_check g' check = b ∧ (∀ c, check_active c check = b → sync_check g' c check = [])
      ∧ (∀ other, other ≠ check → model_check g' other = model_check g other) ∧ ∀ other, model_spin g' other = model_spin g other.
Proof.
  intros Hlaws Hr Hfuel g'. destruct fuel as [|[|fuel]]; [lia..|]. pose proof (spin_model moment spin _ g Hr) as Hm.
  split_and!.
  - cbn [feedback]. fold g'. unfold g' at 1. rewrite Hm. fold g'.
    destruct (set_spin_cases spin x (f64_of_Z (value_as_int x))) as [Hset|Hset]; rewrite Hset.
    + exists x. split_and!; [done|done|]. intros c Hc. unfold sync_spin. subst g'. rewrite Hm. rewrite Hc. done.
    + exists (f64_of_Z (value_as_int x)). rewrite set_value_in_range, value_as_int_of_Z by done. unfold g' at 1 2. rewrite spin_again, Hm.
      fold g'. rewrite set_spin_same. split_and!; [done|done|]. intros c Hc. unfold sync_spin. subst g'. rewrite Hm, Hc. apply set_spin_same.
  - done.
  - intros other. apply spin_other.
  - intros check. apply spin_checks.
  - intros check b. cbv zeta. split_and!; [apply check_model| |intros other; apply check_other|intros other; apply check_spins].
    intros c Hc. unfold sync_check. by rewrite check_model, decide_False by (rewrite Hc; auto).
Qed.

(** ** A session on the download page *)

(** The signals in order, each with its messages handled at once; [saved] is what the save
    dialog answers. *)
Definition signal_step (saved : option string) (moment : Moment) (s : Entries * EtleGui * list Effect) (signal : Signal)
    : Entries * EtleGui * list Effect :=
  let '(e, g, effects) := s in
  let (messages, e) := on_signal saved signal e in
  let (g, effects) := foldl (λ s message, let (g, more) := upd moment message s.1 in (g, s.2 ++ more)) (g, effects) messages in
  (e, g, effects).
Definition signal_run (saved : option string) (moment : Moment) (e : Entries) (g : EtleGui) (signals : list Signal)
    : Entries * EtleGui * list Effect :=
  foldl (signal_step saved moment) (e, g, []) signals.

Lemma start_download_ok moment a b c d m g command share_id :
  build_download_command_from path_from (g_download g) a b c d m = Ok (command, share_id) →
  ∃ g', start_download_from_form path_from moment a b c d m g
        = (g', [SpawnIpcCommand (active_socket_path (g_link g)) DownloadRequestKind command])
    ∧ g_download g' = let f := g_download g in
        mkDownloadForm a b c (df_parallelism f) (df_request_window f) (df_discovery_port f) (df_discovery_timeout_ms f)
          (default (df_discovery_multicast f) (parse_ipv4 (str_text m))) (df_resume f) d.
Proof.
  intros Hb. unfold start_download_from_form. rewrite Hb. cbn [g_tasks set_log set_download].
  destruct (bump_seq (g_tasks g)) as [seq tasks]. by eexists.
Qed.

(** The signals that start the download. *)
Definition starts_download : list Signal :=
  [DownloadClicked StartButton; Activated ShareIdEntry; Activated PeersEntry; Activated OutputEntry; Activated MulticastEntry].

(** The settings of the page, in order. *)
Definition page_settings (p w port t : Z) (r : bool) : list Signal :=
  [ValueChanged ParallelSpin p; ValueChanged RequestWindowSpin w; ValueChanged DiscoveryPortSpin port;
   ValueChanged DiscoveryTimeoutSpin t; Toggled ResumeCheck r; DownloadClicked OutputButton].

Lemma page_settings_run saved moment e g p w port t r :
  in_range ParallelSpin p → in_range RequestWindowSpin w → in_range DiscoveryPortSpin port → in_range DiscoveryTimeoutSpin t →
  let f := g_download g in
  signal_run saved moment e g (page_settings p w port t r)
  = (match saved with Some path => set_output_entry path e | None => e end,
     set_download (mkDownloadForm (df_share_id f) (df_peers f) (df_output_path f) p w port t (df_discovery_multicast f) r (df_auth_psk f)) g,
     []).
Proof.
  intros Hp Hw Hport Ht f. unfold in_range in *. cbn [spin_range fst snd] in *.
  assert (Z.max p 0 = p ∧ Z.max w 1 = w ∧ Z.max 1 (Z.min port 65535) = port ∧ Z.max port 1 = port ∧ Z.max t 1 = t)
    as (Ep & Ew & Eport & Eport' & Et) by lia.
  unfold signal_run, page_settings.
  cbn [foldl signal_step on_signal spin_message check_message GuiApp.update fst snd app].
  rewrite Ep, Ew, Ew, Eport, Eport', Et, Et. by destruct saved.
Qed.

(** C36: the download that is asked of the daemon is the one on the page. Whatever the
    model was, once the five settings were changed and the entries hold a printed share
    id, printed peers between commas and white space, and a printed multicast address,
    the button and the Enter key of each of the four entries send one request: with
    that id, those peers, that address, the values of the four spin buttons, afresh
    exactly when resuming is off, with the output path as written, or as it was picked
    in the dialog, and with the passphrase of the form, or else the default one. *)
Theorem download_page_sends (moment : Moment) (g : EtleGui) (e : Entries) (saved : option string) id s peers multicast p w port t r start :
  s ≠ [] → Forall (λ c, peer_separator c = true) s → Forall peer_ok peers → 0 ≤ multicast < 2 ^ 32 →
  in_range ParallelSpin p → in_range RequestWindowSpin w → in_range DiscoveryPortSpin port → in_range DiscoveryTimeoutSpin t →
  share_id_entry e = ShareId_to_string id → peers_entry e = printed_peers s peers →
  discovery_multicast_entry e = text_str (ipv4_text multicast) → start ∈ starts_download →
  let '(e', g', effects) := signal_run saved moment e g
    (page_settings p w port t r ++ [start]) in
  let output := default (output_entry e) saved in
  let psk := match non_empty (str_trim (psk_entry e)) with Some p => Some p | None => non_empty (df_auth_psk (g_download g)) end in
  let request := mkDownloadRequest id ((λ p, SocketAddr (IpV4 p.1) p.2) <$> peers) (path_from <$> non_empty (str_trim output))
                   p w port t multicast psk in
  effects = [SpawnIpcCommand (active_socket_path (g_link g)) DownloadRequestKind (if r then Ipc.Download request else DownloadFresh request)]
  ∧ output_entry e' = output ∧ df_discovery_multicast (g_download g') = multicast
  ∧ model_spin g' ParallelSpin = p ∧ model_spin g' RequestWindowSpin = w ∧ model_spin g' DiscoveryPortSpin = port
  ∧ model_spin g' DiscoveryTimeoutSpin = t ∧ model_check g' ResumeCheck = r.
Proof.
  intros Hne Hs Hpe Hm Hp Hw Hport Ht Hid Hpeers Hmul Hstart.
  assert (on_signal saved start (match saved with Some path => set_output_entry path e | None => e end)
          = ([StartDownloadFromForm (ShareId_to_string id) (printed_peers s peers) (default (output_entry e) saved) (psk_entry e)
                (text_str (ipv4_text multicast))], match saved with Some path => set_output_entry path e | None => e end)) as Hsend.
  { rewrite <- Hid, <- Hpeers, <- Hmul. clear -Hstart. unfold starts_download in Hstart. rewrite !elem_of_cons, elem_of_nil in Hstart.
    by destruct Hstart as [->|[->|[->|[->|[->|[]]]]]], saved. }
  unfold signal_run. rewrite foldl_app. fold (signal_run saved moment e g (page_settings p w port t r)).
  rewrite page_settings_run by done. cbn [foldl]. unfold signal_step. rewrite Hsend. cbn [foldl GuiApp.update fst snd].
  set (f := mkDownloadForm _ _ _ p w port t _ r _). unfold in_range in *. cbn [spin_range fst snd] in *.
  pose proof (build_printed path_from f id s peers multicast (default (output_entry e) saved) (psk_entry e) Hne Hs Hpe Hm) as Hb.
  destruct (start_download_ok moment _ _ _ _ _ (set_download f g) _ _ Hb) as (g' & -> & Hdf). cbn [app].
  assert (parse_ipv4 (str_text (text_str (ipv4_text multicast))) = Some multicast) as Hparse.
  { rewrite str_text_text_str by (by apply visible_scalar, visible_ipv4). by apply parse_ipv4_text. }
  rewrite Hparse in Hdf. cbn [model_spin model_check]. rewrite Hdf. cbn -[Z.max non_empty].
  rewrite !Z.max_l by lia. split_and!; try done. by destruct saved.
Qed.
End controls.

(** * A sample screen *)
Import Toy WireSample StateSample DiskSample DiscoverySample IpcSample GuiSample.
Module ViewSample.
Definition start : EtleGui := EtleGui_new (mkGuiInit "/run/etle.sock" "key" 4 8 4242 3000 (ipv4 239 255 42 99) None) 0 "00:00:00".
Definition share : IpcShareSummary := mkIpcShareSummary share_id "film.mkv" 3 4 true (Some "downloading"%string).
Definition shown (g : EtleGui) : Controls := mkControls (λ spin, f64_of_Z (model_spin g spin)) (model_check g).
Definition filled : EtleGui := set_seed (mkSeedForm "" ["/a.bin"; "/b.bin"]%string None 65536) (set_shelf (mkShelf (Some O) (Some share_id) [share]) start).
Definition emptied : EtleGui := set_seed (mkSeedForm "" [] None 65536) filled.

(** A toolkit that keeps what each part shows. *)
#[export] Instance toolkit : Toolkit :=
  { screen := Target → Part; screen_new := initial;
    perform s call := λ t, if decide (target call = t) then effect (s t) call else s t; part t s := s t }.
#[export] Instance toolkit_laws : ToolkitLaws.
Proof. by split. Qed.

(** A button as GTK documents it: rounded down here, kept in the range. *)
Definition whole (x : f64) : Z :=
  match x with
  | S754_finite false m e => Z.shiftl (Z.pos m) e
  | S754_finite true m e => - Z.shiftl (Z.pos m) e
  | _ => 0
  end.
#[export] Instance button : SpinButton :=
  { value_as_int := whole; set_value spin x := f64_clamp x (f64_of_Z (spin_range spin).1) (f64_of_Z (spin_range spin).2) }.

Lemma refresh_laws : SpinLaws RefreshIntervalSpin.
Proof.
  assert (Forall (λ n, value_as_int (f64_of_Z (Z.of_nat n)) = Z.of_nat n
                       ∧ set_value RefreshIntervalSpin (f64_of_Z (Z.of_nat n)) = f64_of_Z (Z.of_nat n)) (seq 1 60)) as Hall.
  { repeat (constructor; [split; vm_compute; reflexivity|]). constructor. }
  rewrite Forall_forall in Hall. split; unfold in_range; cbn [spin_range fst snd]; intros v Hv;
    destruct (Hall (Z.to_nat v)) as [H1 H2]; try (apply elem_of_seq; lia); by rewrite Z2Nat.id in H1, H2 by lia.
Qed.
End ViewSample.

Section witnesses.
Import ViewSample.

(** The queue is filled and emptied again: it then says that it is empty, where the list
    of transfers, that was never filled, says nothing. *)
Lemma view_faithful_witness :
  let run := view_run ([(start, shown start); (filled, shown start)] ++ [(emptied, shown filled)]) in
  part (ToRows SeedList) run.1 = PRows [[MutedLabel "No files queued. Add files with Browse or paste a path and press Enter."]]
  ∧ part (ToRows TransferList) run.1 = PRows [] ∧ part ToStatus run.1 = PText "offline · 1 share(s)".
Proof.
  intros run.
  assert (Forall (λ x, plain_model x.1) ([(start, shown start); (filled, shown start)] ++ [(emptied, shown filled)])) as Hall.
  { by_decide. }
  destruct (view_faithful [(start, shown start); (filled, shown start)] emptied (shown filled) Hall) as [Hshown _].
  split; [exact (Hshown (ToRows SeedList) ltac:(discriminate))|].
  split; [exact (Hshown (ToRows TransferList) ltac:(discriminate))|].
  etrans; [exact (Hshown ToStatus ltac:(discriminate))|vm_compute; reflexivity].
Defined.

(** The user types 12.5 seconds: the model takes 12, and the button is corrected. *)
Lemma controls_settle_witness :
  let x := S754_finite false 25 (-1) in
  let g' := after_spin path_from show_addr moment RefreshIntervalSpin 12 start in
  value_as_int x = 12 ∧ refresh_interval_secs (g_link g') = 12
  ∧ ∃ y, feedback path_from show_addr 2 moment RefreshIntervalSpin x start = Some (y, g') ∧ value_as_int y = 12.
Proof.
  intros x g'.
  destruct (controls_settle path_from show_addr RefreshIntervalSpin x moment start 2) as [(y & Hf & Hy & _) [Hm _]].
  - apply refresh_laws.
  - by_decide.
  - lia.
  - split; [reflexivity|]. split; [exact Hm|]. exists y. split; [exact Hf|exact Hy].
Defined.

(** The output path is picked in the dialog, and Enter pressed in the field of the peers. *)
Lemma download_page_sends_witness :
  let peers := [(ipv4 192 168 1 5, 7000); (ipv4 10 0 0 1, 7001)] in
  let e := mkEntries "" "" (ShareId_to_string share_id) (printed_peers [44; 32] peers) "" "" (text_str (ipv4_text (ipv4 239 255 42 99)))
             "" "" in
  let '(e', g', effects) := signal_run path_from show_addr (Some "/tmp/out.bin"%string) moment e start
      (page_settings 16 32 4000 500 false ++ [Activated PeersEntry]) in
  effects = [SpawnIpcCommand "/run/etle.sock" DownloadRequestKind
               (DownloadFresh (mkDownloadRequest share_id [SocketAddr (IpV4 (ipv4 192 168 1 5)) 7000; SocketAddr (IpV4 (ipv4 10 0 0 1)) 7001]
                  (Some (path_from "/tmp/out.bin")) 16 32 4000 500 (ipv4 239 255 42 99) (Some "key"%string)))]
  ∧ output_entry e' = "/tmp/out.bin"%string ∧ model_spin g' ParallelSpin = 16.
Proof.
  intros peers e.
  pose proof (download_page_sends path_from show_addr moment start e (Some "/tmp/out.bin"%string) share_id [44; 32] peers
    (ipv4 239 255 42 99) 16 32 4000 500 false (Activated PeersEntry)) as Hrun.
  destruct (signal_run _ _ _ _ _ _ _) as [[e' g'] effects].
  destruct Hrun as (Heffects & Hout & _ & Hp & _); try reflexivity.
  - done.
  - by repeat constructor.
  - unfold peers, peer_ok, u16_range. by_decide.
  - by_decide.
  - unfold in_range. by_decide.
  - unfold in_range. by_decide.
  - unfold in_range. by_decide.
  - unfold in_range. by_decide.
  - unfold starts_download. right. right. left.
  - split; [exact Heffects|]. split; [exact Hout|exact Hp].
Defined.
End witnesses.
