(* ===== verification/Desktop.v ===== *)
(** The graphical client and the daemon together: the threads that carry the client's
    requests and subscriptions to the daemon and its answers back ([src/src/gui/ipc.rs]),
    and what the window shows of an exchange, from the message that asked for it to the
    rows of the library page. *)
From stdpp Require Import base tactics list countable strings gmap.
From Stdlib Require Import ZArith Lia.
From S2P Require Import Prelude Bytes World Text Files Extern Crypto Descriptor Chunker State Library Codec Handshake DownloadState Seed Discovery Config Ipc Output Progress Daemon Server Gui GuiApp GuiProofs Cli View.
Local Open Scope Z_scope.
Local Open Scope etle_scope.

(** * The threads *)
Section threads.
Context `{Bincode IpcCommand, Bincode IpcResponse, Bincode IpcEvent}.
(** [Display for IpcError], and the address a socket path stands for. *)
Context (show_ipc : IpcError → string) (endpoint : string → socket_addr).

(** [spawn_ipc_command]: the message the thread sends. [expired]: the time of the
    request was over before its answer came. *)
Definition spawn_ipc_command {E} (expired : bool) (socket_path : string) (kind : IpcRequestKind) (command : IpcCommand)
    : M World E AppInput :=
  let! outcome := try_ (send_ipc_command (endpoint socket_path) command) in
  ret (command_answer show_ipc socket_path kind (if expired then None else Some outcome)).

(** [spawn_ipc_watch]: the messages the thread sends. *)
Definition spawn_ipc_watch {E} (socket_path : string) (generation : Z) : M World E (list AppInput) := λ w,
  match subscribe_ipc_events (endpoint socket_path) (w, []) with
  | (outcome, (w, events)) =>
      (Ok ((OnIpcEvent generation <$> events)
           ++ match outcome with Err error => [IpcWatchStopped generation (show_ipc error)] | _ => [] end), w)
  end.
End threads.

(** The ticks of [spawn_auto_refresh_loop] in [seconds]. *)
Definition auto_refresh_ticks (seconds : nat) : list AppInput := replicate seconds AutoRefreshTick.

(** * What is asked *)

(** The kind of each command the window sends. *)
Definition request_kind (command : IpcCommand) : option IpcRequestKind :=
  match command with
  | Ping => Some PingRequest
  | ListShares => Some ListSharesRequest
  | SeedFile _ _ => Some SeedRequest
  | Ipc.Download _ | DownloadFresh _ => Some DownloadRequestKind
  | DeleteShare _ => Some DeleteShareRequest
  | _ => None
  end.

Section requests.
Context (path_from : string → path) (show_addr : socket_addr → string).
Abbreviation upd := (update path_from show_addr).

Lemma spawned_request moment message g socket kind command :
  SpawnIpcCommand socket kind command ∈ (upd moment message g).2 →
  socket = active_socket_path (g_link g) ∧ request_kind command = Some kind.
Proof.
  assert (∀ e : Effect, e ∉ []) as Hnil by (intros e; apply not_elem_of_nil).
  assert (∀ e e' : Effect, e ∈ [e'] → e = e') as Hone by (intros e e'; apply list_elem_of_singleton).
  assert (∀ a b : IpcCommand * ShareId, Ok (E := string) a = Ok b → a = b) as Hok by (by intros ?? [= ->]).
  assert (∀ g e, e ∈ (apply_socket moment g).2 → ∃ m, e = SendInput m) as Hsock.
  { intros g' e. unfold apply_socket. case_decide; [by intros []%Hnil|]. cbn [snd]. rewrite !elem_of_cons.
    intros [->|[->|[->|[]%Hnil]]]; by eexists. }
  assert (∀ e, e ∈ (spawn_refresh moment g).2 → e = SpawnIpcCommand (active_socket_path (g_link g)) ListSharesRequest ListShares) as Hrefresh.
  { intros e. unfold spawn_refresh. destruct (refresh_inflight _); [by intros []%Hnil|]. apply Hone. }
  destruct message; cbn [GuiApp.update]; try (by intros []%Hnil); try (case_decide; by intros []%Hnil).
  - by intros [? ?]%Hsock.
  - unfold gui_connect. case_decide; [by intros []%Hnil|]. by intros [= -> -> ->]%Hone.
  - by intros [= -> -> ->]%Hrefresh.
  - destruct (refresh_due _ _); [by intros [= -> -> ->]%Hrefresh|by intros []%Hnil].
  - unfold start_watch. case_decide; [by intros []%Hnil|]. destruct (watching _); [by intros []%Hnil|]. by intros ?%Hone.
  - destruct (selected_share_summary _); [|by intros []%Hnil]. destruct (m_display moment); [by intros ?%Hone|by intros []%Hnil].
  - unfold confirm_delete_selected_share. destruct (selected_share_summary _) as [share|]; [|by intros []%Hnil].
    case_decide; [by intros []%Hnil|]. by intros [= -> -> ->]%Hone.
  - cbn [snd]. intros (f & Hf & _)%list_elem_of_fmap. done.
  - unfold start_seed_selected. destruct (seed_files (g_seed g)); [by intros []%Hnil|]. destruct (_ !! _); [|by intros []%Hnil].
    unfold start_seed_path. destruct (bump_seq _). by intros [= -> -> ->]%Hone.
  - unfold start_download_from_form. destruct (build_download_command_from _ _ _ _ _ _ _) as [[request id]| | |] eqn:Hb;
      [|by intros []%Hnil..]. destruct (bump_seq _). intros [= -> -> ->]%Hone. split; [done|]. revert Hb. unfold build_download_command_from.
    rewrite result_bind_Ok. setoid_rewrite result_bind_Ok. setoid_rewrite result_bind_Ok. intros (? & _ & ? & _ & ? & _ & Hb).
    apply Hok, (f_equal fst) in Hb. cbn [fst] in Hb. rewrite <- Hb. by destruct (df_resume _).
  - by intros [? ?]%Hsock.
Qed.

(** * What the answer tells *)
Definition shows_library `{Toolkit} (g : EtleGui) (l : list IpcShareSummary) : Prop :=
  ∀ xs c, Forall (λ x, plain_model x.1) (xs ++ [(g, c)]) →
    part (ToRows LibraryList) (view_run (xs ++ [(g, c)])).1
    = PRows (if never_filled (xs ++ [(g, c)]) LibraryList then [] else library_rows l).

(** The window after the answer to [command], before it [g]. *)
Definition told `{Toolkit} (command : IpcCommand) (response : IpcResponse) (g g' : EtleGui) : Prop :=
  match command, response with
  | Ping, Pong =>
      connected (g_link g') = true ∧ status (g_link g') = "online"%string ∧ g_shelf g' = g_shelf g ∧ g_tasks g' = g_tasks g
  | ListShares, Shares l =>
      connected (g_link g') = true ∧ refresh_inflight (g_link g') = false ∧ shares (g_shelf g') = l ∧ shows_library g' l
  | SeedFile _ _, Ack _ => connected (g_link g') = true ∧ g_shelf g' = g_shelf g ∧ g_tasks g' = g_tasks g
  | (Ipc.Download request | DownloadFresh request), TransferQueued id job_id =>
      connected (g_link g') = true ∧ g_shelf g' = g_shelf g ∧ id = dr_share_id request
      ∧ ∃ t, t ∈ transfers (g_tasks g') ∧ gt_id t = job_id ∧ gt_share_id t = Some id ∧ gt_status t = Running
  | DeleteShare id, ShareDeleted id' _ =>
      id' = id ∧ connected (g_link g') = true ∧ shares (g_shelf g') = filter (λ share, is_share_id share ≠ id) (shares (g_shelf g))
      ∧ pending_delete_share (g_shelf g') ≠ Some id ∧ Forall (λ t, gt_share_id t ≠ Some id) (transfers (g_tasks g'))
  | (ListShares | DeleteShare _), IpcErrorResponse _ =>
      g_shelf g' = g_shelf g ∧ g_tasks g' = g_tasks g ∧ (command = ListShares → refresh_inflight (g_link g') = false)
  | _, _ => False
  end.

Lemma update_first_elem {A} (p : A → bool) f l l' :
  update_first p f l = Some l' → ∃ x, x ∈ l ∧ p x = true ∧ f x ∈ l'.
Proof.
  revert l'. induction l as [|x l IH]; intros l'; [done|]. cbn [update_first]. destruct (p x) eqn:Hp.
  - intros [= <-]. exists x. split_and!; [left|done|left].
  - intros (k & Hk & ->)%fmap_Some. destruct (IH _ Hk) as (y & ? & ? & ?). exists y. split_and!; [by right|done|by right].
Qed.

Lemma sort_transfers_elem t s : t ∈ transfers (sort_transfers s) ↔ t ∈ transfers s.
Proof. cbn [transfers sort_transfers set_transfers]. by rewrite sort_by_perm. Qed.

Lemma transfer_queued_shown id job_id s :
  ∃ t, t ∈ transfers (transfer_queued_answer id job_id s) ∧ gt_id t = job_id ∧ gt_share_id t = Some id ∧ gt_status t = Running.
Proof.
  unfold transfer_queued_answer. destruct (bump_seq s) as [seq s']. destruct (update_first _ _ _) as [l|] eqn:Hu.
  - destruct (update_first_elem _ _ _ _ Hu) as (x & _ & Hx & Hin). unfold by_share in Hx. apply bool_decide_eq_true in Hx as [Hx _].
    eexists. rewrite sort_transfers_elem. split; [exact Hin|done].
  - set (t := mkGuiTransfer _ _ _ _ _ _ _ _ _ _ _ _). exists t. rewrite sort_transfers_elem. split; [|done].
    unfold upsert_transfer. replace (is_transfer_hidden s' t) with false by done. rewrite sort_transfers_elem.
    cbn [transfers set_transfers]. destruct (update_first (same_transfer t) _ _) as [l|] eqn:Hf; cbn [default].
    + by destruct (update_first_elem _ _ _ _ Hf) as (_ & _ & _ & ?).
    + apply elem_of_app. right. left.
Qed.

Lemma idle_if_empty_transfers s : transfers (idle_if_empty s) = transfers s.
Proof. unfold idle_if_empty. by case_decide. Qed.

Lemma answer_told `{Blake3} `{DiskFormat} `{ToolkitLaws} (show_file : FileError → string) library_root command kind d response d' moment g :
  request_kind command = Some kind → answered show_file library_root command d response d' →
  told command response g (upd moment (OnIpcResponse (active_socket_path (g_link g)) kind (Ok response)) g).1.
Proof.
  intros Hkind Hans. cbn [GuiApp.update]. rewrite decide_True by done.
  destruct command; try discriminate Hkind; injection Hkind as <-; cbn [answered] in Hans.
  - destruct Hans as [-> _]. done.
  - destruct Hans as [_ [(l & -> & _)|[e ->]]]; cbn; [|done]. split_and!; try done.
    intros xs c Hall. by apply view_run_rows.
  - by destruct Hans as [[m ->] _].
  - destruct Hans as (Hout & _). unfold delete_outcome in Hout. destruct response; try done.
    destruct Hout as (-> & _). cbn [told]. cbn [apply_ipc_response]. split_and!; try done.
    + cbn. case_decide as Hp; [done|exact Hp].
    + cbn. unfold forget_share_transfers. rewrite idle_if_empty_transfers. cbn [transfers set_transfers]. apply Forall_forall. intros t [Ht _]%list_elem_of_filter. done.
  - destruct Hans as (job_id & -> & _). cbn [told apply_ipc_response]. split_and!; try done. apply transfer_queued_shown.
  - destruct Hans as (job_id & -> & _). cbn [told apply_ipc_response]. split_and!; try done. apply transfer_queued_shown.
Qed.
End requests.

(** * The exchange *)
Section theorems.
Context `{Blake3} `{DiskFormat} `{ToolkitLaws}.
Context `{BincodeLaws IpcCommand, BincodeLaws IpcResponse, BincodeLaws IpcEvent}.
Context (show_file : FileError → string) (library_root : path).
Context (show_ipc : IpcError → string) (endpoint : string → socket_addr).
Context (path_from : string → path) (show_addr : socket_addr → string).
Abbreviation upd := (update path_from show_addr).


(** A subscription, to its end: the window gets the events that the daemon forwarded, in
    order, up to where the stream ends, and is then told that it ended. *)
Theorem window_watch_correct received fa fc socket generation ws wc :
  ack_frame = Ok fa → ipc_frame SubscribeEvents = Ok fc → w_out ws = [] → no_faults wc →
  ∃ r ws', serve_subscription received ws = (r, ws')
    ∧ (env_connect (w_env wc) (S (w_step wc)) (endpoint socket) = Ok (w_out ws') →
       ∃ k wc', spawn_ipc_watch show_ipc endpoint (E := Empty_set) socket generation wc
           = (Ok ((OnIpcEvent generation <$> (event_of <$> take k received)) ++ [IpcWatchStopped generation (show_ipc (IpcIo UnexpectedEof))]), wc')
         ∧ w_out wc' = fc ∧ (no_faults ws → (∀ e, e ∈ received → ∃ f, ipc_frame (event_of e) = Ok f) → take k received = received)).
Proof.
  intros Hack Hfc Hws Hwc.
  destruct (subscription_roundtrip received fa fc (endpoint socket) ws wc Hack Hfc Hws Hwc) as (r & ws' & Hrun & _ & Hsub).
  exists r, ws'. split; [done|]. intros Hconn. destruct (Hsub Hconn) as (k & wc' & Hk & Hclient & Ho & Hall). exists k, wc'. split_and!; [|done|].
  - unfold spawn_ipc_watch. by rewrite Hclient.
  - intros Hn Hframes. specialize (Hall Hn). destruct (received !! k) as [e|] eqn:He.
    + destruct Hall as (err & Herr & _). destruct (Hframes e) as [f Hf]; [by apply list_elem_of_lookup_2 in He|]. congruence.
    + apply take_ge. by apply lookup_ge_None.
Qed.
End theorems.

(** * A sample: the library is refreshed *)
Import Toy WireSample StateSample DiskSample DiscoverySample IpcSample GuiSample CliSample ViewSample.
Module DesktopSample.
Definition show_ipc (e : IpcError) : string := "error".
Definition endpoint (socket : string) : socket_addr := ServerSample.address.
End DesktopSample.


(** The same exchange, run: the daemon has no shares, and the window says that it is idle. *)
Example refreshed :
  let g := EtleGui_new init 0 "" in
  let '(_, d) := once DaemonSample.show_file [] (ServerSample.daemon (CliSample.frame ListShares)) in
  match spawn_ipc_command DesktopSample.show_ipc DesktopSample.endpoint (E := Empty_set) false "/run/etle.sock" ListSharesRequest ListShares
          (ServerSample.stream_world (w_out (dm_world d))) with
  | (Ok answer, _) => status (g_link (update path_from GuiSample.show_addr moment answer g).1) = "idle"%string
  | _ => False
  end.
Proof. by vm_compute. Qed.
